(* ===== verification/_CoqProject ===== *)
-Q . S2P
Prelude.v
Sha256.v
Identity.v
Address.v
Graph.v
Component.v
Capability.v
Manifest.v
Topology.v
Binding.v
Admission.v
Sealing.v
Fixture.v
AdmissionSpec.v
Combinators.v
CombinatorSpec.v
Panel.v
Message.v
InProcess.v
ChannelSpec.v
ChannelRuns.v
ChannelLaws.v
Run.v
Effect.v
Journal.v
EffectStore.v
RegistryStore.v
JournalSpec.v
EffectSpec.v
JournalLaws.v
Units.v
Registry.v
RegistrySpec.v
RegistryLaws.v
RollbackSpec.v
MemoryLaws.v
UnitsSpec.v
UnitsLaws.v
Walk.v
Boundary.v
Invoke.v
Drive.v
WalkSpec.v
BoundarySpec.v
BoundaryLaws.v
InvokeSpec.v
WalkRuns.v
WalkDurable.v
ActivationLaws.v
RegistrationLaws.v
RdepsLaws.v
DriveLaws.v
InvokeLaws.v
Control.v
Ledger.v
LedgerSpec.v
LedgerLaws.v
Detail.v
DetailLaws.v
Plans.v
PlanLaws.v
Commands.v
CommandSpec.v
CommandSteps.v
CommandReads.v
StoredLaws.v
CommandWrites.v
CommandRuns.v
CommandLaws.v
Authoring.v
AuthoringSpec.v
AuthoringLaws.v
