(* ===== verification/Prelude.v ===== *)
(** * Constructicon: a verification library (root file)

    Constructicon compiles an authored graph of components into a sealed
    execution manifest, executes what the manifest names under a fenced lease
    on a durable store, and replays a finished run from its checkpoints. This
    library models that path and proves what makes it trustworthy.

    ** The parts

    Each file models the Python files named here (all under
    [src/constructicon/]) and keeps their names: a Python function [f] is
    the Definition [f], a Pydantic model or dataclass is a Record or Inductive
    with its fields, a raised exception is [Raise] of a [result], and a
    function that mutates a shared object is a computation of the [eff] monad
    below, whose state survives the raise.

    - [Prelude] (this file): the result and exception/state monads, the
      preorders a computation [keeps], Python's stable [sorted], sets of
      strings and insertion-ordered dictionaries ([Dict]).
    - [Sha256], [Identity]: [core/identity.py]. [json_value] normalises a
      component's Python value to a wire value; [canonical_json] prints it;
      [digest] hashes it under a domain and a version; [unique_object] is the
      strict parser's object hook.
    - [Address]: [core/address.py] and [core/ports.py], with the [Dump] classes
      that tie a model to its JSON form and state that the form is faithful.
    - [Graph]: [core/grants.py], [core/graph.py].
    - [Component]: [core/component.py], [core/registry.py],
      [runtime/_resolution.py], the resolution lock of [core/control.py].
    - [Capability]: the channel records of [core/channel.py], the canonical
      exchanges of [core/human.py], the grant policies of [core/executor.py]
      and [core/native_operator.py], the descriptors of [runtime/registry.py].
    - [Manifest]: [core/manifest.py].
    - [Topology], [Binding], [Admission]: [runtime/validator.py]. [Topology] is
      the order of one graph level, [Binding] binds ports and narrows grants,
      [Admission] is the recursive compiler and [admit_] (Python's [admit],
      whose name Rocq reserves). [Sealing]: one induction over the compiler;
      [AdmissionSpec]: the admission theorems, read off it. [Fixture]: the
      registry and graph the witnesses run.
    - [Authoring]: [runtime/authoring.py], the preflight of an authored graph and
      the boundary above [admit_]. [AuthoringSpec]: what it passes ([authored]) and
      how much it looks at; [AuthoringLaws]: the theorems.
    - [Combinators]: [sdk/combinators.py] and the bundles of [sdk/types.py];
      [CombinatorSpec]: what the graphs they build compile to.
    - [Panel]: [core/panel.py] and the panel atomics of [sdk/std.py].
    - [Message]: the channel messages and reply proofs of [core/channel.py] and
      [core/human.py]. [InProcess]: [substrate/channels/in_process.py], the
      whole class. [ChannelSpec] is the abstract log it refines, [ChannelRuns]
      the runs of a channel, [ChannelLaws] their theorems.
    - [Run]: [core/run.py] and the runtime's exceptions. [Journal]:
      [substrate/journal/_sqlite_execution.py] with the fence of
      [_sqlite_runs.py], the checkpoint reader of [_sqlite_execution_facts.py]
      and [create_run] of [_sqlite_schema.py]. [JournalSpec]: what one call can
      do to a store ([jstep]) and what every reachable store satisfies ([good]);
      [JournalLaws]: the theorems.
    - [Effect]: [core/effect.py]. [EffectStore]: the effect facts and
      attestations of the same store. [EffectSpec]: their invariant ([facts]).
      [Boundary]: the walker's [_effect_boundary] and [_BoundChannel], and
      [substrate/effects/channel.py]. [BoundarySpec] shows that they leave
      completions and leases alone; [BoundaryLaws] holds the theorems.
    - [RegistryStore]: [substrate/journal/_sqlite_registry.py], the durable
      registry. [Registry]: [runtime/registry.py], the in-memory store
      ([Registry.InMemory]) and [ComponentRegistry]. [RegistrySpec]: the invariant
      of every history ([reg_ok]), what its reads return and what a cut is;
      [RegistryLaws], [RollbackSpec], [MemoryLaws], [ActivationLaws],
      [RegistrationLaws] and [RdepsLaws] hold the theorems on promotion, rollback,
      the in-memory store, activation, registration and reverse dependencies.
    - [Control]: [core/control.py], the contracts of the control plane. [Ledger]:
      the command ledger, [substrate/journal/_sqlite_control.py] with the reader
      of [_sqlite_commands.py], and its in-memory double ([Ledger.Double],
      [substrate/control.py]). [LedgerSpec]: what one call can do to a ledger
      ([lstep]) and what every history satisfies; [LedgerLaws]: the theorems.
    - [Detail]: the addresses and references of [api/detail.py]. [Plans]: the plans
      and answers of the registry's promotion commands, what is stored of them and
      how it is read back. [Commands]: the executor of those commands. Both are
      [api/_control_commands.py]. [DetailLaws], [PlanLaws]: their round trips;
      [StoredLaws]: what stored plans and answers of any era are read back as.
      [CommandSpec]: what makes a plane sound, what other workers may do, and the
      rules commands are proved by; [CommandSteps], [CommandReads] and
      [CommandWrites]: one rule for each of the executor's steps, composed by
      [CommandRuns] into one for a whole command; [CommandLaws]: the theorems.
    - [Units]: the units of a manifest, their order, their values. [Walk]: the
      scheduler, atomic and loop execution, and replay. [Invoke]: one
      invocation and the capability leases it takes. [Drive]: attempts, their
      shutdown and the entry points. All four are [runtime/walker.py].
      [UnitsSpec] and [UnitsLaws] prove the order; [WalkSpec] and [InvokeSpec]
      what an attempt may do to the store; [WalkRuns] that execution agrees
      with replay, [WalkDurable] that the agreement survives later calls;
      [DriveLaws] and [InvokeLaws] hold the theorems.

    ** State

    - [_Compilation] is [comp_env] (what [admit] is given) and [comp_state] (the
      lists it grows); every message of an [AdmissionError] is one constructor
      of [fault], carrying the values the message interpolates.
    - An in-process channel is [chan], its eleven fields; each public method is
      one transition, as the lock makes it.
    - The durable store is [store], one list of typed rows a table; each public
      method is one transaction ([_txn]) that keeps the store when it raises. A
      history is a list of [jcall]s, made by anyone under any lease.
    - The durable registry is [registry]: the journal's store, whose attestations
      it reads, and two append-only lists of rows. A history is a list of
      [rcall]s; [RegistrationLaws.hcall] are the calls of a whole
      [ComponentRegistry]. The host's import system is a section's variables.
    - The durable command ledger is [ledger], one list of command rows beside the
      domain facts other writers recorded under a command; a history is a list
      of [lcall]s, made by anyone under any claim.
    - The command executor runs over a [plane], the registry and the ledger of one
      database. Each store call is a step, numbered in [world]: before the n-th the
      rest of the world moves, as [env n] says, and where [dies n] holds the
      process ends there, with what it wrote left behind. [lawful] is what the
      world may do - keep the plane sound, only add, and leave the rows this worker
      holds to it until another claim takes them - and
      [other_workers_are_lawful] shows that other workers do no more. A [spec] says
      what a computation leaves and returns for every such world.
    - The walker runs in [outside]: the store, whether the heartbeat has found
      the run lost, and a count of the yields so far. At a yield the rest of the
      world moves: [env n s] says what it did at the n-th one, and [EnvLaw] that
      it only used the store's methods and never this attempt's lease.
    - Component code, capability providers, effect adapters, channels and the
      registry's activation are parameters. [ExternalLaws] and [AdapterLaws] say
      that they leave this attempt's completions and leases to the walker -
      component code as long as what it is handed ([NodeContext]) does - and the
      hypothesis of [activate] that it binds what the registry snapshot holds.

    ** The theorems

    - Identity: canonical text is injective up to member order, digests are
      domain separated, content hashes and invocation ids identify their
      subject. SHA-256 is executable and treated as a black box by the proofs:
      an identity theorem concludes that the subjects agree or that the two
      texts it names are a SHA-256 collision.
    - Topology: the iterative depth-first search decides acyclicity and the
      level order is topological; both return within their fuel.
    - Binding: a port is bound only when the choice is forced, in an order of
      the pool that does not matter; grants only narrow.
    - Admission: a sealed manifest is a closed world of addresses - each is
      supplied, or a declared output of the node it names -, its authority is
      within the run's grants, each of its resolutions is the
      version the snapshot or lock chose, its identity validates, its scopes
      are unique, its loops are complete, and its graph was admissible.
    - Authoring: what the preflight passes is characterised exactly, references it
      passes over included, and it is bounded; the graphs it passes are compiled by
      a bounded recursion unless a composite is within itself.
    - Panels: every vote is counted once, in an order that does not matter; what
      is refused is characterised, and a panel the walker seats concludes.
    - Channels: the class refines an abstract log; retries are exactly-once, a
      request has one authorised reply, and paging loses and repeats nothing.
    - Journal: under calls that keep the writers' discipline ([lawful]) the store
      never damages itself, a superseded owner writes
      nothing, completions are write-once, finished runs are final.
    - Effects: a terminal receipt is written once and stays, nothing outside is asked
      before the request is prepared, what the boundary returns is durable, and
      a message is sent only under an attestation for exactly that message.
    - Registry: every pointer move has its proof and is a compare-and-swap, a cut
      reads the same for ever, a rollback undoes the last move once, activation
      never substitutes code or capabilities (which is what the walker's theorems
      assume of it), registered components are coherent, the in-memory store
      simulates the durable one, and reverse dependencies are exact.
    - Ledger: a command keeps its identity, its request and its first plan, is
      decided once and never rejected beside an approval, channel, resume or
      disposal fact recorded under it (a pointer move is not such a fact); a
      superseded claim writes nothing; the in-memory store is a faithful double.
    - Registry commands: what a command answers is recorded for ever, or it claimed
      nothing, and a move it reports is in the registry, whatever other workers do
      and wherever it dies; a refusal may hide a move the worker it took over from
      made late ([late_move_refused]). A second worker finishes what a crash left,
      within a list of exceptions; a retry replays the answer and writes nothing;
      and workers may run side by side. Plans, answers and detail addresses are
      read back as they were written, or by the code's reading of an earlier era
      of them; the command theorems are on planes whose rows are of today's.
    - Combinators: a flow is the pipeline it reads as, and a panel's members and
      aggregator are bound without a fault unless its generated ids clash.
    - Walker: a unit is ordered after everything it reads; what an invocation
      returns is durable first, and it leaves no lease behind; a shutdown
      releases; a run that SUCCEEDED replays, in every later store, to the
      outputs its execution returned.

    ** Fuel

    - [dfs_fuel] counts every node and connection of a level;
      [find_back_edges] is proved to return under it. [visit] is given one unit
      per node and [place] one more; both are proved to return on an acyclic
      level with declared endpoints. The walker's [place] is given one unit per
      execution unit and one more, and is proved never to run out. [rdeps_loop]
      is given one unit per registered name and one more ([rdeps_exact]).
    - [_compile_graph], [_compile_node] and [_compile_loop] recurse through the
      components they resolve, which Python does without a bound: fuel is a
      parameter, and running out of it is the exception [FuelExhausted]. The
      admission theorems hold at every fuel at which [admit] returns, and
      [authored_graphs_settle] says what fuel is enough behind the preflight, whose
      depth limit bounds its own fuel ([preflight_fuel]). A composite within itself
      passes the preflight and exhausts any fuel ([recursion_passes_preflight]).

    ** What is not modelled

    - Pydantic's own field validation: a record of this library is a validated
      model. Its strings are therefore Unicode, and its dump is a wire value.
    - [seal] builds the manifest without the model's validators, as
      [model_copy] does; that they would pass is a theorem.
    - The seals and inventories by which the store detects edits made behind
      its back, rows that only older versions wrote, and metering.
    - Hard process death (a [BaseException] that is neither an [Exception] nor
      a cancellation): an attempt that dies is one whose later calls are
      missing, which the theorems on the store cover.
    - The iteration order of Python sets; where one decides an order, the
      model takes the first-occurrence order.
    - Executors, git, gates and the SQLite channels are effects; what admission
      asks of a live object is a field of [LiveCapability].
    - Of the API: registering through a command (whose planning is modelled, in
      [Registry]), the run and channel commands, which launch asyncio tasks and
      write channels this library does not model, the migration's witnesses of
      plans from before the typed envelope, and the request, page and summary models.
    - [_classify_fault] of [runtime/authoring.py], which reads prose, and
      [sdk/task.py], which reads annotations by introspection.
    - A method of the registry called by a command is one step of it. Python's
      [repr] of a string and [str] of an exception, which only word messages, are
      parameters.
    - Approvals and capability disposals as facts of their own: the ledger only
      asks whether one was recorded under a command ([owned]).
    - The text of fault and exception messages: a fault carries the values it
      interpolates, an exception its class and what it is about. *)

From stdpp Require Export base tactics list strings gmap sorting.
From stdpp Require Export fin_maps.
From Stdlib Require Export ZArith Lia.

#[export] Set Default Goal Selector "!".
#[export] Set Warnings "-clear-no-such-hyp,-register-all".

(** Notations of the library live in a scope of their own. *)
Declare Scope cx_scope.
Delimit Scope cx_scope with cx.
Open Scope cx_scope.

(** Hint databases: [cx] closes list/dict side conditions, [keeps] proves that
    an effectful computation respects a preorder on states. *)
Create HintDb cx.
Create HintDb keeps.

(** ** Results and the exception/state monad

    Python code raises; the state mutated before the [raise] stays mutated.
    [eff S E A] therefore returns the state in both cases. *)
Inductive result (E A : Type) : Type :=
| Ok (a : A)
| Raise (e : E).
Arguments Ok {E A} _.
Arguments Raise {E A} _.

#[export] Instance result_eq_dec `{EqDecision E, EqDecision A} :
  EqDecision (result E A).
Proof. solve_decision. Defined.

#[export] Instance result_ret {E} : MRet (result E) := λ A a, Ok a.
#[export] Instance result_bind {E} : MBind (result E) := λ A B f m,
  match m with Ok a => f a | Raise e => Raise e end.

#[export] Instance result_fmap {E} : FMap (result E) := λ A B f m,
  match m with Ok a => Ok (f a) | Raise e => Raise e end.

Definition is_ok {E A} (r : result E A) : bool :=
  match r with Ok _ => true | Raise _ => false end.

Lemma result_bind_ok {E A B} (m : result E A) (f : A → result E B) b :
  (m ≫= f) = Ok b ↔ ∃ a, m = Ok a ∧ f a = Ok b.
Proof. destruct m; naive_solver. Qed.

Lemma Ok_inj {E A} (a b : A) : @Ok E A a = Ok b → a = b.
Proof. by intros [=]. Qed.

Definition eff (S E A : Type) : Type := S → result E A * S.

Section eff.
Context {S E : Type}.
Definition eret {A} (a : A) : eff S E A := λ s, (Ok a, s).
Definition raise {A} (e : E) : eff S E A := λ s, (Raise e, s).
Definition ebind {A B} (m : eff S E A) (f : A → eff S E B) : eff S E B :=
  λ s, match m s with
       | (Ok a, s') => f a s'
       | (Raise e, s') => (Raise e, s')
       end.
Definition get : eff S E S := λ s, (Ok s, s).
Definition modify (f : S → S) : eff S E unit := λ s, (Ok tt, f s).
Definition lift {A} (r : result E A) : eff S E A := λ s, (r, s).
(** [try: m except e: h e] *)
Definition catch {A} (m : eff S E A) (h : E → eff S E A) : eff S E A :=
  λ s, match m s with
       | (Ok a, s') => (Ok a, s')
       | (Raise e, s') => h e s'
       end.
Fixpoint eiter {A} (f : A → eff S E unit) (l : list A) : eff S E unit :=
  match l with
  | [] => eret tt
  | x :: l => ebind (f x) (λ _, eiter f l)
  end.
Fixpoint emap {A B} (f : A → eff S E B) (l : list A) : eff S E (list B) :=
  match l with
  | [] => eret []
  | x :: l => ebind (f x) (λ y, ebind (emap f l) (λ ys, eret (y :: ys)))
  end.
(** A [for] loop that threads an accumulator. *)
Fixpoint efold {A B} (f : B → A → eff S E B) (b : B) (l : list A) : eff S E B :=
  match l with
  | [] => eret b
  | x :: l => ebind (f b x) (λ b', efold f b' l)
  end.
Definition ewhen (b : bool) (m : eff S E unit) : eff S E unit :=
  if b then m else eret tt.
End eff.

Notation "'let*' x := m 'in' k" := (ebind m (λ x, k))
  (at level 10, x name, m at level 100, k at level 200,
   format "'let*'  x  :=  m  'in'  '//' k") : cx_scope.
Notation "'let*' ' x := m 'in' k" := (ebind m (λ x, k))
  (at level 10, x strict pattern, m at level 100, k at level 200,
   format "'let*'  ' x  :=  m  'in'  '//' k") : cx_scope.
Notation "m ;;; k" := (ebind m (λ _, k))
  (at level 100, k at level 200, right associativity,
   format "m  ;;;  '//' k") : cx_scope.

Section eff_lemmas.
Context {S E : Type}.

Lemma emap_pure {A B} (f : A → eff S E B) (h : A → B) l s :
  (∀ x, x ∈ l → f x s = (Ok (h x), s)) → emap f l s = (Ok (h <$> l), s).
Proof.
  induction l as [|x l IH]; intros H; [done|]. simpl. unfold ebind.
  rewrite H by left. rewrite IH by (intros y Hy; apply H; by right). done.
Qed.
Lemma ebind_ok {A B} (m : eff S E A) (f : A → eff S E B) s b s' :
  ebind m f s = (Ok b, s') ↔
  ∃ a s1, m s = (Ok a, s1) ∧ f a s1 = (Ok b, s').
Proof. unfold ebind. destruct (m s) as [[a|e] s1]; naive_solver. Qed.

Lemma ebind_eq {A B} (m : eff S E A) (f : A → eff S E B) s a s' : m s = (Ok a, s') → ebind m f s = f a s'.
Proof. unfold ebind. by intros ->. Qed.
Lemma ebind_ext {A B} (m m' : eff S E A) (f g : A → eff S E B) s :
  m s = m' s → (∀ a s', m s = (Ok a, s') → f a s' = g a s') → ebind m f s = ebind m' g s.
Proof. unfold ebind. intros <- H. destruct (m s) as [[a|e] s']; [by apply H|done]. Qed.
Lemma ebind_raise {A B} (m : eff S E A) (f : A → eff S E B) s e s' :
  ebind m f s = (Raise e, s') ↔
  m s = (Raise e, s') ∨ ∃ a s1, m s = (Ok a, s1) ∧ f a s1 = (Raise e, s').
Proof. unfold ebind. destruct (m s) as [[a|e'] s1]; naive_solver. Qed.

Lemma ebind_assoc {A B C} (m : eff S E A) (f : A → eff S E B) (g : B → eff S E C) s :
  ebind (ebind m f) g s = ebind m (λ x, ebind (f x) g) s.
Proof. unfold ebind. by destruct (m s) as [[a|e] s1]. Qed.

Lemma ebind_eret_l {A B} (a : A) (f : A → eff S E B) s : ebind (eret a) f s = f a s.
Proof. done. Qed.

Lemma eiter_app {A} (f : A → eff S E unit) l1 l2 s :
  eiter f (l1 ++ l2) s = ebind (eiter f l1) (λ _, eiter f l2) s.
Proof.
  revert s. induction l1 as [|x l1 IH]; intros s; [done|].
  simpl. unfold ebind. destruct (f x s) as [[u|e] s1]; [|done]. apply IH.
Qed.

(** *** Computations that respect a relation between the states before and
    after, whatever they return. *)
Definition keeps {A} (R : S → S → Prop) (m : eff S E A) : Prop := ∀ s, R s (m s).2.

Context (R : S → S → Prop) `{!PreOrder R}.

Lemma keeps_eret {A} (a : A) : keeps R (eret a).
Proof. intros s. simpl. reflexivity. Qed.
Lemma keeps_raise {A} (e : E) : keeps R (raise (A:=A) e).
Proof. intros s. simpl. reflexivity. Qed.
Lemma keeps_lift {A} (r : result E A) : keeps R (lift r).
Proof. intros s. simpl. reflexivity. Qed.
Lemma keeps_get : keeps R get.
Proof. intros s. simpl. reflexivity. Qed.
Lemma keeps_modify (f : S → S) : (∀ s, R s (f s)) → keeps R (modify f).
Proof. intros H s. apply H. Qed.
Lemma keeps_bind {A B} (m : eff S E A) (f : A → eff S E B) :
  keeps R m → (∀ a, keeps R (f a)) → keeps R (ebind m f).
Proof.
  intros Hm Hf s. specialize (Hm s). unfold ebind.
  destruct (m s) as [[a|e] s1]; [|done].
  simpl in *. etrans; [exact Hm|apply Hf].
Qed.
Lemma keeps_catch {A} (m : eff S E A) h :
  keeps R m → (∀ e, keeps R (h e)) → keeps R (catch m h).
Proof.
  intros Hm Hh s. specialize (Hm s). unfold catch.
  destruct (m s) as [[a|e] s1]; [done|]. simpl in *.
  etrans; [exact Hm|apply Hh].
Qed.
Lemma keeps_eiter {A} (f : A → eff S E unit) l :
  (∀ x, x ∈ l → keeps R (f x)) → keeps R (eiter f l).
Proof.
  induction l as [|x l IH]; intros H; [apply keeps_eret|].
  simpl. apply keeps_bind; [apply H; left|intros _]. apply IH. intros y Hy.
  apply H. by right.
Qed.
Lemma keeps_emap {A B} (f : A → eff S E B) l :
  (∀ x, x ∈ l → keeps R (f x)) → keeps R (emap f l).
Proof.
  induction l as [|x l IH]; intros H; [apply keeps_eret|]. simpl.
  apply keeps_bind; [apply H; left|]. intros y.
  apply keeps_bind; [|intros; apply keeps_eret].
  apply IH. intros z Hz. apply H. by right.
Qed.
Lemma keeps_efold {A B} (f : B → A → eff S E B) b l :
  (∀ b x, x ∈ l → keeps R (f b x)) → keeps R (efold f b l).
Proof.
  revert b. induction l as [|x l IH]; intros b H; [apply keeps_eret|].
  simpl. apply keeps_bind; [apply H; left|]. intros b'. apply IH.
  intros b'' y Hy. apply H. by right.
Qed.
Lemma keeps_ewhen b (m : eff S E unit) : keeps R m → keeps R (ewhen b m).
Proof. destruct b; [done|]. intros _. apply keeps_eret. Qed.
End eff_lemmas.

#[export] Hint Resolve keeps_eret keeps_raise keeps_lift keeps_get keeps_modify
  keeps_bind keeps_catch keeps_eiter keeps_emap keeps_efold keeps_ewhen : keeps.

(** Opens an effectful computation step by step. *)
Ltac eff_step :=
  match goal with
  | H : ebind _ _ _ = (Ok _, _) |- _ =>
      apply ebind_ok in H as (? & ? & ? & H)
  | H : eret _ _ = _ |- _ => unfold eret in H; simplify_eq H; intros; subst
  | H : raise _ _ = _ |- _ => unfold raise in H; discriminate H
  | H : (Ok _, _) = (Ok _, _) |- _ => injection H as H; subst
  | H : get _ = _ |- _ => unfold get in H; simplify_eq H; intros; subst
  | H : modify _ _ = _ |- _ => unfold modify in H; simplify_eq H; intros; subst
  end.

Ltac keeps_step :=
  match goal with
  | |- PreOrder _ => apply _
  | |- keeps _ (eret _) => apply keeps_eret
  | |- keeps _ (raise _) => apply keeps_raise
  | |- keeps _ (lift _) => apply keeps_lift
  | |- keeps _ get => apply keeps_get
  | |- keeps _ (ebind _ _) => apply keeps_bind; [try apply _| |intros ?]
  | |- keeps _ (ewhen _ _) => apply keeps_ewhen
  | |- keeps _ (eiter _ _) => apply keeps_eiter; [try apply _|intros ? ?]
  | |- keeps _ (emap _ _) => apply keeps_emap; [try apply _|intros ? ?]
  | |- keeps _ (efold _ _ _) => apply keeps_efold; [try apply _|intros ? ? ?]
  | |- keeps _ (match ?x with _ => _ end) => destruct x
  | |- keeps _ (let _ := _ in _) => cbv zeta
  end.

(** ** Python's [sorted]: a stable sort by a boolean order *)

Class TotalLeb {A} (leb : A → A → bool) : Prop := {
  leb_total x y : leb x y = true ∨ leb y x = true;
  leb_trans x y z : leb x y = true → leb y z = true → leb x z = true;
}.
Class AntiLeb {A} (leb : A → A → bool) : Prop :=
  leb_antisym x y : leb x y = true → leb y x = true → x = y.

#[export] Instance string_leb_total : TotalLeb String.leb.
Proof.
  split.
  - intros x y. destruct (String.leb_total x y); auto.
  - intros x y z H1 H2.
    assert (String.le x z) as H; [|by apply Is_true_true in H].
    etrans; apply Is_true_true; [exact H1|exact H2].
Qed.
#[export] Instance string_leb_anti : AntiLeb String.leb.
Proof. intros x y. apply String.leb_antisym. Qed.

Section lex.
Context {A B : Type} `{EqDecision A} (la : A → A → bool) (lb : B → B → bool).
(** Tuples of any length compare lexicographically. *)
Fixpoint list_leb (l k : list A) : bool :=
  match l, k with
  | [], _ => true
  | _ :: _, [] => false
  | x :: l, y :: k => if decide (x = y) then list_leb l k else la x y
  end.
Definition pair_leb (p q : A * B) : bool :=
  if decide (p.1 = q.1) then lb p.2 q.2 else la p.1 q.1.

#[export] Instance list_leb_total_inst `{!TotalLeb la, !AntiLeb la} : TotalLeb list_leb.
Proof.
  split.
  - induction x as [|x l IH]; intros [|y k]; simpl; auto.
    destruct (decide (x = y)) as [->|?].
    + rewrite decide_True by done. apply IH.
    + rewrite decide_False by done. apply leb_total.
  - induction x as [|x l IH]; intros [|y k] [|z m]; simpl; try done.
    destruct (decide (x = y)) as [->|Hne], (decide (y = z)) as [->|Hne']; intros Hxy Hyz.
    + eauto.
    + done.
    + by rewrite decide_False.
    + case_decide; subst; [|by eapply leb_trans]. destruct Hne. by apply leb_antisym.
Qed.
#[export] Instance list_leb_anti_inst `{!TotalLeb la, !AntiLeb la} : AntiLeb list_leb.
Proof.
  intros x. induction x as [|x l IH]; intros [|y k]; simpl; try done.
  repeat case_decide; subst; try done; intros Hxy Hyx.
  - f_equal. auto.
  - exfalso. eauto using leb_antisym.
Qed.
#[export] Instance pair_leb_total_inst `{!TotalLeb la, !AntiLeb la, !TotalLeb lb} :
  TotalLeb pair_leb.
Proof.
  unfold pair_leb. split; intros [a k] [b j]; simpl.
  - destruct (decide (a = b)) as [->|Hne].
    + rewrite decide_True by done. apply leb_total.
    + rewrite decide_False by done. apply leb_total.
  - intros [c i]. simpl. repeat case_decide; subst; try done; intros Hx Hy.
    + by eapply leb_trans.
    + exfalso. by eapply H, leb_antisym.
    + by eapply leb_trans.
Qed.
#[export] Instance pair_leb_anti_inst `{!TotalLeb la, !AntiLeb la, !AntiLeb lb} :
  AntiLeb pair_leb.
Proof.
  unfold pair_leb. intros [a k] [b j]; simpl.
  repeat case_decide; subst; try done; intros Hx Hy; [f_equal; by apply leb_antisym|].
  exfalso. by apply H, leb_antisym.
Qed.
End lex.

Definition str_leb := String.leb.
(** Scope segments compare as tuples of strings. *)
Definition segs_leb : list string → list string → bool := list_leb String.leb.

Section sort.
Context {A : Type} (leb : A → A → bool).
Fixpoint sort_insert (x : A) (l : list A) : list A :=
  match l with
  | [] => [x]
  | y :: l' => if leb x y then x :: l else y :: sort_insert x l'
  end.
Fixpoint py_sorted (l : list A) : list A :=
  match l with
  | [] => []
  | x :: l => sort_insert x (py_sorted l)
  end.

Lemma sort_insert_perm x l : sort_insert x l ≡ₚ x :: l.
Proof.
  induction l as [|y l IH]; simpl; [done|]. destruct (leb x y); [done|].
  rewrite IH. constructor.
Qed.
Lemma py_sorted_perm l : py_sorted l ≡ₚ l.
Proof. induction l as [|x l IH]; simpl; [done|]. by rewrite sort_insert_perm, IH. Qed.

Definition le_of (x y : A) : Prop := leb x y = true.

Lemma sort_insert_sorted `{!TotalLeb leb} x l :
  StronglySorted le_of l → StronglySorted le_of (sort_insert x l).
Proof.
  induction l as [|y l IH]; simpl; intros H; [by repeat constructor|].
  inversion H as [|?? Hs Hf]; subst. destruct (leb x y) eqn:E.
  - constructor; [done|]. constructor; [done|].
    eapply Forall_impl; [exact Hf|]. intros z Hz. by eapply leb_trans.
  - constructor; [by apply IH|]. rewrite sort_insert_perm. constructor; [|done].
    destruct (leb_total x y) as [Hxy|]; [congruence|done].
Qed.
Lemma py_sorted_sorted `{!TotalLeb leb} l : StronglySorted le_of (py_sorted l).
Proof. induction l; simpl; [constructor|]. by apply sort_insert_sorted. Qed.

(** A list with no two equivalent elements has one sorted arrangement. *)
Lemma sorted_unique_strong l k :
  (∀ x y, x ∈ l → y ∈ l → leb x y = true → leb y x = true → x = y) →
  StronglySorted le_of l → StronglySorted le_of k → l ≡ₚ k → l = k.
Proof.
  intros Hanti Hl Hk Hp. eapply StronglySorted_unique_strong; [|done..].
  intros x y Hx Hy. apply Hanti; [done|]. by rewrite Hp.
Qed.

Lemma py_sorted_perm_eq `{!TotalLeb leb} l k :
  (∀ x y, x ∈ l → y ∈ l → leb x y = true → leb y x = true → x = y) →
  l ≡ₚ k → py_sorted l = py_sorted k.
Proof.
  intros Hanti Hp. apply sorted_unique_strong; [|apply py_sorted_sorted..|].
  - intros x y. rewrite !py_sorted_perm. apply Hanti.
  - by rewrite !py_sorted_perm.
Qed.
Lemma py_sorted_perm_anti `{!TotalLeb leb, !AntiLeb leb} l k :
  l ≡ₚ k → py_sorted l = py_sorted k.
Proof. apply py_sorted_perm_eq. intros; by apply leb_antisym. Qed.
Lemma elem_of_py_sorted x l : x ∈ py_sorted l ↔ x ∈ l.
Proof. by rewrite py_sorted_perm. Qed.
Lemma length_py_sorted l : length (py_sorted l) = length l.
Proof. by rewrite py_sorted_perm. Qed.
Lemma NoDup_py_sorted l : NoDup (py_sorted l) ↔ NoDup l.
Proof. by rewrite py_sorted_perm. Qed.
End sort.

(** [sorted(xs, key=f)] *)
Definition sorted_by {A K} (leb : K → K → bool) (key : A → K) : list A → list A :=
  py_sorted (λ x y, leb (key x) (key y)).
#[export] Instance key_leb_total {A K} (leb : K → K → bool) (key : A → K) `{!TotalLeb leb} :
  TotalLeb (λ x y, leb (key x) (key y)).
Proof. split; [intros; apply leb_total|intros ???; apply leb_trans]. Qed.

Lemma sorted_by_perm_eq {A K} (leb : K → K → bool) (key : A → K)
  `{!TotalLeb leb, !AntiLeb leb} l k :
  (∀ x y, x ∈ l → y ∈ l → key x = key y → x = y) →
  l ≡ₚ k → sorted_by leb key l = sorted_by leb key k.
Proof.
  intros Hinj. apply py_sorted_perm_eq; [apply _|].
  intros x y Hx Hy H1 H2. apply Hinj; [done..|]. by apply leb_antisym.
Qed.

(** [sorted(set(xs))] *)
Definition sorted_set (l : list string) : list string :=
  py_sorted String.leb (remove_dups l).
Lemma elem_of_sorted_set x l : x ∈ sorted_set l ↔ x ∈ l.
Proof. unfold sorted_set. by rewrite elem_of_py_sorted, elem_of_remove_dups. Qed.

(** ** Python dicts: insertion-ordered association lists *)
Lemma filter_all {A} (P : A → Prop) `{∀ x, Decision (P x)} l : Forall P l → filter P l = l.
Proof. induction 1 as [|x l Hx _ IH]; [done|]. by rewrite filter_cons_True, IH. Qed.
Lemma filter_none {A} (P : A → Prop) `{∀ x, Decision (P x)} l : Forall (λ x, ¬ P x) l → filter P l = [].
Proof. induction 1 as [|x l Hx _ IH]; [done|]. by rewrite filter_cons_False. Qed.

Module Dict.
Section dict.
Context {K V : Type} `{EqDecision K}.
Implicit Types d : list (K * V).

Fixpoint get (k : K) d : option V :=
  match d with
  | [] => None
  | (k', v) :: d => if decide (k = k') then Some v else get k d
  end.
(** [d.get(k, default)] *)
Definition get_or (k : K) (default : V) d : V := from_option id default (get k d).
(** [d[k] = v]: in place when the key is there, appended when it is new. *)
Fixpoint set (k : K) (v : V) d : list (K * V) :=
  match d with
  | [] => [(k, v)]
  | (k', v') :: d => if decide (k = k') then (k', v) :: d else (k', v') :: set k v d
  end.
(** [d.setdefault(k, v)], the dict it leaves behind. *)
Definition setdefault (k : K) (v : V) d : list (K * V) :=
  match get k d with Some _ => d | None => set k v d end.
Definition mem (k : K) d : bool := bool_decide (is_Some (get k d)).
Definition keys d : list K := d.*1.
Definition values d : list V := d.*2.
(** A dict display or comprehension: later pairs overwrite earlier ones. *)
Definition of_pairs (l : list (K * V)) : list (K * V) :=
  foldl (λ d kv, set kv.1 kv.2 d) [] l.

Lemma get_set_eq k v d : get k (set k v d) = Some v.
Proof.
  induction d as [|[k' v'] d IH]; simpl; [by rewrite decide_True|].
  case_decide; simpl; [by rewrite decide_True by done|]. by rewrite decide_False.
Qed.
Lemma get_set_ne k k' v d : k ≠ k' → get k (set k' v d) = get k d.
Proof.
  intros Hne. induction d as [|[k1 v1] d IH]; simpl; [by rewrite decide_False|].
  destruct (decide (k' = k1)) as [->|]; simpl; [by rewrite !decide_False by done|].
  by rewrite IH.
Qed.
Lemma get_set k k' v d :
  get k (set k' v d) = if decide (k = k') then Some v else get k d.
Proof. case_decide; subst; [apply get_set_eq|by apply get_set_ne]. Qed.
Lemma get_elem k v d : get k d = Some v → (k, v) ∈ d.
Proof.
  induction d as [|[k' v'] d IH]; simpl; [done|].
  case_decide; intros; simplify_eq; [by left|]. right. auto.
Qed.
Lemma get_or_elem k v0 d : get_or k v0 d = v0 ∨ (k, get_or k v0 d) ∈ d.
Proof.
  unfold get_or. destruct (get k d) as [v|] eqn:E; simpl; [|by left].
  right. by apply get_elem.
Qed.
Lemma get_is_Some k d : is_Some (get k d) ↔ k ∈ keys d.
Proof.
  induction d as [|[k' v'] d IH]; simpl.
  - split; [by intros []|by intros ?%elem_of_nil].
  - rewrite elem_of_cons. case_decide; subst; [by naive_solver|].
    rewrite IH. naive_solver.
Qed.
Lemma get_None k d : get k d = None ↔ k ∉ keys d.
Proof. rewrite <-get_is_Some. by rewrite eq_None_not_Some. Qed.
Lemma get_app_l k v d e : get k d = Some v → get k (d ++ e) = Some v.
Proof. induction d as [|[k' v'] d IH]; simpl; [done|]. by case_decide. Qed.
Lemma get_NoDup k v d : NoDup (keys d) → (k, v) ∈ d → get k d = Some v.
Proof.
  induction d as [|[k' v'] d IH]; simpl; [by intros ? ?%elem_of_nil|].
  intros [Hk Hd]%NoDup_cons [?|Hin]%elem_of_cons; simplify_eq.
  - by rewrite decide_True.
  - rewrite decide_False; [by apply IH|]. intros ->. apply Hk.
    apply list_elem_of_fmap. by exists (k', v).
Qed.
Lemma keys_set k v d :
  keys (set k v d) = if decide (k ∈ keys d) then keys d else keys d ++ [k].
Proof.
  destruct (decide (k ∈ keys d)) as [Hin|Hin]; revert Hin;
    unfold keys; induction d as [|[k' v'] d IH]; simpl.
  - by intros ?%elem_of_nil.
  - destruct (decide (k = k')); simpl; [done|]. intros Hin. f_equal. apply IH. set_solver.
  - done.
  - destruct (decide (k = k')) as [->|]; simpl; intros Hin; [set_solver|].
    f_equal. apply IH. set_solver.
Qed.
Lemma elem_of_keys_set k k' v d : k ∈ keys (set k' v d) ↔ k = k' ∨ k ∈ keys d.
Proof. rewrite keys_set. case_decide; set_solver. Qed.
Lemma NoDup_keys_set k v d : NoDup (keys d) → NoDup (keys (set k v d)).
Proof.
  intros Hd. rewrite keys_set. case_decide; [done|].
  apply NoDup_app. split; [done|]. split; [set_solver|]. apply NoDup_singleton.
Qed.
Lemma set_fresh k v d : k ∉ keys d → set k v d = d ++ [(k, v)].
Proof.
  induction d as [|[k' v'] d IH]; simpl; [done|]. intros Hk.
  rewrite decide_False by set_solver. rewrite IH by set_solver. done.
Qed.
Lemma elem_of_set k v d p : p ∈ set k v d → p = (k, v) ∨ p ∈ d.
Proof.
  induction d as [|[k' v'] d IH]; simpl; [by intros ->%list_elem_of_singleton; left|].
  case_decide; subst; set_solver.
Qed.
Lemma foldl_set_keys l d k :
  k ∈ keys (foldl (λ d kv, set kv.1 kv.2 d) d l) ↔ k ∈ keys d ∨ k ∈ l.*1.
Proof.
  revert d. induction l as [|[k1 v1] l IH]; intros d; simpl; [set_solver|].
  rewrite IH, elem_of_keys_set. set_solver.
Qed.
Lemma keys_of_pairs l k : k ∈ keys (of_pairs l) ↔ k ∈ l.*1.
Proof. unfold of_pairs. rewrite foldl_set_keys. simpl. set_solver. Qed.
Lemma NoDup_keys_of_pairs l : NoDup (keys (of_pairs l)).
Proof.
  unfold of_pairs. assert (NoDup (keys ([] : list (K * V)))) as H by constructor.
  revert H. generalize ([] : list (K * V)). induction l as [|kv l IH]; intros d Hd; [done|].
  simpl. apply IH. by apply NoDup_keys_set.
Qed.
Lemma of_pairs_NoDup l : NoDup l.*1 → of_pairs l = l.
Proof.
  unfold of_pairs. enough (∀ d, NoDup (keys d ++ l.*1) →
    foldl (λ d kv, set kv.1 kv.2 d) d l = d ++ l) as H by (intros; by apply H).
  induction l as [|[k v] l IH]; intros d Hd; simpl; [by rewrite app_nil_r|].
  simpl in Hd. rewrite set_fresh by (apply NoDup_app in Hd; set_solver).
  rewrite IH; [by rewrite <-app_assoc|].
  unfold keys. rewrite fmap_app. simpl. by rewrite <-app_assoc.
Qed.
Lemma get_of_pairs_elem k v l : get k (of_pairs l) = Some v → (k, v) ∈ l.
Proof.
  unfold of_pairs. enough (∀ d, get k (foldl (λ d kv, set kv.1 kv.2 d) d l) = Some v →
    get k d = Some v ∨ (k, v) ∈ l) as H by (intros ?%H; by naive_solver).
  induction l as [|[k1 v1] l IH]; intros d; simpl; [by left|].
  intros [H|H]%IH; [|right; by right]. rewrite get_set in H.
  case_decide; simplify_eq; [right; by left|by left].
Qed.
End dict.
(** [d.setdefault(k, []).append(x)] *)
Definition append {K V} `{EqDecision K} (k : K) (x : V) (d : list (K * list V)) :=
  set k (get_or k [] d ++ [x]) d.
End Dict.

(** ** Small list facts *)
Lemma Forall_app_2' {A} (P : A → Prop) l k : Forall P l → Forall P k → Forall P (l ++ k).
Proof. rewrite Forall_app. auto. Qed.

Lemma take_prefix {A} n (l k : list A) : l `prefix_of` k → n ≤ length l → take n k = take n l.
Proof. intros [x ->] Hn. by apply take_app_le. Qed.
Lemma existsb_elem {A} (f : A → bool) l : existsb f l = true ↔ ∃ x, x ∈ l ∧ f x = true.
Proof. rewrite existsb_exists. setoid_rewrite list_elem_of_In. done. Qed.
Lemma forallb_elem {A} (f : A → bool) l : forallb f l = true ↔ ∀ x, x ∈ l → f x = true.
Proof. rewrite forallb_forall. setoid_rewrite list_elem_of_In. done. Qed.

#[export] Hint Resolve Forall_app_2' Dict.NoDup_keys_set Dict.NoDup_keys_of_pairs : cx.
