(* ===== verification/Sha256.v ===== *)
(** SHA-256 (FIPS 180-4), the one function of Python's [hashlib] that
    [core/identity.py] uses. It is executable, so identities in the witnesses
    are the real ones; the proofs about it say only that the hexadecimal digest
    is 64 lowercase hexadecimal characters. *)

From S2P Require Import Prelude.
From Stdlib Require Import Ascii.
#[local] Open Scope Z_scope.

Module Sha256.
(** 32-bit words as [Z], with the wrap-around written out. *)
Definition w32 (x : Z) : Z := Z.land x 0xffffffff.
Definition add32 (x y : Z) : Z := w32 (x + y).
Definition not32 (x : Z) : Z := Z.lxor x 0xffffffff.
Definition rotr (n x : Z) : Z := Z.lor (Z.shiftr x n) (w32 (Z.shiftl x (32 - n))).

Definition ch (x y z : Z) : Z := Z.lxor (Z.land x y) (Z.land (not32 x) z).
Definition maj (x y z : Z) : Z :=
  Z.lxor (Z.lxor (Z.land x y) (Z.land x z)) (Z.land y z).
Definition bsig0 (x : Z) : Z := Z.lxor (Z.lxor (rotr 2 x) (rotr 13 x)) (rotr 22 x).
Definition bsig1 (x : Z) : Z := Z.lxor (Z.lxor (rotr 6 x) (rotr 11 x)) (rotr 25 x).
Definition ssig0 (x : Z) : Z := Z.lxor (Z.lxor (rotr 7 x) (rotr 18 x)) (Z.shiftr x 3).
Definition ssig1 (x : Z) : Z := Z.lxor (Z.lxor (rotr 17 x) (rotr 19 x)) (Z.shiftr x 10).

(** The constants are what FIPS 180-4 says they are: 32 bits of the fractional
    parts of the cube and square roots of the first primes. [digits n k] is the
    largest [x] below [2^k] with [x^e <= n]. *)
Definition prime (n : Z) : bool :=
  forallb (λ d, negb (n mod Z.of_nat d =? 0)) (seq 2 (Z.to_nat n - 2)).
Definition first_primes : list Z := filter (λ n, prime n = true) (Z.of_nat <$> seq 2 310).
Fixpoint digits (e n : Z) (k : nat) (acc : Z) : Z :=
  match k with
  | O => acc
  | S k =>
      let x := acc + Z.shiftl 1 (Z.of_nat k) in
      digits e n k (if x ^ e <=? n then x else acc)
  end.
Definition root_fraction (e p : Z) : Z := w32 (digits e (p * 2 ^ (32 * e)) 40 0).
Definition K : list Z := Eval vm_compute in root_fraction 3 <$> take 64 first_primes.
Definition H0 : list Z := Eval vm_compute in root_fraction 2 <$> take 8 first_primes.

(** Padding: one 1 bit, zeroes, and the bit length as 64 bits, big endian. *)
Fixpoint be_bytes (n : nat) (x : Z) : list Z :=
  match n with
  | O => []
  | S n => be_bytes n (Z.shiftr x 8) ++ [Z.land x 0xff]
  end.
Definition pad (msg : list Z) : list Z :=
  let len := Z.of_nat (length msg) in
  let zeroes := Z.to_nat ((55 - len) mod 64) in
  msg ++ [0x80] ++ replicate zeroes 0 ++ be_bytes 8 (8 * len).

(** Words of a padded message, sixteen to a block. *)
Fixpoint words (bs : list Z) : list Z :=
  match bs with
  | a :: b :: c :: d :: bs =>
      Z.lor (Z.lor (Z.shiftl a 24) (Z.shiftl b 16)) (Z.lor (Z.shiftl c 8) d) :: words bs
  | _ => []
  end.
Fixpoint blocks (fuel : nat) (ws : list Z) : list (list Z) :=
  match fuel, ws with
  | S fuel, _ :: _ => take 16 ws :: blocks fuel (drop 16 ws)
  | _, _ => []
  end.

(** The message schedule, newest word first. *)
Fixpoint schedule (n : nat) (rev_ws : list Z) : list Z :=
  match n with
  | O => rev_ws
  | S n =>
      let at_ i := nth i rev_ws 0 in
      schedule n
        (add32 (add32 (ssig1 (at_ 1%nat)) (at_ 6%nat))
               (add32 (ssig0 (at_ 14%nat)) (at_ 15%nat)) :: rev_ws)
  end.

Definition round (st : list Z) (kw : Z * Z) : list Z :=
  match st with
  | [a; b; c; d; e; f; g; h] =>
      let t1 := add32 (add32 h (bsig1 e)) (add32 (ch e f g) (add32 kw.1 kw.2)) in
      let t2 := add32 (bsig0 a) (maj a b c) in
      [add32 t1 t2; a; b; c; add32 d t1; e; f; g]
  | _ => st
  end.
Definition compress (st block : list Z) : list Z :=
  let ws := rev (schedule 48 (rev block)) in
  zip_with add32 st (foldl round st (zip K ws)).

Definition of_ascii (c : ascii) : Z := Z.of_N (N_of_ascii c).
Definition bytes (s : string) : list Z := of_ascii <$> String.list_ascii_of_string s.

Definition sum (s : string) : list Z :=
  let ws := words (pad (bytes s)) in
  foldl compress H0 (blocks (length ws) ws).

Definition hex_digit (x : Z) : ascii :=
  nth (Z.to_nat x) (String.list_ascii_of_string "0123456789abcdef") "0"%char.
Definition hex_byte (x : Z) : list ascii :=
  [hex_digit (Z.land (Z.shiftr x 4) 0xf); hex_digit (Z.land x 0xf)].
(** [hashlib.sha256(material).hexdigest()] *)
Definition hexdigest (s : string) : string :=
  String.string_of_list_ascii (mjoin (hex_byte <$> mjoin (be_bytes 4 <$> sum s))).

Example hexdigest_abc :
  hexdigest "abc" = "ba7816bf8f01cfea414140de5dae2223b00361a396177a9cb410ff61f20015ad".
Proof. vm_compute. reflexivity. Qed.
Example hexdigest_two_blocks :
  hexdigest "abcdbcdecdefdefgefghfghighijhijkijkljklmklmnlmnomnopnopq"
  = "248d6a61d20638b8e5c026930c3e6039a33ce45964ff2167f6ecedd419db06c1".
Proof. vm_compute. reflexivity. Qed.

(** ** The digest is 64 lowercase hexadecimal characters *)
Definition is_hex (c : ascii) : bool :=
  bool_decide (c ∈ String.list_ascii_of_string "0123456789abcdef").

Lemma hex_digit_is_hex x : is_hex (hex_digit x) = true.
Proof.
  unfold hex_digit. set (l := String.list_ascii_of_string _).
  apply bool_decide_eq_true_2. destruct (nth_in_or_default (Z.to_nat x) l "0"%char) as [Hin| ->].
  - by apply list_elem_of_In.
  - subst l. simpl. by left.
Qed.

Lemma length_round st kw : length st = 8%nat → length (round st kw) = 8%nat.
Proof. do 9 (destruct st as [|? st]; try done). Qed.
Lemma length_rounds st kws : length st = 8%nat → length (foldl round st kws) = 8%nat.
Proof.
  revert st. induction kws as [|kw kws IH]; intros st Hst; [done|].
  simpl. apply IH. by apply length_round.
Qed.
Lemma length_sum s : length (sum s) = 8%nat.
Proof.
  unfold sum. generalize (blocks (length (words (pad (bytes s)))) (words (pad (bytes s)))).
  intros bs. assert (length H0 = 8%nat) as Hst by done. revert Hst. generalize H0.
  induction bs as [|b bs IH]; intros st Hst; [done|]. simpl. apply IH.
  unfold compress. rewrite length_zip_with, length_rounds by done. lia.
Qed.
Lemma length_be_bytes n x : length (be_bytes n x) = n.
Proof. revert x. induction n; intros x; simpl; [done|]. rewrite length_app, IHn. simpl. lia. Qed.
Lemma length_mjoin_const {A} (n : nat) (l : list (list A)) :
  Forall (λ x, length x = n) l → length (mjoin l) = (n * length l)%nat.
Proof. induction 1; simpl; [lia|]. rewrite length_app. lia. Qed.

Lemma hexdigest_chars s :
  Forall (λ c, is_hex c = true) (String.list_ascii_of_string (hexdigest s)).
Proof.
  unfold hexdigest. rewrite String.list_ascii_of_string_of_list_ascii.
  apply Forall_join, Forall_fmap, Forall_forall. intros x _. simpl.
  repeat constructor; apply hex_digit_is_hex.
Qed.
Lemma hexdigest_length s : length (String.list_ascii_of_string (hexdigest s)) = 64%nat.
Proof.
  unfold hexdigest. rewrite String.list_ascii_of_string_of_list_ascii.
  rewrite (length_mjoin_const 2) by (by apply Forall_fmap, Forall_forall).
  rewrite length_fmap, (length_mjoin_const 4).
  - rewrite length_fmap, length_sum. done.
  - apply Forall_fmap, Forall_forall. intros. apply (length_be_bytes 4).
Qed.
End Sha256.

(** Proofs treat the hash as a black box; [vm_compute] still evaluates it. *)
#[global] Opaque Sha256.hexdigest.
