(* ===== verification/Identity.v ===== *)
(** The identity law ([src/constructicon/core/identity.py]): the wire
    normalizer [json_value], canonical JSON, and the domain-separated digest.

    A Python [str] is the byte string of its UTF-8 encoding; a lone surrogate,
    which Python can hold and UTF-8 cannot, is its generalised UTF-8 form
    (ED A0..BF xx), so [_unicode_scalar] is a test on bytes and the order of
    strings is the order of code points. *)

From S2P Require Import Prelude Sha256.
From Stdlib Require Import Ascii DecimalString DecimalZ.

(** ** JSON wire values *)

(** A finite [float] is named by its [repr], which Python prints and reads back
    exactly; the three values JSON cannot hold are separate. *)
Inductive pyfloat := FFinite (repr : string) | FNan | FInfinity (negative : bool).
#[export] Instance pyfloat_eq_dec : EqDecision pyfloat.
Proof. solve_decision. Defined.

Inductive json :=
| JNull
| JBool (b : bool)
| JInt (z : Z)
| JFloat (repr : string)
| JStr (s : string)
| JArr (items : list json)
| JObj (members : list (string * json)).

Section json_ind.
Context (P : json → Prop).
Context (Hnull : P JNull) (Hbool : ∀ b, P (JBool b)) (Hint : ∀ z, P (JInt z))
  (Hfloat : ∀ r, P (JFloat r)) (Hstr : ∀ s, P (JStr s))
  (Harr : ∀ l, Forall P l → P (JArr l))
  (Hobj : ∀ m, Forall (λ kv, P kv.2) m → P (JObj m)).
Fixpoint json_ind_nested (j : json) : P j :=
  match j with
  | JNull => Hnull | JBool b => Hbool b | JInt z => Hint z
  | JFloat r => Hfloat r | JStr s => Hstr s
  | JArr l =>
      Harr l ((fix go l : Forall P l :=
        match l with
        | [] => Forall_nil_2 P
        | x :: l => Forall_cons_2 P x l (json_ind_nested x) (go l)
        end) l)
  | JObj m =>
      Hobj m ((fix go m : Forall (λ kv, P kv.2) m :=
        match m with
        | [] => Forall_nil_2 _
        | kv :: m => Forall_cons_2 (λ kv : string * json, P kv.2) kv m
                       (json_ind_nested kv.2) (go m)
        end) m)
  end.
End json_ind.

Fixpoint json_eqb (a b : json) {struct a} : bool :=
  match a, b with
  | JNull, JNull => true
  | JBool x, JBool y => bool_decide (x = y)
  | JInt x, JInt y => bool_decide (x = y)
  | JFloat x, JFloat y => bool_decide (x = y)
  | JStr x, JStr y => bool_decide (x = y)
  | JArr l, JArr k =>
      (fix go l k := match l, k with
        | [], [] => true
        | x :: l, y :: k => json_eqb x y && go l k
        | _, _ => false
        end) l k
  | JObj l, JObj k =>
      (fix go l k := match l, k with
        | [], [] => true
        | x :: l, y :: k => bool_decide (x.1 = y.1) && json_eqb x.2 y.2 && go l k
        | _, _ => false
        end) l k
  | _, _ => false
  end.

Lemma json_eqb_spec a b : json_eqb a b = true ↔ a = b.
Proof.
  revert b. induction a as [| | | | |l IH|m IH] using json_ind_nested; intros [];
    simpl; rewrite ?bool_decide_eq_true; try (split; congruence).
  - rename items into k. revert k. induction IH as [|x l Hx _ IHl]; intros [|y k]; simpl;
      try (split; congruence).
    rewrite andb_true_iff, Hx, IHl. split; [intros [-> ?]; congruence|].
    intros ?; simplify_eq; auto.
  - rename members into k. revert k. induction IH as [|[x v] l Hx _ IHl]; intros [|[y w] k];
      simpl in *; try (split; congruence).
    rewrite !andb_true_iff, bool_decide_eq_true, Hx, IHl.
    split; [intros [[-> ->] ?]; congruence|]. intros ?; simplify_eq; auto.
Qed.
#[export] Instance json_eq_dec : EqDecision json.
Proof.
  intros a b. destruct (json_eqb a b) eqn:E; [left|right]; [by apply json_eqb_spec|].
  intros ->. assert (json_eqb b b = true) by (by apply json_eqb_spec). congruence.
Defined.

(** ** The normalizer's inputs: whatever a component may hand over *)
Inductive pyval :=
| PModel (dump : pyval)            (** a Pydantic model, by its [model_dump(mode="json")] *)
| PEnum (value : pyval)            (** an [Enum] member, by its [value] *)
| PStr (s : string)
| PNone
| PBool (b : bool)
| PInt (z : Z)
| PFloat (f : pyfloat)
| PDict (items : list (pyval * pyval))
| PList (items : list pyval)
| PTuple (items : list pyval)
| PObject (type_name : string).    (** anything else *)

(** The [ValueError]s of this module. *)
Inductive value_error :=
| NotUnicodeScalar (s : string)
| NanOrInfinity
| NonStringKey
| NotWireValue (type_name : string)
| RepeatedKey (key : string)
| DigestPrefix
| DigestHex.

(** [_unicode_scalar]: no code point in D800..DFFF. *)
Fixpoint has_surrogate (l : list ascii) : bool :=
  match l with
  | a :: ((b :: _) as rest) =>
      (bool_decide (a = "237"%char) && (160 <=? N_of_ascii b)%N) || has_surrogate rest
  | _ => false
  end.
Definition _unicode_scalar (value : string) : result value_error string :=
  if has_surrogate (String.list_ascii_of_string value)
  then Raise (NotUnicodeScalar value) else Ok value.

Definition is_str (v : pyval) : option string :=
  match v with PStr s => Some s | _ => None end.

(** The element loop of a list or tuple, and the item loop of a dict, over the
    normalizer of the elements. *)
Definition json_items (f : pyval → result value_error json) :
    list pyval → result value_error (list json) :=
  fix go items :=
    match items with
    | [] => Ok []
    | item :: items => v ← f item; vs ← go items; Ok (v :: vs)
    end.
Definition json_members (f : pyval → result value_error json) :
    list (pyval * pyval) → list (string * json) → result value_error (list (string * json)) :=
  fix go items normalized :=
    match items with
    | [] => Ok normalized
    | (key, item) :: items =>
        match is_str key with
        | None => Raise NonStringKey
        | Some key =>
            v ← f item;
            k ← _unicode_scalar key;
            go items (Dict.set k v normalized)
        end
    end.

Fixpoint json_value (payload : pyval) : result value_error json :=
  match payload with
  | PModel dump => json_value dump
  | PEnum value => json_value value
  | PStr s => JStr <$> _unicode_scalar s
  | PNone => Ok JNull
  | PBool b => Ok (JBool b)
  | PInt z => Ok (JInt z)
  | PFloat (FFinite r) => Ok (JFloat r)
  | PFloat _ => Raise NanOrInfinity
  | PDict items => JObj <$> json_members json_value items []
  | PList items | PTuple items => JArr <$> json_items json_value items
  | PObject type_name => Raise (NotWireValue type_name)
  end.

(** ** Canonical JSON: [json.dumps] with sorted keys and no insignificant space *)

(** [ensure_ascii=False] escapes the quote, the backslash and the controls. *)
Definition escape_char (c : ascii) : list ascii :=
  match c with
  | "034"%char => ["\"; "034"]%char
  | "\"%char => ["\"; "\"]%char
  | "008"%char => ["\"; "b"]%char
  | "012"%char => ["\"; "f"]%char
  | "010"%char => ["\"; "n"]%char
  | "013"%char => ["\"; "r"]%char
  | "009"%char => ["\"; "t"]%char
  | _ =>
      if (N_of_ascii c <? 32)%N
      then ["\"; "u"; "0"; "0"]%char ++ Sha256.hex_byte (Z.of_N (N_of_ascii c))
      else [c]
  end.
Definition render_str (s : string) : list ascii :=
  ["034"%char] ++ mjoin (escape_char <$> String.list_ascii_of_string s) ++ ["034"%char].
Definition render_int (z : Z) : list ascii :=
  String.list_ascii_of_string (NilEmpty.string_of_int (Z.to_int z)).

#[global] Arguments render_str : simpl never.
#[global] Arguments render_int : simpl never.

Fixpoint comma_join (l : list (list ascii)) : list ascii :=
  match l with
  | [] => []
  | [x] => x
  | x :: l => x ++ [","%char] ++ comma_join l
  end.

Fixpoint render (j : json) : list ascii :=
  match j with
  | JNull => String.list_ascii_of_string "null"
  | JBool true => String.list_ascii_of_string "true"
  | JBool false => String.list_ascii_of_string "false"
  | JInt z => render_int z
  | JFloat r => String.list_ascii_of_string r
  | JStr s => render_str s
  | JArr l => ["["%char] ++ comma_join (render <$> l) ++ ["]"%char]
  | JObj m =>
      ["{"%char]
      ++ comma_join ((λ kv, render_str kv.1 ++ [":"%char] ++ render kv.2) <$> m)
      ++ ["}"%char]
  end.

(** Sorting every object by key, at every depth ([sort_keys=True]). *)
Fixpoint sort_keys (j : json) : json :=
  match j with
  | JArr l => JArr (sort_keys <$> l)
  | JObj m => JObj (sorted_by String.leb fst ((λ kv, (kv.1, sort_keys kv.2)) <$> m))
  | _ => j
  end.

(** Canonical text of a value that is already a wire value. *)
Definition canonical_text (j : json) : string :=
  String.string_of_list_ascii (render (sort_keys j)).
Definition canonical_json (payload : pyval) : result value_error string :=
  canonical_text <$> json_value payload.

(** ** Digests *)
Definition _PREFIX : string := "sha256:".
Definition NUL : ascii := "000"%char.

Definition digest_material (domain : string) (schema_version : Z) (j : json) : string :=
  String.string_of_list_ascii
    (String.list_ascii_of_string "constructicon" ++ [NUL]
     ++ String.list_ascii_of_string domain ++ [NUL]
     ++ render_int schema_version ++ [NUL]
     ++ render (sort_keys j)).
(** The identity of a wire value. *)
Definition digest_of (domain : string) (schema_version : Z) (j : json) : string :=
  _PREFIX +:+ Sha256.hexdigest (digest_material domain schema_version j).
Definition digest (domain : string) (schema_version : Z) (payload : pyval) :
    result value_error string :=
  digest_of domain schema_version <$> json_value payload.

(** [Digest._well_formed]: [sha256:] and 64 lowercase hexadecimal characters. *)
Definition Digest_well_formed (value : string) : result value_error string :=
  let cs := String.list_ascii_of_string value in
  let prefix := String.list_ascii_of_string _PREFIX in
  if bool_decide (take (length prefix) cs = prefix) then
    let hexpart := drop (length prefix) cs in
    if bool_decide (length hexpart ≠ 64) || existsb (λ c, negb (Sha256.is_hex c)) hexpart
    then Raise DigestHex else Ok value
  else Raise DigestPrefix.

(** [parse_json_value]'s [object_pairs_hook]: the decoder's pairs, in text order. *)
Definition unique_step (acc : result value_error (list (string * json)))
    (kv : string * json) : result value_error (list (string * json)) :=
  result ← acc;
  if decide (kv.1 ∈ Dict.keys result) then Raise (RepeatedKey kv.1)
  else Ok (Dict.set kv.1 kv.2 result).
Definition unique_object (pairs : list (string * json)) : result value_error json :=
  JObj <$> foldl unique_step (Ok []) pairs.

(** Values built from members that are already strings and wire values. *)
Definition jopt {A} (f : A → json) (o : option A) : json :=
  match o with Some a => f a | None => JNull end.
Definition jstrs (l : list string) : json := JArr (JStr <$> l).

(** ** Canonical JSON is a prefix code

    Every value's text can be told from whatever follows it, as long as what
    follows does not continue a number. *)

Definition num_char (c : ascii) : bool :=
  bool_decide (c ∈ String.list_ascii_of_string "0123456789-+.e").
(** Text after a value: the end, or a character that continues no number. *)
Definition ends (s : list ascii) : Prop :=
  match s with [] => True | c :: _ => num_char c = false end.

(** What Python's [repr] of a finite float looks like: number characters, with
    a point or an exponent, so it is never the text of an integer. *)
Definition float_text (r : string) : bool :=
  let l := String.list_ascii_of_string r in
  forallb num_char l && existsb (λ c, bool_decide (c = "."%char ∨ c = "e"%char)) l.

Fixpoint wf_json (j : json) : Prop :=
  match j with
  | JFloat r => float_text r = true
  | JArr l => Forall id (wf_json <$> l)
  | JObj m => NoDup m.*1 ∧ Forall id ((λ kv, wf_json kv.2) <$> m)
  | _ => True
  end.

Lemma wf_json_arr l : wf_json (JArr l) ↔ Forall wf_json l.
Proof. simpl. by rewrite Forall_fmap. Qed.
Lemma wf_json_obj m :
  wf_json (JObj m) ↔ NoDup m.*1 ∧ Forall (λ kv, wf_json kv.2) m.
Proof. simpl. by rewrite Forall_fmap. Qed.

Lemma list_ascii_inj a b :
  String.list_ascii_of_string a = String.list_ascii_of_string b → a = b.
Proof.
  intros H. rewrite <-(String.string_of_list_ascii_of_string a), H.
  apply String.string_of_list_ascii_of_string.
Qed.
Lemma list_ascii_app a b :
  String.list_ascii_of_string (a +:+ b) = String.list_ascii_of_string a ++ String.list_ascii_of_string b.
Proof. induction a as [|c a IH]; [done|]. simpl. by rewrite IH. Qed.
Lemma string_of_list_ascii_inj a b :
  String.string_of_list_ascii a = String.string_of_list_ascii b → a = b.
Proof.
  intros H. rewrite <-(String.list_ascii_of_string_of_list_ascii a), H.
  apply String.list_ascii_of_string_of_list_ascii.
Qed.

(** *** Numbers: maximal runs of number characters *)
Lemma span_unique (f : ascii → bool) a b s t :
  Forall (λ c, f c = true) a → Forall (λ c, f c = true) b →
  match s with [] => True | c :: _ => f c = false end →
  match t with [] => True | c :: _ => f c = false end →
  a ++ s = b ++ t → a = b ∧ s = t.
Proof.
  intros Ha. revert b. induction Ha as [|c a Hc _ IH]; intros b Hb Hs Ht Heq.
  - destruct Hb as [|c b Hc _]; [done|]. simpl in Heq. subst s. congruence.
  - destruct Hb as [|c' b Hc' Hb]; simpl in Heq; [subst t; congruence|].
    injection Heq as -> Heq. destruct (IH b Hb Hs Ht Heq) as [-> ->]. done.
Qed.

Lemma uint_chars (d : Decimal.uint) :
  Forall (λ c, num_char c = true ∧ c ≠ "."%char ∧ c ≠ "e"%char)
    (String.list_ascii_of_string (NilEmpty.string_of_uint d)).
Proof. induction d; simpl; constructor; try done; by split_and!. Qed.
Lemma render_int_chars z :
  Forall (λ c, num_char c = true ∧ c ≠ "."%char ∧ c ≠ "e"%char) (render_int z).
Proof.
  unfold render_int. destruct (Z.to_int z) as [d|d]; [apply uint_chars|].
  simpl. constructor; [by split_and!|]. apply uint_chars.
Qed.
Lemma render_int_inj z w : render_int z = render_int w → z = w.
Proof.
  intros H%list_ascii_inj. apply DecimalZ.to_int_inj.
  enough (Some (Z.to_int z) = Some (Z.to_int w)) by congruence.
  by rewrite <-!NilEmpty.isi, H.
Qed.

Lemma float_text_chars r :
  float_text r = true → Forall (λ c, num_char c = true) (String.list_ascii_of_string r).
Proof.
  unfold float_text. intros [H _]%andb_true_iff. apply Forall_forall.
  by apply forallb_elem.
Qed.
Lemma float_not_int r z :
  float_text r = true → String.list_ascii_of_string r ≠ render_int z.
Proof.
  unfold float_text. intros [_ (c & Hc & Hd)%existsb_elem]%andb_true_iff Heq.
  apply bool_decide_eq_true in Hd. rewrite Heq in Hc.
  pose proof (render_int_chars z) as Hall. rewrite Forall_forall in Hall.
  destruct (Hall c Hc) as (_ & ? & ?). naive_solver.
Qed.

(** *** Strings: each escape is decodable from the front *)
Definition unhex (c : ascii) : option N :=
  let n := N_of_ascii c in
  if (48 <=? n)%N && (n <=? 57)%N then Some (n - 48)%N
  else if (97 <=? n)%N && (n <=? 102)%N then Some (n - 87)%N else None.
Definition unescape (l : list ascii) : option (ascii * list ascii) :=
  match l with
  | [] => None
  | "\"%char :: c :: l =>
      match c with
      | "034"%char => Some ("034"%char, l)
      | "\"%char => Some ("\"%char, l)
      | "b"%char => Some ("008"%char, l)
      | "f"%char => Some ("012"%char, l)
      | "n"%char => Some ("010"%char, l)
      | "r"%char => Some ("013"%char, l)
      | "t"%char => Some ("009"%char, l)
      | "u"%char =>
          match l with
          | _ :: _ :: a :: b :: l =>
              match unhex a, unhex b with
              | Some a, Some b => Some (ascii_of_N (16 * a + b)%N, l)
              | _, _ => None
              end
          | _ => None
          end
      | _ => None
      end
  | "034"%char :: _ => None
  | c :: l => Some (c, l)
  end.

Lemma unescape_escape c s : unescape (escape_char c ++ s) = Some (c, s).
Proof. by destruct c as [[] [] [] [] [] [] [] []]. Qed.
Lemma unescape_quote s : unescape ("034"%char :: s) = None.
Proof. done. Qed.

Lemma render_str_inj a b s t :
  render_str a ++ s = render_str b ++ t → a = b ∧ s = t.
Proof.
  unfold render_str. rewrite <-!app_assoc. simpl. intros Heq. injection Heq as Heq.
  rewrite <-?app_assoc in Heq. simpl in Heq.
  enough (String.list_ascii_of_string a = String.list_ascii_of_string b ∧ s = t)
    as [?%list_ascii_inj ?] by done.
  revert Heq. generalize (String.list_ascii_of_string a), (String.list_ascii_of_string b).
  clear a b. intros l. induction l as [|c l IH]; intros [|c' l']; simpl; rewrite <-?app_assoc.
  - by intros [=].
  - intros Heq%(f_equal unescape). by rewrite unescape_escape, unescape_quote in Heq.
  - intros Heq%(f_equal unescape). by rewrite unescape_escape, unescape_quote in Heq.
  - intros Heq%(f_equal unescape). rewrite !unescape_escape in Heq.
    injection Heq as -> Heq. destruct (IH l' Heq) as [-> ->]. done.
Qed.

(** *** Values *)
Definition num_json (j : json) : bool :=
  match j with JInt _ | JFloat _ => true | _ => false end.
Definition tag (j : json) : ascii :=
  match j with
  | JNull => "n" | JBool true => "t" | JBool false => "f"
  | JInt _ | JFloat _ => "0" | JStr _ => "034" | JArr _ => "[" | JObj _ => "{"
  end%char.

Lemma render_head j : wf_json j →
  ∃ c l, render j = c :: l ∧ (if num_json j then num_char c = true
                              else c = tag j ∧ num_char c = false).
Proof.
  intros Hwf. destruct j as [|[]|z|r|str|l|m]; simpl; try (eexists _, _; split; [done|done]).
  - pose proof (render_int_chars z) as Hall. destruct (render_int z) as [|c l] eqn:E.
    + exfalso. unfold render_int in E. destruct (Z.to_int z) as [d|d] eqn:Ez; [|done].
      assert (Z.to_int z ≠ Decimal.Pos Decimal.Nil) as Hn by (destruct z; simpl; try done;
        intros [= H]; pose proof (DecimalPos.Unsigned.to_uint_nonnil p); naive_solver).
      destruct d; done.
    + exists c, l. inversion Hall; subst. naive_solver.
  - apply float_text_chars in Hwf as Hall. simpl in Hwf. unfold float_text in Hwf.
    destruct (String.list_ascii_of_string r) as [|c l]; [done|].
    exists c, l. inversion Hall; subst. naive_solver.
Qed.

Lemma render_num_chars j : wf_json j → num_json j = true →
  Forall (λ c, num_char c = true) (render j).
Proof.
  destruct j; try done; simpl; intros Hwf _; [|by apply float_text_chars].
  eapply Forall_impl; [apply render_int_chars|]. naive_solver.
Qed.

Section comma.
Context {A : Type} (f : A → list ascii) (P : A → Prop).
(** Items of a list separated by commas, closed by a bracket. *)
Lemma comma_join_inj (close : ascii) l k s t :
  num_char close = false → close ≠ ","%char →
  Forall P l → Forall P k →
  Forall (λ x, ∃ c r, f x = c :: r ∧ c ≠ close) l →
  Forall (λ x, ∃ c r, f x = c :: r ∧ c ≠ close) k →
  Forall (λ x, ∀ y s t, P y → ends s → ends t → f x ++ s = f y ++ t → x = y ∧ s = t) l →
  comma_join (f <$> l) ++ close :: s = comma_join (f <$> k) ++ close :: t →
  l = k ∧ s = t.
Proof.
  intros Hclose Hcomma Hl Hk Hlh Hkh Hinj. revert k Hk Hkh.
  induction Hl as [|x l Hx Hl IH]; intros k Hk Hkh Heq.
  - destruct Hkh as [|y k (c & r & Hy & Hc) _]; simpl in *; [by simplify_eq|].
    destruct k; simpl in Heq; rewrite Hy in Heq; simpl in Heq; congruence.
  - inversion Hinj as [|?? Hxinj Hinj']; inversion Hlh as [|?? (c & r & Hxc & Hc) Hlh']; subst.
    destruct Hk as [|y k Hy Hk].
    { simpl in Heq. destruct l; simpl in Heq; rewrite Hxc in Heq; simpl in Heq; congruence. }
    inversion Hkh as [|?? _ Hkh']; subst.
    assert (∀ (z : A) (q : list A) (u : list ascii), ∃ e u',
      comma_join (f <$> z :: q) ++ close :: u = f z ++ e :: u' ∧ num_char e = false
      ∧ e :: u' = match q with [] => close :: u
                  | _ => ","%char :: comma_join (f <$> q) ++ close :: u end) as Hshape.
    { intros z [|z' q] u; eexists _, _; (split; [|split; [|done]]); simpl; [done..| |done].
      by rewrite <-!app_assoc. }
    destruct (Hshape x l s) as (e & u & Hu & He & Hrest).
    destruct (Hshape y k t) as (e' & u' & Hu' & He' & Hrest').
    rewrite Hu, Hu' in Heq. apply Hxinj in Heq as [<- Heq]; [|done..].
    rewrite Hrest, Hrest' in Heq.
    destruct l as [|x' l], k as [|y' k]; simplify_eq; [done|].
    destruct (IH Hlh' Hinj' (y' :: k)) as [-> ->]; done.
Qed.
End comma.

Lemma num_or_eq (c c' : ascii) : num_char c = true → num_char c' = false → c ≠ c'.
Proof. congruence. Qed.

Lemma render_not_close j close : wf_json j → num_char close = false →
  close = "]"%char ∨ close = "}"%char →
  ∃ c r, render j = c :: r ∧ c ≠ close.
Proof.
  intros Hwf Hn Hclose. destruct (render_head j Hwf) as (c & r & Hr & Hc). exists c, r.
  split; [done|]. destruct (num_json j) eqn:E; [by apply num_or_eq|].
  destruct Hc as [-> _]. by destruct Hclose as [->| ->]; destruct j as [|[]| | | | |].
Qed.

Lemma render_shape j k s t : wf_json j → wf_json k → render j ++ s = render k ++ t →
  num_json j = num_json k ∧ (num_json j = false → tag j = tag k).
Proof.
  intros Hj Hk Heq.
  destruct (render_head _ Hj) as (c1 & l1 & E1 & T1), (render_head _ Hk) as (c2 & l2 & E2 & T2).
  rewrite E1, E2 in Heq. injection Heq as -> _.
  destruct (num_json j), (num_json k); intuition congruence.
Qed.

Lemma render_num_inj j k : wf_json j → wf_json k → num_json j = true → num_json k = true →
  render j = render k → j = k.
Proof.
  destruct j, k; try done; simpl; intros Hj Hk _ _ Heq.
  - f_equal. by apply render_int_inj.
  - by destruct (float_not_int _ _ Hk (eq_sym Heq)).
  - by destruct (float_not_int _ _ Hj Heq).
  - f_equal. by apply list_ascii_inj.
Qed.

Lemma render_str_head a : ∃ l, render_str a = "034"%char :: l.
Proof. by eexists. Qed.

#[local] Opaque render_str.

Lemma members_inj m m' close s t :
  num_char close = false → close ≠ ","%char → close ≠ "034"%char →
  Forall (λ kv, wf_json kv.2) m → Forall (λ kv, wf_json kv.2) m' →
  Forall (λ kv, ∀ k s t, wf_json kv.2 → wf_json k → ends s → ends t →
    render kv.2 ++ s = render k ++ t → kv.2 = k ∧ s = t) m →
  comma_join ((λ kv, render_str kv.1 ++ [":"%char] ++ render kv.2) <$> m) ++ close :: s =
  comma_join ((λ kv, render_str kv.1 ++ [":"%char] ++ render kv.2) <$> m') ++ close :: t →
  m = m' ∧ s = t.
Proof.
  intros Hn Hc Hq Hm Hm' IH. apply (comma_join_inj _ (λ kv, wf_json kv.2)); [done..| | |].
  1, 2: apply Forall_forall; intros [a v] _; simpl; destruct (render_str_head a) as [l ->];
    eexists _, _; split; [done|congruence].
  rewrite Forall_forall in *. intros [a v] Hin [b w] s' t' Hw Hs Ht Heq. simpl in *.
  rewrite <-!app_assoc in Heq. apply render_str_inj in Heq as [-> Heq].
  simpl in Heq. injection Heq as Heq.
  edestruct (IH _ Hin w s' t') as [Hv ->]; [by apply (Hm (b, v))|done..|].
  simpl in Hv. by subst.
Qed.

Lemma render_inj j : ∀ k s t, wf_json j → wf_json k → ends s → ends t →
  render j ++ s = render k ++ t → j = k ∧ s = t.
Proof.
  induction j as [|b|z|r|str|l IH|m IH] using json_ind_nested; intros k s t Hj Hk Hs Ht Heq.
  all: destruct (render_shape _ _ _ _ Hj Hk Heq) as [Hnum Htag].
  3, 4: assert (render k = render k) as _ by done.
  3, 4: destruct (span_unique num_char _ _ _ _ (render_num_chars _ Hj eq_refl)
    (render_num_chars k Hk (eq_sym Hnum)) Hs Ht Heq) as [He ->];
    split; [|done]; apply render_num_inj; done.
  all: specialize (Htag eq_refl).
  all: destruct k as [|b'|?|?|str'|l'|m']; try discriminate Hnum;
    try (destruct b; discriminate Htag); try (destruct b'; discriminate Htag);
    try discriminate Htag.
  - simpl in Heq. by simplify_eq.
  - destruct b, b'; simpl in Heq; by simplify_eq.
  - simpl in Heq. apply render_str_inj in Heq as [-> ->]. done.
  - rewrite wf_json_arr in Hj, Hk. simpl in Heq. injection Heq as Heq.
    rewrite <-!app_assoc in Heq. simpl in Heq.
    apply (comma_join_inj _ wf_json) in Heq as [-> ->]; try done.
    1, 2: apply Forall_forall; intros x Hx; rewrite Forall_forall in Hj, Hk;
      apply render_not_close; auto.
    rewrite Forall_forall in *. intros x Hx y s' t' Hy Hs' Ht'. apply IH; auto.
  - rewrite wf_json_obj in Hj, Hk. destruct Hj as [_ Hj], Hk as [_ Hk].
    simpl in Heq. injection Heq as Heq. rewrite <-!app_assoc in Heq. simpl in Heq.
    edestruct (members_inj m m') as [-> ->]; [..|exact Heq|]; try done.
Qed.

(** ** Canonical text forgets the order of object members, and nothing else *)

Inductive jequiv : json → json → Prop :=
| jequiv_refl j : jequiv j j
| jequiv_arr l k : Forall2 jequiv l k → jequiv (JArr l) (JArr k)
| jequiv_obj m p k :
    m ≡ₚ p → Forall2 (λ x y, x.1 = y.1 ∧ jequiv x.2 y.2) p k →
    jequiv (JObj m) (JObj k).

Definition sort_member (kv : string * json) : string * json := (kv.1, sort_keys kv.2).

Lemma sort_keys_obj m :
  sort_keys (JObj m) = JObj (sorted_by String.leb fst (sort_member <$> m)).
Proof. done. Qed.
Lemma sort_member_keys (m : list (string * json)) : (sort_member <$> m).*1 = m.*1.
Proof. by rewrite <-list_fmap_compose. Qed.

Lemma sorted_members_perm (m k : list (string * json)) :
  NoDup m.*1 → m ≡ₚ k → sorted_by String.leb fst m = sorted_by String.leb fst k.
Proof.
  intros Hnd. apply sorted_by_perm_eq; [apply _..|].
  intros [a v] [b w] Hx Hy Hab. simpl in Hab. subst b.
  pose proof (Dict.get_NoDup a v m Hnd Hx). pose proof (Dict.get_NoDup a w m Hnd Hy).
  congruence.
Qed.

Lemma sort_keys_wf j : wf_json j → wf_json (sort_keys j).
Proof.
  induction j as [| | | | |l IH|m IH] using json_ind_nested; try done.
  - intros Hl. apply wf_json_arr in Hl. simpl sort_keys. rewrite wf_json_arr, Forall_fmap.
    rewrite Forall_forall in *. intros x Hx. by apply (IH x Hx), Hl.
  - intros [Hnd Hm]%wf_json_obj. rewrite sort_keys_obj, wf_json_obj. split.
    + unfold sorted_by. rewrite py_sorted_perm. by rewrite sort_member_keys.
    + unfold sorted_by. rewrite py_sorted_perm, Forall_fmap.
      rewrite Forall_forall in *. intros x Hx. by apply (IH x Hx), Hm.
Qed.

Lemma sort_keys_of_equiv j k : wf_json j → jequiv j k → sort_keys j = sort_keys k.
Proof.
  revert k. induction j as [| | | | |l IH|m IH] using json_ind_nested; intros k Hwf Heq;
    inversion Heq as [|? k' Hall|? p k' Hperm Hall]; subst; try done.
  - apply wf_json_arr in Hwf. simpl. f_equal. clear Heq.
    induction Hall as [|x y l k Hxy Hall IHl]; simpl; [done|].
    inversion IH; inversion Hwf; subst. f_equal; auto.
  - apply wf_json_obj in Hwf as [Hnd Hwf]. rewrite !sort_keys_obj. f_equal.
    assert (sort_member <$> p = sort_member <$> k') as <-.
    { rewrite Hperm in IH, Hwf. clear -IH Hwf Hall.
      induction Hall as [|[a v] [b w] p k [? Hxy] Hall IHl]; simpl in *; [done|].
      inversion IH; inversion Hwf; subst. unfold sort_member at 1 3. simpl.
      f_equal; [|by apply IHl]. f_equal. auto. }
    apply sorted_members_perm; [by rewrite sort_member_keys|]. by rewrite Hperm.
Qed.

Lemma equiv_of_sort_keys j k : sort_keys j = sort_keys k → jequiv j k.
Proof.
  revert k. induction j as [| | | | |l IH|m IH] using json_ind_nested; intros k Heq;
    destruct k as [| | | | |l'|m']; try discriminate Heq; try (injection Heq as ->; constructor);
    try constructor.
  - injection Heq as Heq. revert l' Heq. induction IH as [|x l Hx _ IHl]; intros [|y l'] Heq;
      simpl in *; simplify_eq; constructor; auto.
  - rewrite !sort_keys_obj in Heq. injection Heq as Heq.
    assert (sort_member <$> m ≡ₚ sort_member <$> m') as Hp.
    { rewrite <-(py_sorted_perm (λ x y, String.leb x.1 y.1)).
      unfold sorted_by in Heq. rewrite Heq. apply py_sorted_perm. }
    apply symmetry, Permutation_map_inv in Hp as (p & Hp & Hperm).
    apply (jequiv_obj _ p); [done|]. rewrite Hperm in IH. clear -Hp IH.
    revert m' Hp. induction IH as [|[a v] p Hx _ IHp]; intros [|[b w] m'] Hp;
      simpl in *; try discriminate Hp; constructor.
    + injection Hp as -> Hv ?. simpl. split; [done|]. by apply Hx.
    + injection Hp as _ _ Hp. by apply IHp.
Qed.

Lemma canonical_text_inj j k : wf_json j → wf_json k →
  canonical_text j = canonical_text k → sort_keys j = sort_keys k.
Proof.
  intros Hj Hk Heq%string_of_list_ascii_inj.
  destruct (render_inj (sort_keys j) (sort_keys k) [] []) as [? _];
    rewrite ?app_nil_r; auto using sort_keys_wf; done.
Qed.

#[export] Instance jequiv_decision j k : wf_json j → Decision (jequiv j k).
Proof.
  intros Hj. destruct (decide (sort_keys j = sort_keys k)) as [H|H]; [left|right].
  - by apply equiv_of_sort_keys.
  - intros ?. by apply H, sort_keys_of_equiv.
Qed.

(** Canonical JSON is a faithful identity of a wire value: two well-formed
    values have the same canonical text exactly when they differ at most in the
    order of object members. *)
Lemma canonical_text_equiv j k : wf_json j → wf_json k →
  canonical_text j = canonical_text k ↔ jequiv j k.
Proof.
  intros Hj Hk. split.
  - intros H. apply equiv_of_sort_keys. by apply canonical_text_inj.
  - intros H. unfold canonical_text. by rewrite (sort_keys_of_equiv j k).
Qed.

(** ** The digest *)
Definition nul_free (s : string) : Prop := NUL ∉ String.list_ascii_of_string s.
#[export] Instance nul_free_dec s : Decision (nul_free s).
Proof. unfold nul_free. apply _. Defined.

(** These two texts are a SHA-256 collision. The identity theorems below name
    the two texts that would have to collide: that some pair of texts collides
    is a triviality, that this pair does is not. *)
Definition collides (x y : string) : Prop := x ≠ y ∧ Sha256.hexdigest x = Sha256.hexdigest y.

Lemma nul_span (a b s t : list ascii) :
  NUL ∉ a → NUL ∉ b → a ++ NUL :: s = b ++ NUL :: t → a = b ∧ s = t.
Proof.
  intros Ha Hb Heq.
  destruct (span_unique (λ c, negb (bool_decide (c = NUL))) a b (NUL :: s) (NUL :: t))
    as [-> ?]; [..|by simplify_eq]; try done.
  - apply Forall_forall. intros c Hc. rewrite bool_decide_eq_false_2; [done|congruence].
  - apply Forall_forall. intros c Hc. rewrite bool_decide_eq_false_2; [done|congruence].
Qed.

Lemma digest_material_inj d d' n n' j k :
  nul_free d → nul_free d' → wf_json j → wf_json k →
  digest_material d n j = digest_material d' n' k →
  d = d' ∧ n = n' ∧ jequiv j k.
Proof.
  unfold nul_free, digest_material. intros Hd Hd' Hj Hk Heq%string_of_list_ascii_inj.
  apply app_inv_head in Heq. simpl in Heq. injection Heq as Heq.
  apply nul_span in Heq as [->%list_ascii_inj Heq]; [|done..].
  assert (∀ z, NUL ∉ render_int z) as Hnul.
  { intros z Hz. pose proof (render_int_chars z) as H. rewrite Forall_forall in H.
    by apply H in Hz as [? _]. }
  apply nul_span in Heq as [->%render_int_inj Heq]; [|apply Hnul..].
  split_and!; [done..|]. apply equiv_of_sort_keys.
  destruct (render_inj (sort_keys j) (sort_keys k) [] []) as [? _];
    rewrite ?app_nil_r; auto using sort_keys_wf; done.
Qed.

Lemma string_app_inj_l (p a b : string) : p +:+ a = p +:+ b → a = b.
Proof. apply (inj (String.app p)). Qed.

Lemma digest_of_inj d d' n n' j k :
  nul_free d → nul_free d' → wf_json j → wf_json k →
  digest_of d n j = digest_of d' n' k →
  (d = d' ∧ n = n' ∧ jequiv j k) ∨ collides (digest_material d n j) (digest_material d' n' k).
Proof.
  intros Hd Hd' Hj Hk Heq%string_app_inj_l.
  destruct (decide (digest_material d n j = digest_material d' n' k)) as [Hm|Hm].
  - left. by apply digest_material_inj.
  - right. done.
Qed.

Lemma digest_of_well_formed d n j :
  Digest_well_formed (digest_of d n j) = Ok (digest_of d n j).
Proof.
  unfold Digest_well_formed, digest_of.
  generalize (Sha256.hexdigest_length (digest_material d n j)),
    (Sha256.hexdigest_chars (digest_material d n j)).
  generalize (Sha256.hexdigest (digest_material d n j)) as h. intros h Hlen Hhex.
  assert (String.list_ascii_of_string (_PREFIX +:+ h)
    = String.list_ascii_of_string _PREFIX ++ String.list_ascii_of_string h) as -> by done.
  rewrite take_app_length, bool_decide_eq_true_2 by done. cbv zeta.
  rewrite drop_app_length, bool_decide_eq_false_2 by (by intros []). simpl.
  destruct (existsb _ _) eqn:E; [|done]. apply existsb_elem in E as (c & Hc & Hn).
  rewrite Forall_forall in Hhex. rewrite (Hhex c Hc) in Hn. done.
Qed.

(** ** Normalisation *)

(** What [json_value] produces: strings are Unicode, keys are unique. *)
Fixpoint wire (j : json) : Prop :=
  match j with
  | JStr s => _unicode_scalar s = Ok s
  | JArr l => Forall id (wire <$> l)
  | JObj m => NoDup m.*1
      ∧ Forall id ((λ kv, _unicode_scalar kv.1 = Ok kv.1 ∧ wire kv.2) <$> m)
  | _ => True
  end.

(** A wire value as a Python value. *)
Fixpoint embed (j : json) : pyval :=
  match j with
  | JNull => PNone | JBool b => PBool b | JInt z => PInt z
  | JFloat r => PFloat (FFinite r) | JStr s => PStr s
  | JArr l => PList (embed <$> l)
  | JObj m => PDict ((λ kv, (PStr kv.1, embed kv.2)) <$> m)
  end.

Section pyval_ind.
Context (P : pyval → Prop).
Context (Hmodel : ∀ p, P p → P (PModel p)) (Henum : ∀ p, P p → P (PEnum p))
  (Hstr : ∀ s, P (PStr s)) (Hnone : P PNone) (Hbool : ∀ b, P (PBool b))
  (Hint : ∀ z, P (PInt z)) (Hfloat : ∀ f, P (PFloat f))
  (Hdict : ∀ m, Forall (λ kv, P kv.2) m → P (PDict m))
  (Hlist : ∀ l, Forall P l → P (PList l)) (Htuple : ∀ l, Forall P l → P (PTuple l))
  (Hobj : ∀ t, P (PObject t)).
Fixpoint pyval_ind_nested (p : pyval) : P p :=
  let go_list := fix go l : Forall P l :=
    match l with
    | [] => Forall_nil_2 P
    | x :: l => Forall_cons_2 P x l (pyval_ind_nested x) (go l)
    end in
  match p with
  | PModel p => Hmodel p (pyval_ind_nested p)
  | PEnum p => Henum p (pyval_ind_nested p)
  | PStr s => Hstr s | PNone => Hnone | PBool b => Hbool b | PInt z => Hint z
  | PFloat f => Hfloat f
  | PDict m =>
      Hdict m ((fix go m : Forall (λ kv, P kv.2) m :=
        match m with
        | [] => Forall_nil_2 _
        | kv :: m => Forall_cons_2 (λ kv : pyval * pyval, P kv.2) kv m
                       (pyval_ind_nested kv.2) (go m)
        end) m)
  | PList l => Hlist l (go_list l)
  | PTuple l => Htuple l (go_list l)
  | PObject t => Hobj t
  end.
End pyval_ind.

Lemma unicode_scalar_ok s s' : _unicode_scalar s = Ok s' → s' = s ∧ _unicode_scalar s = Ok s.
Proof. unfold _unicode_scalar. destruct (has_surrogate _); naive_solver. Qed.

Lemma result_fmap_ok {E A B} (f : A → B) (m : result E A) b :
  f <$> m = Ok b ↔ ∃ a, m = Ok a ∧ b = f a.
Proof. destruct m; simpl; unfold fmap, result_fmap; naive_solver. Qed.

Lemma wire_arr l : wire (JArr l) ↔ Forall wire l.
Proof. simpl. by rewrite Forall_fmap. Qed.
Lemma wire_obj m : wire (JObj m) ↔
  NoDup m.*1 ∧ Forall (λ kv, _unicode_scalar kv.1 = Ok kv.1 ∧ wire kv.2) m.
Proof. simpl. by rewrite Forall_fmap. Qed.

Lemma json_items_wire items vs :
  Forall (λ p, ∀ j, json_value p = Ok j → wire j) items →
  json_items json_value items = Ok vs → Forall wire vs.
Proof.
  intros H. revert vs. induction H as [|p items Hp _ IH]; intros vs; simpl; [by intros [= <-]|].
  intros (v & Hv & (vs' & Hvs & [= <-])%result_bind_ok)%result_bind_ok.
  constructor; [by apply Hp|by apply IH].
Qed.

Lemma Forall_dict_set {A} (P : string * A → Prop) k v d :
  Forall P d → P (k, v) → Forall P (Dict.set k v d).
Proof.
  rewrite !Forall_forall. intros Hd Hp x [->|Hx]%Dict.elem_of_set; auto.
Qed.

Lemma json_members_wire items acc m :
  Forall (λ kv, ∀ j, json_value kv.2 = Ok j → wire j) items →
  wire (JObj acc) → json_members json_value items acc = Ok m → wire (JObj m).
Proof.
  intros H. revert acc. induction H as [|[key p] items Hp _ IH]; intros acc Hacc; simpl;
    [by intros [= <-]|].
  destruct (is_str key) as [k|]; [|done].
  intros (v & Hv & (k' & [-> Hk]%unicode_scalar_ok & Hrest)%result_bind_ok)%result_bind_ok.
  eapply IH; [|exact Hrest]. rewrite wire_obj in *. destruct Hacc as [Hnd Hacc].
  split; [by apply Dict.NoDup_keys_set|].
  apply Forall_dict_set; [done|]. split; [done|]. by apply Hp.
Qed.

Lemma json_value_wire p j : json_value p = Ok j → wire j.
Proof.
  revert j. induction p as [| | | | | |f|m IH|l IH|l IH|] using pyval_ind_nested;
    intros j; simpl; try naive_solver.
  - intros (s' & [-> Hs]%unicode_scalar_ok & ->)%result_fmap_ok. done.
  - destruct f; naive_solver.
  - intros (m' & Hm & ->)%result_fmap_ok.
    eapply json_members_wire; [exact IH| |exact Hm]. apply wire_obj. split; constructor.
  - intros (l' & Hl & ->)%result_fmap_ok. rewrite wire_arr. by eapply json_items_wire.
  - intros (l' & Hl & ->)%result_fmap_ok. rewrite wire_arr. by eapply json_items_wire.
Qed.

Lemma json_value_embed j : wire j → json_value (embed j) = Ok j.
Proof.
  induction j as [| | | |s|l IH|m IH] using json_ind_nested; try done.
  - simpl. intros ->. done.
  - rewrite wire_arr. intros Hl.
    change (json_value (embed (JArr l)))
      with (JArr <$> json_items json_value (embed <$> l)).
    enough (json_items json_value (embed <$> l) = Ok l) as -> by done.
    induction IH as [|x l Hx _ IHl]; [done|]. inversion Hl; subst.
    change (json_items json_value (embed <$> x :: l)) with
      (v ← json_value (embed x); vs ← json_items json_value (embed <$> l); Ok (v :: vs)).
    rewrite Hx, IHl by done. done.
  - rewrite wire_obj. intros [Hnd Hm].
    change (json_value (embed (JObj m))) with
      (JObj <$> json_members json_value ((λ kv, (PStr kv.1, embed kv.2)) <$> m) []).
    enough (∀ acc, NoDup (acc.*1 ++ m.*1) →
      json_members json_value ((λ kv, (PStr kv.1, embed kv.2)) <$> m) acc = Ok (acc ++ m))
      as H by (rewrite (H []); done).
    clear Hnd. induction IH as [|[k v] m Hv _ IHm]; intros acc Hnd; simpl.
    + by rewrite app_nil_r.
    + inversion Hm as [|?? [Hk Hw] Hm']; subst. simpl in *.
      rewrite Hv by done. simpl. rewrite Hk. simpl.
      rewrite Dict.set_fresh.
      * change (list_fmap _ _ _ m) with ((λ kv, (PStr kv.1, embed kv.2)) <$> m).
        rewrite IHm; [by rewrite <-app_assoc|done|]. rewrite fmap_app. simpl.
        by rewrite <-app_assoc.
      * apply NoDup_app in Hnd. unfold Dict.keys. set_solver.
Qed.

(** Members of a decoded object: refused exactly when a key repeats. *)
Lemma foldl_unique_raise e pairs : foldl unique_step (Raise e) pairs = Raise e.
Proof. by induction pairs. Qed.

Lemma unique_fold_ok pairs acc :
  NoDup (acc.*1 ++ pairs.*1) → foldl unique_step (Ok acc) pairs = Ok (acc ++ pairs).
Proof.
  revert acc. induction pairs as [|[k v] pairs IH]; intros acc Hnd; simpl.
  - by rewrite app_nil_r.
  - simpl in Hnd.
    rewrite decide_False by (unfold Dict.keys; apply NoDup_app in Hnd; set_solver).
    rewrite Dict.set_fresh by (unfold Dict.keys; apply NoDup_app in Hnd; set_solver).
    rewrite IH; [by rewrite <-app_assoc|]. rewrite fmap_app. simpl. by rewrite <-app_assoc.
Qed.

Lemma unique_fold_repeat pairs acc :
  NoDup acc.*1 → ¬ NoDup (acc.*1 ++ pairs.*1) →
  ∃ k, k ∈ pairs.*1 ∧ foldl unique_step (Ok acc) pairs = Raise (RepeatedKey k).
Proof.
  revert acc. induction pairs as [|[k v] pairs IH]; intros acc Hnd Hrep; simpl.
  - simpl in Hrep. by rewrite app_nil_r in Hrep.
  - case_decide as Hin.
    + exists k. split; [by left|]. by rewrite foldl_unique_raise.
    + unfold Dict.keys in Hin. rewrite Dict.set_fresh by done.
      destruct (IH (acc ++ [(k, v)])) as (k' & Hk' & Hf).
      * rewrite fmap_app. apply NoDup_app. split; [done|]. split; [set_solver|].
        apply NoDup_singleton.
      * rewrite fmap_app. simpl. by rewrite <-app_assoc.
      * exists k'. split; [by right|done].
Qed.

(** ** The identity law *)

(** C36: Canonical JSON is faithful: two normalised values have the same canonical bytes
    exactly when they are one JSON value up to the order of object members. *)
Theorem canonical_json_faithful p q j k :
  json_value p = Ok j → json_value q = Ok k → wf_json j → wf_json k →
  canonical_json p = canonical_json q ↔ jequiv j k.
Proof.
  intros Hp Hq Hj Hk. unfold canonical_json. rewrite Hp, Hq.
  pose proof (canonical_text_equiv j k Hj Hk) as Hiff. split.
  - intros [= H]. by apply Hiff.
  - intros H. apply Hiff in H. cbn. by rewrite H.
Qed.
Lemma canonical_json_faithful_witness :
  canonical_json (PDict [(PStr "a", PInt 1); (PStr "b", PTuple [PNone])])
  = canonical_json (PDict [(PStr "b", PList [PNone]); (PStr "a", PInt 1)]) ∧
  canonical_json (PInt 1) ≠ canonical_json (PBool true).
Proof.
  split.
  - apply (canonical_json_faithful _ _ (JObj [("a", JInt 1); ("b", JArr [JNull])])
      (JObj [("b", JArr [JNull]); ("a", JInt 1)])); [reflexivity|reflexivity|..].
    + apply wf_json_obj. split; [by apply (bool_decide_unpack _)|by repeat constructor].
    + apply wf_json_obj. split; [by apply (bool_decide_unpack _)|by repeat constructor].
    + apply (jequiv_obj _ [("b", JArr [JNull]); ("a", JInt 1)]); [constructor|].
      repeat constructor.
  - intros H. apply (canonical_json_faithful _ _ (JInt 1) (JBool true)) in H; try done.
    inversion H.
Defined.

(** json_value normalises: what it returns is a JSON wire value, and normalising it again
    returns the same value. *)
Theorem json_value_normal_form p j :
  json_value p = Ok j → wire j ∧ json_value (embed j) = Ok j.
Proof. intros H. pose proof (json_value_wire p j H). split; [done|by apply json_value_embed]. Qed.
Lemma json_value_normal_form_witness :
  wire (JArr [JStr "x"]) ∧ json_value (PList [PStr "x"]) = Ok (JArr [JStr "x"]).
Proof. exact (json_value_normal_form (PTuple [PEnum (PStr "x")]) (JArr [JStr "x"]) eq_refl). Defined.

(** Digests are domain separated: two equal digests come from the same domain, the same
    version and equivalent JSON payloads, unless the two texts hashed are a SHA-256 collision. *)
Theorem digest_separates d d' n n' p q j k x :
  nul_free d → nul_free d' → json_value p = Ok j → json_value q = Ok k → wf_json j → wf_json k →
  digest d n p = Ok x → digest d' n' q = Ok x →
  Digest_well_formed x = Ok x ∧ ((d = d' ∧ n = n' ∧ jequiv j k)
    ∨ collides (digest_material d n j) (digest_material d' n' k)).
Proof.
  unfold digest. intros Hd Hd' -> -> Hj Hk <-%Ok_inj Heq%Ok_inj. symmetry in Heq.
  split; [apply digest_of_well_formed|]. by apply digest_of_inj.
Qed.
Lemma digest_separates_witness :
  Digest_well_formed (digest_of "graph" 1 JNull) = Ok (digest_of "graph" 1 JNull).
Proof.
  assert (nul_free "graph") as Hn by exact (bool_decide_unpack (nul_free "graph") I).
  exact (proj1 (digest_separates "graph" "graph" 1 1 PNone PNone JNull JNull _
    Hn Hn eq_refl eq_refl I I eq_refl eq_refl)).
Defined.

(** The strict parser's object hook accepts an object exactly when no member name repeats,
    and otherwise names a repeated one. *)
Theorem unique_object_exact pairs :
  (NoDup pairs.*1 ∧ unique_object pairs = Ok (JObj pairs)) ∨
  (¬ NoDup pairs.*1 ∧ ∃ k, k ∈ pairs.*1 ∧ unique_object pairs = Raise (RepeatedKey k)).
Proof.
  unfold unique_object. destruct (decide (NoDup pairs.*1)) as [Hnd|Hnd]; [left|right];
    (split; [done|]).
  - by rewrite (unique_fold_ok pairs []).
  - destruct (unique_fold_repeat pairs []) as (k & Hk & ->); [constructor|done|]. by exists k.
Qed.
(** A digest is a function of the canonical text. *)
Lemma digest_of_canonical d n j k : canonical_text j = canonical_text k → digest_of d n j = digest_of d n k.
Proof.
  intros H. assert (render (sort_keys j) = render (sort_keys k)) as Hr.
  { apply (f_equal String.list_ascii_of_string) in H. unfold canonical_text in H.
    by rewrite !String.list_ascii_of_string_of_list_ascii in H. }
  unfold digest_of, digest_material. rewrite Hr. reflexivity.
Qed.
#[global] Opaque digest_of.
