(* ===== verification/Address.v ===== *)
(** Addresses and ports ([src/constructicon/core/address.py],
    [src/constructicon/core/ports.py]), and the interface between a model and
    its [model_dump(mode="json")].

    A Pydantic [str] field refuses a lone surrogate, so the dump of a model is
    already a wire value: [digest] of it is [digest_of] ([digest_wire]). *)

From S2P Require Import Prelude Sha256 Identity.
#[local] Open Scope Z_scope.

(** ** Dumps

    [Dump] is a model's JSON form; [DumpLaws] is what identity needs of it: the
    dump is well formed, and two dumps denote one JSON value exactly when the
    models are equivalent. *)
Class Dump (A : Type) := dump : A → json.
Class Wf (A : Type) := wf : A → Prop.
#[global] Hint Mode Dump ! : typeclass_instances.
#[global] Hint Mode Wf ! : typeclass_instances.

Class DumpLaws (A : Type) `{!Dump A, !Wf A, !Equiv A} : Prop := {
  dump_wf (a : A) : wf a → wf_json (dump a);
  dump_equiv (a b : A) : wf a → wf b → jequiv (dump a) (dump b) ↔ a ≡ b;
}.

Lemma digest_wire domain n j :
  wire j → digest domain n (embed j) = Ok (digest_of domain n j).
Proof. intros H. unfold digest. by rewrite json_value_embed. Qed.

Lemma jequiv_str a b : jequiv (JStr a) (JStr b) ↔ a = b.
Proof. split; [by inversion 1|intros ->; constructor]. Qed.
Lemma jequiv_int a b : jequiv (JInt a) (JInt b) ↔ a = b.
Proof. split; [by inversion 1|intros ->; constructor]. Qed.
Lemma jequiv_bool a b : jequiv (JBool a) (JBool b) ↔ a = b.
Proof. split; [by inversion 1|intros ->; constructor]. Qed.
Lemma jequiv_Forall2_refl l : Forall2 jequiv l l.
Proof. induction l; constructor; [constructor|done]. Qed.
Lemma jequiv_arr_iff l k : jequiv (JArr l) (JArr k) ↔ Forall2 jequiv l k.
Proof.
  split; [|by constructor]. inversion 1; subst; [apply jequiv_Forall2_refl|done].
Qed.

(** Two objects with one list of member names are equivalent member by member. *)
Lemma jequiv_obj_fields m k :
  NoDup m.*1 → m.*1 = k.*1 → jequiv (JObj m) (JObj k) ↔ Forall2 jequiv m.*2 k.*2.
Proof.
  intros Hnd Hkeys. split.
  - inversion 1 as [| |? p ? Hp Hall]; subst; [apply jequiv_Forall2_refl|].
    assert (p.*1 = k.*1) as Hpk.
    { clear -Hall. induction Hall as [|x y p k [Hxy _] _ IH]; [done|]. by rewrite !fmap_cons, Hxy, IH. }
    assert (m = p) as ->.
    { assert (m.*1 = p.*1) as Hmp by congruence. clear Hkeys Hpk Hall H.
      revert p Hp Hmp. induction m as [|[a v] m IH]; intros [|[b w] p] Hp Hmp;
        simpl in *; try done.
      injection Hmp as -> Hmp. apply NoDup_cons in Hnd as [Ha Hnd].
      assert ((b, v) ∈ (b, w) :: p) as Hin by (rewrite <-Hp; left).
      apply elem_of_cons in Hin as [[= ->]|Hin].
      - f_equal. apply IH; [done|by apply Permutation.Permutation_cons_inv in Hp|done].
      - exfalso. apply Ha. rewrite Hmp. apply list_elem_of_fmap. by exists (b, v). }
    clear -Hall. induction Hall as [|x y p k [_ ?]]; simpl; constructor; auto.
  - intros Hall. apply (jequiv_obj _ m); [done|]. clear Hnd.
    revert k Hkeys Hall. induction m as [|[a v] m IH]; intros [|[b w] k] Hkeys Hall;
      simpl in *; try done; constructor.
    + inversion Hall; subst. simplify_eq. by split.
    + inversion Hall; subst. simplify_eq. by apply IH.
Qed.

(** Two objects with different sets of member names are not equivalent. *)
Lemma jequiv_obj_keys m k : jequiv (JObj m) (JObj k) → m.*1 ≡ₚ k.*1.
Proof.
  inversion 1 as [| |? p ? Hp Hall]; subst; [done|]. rewrite Hp.
  clear -Hall. induction Hall as [|x y p k [Hxy _] _ IH]; [done|].
  by rewrite !fmap_cons, IH, Hxy.
Qed.

Lemma Forall2_iff_wf {A} (W : A → Prop) (P Q : A → A → Prop) l k :
  Forall W l → Forall W k → (∀ a b, W a → W b → P a b ↔ Q a b) →
  Forall2 P l k ↔ Forall2 Q l k.
Proof.
  intros Hl Hk HPQ. revert k Hk. induction Hl as [|a l Ha _ IH]; intros k Hk.
  - split; inversion 1; constructor.
  - destruct Hk as [|b k Hb Hk]; [split; inversion 1|].
    rewrite !Forall2_cons_iff. by rewrite HPQ, IH by done.
Qed.

Lemma Forall_true {A} (P : A → Prop) l : (∀ x, P x) → Forall P l.
Proof. intros. by apply Forall_forall. Qed.
Lemma list_equiv_eq {A} `{!Equiv A} (l k : list A) :
  (∀ a b : A, a ≡ b ↔ a = b) → l ≡ k ↔ l = k.
Proof.
  intros Heq. rewrite list_equiv_Forall2. split.
  - induction 1 as [|x y l k Hxy _ IH]; [done|]. apply Heq in Hxy. by subst.
  - intros ->. induction k; constructor; [by apply Heq|done].
Qed.

(** Base instances. *)
#[export] Instance string_dump : Dump string := JStr.
#[export] Instance string_wf : Wf string := λ _, True.
#[export] Instance string_equiv : Equiv string := eq.
#[export] Instance string_dump_laws : DumpLaws string.
Proof. split; [done|]. intros a b _ _. apply jequiv_str. Qed.

#[export] Instance bool_dump : Dump bool := JBool.
#[export] Instance bool_wf : Wf bool := λ _, True.
#[export] Instance bool_equiv : Equiv bool := eq.
#[export] Instance bool_dump_laws : DumpLaws bool.
Proof. split; [done|]. intros a b _ _. apply jequiv_bool. Qed.

#[export] Instance N_dump : Dump N := λ n, JInt (Z.of_N n).
#[export] Instance N_wf : Wf N := λ _, True.
#[export] Instance N_equiv : Equiv N := eq.
#[export] Instance N_dump_laws : DumpLaws N.
Proof.
  split; [done|]. intros a b _ _. unfold dump, N_dump. rewrite jequiv_int.
  unfold equiv, N_equiv. lia.
Qed.
#[export] Instance positive_dump : Dump positive := λ n, JInt (Zpos n).
#[export] Instance positive_wf : Wf positive := λ _, True.
#[export] Instance positive_equiv : Equiv positive := eq.
#[export] Instance positive_dump_laws : DumpLaws positive.
Proof.
  split; [done|]. intros a b _ _. unfold dump, positive_dump. rewrite jequiv_int.
  unfold equiv, positive_equiv. split; [by intros [= ->]|by intros ->].
Qed.

#[export] Instance json_dump : Dump json := id.
#[export] Instance json_wf : Wf json := wf_json.
#[export] Instance json_equiv : Equiv json := jequiv.
#[export] Instance json_dump_laws : DumpLaws json.
Proof. split; done. Qed.

#[export] Instance list_dump `{Dump A} : Dump (list A) := λ l, JArr (dump <$> l).
#[export] Instance list_wf `{Wf A} : Wf (list A) := Forall wf.
#[export] Instance list_dump_laws `{DumpLaws A} : DumpLaws (list A).
Proof.
  split.
  - intros l Hl. apply wf_json_arr. rewrite Forall_fmap.
    eapply Forall_impl; [exact Hl|]. intros a. apply dump_wf.
  - intros l k Hl Hk. unfold dump at 1 2, list_dump. rewrite jequiv_arr_iff.
    rewrite Forall2_fmap, list_equiv_Forall2.
    apply (Forall2_iff_wf wf); [done..|]. apply dump_equiv.
Qed.

(** [None] dumps to null; the model's own dump must never be null. *)
Class DumpSome (A : Type) `{!Dump A} : Prop := dump_some (a : A) : dump a ≠ JNull.
#[export] Instance string_dump_some : DumpSome string.
Proof. done. Qed.
#[export] Instance positive_dump_some : DumpSome positive.
Proof. done. Qed.
#[export] Instance list_dump_some `{Dump A} : DumpSome (list A).
Proof. done. Qed.
#[export] Instance option_dump `{Dump A} : Dump (option A) := jopt dump.
#[export] Instance option_wf `{Wf A} : Wf (option A) := λ o, ∀ a, o = Some a → wf a.
#[export] Instance option_dump_laws `{DumpLaws A, !DumpSome A} : DumpLaws (option A).
Proof.
  split.
  - intros [a|] Ha; [|done]. by apply (dump_wf (A:=A)), Ha.
  - assert (∀ a : A, ¬ jequiv (dump a) JNull) as Hn
      by (intros a Hj; destruct (dump_some a); by inversion Hj).
    assert (∀ a : A, ¬ jequiv JNull (dump a)) as Hn'
      by (intros a Hj; destruct (dump_some a); by inversion Hj).
    intros [a|] [b|] Ha Hb; simpl; unfold dump, option_dump; simpl.
    + rewrite dump_equiv by auto. split; [by constructor|by inversion 1].
    + split; [intros []%Hn|by inversion 1].
    + split; [intros []%Hn'|by inversion 1].
    + split; [constructor|intros _; constructor].
Qed.

(** ** Static scope and dynamic path *)
Abbreviation Digest := string (only parsing).
Abbreviation RunId := string (only parsing).
Abbreviation NodeId := string (only parsing).
Abbreviation GitSha := string (only parsing).

Record ScopePath := mkScope { segments : list string }.
#[export] Instance ScopePath_eq_dec : EqDecision ScopePath.
Proof. solve_decision. Defined.

Definition child (s : ScopePath) (segment : string) : ScopePath :=
  mkScope (s.(segments) ++ [segment]).

Definition LOOP_BODY_SEGMENT : string := "body".

Record IterationFrame := mkFrame { frame_loop : ScopePath; frame_index : N }.
#[export] Instance IterationFrame_eq_dec : EqDecision IterationFrame.
Proof. solve_decision. Defined.

Record ExecutionPath := mkPath { path_scope : ScopePath; iterations : list IterationFrame }.
#[export] Instance ExecutionPath_eq_dec : EqDecision ExecutionPath.
Proof. solve_decision. Defined.

(** [str.join] *)
Fixpoint str_join (sep : string) (l : list string) : string :=
  match l with
  | [] => ""
  | [x] => x
  | x :: l => x +:+ sep +:+ str_join sep l
  end.
Definition render_scope (s : ScopePath) : string :=
  match s.(segments) with [] => "<root>" | l => str_join "/" l end.
Definition py_int_str (n : N) : string :=
  String.string_of_list_ascii (render_int (Z.of_N n)).
Definition render_path (p : ExecutionPath) : string :=
  foldl (λ rendered frame, rendered +:+ "[" +:+ py_int_str frame.(frame_index) +:+ "]")
    (render_scope p.(path_scope)) p.(iterations).

#[export] Instance ScopePath_dump : Dump ScopePath := λ s,
  JObj [("segments", dump s.(segments))].
#[export] Instance IterationFrame_dump : Dump IterationFrame := λ f,
  JObj [("loop", dump f.(frame_loop)); ("index", dump f.(frame_index))].
#[export] Instance ExecutionPath_dump : Dump ExecutionPath := λ p,
  JObj [("scope", dump p.(path_scope)); ("iterations", dump p.(iterations))].

Definition invocation_id (run_id : RunId) (path : ExecutionPath) : Digest :=
  digest_of "invocation" 1 (JObj [("run_id", JStr run_id); ("path", dump path)]).
(** The text that [invocation_id] hashes. *)
Definition invocation_material (run_id : RunId) (path : ExecutionPath) : string :=
  digest_material "invocation" 1 (JObj [("run_id", JStr run_id); ("path", dump path)]).

(** The laws of the dumps above. *)
Lemma Forall2_nil_nil_iff {A B} (R : A → B → Prop) : Forall2 R [] [] ↔ True.
Proof. split; [done|constructor]. Qed.
Lemma NoDup_unpack (l : list string) : bool_decide (NoDup l) = true → NoDup l.
Proof. apply bool_decide_eq_true. Qed.

(** Reduces the equivalence of two fixed-field dumps to that of the fields. *)
Ltac dump_fields :=
  lazymatch goal with
  | |- jequiv ?a ?b ↔ ?P =>
      let a := eval hnf in a in let b := eval hnf in b in change (jequiv a b ↔ P)
  end;
  rewrite jequiv_obj_fields;
  [cbn [fmap list_fmap snd]; rewrite ?Forall2_cons_iff, ?Forall2_nil_nil_iff
  |by apply NoDup_unpack|done].

Lemma wf_json_fields m : NoDup m.*1 → Forall wf_json m.*2 → wf_json (JObj m).
Proof. intros ? Hm. apply wf_json_obj. split; [done|]. by rewrite Forall_fmap in Hm. Qed.
Ltac wf_fields :=
  lazymatch goal with
  | |- wf_json ?a => let a := eval hnf in a in change (wf_json a)
  end;
  apply wf_json_fields;
  [by apply NoDup_unpack
  |cbn [fmap list_fmap snd]; repeat (apply Forall_cons_2); try exact I; try apply Forall_nil_2].

#[export] Instance ScopePath_wf : Wf ScopePath := λ _, True.
#[export] Instance ScopePath_equiv : Equiv ScopePath := eq.

#[export] Instance ScopePath_dump_laws : DumpLaws ScopePath.
Proof.
  split; intros [l].
  - intros _. wf_fields.
    apply (dump_wf l), Forall_true. done.
  - intros [k] _ _. dump_fields.
    rewrite dump_equiv by (by apply Forall_true). rewrite list_equiv_eq by done.
    unfold equiv, ScopePath_equiv. simpl. intuition congruence.
Qed.

#[export] Instance IterationFrame_wf : Wf IterationFrame := λ _, True.
#[export] Instance IterationFrame_equiv : Equiv IterationFrame := eq.
#[export] Instance IterationFrame_dump_laws : DumpLaws IterationFrame.
Proof.
  split; intros [l i].
  - intros _. wf_fields.
    by apply (dump_wf l).
  - intros [k j] _ _. dump_fields. rewrite !dump_equiv by done.
    unfold equiv, IterationFrame_equiv, N_equiv, ScopePath_equiv. simpl.
    intuition congruence.
Qed.

#[export] Instance ExecutionPath_wf : Wf ExecutionPath := λ _, True.
#[export] Instance ExecutionPath_equiv : Equiv ExecutionPath := eq.
#[export] Instance ExecutionPath_dump_laws : DumpLaws ExecutionPath.
Proof.
  split; intros [s i].
  - intros _. wf_fields.
    + by apply (dump_wf s).
    + by apply (dump_wf i), Forall_true.
  - intros [s' i'] _ _. dump_fields. rewrite !dump_equiv by (done || by apply Forall_true).
    rewrite list_equiv_eq by done.
    unfold equiv, ExecutionPath_equiv, ScopePath_equiv. simpl. intuition congruence.
Qed.

Lemma invocation_wf r p :
  wf_json (JObj [("run_id", JStr r); ("path", dump (A:=ExecutionPath) p)]).
Proof.
  wf_fields.
  by apply (dump_wf p).
Qed.

(** ** Ports *)
Inductive cardinality := CardOne | CardOptional | CardMany.
#[export] Instance cardinality_eq_dec : EqDecision cardinality.
Proof. solve_decision. Defined.
Definition cardinality_value (c : cardinality) : string :=
  match c with CardOne => "one" | CardOptional => "optional" | CardMany => "many" end.

Record Port := mkPort {
  port_name : string;
  type_id : string;
  schema_hash : string;
  json_schema : option (list (string * json));
  port_cardinality : cardinality;
}.
#[export] Instance Port_eq_dec : EqDecision Port.
Proof. solve_decision. Defined.

#[export] Instance Port_dump : Dump Port := λ p,
  JObj [("name", JStr p.(port_name)); ("type_id", JStr p.(type_id));
        ("schema_hash", JStr p.(schema_hash)); ("json_schema", jopt JObj p.(json_schema));
        ("cardinality", JStr (cardinality_value p.(port_cardinality)))].

Definition boundary_bytes (ports : list Port) : string := canonical_text (dump ports).
Definition same_boundary (left right : list Port) : bool :=
  bool_decide (boundary_bytes left = boundary_bytes right).

(** A port's schema is a well-formed JSON object. Two ports are one boundary
    position when every field agrees, the schema up to member order. *)
#[export] Instance Port_wf : Wf Port := λ p,
  match p.(json_schema) with Some m => wf_json (JObj m) | None => True end.
#[export] Instance Port_equiv : Equiv Port := λ p q,
  p.(port_name) = q.(port_name) ∧ p.(type_id) = q.(type_id) ∧
  p.(schema_hash) = q.(schema_hash) ∧
  jequiv (jopt JObj p.(json_schema)) (jopt JObj q.(json_schema)) ∧
  p.(port_cardinality) = q.(port_cardinality).

#[export] Instance Port_dump_laws : DumpLaws Port.
Proof.
  split; intros p.
  - unfold wf, Port_wf. intros Hp. wf_fields. by destruct (json_schema p).
  - intros q _ _. dump_fields. rewrite !jequiv_str.
    unfold equiv, Port_equiv.
    assert (cardinality_value (port_cardinality p) = cardinality_value (port_cardinality q)
      ↔ port_cardinality p = port_cardinality q) as ->; [|tauto].
    destruct (port_cardinality p), (port_cardinality q); split; done.
Qed.

Lemma same_boundary_equiv l k : wf l → wf k → same_boundary l k = true ↔ l ≡ k.
Proof.
  intros Hl Hk. unfold same_boundary, boundary_bytes. rewrite bool_decide_eq_true.
  rewrite canonical_text_equiv by (by apply dump_wf). by apply dump_equiv.
Qed.

(** ** Port addresses *)
Inductive PortAddress :=
| GraphInputAddress (scope : ScopePath) (port : string)
| NodePortAddress (scope : ScopePath) (node : NodeId) (port : string)
| GraphOutputAddress (scope : ScopePath) (port : string).
#[export] Instance PortAddress_eq_dec : EqDecision PortAddress.
Proof. solve_decision. Defined.
#[export] Instance PortAddress_dump : Dump PortAddress := λ a,
  match a with
  | GraphInputAddress s p =>
      JObj [("kind", JStr "graph_input"); ("scope", dump s); ("port", JStr p)]
  | NodePortAddress s n p =>
      JObj [("kind", JStr "node_port"); ("scope", dump s); ("node", JStr n); ("port", JStr p)]
  | GraphOutputAddress s p =>
      JObj [("kind", JStr "graph_output"); ("scope", dump s); ("port", JStr p)]
  end.

(** ** Identity of invocations and boundaries *)

(** An invocation id determines the run and the execution path it was derived from, unless
    the two texts hashed for it are a SHA-256 collision. *)
Theorem invocation_id_injective r r' p p' :
  invocation_id r p = invocation_id r' p' →
  (r = r' ∧ p = p') ∨ collides (invocation_material r p) (invocation_material r' p').
Proof.
  assert (nul_free "invocation") as Hn by exact (bool_decide_unpack (nul_free "invocation") I).
  unfold invocation_id. intros H.
  destruct (digest_of_inj _ _ _ _ _ _ Hn Hn (invocation_wf r p) (invocation_wf r' p') H)
    as [(_ & _ & Hj)|?]; [|by right].
  left. revert Hj. rewrite jequiv_obj_fields; [|by apply NoDup_unpack|done].
  cbn [fmap list_fmap snd]. rewrite !Forall2_cons_iff, jequiv_str, dump_equiv by done.
  by intros (-> & -> & _).
Qed.
Lemma invocation_id_injective_witness :
  let p i := mkPath (mkScope ["run"; "loop"; "body"; "w"]) [mkFrame (mkScope ["run"; "loop"]) i] in
  (("r1" = "r1" ∧ p 0%N = p 0%N)
   ∨ collides (invocation_material "r1" (p 0%N)) (invocation_material "r1" (p 0%N))).
Proof.
  intros p. apply (invocation_id_injective "r1" "r1" (p 0%N) (p 0%N)). reflexivity.
Defined.

(** same_boundary decides position-wise equality of two port lists, with embedded schemas
    compared up to member order. *)
Theorem same_boundary_iff l k :
  Forall wf l → Forall wf k → same_boundary l k = true ↔ Forall2 (≡) l k.
Proof. intros Hl Hk. rewrite (same_boundary_equiv l k Hl Hk). apply list_equiv_Forall2. Qed.
Lemma same_boundary_iff_witness :
  let p (z : json) := mkPort "x" "t" "h" (Some [("k", z)]) CardOne in
  same_boundary [p (JInt 1)] [p (JBool true)] ≠ true.
Proof.
  cbv zeta. intros H.
  apply same_boundary_iff in H; [|repeat constructor; simpl; try done; apply not_elem_of_nil..].
  inversion H as [|?? ?? (_ & _ & _ & Hj & _) _]; subst. simpl in Hj.
  apply jequiv_obj_fields in Hj; [|by apply NoDup_unpack|done].
  inversion Hj as [|?? ?? Hv _]; subst. inversion Hv.
Defined.
