(* ===== verification/Graph.v ===== *)
(** Execution grants ([src/constructicon/core/grants.py]) and the authored graph
    IR ([src/constructicon/core/graph.py]): [Ref], [Graph] and [Loop], nothing
    else. *)

From S2P Require Import Prelude Identity Address.
#[local] Open Scope Z_scope.

(** ** Grants *)
Inductive Posture := READ | WRITE.
#[export] Instance Posture_eq_dec : EqDecision Posture.
Proof. solve_decision. Defined.
Definition Posture_value (p : Posture) : string :=
  match p with READ => "read" | WRITE => "write" end.

Inductive selection_kind := Explicit | BackendDefault.
#[export] Instance selection_kind_eq_dec : EqDecision selection_kind.
Proof. solve_decision. Defined.
Record ModelSelection := mkSelection { sel_kind : selection_kind; sel_model : option string }.
#[export] Instance ModelSelection_eq_dec : EqDecision ModelSelection.
Proof. solve_decision. Defined.

Inductive network := NetNone | NetAllow.
Inductive network_request := NetInherit | NetRequest (n : network).
#[export] Instance network_eq_dec : EqDecision network.
Proof. solve_decision. Defined.
#[export] Instance network_request_eq_dec : EqDecision network_request.
Proof. solve_decision. Defined.
Definition network_value (n : network) : string :=
  match n with NetNone => "none" | NetAllow => "allow" end.

Record GrantRequest := mkGrantRequest {
  gr_posture : option Posture;
  gr_model : option string;
  gr_effort : option string;
  gr_allowed_tools : option (list string);
  gr_env_allowlist : option (list string);
  gr_network : network_request;
  gr_timeout_s : option positive;
}.
#[export] Instance GrantRequest_eq_dec : EqDecision GrantRequest.
Proof. solve_decision. Defined.

Record EffectiveGrants := mkGrants {
  posture : Posture;
  model_selection : ModelSelection;
  effort : option string;
  allowed_tools : list string;
  env_allowlist : list string;
  grant_network : network;
  timeout_s : positive;
}.
#[export] Instance EffectiveGrants_eq_dec : EqDecision EffectiveGrants.
Proof. solve_decision. Defined.

Inductive filesystem := FsNone | FsWorkspaceOnly | FsReadOnlySnapshot.
#[export] Instance filesystem_eq_dec : EqDecision filesystem.
Proof. solve_decision. Defined.

Record IsolationProfile := mkIsolation {
  iso_filesystem : filesystem;
  process_tree_owned : bool;
  environment_allowlisted : bool;
  network_enforced : bool;
}.
#[export] Instance IsolationProfile_eq_dec : EqDecision IsolationProfile.
Proof. solve_decision. Defined.

Definition satisfies (iso : IsolationProfile) (p : Posture) : bool :=
  if negb (iso.(process_tree_owned) && iso.(environment_allowlisted)) then false
  else match p with
       | READ => bool_decide (iso.(iso_filesystem) = FsNone)
                 || bool_decide (iso.(iso_filesystem) = FsReadOnlySnapshot)
       | WRITE => bool_decide (iso.(iso_filesystem) = FsWorkspaceOnly)
       end.

#[export] Instance Posture_dump : Dump Posture := λ p, JStr (Posture_value p).
#[export] Instance network_dump : Dump network := λ n, JStr (network_value n).
#[export] Instance ModelSelection_dump : Dump ModelSelection := λ m,
  JObj [("kind", JStr (match m.(sel_kind) with
                       | Explicit => "explicit" | BackendDefault => "backend_default" end));
        ("model", dump m.(sel_model))].
#[export] Instance GrantRequest_dump : Dump GrantRequest := λ g,
  JObj [("posture", dump g.(gr_posture)); ("model", dump g.(gr_model));
        ("effort", dump g.(gr_effort)); ("allowed_tools", dump g.(gr_allowed_tools));
        ("env_allowlist", dump g.(gr_env_allowlist));
        ("network", match g.(gr_network) with
                    | NetInherit => JStr "inherit" | NetRequest n => dump n end);
        ("timeout_s", dump g.(gr_timeout_s))].
#[export] Instance EffectiveGrants_dump : Dump EffectiveGrants := λ g,
  JObj [("posture", dump g.(posture)); ("model_selection", dump g.(model_selection));
        ("effort", dump g.(effort)); ("allowed_tools", dump g.(allowed_tools));
        ("env_allowlist", dump g.(env_allowlist)); ("network", dump g.(grant_network));
        ("timeout_s", dump g.(timeout_s))].

(** ** Authority order

    [g ⊑ h]: everything [g] permits, [h] permits. *)
Definition posture_le (p q : Posture) : Prop := p = WRITE → q = WRITE.
Definition network_le (p q : network) : Prop := p = NetAllow → q = NetAllow.
Record grants_le (g h : EffectiveGrants) : Prop := {
  le_posture : posture_le g.(posture) h.(posture);
  le_tools : g.(allowed_tools) ⊆ h.(allowed_tools);
  le_env : g.(env_allowlist) ⊆ h.(env_allowlist);
  le_network : network_le g.(grant_network) h.(grant_network);
  le_timeout : (g.(timeout_s) ≤ h.(timeout_s))%positive;
}.
#[export] Instance grants_le_preorder : PreOrder grants_le.
Proof.
  split.
  - intros g. split; unfold posture_le, network_le; auto using Pos.le_refl.
  - intros g h k [Hp Ht He Hn Hs] [Hp' Ht' He' Hn' Hs'].
    split; unfold posture_le, network_le in *; auto; [by etrans..|].
    by eapply Pos.le_trans.
Qed.

(** ** The IR *)
Record Ref := mkRef {
  component : string;
  version : option string;
  bind : list (string * string);
  ref_grants : option GrantRequest;
}.
#[export] Instance Ref_eq_dec : EqDecision Ref.
Proof. solve_decision. Defined.

(** [Connection.map]'s keys are unique, as a dict's are. *)
Record Connection := mkConnection {
  src : NodeId;
  dst : NodeId;
  map_ : list (string * string);
}.
#[export] Instance Connection_eq_dec : EqDecision Connection.
Proof. solve_decision. Defined.

Inductive Graph :=
| mkGraph (name : string) (nodes : list GraphNode) (connections : list Connection)
    (inputs outputs : list Port)
with GraphNode := mkNode (id : NodeId) (body : node_body)
with node_body := BRef (r : Ref) | BGraph (g : Graph) | BLoop (l : Loop)
with Loop :=
| mkLoop (body : loop_body) (feedback : list (string * string)) (continue_from : string)
    (max_iterations : positive)
with loop_body := LRef (r : Ref) | LGraph (g : Graph).

Definition graph_name (g : Graph) := let 'mkGraph n _ _ _ _ := g in n.
Definition nodes (g : Graph) := let 'mkGraph _ n _ _ _ := g in n.
Definition connections (g : Graph) := let 'mkGraph _ _ c _ _ := g in c.
Definition graph_inputs (g : Graph) := let 'mkGraph _ _ _ i _ := g in i.
Definition graph_outputs (g : Graph) := let 'mkGraph _ _ _ _ o := g in o.
Definition node_id (n : GraphNode) := let 'mkNode i _ := n in i.
Definition node_body_of (n : GraphNode) := let 'mkNode _ b := n in b.
Definition lp_body (l : Loop) := let 'mkLoop b _ _ _ := l in b.
Definition feedback (l : Loop) := let 'mkLoop _ f _ _ := l in f.
Definition continue_from (l : Loop) := let 'mkLoop _ _ c _ := l in c.
Definition max_iterations (l : Loop) := let 'mkLoop _ _ _ m := l in m.
Definition node_ids (g : Graph) : list NodeId := node_id <$> nodes g.

(** Structural size, the measure of recursion over inline graphs. *)
Fixpoint graph_size (g : Graph) : nat :=
  let 'mkGraph _ ns _ _ _ := g in S (foldr (λ n acc, node_size n + acc)%nat O ns)
with node_size (n : GraphNode) : nat :=
  let 'mkNode _ b := n in
  match b with BRef _ => 1%nat | BGraph g => S (graph_size g) | BLoop l => S (loop_size l) end
with loop_size (l : Loop) : nat :=
  let 'mkLoop b _ _ _ := l in
  match b with LRef _ => 2%nat | LGraph g => S (graph_size g) end.

Lemma node_size_le g n : n ∈ nodes g → (node_size n < graph_size g)%nat.
Proof.
  destruct g as [nm ns cs i o]. simpl. induction ns as [|x ns IH]; simpl; [by intros ?%elem_of_nil|].
  intros [->|H]%elem_of_cons; [lia|]. specialize (IH H). lia.
Qed.

(** ** [model_dump(mode="json")] *)
Definition dump_dict (d : list (string * string)) : json :=
  JObj ((λ kv, (kv.1, JStr kv.2)) <$> d).
#[export] Instance Ref_dump : Dump Ref := λ r,
  JObj [("component", JStr r.(component)); ("version", dump r.(version));
        ("bind", dump_dict r.(bind)); ("grants", jopt dump r.(ref_grants))].
#[export] Instance Connection_dump : Dump Connection := λ c,
  JObj [("src", JStr c.(src)); ("dst", JStr c.(dst)); ("map", dump_dict c.(map_))].

Fixpoint dump_graph (g : Graph) : json :=
  let 'mkGraph n ns cs i o := g in
  JObj [("schema_version", JInt 1); ("name", JStr n); ("nodes", JArr (dump_node <$> ns));
        ("connections", dump cs); ("inputs", dump i); ("outputs", dump o)]
with dump_node (n : GraphNode) : json :=
  let 'mkNode i b := n in
  JObj [("id", JStr i);
        ("body", match b with
                 | BRef r => dump r | BGraph g => dump_graph g | BLoop l => dump_loop l end)]
with dump_loop (l : Loop) : json :=
  let 'mkLoop b f c m := l in
  JObj [("body", match b with LRef r => dump r | LGraph g => dump_graph g end);
        ("feedback", dump_dict f); ("continue_from", JStr c);
        ("max_iterations", JInt (Zpos m))].
#[export] Instance Graph_dump : Dump Graph := dump_graph.

Definition source_graph_hash_for (g : Graph) : Digest := digest_of "graph" 1 (dump g).
