(* ===== verification/Component.v ===== *)
(** Components, versions and the registry view one admission sees
    ([src/constructicon/core/component.py], [core/registry.py],
    [runtime/_resolution.py], the resolution lock of [core/control.py] and
    [embedded_schema_faults] of [runtime/registry.py]). *)

From S2P Require Import Prelude Identity Address Graph.
#[local] Open Scope Z_scope.

(** ** Definitions *)
Record PythonRef := mkPythonRef {
  package : string;
  py_module : string;
  qualname : string;
  py_contract_hash : Digest;
  source_digest : option Digest;
}.
#[export] Instance PythonRef_dump : Dump PythonRef := λ p,
  JObj [("package", JStr p.(package)); ("module", JStr p.(py_module));
        ("qualname", JStr p.(qualname)); ("contract_hash", JStr p.(py_contract_hash));
        ("source_digest", dump p.(source_digest))].

Record CapabilityRequirement := mkRequirement { req_alias : string; req_kind : string }.
#[export] Instance CapabilityRequirement_eq_dec : EqDecision CapabilityRequirement.
Proof. solve_decision. Defined.
#[export] Instance CapabilityRequirement_dump : Dump CapabilityRequirement := λ r,
  JObj [("alias", JStr r.(req_alias)); ("kind", JStr r.(req_kind))].

Record ArtifactRef := mkArtifact {
  art_digest : Digest;
  media_type : string;
  art_size : N;
  art_locator : option string;
}.
#[export] Instance ArtifactRef_dump : Dump ArtifactRef := λ a,
  JObj [("digest", JStr a.(art_digest)); ("media_type", JStr a.(media_type));
        ("size", dump a.(art_size)); ("locator", dump a.(art_locator))].

Inductive change_surface := Prompt | Policy | GraphSurface | Code | ModelArtifact.
#[export] Instance change_surface_eq_dec : EqDecision change_surface.
Proof. solve_decision. Defined.
Definition change_surface_value (c : change_surface) : string :=
  match c with
  | Prompt => "prompt" | Policy => "policy" | GraphSurface => "graph" | Code => "code"
  | ModelArtifact => "model_artifact"
  end.
Inductive impact_scope := ImpactComponent | ImpactReverseDependencies.

(** A [frozenset] field is the list of its members in some iteration order. *)
Record LearningProfile := mkLearning {
  change_surfaces : list change_surface;
  experience_policy : Ref;
  evaluator : Ref;
  promotion_policy : Ref;
  evaluation_dataset : option ArtifactRef;
  learning_impact_scope : impact_scope;
  requires_human_stable_approval : bool;
}.
(** [sorted(value)] *)
Definition _serialize_change_surfaces (value : list change_surface) : list string :=
  py_sorted String.leb (change_surface_value <$> value).
#[export] Instance LearningProfile_dump : Dump LearningProfile := λ l,
  JObj [("change_surfaces", jstrs (_serialize_change_surfaces l.(change_surfaces)));
        ("experience_policy", dump l.(experience_policy));
        ("evaluator", dump l.(evaluator));
        ("promotion_policy", dump l.(promotion_policy));
        ("evaluation_dataset", jopt dump l.(evaluation_dataset));
        ("impact_scope", JStr (match l.(learning_impact_scope) with
                               | ImpactComponent => "component"
                               | ImpactReverseDependencies => "reverse_dependencies" end));
        ("requires_human_stable_approval", JBool l.(requires_human_stable_approval))].

Record ComponentLineage := mkLineage {
  parent_version : option Digest;
  created_by_run : RunId;
  experience_set : option ArtifactRef;
  proposer_manifest_hash : option Digest;
}.
#[export] Instance ComponentLineage_dump : Dump ComponentLineage := λ l,
  JObj [("parent_version", dump l.(parent_version)); ("created_by_run", JStr l.(created_by_run));
        ("experience_set", jopt dump l.(experience_set));
        ("proposer_manifest_hash", dump l.(proposer_manifest_hash))].

Record ComponentMetadata := mkMetadata {
  learning : option LearningProfile;
  lineage : option ComponentLineage;
  labels : list string;
}.
Definition _serialize_labels (value : list string) : list string := py_sorted String.leb value.
#[export] Instance ComponentMetadata_dump : Dump ComponentMetadata := λ m,
  JObj [("learning", jopt dump m.(learning)); ("lineage", jopt dump m.(lineage));
        ("labels", jstrs (_serialize_labels m.(labels)))].

Inductive ComponentRole := RoleNode | RoleComponent | RoleHarness | RoleWorkflow.
Definition role_value (r : ComponentRole) : string :=
  match r with
  | RoleNode => "node" | RoleComponent => "component" | RoleHarness => "harness"
  | RoleWorkflow => "workflow"
  end.

Inductive component_body := CPython (p : PythonRef) | CGraph (g : Graph).

Record ComponentDef := mkComponent {
  def_name : string;
  role : ComponentRole;
  body : component_body;
  def_inputs : list Port;
  def_outputs : list Port;
  metadata : ComponentMetadata;
  capability_requirements : option (list CapabilityRequirement);
}.

(** The field validator: aliases are unique; the order is canonical. *)
Definition requirement_leb : CapabilityRequirement → CapabilityRequirement → bool :=
  λ x y, pair_leb String.leb String.leb (x.(req_alias), x.(req_kind)) (y.(req_alias), y.(req_kind)).
Definition count_of (x : string) (l : list string) : nat :=
  length (filter (λ y, y = x) l).
Definition _canonical_requirements (value : option (list CapabilityRequirement)) :
    result (list string) (option (list CapabilityRequirement)) :=
  match value with
  | None => Ok None
  | Some value =>
      let ordered := py_sorted requirement_leb value in
      let aliases := req_alias <$> ordered in
      let duplicates := sorted_set (filter (λ a, (1 < count_of a aliases)%nat) aliases) in
      match duplicates with
      | [] => Ok (Some ordered)
      | _ => Raise duplicates
      end
  end.

Definition dump_body (b : component_body) : json :=
  match b with CPython p => dump p | CGraph g => dump g end.

(** The wrap serializer drops the nullable field of a definition that predates it. *)
#[export] Instance ComponentDef_dump : Dump ComponentDef := λ d,
  JObj ([("name", JStr d.(def_name)); ("role", JStr (role_value d.(role)));
         ("body", dump_body d.(body)); ("inputs", dump d.(def_inputs));
         ("outputs", dump d.(def_outputs)); ("metadata", dump d.(metadata))]
        ++ match d.(capability_requirements) with
           | None => []
           | Some r => [("capability_requirements", dump r)]
           end).

Definition content_payload (d : ComponentDef) : list (string * json) :=
  [("role", JStr (role_value d.(role))); ("body", dump_body d.(body));
   ("inputs", JArr (dump <$> d.(def_inputs))); ("outputs", JArr (dump <$> d.(def_outputs)));
   ("learning", jopt dump d.(metadata).(learning))].
Definition content_hash (d : ComponentDef) : Digest :=
  match d.(capability_requirements) with
  | None => digest_of "component" 1 (JObj (content_payload d))
  | Some reqs =>
      digest_of "component" 2
        (JObj (content_payload d ++ [("capability_requirements", JArr (dump <$> reqs))]))
  end.

Definition same_definition (left right : ComponentDef) : bool :=
  bool_decide (canonical_text (dump left) = canonical_text (dump right)).

Inductive promotion_channel := Stable.
#[export] Instance promotion_channel_eq_dec : EqDecision promotion_channel.
Proof. solve_decision. Defined.
Record PromotionRecord := mkPromotion {
  promoted : string;
  promo_channel : promotion_channel;
  from_version : option Digest;
  to_version : Digest;
  attestation_id : string;
  promo_actor : string;
  source_run : option RunId;
  promoted_at : string;
}.
#[export] Instance PromotionRecord_eq_dec : EqDecision PromotionRecord.
Proof. solve_decision. Defined.
Definition same_identity_as (x y : PromotionRecord) : bool :=
  bool_decide (x.(promoted) = y.(promoted)) && bool_decide (x.(promo_channel) = y.(promo_channel))
  && bool_decide (x.(from_version) = y.(from_version))
  && bool_decide (x.(to_version) = y.(to_version))
  && bool_decide (x.(attestation_id) = y.(attestation_id))
  && bool_decide (x.(source_run) = y.(source_run)).

(** ** The registry snapshot *)
Record StoredVersion := mkStored {
  definition : ComponentDef;
  stored_hash : Digest;
  registered_at : string;
}.

Record RegistryRevision := mkRevision { registration_seq : N; promotion_seq : N }.
Record RegistrySnapshot := mkSnapshot {
  revision : RegistryRevision;
  versions : gmap string (gmap string StoredVersion);
  order : gmap string (list string);
  stable : gmap string string;
  history : gmap string (list (option string * string));
}.

(** [Digest(value) if value else None] *)
Definition stable_version (s : RegistrySnapshot) (name : string) :
    result value_error (option Digest) :=
  match s.(stable) !! name with
  | None => Ok None
  | Some value => if decide (value = "") then Ok None else Some <$> Digest_well_formed value
  end.
Definition snapshot_get (s : RegistrySnapshot) (name : string) (version : Digest) :
    option StoredVersion :=
  s.(versions) !! name ≫= λ by_hash, by_hash !! version.
Definition names (s : RegistrySnapshot) : list string :=
  py_sorted String.leb (map_to_list s.(versions)).*1.

(** ** The resolution lock *)
Record ResolutionPin := mkPin { pin_scope : ScopePath; pin_component : string; pin_version : Digest }.
Record ResolutionLock := mkLock { source_manifest_hash : Digest; pins : list ResolutionPin }.
Inductive lock_error := DuplicateLockScopes.

Definition _unique_scopes (value : list ResolutionPin) : result lock_error (list ResolutionPin) :=
  let ordered := sorted_by segs_leb (λ pin, pin.(pin_scope).(segments)) value in
  let scopes := (λ pin, pin.(pin_scope).(segments)) <$> ordered in
  if decide (length scopes ≠ length (remove_dups scopes)) then Raise DuplicateLockScopes
  else Ok ordered.

(** [{pin.scope.segments: pin for pin in lock.pins}] *)
Definition lock_index : Type := list (list string * ResolutionPin).
Definition index_lock (l : ResolutionLock) : lock_index :=
  Dict.of_pairs ((λ pin, (pin.(pin_scope).(segments), pin)) <$> l.(pins)).

(** ** One version choice for preflight and compilation *)
Definition select_version (s : RegistrySnapshot) (ref : Ref) (scope : ScopePath)
    (lock : option lock_index) : result value_error (option StoredVersion) :=
  match lock with
  | Some lock =>
      Ok (match Dict.get scope.(segments) lock with
          | None => None
          | Some pin =>
              if decide (pin.(pin_component) ≠ ref.(component)) then None
              else snapshot_get s pin.(pin_component) pin.(pin_version)
          end)
  | None =>
      match ref.(version) with
      | Some v => Ok (snapshot_get s ref.(component) v)
      | None =>
          stable ← stable_version s ref.(component);
          Ok (match stable with
              | Some v => snapshot_get s ref.(component) v
              | None => None
              end)
      end
  end.

(** ** Embedded schemas *)
Inductive direction := Input | Output.
Inductive schema_fault := SchemaFault (name : string) (d : direction) (port declared expected : string).
Definition json_schema_hash (schema : list (string * json)) : Digest :=
  digest_of "json-schema" 1 (JObj schema).
Definition port_schema_faults (name : string) (d : direction) (port : Port) : list schema_fault :=
  match port.(json_schema) with
  | None => []
  | Some schema =>
      let expected := json_schema_hash schema in
      if decide (port.(schema_hash) ≠ expected)
      then [SchemaFault name d port.(port_name) port.(schema_hash) expected] else []
  end.
Definition embedded_schema_faults (d : ComponentDef) : list schema_fault :=
  (d.(def_inputs) ≫= port_schema_faults d.(def_name) Input)
  ++ (d.(def_outputs) ≫= port_schema_faults d.(def_name) Output).

(** ** Lemmas *)
Lemma embedded_schema_faults_nil d :
  embedded_schema_faults d = [] ↔
  ∀ p s, p ∈ d.(def_inputs) ++ d.(def_outputs) → p.(json_schema) = Some s →
    p.(schema_hash) = json_schema_hash s.
Proof.
  assert (∀ n dir ps, ps ≫= port_schema_faults n dir = [] ↔
    ∀ p s, p ∈ ps → p.(json_schema) = Some s → p.(schema_hash) = json_schema_hash s) as Hps.
  { intros n dir ps. induction ps as [|p ps IH]; cbn [mbind list_bind].
    - split; [intros _ p s []%elem_of_nil|done].
    - rewrite app_nil, IH. split.
      + intros [Hp Hps] q s [->|Hq]%elem_of_cons Hs; [|by eapply Hps].
        unfold port_schema_faults in Hp. rewrite Hs in Hp. cbv zeta in Hp.
        destruct (decide _) as [|Hn] in Hp; [done|]. by apply dec_stable.
      + intros H. split; [|intros q s Hq; apply H; by right].
        unfold port_schema_faults. destruct (json_schema p) as [s|] eqn:Hs; [|done].
        cbv zeta. rewrite decide_False; [done|]. intros Hne. apply Hne. apply H; [left|done]. }
  unfold embedded_schema_faults. rewrite app_nil, !Hps. setoid_rewrite elem_of_app. naive_solver.
Qed.

(** ** Canonical requirements and component identity *)
Definition requirement_key (r : CapabilityRequirement) : string * string :=
  (r.(req_alias), r.(req_kind)).
#[export] Instance requirement_leb_total : TotalLeb requirement_leb.
Proof. exact (key_leb_total (pair_leb String.leb String.leb) requirement_key). Qed.
#[export] Instance requirement_leb_anti : AntiLeb requirement_leb.
Proof.
  intros [a k] [b j] H1 H2.
  assert ((a, k) = (b, j)) as [= -> ->]; [|done].
  by apply (leb_antisym (leb := pair_leb String.leb String.leb)).
Qed.

Lemma filter_eq_NoDup (x : string) l : NoDup l → filter (λ y, y = x) l = if decide (x ∈ l) then [x] else [].
Proof.
  induction 1 as [|y l Hy Hl IH]; [done|]. rewrite filter_cons, IH.
  destruct (decide (y = x)) as [->|Hne].
  - by rewrite (decide_False _ _ Hy), decide_True by left.
  - destruct (decide (x ∈ l)); [by rewrite decide_True by by right|].
    rewrite decide_False; [done|]. by intros [|]%elem_of_cons.
Qed.
Lemma count_of_NoDup l : NoDup l ↔ ∀ x, x ∈ l → ¬ (1 < count_of x l)%nat.
Proof.
  split.
  - intros Hl x Hx. unfold count_of. rewrite (filter_eq_NoDup x l Hl), decide_True by done.
    simpl. lia.
  - induction l as [|y l IH]; intros Hc; [constructor|]. apply NoDup_cons. split.
    + intros Hy. apply (Hc y); [left|]. unfold count_of. rewrite filter_cons, decide_True by done.
      assert (y ∈ filter (λ z, z = y) l) as Hin by (by apply list_elem_of_filter).
      destruct (filter _ l); [by apply elem_of_nil in Hin|simpl; lia].
    + apply IH. intros x Hx Hlt. apply (Hc x); [by right|]. unfold count_of in *.
      rewrite filter_cons. case_decide; simpl; lia.
Qed.

Lemma sorted_set_nil l : sorted_set l = [] ↔ l = [].
Proof.
  split; [|by intros ->]. intros H. destruct l as [|x l]; [done|].
  assert (x ∈ sorted_set (x :: l)) as Hx by (apply elem_of_sorted_set; left).
  rewrite H in Hx. by apply elem_of_nil in Hx.
Qed.

(** The canonical requirement list does not depend on the authored order, is a sorted
    permutation of it, and is refused exactly when a requirement name repeats. *)
Theorem canonical_requirements_exact value value' :
  value ≡ₚ value' →
  _canonical_requirements (Some value) = _canonical_requirements (Some value') ∧
  (NoDup (req_alias <$> value) ↔
     _canonical_requirements (Some value) = Ok (Some (py_sorted requirement_leb value))).
Proof.
  intros Hp. unfold _canonical_requirements. cbv zeta.
  rewrite (py_sorted_perm_anti requirement_leb value value' Hp). split; [done|].
  set (aliases := req_alias <$> py_sorted requirement_leb value').
  assert (NoDup (req_alias <$> value) ↔ NoDup aliases) as ->.
  { unfold aliases. by rewrite py_sorted_perm, Hp. }
  rewrite count_of_NoDup. destruct (sorted_set _) as [|a l] eqn:E.
  - split; [done|]. intros _ x Hx Hlt. rewrite sorted_set_nil in E.
    apply (not_elem_of_nil x). rewrite <-E. by apply list_elem_of_filter.
  - split; [|done]. intros Hall. exfalso.
    assert (a ∈ sorted_set (filter (λ a, (1 < count_of a aliases)%nat) aliases)) as Ha
      by (rewrite E; left).
    apply elem_of_sorted_set, list_elem_of_filter in Ha as [Hlt Ha]. by eapply Hall.
Qed.
Lemma canonical_requirements_exact_witness :
  _canonical_requirements (Some [mkRequirement "b" "x"; mkRequirement "a" "y"])
  = _canonical_requirements (Some [mkRequirement "a" "y"; mkRequirement "b" "x"]).
Proof.
  exact (proj1 (canonical_requirements_exact [mkRequirement "b" "x"; mkRequirement "a" "y"]
    [mkRequirement "a" "y"; mkRequirement "b" "x"] (perm_swap _ _ []))).
Defined.

(** What [content_hash] covers: everything but the name, the lineage and the
    labels. *)
Record hashable (d : ComponentDef) : Prop := {
  h_body : wf_json (dump_body d.(body));
  h_ports : Forall wf d.(def_inputs) ∧ Forall wf d.(def_outputs);
  h_learning : wf_json (jopt dump d.(metadata).(learning));
}.
Record same_content (d d' : ComponentDef) : Prop := {
  sc_role : d.(role) = d'.(role);
  sc_body : jequiv (dump_body d.(body)) (dump_body d'.(body));
  sc_ports : Forall2 (≡) d.(def_inputs) d'.(def_inputs) ∧ Forall2 (≡) d.(def_outputs) d'.(def_outputs);
  sc_learning : jequiv (jopt dump d.(metadata).(learning)) (jopt dump d'.(metadata).(learning));
  sc_requirements : d.(capability_requirements) = d'.(capability_requirements);
}.
Lemma dump_ports_wf l : Forall (wf (A:=Port)) l → wf_json (JArr (dump <$> l)).
Proof. intros H. exact (dump_wf l H). Qed.
Lemma dump_requirement_inj (l k : list CapabilityRequirement) :
  Forall2 jequiv (dump <$> l) (dump <$> k) → l = k.
Proof.
  revert k. induction l as [|[a b] l IH]; intros [|[a' b'] k]; inversion 1 as [|???? H1 H2]; [done|].
  subst. f_equal; [|by apply IH]. revert H1. unfold dump, CapabilityRequirement_dump. simpl.
  rewrite jequiv_obj_fields; [|by apply NoDup_unpack|done].
  cbn [fmap list_fmap snd]. rewrite !Forall2_cons_iff, !jequiv_str. by intros (-> & -> & _).
Qed.
Lemma role_value_inj r r' : role_value r = role_value r' → r = r'.
Proof. by destruct r, r'. Qed.
(** The identity law a definition picks from its own content. *)
Definition content_version (d : ComponentDef) : Z :=
  match d.(capability_requirements) with None => 1 | Some _ => 2 end.
Definition content_extra (d : ComponentDef) : list (string * json) :=
  match d.(capability_requirements) with
  | None => []
  | Some reqs => [("capability_requirements", JArr (dump <$> reqs))]
  end.
(** The text that [content_hash] hashes. *)
Definition content_material (d : ComponentDef) : string :=
  digest_material "component" (content_version d) (JObj (content_payload d ++ content_extra d)).
Lemma content_hash_eq d : content_hash d =
  digest_of "component" (content_version d) (JObj (content_payload d ++ content_extra d)).
Proof.
  unfold content_hash, content_version, content_extra.
  destruct (capability_requirements d); [done|]. by rewrite app_nil_r.
Qed.
Lemma content_wf d : hashable d → wf_json (JObj (content_payload d ++ content_extra d)).
Proof.
  intros [Hb [Hi Ho] Hl]. unfold content_payload, content_extra.
  assert (∀ r : list CapabilityRequirement, wf_json (JArr (dump <$> r))) as Hr.
  { intros r. apply wf_json_arr. rewrite Forall_fmap. apply Forall_true. intros [a b].
    apply wf_json_fields; [by apply NoDup_unpack|by repeat constructor]. }
  pose proof (dump_ports_wf _ Hi). pose proof (dump_ports_wf _ Ho).
  destruct (capability_requirements d) as [r|]; (apply wf_json_fields; [by apply NoDup_unpack|]);
    repeat (apply Forall_cons_2; [first [exact I|done|apply Hr]|]); apply Forall_nil_2.
Qed.

(** C37: A content hash identifies a component definition: two definitions with one content
    hash agree on every identity-bearing field (role, ports and schemas up to member order,
    body, requirements, learning profile), or the two texts they hash are a SHA-256 collision. *)
Theorem content_hash_identifies d d' :
  hashable d → hashable d' → content_hash d = content_hash d' →
  same_content d d' ∨ collides (content_material d) (content_material d').
Proof.
  intros Hd Hd'. rewrite !content_hash_eq. intros Heq.
  assert (nul_free "component") as Hn by exact (bool_decide_unpack (nul_free "component") I).
  destruct (digest_of_inj _ _ _ _ _ _ Hn Hn (content_wf d Hd) (content_wf d' Hd') Heq)
    as [(_ & Hv & Hj)|?]; [left|by right].
  assert (∃ ks, (content_extra d).*1 = ks ∧ (content_extra d').*1 = ks ∧
    NoDup ((content_payload d).*1 ++ ks)) as (ks & Hk & Hk' & Hnd).
  { unfold content_version, content_extra in *.
    destruct (capability_requirements d), (capability_requirements d'); try done;
      eexists; (split; [done|]); (split; [done|]); by apply NoDup_unpack. }
  rewrite jequiv_obj_fields in Hj; [|by rewrite fmap_app, Hk|by rewrite !fmap_app, Hk, Hk'].
  rewrite !fmap_app in Hj. unfold content_payload in Hj. cbn [fmap list_fmap snd app] in Hj.
  rewrite !Forall2_cons_iff, jequiv_str in Hj. destruct Hj as (Hrole & Hbody & Hin & Hout & Hlearn & Hrest).
  pose proof Hd as [_ [Hi Ho] _]. pose proof Hd' as [_ [Hi' Ho'] _].
  assert (∀ l k : list Port, Forall wf l → Forall wf k →
    jequiv (JArr (dump <$> l)) (JArr (dump <$> k)) → Forall2 (≡) l k) as Hports.
  { intros l k Hl Hk2 H. apply list_equiv_Forall2. by apply (dump_equiv l k). }
  split; [by apply role_value_inj|done|split; by apply Hports|done|].
  unfold content_version, content_extra in *.
  destruct (capability_requirements d), (capability_requirements d'); try done.
  cbn [fmap list_fmap snd] in Hrest. rewrite Forall2_cons_iff in Hrest.
  destruct Hrest as [Hr _]. by apply jequiv_arr_iff, dump_requirement_inj in Hr as ->.
Qed.
Lemma content_hash_identifies_witness :
  let d n := mkComponent n RoleNode (CPython (mkPythonRef "p" "m" "q" "h" None)) [] []
    (mkMetadata None None []) (Some [mkRequirement "a" "executor"]) in
  hashable (d "one") ∧ (same_content (d "one") (d "two")
    ∨ collides (content_material (d "one")) (content_material (d "two"))).
Proof.
  intros d. assert (∀ n, hashable (d n)) as H.
  { intros n. split; [|by split; constructor|done].
    apply wf_json_fields; [by apply NoDup_unpack|by repeat constructor]. }
  split; [apply H|]. exact (content_hash_identifies (d "one") (d "two") (H _) (H _) eq_refl).
Defined.
