(* ===== verification/Capability.v ===== *)
(** Capabilities: channel exchanges ([src/constructicon/core/channel.py], the
    canonical exchanges of [core/human.py]), executor profiles and their grant
    policies ([core/executor.py], [core/native_operator.py]), and the
    descriptors admission reads ([runtime/registry.py]). *)

From S2P Require Import Prelude Identity Address Graph.
From Stdlib Require Import Ascii.
#[local] Open Scope Z_scope.

(** ** Channels *)
Inductive ChannelInteraction := Advice | Approval.
#[export] Instance ChannelInteraction_eq_dec : EqDecision ChannelInteraction.
Proof. solve_decision. Defined.
Definition interaction_value (i : ChannelInteraction) : string :=
  match i with Advice => "advice" | Approval => "approval" end.
#[export] Instance ChannelInteraction_dump : Dump ChannelInteraction :=
  λ i, JStr (interaction_value i).

Inductive ChannelDurability := Process | SqliteWal.
#[export] Instance ChannelDurability_eq_dec : EqDecision ChannelDurability.
Proof. solve_decision. Defined.

Definition MAILBOX_CHANNEL_KIND : string := "channel.mailbox".
Definition IN_PROCESS_CHANNEL_KIND : string := "channel.in_process".
Definition BUILTIN_CHANNEL_DURABILITIES : list (string * ChannelDurability) :=
  [(MAILBOX_CHANNEL_KIND, SqliteWal); (IN_PROCESS_CHANNEL_KIND, Process)].

Record ChannelContract := mkContract { ct_type_id : string; ct_schema_hash : string }.
#[export] Instance ChannelContract_eq_dec : EqDecision ChannelContract.
Proof. solve_decision. Defined.
#[export] Instance ChannelContract_dump : Dump ChannelContract := λ c,
  JObj [("type_id", JStr c.(ct_type_id)); ("schema_hash", JStr c.(ct_schema_hash))].

Record ChannelEndpoint := mkEndpoint {
  lane : string;
  interaction : ChannelInteraction;
  recipient_actor_id : option string;
}.
#[export] Instance ChannelEndpoint_eq_dec : EqDecision ChannelEndpoint.
Proof. solve_decision. Defined.
#[export] Instance ChannelEndpoint_dump : Dump ChannelEndpoint := λ e,
  JObj [("lane", JStr e.(lane)); ("interaction", dump e.(interaction));
        ("recipient_actor_id", dump e.(recipient_actor_id))].

Record ChannelBinding := mkChannelBinding {
  endpoint : ChannelEndpoint;
  cb_port : string;
  contract : ChannelContract;
  reply_port : string;
  reply_contract : ChannelContract;
}.
#[export] Instance ChannelBinding_eq_dec : EqDecision ChannelBinding.
Proof. solve_decision. Defined.
#[export] Instance ChannelBinding_dump : Dump ChannelBinding := λ b,
  JObj [("endpoint", dump b.(endpoint)); ("port", JStr b.(cb_port));
        ("contract", dump b.(contract)); ("reply_port", JStr b.(reply_port));
        ("reply_contract", dump b.(reply_contract))].

Record ChannelProfile := mkChannelProfile { durability : ChannelDurability; max_batch : positive }.
#[export] Instance ChannelProfile_eq_dec : EqDecision ChannelProfile.
Proof. solve_decision. Defined.

(** Message identities are derived, never authored. *)
Definition request_message_id (run_id : RunId) (path : ExecutionPath)
    (channel_id channel_revision lane : string) (interaction : ChannelInteraction)
    (port : string) : Digest :=
  digest_of "channel-message" 1
    (JObj [("invocation_id", JStr (invocation_id run_id path)); ("channel_id", JStr channel_id);
           ("channel_revision", JStr channel_revision); ("lane", JStr lane);
           ("interaction", dump interaction); ("port", JStr port); ("kind", JStr "request")]).
Definition reply_message_id (request_id : Digest) (reply_port : string) : Digest :=
  digest_of "channel-reply" 1 (JObj [("request_id", JStr request_id); ("port", JStr reply_port)]).

(** *** Canonical human exchanges *)
Definition ADVICE_REQUEST_CONTRACT :=
  mkContract "constructicon.std/AdviceRequest" "advice-request-1".
Definition ADVICE_REPLY_CONTRACT :=
  mkContract "constructicon.std/AdviceResponse" "advice-response-1".
Definition APPROVAL_REQUEST_CONTRACT :=
  mkContract "constructicon.std/ApprovalRequest" "approval-request-1".
Definition APPROVAL_REPLY_CONTRACT :=
  mkContract "constructicon.std/ApprovalDecision" "approval-decision-1".
Definition CANONICAL_EXCHANGES : list (ChannelContract * ChannelContract * ChannelInteraction) :=
  [(ADVICE_REQUEST_CONTRACT, ADVICE_REPLY_CONTRACT, Advice);
   (APPROVAL_REQUEST_CONTRACT, APPROVAL_REPLY_CONTRACT, Approval)].

Inductive exchange_fault :=
| PairsWrong (request reply : string) (required : ChannelInteraction)
    (canonical_request canonical_reply : string)
| WrongInteraction (required sealed : ChannelInteraction)
| ApprovalNeedsCanonical.

Fixpoint exchange_loop (exchanges : list (ChannelContract * ChannelContract * ChannelInteraction))
    (request reply : ChannelContract) (interaction : ChannelInteraction) : option exchange_fault :=
  match exchanges with
  | [] => if decide (interaction = Approval) then Some ApprovalNeedsCanonical else None
  | (canonical_request, canonical_reply, required) :: exchanges =>
      if decide (request ≠ canonical_request ∧ reply ≠ canonical_reply)
      then exchange_loop exchanges request reply interaction
      else if decide (request ≠ canonical_request ∨ reply ≠ canonical_reply)
      then Some (PairsWrong request.(ct_type_id) reply.(ct_type_id) required
                   canonical_request.(ct_type_id) canonical_reply.(ct_type_id))
      else if decide (interaction ≠ required) then Some (WrongInteraction required interaction)
      else None
  end.
Definition canonical_exchange_fault := exchange_loop CANONICAL_EXCHANGES.

(** ** Executor profiles *)

(** [not s.strip()]: every character is whitespace to [str.isspace]. *)
Definition ascii_space (c : ascii) : bool :=
  let n := N_of_ascii c in ((9 <=? n) && (n <=? 13))%N || ((28 <=? n) && (n <=? 32))%N.
Fixpoint blank_chars (l : list ascii) : bool :=
  match l with
  | [] => true
  | a :: l =>
      if ascii_space a then blank_chars l else
      match N_of_ascii a, l with
      | 194%N, b :: l => bool_decide (N_of_ascii b = 133%N ∨ N_of_ascii b = 160%N) && blank_chars l
      | 225%N, b :: c :: l =>
          bool_decide (N_of_ascii b = 154%N ∧ N_of_ascii c = 128%N) && blank_chars l
      | 226%N, b :: c :: l =>
          let n := N_of_ascii c in
          (bool_decide (N_of_ascii b = 128%N)
            && (((128 <=? n) && (n <=? 138))%N
                || bool_decide (n = 168%N ∨ n = 169%N ∨ n = 175%N))
           || bool_decide (N_of_ascii b = 129%N ∧ n = 159%N)) && blank_chars l
      | 227%N, b :: c :: l =>
          bool_decide (N_of_ascii b = 128%N ∧ N_of_ascii c = 128%N) && blank_chars l
      | _, _ => false
      end
  end.
Definition is_blank (s : string) : bool := blank_chars (String.list_ascii_of_string s).

Inductive inventory_error := BlankInventoryName | NoToolSet | NoNetworkMode | NoModelInventory
| NotAllowOnly | BlankProfileName | NoEffortInventory.

(** [_names] and the grant-policy validators. *)
Definition _names (values : list string) : result inventory_error (list string) :=
  if existsb is_blank values then Raise BlankInventoryName else Ok (sorted_set values).
Fixpoint each_names (values : list (list string)) : result inventory_error (list (list string)) :=
  match values with
  | [] => Ok []
  | v :: values => n ← _names v; ns ← each_names values; Ok (n :: ns)
  end.
Definition _tool_inventory (values : list (list string)) :
    result inventory_error (list (list string)) :=
  match values with
  | [] => Raise NoToolSet
  | _ => sets ← each_names values; Ok (py_sorted segs_leb (remove_dups sets))
  end.
Definition network_leb (x y : network) : bool := String.leb (network_value x) (network_value y).
Definition _networks (values : list network) : result inventory_error (list network) :=
  match values with
  | [] => Raise NoNetworkMode
  | _ => Ok (py_sorted network_leb (remove_dups values))
  end.

Inductive network_access := AccessNone | AccessProviderRouteOnly.
Record ExecutorGrantPolicy := mkPolicy {
  tool_sets : list (list string);
  network_modes : list network;
  policy_network_access : network_access;
  environment_names : list string;
  workspace_required : bool;
}.
#[export] Instance ExecutorGrantPolicy_dump : Dump ExecutorGrantPolicy := λ p,
  JObj [("schema_version", JInt 1); ("tool_sets", dump p.(tool_sets));
        ("network_modes", dump p.(network_modes));
        ("network_access", JStr (match p.(policy_network_access) with
                                 | AccessNone => "none"
                                 | AccessProviderRouteOnly => "provider_route_only" end));
        ("environment_names", dump p.(environment_names));
        ("workspace_required", JBool p.(workspace_required))].

Definition filesystem_value (f : filesystem) : string :=
  match f with
  | FsNone => "none" | FsWorkspaceOnly => "workspace_only"
  | FsReadOnlySnapshot => "read_only_snapshot"
  end.
#[export] Instance IsolationProfile_dump : Dump IsolationProfile := λ i,
  JObj [("filesystem", JStr (filesystem_value i.(iso_filesystem)));
        ("process_tree_owned", JBool i.(process_tree_owned));
        ("environment_allowlisted", JBool i.(environment_allowlisted));
        ("network_enforced", JBool i.(network_enforced))].

(** Frozen sets are listed in their iteration order. *)
Record ExecutorProfile := mkProfile {
  prof_name : string;
  structured_output : bool;
  postures : list Posture;
  isolation : IsolationProfile;
  accepted_efforts : list string;
  prof_policy : option ExecutorGrantPolicy;
}.
#[export] Instance ExecutorProfile_dump : Dump ExecutorProfile := λ p,
  let base post efforts :=
    [("name", JStr p.(prof_name)); ("structured_output", JBool p.(structured_output));
     ("postures", JArr (JStr <$> post)); ("isolation", dump p.(isolation));
     ("accepted_efforts", JArr (JStr <$> efforts))] in
  match p.(prof_policy) with
  | None => JObj (base (Posture_value <$> p.(postures)) p.(accepted_efforts))
  | Some policy =>
      JObj (base (py_sorted String.leb (Posture_value <$> p.(postures)))
              (py_sorted String.leb p.(accepted_efforts))
            ++ [("grant_policy", dump policy)])
  end.

(** Itemised refusals, one constructor per message. *)
Inductive grant_fault :=
| NoCompletePolicy
| PostureNotOffered (p : Posture)
| PostureNotEnforced (p : Posture)
| ToolSetNotOffered (tools : list string)
| NetworkNotOffered (n : network)
| NetworkNotEnforced
| EnvironmentNotInheritable (names : list string)
| EffortNotOffered (effort : string)
| ModelEmpty
| OnlyPosture (offered requested : Posture)
| NetworkMustAllow
| EffortNotListed (offered : list string)
| ModelNotExplicit
| ModelNotInInventory (model : option string) (inventory : list string).
#[export] Instance grant_fault_eq_dec : EqDecision grant_fault.
Proof. solve_decision. Defined.

(** [if condition: faults.append(fault)] *)
Definition when {A} (P : Prop) `{Decision P} (fault : A) : list A :=
  if decide P then [fault] else [].

Definition set_minus (l k : list string) : list string :=
  sorted_set (filter (λ x, x ∉ k) l).

(** [value in inventory], for a value that may be absent *)
Definition offered (value : option string) (inventory : list string) : bool :=
  match value with None => false | Some v => bool_decide (v ∈ inventory) end.

(** [selection.model is None or not selection.model.strip()] *)
Definition model_blank (m : option string) : bool :=
  match m with None => true | Some m => is_blank m end.

Definition grant_faults_v1 (p : ExecutorProfile) (g : EffectiveGrants) : list grant_fault :=
  match p.(prof_policy) with
  | None => [NoCompletePolicy]
  | Some policy =>
      (if decide (g.(posture) ∉ p.(postures)) then [PostureNotOffered g.(posture)]
       else if satisfies p.(isolation) g.(posture) then [] else [PostureNotEnforced g.(posture)])
      ++ when (sorted_set g.(allowed_tools) ∉ policy.(tool_sets)) (ToolSetNotOffered g.(allowed_tools))
      ++ when (g.(grant_network) ∉ policy.(network_modes)) (NetworkNotOffered g.(grant_network))
      ++ when (network_enforced p.(isolation) = false) NetworkNotEnforced
      ++ (let unsupported := set_minus g.(env_allowlist) policy.(environment_names) in
          when (unsupported ≠ []) (EnvironmentNotInheritable unsupported))
      ++ match g.(effort) with
         | None => []
         | Some e => when (e ∉ p.(accepted_efforts)) (EffortNotOffered e)
         end
      ++ when (g.(model_selection).(sel_kind) = Explicit
               ∧ model_blank g.(model_selection).(sel_model) = true) ModelEmpty
  end.

(** *** The native operator profile, schema 3 *)
Record NativeOperatorGrantPolicyV3 := mkNativePolicy {
  nat_tool_sets : list (list string);
  model_ids : list string;
  nat_environment_names : list string;
  nat_workspace_required : bool;
  nat_network_modes : list network;
}.
Record NativeOperatorExecutorProfileV3 := mkNativeProfile {
  nat_name : string;
  nat_posture : Posture;
  nat_structured_output : bool;
  nat_accepted_efforts : list string;
  nat_grant_policy : NativeOperatorGrantPolicyV3;
  nat_isolation : IsolationProfile;
  overage_authorized : bool;
}.
#[export] Instance NativeOperatorGrantPolicyV3_dump : Dump NativeOperatorGrantPolicyV3 := λ p,
  JObj [("schema_version", JInt 3); ("tool_sets", dump p.(nat_tool_sets));
        ("model_ids", dump p.(model_ids)); ("environment_names", dump p.(nat_environment_names));
        ("workspace_required", JBool p.(nat_workspace_required));
        ("network_modes", dump p.(nat_network_modes));
        ("network_access", JStr "native_vendor_session_only");
        ("tool_path", JStr "mediated_callbacks_only")].
#[export] Instance NativeOperatorExecutorProfileV3_dump : Dump NativeOperatorExecutorProfileV3 :=
  λ p,
  JObj [("schema_version", JInt 3); ("name", JStr p.(nat_name)); ("posture", dump p.(nat_posture));
        ("structured_output", JBool p.(nat_structured_output));
        ("accepted_efforts", dump p.(nat_accepted_efforts));
        ("grant_policy", dump p.(nat_grant_policy));
        ("isolation",
          JObj [("schema_version", JInt 3);
                ("filesystem", JStr (filesystem_value p.(nat_isolation).(iso_filesystem)));
                ("process_tree_owned", JBool p.(nat_isolation).(process_tree_owned));
                ("environment_allowlisted", JBool p.(nat_isolation).(environment_allowlisted));
                ("network_enforced", JBool p.(nat_isolation).(network_enforced));
                ("native_workspace", JStr "none"); ("worker_network", JStr "none");
                ("credential_state", JStr "narrow_vendor_store_rw");
                ("zones", JStr "native_and_worker_separate")]);
        ("authentication", JStr "vendor_managed_subscription");
        ("account_assurance", JStr "operator_bound_vendor_identity_unverified");
        ("subscription_overage", JStr (if p.(overage_authorized) then "operator_authorized"
                                       else "forbidden"))].

(** The schema-3 validators. *)
Definition _inventory (values : list string) : result inventory_error (list string) :=
  match values with [] => Raise NoModelInventory | _ => _names values end.
Definition _native_networks (values : list network) : result inventory_error (list network) :=
  if decide (values ≠ [NetAllow]) then Raise NotAllowOnly else Ok values.
Definition _named (value : string) : result inventory_error string :=
  if is_blank value then Raise BlankProfileName else Ok value.
Definition _efforts (values : list string) : result inventory_error (list string) :=
  match values with [] => Raise NoEffortInventory | _ => _names values end.

Definition grant_faults_v3 (p : NativeOperatorExecutorProfileV3) (g : EffectiveGrants) :
    list grant_fault :=
  let policy := p.(nat_grant_policy) in
  let selection := g.(model_selection) in
  (if decide (g.(posture) ≠ p.(nat_posture)) then [OnlyPosture p.(nat_posture) g.(posture)]
   else if satisfies p.(nat_isolation) g.(posture) then [] else [PostureNotEnforced g.(posture)])
  ++ when (sorted_set g.(allowed_tools) ∉ policy.(nat_tool_sets)) (ToolSetNotOffered g.(allowed_tools))
  ++ when (g.(grant_network) ≠ NetAllow) NetworkMustAllow
  ++ when (network_enforced p.(nat_isolation) = false) NetworkNotEnforced
  ++ (let unsupported := set_minus g.(env_allowlist) policy.(nat_environment_names) in
      when (unsupported ≠ []) (EnvironmentNotInheritable unsupported))
  ++ when (offered g.(effort) p.(nat_accepted_efforts) = false)
       (EffortNotListed p.(nat_accepted_efforts))
  ++ (if decide (selection.(sel_kind) ≠ Explicit ∨ model_blank selection.(sel_model) = true)
      then [ModelNotExplicit]
      else when (offered selection.(sel_model) policy.(model_ids) = false)
             (ModelNotInInventory selection.(sel_model) policy.(model_ids))).

Inductive executor_profile :=
| ProfileV1 (p : ExecutorProfile)
| ProfileV3 (p : NativeOperatorExecutorProfileV3).
#[export] Instance executor_profile_dump : Dump executor_profile := λ p,
  match p with ProfileV1 p => dump p | ProfileV3 p => dump p end.
(** [profile.grant_policy is not None] *)
Definition complete_policy (p : executor_profile) : bool :=
  match p with ProfileV1 p => bool_decide (is_Some p.(prof_policy)) | ProfileV3 _ => true end.
Definition grant_faults (p : executor_profile) (g : EffectiveGrants) : list grant_fault :=
  match p with ProfileV1 p => grant_faults_v1 p g | ProfileV3 p => grant_faults_v3 p g end.

(** ** Capability descriptors *)
Record CapabilityDescriptor := mkDescriptor {
  capability_id : string;
  kind : string;
  cap_revision : string;
  executor_prof : option executor_profile;
  channel_profile : option ChannelProfile;
  cap_endpoint : option ChannelEndpoint;
  leased : bool;
  requires_posture : option Posture;
}.
Inductive descriptor_error := ChannelProfileMismatch | WrongDurability | EndpointOffChannel
| ExecutorAndChannel | LeasedChannel.

Definition descriptor_post_init (d : CapabilityDescriptor) :
    result descriptor_error CapabilityDescriptor :=
  let channel_kind := String.prefix "channel." d.(kind) in
  if decide (channel_kind ≠ bool_decide (is_Some d.(channel_profile)))
  then Raise ChannelProfileMismatch else
  let wrong_durability :=
    match Dict.get d.(kind) BUILTIN_CHANNEL_DURABILITIES, d.(channel_profile) with
    | Some expected, Some profile => bool_decide (profile.(durability) ≠ expected)
    | _, _ => false
    end in
  if wrong_durability then Raise WrongDurability else
  if bool_decide (is_Some d.(cap_endpoint)) && negb channel_kind then Raise EndpointOffChannel else
  if bool_decide (is_Some d.(executor_prof)) && channel_kind then Raise ExecutorAndChannel else
  if d.(leased) && channel_kind then Raise LeasedChannel else
  Ok d.

(** What admission observes of a live object, which is code outside this
    module: whether it implements [Channel], and its id and profile then;
    whether it is an [ExecutorProvider], and its published facts then; whether
    it implements [QualificationAuthorizing]. *)
Inductive published_reasons :=
| NotATuple
| Reasons (l : list (option string)).   (** [None] for an element that is no [str] *)
Record ProviderFacts := mkProvider {
  identity : option (executor_profile * string);  (** launch profile and its revision *)
  unavailable_reasons : published_reasons;
}.
Record LiveCapability := mkLive {
  live_channel : option (string * ChannelProfile);
  live_provider : option ProviderFacts;
  authorizes_admission : option (Digest → string → bool);
}.

Inductive channel_incoherence_fault :=
| ImplementsUndescribedChannel
| NoChannelObject
| ServesOther (id : string)
| ProfileDiffers (observed declared : ChannelProfile).
Definition channel_incoherence (d : CapabilityDescriptor) (capability : option LiveCapability) :
    option channel_incoherence_fault :=
  let channel := capability ≫= live_channel in
  match d.(channel_profile) with
  | None => match channel with Some _ => Some ImplementsUndescribedChannel | None => None end
  | Some declared =>
      match channel with
      | None => Some NoChannelObject
      | Some (id, observed) =>
          if decide (id ≠ d.(capability_id)) then Some (ServesOther id)
          else if decide (observed ≠ declared) then Some (ProfileDiffers observed declared)
          else None
      end
  end.

Inductive unavailability :=
| ProviderNeedsCompleteProfile
| DescriptorNotLeasedExecutor
| NotAProvider
| NoLaunchIdentity
| ProviderProfileDiffers
| ProviderRevisionDiffers
| ReasonsMalformed
| NotAssembled
| PublishedReason (reason : string).
#[export] Instance unavailability_eq_dec : EqDecision unavailability.
Proof. solve_decision. Defined.

Definition well_formed_reasons (r : published_reasons) : option (list string) :=
  match r with
  | NotATuple => None
  | Reasons l =>
      if forallb (λ r, match r with None => false | Some r => bool_decide (r ≠ "") end) l
      then Some (omap id l) else None
  end.

Definition descriptor_complete (d : CapabilityDescriptor) : bool :=
  match d.(executor_prof) with None => false | Some p => complete_policy p end.

Definition executor_incoherence (d : CapabilityDescriptor) (capability : option LiveCapability) :
    option unavailability :=
  let provider := capability ≫= live_provider in
  match d.(executor_prof), descriptor_complete d with
  | Some profile, true =>
      if decide (d.(kind) ≠ "executor" ∨ d.(leased) = false)
      then Some DescriptorNotLeasedExecutor else
      match capability, provider with
      | None, _ => None
      | Some _, None => Some NotAProvider
      | Some _, Some facts =>
          match facts.(identity) with
          | None => Some NoLaunchIdentity
          | Some (launch, rev) =>
              if decide (canonical_text (dump launch) ≠ canonical_text (dump profile))
              then Some ProviderProfileDiffers
              else if decide (rev ≠ d.(cap_revision)) then Some ProviderRevisionDiffers
              else match well_formed_reasons facts.(unavailable_reasons) with
                   | None => Some ReasonsMalformed
                   | Some _ => None
                   end
          end
      end
  | _, _ => match provider with Some _ => Some ProviderNeedsCompleteProfile | None => None end
  end.

Definition executor_unavailability (d : CapabilityDescriptor) (capability : option LiveCapability) :
    list unavailability :=
  match executor_incoherence d capability with
  | Some incoherence => [incoherence]
  | None =>
      if negb (descriptor_complete d) then [] else
      match capability with
      | None => [NotAssembled]
      | Some c =>
          match c.(live_provider) with
          | None => []
          | Some facts =>
              PublishedReason <$> from_option id [] (well_formed_reasons facts.(unavailable_reasons))
          end
      end
  end.

(** ** The theorems *)

(** canonical_exchange_fault accepts exactly the canonical human exchanges with their own
    interaction, and non-approval exchanges that share no contract with a canonical pair. *)
Theorem canonical_exchange_exact request reply i :
  canonical_exchange_fault request reply i = None ↔
  (request, reply, i) ∈ CANONICAL_EXCHANGES ∨
  (i = Advice ∧ ∀ q p j, (q, p, j) ∈ CANONICAL_EXCHANGES → request ≠ q ∧ reply ≠ p).
Proof.
  unfold canonical_exchange_fault, CANONICAL_EXCHANGES, exchange_loop.
  setoid_rewrite elem_of_cons. setoid_rewrite list_elem_of_singleton.
  destruct (decide (request = ADVICE_REQUEST_CONTRACT)) as [->|H1],
    (decide (reply = ADVICE_REPLY_CONTRACT)) as [->|H2].
  - rewrite decide_False by (by intros []). rewrite decide_False by (by intros [[]|[]]).
    destruct i; [rewrite decide_False by (intros H; by apply H)|rewrite decide_True by done];
      split; try done; [by left; left|]. intros [[?|?]|[? ?]]; done.
  - rewrite decide_False by (by intros []). rewrite decide_True by (by right).
    split; [done|]. intros [[?|?]|[_ H]]; [by simplify_eq|by simplify_eq|].
    exfalso. by destruct (H _ _ _ (or_introl eq_refl)) as [? _].
  - rewrite decide_False by (by intros []). rewrite decide_True by (by left).
    split; [done|]. intros [[?|?]|[_ H]]; [by simplify_eq|by simplify_eq|].
    exfalso. by destruct (H _ _ _ (or_introl eq_refl)) as [_ ?].
  - rewrite decide_True by done.
    destruct (decide (request = APPROVAL_REQUEST_CONTRACT)) as [->|H3],
      (decide (reply = APPROVAL_REPLY_CONTRACT)) as [->|H4].
    + rewrite decide_False by (by intros []). rewrite decide_False by (by intros [[]|[]]).
      destruct i; [rewrite decide_True by done|rewrite decide_False by (intros H; by apply H)];
        split; try done; [|by left; right].
      intros [[?|?]|[_ H]]; [by simplify_eq..|].
      exfalso. by destruct (H _ _ _ (or_intror eq_refl)) as [? _].
    + rewrite decide_False by (by intros []). rewrite decide_True by (by right).
      split; [done|]. intros [[?|?]|[_ H]]; [by simplify_eq..|].
      exfalso. by destruct (H _ _ _ (or_intror eq_refl)) as [? _].
    + rewrite decide_False by (by intros []). rewrite decide_True by (by left).
      split; [done|]. intros [[?|?]|[_ H]]; [by simplify_eq..|].
      exfalso. by destruct (H _ _ _ (or_intror eq_refl)) as [_ ?].
    + rewrite decide_True by done. destruct i.
      * rewrite decide_False by done. split; [|done]. intros _. right. split; [done|].
        intros q p j [[= -> -> ->]|[= -> -> ->]]; done.
      * rewrite decide_True by done. split; [done|].
        intros [[?|?]|[? _]]; [by simplify_eq..|done].
Qed.

(** What an executor profile promises to enforce for a node's grants. *)
Definition effort_listed (g : EffectiveGrants) (efforts : list string) : Prop :=
  ∃ e, g.(effort) = Some e ∧ e ∈ efforts.
Definition model_named (g : EffectiveGrants) : Prop :=
  ∃ m, g.(model_selection).(sel_model) = Some m ∧ is_blank m = false.
Definition supports (p : executor_profile) (g : EffectiveGrants) : Prop :=
  match p with
  | ProfileV1 p => ∃ policy, p.(prof_policy) = Some policy ∧
      g.(posture) ∈ p.(postures) ∧ satisfies p.(isolation) g.(posture) = true ∧
      sorted_set g.(allowed_tools) ∈ policy.(tool_sets) ∧
      g.(grant_network) ∈ policy.(network_modes) ∧ network_enforced p.(isolation) = true ∧
      g.(env_allowlist) ⊆ policy.(environment_names) ∧
      (g.(effort) = None ∨ effort_listed g p.(accepted_efforts)) ∧
      (g.(model_selection).(sel_kind) = Explicit → model_named g)
  | ProfileV3 p =>
      let policy := p.(nat_grant_policy) in
      g.(posture) = p.(nat_posture) ∧ satisfies p.(nat_isolation) g.(posture) = true ∧
      sorted_set g.(allowed_tools) ∈ policy.(nat_tool_sets) ∧
      g.(grant_network) = NetAllow ∧ network_enforced p.(nat_isolation) = true ∧
      g.(env_allowlist) ⊆ policy.(nat_environment_names) ∧
      effort_listed g p.(nat_accepted_efforts) ∧
      g.(model_selection).(sel_kind) = Explicit ∧ model_named g ∧
      ∃ m, g.(model_selection).(sel_model) = Some m ∧ m ∈ policy.(model_ids)
  end.

Lemma when_nil {A} (P : Prop) `{Decision P} (f : A) : when P f = [] ↔ ¬ P.
Proof. unfold when. case_decide; split; done. Qed.
Lemma set_minus_empty l k : set_minus l k = [] ↔ l ⊆ k.
Proof.
  unfold set_minus. split.
  - intros H x Hx. destruct (decide (x ∈ k)) as [|Hn]; [done|]. exfalso.
    assert (x ∈ sorted_set (filter (λ x, x ∉ k) l)) as Hin
      by (by apply elem_of_sorted_set, list_elem_of_filter).
    rewrite H in Hin. by apply elem_of_nil in Hin.
  - intros H. destruct (filter _ l) as [|x f] eqn:E; [done|]. exfalso.
    assert (x ∈ filter (λ x, x ∉ k) l) as Hin by (rewrite E; left).
    apply list_elem_of_filter in Hin as [Hn Hx]. by apply Hn, H.
Qed.
Lemma model_blank_false (g : EffectiveGrants) :
  model_blank g.(model_selection).(sel_model) = false ↔ model_named g.
Proof. unfold model_blank, model_named. destruct (sel_model _); naive_solver. Qed.
Lemma offered_true o l : offered o l = true ↔ ∃ e, o = Some e ∧ e ∈ l.
Proof. unfold offered. destruct o; [rewrite bool_decide_eq_true|]; naive_solver. Qed.

Lemma when_false_nil {A} (b : bool) (f : A) : when (b = false) f = [] ↔ b = true.
Proof. rewrite when_nil. by destruct b. Qed.
Lemma when_not_nil {A} (P : Prop) `{Decision P} (f : A) : when (¬ P) f = [] ↔ P.
Proof. rewrite when_nil. split; [apply dec_stable|tauto]. Qed.
Lemma posture_check {A} (P : Prop) `{Decision P} (b : bool) (f f' : A) :
  (if decide (¬ P) then [f] else if b then [] else [f']) = [] ↔ P ∧ b = true.
Proof. case_decide; destruct b; split; try done; intros []; done. Qed.

(** An executor profile itemises no grant fault exactly when it supports the grants:
    posture offered and enforced, exact tool set, offered and enforced network, inheritable
    environment, offered effort and a usable model selection, for both profile schemas. *)
Theorem grant_faults_exact p g : grant_faults p g = [] ↔ supports p g.
Proof.
  destruct p as [p|p]; simpl.
  - unfold grant_faults_v1. destruct (prof_policy p) as [policy|];
      [|by split; [|intros (? & ? & _)]].
    cbv zeta. rewrite !app_nil, posture_check, !when_not_nil, set_minus_empty, when_false_nil.
    assert (match effort g with None => [] | Some e => when (e ∉ accepted_efforts p) (EffortNotOffered e) end = []
      ↔ effort g = None ∨ effort_listed g (accepted_efforts p)) as ->.
    { unfold effort_listed. destruct (effort g) as [e|]; [rewrite when_not_nil|]; naive_solver. }
    assert (when (sel_kind (model_selection g) = Explicit ∧
        model_blank (sel_model (model_selection g)) = true) ModelEmpty = []
      ↔ (sel_kind (model_selection g) = Explicit → model_named g)) as ->.
    { rewrite when_nil, <-model_blank_false.
      destruct (model_blank _); [|by split; [|intros _ []]].
      split; [|intros H [H1 _]; by apply H in H1].
      intros H H1. exfalso. by apply H. }
    split; [|intros (? & [= <-] & H); tauto]. intros H. exists policy. tauto.
  - unfold grant_faults_v3. cbv zeta.
    rewrite !app_nil, posture_check, !when_not_nil, set_minus_empty, !when_false_nil, offered_true.
    unfold effort_listed.
    assert ((if decide (sel_kind (model_selection g) ≠ Explicit
               ∨ model_blank (sel_model (model_selection g)) = true) then [ModelNotExplicit]
             else when (offered (sel_model (model_selection g)) (model_ids (nat_grant_policy p)) = false)
               (ModelNotInInventory (sel_model (model_selection g)) (model_ids (nat_grant_policy p)))) = []
      ↔ sel_kind (model_selection g) = Explicit ∧ model_named g ∧
        ∃ m, sel_model (model_selection g) = Some m ∧ m ∈ model_ids (nat_grant_policy p)) as ->; [|tauto].
    rewrite <-model_blank_false, <-offered_true. case_decide as Hd.
    + split; [done|]. intros (H1 & H2 & _). destruct Hd as [Hd|Hd]; [done|congruence].
    + rewrite when_false_nil. destruct (decide (sel_kind (model_selection g) = Explicit)),
        (model_blank (sel_model (model_selection g))); tauto.
Qed.
