(* ===== verification/Manifest.v ===== *)
(** The sealed manifest ([src/constructicon/core/manifest.py]): its records, the
    version validator, and the identity law. *)

From S2P Require Import Prelude Sha256 Identity Address Graph Capability.
#[local] Open Scope Z_scope.

Definition MANIFEST_SCHEMA_VERSION : Z := 2.
Definition MANIFEST_CHANNEL_SCHEMA_VERSION : Z := 3.

Definition CONTINUE_TYPE : string := "constructicon/continue".
Definition CONTINUE_SCHEMA : list (string * json) := [("type", JStr "boolean")].
Definition CONTINUE_SCHEMA_HASH : string := digest_of "json-schema" 1 (JObj CONTINUE_SCHEMA).

Definition SELF_BINDING : string := "__node__".
Definition SELF_CAPABILITY : string := "__node__".

Record ResolvedPortBinding := mkBinding {
  destination : PortAddress;
  sources : list PortAddress;
}.
#[export] Instance ResolvedPortBinding_eq_dec : EqDecision ResolvedPortBinding.
Proof. solve_decision. Defined.
#[export] Instance ResolvedPortBinding_dump : Dump ResolvedPortBinding := λ b,
  JObj [("destination", dump b.(destination)); ("sources", dump b.(sources))].

Record ComponentResolution := mkResolution {
  res_scope : ScopePath;
  res_component : string;
  requested_version : option string;
  resolved_version : Digest;
  contract_hash : Digest;
  implementation_digest : option Digest;
}.
#[export] Instance ComponentResolution_eq_dec : EqDecision ComponentResolution.
Proof. solve_decision. Defined.
#[export] Instance ComponentResolution_dump : Dump ComponentResolution := λ r,
  JObj [("scope", dump r.(res_scope)); ("component", JStr r.(res_component));
        ("requested_version", dump r.(requested_version));
        ("resolved_version", JStr r.(resolved_version));
        ("contract_hash", JStr r.(contract_hash));
        ("implementation_digest", dump r.(implementation_digest))].

(** [lifetime] has one value, "invocation". *)
Record CapabilityBinding := mkCapabilityBinding {
  cap_scope : ScopePath;
  binding : string;
  cap_id : string;
  cap_binding_revision : string;
  effective_grants : EffectiveGrants;
  channel : option ChannelBinding;
}.
#[export] Instance CapabilityBinding_eq_dec : EqDecision CapabilityBinding.
Proof. solve_decision. Defined.
#[export] Instance CapabilityBinding_dump : Dump CapabilityBinding := λ b,
  JObj ([("scope", dump b.(cap_scope)); ("binding", JStr b.(binding));
         ("capability_id", JStr b.(cap_id)); ("revision", JStr b.(cap_binding_revision));
         ("effective_grants", dump b.(effective_grants)); ("lifetime", JStr "invocation")]
        ++ match b.(channel) with None => [] | Some c => [("channel", dump c)] end).

Record LoopExport := mkExport {
  export_port : Port;
  export_destination : PortAddress;   (** a [NodePortAddress] *)
  export_sources : list PortAddress;
}.
#[export] Instance LoopExport_eq_dec : EqDecision LoopExport.
Proof. solve_decision. Defined.
#[export] Instance LoopExport_dump : Dump LoopExport := λ e,
  JObj [("port", dump e.(export_port)); ("destination", dump e.(export_destination));
        ("sources", dump e.(export_sources))].

Record LoopResolution := mkLoopResolution {
  loop_scope : ScopePath;
  body_scope : ScopePath;
  loop_max_iterations : positive;
  input_ports : list Port;
  initial_bindings : list ResolvedPortBinding;
  feedback_bindings : list ResolvedPortBinding;
  continue_source : PortAddress;
  exports : list LoopExport;
  member_order : list ScopePath;
}.
#[export] Instance LoopResolution_eq_dec : EqDecision LoopResolution.
Proof. solve_decision. Defined.
#[export] Instance LoopResolution_dump : Dump LoopResolution := λ l,
  JObj [("scope", dump l.(loop_scope)); ("body_scope", dump l.(body_scope));
        ("max_iterations", dump l.(loop_max_iterations)); ("input_ports", dump l.(input_ports));
        ("initial_bindings", dump l.(initial_bindings));
        ("feedback_bindings", dump l.(feedback_bindings));
        ("continue_source", dump l.(continue_source)); ("exports", dump l.(exports));
        ("member_order", dump l.(member_order))].

Record ExecutionManifest := mkManifest {
  schema_version : Z;
  source_graph : Graph;
  source_graph_hash : Digest;
  resolved_components : list ComponentResolution;
  resolved_connections : list ResolvedPortBinding;
  capability_bindings : list CapabilityBinding;
  resolved_loops : list LoopResolution;
  input_hash : Digest;
  world_hash : Digest;
  manifest_hash : Digest;
}.

Definition has_channel (b : CapabilityBinding) : bool := bool_decide (is_Some b.(channel)).
Definition binds_channel (m : ExecutionManifest) : bool := existsb has_channel m.(capability_bindings).

Inductive manifest_error :=
| ChannelNeedsSchema
| SchemaClaimsChannel (version : Z)
| SourceGraphMismatch (recorded recomputed : Digest)
| ManifestMismatch (recorded recomputed : Digest).

(** The model validator [_declared_version_matches_what_it_carries]. *)
Definition declared_version_check (m : ExecutionManifest) : result manifest_error ExecutionManifest :=
  if binds_channel m && (m.(schema_version) <? MANIFEST_CHANNEL_SCHEMA_VERSION)
  then Raise ChannelNeedsSchema
  else if negb (binds_channel m) && (m.(schema_version) >=? MANIFEST_CHANNEL_SCHEMA_VERSION)
  then Raise (SchemaClaimsChannel m.(schema_version))
  else Ok m.

Definition manifest_identity_payload (m : ExecutionManifest) : json :=
  JObj ([("schema_version", JInt m.(schema_version));
         ("source_graph_hash", JStr m.(source_graph_hash));
         ("world_hash", JStr m.(world_hash)); ("input_hash", JStr m.(input_hash));
         ("resolved_components", JArr (dump <$> m.(resolved_components)));
         ("resolved_connections", JArr (dump <$> m.(resolved_connections)));
         ("capability_bindings", JArr (dump <$> m.(capability_bindings)))]
        ++ if m.(schema_version) >=? 2
           then [("resolved_loops", JArr (dump <$> m.(resolved_loops)))] else []).

Definition manifest_hash_for (m : ExecutionManifest) : Digest :=
  digest_of "manifest" m.(schema_version) (manifest_identity_payload m).

Definition validated_manifest_identity (m : ExecutionManifest) :
    result manifest_error ExecutionManifest :=
  let observed_graph := source_graph_hash_for m.(source_graph) in
  if decide (observed_graph ≠ m.(source_graph_hash))
  then Raise (SourceGraphMismatch m.(source_graph_hash) observed_graph) else
  let observed := manifest_hash_for m in
  if decide (observed ≠ m.(manifest_hash))
  then Raise (ManifestMismatch m.(manifest_hash) observed) else Ok m.

(** [manifest.model_copy(update={"manifest_hash": h})] *)
Definition with_manifest_hash (m : ExecutionManifest) (h : Digest) : ExecutionManifest :=
  mkManifest m.(schema_version) m.(source_graph) m.(source_graph_hash) m.(resolved_components)
    m.(resolved_connections) m.(capability_bindings) m.(resolved_loops) m.(input_hash)
    m.(world_hash) h.

(** The identity payload does not contain the identity. *)
Lemma manifest_hash_for_with m h :
  manifest_hash_for (with_manifest_hash m h) = manifest_hash_for m.
Proof. done. Qed.

Lemma seal_validates m :
  source_graph_hash_for m.(source_graph) = m.(source_graph_hash) →
  validated_manifest_identity (with_manifest_hash m (manifest_hash_for m))
  = Ok (with_manifest_hash m (manifest_hash_for m)).
Proof.
  intros Hg. unfold validated_manifest_identity. cbv zeta.
  rewrite decide_False by (intros Hne; by apply Hne).
  rewrite manifest_hash_for_with. rewrite decide_False by (intros Hne; by apply Hne). done.
Qed.
