(* ===== verification/Topology.v ===== *)
(** Connection topology of one graph level
    ([src/constructicon/runtime/validator.py]: [_validate_connection_endpoints],
    [_reject_cycles], [_upstream_closure], [_ordered_nodes], [_explicit_maps]).

    Python's explicit DFS stack and its closures over mutable dicts become
    state passed through a loop with fuel; the lemmas of each section show that
    the fuel the definitions start with is enough. *)

From stdpp Require Import relations.
From S2P Require Import Prelude Identity Address Graph.

(** One connection, as a relation on node ids. *)
Definition edge (g : Graph) (x y : NodeId) : Prop :=
  ∃ c, c ∈ connections g ∧ c.(src) = x ∧ c.(dst) = y.
Definition acyclic (g : Graph) : Prop := ∀ x, ¬ tc (edge g) x x.
Definition endpoints_declared (g : Graph) : Prop :=
  ∀ c, c ∈ connections g → c.(src) ∈ node_ids g ∧ c.(dst) ∈ node_ids g.

(** ** Endpoints *)
Inductive endpoint_role := RoleSrc | RoleDst.
Definition missing_roles (declared : list NodeId) (c : Connection) : list endpoint_role :=
  (if decide (c.(src) ∈ declared) then [] else [RoleSrc])
  ++ (if decide (c.(dst) ∈ declared) then [] else [RoleDst]).
Record undeclared := mkUndeclared {
  und_index : nat; und_connection : Connection; und_missing : list endpoint_role }.
Definition indexed {A} (l : list A) : list (nat * A) := imap pair l.
Definition undeclared_endpoints (g : Graph) : list undeclared :=
  omap (λ ic : nat * Connection,
    match missing_roles (node_ids g) ic.2 with
    | [] => None
    | missing => Some (mkUndeclared ic.1 ic.2 missing)
    end) (indexed (connections g)).

Lemma elem_of_indexed {A} (l : list A) i x : (i, x) ∈ indexed l ↔ l !! i = Some x.
Proof.
  unfold indexed. rewrite elem_of_lookup_imap. split.
  - intros (j & y & Heq & Hy). by simplify_eq.
  - intros H. by exists i, x.
Qed.

Lemma missing_roles_nil declared c :
  missing_roles declared c = [] ↔ c.(src) ∈ declared ∧ c.(dst) ∈ declared.
Proof. unfold missing_roles. repeat case_decide; naive_solver. Qed.

Lemma undeclared_endpoints_nil g : undeclared_endpoints g = [] ↔ endpoints_declared g.
Proof.
  unfold undeclared_endpoints, endpoints_declared. split.
  - intros Hnil c (i & Hi)%list_elem_of_lookup. apply missing_roles_nil.
    destruct (missing_roles _ c) as [|r l] eqn:Hm; [done|]. exfalso.
    assert (mkUndeclared i c (r :: l) ∈ @nil undeclared) as H; [|by apply elem_of_nil in H].
    rewrite <-Hnil. apply list_elem_of_omap. exists (i, c).
    split; [by apply elem_of_indexed|]. simpl. by rewrite Hm.
  - intros H. destruct (omap _ _) as [|u l] eqn:E; [done|]. exfalso.
    assert (u ∈ u :: l) as Hu by left. rewrite <-E in Hu.
    apply list_elem_of_omap in Hu as ([i c] & Hin & Hu). apply elem_of_indexed in Hin.
    simpl in Hu. rewrite (proj2 (missing_roles_nil _ c)) in Hu; [done|].
    apply H. by eapply list_elem_of_lookup_2.
Qed.

(** ** Cycle rejection *)
Definition outgoing (g : Graph) : list (NodeId * list (nat * NodeId)) :=
  foldl (λ d ic, Dict.append ic.2.(src) (ic.1, ic.2.(dst)) d) [] (indexed (connections g)).
Definition outgoing_of (g : Graph) (x : NodeId) : list (nat * NodeId) :=
  Dict.get_or x [] (outgoing g).

Inductive mark := OnStack | Done.
#[export] Instance mark_eq_dec : EqDecision mark.
Proof. solve_decision. Defined.

Record back_edge := mkBackEdge {
  be_index : nat; be_source : NodeId; be_target : NodeId; be_cycle : list NodeId }.

(** The walk's variables; [trail] and [frames] are listed from their end, where
    Python appends and pops. *)
Record dfs := mkDfs {
  dfs_state : list (NodeId * mark);
  trail : list NodeId;
  frames : list (list (nat * NodeId));
  back_edges : list back_edge;
}.

(** [[*trail[trail.index(target):], target]] *)
Definition cycle_of (trail : list NodeId) (target : NodeId) : list NodeId :=
  let t := reverse trail in
  match list_find (λ x, x = target) t with
  | Some (k, _) => drop k t ++ [target]
  | None => [target]
  end.

(** One turn of [while frames]. *)
Definition dfs_step (g : Graph) (d : dfs) : dfs :=
  match d.(frames), d.(trail) with
  | [] :: frs, x :: trl =>
      mkDfs (Dict.set x Done d.(dfs_state)) trl frs d.(back_edges)
  | ((index, target) :: frame) :: frs, x :: _ =>
      match Dict.get target d.(dfs_state) with
      | Some OnStack =>
          mkDfs d.(dfs_state) d.(trail) (frame :: frs)
            (d.(back_edges) ++ [mkBackEdge index x target (cycle_of d.(trail) target)])
      | Some Done => mkDfs d.(dfs_state) d.(trail) (frame :: frs) d.(back_edges)
      | None =>
          mkDfs (Dict.set target OnStack d.(dfs_state)) (target :: d.(trail))
            (outgoing_of g target :: frame :: frs) d.(back_edges)
      end
  | _, _ => d
  end.
Fixpoint dfs_loop (fuel : nat) (g : Graph) (d : dfs) : option dfs :=
  match d.(frames), fuel with
  | [], _ => Some d
  | _, O => None
  | _, S fuel => dfs_loop fuel g (dfs_step g d)
  end.
Definition dfs_root (g : Graph) (x : NodeId) (d : dfs) : dfs :=
  mkDfs (Dict.set x OnStack d.(dfs_state)) [x] [outgoing_of g x] d.(back_edges).
Definition dfs_visit (fuel : nat) (g : Graph) (x : NodeId) (d : dfs) : option dfs :=
  match Dict.get x d.(dfs_state) with
  | Some _ => Some d
  | None => dfs_loop fuel g (dfs_root g x d)
  end.
Fixpoint dfs_nodes (fuel : nat) (g : Graph) (ids : list NodeId) (d : dfs) : option dfs :=
  match ids with
  | [] => Some d
  | x :: ids => d ← dfs_visit fuel g x d; dfs_nodes fuel g ids d
  end.

Definition node_weight (g : Graph) (x : NodeId) : nat := S (length (outgoing_of g x)).
Definition dfs_fuel (g : Graph) : nat := sum_list (node_weight g <$> node_ids g).
Definition find_back_edges (g : Graph) : option (list back_edge) :=
  back_edges <$> dfs_nodes (dfs_fuel g) g (node_ids g) (mkDfs [] [] [] []).

(** *** The adjacency dict *)
Lemma outgoing_get g x :
  outgoing_of g x =
  omap (λ ic : nat * Connection, if decide (ic.2.(src) = x) then Some (ic.1, ic.2.(dst)) else None)
    (indexed (connections g)).
Proof.
  unfold outgoing_of, outgoing. induction (indexed (connections g)) as [|ic l IH] using rev_ind;
    [done|].
  rewrite foldl_snoc, omap_app. cbn [omap list_omap].
  unfold Dict.append, Dict.get_or in *. rewrite Dict.get_set.
  destruct (decide (x = src ic.2)) as [->|Hne].
  - rewrite decide_True by done. simpl. by rewrite IH.
  - rewrite decide_False by congruence. by rewrite app_nil_r.
Qed.

Lemma elem_of_outgoing g x i y :
  (i, y) ∈ outgoing_of g x ↔
  ∃ c, connections g !! i = Some c ∧ c.(src) = x ∧ c.(dst) = y.
Proof.
  rewrite outgoing_get, list_elem_of_omap. split.
  - intros ([j c] & Hin%elem_of_indexed & Hc). simpl in Hc. case_decide; simplify_eq. eauto.
  - intros (c & Hc & Hs & Hd). exists (i, c). split; [by apply elem_of_indexed|].
    simpl. by rewrite decide_True, Hd.
Qed.
Lemma outgoing_edge g x y : edge g x y ↔ ∃ i, (i, y) ∈ outgoing_of g x.
Proof.
  unfold edge. setoid_rewrite elem_of_outgoing. setoid_rewrite list_elem_of_lookup. naive_solver.
Qed.

(** *** Termination: every turn spends one unit of the fuel *)
Definition unseen_weight (g : Graph) (st : list (NodeId * mark)) : nat :=
  sum_list ((λ x, match Dict.get x st with None => node_weight g x | Some _ => O end)
            <$> node_ids g).
Fixpoint frames_size (frs : list (list (nat * NodeId))) : nat :=
  match frs with [] => O | f :: frs => S (length f) + frames_size frs end.
Definition remaining (g : Graph) (d : dfs) : nat :=
  frames_size d.(frames) + unseen_weight g d.(dfs_state).

Lemma sum_list_le {A} (f h : A → nat) l :
  (∀ x, x ∈ l → f x ≤ h x) → sum_list (f <$> l) ≤ sum_list (h <$> l).
Proof.
  induction l as [|x l IH]; intros H; [done|]. rewrite !fmap_cons. simpl.
  pose proof (H x ltac:(left)). specialize (IH ltac:(intros y Hy; apply H; by right)). lia.
Qed.
Lemma sum_list_drop {A} (f h : A → nat) l a n :
  a ∈ l → (∀ x, x ∈ l → f x ≤ h x) → f a + n ≤ h a →
  sum_list (f <$> l) + n ≤ sum_list (h <$> l).
Proof.
  intros Ha. induction l as [|x l IH]; [by apply elem_of_nil in Ha|]. intros Hle Hn.
  rewrite !fmap_cons. simpl.
  assert (∀ y, y ∈ l → f y ≤ h y) as Hle' by (intros y Hy; apply Hle; by right).
  apply elem_of_cons in Ha as [<-|Ha].
  - pose proof (sum_list_le f h l Hle'). lia.
  - pose proof (Hle x ltac:(left)). specialize (IH Ha Hle' Hn). lia.
Qed.

Lemma get_set_None {V} (x y : string) (v : V) d :
  Dict.get x (Dict.set y v d) = None ↔ x ≠ y ∧ Dict.get x d = None.
Proof. rewrite Dict.get_set. case_decide; naive_solver. Qed.

Lemma unseen_weight_set g st x m :
  unseen_weight g (Dict.set x m st) ≤ unseen_weight g st.
Proof.
  apply sum_list_le. intros y _. rewrite Dict.get_set.
  case_decide; [lia|]. by destruct (Dict.get y st).
Qed.
Lemma unseen_weight_push g st x m :
  x ∈ node_ids g → Dict.get x st = None →
  unseen_weight g (Dict.set x m st) + node_weight g x ≤ unseen_weight g st.
Proof.
  intros Hx Hn. apply (sum_list_drop _ _ _ x); [done|..].
  - intros y _. rewrite Dict.get_set. case_decide; [lia|]. by destruct (Dict.get y st).
  - rewrite Dict.get_set, Hn, decide_True by done. lia.
Qed.

(** Every edge still to be walked leads to a declared node. *)
Definition frames_declared (g : Graph) (frs : list (list (nat * NodeId))) : Prop :=
  Forall (Forall (λ e, e.2 ∈ node_ids g)) frs.
Lemma outgoing_declared g x :
  endpoints_declared g → Forall (λ e, e.2 ∈ node_ids g) (outgoing_of g x).
Proof.
  intros Hd. apply Forall_forall. intros [i y] (c & Hc & _ & <-)%elem_of_outgoing.
  apply Hd. by eapply list_elem_of_lookup_2.
Qed.

Lemma dfs_step_remaining g d :
  frames_declared g d.(frames) → d.(frames) ≠ [] → length d.(frames) = length d.(trail) →
  remaining g (dfs_step g d) < remaining g d.
Proof.
  intros Hdecl Hne Hlen. destruct d as [st tr frs be]. unfold dfs_step, remaining. simpl in *.
  destruct frs as [|f frs]; [done|]. destruct tr as [|x tr]; [done|].
  apply Forall_cons in Hdecl as [Hf _]. destruct f as [|[i t] f]; simpl.
  - pose proof (unseen_weight_set g st x Done). lia.
  - destruct (Dict.get t st) as [[]|] eqn:Et; simpl; [lia..|].
    apply Forall_cons in Hf as [Ht _]. simpl in Ht.
    pose proof (unseen_weight_push g st t OnStack Ht Et). unfold node_weight in *. lia.
Qed.

(** *** Correctness of the walk *)

(** A path, by consecutive elements. *)
Definition chain (R : NodeId → NodeId → Prop) (l : list NodeId) : Prop :=
  ∀ i x y, l !! i = Some x → l !! S i = Some y → R x y.
Lemma chain_snoc R l x y : chain R (l ++ [x]) → R x y → chain R (l ++ [x; y]).
Proof.
  intros Hl Hxy i a b Ha Hb. change (l ++ [x; y]) with (l ++ [x] ++ [y]) in *.
  rewrite app_assoc in Ha, Hb.
  destruct (decide (S i < length (l ++ [x]))) as [Hi|Hi].
  - rewrite lookup_app_l in Ha, Hb by lia. by eapply Hl.
  - pose proof (lookup_lt_Some _ _ _ Hb) as Hlt. rewrite !length_app in *. simpl in *.
    assert (S i = length (l ++ [x])) as Hi' by (rewrite length_app; simpl; lia).
    rewrite Hi', list_lookup_middle in Hb by done.
    rewrite lookup_app_l in Ha by (rewrite length_app; simpl; lia).
    assert (i = length l) as -> by (rewrite length_app in Hi'; simpl in Hi'; lia).
    rewrite list_lookup_middle in Ha by done. by simplify_eq.
Qed.
Lemma chain_suffix R l k : chain R (l ++ k) → chain R k.
Proof.
  intros H i x y Hx Hy. apply (H (length l + i)).
  - by rewrite lookup_app_r, Nat.add_comm, Nat.add_sub by lia.
  - rewrite lookup_app_r by lia. by replace (S (length l + i) - length l) with (S i) by lia.
Qed.
Lemma chain_tc R x l y : chain R (x :: l ++ [y]) → tc R x y.
Proof.
  revert x. induction l as [|z l IH]; intros x H.
  - apply tc_once. by apply (H 0).
  - apply tc_l with z; [by apply (H 0)|]. apply IH.
    apply (chain_suffix _ [x]). done.
Qed.

(** A reported cycle: a closed path through connections. *)
Definition is_cycle (g : Graph) (l : list NodeId) : Prop :=
  ∃ x mid, l = x :: mid ++ [x] ∧ chain (edge g) l.
Definition good_back_edge (g : Graph) (b : back_edge) : Prop :=
  is_cycle g b.(be_cycle) ∧
  ∃ c, connections g !! b.(be_index) = Some c ∧ c.(src) = b.(be_source)
       ∧ c.(dst) = b.(be_target).

(** Nodes in finishing order, last first: successors finish before. *)
Fixpoint topo_closed (g : Graph) (fin : list NodeId) : Prop :=
  match fin with
  | [] => True
  | x :: fin => (x ∉ fin) ∧ (∀ y, edge g x y → y ∈ fin) ∧ topo_closed g fin
  end.
Lemma topo_closed_tc g fin x y : topo_closed g fin → x ∈ fin → tc (edge g) x y → y ∈ fin ∧ y ≠ x.
Proof.
  revert x. induction fin as [|z fin IH]; intros x; [by intros _ ?%elem_of_nil|].
  intros (Hz & Hsucc & Hfin) [->|Hx]%elem_of_cons Htc.
  - enough (y ∈ fin) by set_solver.
    inversion Htc as [? ? He|? w ? He Hw]; subst; [by apply Hsucc|].
    by apply IH in Hw as [? _]; [|done|apply Hsucc].
  - destruct (IH x Hfin Hx Htc). set_solver.
Qed.

Definition has_mark (d : dfs) (x : NodeId) (m : mark) : Prop := Dict.get x d.(dfs_state) = Some m.
(** An edge already walked: its target is finished, just above on the stack, or
    a cycle was reported. *)
Definition walked (d : dfs) (above : option NodeId) (y : NodeId) : Prop :=
  has_mark d y Done ∨ above = Some y ∨ d.(back_edges) ≠ [].
Fixpoint stack_ok (g : Graph) (d : dfs) (above : option NodeId) (tr : list NodeId)
    (frs : list (list (nat * NodeId))) : Prop :=
  match tr, frs with
  | [], [] => True
  | x :: tr, f :: frs =>
      (∃ before, outgoing_of g x = before ++ f ∧ ∀ e, e ∈ before → walked d above e.2)
      ∧ (∀ y, above = Some y → edge g x y)
      ∧ stack_ok g d (Some x) tr frs
  | _, _ => False
  end.
Record dfs_inv (g : Graph) (d : dfs) : Prop := {
  inv_nodup : NoDup d.(trail);
  inv_on_stack x : has_mark d x OnStack ↔ x ∈ d.(trail);
  inv_stack : stack_ok g d None d.(trail) d.(frames);
  inv_fin : ∃ fin, (∀ x, has_mark d x Done ↔ x ∈ fin) ∧
              (d.(back_edges) = [] → topo_closed g fin);
  inv_faults : Forall (good_back_edge g) d.(back_edges);
}.

Lemma stack_ok_mono g d d' above tr frs :
  (∀ x, has_mark d x Done → has_mark d' x Done) →
  (d.(back_edges) ≠ [] → d'.(back_edges) ≠ []) →
  stack_ok g d above tr frs → stack_ok g d' above tr frs.
Proof.
  intros Hdone Hbe. revert above frs. induction tr as [|x tr IH]; intros above [|f frs]; simpl; try done.
  intros ((before & Hout & Hw) & He & Hrest). split_and!; [|done|by apply IH].
  exists before. split; [done|]. intros e He'. unfold walked in *. destruct (Hw e He') as [|[|]]; auto.
Qed.
Lemma stack_ok_chain g d above tr frs :
  stack_ok g d above tr frs → chain (edge g) (reverse tr) ∧
    (∀ x tr', tr = x :: tr' → ∀ y, above = Some y → edge g x y).
Proof.
  revert above frs. induction tr as [|x tr IH]; intros above [|f frs]; simpl; try done.
  intros (_ & He & Hrest). split; [|intros ? ? [= <- <-]; done].
  apply IH in Hrest as [Hch Hx]. rewrite reverse_cons. destruct tr as [|z tr].
  - by intros [|i] a b.
  - rewrite reverse_cons in *. rewrite <-app_assoc. apply chain_snoc; [done|]. by eapply Hx.
Qed.

Lemma cycle_of_spec g d tr frs f x y :
  stack_ok g d None (x :: tr) (f :: frs) → y ∈ x :: tr → edge g x y →
  is_cycle g (cycle_of (x :: tr) y).
Proof.
  intros [Hch _]%stack_ok_chain Hy Hxy. unfold cycle_of.
  destruct (list_find _ _) as [[k z]|] eqn:Hf.
  - apply list_find_Some in Hf as (Hk & -> & _).
    apply list_elem_of_split_length in Hk as (l1 & l2 & Heq & ->).
    rewrite Heq, drop_app_length. rewrite Heq in Hch. apply chain_suffix in Hch.
    exists y, l2. split; [done|].
    destruct l2 as [|w l2 _] using rev_ind.
    + simpl. rewrite reverse_cons in Heq. apply app_inj_tail in Heq as [_ ->].
      intros [|[|i]] a b; simpl; intros; by simplify_eq.
    + assert (w = x) as ->.
      { rewrite reverse_cons in Heq. change (y :: l2 ++ [w]) with ((y :: l2) ++ [w]) in Heq.
        rewrite app_assoc in Heq. by apply app_inj_tail in Heq as [_ ->]. }
      change (y :: l2 ++ [x]) with ((y :: l2) ++ [x]) in *.
      rewrite <-app_assoc. by apply chain_snoc.
  - exfalso. apply list_find_None in Hf. rewrite Forall_forall in Hf.
    apply (Hf y); [|done]. by rewrite elem_of_reverse.
Qed.

Lemma stack_ok_above g d y tr frs :
  stack_ok g d (Some y) tr frs → has_mark d y Done → stack_ok g d None tr frs.
Proof.
  destruct tr as [|x tr], frs as [|f frs]; simpl; try done.
  intros ((before & Hout & Hw) & _ & Hrest) Hy. split_and!; [|done..].
  exists before. split; [done|]. intros e He. unfold walked in *.
  destruct (Hw e He) as [|[Heq|]]; auto. simplify_eq. auto.
Qed.

Lemma has_mark_set d x m y n tr frs be :
  has_mark (mkDfs (Dict.set x m (dfs_state d)) tr frs be) y n ↔
  (y = x ∧ n = m) ∨ (y ≠ x ∧ has_mark d y n).
Proof. unfold has_mark. simpl. rewrite Dict.get_set. case_decide; naive_solver. Qed.

Lemma dfs_inv_pop g st x tr frs be :
  dfs_inv g (mkDfs st (x :: tr) ([] :: frs) be) →
  dfs_inv g (mkDfs (Dict.set x Done st) tr frs be).
Proof.
  set (d := mkDfs st (x :: tr) ([] :: frs) be). intros [Hnd Hon Hst (fin & Hfin & Htopo) Hbe].
  simpl in *. apply NoDup_cons in Hnd as [Hx Hnd].
  destruct Hst as ((before & Hout & Hw) & _ & Hrest). rewrite app_nil_r in Hout.
  assert (has_mark d x OnStack) as Hxon by (apply Hon; left).
  assert (x ∉ fin) as Hxfin.
  { intros Hin%Hfin. unfold has_mark in *. simpl in *. congruence. }
  pose proof (has_mark_set d x Done) as Hset. simpl in Hset.
  split; simpl; [done|..|done].
  - intros y. rewrite Hset. rewrite Hon, elem_of_cons. split; [naive_solver|].
    intros Hy. right. split; [by intros ->|by right].
  - eapply stack_ok_above; [|apply Hset; by left].
    eapply stack_ok_mono; [| |exact Hrest]; [|done].
    intros y Hy. apply Hset. destruct (decide (y = x)); auto.
  - exists (x :: fin). split.
    + intros y. rewrite Hset, elem_of_cons, Hfin. destruct (decide (y = x)); naive_solver.
    + intros Hnil. split_and!; [done| |by apply Htopo].
      intros y (i & Hi)%outgoing_edge. rewrite Hout in Hi. apply Hfin.
      by destruct (Hw _ Hi) as [|[|]].
Qed.

Lemma dfs_inv_skip g st x tr i y f frs be be' :
  dfs_inv g (mkDfs st (x :: tr) (((i, y) :: f) :: frs) be) →
  (∃ b, be' = be ++ b ∧ Forall (good_back_edge g) b ∧
        (Dict.get y st = Some Done ∨ b ≠ [])) →
  dfs_inv g (mkDfs st (x :: tr) (f :: frs) be').
Proof.
  set (d := mkDfs st (x :: tr) _ be). intros [Hnd Hon Hst (fin & Hfin & Htopo) Hbe]
    (b & -> & Hb & Hy). simpl in *.
  destruct Hst as ((before & Hout & Hw) & _ & Hrest).
  assert (∀ d', d'.(dfs_state) = st → d'.(back_edges) = be ++ b → ∀ z, walked d None z →
    walked d' None z) as Hwalk.
  { intros d' Hs Hbe' z. unfold walked, has_mark. rewrite Hs, Hbe'. simpl.
    intros [|[|Hz]]; auto. right. right. by destruct be. }
  split; simpl; [done|done|..].
  - split_and!; [|done|].
    + exists (before ++ [(i, y)]). split; [by rewrite <-app_assoc|].
      intros e [He| ->%list_elem_of_singleton]%elem_of_app; [eapply Hwalk; [done|done|by apply Hw]|].
      unfold walked, has_mark. simpl. destruct Hy as [Hy|Hy]; [by left|].
      right. right. by destruct be, b.
    + eapply stack_ok_mono; [| |exact Hrest]; [done|]. simpl. by destruct be.
  - exists fin. split; [done|]. intros [-> _]%app_nil. by apply Htopo.
  - by apply Forall_app.
Qed.

Lemma dfs_inv_push g st x tr i y f frs be :
  dfs_inv g (mkDfs st (x :: tr) (((i, y) :: f) :: frs) be) → Dict.get y st = None →
  dfs_inv g (mkDfs (Dict.set y OnStack st) (y :: x :: tr) (outgoing_of g y :: f :: frs) be).
Proof.
  set (d := mkDfs st (x :: tr) _ be). intros [Hnd Hon Hst (fin & Hfin & Htopo) Hbe] Hy.
  simpl in *. destruct Hst as ((before & Hout & Hw) & _ & Hrest).
  pose proof (has_mark_set d y OnStack) as Hset. simpl in Hset.
  assert (∀ m, ¬ has_mark d y m) as Hno by (unfold has_mark; simpl; congruence).
  split; simpl; [|..|done].
  - apply NoDup_cons. split; [|done]. intros Hin%Hon. by apply Hno in Hin.
  - intros z. rewrite Hset, Hon, (elem_of_cons _ z y). split; [naive_solver|].
    intros [->|Hz]; [by left|]. right. split; [|done]. intros ->. by apply Hon, Hno in Hz.
  - assert (∀ z, has_mark d z Done →
      has_mark (mkDfs (Dict.set y OnStack st) (y :: x :: tr)
        (outgoing_of g y :: f :: frs) be) z Done) as Hmono.
    { intros z Hz. apply Hset. right. split; [|done]. intros ->. by apply Hno in Hz. }
    split_and!; [exists []; split; [done|by intros e ?%elem_of_nil]|done|..].
    + exists (before ++ [(i, y)]). split; [by rewrite <-app_assoc|].
      intros e [He| ->%list_elem_of_singleton]%elem_of_app; [|right; by left].
      destruct (Hw e He) as [?|[?|?]]; [left; by apply Hmono|done|right; by right].
    + intros z [= <-]. apply outgoing_edge. exists i. rewrite Hout. set_solver.
    + eapply stack_ok_mono; [exact Hmono|done|exact Hrest].
  - exists fin. split; [|done]. intros z. rewrite Hset, Hfin. split; [naive_solver|].
    intros Hz. right. split; [|done]. intros ->. by apply Hfin, Hno in Hz.
Qed.

Lemma dfs_inv_step g d : dfs_inv g d → dfs_inv g (dfs_step g d).
Proof.
  intros Hinv. pose proof (inv_stack _ _ Hinv) as Hst. destruct d as [st tr frs be].
  unfold dfs_step. simpl in *. destruct frs as [|f frs]; [done|]. destruct tr as [|x tr]; [done|].
  destruct f as [|[i y] f]; [by apply dfs_inv_pop|].
  destruct (Dict.get y st) as [[]|] eqn:Ey.
  - eapply dfs_inv_skip; [exact Hinv|].
    eexists. split; [done|]. split; [|by right]. constructor; [|done].
    destruct Hst as ((before & Hout & _) & _ & Hrest).
    assert ((i, y) ∈ outgoing_of g x) as Hin by (rewrite Hout; set_solver).
    split; [|by apply elem_of_outgoing in Hin]. eapply cycle_of_spec; [apply (inv_stack _ _ Hinv)| |].
    + by apply (inv_on_stack _ _ Hinv).
    + apply outgoing_edge. eauto.
  - eapply dfs_inv_skip; [exact Hinv|]. exists []. rewrite app_nil_r. auto.
  - by eapply dfs_inv_push.
Qed.

Lemma stack_ok_length g d above tr frs : stack_ok g d above tr frs → length frs = length tr.
Proof.
  revert above frs. induction tr as [|x tr IH]; intros above [|f frs]; simpl; try done.
  intros (_ & _ & Hrest). f_equal. by eapply IH.
Qed.

Definition seen (d : dfs) (x : NodeId) : Prop := is_Some (Dict.get x d.(dfs_state)).
Lemma dfs_step_seen g d x : seen d x → seen (dfs_step g d) x.
Proof.
  destruct d as [st tr frs be]. unfold dfs_step, seen. simpl.
  destruct frs as [|[|[i y] f] frs], tr as [|z tr]; simpl; try done.
  - rewrite Dict.get_set. by case_decide.
  - destruct (Dict.get y st) as [[]|]; simpl; try done. rewrite Dict.get_set. by case_decide.
Qed.
Lemma dfs_step_frames g d :
  endpoints_declared g → frames_declared g d.(frames) → frames_declared g (dfs_step g d).(frames).
Proof.
  intros Hd Hf. destruct d as [st tr frs be]. unfold dfs_step. simpl in *.
  destruct frs as [|f frs], tr as [|z tr]; simpl; try done; [by destruct f as [|[]]|].
  apply Forall_cons in Hf as [Hf Hfrs].
  destruct f as [|[i y] f]; simpl; [done|]. apply Forall_cons in Hf as [_ Hf].
  destruct (Dict.get y st) as [[]|]; simpl; repeat constructor; try done.
  by apply outgoing_declared.
Qed.

Lemma dfs_loop_spec g fuel d :
  endpoints_declared g → frames_declared g d.(frames) → dfs_inv g d → remaining g d ≤ fuel →
  ∃ d', dfs_loop fuel g d = Some d' ∧ dfs_inv g d' ∧ d'.(frames) = [] ∧
        ∀ x, seen d x → seen d' x.
Proof.
  intros Hd. revert d. induction fuel as [|fuel IH]; intros d Hf Hinv Hrem.
  - destruct (frames d) as [|f frs] eqn:E.
    + exists d. by rewrite <-E at 1; simpl; rewrite E.
    + exfalso. unfold remaining in Hrem. rewrite E in Hrem. simpl in Hrem. lia.
  - simpl. destruct (frames d) as [|f frs] eqn:E; [by exists d; rewrite E|].
    assert (frames d ≠ []) as Hne by congruence. rewrite <-E in Hf.
    pose proof (stack_ok_length _ _ _ _ _ (inv_stack _ _ Hinv)) as Hlen.
    pose proof (dfs_step_remaining g d Hf Hne Hlen).
    destruct (IH (dfs_step g d)) as (d' & Hd' & Hinv' & Hfr & Hseen);
      [by apply dfs_step_frames|by apply dfs_inv_step|lia|].
    exists d'. split_and!; [done..|]. intros x Hx. by apply Hseen, dfs_step_seen.
Qed.

Lemma dfs_inv_root g d x :
  dfs_inv g d → d.(frames) = [] → Dict.get x d.(dfs_state) = None → dfs_inv g (dfs_root g x d).
Proof.
  intros [Hnd Hon Hst (fin & Hfin & Htopo) Hbe] Hfr Hx.
  assert (d.(trail) = []) as Htr by (rewrite Hfr in Hst; by destruct (trail d)).
  rewrite Htr in *. assert (∀ m, ¬ has_mark d x m) as Hno by (unfold has_mark; congruence).
  unfold dfs_root. split; simpl; [apply NoDup_singleton|..|done].
  - intros y. rewrite has_mark_set, list_elem_of_singleton.
    split; [|naive_solver]. intros [[? _]|[_ Hy%Hon]]; [done|by apply elem_of_nil in Hy].
  - split_and!; [|done|done]. exists []. split; [done|by intros e ?%elem_of_nil].
  - exists fin. split; [|done]. intros y. rewrite has_mark_set, Hfin. split; [naive_solver|].
    intros Hy. right. split; [|done]. intros ->. by apply Hfin, Hno in Hy.
Qed.

Lemma unseen_weight_fuel g st : unseen_weight g st ≤ dfs_fuel g.
Proof. apply sum_list_le. intros x _. destruct (Dict.get x st); lia. Qed.

Lemma dfs_visit_spec g x d :
  endpoints_declared g → x ∈ node_ids g → dfs_inv g d → d.(frames) = [] →
  ∃ d', dfs_visit (dfs_fuel g) g x d = Some d' ∧ dfs_inv g d' ∧ d'.(frames) = [] ∧
        seen d' x ∧ ∀ y, seen d y → seen d' y.
Proof.
  intros Hd Hx Hinv Hfr. unfold dfs_visit.
  destruct (Dict.get x (dfs_state d)) as [m|] eqn:Ex; [exists d; unfold seen; rewrite Ex; split_and!; by eauto|].
  destruct (dfs_loop_spec g (dfs_fuel g) (dfs_root g x d)) as (d' & Hl & Hinv' & Hfr' & Hs).
  - done.
  - repeat constructor. by apply outgoing_declared.
  - by apply dfs_inv_root.
  - pose proof (unseen_weight_push g (dfs_state d) x OnStack Hx Ex).
    pose proof (unseen_weight_fuel g (dfs_state d)).
    unfold remaining, node_weight in *. simpl. lia.
  - exists d'. split_and!; [done..| |].
    + apply Hs. unfold seen. simpl. rewrite Dict.get_set_eq. eauto.
    + intros y Hy. apply Hs. unfold seen in *. simpl. rewrite Dict.get_set. case_decide; eauto.
Qed.

Lemma dfs_nodes_spec g ids d :
  endpoints_declared g → ids ⊆ node_ids g → dfs_inv g d → d.(frames) = [] →
  ∃ d', dfs_nodes (dfs_fuel g) g ids d = Some d' ∧ dfs_inv g d' ∧ d'.(frames) = [] ∧
        (∀ x, x ∈ ids → seen d' x) ∧ ∀ y, seen d y → seen d' y.
Proof.
  intros Hd. revert d. induction ids as [|x ids IH]; intros d Hids Hinv Hfr.
  - exists d. split_and!; try done. by intros x ?%elem_of_nil.
  - destruct (dfs_visit_spec g x d) as (d1 & H1 & Hinv1 & Hfr1 & Hx & Hs1);
      [done|set_solver|done|done|].
    destruct (IH d1) as (d2 & H2 & Hinv2 & Hfr2 & Hs2 & Hs2'); [set_solver|done|done|].
    exists d2. simpl. rewrite H1. simpl. split_and!; [done..| |by auto].
    intros y [->|Hy]%elem_of_cons; auto.
Qed.

Lemma dfs_inv_init g : dfs_inv g (mkDfs [] [] [] []).
Proof.
  split; simpl; [constructor| |done|exists []; split; [|done]|constructor];
    intros x; unfold has_mark; simpl; split; try done; by intros ?%elem_of_nil.
Qed.

(** The walk ends; it reports nothing exactly when the level is acyclic, and
    what it reports are cycles closed by the named connection. *)
Lemma find_back_edges_spec g :
  endpoints_declared g →
  ∃ faults, find_back_edges g = Some faults ∧ (faults = [] ↔ acyclic g) ∧
            Forall (good_back_edge g) faults.
Proof.
  intros Hd. unfold find_back_edges.
  destruct (dfs_nodes_spec g (node_ids g) (mkDfs [] [] [] [])) as (d & Hl & Hinv & Hfr & Hs & _);
    [done|done|apply dfs_inv_init|done|].
  exists (back_edges d). rewrite Hl. split_and!; [done| |apply Hinv]. split.
  - intros Hnil x Hx. destruct (inv_fin _ _ Hinv) as (fin & Hfin & Htopo).
    assert (x ∈ node_ids g) as Hdecl.
    { inversion Hx as [? ? (c & Hc & <- & _)|? ? ? (c & Hc & <- & _)]; by apply Hd. }
    assert (x ∈ fin) as Hxf.
    { apply Hs in Hdecl as [[] Hm]; [|by apply Hfin].
      apply (inv_on_stack _ _ Hinv) in Hm. pose proof (inv_stack _ _ Hinv) as Hst.
      rewrite Hfr in Hst. destruct (trail d); [by apply elem_of_nil in Hm|done]. }
    by destruct (topo_closed_tc g fin x x (Htopo Hnil) Hxf Hx).
  - intros Hac. destruct (back_edges d) as [|b bs] eqn:Eb; [done|]. exfalso.
    pose proof (inv_faults _ _ Hinv) as Hg. rewrite Eb in Hg.
    apply Forall_cons in Hg as [[(x & mid & Heq & Hch) _] _].
    apply (Hac x). apply (chain_tc _ _ mid). by rewrite <-Heq.
Qed.

(** ** Upstream closure and ordering *)
Inductive topo_error :=
| KeyError (node : NodeId)
| OutOfFuel
| DuplicateNodeIds
| UnknownNode (node : NodeId)
| CycleInvolving (trail : list NodeId).

(** [{node.id: [] for node in nodes}], then one append per connection. *)
Fixpoint append_parents (cs : list Connection) (direct : list (NodeId * list NodeId)) :
    result topo_error (list (NodeId * list NodeId)) :=
  match cs with
  | [] => Ok direct
  | c :: cs =>
      match Dict.get c.(dst) direct with
      | None => Raise (KeyError c.(dst))
      | Some parents => append_parents cs (Dict.set c.(dst) (parents ++ [c.(src)]) direct)
      end
  end.
Definition direct_parents (g : Graph) : result topo_error (list (NodeId * list NodeId)) :=
  append_parents (connections g) (Dict.of_pairs ((λ x, (x, [])) <$> node_ids g)).

(** [if x not in ordered: ordered.append(x)] *)
Definition add_new (ordered : list NodeId) (x : NodeId) : list NodeId :=
  if decide (x ∈ ordered) then ordered else ordered ++ [x].

Definition closure_dict : Type := list (NodeId * list NodeId).
Section visit_parents.
Context (rec : NodeId → list NodeId → closure_dict →
               result topo_error (list NodeId * closure_dict)).
Fixpoint visit_parents (parents : list NodeId) (name : NodeId) (seen ordered : list NodeId)
    (closure : closure_dict) : result topo_error (list NodeId * closure_dict) :=
  match parents with
  | [] => Ok (ordered, closure)
  | parent :: parents =>
      if decide (parent ∈ seen) then visit_parents parents name seen ordered closure
      else
        '(ancestors, closure) ← rec parent (name :: seen) closure;
        visit_parents parents name seen (add_new (foldl add_new ordered ancestors) parent) closure
  end.
End visit_parents.
Fixpoint visit (fuel : nat) (direct : list (NodeId * list NodeId)) (name : NodeId)
    (seen : list NodeId) (closure : closure_dict) : result topo_error (list NodeId * closure_dict) :=
  match Dict.get name closure with
  | Some known => Ok (known, closure)
  | None =>
      match fuel with
      | O => Raise OutOfFuel
      | S fuel =>
          '(ordered, closure) ←
            visit_parents (visit fuel direct) (Dict.get_or name [] direct) name seen [] closure;
          Ok (ordered, Dict.set name ordered closure)
      end
  end.
Fixpoint visit_all (fuel : nat) (direct : list (NodeId * list NodeId)) (ids : list NodeId)
    (closure : closure_dict) : result topo_error closure_dict :=
  match ids with
  | [] => Ok closure
  | x :: ids => '(_, closure) ← visit fuel direct x [] closure; visit_all fuel direct ids closure
  end.
Definition _upstream_closure (g : Graph) : result topo_error closure_dict :=
  direct ← direct_parents g; visit_all (length (node_ids g)) direct (node_ids g) [].

(** [_ordered_nodes]: the mutable [placed] and [ordered] are threaded. *)
Record placement := mkPlacement { placed : list NodeId; ordered : list GraphNode }.
Section place_parents.
Context (rec : NodeId → list NodeId → placement → result topo_error placement).
Fixpoint place_parents (parents : list NodeId) (trl : list NodeId) (st : placement) :
    result topo_error placement :=
  match parents with
  | [] => Ok st
  | parent :: parents => st ← rec parent trl st; place_parents parents trl st
  end.
End place_parents.
Fixpoint place (fuel : nat) (by_id : list (NodeId * GraphNode)) (upstream : closure_dict)
    (name : NodeId) (trl : list NodeId) (st : placement) : result topo_error placement :=
  if decide (name ∈ st.(placed)) then Ok st else
  match Dict.get name by_id with
  | None => Raise (UnknownNode name)
  | Some node =>
      if decide (name ∈ trl) then Raise (CycleInvolving (trl ++ [name])) else
      match fuel with
      | O => Raise OutOfFuel
      | S fuel =>
          st ← place_parents (place fuel by_id upstream) (Dict.get_or name [] upstream)
                 (trl ++ [name]) st;
          Ok (mkPlacement (st.(placed) ++ [name]) (st.(ordered) ++ [node]))
      end
  end.
Definition nodes_by_id (g : Graph) : list (NodeId * GraphNode) :=
  Dict.of_pairs ((λ n, (node_id n, n)) <$> nodes g).
Definition _ordered_nodes (g : Graph) (upstream : closure_dict) :
    result topo_error (list GraphNode) :=
  let by_id := nodes_by_id g in
  if decide (length by_id ≠ length (nodes g)) then Raise DuplicateNodeIds else
  st ← place_parents (place (S (length (node_ids g))) by_id upstream) (node_ids g) []
         (mkPlacement [] []);
  Ok st.(ordered).

(** *** Lists closed under ancestors, ancestors first *)
Section ancestors.
Context (g : Graph).
Notation "x ≺ y" := (tc (edge g) x y) (at level 70).

Definition ancestors_first (l : list NodeId) : Prop :=
  ∀ i x, l !! i = Some x → ∀ y, y ≺ x → y ∈ take i l.

Lemma ancestors_first_snoc l x :
  ancestors_first l → (∀ y, y ≺ x → y ∈ l) → ancestors_first (l ++ [x]).
Proof.
  intros Hl Hx i z [Hz|[Hi Hz]]%lookup_app_Some y Hy.
  - pose proof (lookup_lt_Some _ _ _ Hz). rewrite take_app_le by lia. by eapply Hl.
  - destruct (i - length l) as [|k] eqn:E; [|done]. simpl in Hz. simplify_eq.
    assert (i = length l) as -> by lia. rewrite take_app_length. by apply Hx.
Qed.
Lemma ancestors_first_add l x :
  ancestors_first l → (∀ y, y ≺ x → y ∈ l) → ancestors_first (add_new l x).
Proof. unfold add_new. case_decide; [done|apply ancestors_first_snoc]. Qed.
Lemma elem_of_add_new l x z : z ∈ add_new l x ↔ z ∈ l ∨ z = x.
Proof. unfold add_new. case_decide; set_solver. Qed.
Lemma elem_of_add_all l k z : z ∈ foldl add_new l k ↔ z ∈ l ∨ z ∈ k.
Proof.
  revert l. induction k as [|x k IH]; intros l; simpl; [set_solver|].
  rewrite IH, elem_of_add_new. set_solver.
Qed.
Lemma NoDup_add_new l x : NoDup l → NoDup (add_new l x).
Proof.
  intros Hl. unfold add_new. case_decide; [done|]. apply NoDup_app. split; [done|].
  split; [set_solver|apply NoDup_singleton].
Qed.
Lemma NoDup_add_all l k : NoDup l → NoDup (foldl add_new l k).
Proof. revert l. induction k; simpl; auto using NoDup_add_new. Qed.
Lemma ancestors_first_add_all l k :
  ancestors_first l → ancestors_first k → ancestors_first (foldl add_new l k).
Proof.
  intros Hl Hk. enough (∀ k1 k2, k = k1 ++ k2 → ∀ l, ancestors_first l → k1 ⊆ l →
    ancestors_first (foldl add_new l k2)) as H by (apply (H [] k); [done|done|set_solver]).
  clear l Hl. intros k1 k2. revert k1. induction k2 as [|x k2 IH]; intros k1 Heq l Hl Hsub; [done|].
  simpl. apply (IH (k1 ++ [x])); [by rewrite <-app_assoc| |].
  - apply ancestors_first_add; [done|]. intros y Hy. apply Hsub.
    specialize (Hk (length k1) x). rewrite Heq, list_lookup_middle, take_app_length in Hk by done.
    by apply Hk.
  - intros z Hz. apply elem_of_add_new. set_solver.
Qed.
End ancestors.

Lemma direct_parents_spec g :
  endpoints_declared g →
  ∃ direct, direct_parents g = Ok direct ∧
    ∀ x p, p ∈ Dict.get_or x [] direct ↔ edge g p x.
Proof.
  intros Hd. unfold direct_parents, edge.
  assert (∀ x, x ∈ node_ids g →
    x ∈ Dict.keys (Dict.of_pairs ((λ x : NodeId, (x, @nil NodeId)) <$> node_ids g))) as Hk.
  { intros x Hx. apply Dict.keys_of_pairs. rewrite <-list_fmap_compose.
    apply list_elem_of_fmap. by exists x. }
  assert (∀ x p, p ∉ Dict.get_or x []
    (Dict.of_pairs ((λ x : NodeId, (x, @nil NodeId)) <$> node_ids g))) as Hempty.
  { intros x p. unfold Dict.get_or. destruct (Dict.get x _) eqn:E; [|by intros ?%elem_of_nil].
    apply Dict.get_of_pairs_elem, list_elem_of_fmap in E as (? & ? & ?). simplify_eq.
    by intros ?%elem_of_nil. }
  revert Hk Hempty. generalize (Dict.of_pairs ((λ x : NodeId, (x, @nil NodeId)) <$> node_ids g)).
  intros direct Hk Hempty.
  enough (∀ cs direct, (∀ c, c ∈ cs → c.(dst) ∈ Dict.keys direct) →
    ∃ d', append_parents cs direct = Ok d' ∧ ∀ x p, p ∈ Dict.get_or x [] d' ↔
      p ∈ Dict.get_or x [] direct ∨ ∃ c, c ∈ cs ∧ c.(src) = p ∧ c.(dst) = x) as H.
  { destruct (H (connections g) direct) as (d' & Hd' & Hspec); [intros c Hc; apply Hk, Hd, Hc|].
    exists d'. split; [done|]. intros x p. rewrite Hspec. split; [|by right].
    intros [?%Hempty|]; done. }
  clear. induction cs as [|c cs IH]; intros direct Hk; simpl.
  - exists direct. split; [done|]. intros x p. split; [by left|].
    intros [|(c & Hc & _)]; [done|by apply elem_of_nil in Hc].
  - assert (dst c ∈ Dict.keys direct) as Hc by (apply Hk; left).
    apply Dict.get_is_Some in Hc as [ps Hps]. rewrite Hps.
    destruct (IH (Dict.set (dst c) (ps ++ [src c]) direct)) as (d' & Hd' & Hspec).
    { intros c' Hc'. apply Dict.elem_of_keys_set. right. apply Hk. by right. }
    exists d'. split; [done|]. intros x p. rewrite Hspec. unfold Dict.get_or.
    rewrite Dict.get_set. setoid_rewrite elem_of_cons.
    destruct (decide (x = dst c)) as [->|Hne]; simpl.
    + rewrite Hps. simpl. rewrite elem_of_app, list_elem_of_singleton. naive_solver.
    + split; [naive_solver|]. intros [?|(c' & [->|?] & <- & <-)]; naive_solver.
Qed.

Lemma tc_split_r {A} (R : A → A → Prop) x y : tc R x y → R x y ∨ ∃ z, tc R x z ∧ R z y.
Proof.
  induction 1 as [x y Hxy|x y z Hxy Hyz IH]; [by left|]. right.
  destruct IH as [Hyz'|(w & Hyw & Hwz)]; [exists y|exists w]; split; try done.
  - by apply tc_once.
  - by eapply tc_l.
Qed.

Section upstream.
Context (g : Graph) (Hdecl : endpoints_declared g) (Hac : acyclic g).
Notation "x ≺ y" := (tc (edge g) x y) (at level 70).

Lemma ancestor_declared x y : x ≺ y → x ∈ node_ids g.
Proof. intros Hx. inversion Hx as [? ? (c & Hc & <- & _)|? ? ? (c & Hc & <- & _)]; by apply Hdecl. Qed.

(** What a closure entry means. *)
Definition upstream_ok (name : NodeId) (l : list NodeId) : Prop :=
  NoDup l ∧ (∀ x, x ∈ l ↔ x ≺ name) ∧ ancestors_first g l.
Definition closure_ok (closure : closure_dict) : Prop :=
  ∀ name l, Dict.get name closure = Some l → upstream_ok name l.

(** A DFS position: [name] and the distinct declared descendants it was
    reached from. *)
Definition position (name : NodeId) (seen : list NodeId) : Prop :=
  name ∈ node_ids g ∧ NoDup seen ∧ ∀ s, s ∈ seen → name ≺ s ∧ s ∈ node_ids g.
Lemma position_fresh name seen : position name seen → name ∉ seen.
Proof. intros (_ & _ & Hs) Hin. by destruct (Hac name), (Hs name Hin). Qed.
Lemma position_parent name seen p : position name seen → edge g p name → position p (name :: seen).
Proof.
  intros Hpos He. pose proof (position_fresh _ _ Hpos) as Hf. destruct Hpos as (Hn & Hnd & Hs).
  split_and!; [by apply (ancestor_declared _ name), tc_once|by constructor|].
  intros s [->|Hin]%elem_of_cons; [split; [by apply tc_once|done]|].
  destruct (Hs s Hin). split; [|done]. by eapply tc_l.
Qed.
Lemma position_fuel name seen fuel :
  position name seen → length (node_ids g) ≤ fuel + length seen → ∃ n, fuel = S n.
Proof.
  intros Hpos Hf. pose proof (position_fresh _ _ Hpos). destruct Hpos as (Hn & Hnd & Hs).
  assert (length (name :: seen) ≤ length (node_ids g)) as Hlen.
  { apply submseteq_length, NoDup_submseteq; [by constructor|].
    intros x [->|Hx]%elem_of_cons; [done|by apply Hs]. }
  simpl in Hlen. destruct fuel; [lia|eauto].
Qed.
Lemma parents_closed name (done_ todo : list NodeId) :
  (∀ p, p ∈ done_ ++ todo ↔ edge g p name) → todo = [] →
  ∀ x, (∃ p, p ∈ done_ ∧ (x = p ∨ x ≺ p)) ↔ x ≺ name.
Proof.
  intros Hp -> x. rewrite app_nil_r in Hp. split.
  - intros (p & Hin%Hp & [->|Hx]); [by apply tc_once|]. by eapply tc_r.
  - intros Hx. apply tc_split_r in Hx as [He|(z & Hxz & He)]; apply Hp in He; eauto.
Qed.

Context (direct : list (NodeId * list NodeId))
  (Hdirect : ∀ x p, p ∈ Dict.get_or x [] direct ↔ edge g p x).

Definition visits (fuel : nat) : Prop :=
  ∀ name seen closure,
    position name seen → length (node_ids g) ≤ fuel + length seen → closure_ok closure →
    ∃ l closure', visit fuel direct name seen closure = Ok (l, closure') ∧
      upstream_ok name l ∧ closure_ok closure' ∧ Dict.get name closure' = Some l ∧
      ∀ x, is_Some (Dict.get x closure) → is_Some (Dict.get x closure').

Lemma visit_parents_spec fuel name seen todo : visits fuel →
  position name seen → length (node_ids g) ≤ S fuel + length seen →
  ∀ done_ acc closure,
    (∀ p, p ∈ done_ ++ todo ↔ edge g p name) → closure_ok closure →
    NoDup acc → ancestors_first g acc →
    (∀ x, x ∈ acc ↔ ∃ p, p ∈ done_ ∧ (x = p ∨ x ≺ p)) →
    ∃ l closure',
      visit_parents (visit fuel direct) todo name seen acc closure = Ok (l, closure') ∧
      upstream_ok name l ∧ closure_ok closure' ∧
      ∀ x, is_Some (Dict.get x closure) → is_Some (Dict.get x closure').
Proof.
  intros Hvis Hpos Hfuel. induction todo as [|p todo IH]; intros done_ acc closure Hp Hc Hnd Haf Hacc.
  - exists acc, closure. split; [done|]. split; [|by split]. split; [done|]. split; [|done].
    intros x. rewrite Hacc. by eapply parents_closed.
  - simpl. assert (edge g p name) as He by (apply Hp; set_solver).
    pose proof (position_parent _ _ _ Hpos He) as Hpp.
    rewrite decide_False by (intros Hin; apply (position_fresh _ _ Hpp); by right).
    destruct (Hvis p (name :: seen) closure) as (anc & c' & Hv & (Hand & Hanc & Haaf) & Hc' & _ & Hs);
      [done|simpl; lia|done|].
    rewrite Hv. cbn [mbind result_bind].
    destruct (IH (done_ ++ [p]) (add_new (foldl add_new acc anc) p) c')
      as (l & c2 & Hl & Hok & Hc2 & Hs2).
    + intros q. rewrite <-Hp. set_solver.
    + done.
    + by apply NoDup_add_new, NoDup_add_all.
    + apply ancestors_first_add; [by apply ancestors_first_add_all|].
      intros y Hy. apply elem_of_add_all. right. by apply Hanc.
    + intros x. rewrite elem_of_add_new, elem_of_add_all, Hacc, Hanc.
      setoid_rewrite elem_of_app. setoid_rewrite list_elem_of_singleton. naive_solver.
    + exists l, c2. split_and!; auto.
Qed.

Lemma visit_spec fuel : visits fuel.
Proof.
  induction fuel as [|fuel IH]; intros name seen closure Hpos Hfuel Hc.
  - by destruct (position_fuel _ _ _ Hpos Hfuel).
  - simpl. destruct (Dict.get name closure) as [known|] eqn:Ek.
    { exists known, closure. split_and!; auto. }
    destruct (visit_parents_spec fuel name seen (Dict.get_or name [] direct) IH Hpos Hfuel
      [] [] closure) as (l & c' & Hl & Hok & Hc' & Hs).
    + apply Hdirect.
    + done.
    + constructor.
    + by intros [].
    + intros x. split; [by intros ?%elem_of_nil|by intros (? & ?%elem_of_nil & _)].
    + rewrite Hl. cbn [mbind result_bind]. exists l, (Dict.set name l c').
      split_and!; [done|done| |apply Dict.get_set_eq|].
      * intros n k. rewrite Dict.get_set. case_decide; [|apply Hc']. intros; by simplify_eq.
      * intros x Hx. rewrite Dict.get_set. case_decide; eauto.
Qed.

Lemma visit_all_spec ids closure :
  ids ⊆ node_ids g → closure_ok closure →
  ∃ closure', visit_all (length (node_ids g)) direct ids closure = Ok closure' ∧
    closure_ok closure' ∧ (∀ x, x ∈ ids → is_Some (Dict.get x closure')) ∧
    ∀ x, is_Some (Dict.get x closure) → is_Some (Dict.get x closure').
Proof.
  revert closure. induction ids as [|x ids IH]; intros closure Hids Hc.
  - exists closure. split_and!; try done. by intros x ?%elem_of_nil.
  - cbn [visit_all].
    destruct (visit_spec (length (node_ids g)) x [] closure) as (l & c1 & Hv & _ & Hc1 & Hx & Hs1).
    { split_and!; [set_solver|constructor|by intros s ?%elem_of_nil]. }
    { lia. } { done. }
    rewrite Hv. cbn [mbind result_bind].
    destruct (IH c1) as (c2 & Hv2 & Hc2 & Hin2 & Hs2); [set_solver|done|].
    exists c2. split_and!; [done..| |by auto]. intros y [->|Hy]%elem_of_cons; eauto.
Qed.
End upstream.

(** Every declared node's entry: its proper ancestors, each once, ancestors
    first. *)
Lemma upstream_closure_spec g :
  endpoints_declared g → acyclic g →
  ∃ closure, _upstream_closure g = Ok closure ∧ closure_ok g closure ∧
    ∀ x, x ∈ node_ids g → is_Some (Dict.get x closure).
Proof.
  intros Hd Hac. unfold _upstream_closure.
  destruct (direct_parents_spec g Hd) as (direct & -> & Hdir). cbn [mbind result_bind].
  destruct (visit_all_spec g Hd Hac direct Hdir (node_ids g) []) as (c & Hc & Hok & Hin & _);
    [done|by intros ??|]. by exists c.
Qed.

Lemma length_of_pairs {V} (l : list (NodeId * V)) :
  length (Dict.of_pairs l) = length l ↔ NoDup l.*1.
Proof.
  split; [|intros H; by rewrite Dict.of_pairs_NoDup].
  intros Hlen. assert (l.*1 ≡ₚ Dict.keys (Dict.of_pairs l)) as ->; [|apply Dict.NoDup_keys_of_pairs].
  symmetry. apply submseteq_length_Permutation.
  - apply NoDup_submseteq; [apply Dict.NoDup_keys_of_pairs|]. intros x. by rewrite Dict.keys_of_pairs.
  - unfold Dict.keys. rewrite !length_fmap. lia.
Qed.
Lemma nodes_by_id_length g : length (nodes_by_id g) = length (nodes g) ↔ NoDup (node_ids g).
Proof.
  unfold nodes_by_id, node_ids. rewrite <-(length_fmap (λ n, (node_id n, n)) (nodes g)).
  rewrite length_of_pairs. by rewrite <-list_fmap_compose.
Qed.
Lemma nodes_by_id_get g x : NoDup (node_ids g) → x ∈ node_ids g →
  ∃ n, Dict.get x (nodes_by_id g) = Some n ∧ n ∈ nodes g ∧ node_id n = x.
Proof.
  intros Hnd Hx. unfold nodes_by_id.
  assert (((λ n, (node_id n, n)) <$> nodes g).*1 = node_ids g) as Hk
    by (by rewrite <-list_fmap_compose).
  destruct (Dict.get x _) as [n|] eqn:E.
  - exists n. split; [done|].
    apply Dict.get_of_pairs_elem, list_elem_of_fmap in E as (? & ? & ?). by simplify_eq.
  - exfalso. apply Dict.get_None in E. apply E. apply Dict.keys_of_pairs. by rewrite Hk.
Qed.

Section ordered.
Context (g : Graph) (Hdecl : endpoints_declared g) (Hac : acyclic g)
  (Hnd : NoDup (node_ids g)) (upstream : closure_dict) (Hup : closure_ok g upstream)
  (Hall : ∀ x, x ∈ node_ids g → is_Some (Dict.get x upstream)).
Notation "x ≺ y" := (tc (edge g) x y) (at level 70).

Definition placement_ok (st : placement) : Prop :=
  st.(placed) = node_id <$> st.(ordered) ∧ NoDup st.(placed) ∧
  ancestors_first g st.(placed) ∧ ∀ n, n ∈ st.(ordered) → n ∈ nodes g.
(** [st'] places more, and only what [P] allows. *)
Definition places (P : NodeId → Prop) (st st' : placement) : Prop :=
  placement_ok st' ∧ ∃ new, st'.(placed) = st.(placed) ++ new ∧ ∀ x, x ∈ new → P x.

Definition place_ok (fuel : nat) : Prop := ∀ name trl st,
  position g name trl → length (node_ids g) ≤ fuel + length trl → placement_ok st →
  ∃ st', place fuel (nodes_by_id g) upstream name trl st = Ok st' ∧
    name ∈ st'.(placed) ∧ places (λ x, x = name ∨ x ≺ name) st st'.

Lemma places_trans P st1 st2 st3 : places P st1 st2 → places P st2 st3 → places P st1 st3.
Proof.
  intros (_ & n1 & H1 & HP1) (Hok & n2 & H2 & HP2). split; [done|]. exists (n1 ++ n2).
  rewrite H2, H1, <-app_assoc. split; [done|]. intros x [?|?]%elem_of_app; auto.
Qed.
Lemma places_sub P st st' x : places P st st' → x ∈ st.(placed) → x ∈ st'.(placed).
Proof. intros (_ & new & -> & _) Hx. set_solver. Qed.

Lemma place_parents_spec fuel parents trl (P : NodeId → Prop) st :
  place_ok fuel →
  (∀ p, p ∈ parents → position g p trl ∧ P p ∧ ∀ x, x ≺ p → P x) →
  length (node_ids g) ≤ fuel + length trl → placement_ok st →
  ∃ st', place_parents (place fuel (nodes_by_id g) upstream) parents trl st = Ok st' ∧
    (∀ p, p ∈ parents → p ∈ st'.(placed)) ∧ places P st st'.
Proof.
  intros Hplace. revert st. induction parents as [|p parents IH]; intros st Hp Hfuel Hst; simpl.
  - exists st. split; [done|]. split; [by intros p ?%elem_of_nil|]. split; [done|].
    exists []. rewrite app_nil_r. split; [done|by intros x ?%elem_of_nil].
  - destruct (Hp p ltac:(left)) as (Hpos & HPp & HPa).
    destruct (Hplace p trl st Hpos Hfuel Hst) as (s1 & H1 & Hin1 & Hok1 & new & Hnew & HP).
    rewrite H1. cbn [mbind result_bind].
    destruct (IH s1) as (s2 & H2 & Hin2 & Hs2); [intros q Hq; apply Hp; by right|done|done|].
    exists s2. split; [done|]. split.
    + intros q [->|Hq]%elem_of_cons; [by eapply places_sub|by apply Hin2].
    + eapply places_trans; [|exact Hs2]. split; [done|]. exists new. split; [done|].
      intros x [->|Hx]%HP; auto.
Qed.

Lemma position_ancestor name trl p : position g name trl → p ≺ name → position g p (trl ++ [name]).
Proof.
  intros Hpos Hp. pose proof (position_fresh g Hac _ _ Hpos) as Hf. destruct Hpos as (Hn & Ht & Hs).
  split_and!; [by eapply ancestor_declared| |].
  - apply NoDup_app. split; [done|]. split; [set_solver|apply NoDup_singleton].
  - intros s [Hin| ->%list_elem_of_singleton]%elem_of_app; [|done].
    destruct (Hs s Hin). split; [by etrans|done].
Qed.

Lemma place_spec fuel : place_ok fuel.
Proof.
  induction fuel as [|fuel IH]; intros name trl st Hpos Hfuel Hst.
  { by destruct (position_fuel g Hac _ _ _ Hpos Hfuel). }
  cbn [place]. destruct (decide (name ∈ placed st)) as [Hin|Hin].
  { exists st. split; [done|]. split; [done|]. split; [done|]. exists []. rewrite app_nil_r.
    split; [done|by intros x ?%elem_of_nil]. }
  destruct (nodes_by_id_get g name Hnd) as (node & Hget & Hnode & Hid); [by destruct Hpos|].
  rewrite Hget. rewrite decide_False by by eapply position_fresh.
  destruct (Hall name) as [up Hname]; [by destruct Hpos|].
  destruct (Hup name up Hname) as (_ & Helem & _).
  assert (Dict.get_or name [] upstream = up) as -> by (unfold Dict.get_or; by rewrite Hname).
  destruct (place_parents_spec fuel up (trl ++ [name]) (λ x, x ≺ name) st IH)
    as (s1 & H1 & Hin1 & Hok1 & new & Hnew & HP).
  - intros p Hp%Helem. split; [by apply position_ancestor|]. split; [done|].
    intros x Hx. by etrans.
  - rewrite length_app. simpl. lia.
  - done.
  - rewrite H1. cbn [mbind result_bind]. eexists. split; [done|]. simpl.
    destruct Hok1 as (Hplaced & Hnd1 & Haf & Hnodes). split; [set_solver|]. split.
    + split_and!; simpl.
      * by rewrite fmap_app, Hplaced, <-Hid.
      * apply NoDup_app. split; [done|]. split; [|apply NoDup_singleton].
        intros x Hx ->%list_elem_of_singleton. rewrite Hnew in Hx.
        apply elem_of_app in Hx as [?|Hx%HP]; [done|]. by apply (Hac name).
      * apply ancestors_first_snoc; [done|]. intros y Hy. by apply Hin1, Helem.
      * intros n [Hn| ->%list_elem_of_singleton]%elem_of_app; auto.
    + exists (new ++ [name]). rewrite Hnew, <-app_assoc. split; [done|].
      intros x [Hx%HP|Hx%list_elem_of_singleton]%elem_of_app; auto.
Qed.

(** The order is a permutation of the nodes in which every ancestor of a node
    comes before it. *)
Lemma ordered_nodes_spec :
  ∃ l, _ordered_nodes g upstream = Ok l ∧ l ≡ₚ nodes g ∧
       ancestors_first g (node_id <$> l).
Proof.
  unfold _ordered_nodes. rewrite decide_False by (by rewrite nodes_by_id_length; intros []).
  destruct (place_parents_spec (S (length (node_ids g))) (node_ids g) [] (λ x, x ∈ node_ids g)
    (mkPlacement [] []) (place_spec _)) as (st & Hst & Hin & (Hp & HndP & Haf & Hsub) & _).
  - intros p Hp. split; [|split; [done|]].
    + split_and!; [done|constructor|by intros s ?%elem_of_nil].
    + intros x Hx. by eapply ancestor_declared.
  - simpl. lia.
  - split_and!; simpl; try done; try constructor. by intros n ?%elem_of_nil.
  - rewrite Hst. cbn [mbind result_bind]. eexists. split; [done|]. split; [|by rewrite <-Hp].
    assert (NoDup (nodes g)) as Hndn by by eapply NoDup_fmap_1.
    assert (NoDup (ordered st)) as Hndo by (rewrite Hp in HndP; by eapply NoDup_fmap_1).
    apply NoDup_Permutation; [done..|]. intros n. split; [apply Hsub|]. intros Hn.
    assert (node_id n ∈ placed st) as Hpn by (apply Hin; by apply list_elem_of_fmap_2).
    rewrite Hp in Hpn. apply list_elem_of_fmap in Hpn as (n' & Hid & Hn').
    enough (n = n') by (by subst). apply list_elem_of_lookup in Hn as [i Hi].
    apply Hsub, list_elem_of_lookup in Hn' as [j Hj].
    assert (i = j) as ->; [|by simplify_eq]. eapply (NoDup_lookup (node_ids g)); [done|..].
    + unfold node_ids. by rewrite list_lookup_fmap, Hi.
    + unfold node_ids. rewrite list_lookup_fmap, Hj. simpl. by rewrite <-Hid.
Qed.
End ordered.

(** Duplicate node ids are refused, whatever the connections. *)
Lemma ordered_nodes_duplicate g upstream :
  ¬ NoDup (node_ids g) → _ordered_nodes g upstream = Raise DuplicateNodeIds.
Proof.
  intros Hnd. unfold _ordered_nodes. rewrite decide_True; [done|].
  by rewrite nodes_by_id_length.
Qed.

(** ** Explicit port maps, in connection order then by destination port *)
Record MapEntry := mkMapEntry {
  connection_index : nat;
  destination_node : NodeId;
  destination_port : string;
  selector : string;
}.
Definition _explicit_maps (g : Graph) : list MapEntry :=
  indexed (connections g) ≫= λ ic,
    (λ ps, mkMapEntry ic.1 ic.2.(dst) ps.1 ps.2)
      <$> py_sorted (pair_leb String.leb String.leb) ic.2.(map_).

(** ** The level's order *)

(** C35: The iterative depth-first search of _reject_cycles decides acyclicity within its fuel:
    it finds no back edge exactly when the level's connections are acyclic, and each back edge
    it reports is a real cycle of connections. *)
Theorem reject_cycles_exact g :
  endpoints_declared g →
  ∃ found, find_back_edges g = Some found ∧ (found = [] ↔ acyclic g) ∧
    ∀ b, b ∈ found → is_cycle g b.(be_cycle) ∧
      ∃ c, connections g !! b.(be_index) = Some c ∧ c.(src) = b.(be_source) ∧
           c.(dst) = b.(be_target).
Proof.
  intros Hd. destruct (find_back_edges_spec g Hd) as (found & Hf & Hiff & Hall).
  exists found. split; [done|]. split; [done|]. rewrite Forall_forall in Hall. exact Hall.
Qed.
Definition sample_nodes (ids : list NodeId) : list GraphNode :=
  (λ i, mkNode i (BRef (mkRef "c" None [] None))) <$> ids.
Lemma reject_cycles_exact_witness :
  let g := mkGraph "g" (sample_nodes ["a"; "b"; "c"])
    [mkConnection "a" "b" []; mkConnection "b" "c" []; mkConnection "c" "a" []] [] [] in
  ∃ b, find_back_edges g = Some [b] ∧ is_cycle g b.(be_cycle).
Proof.
  intros g. destruct (reject_cycles_exact g) as (found & Hf & _ & Hall).
  - apply undeclared_endpoints_nil. reflexivity.
  - vm_compute in Hf. injection Hf as <-. eexists. split; [reflexivity|].
    apply (Hall _ (list_elem_of_here _ _)).
Defined.

(** On an acyclic level with declared endpoints and unique ids, _upstream_closure and
    _ordered_nodes return: the closure of a node lists exactly its ancestors, and the order
    lists every node once, each after all its ancestors. *)
Theorem level_order_topological g :
  endpoints_declared g → acyclic g → NoDup (node_ids g) →
  ∃ upstream order, _upstream_closure g = Ok upstream ∧ _ordered_nodes g upstream = Ok order ∧
    order ≡ₚ nodes g ∧
    (∀ x, x ∈ node_ids g → ∃ l, Dict.get x upstream = Some l ∧ NoDup l ∧
       ∀ y, y ∈ l ↔ tc (edge g) y x) ∧
    ∀ i n, order !! i = Some n → ∀ y, tc (edge g) y (node_id n) → y ∈ node_id <$> take i order.
Proof.
  intros Hd Hac Hnd. destruct (upstream_closure_spec g Hd Hac) as (up & Hup & Hok & Hall).
  destruct (ordered_nodes_spec g Hd Hac Hnd up Hok Hall) as (order & Ho & Hp & Haf).
  exists up, order. split_and!; [done..| |].
  - intros x Hx. destruct (Hall x Hx) as [l Hl]. exists l. destruct (Hok x l Hl) as (? & ? & _).
    by split_and!.
  - intros i n Hn y Hy. rewrite fmap_take. eapply Haf; [|exact Hy].
    by rewrite list_lookup_fmap, Hn.
Qed.
Lemma level_order_topological_witness :
  let g := mkGraph "g" (sample_nodes ["sink"; "mid"; "root"])
    [mkConnection "root" "sink" []; mkConnection "root" "mid" []; mkConnection "mid" "sink" []] [] [] in
  ∃ upstream order, _upstream_closure g = Ok upstream ∧ _ordered_nodes g upstream = Ok order ∧
    node_id <$> order = ["root"; "mid"; "sink"].
Proof.
  intros g. assert (endpoints_declared g) as Hd by (apply undeclared_endpoints_nil; reflexivity).
  assert (acyclic g) as Hac.
  { destruct (find_back_edges_spec g Hd) as (found & Hf & Hiff & _).
    vm_compute in Hf. injection Hf as <-. by apply Hiff. }
  destruct (level_order_topological g Hd Hac) as (up & order & Hup & Ho & _).
  - exact (bool_decide_unpack (NoDup (node_ids g)) I).
  - exists up, order. split; [done|]. split; [done|].
    vm_compute in Hup. injection Hup as <-. vm_compute in Ho. injection Ho as <-. reflexivity.
Defined.
