(* ===== verification/Binding.v ===== *)
(** Magnetic port binding and grant narrowing
    ([src/constructicon/runtime/validator.py]: [_Compilation], [_bind_port],
    [_bind_node_inputs], [_resolve_selector], [_applicable_selectors],
    [_compile_grants] and the fault helpers).

    A fault is one constructor per message the source writes, carrying the
    values the message interpolates. *)

From S2P Require Import Prelude Identity Address Graph Component Capability Manifest Topology.
From Stdlib Require Import Ascii.

(** ** Sources

    [_applicable_selectors] compares [_Source] objects by identity, so each
    carries the number of the allocation that made it. *)
Record Source := mkSource { source_obj : nat; address : PortAddress; source_port : Port }.
#[export] Instance Source_eq_dec : EqDecision Source.
Proof. solve_decision. Defined.
Definition source_dict : Type := list (string * list Source).
Definition node_dict : Type := list (NodeId * source_dict).

(** ** Locations *)
Inductive path_part := Key (s : string) | Index (n : nat).
#[export] Instance path_part_eq_dec : EqDecision path_part.
Proof. solve_decision. Defined.
Record GraphLocation := mkLocation {
  loc_path : list path_part; retained : option (string * string) }.
Definition loc_child (l : GraphLocation) (parts : list path_part) : GraphLocation :=
  mkLocation (l.(loc_path) ++ parts) l.(retained).

(** A map entry of one level; Python stores the level's location beside it. *)
Record LocatedEntry := mkEntry { entry : MapEntry; entry_location : GraphLocation }.

(** ** Faults *)
Inductive ambiguity := ExactNameNotUnique (count : nat) | SeveralCandidates (described : list string).
Inductive located_defect :=
| UnknownConnectionNode (u : undeclared)
| GraphCycle (b : back_edge)
| UnusedMapDestination (e : MapEntry)
| DuplicateMapDestination (conflict first : MapEntry) (selectors : list string) (card : cardinality)
| MissingFeedbackSeed (node : NodeId) (port : string)
| MissingPortSource (where_ : string) (port : Port) (available : list string) (node : option NodeId)
| AmbiguousNodeInput (where_ : string) (e : MapEntry) (port : Port) (why : ambiguity) (candidates : list string)
| AmbiguousUnmappable (where_ : string) (port : Port) (why : ambiguity) (candidates : list string)
    (node : option NodeId)
| MalformedSelector (e : MapEntry)
| ExplicitSourceCount (e : MapEntry) (count : nat)
| ExplicitSourceCardinality (e : MapEntry) (card : cardinality)
| ExplicitSourceContract (e : MapEntry) (source destination : Port).

Inductive fault :=
| FLocated (loc : GraphLocation) (scope : ScopePath) (d : located_defect)
| FInputsMissing (missing declared : list string)
| FInputsExtra (extra declared : list string)
| FDuplicatePorts (where_ : string) (duplicates : list string)
| FPinUnused (scope : list string) (pin : ResolutionPin)
| FNestedLoop (scope : ScopePath)
| FFeedbackDestination (scope : ScopePath) (name : string) (available : list string)
| FFeedbackSource (scope : ScopePath) (name : string) (available : list string)
| FFeedbackCardinality (scope : ScopePath) (input output : string)
| FFeedbackContract (scope : ScopePath) (input output : string) (ip op : Port)
| FContinueMissing (scope : ScopePath) (name : string) (available : list string)
| FContinueContract (scope : ScopePath) (name : string)
| FLoopNoAtomic (scope : ScopePath)
| FFeedbackSourceCount (scope : ScopePath) (name : string) (count : nat)
| FContinueSourceCount (scope : ScopePath) (name : string)
| FBoundaryLies (scope : ScopePath) (schemas : list schema_fault) (boundary : bool)
    (component version : string)
| FLockNoPin (scope : ScopePath) (component : string)
| FLockComponent (scope : ScopePath) (expected resolved : string)
| FLockUnavailable (scope : ScopePath) (pin : ResolutionPin)
| FUnknownComponent (scope : ScopePath) (component : string) (registered : list string)
| FNoStable (scope : ScopePath) (component : string) (registered : list string)
| FStableDamage (scope : ScopePath) (component : string) (stable : Digest)
| FNoVersion (scope : ScopePath) (component version : string) (registered : list string)
| FChannelIncoherent (scope : ScopePath) (alias capability : string) (why : channel_incoherence_fault)
| FChannelNoEndpoint (scope : ScopePath) (alias capability : string)
| FChannelArity (scope : ScopePath) (alias capability component : string) (inputs outputs : nat)
| FChannelExchange (scope : ScopePath) (alias capability : string) (why : exchange_fault)
| FUnknownCapability (scope : ScopePath) (alias capability : string) (catalog : list string)
| FExecutorUnavailable (scope : ScopePath) (alias capability : string) (why : unavailability)
| FExecutorGrants (scope : ScopePath) (alias capability : string) (why : grant_fault)
| FPostureNotOffered (scope : ScopePath) (capability : string) (p : Posture)
| FPostureNotEnforced (scope : ScopePath) (capability : string) (p : Posture)
| FRequiresWrite (scope : ScopePath) (capability : string) (p : Posture)
| FGrantPosture (scope : ScopePath)
| FGrantTools (scope : ScopePath) (widened : list string)
| FGrantEnv (scope : ScopePath) (widened : list string)
| FGrantNetwork (scope : ScopePath)
| FGrantTimeout (scope : ScopePath) (requested parent : positive).

(** ** The compilation *)

(** What one admission is given and never changes. *)
Record comp_env := mkEnv {
  snapshot : RegistrySnapshot;
  catalog : gmap string CapabilityDescriptor;
  capabilities : gmap string LiveCapability;
  env_graph_hash : Digest;
  resolution_lock : option lock_index;
}.
(** What it accumulates. *)
Record comp_state := mkComp {
  faults : list fault;
  resolutions : list ComponentResolution;
  bindings : list ResolvedPortBinding;
  cap_bindings : list CapabilityBinding;
  loops : list LoopResolution;
  atomic_scopes : list ScopePath;
  consumed_pins : list (list string);
  allocated : nat;
}.
Definition empty_comp : comp_state := mkComp [] [] [] [] [] [] [] O.

Inductive admission_exn :=
| AdmissionError (faults : list fault)
| AdmissionErrorTopology (graph : string) (e : topo_error)
| InputsNotAnObject
| PyValueError (e : value_error)
| PyKeyError (key : string)
| FuelExhausted.

Definition M := eff comp_state admission_exn.

Definition add_fault (f : fault) : M unit := modify (λ c,
  mkComp (c.(faults) ++ [f]) c.(resolutions) c.(bindings) c.(cap_bindings) c.(loops)
    c.(atomic_scopes) c.(consumed_pins) c.(allocated)).
Definition add_resolution (r : ComponentResolution) : M unit := modify (λ c,
  mkComp c.(faults) (c.(resolutions) ++ [r]) c.(bindings) c.(cap_bindings) c.(loops)
    c.(atomic_scopes) c.(consumed_pins) c.(allocated)).
Definition add_binding (b : ResolvedPortBinding) : M unit := modify (λ c,
  mkComp c.(faults) c.(resolutions) (c.(bindings) ++ [b]) c.(cap_bindings) c.(loops)
    c.(atomic_scopes) c.(consumed_pins) c.(allocated)).
Definition add_cap_binding (b : CapabilityBinding) : M unit := modify (λ c,
  mkComp c.(faults) c.(resolutions) c.(bindings) (c.(cap_bindings) ++ [b]) c.(loops)
    c.(atomic_scopes) c.(consumed_pins) c.(allocated)).
Definition add_loop (l : LoopResolution) : M unit := modify (λ c,
  mkComp c.(faults) c.(resolutions) c.(bindings) c.(cap_bindings) (c.(loops) ++ [l])
    c.(atomic_scopes) c.(consumed_pins) c.(allocated)).
Definition add_atomic_scope (s : ScopePath) : M unit := modify (λ c,
  mkComp c.(faults) c.(resolutions) c.(bindings) c.(cap_bindings) c.(loops)
    (c.(atomic_scopes) ++ [s]) c.(consumed_pins) c.(allocated)).
(** [consumed_pins] is a set. *)
Definition consume_pin (s : list string) : M unit := modify (λ c,
  mkComp c.(faults) c.(resolutions) c.(bindings) c.(cap_bindings) c.(loops)
    c.(atomic_scopes) (if decide (s ∈ c.(consumed_pins)) then c.(consumed_pins)
                       else c.(consumed_pins) ++ [s]) c.(allocated)).
(** [_Source(address=..., port=...)] *)
Definition new_source (a : PortAddress) (p : Port) : M Source := λ c,
  (Ok (mkSource c.(allocated) a p),
   mkComp c.(faults) c.(resolutions) c.(bindings) c.(cap_bindings) c.(loops)
     c.(atomic_scopes) c.(consumed_pins) (S c.(allocated))).

Definition _located_fault (loc : GraphLocation) (scope : ScopePath) (d : located_defect) : M unit :=
  add_fault (FLocated loc scope d).
(** [_map_fault]: located at the entry's own map key. *)
Definition _map_fault (e : LocatedEntry) (scope : ScopePath) (d : located_defect) : M unit :=
  _located_fault
    (loc_child e.(entry_location)
       [Key "connections"; Index e.(entry).(connection_index); Key "map";
        Key e.(entry).(destination_port)])
    scope d.

(** ** Contracts *)
Definition _ports_same_contract (left right : Port) : bool :=
  bool_decide (left.(type_id) = right.(type_id))
  && bool_decide (left.(schema_hash) = right.(schema_hash)).
Definition _source_matches (s : Source) (p : Port) : bool :=
  _ports_same_contract s.(source_port) p.

Definition _available_contracts (pool : list Source) : list string :=
  sorted_set ((λ s, s.(source_port).(type_id) +:+ "@" +:+ s.(source_port).(schema_hash)) <$> pool).
Definition _describe (s : Source) : string :=
  match s.(address) with
  | NodePortAddress sc n p => render_scope sc +:+ "/" +:+ n +:+ "." +:+ p
  | GraphInputAddress sc p => render_scope sc +:+ "/$input." +:+ p
  | GraphOutputAddress sc p => render_scope sc +:+ "/$output." +:+ p
  end.

(** [{port.name: ...}] with the names that repeat. *)
Fixpoint duplicate_names (seen : list string) (names : list string) : list string :=
  match names with
  | [] => []
  | n :: names =>
      (if decide (n ∈ seen) then [n] else []) ++ duplicate_names (n :: seen) names
  end.
Definition _validate_unique_ports (ports : list Port) (where_ : string) : M unit :=
  match sorted_set (duplicate_names [] (port_name <$> ports)) with
  | [] => eret tt
  | duplicates => add_fault (FDuplicatePorts where_ duplicates)
  end.

(** ** Selectors *)

(** [selector.partition(".")], without the separator *)
Fixpoint partition_chars (l : list ascii) : list ascii * list ascii :=
  match l with
  | [] => ([], [])
  | c :: l =>
      if decide (c = "."%char) then ([], l)
      else let '(a, b) := partition_chars l in (c :: a, b)
  end.
Definition partition_dot (s : string) : string * string :=
  let '(a, b) := partition_chars (String.list_ascii_of_string s) in
  (String.string_of_list_ascii a, String.string_of_list_ascii b).
Definition has_dot (s : string) : bool :=
  bool_decide ("."%char ∈ String.list_ascii_of_string s).

Definition _resolve_selector (e : LocatedEntry) (port : Port) (node_lookup : node_dict)
    (input_sources : source_dict) (scope : ScopePath) : M (option Source) :=
  let '(node_name, port_name) := partition_dot e.(entry).(selector) in
  if decide (port_name = "") then
    _map_fault e scope (MalformedSelector e.(entry));;; eret None
  else
    let sources :=
      if decide (node_name = "$input") then Dict.get_or port_name [] input_sources
      else Dict.get_or port_name [] (Dict.get_or node_name [] node_lookup) in
    match sources with
    | [source] =>
        if decide (source.(source_port).(port_cardinality) ≠ CardOne) then
          _map_fault e scope
            (ExplicitSourceCardinality e.(entry) source.(source_port).(port_cardinality));;;
          eret None
        else if negb (_source_matches source port) then
          _map_fault e scope (ExplicitSourceContract e.(entry) source.(source_port) port);;;
          eret None
        else eret (Some source)
    | _ => _map_fault e scope (ExplicitSourceCount e.(entry) (length sources));;; eret None
    end.

(** One candidate of [_applicable_selectors], by object identity. *)
Definition applicable (port : Port) (sources : list Source) (name : string)
    (resolved : list Source) (label : string) : list string :=
  if decide (name = "") then [] else
  match resolved with
  | [source] =>
      if existsb (λ c, source.(source_obj) =? c.(source_obj)) sources
         && bool_decide (source.(source_port).(port_cardinality) = CardOne)
         && _source_matches source port
      then [label] else []
  | _ => []
  end.
Definition _applicable_selectors (port : Port) (sources : list Source)
    (scopes : option (node_dict * source_dict)) : list string :=
  match scopes with
  | None => []
  | Some (node_lookup, input_sources) =>
      py_sorted String.leb
        ((sorted_by String.leb fst node_lookup ≫= λ no : NodeId * source_dict,
            if decide (no.1 = "$input" ∨ has_dot no.1 = true) then [] else
            sorted_by String.leb fst no.2 ≫= λ os : string * list Source,
              applicable port sources os.1 os.2 (no.1 +:+ "." +:+ os.1))
         ++ (sorted_by String.leb fst input_sources ≫= λ os : string * list Source,
              applicable port sources os.1 os.2 ("$input." +:+ os.1)))
  end.

(** ** Magnetic binding *)

(** Where an ambiguity at a node input would be repaired: [_bind_port]'s
    optional keyword arguments, all given or all absent at its two call sites. *)
Record node_context := mkNodeContext {
  ctx_node : NodeId;
  ctx_level_location : GraphLocation;
  ctx_incoming : option nat;
  ctx_node_lookup : node_dict;
  ctx_input_sources : source_dict;
}.
Definition _ambiguous_port_fault (where_ : string) (port : Port) (sources : list Source)
    (why : ambiguity) (location : GraphLocation) (scope : ScopePath) (ctx : option node_context) : M unit :=
  let candidates := _applicable_selectors port sources
    ((λ c, (c.(ctx_node_lookup), c.(ctx_input_sources))) <$> ctx) in
  match ctx with
  | None => _located_fault location scope (AmbiguousUnmappable where_ port why candidates None)
  | Some c =>
      match c.(ctx_incoming), candidates with
      | Some index, first :: _ =>
          let e := mkMapEntry index c.(ctx_node) port.(port_name) first in
          _map_fault (mkEntry e c.(ctx_level_location)) scope
            (AmbiguousNodeInput where_ e port why candidates)
      | _, _ =>
          _located_fault location scope
            (AmbiguousUnmappable where_ port why candidates (Some c.(ctx_node)))
      end
  end.

Definition _bind_port (port : Port) (pool : list Source) (where_ : string)
    (location : GraphLocation) (scope : ScopePath) (ctx : option node_context) : M (option (list Source)) :=
  let typed := filter (λ s, _source_matches s port = true) pool in
  let missing :=
    _located_fault location scope
      (MissingPortSource where_ port (_available_contracts pool) (ctx_node <$> ctx));;; eret None in
  match port.(port_cardinality) with
  | CardMany => match typed with [] => missing | _ => eret (Some typed) end
  | _ =>
      let named := filter (λ s, s.(source_port).(port_name) = port.(port_name)) typed in
      match named with
      | [_] => eret (Some named)
      | _ :: _ :: _ =>
          _ambiguous_port_fault where_ port named (ExactNameNotUnique (length named)) location scope ctx;;;
          eret None
      | [] =>
          match typed with
          | [_] => eret (Some typed)
          | _ :: _ :: _ =>
              _ambiguous_port_fault where_ port typed
                (SeveralCandidates (py_sorted String.leb (_describe <$> typed))) location scope ctx;;;
              eret None
          | [] => if decide (port.(port_cardinality) = CardOptional) then eret None else missing
          end
      end
  end.

(** ** Node inputs *)
Definition port_entries : Type := list (string * list (string * LocatedEntry)).
(** [by_port.setdefault(port, {}).setdefault(selector, entry)] *)
Definition collect_entry (declared : list string) (scope : ScopePath) (by_port : port_entries)
    (e : LocatedEntry) : M port_entries :=
  let port := e.(entry).(destination_port) in
  if decide (port ∉ declared) then
    _map_fault e scope (UnusedMapDestination e.(entry));;; eret by_port
  else eret (Dict.set port
               (Dict.setdefault e.(entry).(selector) e (Dict.get_or port [] by_port)) by_port).

Definition bind_one_input (node : GraphNode) (scope : ScopePath) (where_ : string) (pool : list Source)
    (location : GraphLocation) (feedback : list string) (ctx : node_context)
    (by_port : port_entries) (bound : source_dict) (port : Port) : M source_dict :=
  match Dict.values (Dict.get_or port.(port_name) [] by_port) with
  | [] =>
      if decide (port.(port_name) ∈ feedback
                 ∧ existsb (λ s, _source_matches s port) pool = false) then
        _located_fault location scope (MissingFeedbackSeed (node_id node) port.(port_name));;;
        eret bound
      else
        let* sources := _bind_port port pool where_ location scope (Some ctx) in
        eret (match sources with
              | Some sources => Dict.set port.(port_name) sources bound
              | None => bound
              end)
  | (first :: rest) as entries =>
      match rest, decide (port.(port_cardinality) = CardMany) with
      | conflict :: _, right _ =>
          _map_fault conflict scope
            (DuplicateMapDestination conflict.(entry) first.(entry)
               ((λ e, e.(entry).(selector)) <$> entries) port.(port_cardinality));;;
          eret bound
      | _, _ =>
          let* selected := emap (λ e,
            _resolve_selector e port ctx.(ctx_node_lookup) ctx.(ctx_input_sources) scope) entries in
          eret (match mapM id selected with
                | Some sources => Dict.set port.(port_name) sources bound
                | None => bound
                end)
      end
  end.

Definition _bind_node_inputs (node : GraphNode) (inputs : list Port) (level_scope : ScopePath)
    (pool : list Source) (explicit : list LocatedEntry) (location : GraphLocation)
    (feedback : list string) (boundary : bool) (ctx : node_context) : M source_dict :=
  let scope := child level_scope (node_id node) in
  let where_ := render_scope scope +:+ " " +:+ (if boundary then "boundary" else "input") in
  let* by_port := efold (collect_entry (port_name <$> inputs) scope) [] explicit in
  efold (bind_one_input node scope where_ pool location feedback ctx by_port) [] inputs.

(** ** Grants *)

(** [if condition: comp.faults.append(f)] *)
Definition fault_if (P : Prop) `{Decision P} (f : fault) : M unit :=
  if decide P then add_fault f else eret tt.

Definition _compile_grants (parent : EffectiveGrants) (request : option GrantRequest)
    (where_ : ScopePath) : M EffectiveGrants :=
  match request with
  | None => eret parent
  | Some request =>
      let* before := get in
      let faults_before := length before.(faults) in
      let post := from_option id parent.(posture) request.(gr_posture) in
      fault_if (post = WRITE ∧ parent.(posture) = READ) (FGrantPosture where_);;;
      let selection :=
        match request.(gr_model) with
        | Some m => mkSelection Explicit (Some m)
        | None => parent.(model_selection)
        end in
      let tools := from_option id parent.(allowed_tools) request.(gr_allowed_tools) in
      fault_if (request.(gr_allowed_tools) ≠ None ∧ set_minus tools parent.(allowed_tools) ≠ [])
        (FGrantTools where_ (set_minus tools parent.(allowed_tools)));;;
      let env := from_option id parent.(env_allowlist) request.(gr_env_allowlist) in
      fault_if (request.(gr_env_allowlist) ≠ None ∧ set_minus env parent.(env_allowlist) ≠ [])
        (FGrantEnv where_ (set_minus env parent.(env_allowlist)));;;
      fault_if (request.(gr_network) = NetRequest NetAllow ∧ parent.(grant_network) = NetNone)
        (FGrantNetwork where_);;;
      let net :=
        match request.(gr_network) with
        | NetInherit => parent.(grant_network)
        | NetRequest NetAllow =>
            if decide (parent.(grant_network) = NetNone) then parent.(grant_network) else NetAllow
        | NetRequest NetNone => NetNone
        end in
      let timeout := from_option id parent.(timeout_s) request.(gr_timeout_s) in
      fault_if (request.(gr_timeout_s) ≠ None ∧ (parent.(timeout_s) < timeout)%positive)
        (FGrantTimeout where_ timeout parent.(timeout_s));;;
      let* after := get in
      if faults_before <? length after.(faults) then eret parent
      else
        eret (mkGrants post selection
          (match request.(gr_effort) with
           | Some e => if decide (e = "") then parent.(effort) else Some e
           | None => parent.(effort)
           end) tools env net timeout)
  end.

(** ** Magnetic binding never guesses *)

(** The nominal candidates of a port, and those of its own name. *)
Definition candidates (port : Port) (pool : list Source) : list Source :=
  filter (λ s, _source_matches s port = true) pool.
Definition namesakes (port : Port) (pool : list Source) : list Source :=
  filter (λ s, s.(source_port).(port_name) = port.(port_name)) (candidates port pool).

(** What a port may be bound to: every candidate of a gathering port, the one
    namesake, or the one candidate there is. *)
Definition forced (port : Port) (pool l : list Source) : Prop :=
  match port.(port_cardinality) with
  | CardMany => l = candidates port pool ∧ l ≠ []
  | _ => ∃ s, l = [s] ∧
      (namesakes port pool = [s] ∨ (namesakes port pool = [] ∧ candidates port pool = [s]))
  end.

Definition one_fault (c c' : comp_state) : Prop := ∃ f, c'.(faults) = c.(faults) ++ [f].
Lemma ambiguous_one_fault w port srcs why loc sc ctx c :
  ∃ c', _ambiguous_port_fault w port srcs why loc sc ctx c = (Ok tt, c') ∧ one_fault c c'.
Proof.
  unfold _ambiguous_port_fault, _map_fault, _located_fault, add_fault, modify. cbv zeta.
  destruct ctx as [ctx|]; [|eexists; split; [done|by eexists]].
  destruct (ctx_incoming ctx), (_applicable_selectors _ _ _);
    (eexists; split; [done|by eexists]).
Qed.

Lemma bind_port_cases port pool w loc sc ctx c :
  ∃ r c', _bind_port port pool w loc sc ctx c = (Ok r, c') ∧
    match r with
    | Some l => c' = c ∧ forced port pool l
    | None =>
        (∀ l, ¬ forced port pool l) ∧
        (if decide (port.(port_cardinality) = CardOptional ∧ candidates port pool = [])
         then c' = c else one_fault c c')
    end.
Proof.
  unfold _bind_port, forced. cbv zeta. fold (candidates port pool). fold (namesakes port pool).
  assert (∀ srcs why, ∃ c', (_ambiguous_port_fault w port srcs why loc sc ctx;;;
    eret (A:=option (list Source)) None) c = (Ok None, c') ∧ one_fault c c') as Hamb.
  { intros srcs why. destruct (ambiguous_one_fault w port srcs why loc sc ctx c) as (c' & E & H).
    exists c'. unfold ebind. by rewrite E. }
  assert (namesakes port pool ⊆ candidates port pool) as Hsub
    by (intros s [_ Hs]%list_elem_of_filter; exact Hs).
  destruct (port_cardinality port) eqn:Ec.
  3: { destruct (candidates port pool) as [|s l] eqn:Et.
    - eexists None, _. split; [done|]. split; [by intros l [-> ?]|].
      rewrite decide_False by (by intros []). by eexists.
    - eexists (Some _), _. split; [done|]. done. }
  all: destruct (namesakes port pool) as [|n [|n' k]] eqn:En;
    [|eexists (Some _), _; split; [done|]; split; [done|]; exists n; auto|].
  2,4: destruct (Hamb (n :: n' :: k) (ExactNameNotUnique (length (n :: n' :: k)))) as (c' & E & Hf);
    exists None, c'; split; [exact E|]; split; [by intros l (s & -> & [?|[? _]])|];
    rewrite decide_False; [done|]; intros [_ Hnil]; rewrite Hnil in Hsub;
    apply (not_elem_of_nil n), Hsub; left.
  all: destruct (candidates port pool) as [|t [|t' k]] eqn:Et;
    [|eexists (Some _), _; split; [done|]; split; [done|]; exists t; auto
     |edestruct Hamb as (c' & E & Hf); eexists None, c'; split; [exact E|];
      split; [by intros l (s & -> & [?|[_ ?]])|]; by rewrite decide_False by (by intros [])].
  - eexists None, _. split; [done|]. split; [by intros l (s & -> & [?|[_ ?]])|].
    rewrite decide_False by (by intros []). by eexists.
  - eexists None, _. split; [done|]. split; [by intros l (s & -> & [?|[_ ?]])|].
    by rewrite decide_True.
Qed.

(** _bind_port never guesses: for any pool it binds the unique source of the port's
    contract (or the unique namesake among several, or all of them for a many port, or nothing
    for an optional port without candidates), and in every other case it appends exactly one
    fault. *)
Theorem bind_port_never_guesses port pool w loc sc ctx c :
  ∃ r c', _bind_port port pool w loc sc ctx c = (Ok r, c') ∧
    match r with
    | Some l => c' = c ∧ forced port pool l
    | None =>
        (∀ l, ¬ forced port pool l) ∧
        (if decide (port.(port_cardinality) = CardOptional ∧ candidates port pool = [])
         then c' = c else one_fault c c')
    end.
Proof. apply bind_port_cases. Qed.

Lemma forced_perm port pool pool' l :
  pool ≡ₚ pool' → forced port pool l → ∃ l', forced port pool' l' ∧ l ≡ₚ l'.
Proof.
  intros Hp. assert (candidates port pool ≡ₚ candidates port pool') as Hc
    by (unfold candidates; by rewrite Hp).
  assert (namesakes port pool ≡ₚ namesakes port pool') as Hn
    by (unfold namesakes; by rewrite Hc).
  unfold forced. destruct (port_cardinality port).
  3: { intros [-> Hne]. eexists. split; [split; [done|]|done].
    intros Hnil. rewrite Hnil in Hc. by apply Permutation_nil_r in Hc. }
  all: intros (s & -> & [H|[H H']]); exists [s]; (split; [|done]); exists s; (split; [done|]).
  1,3: left; rewrite H in Hn; by apply Permutation_singleton_l in Hn.
  all: right; rewrite H in Hn; rewrite H' in Hc; split;
    [by apply Permutation_nil_l in Hn|by apply Permutation_singleton_l in Hc].
Qed.

(** Binding does not depend on the order of the pool: permuted pools bind a port to the
    same sources up to order, or both fail. *)
Theorem bind_port_order_independent port pool pool' w loc sc ctx c r1 c1 r2 c2 :
  pool ≡ₚ pool' →
  _bind_port port pool w loc sc ctx c = (Ok r1, c1) →
  _bind_port port pool' w loc sc ctx c = (Ok r2, c2) →
  match r1, r2 with
  | Some l, Some l' => l ≡ₚ l'
  | None, None => length c1.(faults) = length c2.(faults)
  | _, _ => False
  end.
Proof.
  intros Hp E1 E2.
  destruct (bind_port_cases port pool w loc sc ctx c) as (? & ? & E1' & H1). rewrite E1 in E1'.
  injection E1' as <- <-.
  destruct (bind_port_cases port pool' w loc sc ctx c) as (? & ? & E2' & H2). rewrite E2 in E2'.
  injection E2' as <- <-. destruct r1 as [l|], r2 as [l'|].
  - destruct H1 as [_ H1], H2 as [_ H2]. destruct (forced_perm _ _ _ _ Hp H1) as (k & Hk & ->).
    revert H2 Hk. unfold forced. destruct (port_cardinality port).
    3: { by intros [-> _] [-> _]. }
    all: intros (s & -> & [?|[? ?]]) (s' & -> & [?|[? ?]]);
      (assert (s = s') as -> by congruence); done.
  - destruct H1 as [_ H1]. destruct (forced_perm _ _ _ _ Hp H1) as (k & Hk & _). by apply (proj1 H2 k).
  - destruct H2 as [_ H2]. symmetry in Hp. destruct (forced_perm _ _ _ _ Hp H2) as (k & Hk & _).
    by apply (proj1 H1 k).
  - destruct H1 as [_ H1], H2 as [_ H2].
    assert (candidates port pool = [] ↔ candidates port pool' = []) as Hiff.
    { assert (candidates port pool ≡ₚ candidates port pool') as Hc by (unfold candidates; by rewrite Hp).
      split; intros Hn; rewrite Hn in Hc; [by apply Permutation_nil_l in Hc|by apply Permutation_nil_r in Hc]. }
    case_decide as D1; case_decide as D2; subst; try done; try (exfalso; tauto).
    destruct H1 as [f Hf], H2 as [f' Hf']. rewrite Hf, Hf', !length_app. done.
Qed.
Lemma bind_port_order_independent_witness :
  let p := mkPort "x" "t" "h" None CardOne in
  let q := mkPort "y" "t" "h" None CardOne in
  let s1 := mkSource 0 (GraphInputAddress (mkScope ["g"]) "x") p in
  let s2 := mkSource 1 (GraphInputAddress (mkScope ["g"]) "y") q in
  let run l := _bind_port p l "w" (mkLocation [] None) (mkScope ["g"]) None empty_comp in
  [s1; s2] ≡ₚ [s2; s1] ∧ (run [s1; s2]).1 = Ok (Some [s1]) ∧ (run [s2; s1]).1 = Ok (Some [s1]) ∧
  [s1] ≡ₚ [s1].
Proof.
  intros p q s1 s2 run. assert ([s1; s2] ≡ₚ [s2; s1]) as Hp by constructor.
  split; [exact Hp|]. split; [reflexivity|]. split; [reflexivity|].
  exact (bind_port_order_independent p [s1; s2] [s2; s1] "w" (mkLocation [] None) (mkScope ["g"]) None
    empty_comp (Some [s1]) empty_comp (Some [s1]) empty_comp Hp eq_refl eq_refl).
Defined.
