(* ===== verification/Admission.v ===== *)
(** Admission ([src/constructicon/runtime/validator.py]): the compiler from an
    authored [Graph] to a sealed [ExecutionManifest].

    [_compile_graph], [_compile_node] and [_compile_loop] call each other; each
    is written over its callees and the knot is tied with fuel. Running out of
    fuel is [FuelExhausted], which Python does not have: a compilation that
    would recurse for ever raises it at every fuel. *)

From S2P Require Import Prelude Identity Address Graph Component Capability Manifest Topology Binding.

(** ** One level's arguments *)

(** The keyword arguments [_compile_graph] passes for one node. *)
Record node_args := mkNodeArgs {
  level_scope : ScopePath;
  pool : list Source;
  explicit : list LocatedEntry;
  node_lookup : node_dict;
  input_sources : source_dict;
  grants : EffectiveGrants;
  loop_depth : nat;
  location : GraphLocation;
  level_location : GraphLocation;
  incoming_connection_index : option nat;
}.
Definition context_of (node : GraphNode) (a : node_args) : node_context :=
  mkNodeContext (node_id node) a.(level_location) a.(incoming_connection_index)
    a.(node_lookup) a.(input_sources).
(** [_bind_node_inputs(comp, node, inputs, ...)] with the arguments of [a]. *)
Definition bind_inputs (node : GraphNode) (inputs : list Port) (a : node_args)
    (feedback : list string) (boundary : bool) : M source_dict :=
  _bind_node_inputs node inputs a.(level_scope) a.(pool) a.(explicit) a.(location)
    feedback boundary (context_of node a).

Definition raise_faults {A} : M A := λ c, (Raise (AdmissionError c.(faults)), c).
Definition lift_topo {A} (g : Graph) (r : result topo_error A) : M A :=
  match r with
  | Ok a => eret a
  | Raise (KeyError k) => raise (PyKeyError k)
  | Raise OutOfFuel => raise FuelExhausted
  | Raise e => raise (AdmissionErrorTopology (graph_name g) e)
  end.

Definition _validate_connection_endpoints (g : Graph) (scope : ScopePath) (loc : GraphLocation) :
    M bool :=
  let missing := undeclared_endpoints g in
  eiter (λ u, _located_fault (loc_child loc [Key "connections"; Index u.(und_index)]) scope
                (UnknownConnectionNode u)) missing;;;
  eret (match missing with [] => true | _ => false end).
Definition _reject_cycles (g : Graph) (scope : ScopePath) (loc : GraphLocation) : M unit :=
  match find_back_edges g with
  | None => raise FuelExhausted
  | Some found =>
      eiter (λ b, _located_fault (loc_child loc [Key "connections"; Index b.(be_index)]) scope
                    (GraphCycle b)) found;;;
      match found with [] => eret tt | _ => raise_faults end
  end.

(** [{port.name: port for port in ports}] *)
Definition by_name (ports : list Port) : list (string * Port) :=
  Dict.of_pairs ((λ p, (p.(port_name), p)) <$> ports).
Definition all_sources (d : source_dict) : list Source := mjoin (Dict.values d).
Definition addresses (l : list Source) : list PortAddress := address <$> l.

(** A call, and the atomic scopes it registered. *)
Definition with_members {A} (m : M A) : M (A * list ScopePath) :=
  let* before := get in
  let atomic_start := length before.(atomic_scopes) in
  let* a := m in
  let* after := get in
  eret (a, drop atomic_start after.(atomic_scopes)).

Section compile.
Context (env : comp_env).

(** ** Resolution *)
Definition registered_versions (name : string) : list string :=
  from_option id [] (env.(snapshot).(order) !! name).
Definition _resolve_ref (ref : Ref) (where_ : ScopePath) : M (option StoredVersion) :=
  let s := env.(snapshot) in
  match select_version s ref where_ env.(resolution_lock) with
  | Raise e => raise (PyValueError e)
  | Ok stored =>
      match env.(resolution_lock) with
      | Some lock =>
          match Dict.get where_.(segments) lock with
          | None => add_fault (FLockNoPin where_ ref.(component));;; eret None
          | Some pin =>
              consume_pin where_.(segments);;;
              if decide (pin.(pin_component) ≠ ref.(component)) then
                add_fault (FLockComponent where_ pin.(pin_component) ref.(component));;; eret None
              else match stored with
                   | None => add_fault (FLockUnavailable where_ pin);;; eret None
                   | Some stored => eret (Some stored)
                   end
          end
      | None =>
          match s.(versions) !! ref.(component) with
          | None =>
              add_fault (FUnknownComponent where_ ref.(component) (names s));;; eret None
          | Some _ =>
              match ref.(version) with
              | None =>
                  let* stable := lift (match stable_version s ref.(component) with
                                       | Ok v => Ok v | Raise e => Raise (PyValueError e) end) in
                  match stable with
                  | None =>
                      add_fault (FNoStable where_ ref.(component)
                                   (registered_versions ref.(component)));;; eret None
                  | Some v =>
                      match stored with
                      | None => add_fault (FStableDamage where_ ref.(component) v);;; eret None
                      | Some stored => eret (Some stored)
                      end
                  end
              | Some v =>
                  match stored with
                  | None =>
                      add_fault (FNoVersion where_ ref.(component) v
                                   (registered_versions ref.(component)));;; eret None
                  | Some stored => eret (Some stored)
                  end
              end
          end
      end
  end.

Definition component_contract (d : ComponentDef) : Digest :=
  digest_of "component-contract" 1
    (JObj [("inputs", JArr (dump <$> d.(def_inputs)));
           ("outputs", JArr (dump <$> d.(def_outputs)))]).
Definition _record_resolution (d : ComponentDef) (stored : StoredVersion) (ref : Ref)
    (scope : ScopePath) : M unit :=
  add_resolution (mkResolution scope d.(def_name) ref.(version) stored.(stored_hash)
    (component_contract d)
    (match d.(body) with CGraph _ => None | CPython p => p.(source_digest) end)).

(** A retained composite is re-proved, not trusted. *)
Definition boundary_differs (d : ComponentDef) (g : Graph) : bool :=
  negb (same_boundary d.(def_inputs) (graph_inputs g))
  || negb (same_boundary d.(def_outputs) (graph_outputs g)).
Definition _boundary_lies (stored : StoredVersion) (where_ : ScopePath) : M bool :=
  let d := stored.(definition) in
  match d.(body) with
  | CPython _ => eret false
  | CGraph g =>
      match embedded_schema_faults d, boundary_differs d g with
      | [], false => eret false
      | schemas, differs =>
          add_fault (FBoundaryLies where_ schemas differs d.(def_name) stored.(stored_hash));;;
          eret true
      end
  end.

(** ** Atomic components *)
Definition _admitted_unavailability (d : CapabilityDescriptor) (capability : string) :
    list unavailability :=
  let provider := env.(capabilities) !! capability in
  let reasons := executor_unavailability d provider in
  let authorized :=
    match provider ≫= authorizes_admission with
    | Some authorizes => authorizes env.(env_graph_hash) capability
    | None => false
    end in
  if bool_decide (reasons ≠ []) && bool_decide (env.(resolution_lock) = None)
     && bool_decide (executor_incoherence d provider = None) && authorized
  then [] else reasons.

Definition _compiled_channel (def : ComponentDef) (scope : ScopePath) (alias : string)
    (d : CapabilityDescriptor) : M (option ChannelBinding) :=
  let id := d.(capability_id) in
  match channel_incoherence d (env.(capabilities) !! id) with
  | Some why => add_fault (FChannelIncoherent scope alias id why);;; eret None
  | None =>
      match d.(channel_profile), d.(cap_endpoint) with
      | None, _ => eret None
      | Some _, None => add_fault (FChannelNoEndpoint scope alias id);;; eret None
      | Some _, Some ep =>
          match def.(def_inputs), def.(def_outputs) with
          | [request], [reply] =>
              let request_contract := mkContract request.(type_id) request.(schema_hash) in
              let reply_contract := mkContract reply.(type_id) reply.(schema_hash) in
              match canonical_exchange_fault request_contract reply_contract ep.(interaction) with
              | Some why => add_fault (FChannelExchange scope alias id why);;; eret None
              | None =>
                  eret (Some (mkChannelBinding ep request.(port_name) request_contract
                                reply.(port_name) reply_contract))
              end
          | ins, outs =>
              add_fault (FChannelArity scope alias id def.(def_name) (length ins) (length outs));;;
              eret None
          end
      end
  end.

Definition executor_faults (d : CapabilityDescriptor) (scope : ScopePath)
    (alias id : string) (g : EffectiveGrants) : M unit :=
  eiter (λ why, add_fault (FExecutorUnavailable scope alias id why))
    (_admitted_unavailability d id);;;
  match d.(executor_prof) with
  | None => eret tt
  | Some p =>
      if complete_policy p then
        eiter (λ why, add_fault (FExecutorGrants scope alias id why)) (grant_faults p g)
      else
        match p with
        | ProfileV3 _ => eret tt
        | ProfileV1 p =>
            if decide (g.(posture) ∉ p.(postures)) then
              add_fault (FPostureNotOffered scope id g.(posture))
            else if negb (satisfies p.(isolation) g.(posture)) then
              add_fault (FPostureNotEnforced scope id g.(posture))
            else eret tt
        end
  end.

Definition bind_capability (def : ComponentDef) (scope : ScopePath) (g : EffectiveGrants)
    (ai : string * string) : M unit :=
  let '(alias, id) := ai in
  match env.(catalog) !! id with
  | None =>
      add_fault (FUnknownCapability scope alias id
                   (py_sorted String.leb (map_to_list env.(catalog)).*1))
  | Some d =>
      executor_faults d scope alias id g;;;
      fault_if (d.(requires_posture) = Some WRITE ∧ g.(posture) ≠ WRITE)
        (FRequiresWrite scope id g.(posture));;;
      let* ch := _compiled_channel def scope alias d in
      add_cap_binding (mkCapabilityBinding scope alias id d.(cap_revision) g ch)
  end.

(** [{port.name: [_Source(NodePortAddress(...), port)] for port in ports}] *)
Definition output_sources (at_ : string → PortAddress) (ports : list Port) : M source_dict :=
  efold (λ d p, let* s := new_source (at_ p.(port_name)) p in
                eret (Dict.set p.(port_name) [s] d)) [] ports.

Definition _register_atomic (node : GraphNode) (def : ComponentDef)
    (instance_scope lscope : ScopePath) (bound : source_dict) (ref : Ref)
    (g : EffectiveGrants) : M source_dict :=
  eiter (λ ps : string * list Source,
    add_binding (mkBinding (NodePortAddress lscope (node_id node) ps.1) (addresses ps.2))) bound;;;
  add_cap_binding (mkCapabilityBinding instance_scope SELF_BINDING SELF_CAPABILITY "0" g None);;;
  eiter (bind_capability def instance_scope g)
    (py_sorted (pair_leb String.leb String.leb) ref.(bind));;;
  add_atomic_scope instance_scope;;;
  output_sources (NodePortAddress lscope (node_id node)) def.(def_outputs).

(** ** The recursive compiler *)
Section recursion.
Context (compile_node : GraphNode → node_args → M source_dict).
Context (compile_graph : Graph → ScopePath → source_dict → EffectiveGrants → nat →
                         GraphLocation → M source_dict).
Context (compile_loop : GraphNode → Loop → node_args → M source_dict).

Definition explicit_by_node (g : Graph) (loc : GraphLocation) :
    list (NodeId * list LocatedEntry) :=
  foldl (λ d e, Dict.append e.(destination_node) (mkEntry e loc) d) [] (_explicit_maps g).
Definition node_indices (g : Graph) : list (NodeId * nat) :=
  Dict.of_pairs ((λ ix : nat * GraphNode, (node_id ix.2, ix.1)) <$> indexed (nodes g)).
Definition incoming_indices (g : Graph) : list (NodeId * nat) :=
  foldl (λ d ic, Dict.setdefault ic.2.(dst) ic.1 d) [] (indexed (connections g)).

(** What a node may bind: its ancestors' outputs, then the level's inputs. *)
Definition node_pool (upstream : closure_dict) (outputs : node_dict) (inputs : source_dict)
    (id : NodeId) : list Source :=
  (Dict.get_or id [] upstream ≫= λ name, all_sources (Dict.get_or name [] outputs))
  ++ all_sources inputs.
Definition compile_one_node (g : Graph) (scope : ScopePath) (inputs : source_dict)
    (gr : EffectiveGrants) (depth : nat) (loc : GraphLocation) (upstream : closure_dict)
    (node_outputs : node_dict) (node : GraphNode) : M node_dict :=
  let id := node_id node in
  let* out := compile_node node
    (mkNodeArgs scope (node_pool upstream node_outputs inputs id)
       (Dict.get_or id [] (explicit_by_node g loc)) node_outputs inputs gr depth
       (loc_child loc [Key "nodes"; Index (Dict.get_or id O (node_indices g)); Key "body"])
       loc (Dict.get id (incoming_indices g))) in
  eret (Dict.set id out node_outputs).
Definition compile_output (scope : ScopePath) (loc : GraphLocation)
    (node_pool input_pool : list Source) (outputs : source_dict) (ip : nat * Port) :
    M source_dict :=
  let '(index, port) := ip in
  let compatible := filter (λ s, _ports_same_contract s.(source_port) port = true) node_pool in
  let pool := match compatible with [] => input_pool | _ => node_pool end in
  let* bound := _bind_port port pool (render_scope scope +:+ " output")
    (loc_child loc [Key "outputs"; Index index]) scope None in
  match bound with
  | None => eret outputs
  | Some bound =>
      let* retagged := emap (λ s, new_source s.(address) port) bound in
      eret (Dict.set port.(port_name) retagged outputs)
  end.

Definition compile_graph_body (g : Graph) (scope : ScopePath) (inputs : source_dict)
    (gr : EffectiveGrants) (depth : nat) (loc : GraphLocation) : M source_dict :=
  let* valid := _validate_connection_endpoints g scope loc in
  if negb valid then raise_faults else
  _reject_cycles g scope loc;;;
  _validate_unique_ports (graph_inputs g) (render_scope scope +:+ " graph inputs");;;
  _validate_unique_ports (graph_outputs g) (render_scope scope +:+ " graph outputs");;;
  let* upstream := lift_topo g (_upstream_closure g) in
  let* order := lift_topo g (_ordered_nodes g upstream) in
  let* node_outputs :=
    efold (compile_one_node g scope inputs gr depth loc upstream) [] order in
  let node_pool := Dict.values node_outputs ≫= all_sources in
  efold (compile_output scope loc node_pool (all_sources inputs)) []
    (indexed (graph_outputs g)).

Definition retag (declared : list (string * Port)) (d : source_dict) : M source_dict :=
  emap (λ ns : string * list Source,
    match Dict.get ns.1 declared with
    | None => raise (PyKeyError ns.1)
    | Some p => let* l := emap (λ s, new_source s.(address) p) ns.2 in eret (ns.1, l)
    end) d.

Definition compile_ref (node : GraphNode) (ref : Ref) (a : node_args) : M source_dict :=
  let instance_scope := child a.(level_scope) (node_id node) in
  let* stored := _resolve_ref ref instance_scope in
  match stored with
  | None => eret []
  | Some stored =>
      let def := stored.(definition) in
      let* node_grants := _compile_grants a.(grants) ref.(ref_grants) instance_scope in
      _record_resolution def stored ref instance_scope;;;
      let* bound := bind_inputs node def.(def_inputs) a [] false in
      match def.(body) with
      | CGraph g =>
          let* lies := _boundary_lies stored instance_scope in
          if lies : bool then eret [] else
          let* retagged := retag (by_name def.(def_inputs)) bound in
          compile_graph g instance_scope retagged node_grants a.(loop_depth)
            (mkLocation [Key "body"] (Some (def.(def_name), stored.(stored_hash))))
      | CPython _ =>
          _register_atomic node def instance_scope a.(level_scope) bound ref node_grants
      end
  end.
Definition compile_node_body (node : GraphNode) (a : node_args) : M source_dict :=
  let instance_scope := child a.(level_scope) (node_id node) in
  match node_body_of node with
  | BLoop loop =>
      if decide (a.(loop_depth) ≠ O) then add_fault (FNestedLoop instance_scope);;; eret []
      else compile_loop node loop a
  | BRef ref => compile_ref node ref a
  | BGraph g =>
      let* bound := bind_inputs node (graph_inputs g) a [] false in
      compile_graph g instance_scope bound a.(grants) a.(loop_depth) a.(location)
  end.

(** *** Loops *)
Definition check_feedback (scope : ScopePath) (ins outs : list (string * Port))
    (io : string * string) : M unit :=
  let '(input_name, output_name) := io in
  let input := Dict.get input_name ins in
  let output := Dict.get output_name outs in
  fault_if (input = None)
    (FFeedbackDestination scope input_name (py_sorted String.leb (Dict.keys ins)));;;
  fault_if (output = None)
    (FFeedbackSource scope output_name (py_sorted String.leb (Dict.keys outs)));;;
  match input, output with
  | Some ip, Some op =>
      fault_if (ip.(port_cardinality) ≠ CardOne ∨ op.(port_cardinality) ≠ CardOne)
        (FFeedbackCardinality scope input_name output_name);;;
      fault_if (_ports_same_contract ip op = false)
        (FFeedbackContract scope input_name output_name ip op)
  | _, _ => eret tt
  end.
Definition check_continue (scope : ScopePath) (outs : list (string * Port)) (name : string) :
    M unit :=
  match Dict.get name outs with
  | None => add_fault (FContinueMissing scope name (py_sorted String.leb (Dict.keys outs)))
  | Some p =>
      fault_if (p.(type_id) ≠ CONTINUE_TYPE ∨ p.(schema_hash) ≠ CONTINUE_SCHEMA_HASH
                ∨ p.(port_cardinality) ≠ CardOne)
        (FContinueContract scope name)
  end.
(** The initial bindings and the body's boundary sources. *)
Definition loop_boundary (bscope : ScopePath) (bound : source_dict)
    (acc : list ResolvedPortBinding * source_dict) (p : Port) :
    M (list ResolvedPortBinding * source_dict) :=
  match Dict.get p.(port_name) bound with
  | None => eret acc
  | Some selected =>
      let destination := GraphInputAddress bscope p.(port_name) in
      let* s := new_source destination p in
      eret (acc.1 ++ [mkBinding destination (addresses selected)],
            Dict.set p.(port_name) [s] acc.2)
  end.
Definition loop_feedback (lscope bscope : ScopePath) (ins outs : list (string * Port))
    (body_outputs : source_dict) (acc : list ResolvedPortBinding) (io : string * string) :
    M (list ResolvedPortBinding) :=
  let '(input_name, output_name) := io in
  if negb (Dict.mem input_name ins && Dict.mem output_name outs) then eret acc else
  match Dict.get_or output_name [] body_outputs with
  | [] => eret acc
  | [s] => eret (acc ++ [mkBinding (GraphInputAddress bscope input_name) [s.(address)]])
  | l => add_fault (FFeedbackSourceCount lscope output_name (length l));;; eret acc
  end.
Definition loop_export (level_scope : ScopePath) (node : NodeId) (continue_from : string)
    (body_outputs : source_dict) (acc : list LoopExport * source_dict) (p : Port) :
    M (list LoopExport * source_dict) :=
  if decide (p.(port_name) = continue_from) then eret acc else
  match Dict.get_or p.(port_name) [] body_outputs with
  | [] => eret acc
  | l =>
      let destination := NodePortAddress level_scope node p.(port_name) in
      let* s := new_source destination p in
      eret (acc.1 ++ [mkExport p destination (addresses l)],
            Dict.set p.(port_name) [s] acc.2)
  end.

(** The body's declared boundary; [None] when its Ref cannot be compiled. *)
Definition loop_ports (b : loop_body) (bscope : ScopePath) :
    M (option (list Port * list Port)) :=
  match b with
  | LGraph g => eret (Some (graph_inputs g, graph_outputs g))
  | LRef r =>
      let* stored := _resolve_ref r (child bscope "$body") in
      match stored with
      | None => eret None
      | Some stored =>
          let* lies := _boundary_lies stored (child bscope "$body") in
          eret (if lies : bool then None
                else Some (stored.(definition).(def_inputs), stored.(definition).(def_outputs)))
      end
  end.
Definition compile_loop_members (l : Loop) (bscope : ScopePath) (boundary : source_dict)
    (a : node_args) : M source_dict :=
  match lp_body l with
  | LRef r =>
      compile_node (mkNode "$body" (BRef r))
        (mkNodeArgs bscope (all_sources boundary) [] [] boundary a.(grants) 1
           (loc_child a.(location) [Key "body"]) a.(location) None)
  | LGraph g =>
      compile_graph g bscope boundary a.(grants) 1 (loc_child a.(location) [Key "body"])
  end.

Definition compile_loop_body (node : GraphNode) (l : Loop) (a : node_args) : M source_dict :=
  let lscope := child a.(level_scope) (node_id node) in
  let bscope := child lscope LOOP_BODY_SEGMENT in
  let* declared := loop_ports (lp_body l) bscope in
  match declared with
  | None => eret []
  | Some (body_inputs, body_outputs_declared) =>
      _validate_unique_ports body_inputs (render_scope lscope +:+ " body inputs");;;
      _validate_unique_ports body_outputs_declared (render_scope lscope +:+ " body outputs");;;
      let ins := by_name body_inputs in
      let outs := by_name body_outputs_declared in
      eiter (check_feedback lscope ins outs) (feedback l);;;
      check_continue lscope outs (continue_from l);;;
      let* bound := bind_inputs node body_inputs a (feedback l).*1 true in
      let* '(initial, boundary) := efold (loop_boundary bscope bound) ([], []) body_inputs in
      let* '(body_outputs, member_order) :=
        with_members (compile_loop_members l bscope boundary a) in
      fault_if (member_order = []) (FLoopNoAtomic lscope);;;
      let* fed := efold (loop_feedback lscope bscope ins outs body_outputs) [] (feedback l) in
      let* continue_source :=
        match Dict.get_or (continue_from l) [] body_outputs with
        | [s] => eret s.(address)
        | _ =>
            fault_if (is_Some (Dict.get (continue_from l) outs))
              (FContinueSourceCount lscope (continue_from l));;;
            eret (GraphInputAddress bscope (continue_from l))
        end in
      let* '(exported, outer) :=
        efold (loop_export a.(level_scope) (node_id node) (continue_from l) body_outputs)
          ([], []) body_outputs_declared in
      add_loop (mkLoopResolution lscope bscope (max_iterations l) body_inputs initial fed
                  continue_source exported member_order);;;
      eret outer
  end.
End recursion.

Fixpoint _compile_graph (fuel : nat) (g : Graph) (scope : ScopePath) (inputs : source_dict)
    (gr : EffectiveGrants) (depth : nat) (loc : GraphLocation) {struct fuel} : M source_dict :=
  match fuel with
  | O => raise FuelExhausted
  | S fuel => compile_graph_body (_compile_node fuel) g scope inputs gr depth loc
  end
with _compile_node (fuel : nat) (node : GraphNode) (a : node_args) {struct fuel} : M source_dict :=
  match fuel with
  | O => raise FuelExhausted
  | S fuel => compile_node_body (_compile_graph fuel) (_compile_loop fuel) node a
  end
with _compile_loop (fuel : nat) (node : GraphNode) (l : Loop) (a : node_args) {struct fuel} :
    M source_dict :=
  match fuel with
  | O => raise FuelExhausted
  | S fuel => compile_loop_body (_compile_node fuel) (_compile_graph fuel) node l a
  end.
End compile.

(** ** [admit_] *)
Definition required_inputs (g : Graph) : list string :=
  port_name <$> filter (λ p, p.(port_cardinality) ≠ CardOptional) (graph_inputs g).
Definition check_run_inputs (g : Graph) (supplied : list string) : M unit :=
  let declared := port_name <$> graph_inputs g in
  let missing := set_minus (required_inputs g) supplied in
  let extra := set_minus supplied declared in
  fault_if (missing ≠ []) (FInputsMissing missing (sorted_set declared));;;
  fault_if (extra ≠ []) (FInputsExtra extra (sorted_set declared)).
Definition root_sources (g : Graph) (root : ScopePath) (supplied : list string) : M source_dict :=
  output_sources (GraphInputAddress root)
    (filter (λ p, p.(port_name) ∈ supplied) (graph_inputs g)).
Definition bind_root_outputs (g : Graph) (root : ScopePath) (outputs : source_dict) : M unit :=
  eiter (λ p, match Dict.get_or p.(port_name) [] outputs with
              | [] => eret tt
              | l => add_binding (mkBinding (GraphOutputAddress root p.(port_name)) (addresses l))
              end) (graph_outputs g).
Definition check_unused_pins (lock : option lock_index) : M unit :=
  match lock with
  | None => eret tt
  | Some lock =>
      let* c := get in
      eiter (λ scope, match Dict.get scope lock with
                      | Some pin => add_fault (FPinUnused scope pin)
                      | None => raise (PyKeyError (str_join "/" scope))
                      end)
        (py_sorted segs_leb (filter (λ s, s ∉ c.(consumed_pins)) (Dict.keys lock)))
  end.

Definition world_payload (c : comp_state) : json :=
  JObj [("components", JArr ((λ r,
          JObj [("scope", jstrs r.(res_scope).(segments)); ("component", JStr r.(res_component));
                ("version", JStr r.(resolved_version))]) <$> c.(resolutions)));
        ("capabilities", JArr ((λ b,
          JObj [("scope", jstrs b.(cap_scope).(segments)); ("binding", JStr b.(binding));
                ("capability", JStr b.(cap_id)); ("revision", JStr b.(cap_binding_revision))])
          <$> c.(cap_bindings)))].
Definition temporary_hash : Digest := digest_of "manifest-placeholder" 1 (JObj []).
Definition seal (g : Graph) (c : comp_state) (normalized_inputs : json) : ExecutionManifest :=
  let m := mkManifest
    (if existsb has_channel c.(cap_bindings) then MANIFEST_CHANNEL_SCHEMA_VERSION
     else MANIFEST_SCHEMA_VERSION)
    g (source_graph_hash_for g) c.(resolutions) c.(bindings) c.(cap_bindings) c.(loops)
    (digest_of "inputs" 1 normalized_inputs) (digest_of "world" 1 (world_payload c))
    temporary_hash in
  with_manifest_hash m (manifest_hash_for m).

Definition admit_compilation (fuel : nat) (g : Graph) (env : comp_env)
    (root_grants : EffectiveGrants) (supplied : list string) : M unit :=
  let root := mkScope [graph_name g] in
  _validate_unique_ports (graph_inputs g) (graph_name g +:+ " graph inputs");;;
  _validate_unique_ports (graph_outputs g) (graph_name g +:+ " graph outputs");;;
  check_run_inputs g supplied;;;
  let* inputs := root_sources g root supplied in
  let* outputs := _compile_graph env fuel g root inputs root_grants O (mkLocation [] None) in
  bind_root_outputs g root outputs;;;
  check_unused_pins env.(resolution_lock);;;
  let* c := get in
  match c.(faults) with [] => eret tt | _ => raise_faults end.

Definition admit_ (fuel : nat) (g : Graph) (snap : RegistrySnapshot)
    (cat : gmap string CapabilityDescriptor) (caps : gmap string LiveCapability)
    (root_grants : EffectiveGrants) (inputs : pyval) (lock : option ResolutionLock) :
    result admission_exn ExecutionManifest :=
  match json_value inputs with
  | Raise e => Raise (PyValueError e)
  | Ok (JObj members as normalized) =>
      let env := mkEnv snap cat caps (source_graph_hash_for g) (index_lock <$> lock) in
      match admit_compilation fuel g env root_grants members.*1 empty_comp with
      | (Raise e, _) => Raise e
      | (Ok _, c) => Ok (seal g c normalized)
      end
  | Ok _ => Raise InputsNotAnObject
  end.
