(* ===== verification/Sealing.v ===== *)
(** What a compilation without faults seals: one induction over the compiler
    that every admission theorem is read off from. *)

From S2P Require Import Prelude Identity Address Graph Component Capability Manifest Topology.
From S2P Require Import Binding Admission.

(** ** Faults only accumulate *)
Definition faults_grow (c c' : comp_state) : Prop := c.(faults) `prefix_of` c'.(faults).
#[export] Instance faults_grow_preorder : PreOrder faults_grow.
Proof. unfold faults_grow. split; [by intros c|intros c1 c2 c3; apply transitivity]. Qed.
Abbreviation grows := (keeps faults_grow).

Lemma grows_modify_same (f : comp_state → comp_state) :
  (∀ c, (f c).(faults) = c.(faults)) → grows (modify (E:=admission_exn) f).
Proof. intros H. apply keeps_modify. intros c. unfold faults_grow. by rewrite H. Qed.
Lemma grows_add_fault f : grows (add_fault f).
Proof. apply keeps_modify. intros c. by apply prefix_app_r. Qed.
Lemma grows_add_resolution r : grows (add_resolution r).
Proof. by apply grows_modify_same. Qed.
Lemma grows_add_binding b : grows (add_binding b).
Proof. by apply grows_modify_same. Qed.
Lemma grows_add_cap_binding b : grows (add_cap_binding b).
Proof. by apply grows_modify_same. Qed.
Lemma grows_add_loop l : grows (add_loop l).
Proof. by apply grows_modify_same. Qed.
Lemma grows_add_atomic_scope s : grows (add_atomic_scope s).
Proof. by apply grows_modify_same. Qed.
Lemma grows_consume_pin s : grows (consume_pin s).
Proof. by apply grows_modify_same. Qed.
Lemma grows_new_source a p : grows (new_source a p).
Proof. intros c. unfold faults_grow. simpl. reflexivity. Qed.
Lemma grows_raise_faults {A} : grows (raise_faults (A:=A)).
Proof. intros c. unfold faults_grow. simpl. reflexivity. Qed.
Lemma grows_lift_topo {A} g (r : result topo_error A) : grows (lift_topo g r).
Proof. destruct r as [a|[]]; [apply keeps_eret; apply _|apply keeps_raise; apply _..]. Qed.
#[export] Hint Resolve grows_add_fault grows_add_resolution grows_add_binding grows_add_cap_binding
  grows_add_loop grows_add_atomic_scope grows_consume_pin grows_new_source grows_raise_faults
  grows_lift_topo : keeps.

(** Opens a definition's steps until the leaves are known. *)
Ltac grow_leaf := solve [auto with keeps nocore].
Ltac grow :=
  repeat first [keeps_step | grow_leaf].

Lemma grows_fault_if P `{Decision P} f : grows (fault_if P f).
Proof. unfold fault_if. grow. Qed.
#[export] Hint Resolve grows_fault_if : keeps.
Lemma grows_unique_ports ps w : grows (_validate_unique_ports ps w).
Proof. unfold _validate_unique_ports. grow. Qed.
Lemma grows_resolve_selector e p nl ins sc : grows (_resolve_selector e p nl ins sc).
Proof. unfold _resolve_selector, _map_fault, _located_fault. destruct (partition_dot _). grow. Qed.
Lemma grows_bind_port p pool w loc sc ctx : grows (_bind_port p pool w loc sc ctx).
Proof.
  unfold _bind_port, _ambiguous_port_fault, _map_fault, _located_fault. cbv zeta. grow.
Qed.
#[export] Hint Resolve grows_unique_ports grows_resolve_selector grows_bind_port : keeps.
Lemma grows_bind_node_inputs n ps ls pool ex loc fb b ctx :
  grows (_bind_node_inputs n ps ls pool ex loc fb b ctx).
Proof.
  unfold _bind_node_inputs, collect_entry, bind_one_input, _map_fault, _located_fault.
  cbv zeta. grow.
Qed.
Lemma grows_compile_grants p r w : grows (_compile_grants p r w).
Proof. unfold _compile_grants. cbv zeta. grow. Qed.
#[export] Hint Resolve grows_bind_node_inputs grows_compile_grants : keeps.

Section grows_compile.
Context (env : comp_env).
Lemma grows_resolve_ref ref w : grows (_resolve_ref env ref w).
Proof. unfold _resolve_ref. cbv zeta. grow. Qed.
Lemma grows_boundary_lies st w : grows (_boundary_lies st w).
Proof. unfold _boundary_lies. cbv zeta. grow. Qed.
Lemma grows_record d st r s : grows (_record_resolution d st r s).
Proof. unfold _record_resolution. grow. Qed.
Lemma grows_compiled_channel d s a c : grows (_compiled_channel env d s a c).
Proof. unfold _compiled_channel. cbv zeta. grow. Qed.
Hint Resolve grows_resolve_ref grows_boundary_lies grows_record grows_compiled_channel : keeps.
Lemma grows_bind_capability def s g ai : grows (bind_capability env def s g ai).
Proof. unfold bind_capability, executor_faults. grow. Qed.
Lemma grows_output_sources at_ ps : grows (output_sources at_ ps).
Proof. unfold output_sources. grow. Qed.
Hint Resolve grows_bind_capability grows_output_sources : keeps.
Lemma grows_register n d s ls b r g : grows (_register_atomic env n d s ls b r g).
Proof. unfold _register_atomic. grow. Qed.
Lemma grows_with_members {A} (m : M A) : grows m → grows (with_members m).
Proof. intros Hm. unfold with_members. cbv zeta. grow. Qed.
Lemma grows_endpoints g s l : grows (_validate_connection_endpoints g s l).
Proof. unfold _validate_connection_endpoints, _located_fault. cbv zeta. grow. Qed.
Lemma grows_reject_cycles g s l : grows (_reject_cycles g s l).
Proof. unfold _reject_cycles, _located_fault. grow. Qed.
Lemma grows_retag d b : grows (retag d b).
Proof. unfold retag. grow. Qed.
Hint Resolve grows_register grows_with_members grows_endpoints grows_reject_cycles
  grows_retag : keeps.

Lemma grows_compile_all fuel :
  (∀ g s i gr d l, grows (_compile_graph env fuel g s i gr d l)) ∧
  (∀ n a, grows (_compile_node env fuel n a)) ∧
  (∀ n l a, grows (_compile_loop env fuel n l a)).
Proof.
  induction fuel as [|fuel (IHg & IHn & IHl)]; simpl.
  { split_and!; intros; apply keeps_raise; apply _. }
  split_and!; intros.
  - unfold compile_graph_body, compile_one_node, compile_output. cbv zeta. grow; apply IHn.
  - unfold compile_node_body, compile_ref, bind_inputs. cbv zeta. grow; try apply IHg; apply IHl.
  - unfold compile_loop_body, loop_ports, compile_loop_members, check_feedback, check_continue,
      loop_boundary, loop_feedback, loop_export, bind_inputs. cbv zeta. grow;
      try apply grows_with_members; grow; try apply IHg; apply IHn.
Qed.
End grows_compile.
Lemma grows_compile_graph env fuel g s i gr d l : grows (_compile_graph env fuel g s i gr d l).
Proof. apply grows_compile_all. Qed.
Lemma grows_compile_node env fuel n a : grows (_compile_node env fuel n a).
Proof. apply grows_compile_all. Qed.
Lemma grows_compile_loop env fuel n l a : grows (_compile_loop env fuel n l a).
Proof. apply grows_compile_all. Qed.
#[export] Hint Resolve grows_resolve_ref grows_boundary_lies grows_record grows_compiled_channel
  grows_bind_capability grows_output_sources grows_register grows_with_members grows_endpoints
  grows_reject_cycles grows_retag grows_compile_graph grows_compile_node grows_compile_loop : keeps.

(** ** What one call adds *)
Record delta := mkDelta {
  d_res : list ComponentResolution;
  d_bind : list ResolvedPortBinding;
  d_cap : list CapabilityBinding;
  d_loops : list LoopResolution;
  d_atomic : list ScopePath;
}.
Definition d_nil : delta := mkDelta [] [] [] [] [].
Definition d_app (d e : delta) : delta :=
  mkDelta (d_res d ++ d_res e) (d_bind d ++ d_bind e) (d_cap d ++ d_cap e)
    (d_loops d ++ d_loops e) (d_atomic d ++ d_atomic e).
Infix "⊕" := d_app (at level 50, left associativity) : cx_scope.

Lemma d_app_nil_l d : d_nil ⊕ d = d.
Proof. by destruct d. Qed.
Lemma d_app_nil_r d : d ⊕ d_nil = d.
Proof. destruct d. unfold d_app. simpl. by rewrite !app_nil_r. Qed.
Lemma d_app_assoc d e f : d ⊕ (e ⊕ f) = d ⊕ e ⊕ f.
Proof. unfold d_app. simpl. by rewrite !app_assoc. Qed.

Definition extends (c c' : comp_state) (d : delta) : Prop :=
  c'.(resolutions) = c.(resolutions) ++ d_res d ∧
  c'.(bindings) = c.(bindings) ++ d_bind d ∧
  c'.(cap_bindings) = c.(cap_bindings) ++ d_cap d ∧
  c'.(loops) = c.(loops) ++ d_loops d ∧
  c'.(atomic_scopes) = c.(atomic_scopes) ++ d_atomic d.
Lemma extends_nil c : extends c c d_nil.
Proof. unfold extends. simpl. by rewrite !app_nil_r. Qed.
Lemma extends_trans c1 c2 c3 d e : extends c1 c2 d → extends c2 c3 e → extends c1 c3 (d ⊕ e).
Proof.
  intros (R1 & B1 & C1 & L1 & A1) (R2 & B2 & C2 & L2 & A2). unfold extends. simpl.
  rewrite R2, B2, C2, L2, A2, R1, B1, C1, L1, A1. by rewrite !app_assoc.
Qed.

(** [m] returns without adding a fault: then it adds [d] and [Φ a d] holds. *)
Definition adds {A} (m : M A) (Φ : A → delta → Prop) : Prop :=
  ∀ c a c', m c = (Ok a, c') → c'.(faults) = c.(faults) → ∃ d, extends c c' d ∧ Φ a d.

Lemma grows_run {A} (m : M A) c r c' : grows m → m c = (r, c') → c.(faults) `prefix_of` c'.(faults).
Proof. intros H E. specialize (H c). by rewrite E in H. Qed.
Lemma faults_sandwich {A B} (m : M A) (f : M B) c r c1 r' c2 :
  grows m → grows f → m c = (r, c1) → f c1 = (r', c2) → c2.(faults) = c.(faults) →
  c1.(faults) = c.(faults) ∧ c2.(faults) = c1.(faults).
Proof.
  intros Hm Hf E1 E2 Heq. pose proof (grows_run _ _ _ _ Hm E1) as P1.
  pose proof (grows_run _ _ _ _ Hf E2) as P2. rewrite Heq in P2.
  assert (faults c1 = faults c) by (by apply (anti_symm prefix)). split; congruence.
Qed.

Lemma adds_weaken {A} (m : M A) (Φ Ψ : A → delta → Prop) :
  adds m Φ → (∀ a d, Φ a d → Ψ a d) → adds m Ψ.
Proof. intros H HΦ c a c' E F. destruct (H c a c' E F) as (d & ? & ?). eauto. Qed.
Lemma adds_eret {A} (a : A) (Φ : A → delta → Prop) : Φ a d_nil → adds (eret a) Φ.
Proof. intros H c b c' [= <- <-] _. exists d_nil. split; [apply extends_nil|done]. Qed.
Lemma adds_raise {A} e (Φ : A → delta → Prop) : adds (raise e) Φ.
Proof. intros c b c' [=]. Qed.
Lemma adds_add_fault f (Φ : unit → delta → Prop) : adds (add_fault f) Φ.
Proof.
  intros c b c' [= <- <-] F. simpl in F. exfalso.
  apply (f_equal length) in F. rewrite length_app in F. simpl in F. lia.
Qed.
Lemma adds_bind {A B} (m : M A) (f : A → M B) Φ (Ψ : B → delta → Prop) :
  grows m → (∀ a, grows (f a)) → adds m Φ →
  (∀ a d, Φ a d → adds (f a) (λ b e, Ψ b (d ⊕ e))) → adds (ebind m f) Ψ.
Proof.
  intros Gm Gf Hm Hf c b c' (a & c1 & E1 & E2)%ebind_ok F.
  destruct (faults_sandwich _ _ _ _ _ _ _ Gm (Gf a) E1 E2 F) as [F1 F2].
  destruct (Hm _ _ _ E1 F1) as (d & X1 & HΦ). destruct (Hf a d HΦ _ _ _ E2 F2) as (e & X2 & HΨ).
  exists (d ⊕ e). split; [by eapply extends_trans|done].
Qed.
(** A step that adds nothing. *)
Definition silent {A} (m : M A) (Q : A → Prop) : Prop := adds m (λ a d, d = d_nil ∧ Q a).
Lemma adds_bind_silent {A B} (m : M A) (f : A → M B) Q (Ψ : B → delta → Prop) :
  grows m → (∀ a, grows (f a)) → silent m Q → (∀ a, Q a → adds (f a) Ψ) → adds (ebind m f) Ψ.
Proof.
  intros Gm Gf Hm Hf. eapply adds_bind; [done|done|exact Hm|]. intros a d [-> HQ].
  eapply adds_weaken; [by apply Hf|]. intros b e. by rewrite d_app_nil_l.
Qed.
Lemma silent_weaken {A} (m : M A) (Q Q' : A → Prop) : silent m Q → (∀ a, Q a → Q' a) → silent m Q'.
Proof. intros H HQ. eapply adds_weaken; [exact H|]. naive_solver. Qed.
Lemma silent_eret {A} (a : A) (Q : A → Prop) : Q a → silent (eret a) Q.
Proof. intros. by apply adds_eret. Qed.
Lemma silent_fault_if P `{Decision P} f : silent (fault_if P f) (λ _, ¬ P).
Proof. unfold fault_if. case_decide; [apply adds_add_fault|by apply silent_eret]. Qed.
Lemma silent_new_source a p : silent (new_source a p) (λ s, s.(address) = a ∧ s.(source_port) = p).
Proof.
  intros c s c' [= <- <-] _. exists d_nil. split; [|done]. unfold extends. simpl.
  by rewrite !app_nil_r.
Qed.

(** Loops. *)
Lemma adds_efold {A B} (f : B → A → M B) (Inv : list A → B → delta → Prop) l b :
  (∀ b x, grows (f b x)) → Inv [] b d_nil →
  (∀ done_ x rest b d, l = done_ ++ x :: rest → Inv done_ b d →
     adds (f b x) (λ b' e, Inv (done_ ++ [x]) b' (d ⊕ e))) →
  adds (efold f b l) (Inv l).
Proof.
  intros Gf H0 Hstep.
  enough (∀ rest done_ b d, l = done_ ++ rest → Inv done_ b d →
    adds (efold f b rest) (λ b' e, Inv l b' (d ⊕ e))) as H.
  { eapply adds_weaken; [exact (H l [] b d_nil eq_refl H0)|]. intros b' e.
    cbv beta. by rewrite d_app_nil_l. }
  induction rest as [|x rest IH]; intros done_ b' d Heq Hinv; simpl.
  - rewrite app_nil_r in Heq. subst. apply adds_eret. by rewrite d_app_nil_r.
  - eapply adds_bind; [apply Gf| |by eapply Hstep|].
    + intros a. apply keeps_efold; [apply _|]. intros; apply Gf.
    + intros b2 e He. eapply adds_weaken; [apply (IH (done_ ++ [x]) b2 (d ⊕ e))|].
      * by rewrite <-app_assoc.
      * done.
      * intros b3 e3. by rewrite d_app_assoc.
Qed.
Lemma silent_efold {A B} (f : B → A → M B) (Inv : B → Prop) l b :
  (∀ b x, grows (f b x)) → Inv b → (∀ b x, x ∈ l → Inv b → silent (f b x) Inv) →
  silent (efold f b l) Inv.
Proof.
  intros Gf Hb Hstep. eapply adds_weaken;
    [apply (adds_efold f (λ _ b d, d = d_nil ∧ Inv b)); [done|done|]|naive_solver].
  intros done_ x rest b' d Hl [-> Hb']. eapply adds_weaken; [apply (Hstep b' x); [set_solver|done]|].
  intros b2 e [-> ?]. done.
Qed.
Lemma silent_emap {A B} (f : A → M B) (Q : A → B → Prop) l :
  (∀ x, grows (f x)) → (∀ x, x ∈ l → silent (f x) (Q x)) → silent (emap f l) (Forall2 Q l).
Proof.
  intros Gf Hf. induction l as [|x l IH]; simpl; [by apply silent_eret|].
  eapply adds_bind_silent; [apply Gf| |apply Hf; left|].
  - intros y. apply keeps_bind; [apply _|apply keeps_emap; [apply _|intros; apply Gf]|].
    intros. apply keeps_eret, _.
  - intros y Hy. eapply adds_bind_silent; [apply keeps_emap; [apply _|intros; apply Gf]| | |].
    + intros. apply keeps_eret, _.
    + apply IH. intros z Hz. apply Hf. by right.
    + intros ys Hys. apply silent_eret. by constructor.
Qed.
Lemma eiter_efold {A} (f : A → M unit) l u c : eiter f l c = efold (λ (_ : unit) x, f x) u l c.
Proof.
  revert u c. induction l as [|x l IH]; intros [] c; simpl; [done|].
  unfold ebind. destruct (f x c) as [[v|e] c1]; [apply IH|done].
Qed.
Lemma adds_eiter {A} (f : A → M unit) (Inv : list A → delta → Prop) l :
  (∀ x, grows (f x)) → Inv [] d_nil →
  (∀ done_ x rest d, l = done_ ++ x :: rest → Inv done_ d →
     adds (f x) (λ _ e, Inv (done_ ++ [x]) (d ⊕ e))) →
  adds (eiter f l) (λ _ d, Inv l d).
Proof.
  intros Gf H0 Hstep c u c' E F. rewrite (eiter_efold _ _ tt) in E.
  eapply (adds_efold (λ (_ : unit) x, f x) (λ done_ _ d, Inv done_ d) l tt);
    [done|done| |exact E|done].
  intros. by eapply Hstep.
Qed.

(** ** Binding *)
Definition from (A : PortAddress → Prop) (l : list Source) : Prop := ∀ s, s ∈ l → A s.(address).
Definition dict_ok (A : PortAddress → Prop) (d : source_dict) : Prop :=
  ∀ n l, (n, l) ∈ d → l ≠ [] ∧ from A l.
Definition nodes_ok (A : PortAddress → Prop) (d : node_dict) : Prop :=
  ∀ n out, (n, out) ∈ d → dict_ok A out.

Lemma dict_ok_nil A : dict_ok A [].
Proof. by intros n l ?%elem_of_nil. Qed.
Lemma nodes_ok_nil A : nodes_ok A [].
Proof. by intros n l ?%elem_of_nil. Qed.
Lemma dict_ok_set A n l d : dict_ok A d → l ≠ [] → from A l → dict_ok A (Dict.set n l d).
Proof. intros Hd Hl HA m k [?|?]%Dict.elem_of_set; [by simplify_eq|by eapply Hd]. Qed.
Lemma dict_ok_weaken (A B : PortAddress → Prop) d : (∀ a, A a → B a) → dict_ok A d → dict_ok B d.
Proof. intros H Hd n l Hn. destruct (Hd n l Hn). split; [done|]. intros s Hs. auto. Qed.
Lemma nodes_ok_weaken (A B : PortAddress → Prop) d : (∀ a, A a → B a) → nodes_ok A d → nodes_ok B d.
Proof. intros H Hd n o Hn. eapply dict_ok_weaken; [exact H|]. by eapply Hd. Qed.
Lemma elem_of_all_sources s d : s ∈ all_sources d ↔ ∃ n l, (n, l) ∈ d ∧ s ∈ l.
Proof.
  unfold all_sources, Dict.values. rewrite list_elem_of_join. split.
  - intros (l & Hs & Hl). apply list_elem_of_fmap in Hl as ([n l'] & -> & ?). eauto.
  - intros (n & l & Hl & Hs). exists l. split; [done|]. apply list_elem_of_fmap. by exists (n, l).
Qed.
Lemma from_all_sources A d : dict_ok A d → from A (all_sources d).
Proof. intros Hd s (n & l & Hl & Hs)%elem_of_all_sources. by eapply Hd. Qed.
Lemma from_get A d n : dict_ok A d → from A (Dict.get_or n [] d).
Proof.
  intros Hd s. destruct (Dict.get_or_elem n [] d) as [->|Hin]; [by intros ?%elem_of_nil|].
  by eapply Hd.
Qed.
Lemma dict_ok_get A d n : nodes_ok A d → dict_ok A (Dict.get_or n [] d).
Proof.
  intros Hd m l. destruct (Dict.get_or_elem n [] d) as [->|Hin]; [by intros ?%elem_of_nil|].
  by eapply Hd.
Qed.

Definition bound_ok (port : Port) (pool l : list Source) : Prop :=
  l ≠ [] ∧ (∀ s, s ∈ l → s ∈ pool ∧ _source_matches s port = true) ∧
  (port.(port_cardinality) ≠ CardMany → length l = 1).
Lemma adds_fault_then {A} f (m : M A) (Φ : A → delta → Prop) : grows m → adds (add_fault f;;; m) Φ.
Proof.
  intros G. eapply (adds_bind _ _ (λ _ _, False)); [apply grows_add_fault|done|apply adds_add_fault|].
  by intros u d [].
Qed.
Lemma adds_consume {A} pin (m : M A) (Φ : A → delta → Prop) :
  grows m → adds m Φ → adds (consume_pin pin;;; m) Φ.
Proof.
  intros G H. eapply (adds_bind_silent _ _ (λ _, True)); [apply grows_consume_pin|done| |done].
  intros c u c' [= <- <-] _. exists d_nil. split; [|done]. unfold extends. simpl.
  by rewrite !app_nil_r.
Qed.
Ltac adds_one :=
  intros c u c' [= <- <-] _; eexists; split; [|reflexivity];
  unfold extends; simpl; by rewrite !app_nil_r.
Lemma adds_add_binding b : adds (add_binding b) (λ _ d, d = mkDelta [] [b] [] [] []).
Proof. adds_one. Qed.
Lemma adds_add_cap_binding b : adds (add_cap_binding b) (λ _ d, d = mkDelta [] [] [b] [] []).
Proof. adds_one. Qed.
Lemma adds_add_loop l : adds (add_loop l) (λ _ d, d = mkDelta [] [] [] [l] []).
Proof. adds_one. Qed.
Lemma adds_add_atomic_scope s : adds (add_atomic_scope s) (λ _ d, d = mkDelta [] [] [] [] [s]).
Proof. adds_one. Qed.
Lemma adds_add_resolution r : adds (add_resolution r) (λ _ d, d = mkDelta [r] [] [] [] []).
Proof. adds_one. Qed.
Lemma adds_raise_faults {A} (Φ : A → delta → Prop) : adds raise_faults Φ.
Proof. intros c b c' [=]. Qed.
Lemma silent_lift {A} (r : result admission_exn A) : silent (lift r) (λ a, r = Ok a).
Proof.
  intros c a c' [= -> <-] _. exists d_nil. split; [apply extends_nil|done].
Qed.
Lemma silent_lift_topo {A} g (r : result topo_error A) : silent (lift_topo g r) (λ a, r = Ok a).
Proof. destruct r as [a|[]]; [by apply silent_eret|apply adds_raise..]. Qed.

(** Every branch either faults or is settled by the tactic given. *)
Ltac fault_branch :=
  unfold silent;
  lazymatch goal with
  | |- adds (ebind _ _) _ => apply adds_fault_then; grow
  | |- adds (add_fault _) _ => apply adds_add_fault
  | |- adds (raise _) _ => apply adds_raise
  | |- adds raise_faults _ => apply adds_raise_faults
  end.

Lemma filter_matches port (pool : list Source) s :
  s ∈ filter (λ s, _source_matches s port = true) pool → s ∈ pool ∧ _source_matches s port = true.
Proof. rewrite list_elem_of_filter. tauto. Qed.

Lemma bind_port_adds port pool w loc sc ctx :
  silent (_bind_port port pool w loc sc ctx)
    (λ r, match r with
          | Some l => bound_ok port pool l
          | None => port.(port_cardinality) = CardOptional
          end).
Proof.
  unfold _bind_port, _ambiguous_port_fault, _map_fault, _located_fault. cbv zeta.
  set (typed := filter (λ s, _source_matches s port = true) pool).
  set (named := filter (λ s, s.(source_port).(port_name) = port.(port_name)) typed).
  assert (∀ s, s ∈ typed → s ∈ pool ∧ _source_matches s port = true) as Ht by apply filter_matches.
  assert (∀ s, s ∈ named → s ∈ pool ∧ _source_matches s port = true) as Hn
    by (intros s [_ Hs]%list_elem_of_filter; by apply Ht).
  destruct (port_cardinality port) eqn:Ec.
  3: { destruct typed eqn:Et; [fault_branch|]. apply silent_eret. split_and!; [done|done|congruence]. }
  all: destruct named as [|n [|n' named']];
    [|by apply silent_eret; split_and!|destruct ctx as [ctx|]; [destruct (ctx_incoming ctx), (_applicable_selectors _ _ _)|]; fault_branch].
  all: destruct typed as [|t [|t' typed']];
    [|by apply silent_eret; split_and!|destruct ctx as [ctx|]; [destruct (ctx_incoming ctx), (_applicable_selectors _ _ _)|]; fault_branch].
  - rewrite decide_False by done. fault_branch.
  - by apply silent_eret.
Qed.

Lemma resolve_selector_adds A e port nl ins sc :
  nodes_ok A nl → dict_ok A ins →
  silent (_resolve_selector e port nl ins sc) (λ r, ∃ s, r = Some s ∧ A s.(address)).
Proof.
  intros Hnl Hins. unfold _resolve_selector, _map_fault, _located_fault.
  destruct (partition_dot _) as [node_name port_name]. cbv zeta.
  case_decide; [fault_branch|].
  set (l := if decide _ then _ else _).
  assert (from A l) as Hl by (unfold l; case_decide; apply from_get; [done|by apply dict_ok_get]).
  destruct l as [|s [|]]; [fault_branch| |fault_branch].
  case_decide; [fault_branch|]. destruct (_source_matches s port); simpl; [|fault_branch].
  apply silent_eret. exists s. split; [done|]. apply Hl. set_solver.
Qed.

Lemma Forall2_mapM {X Y} (P : Y → Prop) (l : list X) (k : list (option Y)) :
  Forall2 (λ _ r, ∃ s, r = Some s ∧ P s) l k →
  ∃ ss, mapM id k = Some ss ∧ length ss = length l ∧ ∀ s, s ∈ ss → P s.
Proof.
  induction 1 as [|x r l k (s & -> & Hs) _ (ss & Hm & Hlen & HP)].
  - exists []. split_and!; [done|done|]. by intros s ?%elem_of_nil.
  - exists (s :: ss). simpl. rewrite Hm. simpl. split_and!; [done|by rewrite Hlen|].
    intros t [->|Ht]%elem_of_cons; auto.
Qed.

Definition inputs_ok (A : PortAddress → Prop) (ports : list Port) (d : source_dict) : Prop :=
  dict_ok A d ∧ NoDup (Dict.keys d) ∧ ∀ n, n ∈ Dict.keys d → n ∈ port_name <$> ports.

Lemma bind_one_input_adds A node sc w pool loc fb ctx by_port ports bound port :
  from A pool → nodes_ok A ctx.(ctx_node_lookup) → dict_ok A ctx.(ctx_input_sources) →
  port ∈ ports → inputs_ok A ports bound →
  silent (bind_one_input node sc w pool loc fb ctx by_port bound port) (inputs_ok A ports).
Proof.
  intros Hpool Hnl Hins Hport Hb.
  assert (∀ l, l ≠ [] → from A l → inputs_ok A ports (Dict.set port.(port_name) l bound)) as Hset.
  { intros l Hl HA. destruct Hb as (Hd & Hnd & Hk). split_and!.
    - by apply dict_ok_set.
    - by apply Dict.NoDup_keys_set.
    - intros n [->|Hn]%Dict.elem_of_keys_set; [|by apply Hk]. by apply list_elem_of_fmap_2. }
  unfold bind_one_input. destruct (Dict.values _) as [|first rest].
  - case_decide; [unfold _located_fault; fault_branch|].
    eapply adds_bind_silent; [auto with keeps nocore|intros; grow|apply bind_port_adds|].
    intros [l|] Hl; apply silent_eret; [|done]. destruct Hl as (Hne & Hin & _).
    apply Hset; [done|]. intros s Hs. by apply Hpool, Hin.
  - set (entries := first :: rest).
    assert (silent (let* selected := emap (λ e, _resolve_selector e port ctx.(ctx_node_lookup)
        ctx.(ctx_input_sources) sc) entries in
      eret (match mapM id selected with
            | Some sources => Dict.set port.(port_name) sources bound
            | None => bound end)) (inputs_ok A ports)) as Hsel.
    { eapply adds_bind_silent; [grow|intros; grow|apply silent_emap; [intros; grow|]|].
      - intros e _. by apply (resolve_selector_adds A).
      - intros rs Hrs. apply silent_eret.
        apply (Forall2_mapM (λ s, A s.(address))) in Hrs as (ss & -> & Hlen & HA).
        apply Hset; [|done]. by destruct ss. }
    destruct rest as [|conflict rest]; [exact Hsel|].
    destruct (decide _); [exact Hsel|]. unfold _map_fault, _located_fault. fault_branch.
Qed.

Lemma bind_node_inputs_adds A node ports ls pool ex loc fb b ctx :
  from A pool → nodes_ok A ctx.(ctx_node_lookup) → dict_ok A ctx.(ctx_input_sources) →
  silent (_bind_node_inputs node ports ls pool ex loc fb b ctx) (inputs_ok A ports).
Proof.
  intros Hpool Hnl Hins. unfold _bind_node_inputs. cbv zeta.
  assert (∀ by_port bound port,
    grows (bind_one_input node (child ls (node_id node))
      (render_scope (child ls (node_id node)) +:+ " " +:+ (if b then "boundary" else "input"))
      pool loc fb ctx by_port bound port)) as G.
  { intros. unfold bind_one_input, _map_fault, _located_fault. grow. }
  eapply (adds_bind_silent _ _ (λ _, True)).
  - unfold collect_entry, _map_fault, _located_fault. cbv zeta. grow.
  - intros. apply keeps_efold; [apply _|]. intros; apply G.
  - apply silent_efold; [|done|].
    + intros. unfold collect_entry, _map_fault, _located_fault. cbv zeta. grow.
    + intros bp e _ _. unfold collect_entry, _map_fault, _located_fault. cbv zeta.
      case_decide; [fault_branch|by apply silent_eret].
  - intros by_port _. apply silent_efold; [intros; apply G| |].
    + split_and!; [apply dict_ok_nil|constructor|by intros n ?%elem_of_nil].
    + intros bound port Hport Hb. by apply bind_one_input_adds.
Qed.

(** ** Scopes *)
Definition under (s t : ScopePath) : Prop := ∃ k, t.(segments) = s.(segments) ++ k.
Definition strictly_under (s t : ScopePath) : Prop := ∃ x k, t.(segments) = s.(segments) ++ x :: k.

Lemma under_refl s : under s s.
Proof. exists []. by rewrite app_nil_r. Qed.
Lemma under_trans s t u : under s t → under t u → under s u.
Proof. intros [k Hk] [k' Hk']. exists (k ++ k'). by rewrite Hk', Hk, app_assoc. Qed.
Lemma under_child s x : under s (child s x).
Proof. by exists [x]. Qed.
Lemma strictly_under_child s x t : under (child s x) t → strictly_under s t.
Proof. intros [k Hk]. exists x, k. by rewrite Hk; simpl; rewrite <-app_assoc. Qed.
Lemma strictly_under_under s t : strictly_under s t → under s t.
Proof. intros (x & k & Hk). by exists (x :: k). Qed.
Lemma under_child_disjoint s x y t : under (child s x) t → under (child s y) t → x = y.
Proof.
  intros [k Hk] [k' Hk']. rewrite Hk in Hk'. simpl in Hk'. rewrite <-!app_assoc in Hk'.
  apply app_inv_head in Hk'. by injection Hk'.
Qed.
Lemma strictly_under_irrefl s : ¬ strictly_under s s.
Proof.
  intros (x & k & Hk). apply (f_equal length) in Hk. rewrite length_app in Hk. simpl in Hk. lia.
Qed.
Lemma child_inj s x t y : child s x = child t y → s = t ∧ x = y.
Proof. destruct s, t. intros [= [-> ->]%app_inj_tail]. done. Qed.

(** ** What a delta must satisfy *)

(** What a resolution records was selected in the snapshot, under the lock. *)
Definition resolves (env : comp_env) (r : ComponentResolution) (ref : Ref) (stored : StoredVersion) : Prop :=
  select_version env.(snapshot) ref r.(res_scope) env.(resolution_lock) = Ok (Some stored) ∧
  r.(requested_version) = ref.(version) ∧ r.(resolved_version) = stored.(stored_hash) ∧
  r.(res_component) = stored.(definition).(def_name) ∧
  r.(contract_hash) = component_contract stored.(definition).
Definition resolved_from (env : comp_env) (r : ComponentResolution) : Prop := ∃ ref stored, resolves env r ref stored.
(** The atomic component resolved at a scope declares an output of this name. *)
Definition produces (env : comp_env) (d : delta) (s : ScopePath) (port : string) : Prop :=
  ∃ r ref stored p, r ∈ d_res d ∧ r.(res_scope) = s ∧ resolves env r ref stored ∧
    stored.(definition).(body) = CPython p ∧ port ∈ port_name <$> stored.(definition).(def_outputs).

(** Addresses that exist once [d] is sealed: a declared output of an atomic node,
    a loop's export, and a loop body's bound input. *)
Definition made (env : comp_env) (d : delta) (a : PortAddress) : Prop :=
  match a with
  | NodePortAddress s n p =>
      (child s n ∈ d_atomic d ∧ produces env d (child s n) p) ∨
      ∃ l e, l ∈ d_loops d ∧ e ∈ l.(exports) ∧ e.(export_destination) = a
  | GraphInputAddress s _ =>
      ∃ l b, l ∈ d_loops d ∧ l.(body_scope) = s ∧ b ∈ l.(initial_bindings) ∧ b.(destination) = a
  | GraphOutputAddress _ _ => False
  end.
(** Sources reachable from a call that may read [A]. *)
Definition known (env : comp_env) (A : PortAddress → Prop) (d : delta) (a : PortAddress) : Prop := A a ∨ made env d a.
Definition sources_known (P : PortAddress → Prop) (b : ResolvedPortBinding) : Prop :=
  b.(sources) ≠ [] ∧ ∀ a, a ∈ b.(sources) → P a.

Record loop_ok (env : comp_env) (A : PortAddress → Prop) (d : delta) (l : LoopResolution) : Prop := {
  lo_body : l.(body_scope) = child l.(loop_scope) LOOP_BODY_SEGMENT;
  lo_members : l.(member_order) ≠ [] ∧ l.(member_order) ⊆ d_atomic d ∧
    ∀ m, m ∈ l.(member_order) → strictly_under l.(body_scope) m;
  lo_initial : ∀ b, b ∈ l.(initial_bindings) → sources_known (known env A d) b ∧
    ∃ p, b.(destination) = GraphInputAddress l.(body_scope) p;
  lo_feedback : ∀ b, b ∈ l.(feedback_bindings) → sources_known (known env A d) b ∧
    ∃ p, b.(destination) = GraphInputAddress l.(body_scope) p;
  lo_continue : known env A d l.(continue_source);
  lo_exports : ∀ e, e ∈ l.(exports) → e.(export_sources) ≠ [] ∧
    (∀ a, a ∈ e.(export_sources) → known env A d a) ∧
    ∃ s n p, e.(export_destination) = NodePortAddress s n p ∧ child s n = l.(loop_scope);
}.

Record good (env : comp_env) (A : PortAddress → Prop) (S : ScopePath → Prop)
    (gr : EffectiveGrants) (depth : nat) (d : delta) : Prop := {
  g_grants : ∀ b, b ∈ d_cap d → grants_le b.(effective_grants) gr;
  g_cap_scope : ∀ b, b ∈ d_cap d → b.(cap_scope) ∈ d_atomic d;
  g_self : ∀ s, s ∈ d_atomic d → ∃ b, b ∈ d_cap d ∧ b.(cap_scope) = s ∧ b.(binding) = SELF_BINDING
    ∧ b.(cap_id) = SELF_CAPABILITY;
  g_res_nodup : NoDup (res_scope <$> d_res d);
  g_res_scope : ∀ r, r ∈ d_res d → S r.(res_scope);
  g_res_from : ∀ r, r ∈ d_res d → resolved_from env r;
  g_atomic_nodup : NoDup (d_atomic d);
  g_atomic_res : d_atomic d ⊆ res_scope <$> d_res d;
  g_loop_nodup : NoDup (loop_scope <$> d_loops d);
  g_loop_scope : ∀ l, l ∈ d_loops d → S l.(loop_scope);
  g_loop_depth : d_loops d ≠ [] → depth = O;
  g_loops : ∀ l, l ∈ d_loops d → loop_ok env A d l;
  g_dest_nodup : NoDup (destination <$> d_bind d);
  g_bind : ∀ b, b ∈ d_bind d → sources_known (known env A d) b ∧
    ∃ s n p, b.(destination) = NodePortAddress s n p ∧ child s n ∈ d_atomic d;
}.

Lemma good_nil env A S gr depth : good env A S gr depth d_nil.
Proof.
  split; simpl; try (by intros ? ?%elem_of_nil); try constructor; try done.
Qed.

Lemma produces_mono env d e s p : d_res d ⊆ d_res e → produces env d s p → produces env e s p.
Proof. intros Hr (r & ref & st & q & Hin & H). exists r, ref, st, q. split; [by apply Hr|done]. Qed.
Lemma made_mono env d e a :
  d_res d ⊆ d_res e → d_atomic d ⊆ d_atomic e → d_loops d ⊆ d_loops e → made env d a → made env e a.
Proof.
  intros Hr Ha Hl. destruct a as [s p|s n p|s p]; simpl; [naive_solver| |done].
  intros [[Hat Hp]|(l & x & Hin & Hx)]; [left|right; exists l, x; auto].
  split; [by apply Ha|by eapply produces_mono].
Qed.
Lemma made_app_l env d e a : made env d a → made env (d ⊕ e) a.
Proof. apply made_mono; simpl; intros x Hx; apply elem_of_app; by left. Qed.
Lemma made_app_r env d e a : made env e a → made env (d ⊕ e) a.
Proof. apply made_mono; simpl; intros x Hx; apply elem_of_app; by right. Qed.
Lemma known_app_l env A d e a : known env A d a → known env A (d ⊕ e) a.
Proof. intros [|]; [by left|right; by apply made_app_l]. Qed.
Lemma known_app_r env A d e a : known env (known env A d) e a → known env A (d ⊕ e) a.
Proof. intros [[|]|]; [by left|right; by apply made_app_l|right; by apply made_app_r]. Qed.
Lemma known_mono env (A B : PortAddress → Prop) d a : (∀ a, A a → B a) → known env A d a → known env B d a.
Proof. unfold known. intros HAB [|]; auto. Qed.
Lemma known_nil env A a : known env A d_nil a ↔ A a.
Proof.
  unfold known, made. split; [|by left]. intros [|Hm]; [done|exfalso].
  destruct a; simpl in Hm; [|destruct Hm as [[?%elem_of_nil _]|Hm]; [done|]|done];
    by destruct Hm as (? & ? & ?%elem_of_nil & _).
Qed.
Lemma sources_known_mono (P Q : PortAddress → Prop) b :
  (∀ a, P a → Q a) → sources_known P b → sources_known Q b.
Proof. intros H [Hne Hs]. split; auto. Qed.

Lemma loop_ok_mono env (A B : PortAddress → Prop) d e l :
  d_atomic d ⊆ d_atomic e → (∀ a, known env A d a → known env B e a) → loop_ok env A d l → loop_ok env B e l.
Proof.
  intros Ha Hk [Hb (Hm & Hms & Hmu) Hi Hf Hc He]. split; [done|split_and!; [done|by etrans|done]|..].
  - intros b Hin. destruct (Hi b Hin). eauto using sources_known_mono.
  - intros b Hin. destruct (Hf b Hin). eauto using sources_known_mono.
  - auto.
  - intros x Hin. destruct (He x Hin) as (? & ? & ?). eauto.
Qed.

Lemma good_weaken env (A B : PortAddress → Prop) (S T : ScopePath → Prop) gr gr' depth d :
  (∀ a, A a → B a) → (∀ s, S s → T s) → grants_le gr gr' →
  good env A S gr depth d → good env B T gr' depth d.
Proof.
  intros HA HS Hgr [Hg Hcs Hself Hrn Hrs Hrf Han Har Hln Hls Hld Hl Hdn Hb].
  split; auto.
  - intros b Hin. etrans; [by apply Hg|done].
  - intros l Hin. eapply loop_ok_mono; [done| |by apply Hl]. intros a. by apply known_mono.
  - intros b Hin. destruct (Hb b Hin) as [Hs Hd]. split; [|done].
    eapply sources_known_mono; [|exact Hs]. intros a. by apply known_mono.
Qed.

Lemma NoDup_fmap_app {X Y} (f : X → Y) (S T : Y → Prop) (l k : list X) :
  NoDup (f <$> l) → NoDup (f <$> k) → (∀ x, x ∈ l → S (f x)) → (∀ x, x ∈ k → T (f x)) →
  (∀ y, S y → T y → False) → NoDup (f <$> (l ++ k)).
Proof.
  intros Hl Hk HS HT Hd. rewrite fmap_app. apply NoDup_app. split; [done|]. split; [|done].
  intros y (x & -> & Hx)%list_elem_of_fmap (x' & Heq & Hx')%list_elem_of_fmap.
  apply (Hd (f x)); [by apply HS|]. rewrite Heq. by apply HT.
Qed.

(** Calls in disjoint regions compose; the later one may read the earlier. *)
Lemma good_app env A (S T : ScopePath → Prop) gr depth d e :
  (∀ s, S s → T s → False) → good env A S gr depth d → good env (known env A d) T gr depth e →
  good env A (λ s, S s ∨ T s) gr depth (d ⊕ e).
Proof.
  intros Hdis [Hg Hcs Hself Hrn Hrs Hrf Han Har Hln Hls Hld Hl Hdn Hb]
    [Hg' Hcs' Hself' Hrn' Hrs' Hrf' Han' Har' Hln' Hls' Hld' Hl' Hdn' Hb'].
  assert (∀ s, s ∈ d_atomic d → S s) as Has.
  { intros s Hs. apply Har, list_elem_of_fmap in Hs as (r & -> & Hr). by apply Hrs. }
  assert (∀ s, s ∈ d_atomic e → T s) as Has'.
  { intros s Hs. apply Har', list_elem_of_fmap in Hs as (r & -> & Hr). by apply Hrs'. }
  assert (d_atomic d ⊆ d_atomic (d ⊕ e)) as Hsub by (simpl; set_solver).
  assert (d_atomic e ⊆ d_atomic (d ⊕ e)) as Hsub' by (simpl; set_solver).
  split; simpl.
  - intros b [|]%elem_of_app; auto.
  - intros b [Hin|Hin]%elem_of_app; apply elem_of_app; auto.
  - intros s [(b & Hin & ?)%Hself|(b & Hin & ?)%Hself']%elem_of_app; exists b;
      (split; [apply elem_of_app; auto|done]).
  - by apply (NoDup_fmap_app _ S T).
  - intros r [|]%elem_of_app; auto.
  - intros r [|]%elem_of_app; auto.
  - apply NoDup_app. split; [done|]. split; [|done]. intros s Hs Hs'. eauto.
  - rewrite fmap_app. set_solver.
  - by apply (NoDup_fmap_app _ S T).
  - intros r [|]%elem_of_app; auto.
  - intros Hne. destruct (d_loops d) eqn:E; [|by apply Hld]. by apply Hld'.
  - intros l [Hin|Hin]%elem_of_app.
    + eapply loop_ok_mono; [exact Hsub| |by apply Hl]. intros a. apply known_app_l.
    + eapply loop_ok_mono; [exact Hsub'| |by apply Hl']. intros a. apply known_app_r.
  - rewrite fmap_app. apply NoDup_app. split; [done|]. split; [|done].
    intros y (b & -> & Hin)%list_elem_of_fmap (b' & Heq & Hin')%list_elem_of_fmap.
    destruct (Hb b Hin) as (_ & s & n & p & Hd & Hs). destruct (Hb' b' Hin') as (_ & s' & n' & p' & Hd' & Hs').
    rewrite Hd, Hd' in Heq. injection Heq as -> -> ->. eauto.
  - intros b [Hin|Hin]%elem_of_app.
    + destruct (Hb b Hin) as (Hs & s & n & p & Hd & Hat). split.
      * eapply sources_known_mono; [|exact Hs]. intros a. apply known_app_l.
      * exists s, n, p. split; [done|]. by apply Hsub.
    + destruct (Hb' b Hin) as (Hs & s & n & p & Hd & Hat). split.
      * eapply sources_known_mono; [|exact Hs]. intros a. apply known_app_r.
      * exists s, n, p. split; [done|]. by apply Hsub'.
Qed.

(** ** The authored graph an admission accepts

    Every inline level is a DAG over distinct nodes with distinct boundary
    ports, and no Loop is inside a Loop. *)
Inductive admissible : nat → Graph → Prop :=
| admissible_graph depth g :
    endpoints_declared g → acyclic g → NoDup (node_ids g) →
    NoDup (port_name <$> graph_inputs g) → NoDup (port_name <$> graph_outputs g) →
    (∀ n, n ∈ nodes g → admissible_body depth (node_body_of n)) → admissible depth g
with admissible_body : nat → node_body → Prop :=
| admissible_ref depth r : admissible_body depth (BRef r)
| admissible_inline depth g : admissible depth g → admissible_body depth (BGraph g)
| admissible_loop_ref r f c m : admissible_body O (BLoop (mkLoop (LRef r) f c m))
| admissible_loop_graph g f c m : admissible 1 g → admissible_body O (BLoop (mkLoop (LGraph g) f c m)).

(** ** Specifications of the steps *)
Lemma duplicate_names_nil seen_ names :
  duplicate_names seen_ names = [] ↔ NoDup names ∧ ∀ n, n ∈ names → n ∉ seen_.
Proof.
  revert seen_. induction names as [|n names IH]; intros seen_; simpl.
  - split; [intros _; split; [constructor|by intros n ?%elem_of_nil]|done].
  - rewrite app_nil, IH, NoDup_cons. case_decide; split.
    + by intros [].
    + intros [_ H1]. exfalso. apply (H1 n); [left|done].
    + intros (_ & Hnd & Hs). split; [split; [|done]|].
      * intros Hin. apply (Hs n Hin). left.
      * intros m [->|Hm]%elem_of_cons; [done|]. intros Hms. apply (Hs m Hm). by right.
    + intros ([Hn Hnd] & Hs). split; [done|]. split; [done|].
      intros m Hm [->|Hms]%elem_of_cons; [done|]. apply (Hs m); [by right|done].
Qed.
Lemma unique_ports_adds ps w :
  silent (_validate_unique_ports ps w) (λ _, NoDup (port_name <$> ps)).
Proof.
  unfold _validate_unique_ports. destruct (sorted_set _) eqn:E; [|fault_branch].
  apply silent_eret. by apply sorted_set_nil, duplicate_names_nil in E as [? _].
Qed.
Lemma endpoints_adds g sc loc :
  silent (_validate_connection_endpoints g sc loc) (λ b, b = true → endpoints_declared g).
Proof.
  unfold _validate_connection_endpoints, _located_fault. cbv zeta.
  destruct (undeclared_endpoints g) as [|u l] eqn:E; simpl.
  - eapply adds_bind_silent; [grow|intros; grow|by apply (silent_eret _ (λ _, True))|].
    intros _ _. apply silent_eret. intros _. by apply undeclared_endpoints_nil.
  - eapply (adds_bind _ _ (λ _ _, False)); [grow|intros; grow| |by intros ?? []]. fault_branch.
Qed.
Lemma reject_cycles_adds g sc loc :
  silent (_reject_cycles g sc loc) (λ _, endpoints_declared g → acyclic g).
Proof.
  unfold _reject_cycles, _located_fault. destruct (find_back_edges g) as [[|b l]|] eqn:E;
    [|simpl; eapply (adds_bind _ _ (λ _ _, False)); [grow|intros; grow| |by intros ?? []];
      fault_branch|fault_branch].
  eapply adds_bind_silent; [grow|intros; grow|by apply (silent_eret _ (λ _, True))|].
  intros _ _. apply silent_eret. intros Hd.
  destruct (find_back_edges_spec g Hd) as (l & Hl & Hiff & _). rewrite E in Hl. simplify_eq.
  by apply Hiff.
Qed.

Section specs.
Context (env : comp_env).

Lemma resolve_ref_adds ref w :
  silent (_resolve_ref env ref w) (λ r, ∃ stored, r = Some stored ∧
    select_version env.(snapshot) ref w env.(resolution_lock) = Ok (Some stored)).
Proof.
  unfold _resolve_ref. destruct (select_version _ _ _ _) as [st|e] eqn:E; [|fault_branch].
  cbv zeta. destruct (resolution_lock env) as [lock|].
  - destruct (Dict.get _ lock) as [pin|]; [|fault_branch].
    apply adds_consume; [grow|]. case_decide; [fault_branch|].
    destruct st; [|fault_branch]. apply silent_eret. eauto.
  - destruct (versions _ !! _); [|fault_branch]. destruct (version ref).
    + destruct st; [|fault_branch]. apply silent_eret. eauto.
    + eapply (adds_bind_silent _ _ (λ _, True)); [grow|intros; grow| |].
      * eapply silent_weaken; [apply silent_lift|done].
      * intros [v|] _; [|fault_branch]. destruct st; [|fault_branch]. apply silent_eret. eauto.
Qed.

Lemma record_adds def st ref sc :
  adds (_record_resolution def st ref sc) (λ _ d, ∃ r, d = mkDelta [r] [] [] [] [] ∧
    r.(res_scope) = sc ∧ r.(requested_version) = ref.(version) ∧
    r.(resolved_version) = st.(stored_hash) ∧ r.(res_component) = def.(def_name) ∧
    r.(contract_hash) = component_contract def).
Proof.
  eapply adds_weaken; [apply adds_add_resolution|].
  intros _ e ->. eexists. split; [done|]. done.
Qed.

Lemma boundary_lies_adds st w :
  silent (_boundary_lies st w) (λ b, b = false ∧
    ∀ g, st.(definition).(body) = CGraph g → boundary_differs st.(definition) g = false ∧
      embedded_schema_faults st.(definition) = []).
Proof.
  unfold _boundary_lies. cbv zeta. destruct (body (definition st)) as [p|g] eqn:Eb.
  - by apply silent_eret.
  - destruct (embedded_schema_faults _) eqn:Es; [|fault_branch].
    destruct (boundary_differs _ _) eqn:Ed; [fault_branch|].
    apply silent_eret. split; [done|]. intros g' [= <-]. done.
Qed.

Lemma output_sources_adds (B : PortAddress → Prop) at_ ps :
  (∀ p, p ∈ ps → B (at_ p.(port_name))) → silent (output_sources at_ ps) (dict_ok B).
Proof.
  intros HB. unfold output_sources. apply silent_efold; [intros; grow|apply dict_ok_nil|].
  intros d p Hp Hd. eapply adds_bind_silent; [grow|intros; grow|apply silent_new_source|].
  intros s [Ha _]. apply silent_eret. apply dict_ok_set; [done|done|].
  intros s' ->%list_elem_of_singleton. rewrite Ha. by apply HB.
Qed.

Lemma retag_adds A declared d : dict_ok A d → silent (retag declared d) (dict_ok A).
Proof.
  intros Hd. unfold retag.
  eapply silent_weaken; [apply (silent_emap _ (λ x y : string * list Source, y.2 ≠ [] ∧ from A y.2))|].
  - intros; grow.
  - intros [n l] Hin. simpl. destruct (Hd n l Hin) as [Hne HA].
    destruct (Dict.get n declared) as [p|]; [|fault_branch].
    eapply adds_bind_silent; [grow|intros; grow| |].
    + apply (silent_emap _ (λ x y, y.(address) = x.(address))); [intros; grow|].
      intros s Hs. eapply silent_weaken; [apply silent_new_source|]. by intros s' [-> _].
    + intros l' Hl. apply silent_eret. simpl. split.
      * destruct Hl; [done|by intros [=]].
      * intros s' Hs'. revert HA. clear -Hl Hs'. intros HA. induction Hl as [|x y l l' Hxy _ IH];
          [by apply elem_of_nil in Hs'|].
        apply elem_of_cons in Hs' as [->|Hs']; [rewrite Hxy; apply HA; left|].
        apply IH; [done|]. intros z Hz. apply HA. by right.
  - intros d' Hall n l Hin. apply list_elem_of_lookup in Hin as [i Hi].
    destruct (Forall2_lookup_r _ _ _ _ _ Hall Hi) as (x & _ & Hx). done.
Qed.
End specs.

(** *** Grants *)
Lemma set_minus_nil l k : set_minus l k = [] ↔ l ⊆ k.
Proof.
  unfold set_minus. rewrite sorted_set_nil. split.
  - intros H x Hx. destruct (decide (x ∈ k)) as [|Hn]; [done|]. exfalso.
    assert (x ∈ filter (λ x, x ∉ k) l) as Hin by (by apply list_elem_of_filter).
    rewrite H in Hin. by apply elem_of_nil in Hin.
  - intros H. destruct (filter _ l) as [|x f] eqn:E; [done|]. exfalso.
    assert (x ∈ filter (λ x, x ∉ k) l) as Hin by (rewrite E; left).
    apply list_elem_of_filter in Hin as [Hn Hx]. by apply Hn, H.
Qed.

Lemma fault_if_run P `{Decision P} f c u c' : fault_if P f c = (Ok u, c') →
  (length c.(faults) ≤ length c'.(faults)) ∧ (length c'.(faults) ≤ length c.(faults) → ¬ P).
Proof.
  unfold fault_if, add_fault, modify, eret.
  case_decide; inversion 1; subst; simpl; rewrite ?length_app; simpl; split; try lia; done.
Qed.

(** Whatever is requested, the grants compiled for a child are within its parent's. *)
Lemma compile_grants_le parent request w c g c' :
  _compile_grants parent request w c = (Ok g, c') → grants_le g parent.
Proof.
  unfold _compile_grants. destruct request as [r|]; [|by intros [= <- _]]. cbv zeta.
  intros H. repeat (apply ebind_ok in H as (? & ? & ? & H)).
  unfold eret in H. destruct (_ <? _) eqn:Elt in H; [by injection H as <- _|]. apply Nat.ltb_ge in Elt.
  repeat match goal with
  | H : get ?s = (Ok ?a, ?s') |- _ => injection H as <- <-
  end.
  repeat match goal with
  | H : fault_if _ _ _ = _ |- _ => apply fault_if_run in H as [? ?]
  end.
  injection H as <- _. split; simpl.
  - intros Hw. destruct (posture parent) eqn:Ep; [|done]. exfalso.
    match goal with H : _ → ¬ (_ = WRITE ∧ READ = READ) |- _ => apply H; [lia|done] end.
  - destruct (gr_allowed_tools r) as [t|]; [|done]. simpl in *. apply set_minus_nil.
    apply dec_stable. intros Hne.
    match goal with H : _ → ¬ (_ ∧ set_minus t _ ≠ []) |- _ => apply H; [lia|done] end.
  - destruct (gr_env_allowlist r) as [t|]; [|done]. simpl in *. apply set_minus_nil.
    apply dec_stable. intros Hne.
    match goal with H : _ → ¬ (_ ∧ set_minus t _ ≠ []) |- _ => apply H; [lia|done] end.
  - unfold network_le. destruct (gr_network r) as [|[]]; try done.
    intros _. destruct (grant_network parent) eqn:En; [|done]. exfalso.
    match goal with H : _ → ¬ (_ ∧ NetNone = NetNone) |- _ => apply H; [lia|done] end.
  - destruct (gr_timeout_s r) as [t|]; [|done]. simpl in *.
    destruct (decide (timeout_s parent < t)%positive); [|by apply Pos.le_nlt]. exfalso.
    match goal with H : _ → ¬ (_ ∧ (_ < t)%positive) |- _ => apply H; [lia|done] end.
Qed.
Lemma fault_if_extends P `{Decision P} f c u c' :
  fault_if P f c = (Ok u, c') → extends c c' d_nil.
Proof.
  unfold fault_if, add_fault, modify, eret.
  case_decide; inversion 1; subst; [|apply extends_nil]. unfold extends. simpl. by rewrite !app_nil_r.
Qed.
Lemma compile_grants_adds parent request w :
  silent (_compile_grants parent request w) (λ g, grants_le g parent).
Proof.
  intros c g c' E _. exists d_nil. split; [|split; [done|by eapply compile_grants_le]].
  revert E. unfold _compile_grants. destruct request as [r|]; [|intros [= <- <-]; apply extends_nil].
  cbv zeta. intros H. repeat (apply ebind_ok in H as (? & ? & ? & H)).
  repeat match goal with
  | H : get ?s = (Ok ?a, ?s') |- _ => injection H as <- <-
  | H : fault_if _ _ _ = _ |- _ => apply fault_if_extends in H
  end.
  assert (∀ c1 c2 c3, extends c1 c2 d_nil → extends c2 c3 d_nil → extends c1 c3 d_nil) as Htr
    by (intros c1 c2 c3; apply (extends_trans c1 c2 c3 d_nil d_nil)).
  unfold eret in H. destruct (_ <? _) in H; injection H as _ <-; by eauto 10 using extends_nil.
Qed.

(** *** Atomic nodes *)
Section atomic.
Context (env : comp_env).

Lemma compiled_channel_adds def sc alias d :
  silent (_compiled_channel env def sc alias d) (λ _, True).
Proof.
  unfold _compiled_channel. cbv zeta.
  destruct (channel_incoherence _ _); [fault_branch|].
  destruct (channel_profile d), (cap_endpoint d);
    [|fault_branch|by apply silent_eret|by apply silent_eret].
  destruct (def_inputs def) as [|i [|]]; [fault_branch| |fault_branch].
  destruct (def_outputs def) as [|o [|]]; [fault_branch| |fault_branch].
  destruct (canonical_exchange_fault _ _ _); [fault_branch|by apply silent_eret].
Qed.
Lemma eiter_faults_adds {A} (f : A → fault) l :
  silent (eiter (λ x, add_fault (f x)) l) (λ _, l = []).
Proof.
  destruct l as [|x l]; [by apply silent_eret|]. simpl. fault_branch.
Qed.

(** What one granted alias seals. *)
Lemma bind_capability_adds def sc g ai :
  adds (bind_capability env def sc g ai) (λ _ d, ∃ b, d = mkDelta [] [] [b] [] [] ∧
    b.(cap_scope) = sc ∧ b.(effective_grants) = g ∧ b.(binding) = ai.1).
Proof.
  destruct ai as [alias id]. unfold bind_capability.
  destruct (catalog env !! id) as [d|]; [|fault_branch].
  eapply (adds_bind_silent _ _ (λ _, True)); [unfold executor_faults; grow|intros; grow| |].
  { unfold executor_faults. eapply adds_bind_silent; [grow|intros; grow|apply eiter_faults_adds|].
    intros _ _. destruct (executor_prof d) as [p|]; [|by apply silent_eret].
    destruct (complete_policy p); [eapply silent_weaken; [apply eiter_faults_adds|done]|].
    destruct p; [|by apply silent_eret]. case_decide; [fault_branch|].
    destruct (negb _); [fault_branch|by apply silent_eret]. }
  intros _ _. eapply adds_bind_silent; [grow|intros; grow|apply silent_fault_if|].
  intros _ _. eapply adds_bind_silent; [grow|intros; grow|apply compiled_channel_adds|].
  intros ch _. eapply adds_weaken; [apply adds_add_cap_binding|].
  intros _ e ->. eexists. split; [done|]. done.
Qed.

(** The delta of a registered atomic node. *)
Definition node_binding (ls : ScopePath) (node : NodeId) (ps : string * list Source) :=
  mkBinding (NodePortAddress ls node ps.1) (addresses ps.2).
Lemma register_adds node def sc ls bound ref g :
  adds (_register_atomic env node def sc ls bound ref g) (λ out d, ∃ caps,
    d = mkDelta [] (node_binding ls (node_id node) <$> bound)
          (mkCapabilityBinding sc SELF_BINDING SELF_CAPABILITY "0" g None :: caps) [] [sc] ∧
    (∀ b, b ∈ caps → b.(cap_scope) = sc ∧ b.(effective_grants) = g) ∧
    dict_ok (λ a, ∃ p, p ∈ port_name <$> def.(def_outputs) ∧ a = NodePortAddress ls (node_id node) p) out).
Proof.
  unfold _register_atomic.
  eapply adds_bind; [grow|intros; grow| |].
  { apply (adds_eiter _ (λ l d, d = mkDelta [] (node_binding ls (node_id node) <$> l) [] [] []));
      [intros; grow|done|].
    intros l ps rest d _ ->. eapply adds_weaken; [apply adds_add_binding|].
    intros _ e ->. unfold d_app. simpl. by rewrite fmap_app. }
  intros _ d ->. eapply adds_bind; [grow|intros; grow| |].
  { apply adds_add_cap_binding. }
  cbv beta. intros _ d ->. eapply adds_bind; [grow|intros; grow| |].
  { apply (adds_eiter _ (λ _ d, ∃ caps, d = mkDelta [] [] caps [] [] ∧
      ∀ b, b ∈ caps → b.(cap_scope) = sc ∧ b.(effective_grants) = g)); [intros; grow| |].
    - exists []. split; [done|by intros b ?%elem_of_nil].
    - intros l x rest d _ (caps & -> & Hc). eapply adds_weaken; [apply bind_capability_adds|].
      intros _ e (b & -> & Hs & Hg & _). exists (caps ++ [b]). split; [done|].
      intros b' [?| ->%list_elem_of_singleton]%elem_of_app; auto. }
  cbv beta. intros _ d (caps & -> & Hcaps). eapply adds_bind; [grow|intros; grow| |].
  { apply adds_add_atomic_scope. }
  cbv beta. intros _ d ->. eapply adds_weaken;
    [apply (output_sources_adds (λ a, ∃ p, p ∈ port_name <$> def.(def_outputs) ∧ a = NodePortAddress ls (node_id node) p))|].
  { intros p Hp. exists (port_name p). split; [by apply list_elem_of_fmap_2|done]. }
  intros out d [-> Hout]. exists caps. split; [|done].
  unfold d_app. simpl. by rewrite !app_nil_r.
Qed.

(** Recording and registering one atomic node is sound. *)
Lemma good_atomic A node ls ports bound sc g gr depth r caps :
  sc = child ls (node_id node) → inputs_ok A ports bound → grants_le g gr →
  r.(res_scope) = sc → resolved_from env r →
  (∀ b, b ∈ caps → b.(cap_scope) = sc ∧ b.(effective_grants) = g) →
  good env A (under sc) gr depth
    (mkDelta [r] (node_binding ls (node_id node) <$> bound)
       (mkCapabilityBinding sc SELF_BINDING SELF_CAPABILITY "0" g None :: caps) [] [sc]).
Proof.
  intros -> (Hd & Hnd & _) Hg Hr Hfrom Hcaps. split; simpl; try done.
  - intros b [->|Hb]%elem_of_cons; [done|]. by destruct (Hcaps b Hb) as [_ ->].
  - intros b [->|Hb]%elem_of_cons; [left|]. destruct (Hcaps b Hb) as [-> _]. left.
  - intros s ->%list_elem_of_singleton. eexists. split; [left|]. done.
  - apply NoDup_singleton.
  - intros r' ->%list_elem_of_singleton. rewrite Hr. apply under_refl.
  - by intros r' ->%list_elem_of_singleton.
  - apply NoDup_singleton.
  - intros s ->%list_elem_of_singleton. rewrite <-Hr. left.
  - constructor.
  - by intros l ?%elem_of_nil.
  - by intros l ?%elem_of_nil.
  - rewrite <-list_fmap_compose.
    assert (destination ∘ node_binding ls (node_id node) <$> bound
      = NodePortAddress ls (node_id node) <$> Dict.keys bound) as ->.
    { unfold Dict.keys. by rewrite <-list_fmap_compose. }
    apply NoDup_fmap; [by intros p q [=]|done].
  - intros b ([p l] & -> & Hin)%list_elem_of_fmap. destruct (Hd p l Hin) as [Hne HA]. split.
    + split; simpl; [by destruct l|].
      intros a (s & -> & Hs)%list_elem_of_fmap. left. by apply HA.
    + exists ls, (node_id node), p. split; [done|left].
Qed.
End atomic.

(** *** Loops *)
Lemma with_members_adds {A} (m : M A) Φ :
  grows m → adds m Φ → adds (with_members m) (λ al d, Φ al.1 d ∧ al.2 = d_atomic d).
Proof.
  intros G H c [a l] c'. unfold with_members, ebind, get, eret. simpl.
  destruct (m c) as [[a'|e] c1] eqn:E; [|done]. intros [= <- <- <-] F.
  destruct (H _ _ _ E F) as (d & X & HΦ). exists d. split; [done|]. split; [done|]. simpl.
  destruct X as (_ & _ & _ & _ & ->). by rewrite drop_app_length.
Qed.

Lemma not_or (P Q : Prop) : ¬ (P ∨ Q) → ¬ P ∧ ¬ Q.
Proof. tauto. Qed.

Section loop_specs.
Context (env : comp_env).

Lemma loop_ports_adds b bscope : silent (loop_ports env b bscope) (λ r, is_Some r).
Proof.
  unfold loop_ports. destruct b as [r|g]; [|by apply silent_eret].
  eapply adds_bind_silent; [grow|intros; grow|apply resolve_ref_adds|].
  intros ? (st & -> & _). eapply adds_bind_silent; [grow|intros; grow|apply boundary_lies_adds|].
  intros lies [-> _]. by apply silent_eret.
Qed.
Lemma check_feedback_adds sc ins outs io : silent (check_feedback sc ins outs io) (λ _, True).
Proof.
  destruct io as [i o]. unfold check_feedback. cbv zeta.
  eapply adds_bind_silent; [grow|intros; grow|apply silent_fault_if|]. intros _ _.
  eapply adds_bind_silent; [grow|intros; grow|apply silent_fault_if|]. intros _ _.
  destruct (Dict.get i ins), (Dict.get o outs); try by apply silent_eret.
  eapply adds_bind_silent; [grow|intros; grow|apply silent_fault_if|]. intros _ _.
  eapply silent_weaken; [apply silent_fault_if|done].
Qed.
Lemma check_continue_adds sc outs n : silent (check_continue sc outs n) (λ _, ∃ p,
  Dict.get n outs = Some p ∧ p.(type_id) = CONTINUE_TYPE ∧
  p.(schema_hash) = CONTINUE_SCHEMA_HASH ∧ p.(port_cardinality) = CardOne).
Proof.
  unfold check_continue. destruct (Dict.get n outs) as [p|]; [|fault_branch].
  eapply silent_weaken; [apply silent_fault_if|]. intros ? Hn. exists p.
  split; [done|]. apply not_or in Hn as [H1 [H2 H3]%not_or].
  split; [by apply dec_stable|]. split; by apply dec_stable.
Qed.

Definition boundary_inv (A : PortAddress → Prop) (bscope : ScopePath)
    (acc : list ResolvedPortBinding * source_dict) : Prop :=
  (∀ b, b ∈ acc.1 → sources_known A b ∧ ∃ p, b.(destination) = GraphInputAddress bscope p) ∧
  dict_ok (λ a, ∃ b, b ∈ acc.1 ∧ b.(destination) = a) acc.2.
Lemma addresses_from A l : l ≠ [] → from A l →
  addresses l ≠ [] ∧ ∀ a, a ∈ addresses l → A a.
Proof.
  intros Hne HA. split; [by destruct l|]. intros a (s & -> & Hs)%list_elem_of_fmap. by apply HA.
Qed.
Lemma loop_boundary_adds A bscope bound acc p :
  dict_ok A bound → boundary_inv A bscope acc →
  silent (loop_boundary bscope bound acc p) (boundary_inv A bscope).
Proof.
  intros Hbound [Hb Hd]. unfold loop_boundary. cbv zeta.
  destruct (Dict.get _ bound) as [l|] eqn:E; [|by apply silent_eret].
  apply Dict.get_elem in E. destruct (Hbound _ _ E) as [Hne HA].
  eapply adds_bind_silent; [grow|intros; grow|apply silent_new_source|].
  intros s [Hs _]. apply silent_eret. split; simpl.
  - intros b [?| ->%list_elem_of_singleton]%elem_of_app; [by apply Hb|]. split; [|by eexists].
    by apply addresses_from.
  - apply dict_ok_set; [|done|].
    + eapply dict_ok_weaken; [|exact Hd]. intros a (b & Hin & Ha). exists b.
      split; [apply elem_of_app; by left|done].
    + intros s' ->%list_elem_of_singleton. rewrite Hs. eexists.
      split; [apply elem_of_app; right; left|done].
Qed.

Lemma loop_feedback_adds B ls bs ins outs body_outputs acc io :
  dict_ok B body_outputs →
  (∀ b, b ∈ acc → sources_known B b ∧ ∃ p, b.(destination) = GraphInputAddress bs p) →
  silent (loop_feedback ls bs ins outs body_outputs acc io)
    (λ acc, ∀ b, b ∈ acc → sources_known B b ∧ ∃ p, b.(destination) = GraphInputAddress bs p).
Proof.
  intros Hd Hacc. destruct io as [i o]. unfold loop_feedback.
  destruct (negb _); [by apply silent_eret|].
  pose proof (from_get B body_outputs o Hd) as HB.
  destruct (Dict.get_or o [] body_outputs) as [|s [|]]; [by apply silent_eret| |fault_branch].
  apply silent_eret. intros b [?| ->%list_elem_of_singleton]%elem_of_app; [by apply Hacc|].
  split; [|by eexists]. apply (addresses_from B [s]); done.
Qed.

Definition export_inv (B : PortAddress → Prop) (ls : ScopePath) (node : NodeId)
    (acc : list LoopExport * source_dict) : Prop :=
  (∀ e, e ∈ acc.1 → e.(export_sources) ≠ [] ∧ (∀ a, a ∈ e.(export_sources) → B a) ∧
     ∃ p, e.(export_destination) = NodePortAddress ls node p) ∧
  dict_ok (λ a, ∃ e, e ∈ acc.1 ∧ e.(export_destination) = a) acc.2.
Lemma loop_export_adds B ls node cf body_outputs acc p :
  dict_ok B body_outputs → export_inv B ls node acc →
  silent (loop_export ls node cf body_outputs acc p) (export_inv B ls node).
Proof.
  intros Hd [He Hacc]. unfold loop_export. case_decide; [by apply silent_eret|]. cbv zeta.
  pose proof (from_get B body_outputs (port_name p) Hd) as HB.
  destruct (Dict.get_or _ [] body_outputs) as [|s l]; [by apply silent_eret|].
  eapply adds_bind_silent; [grow|intros; grow|apply silent_new_source|].
  intros s' [Hs _]. apply silent_eret. split; simpl.
  - intros e [?| ->%list_elem_of_singleton]%elem_of_app; [by apply He|].
    destruct (addresses_from B (s :: l)) as [Hne HBa]; [done..|]. simpl. eauto.
  - apply dict_ok_set; [|done|].
    + eapply dict_ok_weaken; [|exact Hacc]. intros a (e & Hin & Ha). exists e.
      split; [apply elem_of_app; by left|done].
    + intros s2 ->%list_elem_of_singleton. rewrite Hs. eexists.
      split; [apply elem_of_app; right; left|done].
Qed.
Lemma continue_adds B sc (outs : list (string * Port)) name bs body_outputs :
  dict_ok B body_outputs →
  silent (match Dict.get_or name [] body_outputs with
          | [s] => eret s.(address)
          | _ => fault_if (is_Some (Dict.get name outs)) (FContinueSourceCount sc name);;;
                 eret (GraphInputAddress bs name)
          end) (λ a, is_Some (Dict.get name outs) → B a).
Proof.
  intros Hd. pose proof (from_get B body_outputs name Hd) as HB.
  destruct (Dict.get_or name [] body_outputs) as [|s [|]];
    [|apply silent_eret; intros _; apply HB; left|];
    (eapply adds_bind_silent; [grow|intros; grow|apply silent_fault_if|]);
    intros ? Hn; apply silent_eret; done.
Qed.
End loop_specs.

(** ** The induction over the compiler *)
Section main.
Context (env : comp_env).

Definition args_ok (A : PortAddress → Prop) (a : node_args) : Prop :=
  from A a.(pool) ∧ nodes_ok A a.(node_lookup) ∧ dict_ok A a.(input_sources).

Definition graph_spec (rec : Graph → ScopePath → source_dict → EffectiveGrants → nat →
    GraphLocation → M source_dict) : Prop := ∀ g s inputs gr depth loc A,
  dict_ok A inputs →
  adds (rec g s inputs gr depth loc) (λ out d,
    good env A (strictly_under s) gr depth d ∧ dict_ok (known env A d) out ∧ admissible depth g).
Definition node_spec (rec : GraphNode → node_args → M source_dict) : Prop := ∀ node a A,
  args_ok A a →
  adds (rec node a) (λ out d,
    good env A (under (child a.(level_scope) (node_id node))) a.(grants) a.(loop_depth) d ∧
    dict_ok (known env A d) out ∧ admissible_body a.(loop_depth) (node_body_of node)).
Definition loop_spec (rec : GraphNode → Loop → node_args → M source_dict) : Prop := ∀ node l a A,
  a.(loop_depth) = O → args_ok A a →
  adds (rec node l a) (λ out d,
    good env A (under (child a.(level_scope) (node_id node))) a.(grants) O d ∧
    dict_ok (known env A d) out ∧ admissible_body O (BLoop l)).

Lemma bind_inputs_adds A node ps a fb b :
  args_ok A a → silent (bind_inputs node ps a fb b) (inputs_ok A ps).
Proof. intros (? & ? & ?). by apply bind_node_inputs_adds. Qed.

Section rec.
Context (cn : GraphNode → node_args → M source_dict)
  (cg : Graph → ScopePath → source_dict → EffectiveGrants → nat → GraphLocation → M source_dict)
  (cl : GraphNode → Loop → node_args → M source_dict).
Context (Gn : ∀ n a, grows (cn n a)) (Gg : ∀ g s i gr d l, grows (cg g s i gr d l))
  (Gl : ∀ n l a, grows (cl n l a)).
Context (Hn : node_spec cn) (Hg : graph_spec cg) (Hl : loop_spec cl).

Lemma good_record A node ls gr depth r d :
  r.(res_scope) = child ls node → resolved_from env r →
  good env A (strictly_under (child ls node)) gr depth d →
  good env A (under (child ls node)) gr depth (mkDelta [r] [] [] [] [] ⊕ d).
Proof.
  intros Hr Hfrom Hd.
  assert (good env A (λ s, s = child ls node) gr depth (mkDelta [r] [] [] [] [])) as H1.
  { split; simpl; try (by intros ? ?%elem_of_nil); try constructor; try done.
    - by apply not_elem_of_nil.
    - constructor.
    - by intros r' ->%list_elem_of_singleton.
    - by intros r' ->%list_elem_of_singleton. }
  eapply good_weaken; [done| |reflexivity|eapply (good_app _ _ _ (strictly_under (child ls node)));
    [|exact H1|]].
  - intros s [->|Hs]; [apply under_refl|by apply strictly_under_under].
  - intros s -> Hs. by apply strictly_under_irrefl in Hs.
  - eapply good_weaken; [|done|reflexivity|exact Hd]. intros a Ha. by left.
Qed.

Lemma compile_ref_adds node ref a A : args_ok A a →
  adds (compile_ref env cg node ref a) (λ out d,
    good env A (under (child a.(level_scope) (node_id node))) a.(grants) a.(loop_depth) d ∧
    dict_ok (known env A d) out).
Proof.
  intros Ha. unfold compile_ref. cbv zeta.
  eapply adds_bind_silent; [grow|intros; unfold bind_inputs; grow; apply Gg|apply resolve_ref_adds|].
  intros ? (st & -> & Hsel). cbv iota.
  eapply adds_bind_silent; [grow|intros; unfold bind_inputs; grow; apply Gg
    |apply compile_grants_adds|].
  intros g Hgr. eapply adds_bind; [grow|intros; unfold bind_inputs; grow; apply Gg
    |apply record_adds|].
  intros _ d (r & -> & Hscope & Hreq & Hver & Hname & Hcon).
  assert (resolves env r ref st) as Hres by (unfold resolves; rewrite Hscope; by split_and!).
  assert (resolved_from env r) as Hfrom by (by exists ref, st).
  eapply adds_bind_silent; [unfold bind_inputs; grow|intros; grow; apply Gg
    |by apply (bind_inputs_adds A)|].
  intros bound Hb. destruct (body (definition st)) as [p|g'] eqn:Ebody.
  - eapply adds_weaken; [apply register_adds|].
    intros out d (caps & -> & Hcaps & Hout). split.
    + by apply (good_atomic env A node _ (def_inputs (definition st)) bound).
    + eapply dict_ok_weaken; [|exact Hout]. intros ad (p' & Hp' & ->). right. left. split; [left|].
      exists r, ref, st, p. by split_and!; [left|..].
  - eapply adds_bind_silent; [grow|intros; grow; apply Gg|apply boundary_lies_adds|].
    intros lies [-> _]. cbv iota.
    eapply adds_bind_silent; [grow|intros; apply Gg|apply retag_adds; apply Hb|].
    intros retagged Hret. eapply adds_weaken; [by apply (Hg _ _ _ _ _ _ A)|].
    intros out d (Hgood & Hout & _). split.
    + apply good_record; [done|done|]. eapply good_weaken; [done|done|exact Hgr|exact Hgood].
    + eapply dict_ok_weaken; [|exact Hout]. intros ad [|Hm]; [by left|].
      right. by apply made_app_r.
Qed.

Lemma compile_node_body_spec : node_spec (compile_node_body env cg cl).
Proof.
  intros node a A Ha. unfold compile_node_body. cbv zeta.
  destruct (node_body_of node) as [r|g|l] eqn:Eb.
  - eapply adds_weaken; [by apply (compile_ref_adds node r a A)|].
    intros out d [? ?]. split_and!; [done|done|constructor].
  - eapply adds_bind_silent; [unfold bind_inputs; grow|intros; apply Gg|by apply (bind_inputs_adds A)|].
    intros bound (Hb & _). eapply adds_weaken; [by apply (Hg _ _ _ _ _ _ A)|].
    intros out d (Hgood & Hout & Hadm). split_and!; [|done|by constructor].
    eapply good_weaken; [done| |reflexivity|exact Hgood]. apply strictly_under_under.
  - case_decide as Hd; [fault_branch|].
    eapply adds_weaken; [by apply (Hl _ _ _ A)|]. rewrite Hd. done.
Qed.

(** *** One loop *)
Lemma loop_body_adds A a bscope boundary l :
  a.(loop_depth) = O → dict_ok A boundary →
  adds (compile_loop_members cn cg l bscope boundary a) (λ out d,
    good env A (strictly_under bscope) a.(grants) 1 d ∧ dict_ok (known env A d) out ∧
    admissible_body O (BLoop l)).
Proof.
  intros Hd Hb. unfold compile_loop_members. destruct l as [[r|g] f c m]; cbn [lp_body].
  - eapply adds_weaken; [apply (Hn _ _ A)|].
    + split_and!; [by apply from_all_sources|apply nodes_ok_nil|done].
    + intros out d (Hgood & Hout & _). split_and!; [|done|constructor].
      eapply good_weaken; [done| |reflexivity|exact Hgood]. apply strictly_under_child.
  - eapply adds_weaken; [by apply (Hg _ _ _ _ _ _ A)|].
    intros out d (Hgood & Hout & Hadm). split_and!; [done|done|by constructor].
Qed.

(** Closing a body into its loop. *)
Lemma good_loop A ls gr d l (B : PortAddress → Prop) :
  l.(body_scope) = child l.(loop_scope) LOOP_BODY_SEGMENT → l.(loop_scope) = ls →
  (∀ a, B a → ∃ b, b ∈ l.(initial_bindings) ∧ b.(destination) = a ∧
     ∃ p, a = GraphInputAddress l.(body_scope) p) →
  good env B (strictly_under l.(body_scope)) gr 1 d →
  loop_ok env A (d ⊕ mkDelta [] [] [] [l] []) l →
  good env A (under ls) gr O (d ⊕ mkDelta [] [] [] [l] []).
Proof.
  intros Hbs Hls HB [Hgr Hcs Hself Hrn Hrs Hrf Han Har Hln Hlsc Hld Hl' Hdn Hb] Hok.
  assert (d_loops d = []) as Hnol by (destruct (d_loops d); [done|by discriminate Hld]).
  assert (∀ s, strictly_under l.(body_scope) s → under ls s) as Hund.
  { intros s Hs%strictly_under_under. rewrite Hbs, Hls in Hs. eapply under_trans; [apply under_child|done]. }
  assert (∀ a, known env B d a → known env A (d ⊕ mkDelta [] [] [] [l] []) a) as Hk.
  { intros a [Ha|Ha]; right; [|by apply made_app_l].
    apply HB in Ha as (b & Hin & Hda & p & ->). exists l, b.
    split_and!; [apply elem_of_app; right; left|done..]. }
  split; simpl; rewrite ?app_nil_r; try done.
  - intros r Hr. by apply Hund, Hrs.
  - rewrite Hnol. apply NoDup_singleton.
  - rewrite Hnol. intros l2 ->%list_elem_of_singleton. rewrite Hls. apply under_refl.
  - rewrite Hnol. by intros l2 ->%list_elem_of_singleton.
  - intros b Hin. destruct (Hb b Hin) as [Hs Hd]. split; [|done].
    by eapply sources_known_mono.
Qed.

Ltac grow_loop := intros; unfold loop_ports, check_feedback, check_continue, loop_boundary,
  loop_feedback, loop_export, bind_inputs; grow; try (apply grows_with_members; eauto).
Lemma compile_loop_body_spec : loop_spec (compile_loop_body env cn cg).
Proof.
  intros node l a A Hdepth Ha. unfold compile_loop_body. cbv zeta.
  set (lscope := child (level_scope a) (node_id node)).
  set (bscope := child lscope LOOP_BODY_SEGMENT).
  assert (∀ bs b l a, grows (compile_loop_members cn cg l bs b a)) as Gm
    by (intros; unfold compile_loop_members; grow).
  eapply adds_bind_silent; [grow_loop|grow_loop|apply loop_ports_adds|].
  intros ? [[ins outs] ->]. cbv iota.
  eapply adds_bind_silent; [grow_loop|grow_loop|apply unique_ports_adds|]. intros _ _.
  eapply adds_bind_silent; [grow_loop|grow_loop|apply unique_ports_adds|]. intros _ _.
  eapply (adds_bind_silent _ _ (λ _, True)); [grow_loop|grow_loop| |].
  { eapply adds_weaken; [apply (adds_eiter _ (λ _ d, d = d_nil)); [grow_loop|done|]|done].
    intros done_ io rest d _ ->. eapply adds_weaken; [apply check_feedback_adds|].
    by intros ? e [-> _]. }
  intros _ _.
  eapply adds_bind_silent; [grow_loop|grow_loop|apply check_continue_adds|].
  intros ? (cp & Hcp & _).
  eapply adds_bind_silent; [grow_loop|grow_loop|by apply (bind_inputs_adds A)|].
  intros bound (Hbound & _).
  eapply adds_bind_silent; [grow_loop|grow_loop| |].
  { apply (silent_efold _ (boundary_inv A bscope)); [grow_loop| |].
    - split; [by intros b ?%elem_of_nil|apply dict_ok_nil].
    - intros acc p _ Hacc. by apply loop_boundary_adds. }
  intros [initial boundary] [Hinit Hbd]. simpl in Hinit, Hbd. cbv beta iota.
  eapply adds_bind; [grow_loop|grow_loop|apply with_members_adds; [grow_loop|];
    by apply loop_body_adds|].
  intros [body_outputs members] d [(Hgood & Hout & Hadm) Hmem]. simpl in Hgood, Hout, Hmem.
  cbv beta iota. set (K := known env (λ a, ∃ b, b ∈ initial ∧ b.(destination) = a) d) in *.
  eapply adds_bind_silent; [grow_loop|grow_loop|apply silent_fault_if|]. intros ? Hne.
  eapply adds_bind_silent; [grow_loop|grow_loop| |].
  { apply (silent_efold _ (λ acc, ∀ b, b ∈ acc → sources_known K b ∧
      ∃ p, b.(destination) = GraphInputAddress bscope p)); [grow_loop| |].
    - by intros b ?%elem_of_nil.
    - intros acc io _ Hacc. by apply loop_feedback_adds. }
  intros fed Hfed.
  eapply adds_bind_silent; [grow_loop|grow_loop|by apply (continue_adds K)|].
  intros cs Hcs. assert (K cs) as Hcs' by (apply Hcs; by rewrite Hcp). clear Hcs.
  eapply adds_bind_silent; [grow_loop|grow_loop| |].
  { apply (silent_efold _ (export_inv K (level_scope a) (node_id node))); [grow_loop| |].
    - split; [by intros e ?%elem_of_nil|apply dict_ok_nil].
    - intros acc p _ Hacc. by apply loop_export_adds. }
  intros [exported outer] [Hexp Houter]. simpl in Hexp, Houter. cbv beta iota.
  eapply adds_bind; [grow_loop|grow_loop|apply adds_add_loop|].
  cbv beta. intros ? e ->. apply adds_eret. rewrite d_app_nil_r.
  set (lr := mkLoopResolution _ _ _ _ _ _ _ _ _).
  assert (∀ a, K a → known env A (d ⊕ mkDelta [] [] [] [lr] []) a) as Hk.
  { intros ad [(b & Hin & Hda)|Hm]; right; [|by apply made_app_l].
    destruct (Hinit b Hin) as (_ & p & Hp). rewrite Hp in Hda. subst ad.
    exists lr, b. split_and!; [apply elem_of_app; right; left|done..]. }
  split_and!; [| |done].
  - eapply (good_loop A lscope _ d lr _); [done|done| |exact Hgood|].
    + intros ad (b & Hin & Hda). exists b. split; [done|]. split; [done|].
      destruct (Hinit b Hin) as (_ & p & Hp). exists p. by rewrite <-Hda.
    + split; simpl; [done| | | | |].
      * rewrite Hmem, app_nil_r. split_and!; [by rewrite <-Hmem|done|].
        intros m Hm%(g_atomic_res _ _ _ _ _ _ Hgood).
        apply list_elem_of_fmap in Hm as (r & -> & Hr). by apply (g_res_scope _ _ _ _ _ _ Hgood).
      * intros b Hin. destruct (Hinit b Hin) as (Hs & Hp). split; [|done].
        eapply sources_known_mono; [|exact Hs]. intros ad. by left.
      * intros b Hin. destruct (Hfed b Hin) as (Hs & Hp). split; [|done].
        by eapply sources_known_mono.
      * by apply Hk.
      * intros e Hin. destruct (Hexp e Hin) as (Hs & HB & p & Hp). split_and!; [done|auto|].
        rewrite Hp. eauto.
  - intros n l' Hin. destruct (Houter n l' Hin) as [Hne' Hfrom]. split; [done|].
    intros s Hs. destruct (Hfrom s Hs) as (e & Hine & Hde). right.
    destruct (Hexp e Hine) as (_ & _ & p & Hp). rewrite Hp in Hde. rewrite <-Hde. right.
    exists lr, e. split_and!; [apply elem_of_app; right; left|done..].
Qed.

(** *** One graph level *)
Lemma compile_output_adds B sc loc np ip outputs iport :
  from B np → from B ip → dict_ok B outputs →
  silent (compile_output sc loc np ip outputs iport) (dict_ok B).
Proof.
  intros Hnp Hip Hd. destruct iport as [i p]. unfold compile_output. cbv zeta.
  set (pl := match filter _ np with [] => ip | _ => np end).
  assert (from B pl) as Hpl by (unfold pl; by destruct (filter _ np)).
  eapply adds_bind_silent; [grow|intros; grow|apply bind_port_adds|].
  intros [bound|] Hb; [|by apply silent_eret]. destruct Hb as (Hne & Hin & _).
  eapply adds_bind_silent; [grow|intros; grow| |].
  { apply (silent_emap _ (λ x y, y.(address) = x.(address))); [intros; grow|].
    intros s _. eapply silent_weaken; [apply silent_new_source|]. by intros s' [-> _]. }
  intros l' Hall. apply silent_eret. apply dict_ok_set; [done|by destruct Hall|].
  intros s' Hs'. apply list_elem_of_lookup in Hs' as [k Hk].
  destruct (Forall2_lookup_r _ _ _ _ _ Hall Hk) as (x & Hx & ->).
  by apply Hpl, Hin, (list_elem_of_lookup_2 _ k).
Qed.

Definition nodes_region (sc : ScopePath) (done_ : list GraphNode) (t : ScopePath) : Prop :=
  ∃ n, n ∈ done_ ∧ under (child sc (node_id n)) t.
Definition nodes_inv (A : PortAddress → Prop) (sc : ScopePath) (gr : EffectiveGrants)
    (depth : nat) (done_ : list GraphNode) (outs : node_dict) (d : delta) : Prop :=
  good env A (nodes_region sc done_) gr depth d ∧ nodes_ok (known env A d) outs ∧
  ∀ n, n ∈ done_ → admissible_body depth (node_body_of n).

Lemma compile_one_node_adds A g sc inputs gr depth loc upstream done_ node rest outs d :
  dict_ok A inputs → NoDup (node_id <$> done_ ++ node :: rest) →
  nodes_inv A sc gr depth done_ outs d →
  adds (compile_one_node cn g sc inputs gr depth loc upstream outs node)
    (λ outs' e, nodes_inv A sc gr depth (done_ ++ [node]) outs' (d ⊕ e)).
Proof.
  intros Hin Hnd (Hgood & Houts & Hadm). unfold compile_one_node. cbv zeta.
  eapply adds_bind; [apply Gn|intros; grow|apply (Hn _ _ (known env A d))|].
  - split_and!; simpl; [|done|].
    + intros s [(name & Hs & Hname)%list_elem_of_bind|Hs]%elem_of_app.
      * revert Hs. apply from_all_sources. by apply dict_ok_get.
      * left. revert Hs. by apply from_all_sources.
    + eapply dict_ok_weaken; [|exact Hin]. by left.
  - simpl. intros out e (Hge & Hout & Hab). apply adds_eret. rewrite d_app_nil_r. split_and!.
    + eapply good_weaken; [done| |reflexivity|].
      2: { eapply (good_app _ _ (nodes_region sc done_) (under (child sc (node_id node))));
        [|exact Hgood|exact Hge].
        intros t (n & Hnin & Ht) Ht'. pose proof (under_child_disjoint _ _ _ _ Ht Ht') as Heq.
        rewrite fmap_app, fmap_cons in Hnd. apply NoDup_app in Hnd as (_ & Hdis & _).
        apply (Hdis (node_id n)); [by apply list_elem_of_fmap_2|]. rewrite Heq. left. }
      intros t [(n & Hnin & Ht)|Ht]; [exists n|exists node]; (split; [apply elem_of_app|done]).
      * by left.
      * right; left.
    + intros n o [?|Ho]%Dict.elem_of_set.
      * simplify_eq. eapply dict_ok_weaken; [|exact Hout]. intros a. apply known_app_r.
      * eapply dict_ok_weaken; [|by eapply Houts]. intros a. apply known_app_l.
    + intros n [?| ->%list_elem_of_singleton]%elem_of_app; auto.
Qed.

Ltac grow_graph := intros; unfold compile_one_node, compile_output; grow.
Lemma compile_graph_body_spec : graph_spec (compile_graph_body cn).
Proof.
  intros g s inputs gr depth loc A Hin. unfold compile_graph_body. cbv zeta.
  eapply adds_bind_silent; [grow_graph|grow_graph|apply endpoints_adds|].
  intros valid Hval. destruct valid; [|simpl; fault_branch]. specialize (Hval eq_refl). simpl.
  eapply adds_bind_silent; [grow_graph|grow_graph|apply reject_cycles_adds|].
  intros ? Hac. specialize (Hac Hval).
  eapply adds_bind_silent; [grow_graph|grow_graph|apply unique_ports_adds|]. intros ? Hni.
  eapply adds_bind_silent; [grow_graph|grow_graph|apply unique_ports_adds|]. intros ? Hno.
  eapply adds_bind_silent; [grow_graph|grow_graph|apply silent_lift_topo|]. intros up Hup. cbv beta in Hup.
  eapply adds_bind_silent; [grow_graph|grow_graph|apply silent_lift_topo|]. intros ord Hord.
  cbv beta in Hord.
  destruct (upstream_closure_spec g Hval Hac) as (up' & Hup' & Hok & Hall).
  assert (up' = up) as -> by congruence.
  destruct (decide (NoDup (node_ids g))) as [Hnd|Hnd];
    [|by rewrite (ordered_nodes_duplicate _ _ Hnd) in Hord].
  destruct (ordered_nodes_spec g Hval Hac Hnd up Hok Hall) as (ord' & Hord' & Hperm & _).
  assert (ord' = ord) as -> by congruence.
  eapply (adds_bind _ _ (λ outs d, nodes_inv A s gr depth ord outs d)); [grow_graph|grow_graph| |].
  { apply (adds_efold _ (nodes_inv A s gr depth)); [grow_graph| |].
    - split_and!; [apply good_nil|apply nodes_ok_nil|by intros n ?%elem_of_nil].
    - intros done_ n rest outs d Heq Hinv. eapply compile_one_node_adds; [done| |done].
      rewrite <-Heq. unfold node_ids in Hnd. by rewrite Hperm. }
  intros outs d (Hgood & Houts & Hadm).
  eapply adds_weaken; [apply (silent_efold _ (dict_ok (known env A d))); [grow_graph|apply dict_ok_nil|]|].
  - intros acc ip _ Hacc. apply compile_output_adds; [| |done].
    + intros x (o & Hx & Ho)%list_elem_of_bind. revert Hx. apply from_all_sources.
      unfold Dict.values in Ho. apply list_elem_of_fmap in Ho as ([n o'] & -> & Hin'). by eapply Houts.
    + intros x Hx. left. revert Hx. by apply from_all_sources.
  - intros out e [-> Hout]. rewrite d_app_nil_r. split_and!; [|done|].
    + eapply good_weaken; [done| |reflexivity|exact Hgood].
      intros t (n & _ & Ht). by eapply strictly_under_child.
    + constructor; try done. intros n Hn'. apply Hadm. by rewrite Hperm.
Qed.
End rec.

Lemma compile_spec fuel :
  graph_spec (_compile_graph env fuel) ∧ node_spec (_compile_node env fuel) ∧
  loop_spec (_compile_loop env fuel).
Proof.
  induction fuel as [|fuel (IHg & IHn & IHl)].
  { split; [|split].
    - intros g s i gr d l A _. apply adds_raise.
    - intros n a A _. apply adds_raise.
    - intros n l a A _ _. apply adds_raise. }
  split; [|split].
  - exact (compile_graph_body_spec _ (grows_compile_node env fuel) IHn).
  - exact (compile_node_body_spec _ _ (grows_compile_graph env fuel) IHg IHl).
  - exact (compile_loop_body_spec _ _ (grows_compile_node env fuel)
      (grows_compile_graph env fuel) IHn IHg).
Qed.
End main.

(** ** A whole admission *)
Definition root_known (g : Graph) (supplied : list string) (a : PortAddress) : Prop :=
  ∃ p, a = GraphInputAddress (mkScope [graph_name g]) p ∧ p ∈ supplied ∧
       p ∈ port_name <$> graph_inputs g.

(** Everything a run without faults has compiled. *)
Record admitted (g : Graph) (env : comp_env) (root_grants : EffectiveGrants)
    (supplied : list string) (d : delta) (outs : list ResolvedPortBinding) : Prop := {
  ad_good : good env (root_known g supplied) (strictly_under (mkScope [graph_name g])) root_grants O d;
  ad_graph : admissible O g;
  ad_inputs : required_inputs g ⊆ supplied ∧ supplied ⊆ port_name <$> graph_inputs g;
  ad_outs : ∀ b, b ∈ outs → sources_known (known env (root_known g supplied) d) b ∧
    ∃ p, b.(destination) = GraphOutputAddress (mkScope [graph_name g]) p;
  ad_outs_nodup : NoDup (destination <$> outs);
}.

Lemma grows_check_run_inputs g supplied : grows (check_run_inputs g supplied).
Proof. unfold check_run_inputs. cbv zeta. grow. Qed.
Lemma grows_check_unused lock : grows (check_unused_pins lock).
Proof. unfold check_unused_pins. grow. Qed.
Lemma grows_bind_root g r o : grows (bind_root_outputs g r o).
Proof. unfold bind_root_outputs. grow. Qed.
#[export] Hint Resolve grows_check_run_inputs grows_check_unused grows_bind_root : keeps.

Lemma check_unused_adds lock : silent (check_unused_pins lock) (λ _, True).
Proof.
  unfold check_unused_pins. destruct lock as [lock|]; [|by apply silent_eret].
  intros c u c' E F. unfold ebind, get in E. simpl in E.
  destruct (py_sorted _ _) as [|s l] in E.
  - simpl in E. injection E as _ <-. exists d_nil. split; [apply extends_nil|done].
  - exfalso. simpl in E. destruct (Dict.get s lock) as [pin|]; [|done].
    unfold ebind at 1 in E. simpl in E.
    match type of E with eiter ?f l ?c0 = _ =>
      assert (grows (eiter f l)) as G by (apply keeps_eiter; [apply _|]; intros; grow);
      pose proof (grows_run _ _ _ _ G E) as P end.
    simpl in P. rewrite F in P. destruct P as [k Hk]. apply (f_equal length) in Hk.
    rewrite !length_app in Hk. simpl in Hk. lia.
Qed.
Lemma bind_root_adds B g r outs :
  NoDup (port_name <$> graph_outputs g) → dict_ok B outs →
  adds (bind_root_outputs g r outs) (λ _ d, ∃ bs, d = mkDelta [] bs [] [] [] ∧
    (∀ b, b ∈ bs → sources_known B b ∧ ∃ p, b.(destination) = GraphOutputAddress r p) ∧
    NoDup (destination <$> bs)).
Proof.
  intros Hnd Hd. unfold bind_root_outputs.
  eapply adds_weaken; [apply (adds_eiter _ (λ ps d, ∃ bs, d = mkDelta [] bs [] [] [] ∧
    (∀ b, b ∈ bs → sources_known B b ∧
       ∃ p, b.(destination) = GraphOutputAddress r p ∧ p ∈ port_name <$> ps) ∧
    NoDup (destination <$> bs)))|].
  - intros; grow.
  - exists []. split_and!; [done|by intros b ?%elem_of_nil|constructor].
  - intros done_ p rest d Hl (bs & -> & Hbs & Hn).
    pose proof (from_get B outs (port_name p) Hd) as HB.
    destruct (Dict.get_or _ [] outs) as [|s l].
    + apply adds_eret. exists bs. rewrite d_app_nil_r. split_and!; [done| |done].
      intros b Hb. destruct (Hbs b Hb) as (? & q & ? & ?). split; [done|]. exists q.
      split; [done|]. rewrite fmap_app. set_solver.
    + eapply adds_weaken; [apply adds_add_binding|]. intros _ e ->.
      eexists (bs ++ [_]). split; [done|]. split.
      * intros b [Hb| ->%list_elem_of_singleton]%elem_of_app.
        -- destruct (Hbs b Hb) as (? & q & ? & ?). split; [done|]. exists q.
           split; [done|]. rewrite fmap_app. set_solver.
        -- split; [by apply addresses_from|]. exists (port_name p). split; [done|].
           rewrite fmap_app. set_solver.
      * rewrite fmap_app. apply NoDup_app. split; [done|]. split; [|apply NoDup_singleton].
        intros a (b & -> & Hb)%list_elem_of_fmap Ha%list_elem_of_singleton. simpl in Ha.
        destruct (Hbs b Hb) as (_ & q & Hq & Hin). rewrite Hq in Ha. injection Ha as ->.
        rewrite Hl, fmap_app, fmap_cons in Hnd. apply NoDup_app in Hnd as (_ & Hdis & _).
        apply (Hdis (port_name p)); [done|left].
  - intros _ d (bs & -> & Hbs & Hn). exists bs. split_and!; [done| |done].
    intros b Hb. destruct (Hbs b Hb) as (? & q & ? & ?). eauto.
Qed.

Lemma final_check_adds :
  silent (let* c := get in match c.(faults) with [] => eret tt | _ => raise_faults end) (λ _, True).
Proof.
  intros c u c' E _. unfold ebind, get in E. simpl in E.
  destruct (faults c); [|done]. injection E as _ <-. exists d_nil.
  split; [apply extends_nil|done].
Qed.

Ltac grow_root := intros; unfold root_sources; grow.
Lemma admit_compilation_adds fuel g env rg supplied :
  adds (admit_compilation fuel g env rg supplied)
    (λ _ d, ∃ e outs, d = e ⊕ mkDelta [] outs [] [] [] ∧ admitted g env rg supplied e outs).
Proof.
  unfold admit_compilation. cbv zeta. set (root := mkScope [graph_name g]).
  assert (grows (let* c := get in
    match c.(faults) with [] => eret tt | _ => raise_faults (A:=unit) end)) as Gf by grow.
  eapply adds_bind_silent; [grow_root|grow_root|apply unique_ports_adds|]. intros ? Hni.
  eapply adds_bind_silent; [grow_root|grow_root|apply unique_ports_adds|]. intros ? Hno.
  eapply (adds_bind_silent _ _ (λ _, required_inputs g ⊆ supplied ∧
    supplied ⊆ port_name <$> graph_inputs g)); [grow_root|grow_root| |].
  { unfold check_run_inputs. cbv zeta.
    eapply adds_bind_silent; [grow|intros; grow|apply silent_fault_if|]. intros ? H1.
    eapply silent_weaken; [apply silent_fault_if|]. intros ? H2. cbv beta in H1, H2.
    apply dec_stable in H1, H2. by rewrite set_minus_nil in H1, H2. }
  intros _ Hinputs.
  eapply (adds_bind_silent _ _ (dict_ok (root_known g supplied))); [grow_root|grow_root| |].
  { apply output_sources_adds. intros p [Hs Hp]%list_elem_of_filter. exists (port_name p).
    split_and!; [done|done|]. by apply list_elem_of_fmap_2. }
  intros inputs Hin.
  eapply adds_bind; [grow_root|grow_root|by apply (proj1 (compile_spec env fuel) _ _ _ _ _ _ (root_known g supplied))|].
  intros outputs d (Hgood & Hout & Hadm).
  eapply adds_bind; [grow_root|grow_root|by apply bind_root_adds|].
  intros _ e (bs & -> & Hbs & Hbn).
  eapply adds_bind_silent; [grow_root|grow_root|apply check_unused_adds|]. intros _ _.
  eapply adds_weaken; [apply final_check_adds|]. intros _ e [-> _].
  exists d, bs. rewrite d_app_nil_r. split; [done|]. by constructor.
Qed.

Lemma admit_compilation_no_faults fuel g env rg supplied u c :
  admit_compilation fuel g env rg supplied empty_comp = (Ok u, c) → c.(faults) = [].
Proof.
  unfold admit_compilation. cbv zeta. intros H.
  do 7 (apply ebind_ok in H as (? & ? & _ & H)).
  apply ebind_ok in H as (c1 & c2 & Hget & H). injection Hget as -> ->.
  destruct (faults c2) eqn:E; [|done]. by injection H as _ <-.
Qed.

(** The shape of a successful [admit_]: the sealed lists are the compilation's. *)
Lemma admit_ok fuel g snap cat caps rg inputs lock m :
  admit_ fuel g snap cat caps rg inputs lock = Ok m →
  ∃ members d outs,
    json_value inputs = Ok (JObj members) ∧
    admitted g (mkEnv snap cat caps (source_graph_hash_for g) (index_lock <$> lock)) rg
      members.*1 d outs ∧
    m.(source_graph) = g ∧ m.(source_graph_hash) = source_graph_hash_for g ∧
    m.(resolved_components) = d_res d ∧ m.(resolved_connections) = d_bind d ++ outs ∧
    m.(capability_bindings) = d_cap d ∧ m.(resolved_loops) = d_loops d ∧
    m.(schema_version) = (if existsb has_channel (d_cap d) then 3 else 2)%Z ∧
    m.(manifest_hash) = manifest_hash_for m.
Proof.
  unfold admit_. destruct (json_value inputs) as [j|e]; [|done].
  destruct j as [| | | | | |members]; try done. cbv zeta.
  destruct (admit_compilation _ _ _ _ _ _) as [[u|e] c] eqn:E; [|done]. intros [= <-].
  destruct (admit_compilation_adds _ _ _ _ _ _ _ _ E) as (? & (R & B & C & L & A) & d & outs & -> & Hadm).
  { by rewrite (admit_compilation_no_faults _ _ _ _ _ _ _ E). }
  simpl in R, B, C, L. rewrite app_nil_r in R, C, L.
  exists members, d, outs. split_and!; try done; simpl; try congruence.
  by rewrite C.
Qed.
