(* ===== verification/Fixture.v ===== *)
(** A small registry and graph on which the theorems are exercised: [start]
    turns the run's seed into a state, a bounded loop refines it, and [ask]
    is bound to an advice channel. *)

From S2P Require Import Prelude Identity Address Graph Component Capability Manifest Binding.
From S2P Require Import Admission.
From Stdlib Require Import Ascii.

Module Fixture.
Definition hash_of (c : ascii) : Digest :=
  "sha256:" +:+ String.string_of_list_ascii (replicate 64 c).
Definition port (name type_id : string) : Port := mkPort name type_id "rev-1" None CardOne.
Definition again : Port := mkPort "again" CONTINUE_TYPE CONTINUE_SCHEMA_HASH None CardOne.
Definition atomic (name : string) (ins outs : list Port) : ComponentDef :=
  mkComponent name RoleNode (CPython (mkPythonRef "demo" "demo.nodes" name (hash_of "c"%char) None))
    ins outs (mkMetadata None None []) None.

Definition start := atomic "start" [port "seed" "demo/Seed"] [port "draft" "demo/State"].
Definition work := atomic "work" [port "state" "demo/State"] [port "state" "demo/State"; again].
Definition ask := atomic "ask"
  [mkPort "question" "constructicon.std/AdviceRequest" "advice-request-1" None CardOne]
  [mkPort "answer" "constructicon.std/AdviceResponse" "advice-response-1" None CardOne].

Definition h1 := hash_of "1"%char.
Definition h2 := hash_of "2"%char.
Definition h3 := hash_of "3"%char.
Definition stored (d : ComponentDef) (h : Digest) : StoredVersion :=
  mkStored d h "2025-01-01T00:00:00Z".
Definition snapshot : RegistrySnapshot :=
  mkSnapshot (mkRevision 3 3)
    (list_to_map [("start", {[ h1 := stored start h1 ]}); ("work", {[ h2 := stored work h2 ]});
                  ("ask", {[ h3 := stored ask h3 ]})])
    (list_to_map [("start", [h1]); ("work", [h2]); ("ask", [h3])])
    (list_to_map [("start", h1); ("work", h2); ("ask", h3)]) ∅.

Definition ref (component : string) : Ref := mkRef component None [] None.
Definition body : Graph :=
  mkGraph "body" [mkNode "w" (BRef (ref "work"))] []
    [port "state" "demo/State"] [port "state" "demo/State"; again].
Definition question : Port :=
  mkPort "question" "constructicon.std/AdviceRequest" "advice-request-1" None CardOne.
Definition graph : Graph :=
  mkGraph "demo"
    [mkNode "refine" (BLoop (mkLoop (LGraph body) [("state", "state")] "again" 3));
     mkNode "begin" (BRef (ref "start"));
     mkNode "consult" (BRef (mkRef "ask" None [("human", "inbox")]
       (Some (mkGrantRequest (Some READ) None None (Some ["git"]) None (NetRequest NetNone) (Some 30%positive)))))]
    [mkConnection "begin" "refine" []]
    [port "seed" "demo/Seed"; question] [port "state" "demo/State"].

Definition grants : EffectiveGrants :=
  mkGrants WRITE (mkSelection BackendDefault None) None ["git"; "sh"] ["PATH"] NetAllow 600.
Definition profile : ChannelProfile := mkChannelProfile SqliteWal 10.
Definition catalog : gmap string CapabilityDescriptor :=
  {[ "inbox" := mkDescriptor "inbox" MAILBOX_CHANNEL_KIND "1" None (Some profile)
                  (Some (mkEndpoint "lane" Advice None)) false None ]}.
Definition capabilities : gmap string LiveCapability :=
  {[ "inbox" := mkLive (Some ("inbox", profile)) None None ]}.
Definition inputs : pyval :=
  PDict [(PStr "seed", PStr "x"); (PStr "question", PStr "which one?")].

(** The pins of a counterfactual replay of [graph]. *)
Definition pin (scope : list string) (component : string) (h : Digest) : ResolutionPin :=
  mkPin (mkScope scope) component h.
Definition lock : ResolutionLock :=
  mkLock (hash_of "f"%char)
    [pin ["demo"; "begin"] "start" h1; pin ["demo"; "refine"; "body"; "w"] "work" h2;
     pin ["demo"; "consult"] "ask" h3].

Definition run (l : option ResolutionLock) : result admission_exn ExecutionManifest :=
  admit_ 12 graph snapshot catalog capabilities grants inputs l.
(** The sealed manifest; the [Raise] branch is not taken ([run_ok]). *)
Definition placeholder : ExecutionManifest := mkManifest 0 graph "" [] [] [] [] "" "" "".
Definition manifest (l : option ResolutionLock) : ExecutionManifest :=
  match run l with Ok m => m | Raise _ => placeholder end.

Example run_ok : is_ok (run None) = true.
Proof. vm_compute. reflexivity. Qed.
Example run_locked_ok : is_ok (run (Some lock)) = true.
Proof. vm_compute. reflexivity. Qed.

Lemma run_manifest l : is_ok (run l) = true → run l = Ok (manifest l).
Proof. unfold manifest. by destruct (run l). Qed.
End Fixture.
