(* ===== verification/AdmissionSpec.v ===== *)
(** What a sealed manifest promises: the theorems about [admit_]. *)

From S2P Require Import Prelude Sha256 Identity Address Graph Component Capability Manifest Topology.
From S2P Require Import Binding Admission Sealing Fixture.

(** ** What a resolution chose *)

(** What a component name and request resolve to. *)
Definition chosen (snap : RegistrySnapshot) (lock : option ResolutionLock) (r : ComponentResolution)
    (st : StoredVersion) : Prop :=
  match lock with
  | Some lock => ∃ pin, pin ∈ lock.(pins) ∧ pin.(pin_scope) = r.(res_scope) ∧
      snapshot_get snap pin.(pin_component) pin.(pin_version) = Some st
  | None => ∃ name, match r.(requested_version) with
      | Some v => snapshot_get snap name v = Some st
      | None => ∃ v, snap.(stable) !! name = Some v ∧ snapshot_get snap name v = Some st
      end
  end.

Lemma index_lock_pin lock s pin :
  Dict.get s (index_lock lock) = Some pin → pin ∈ lock.(pins) ∧ pin.(pin_scope) = mkScope s.
Proof.
  unfold index_lock. intros (p & Heq & Hp)%Dict.get_of_pairs_elem%list_elem_of_fmap.
  simplify_eq. split; [done|]. by destruct (pin_scope p).
Qed.
Lemma stable_version_ok snap name v :
  stable_version snap name = Ok (Some v) → snap.(stable) !! name = Some v.
Proof.
  unfold stable_version. destruct (stable snap !! name) as [v'|]; [|done].
  case_decide; [done|]. intros (v2 & Hv & [= ->])%result_fmap_ok. f_equal.
  unfold Digest_well_formed in Hv. cbv zeta in Hv. repeat case_match; simplify_eq; done.
Qed.

Lemma resolves_chosen snap cat caps hash lock r ref st :
  resolves (mkEnv snap cat caps hash (index_lock <$> lock)) r ref st → chosen snap lock r st.
Proof.
  intros (Hsel & Hreq & _). unfold select_version in Hsel. simpl in Hsel.
  unfold chosen. destruct lock as [lock|]; simpl in Hsel.
  - destruct (Dict.get _ _) as [pin|] eqn:Ep; [|done]. case_decide; [done|].
    injection Hsel as Hsel. apply index_lock_pin in Ep as [Hp Hs]. exists pin.
    split; [done|]. split; [|done]. rewrite Hs. by destruct (res_scope r).
  - exists ref.(component). rewrite Hreq. destruct (version ref) as [v|]; [by injection Hsel|].
    apply result_bind_ok in Hsel as ([v|] & Hv & [= Hg]).
    exists v. split; [by apply stable_version_ok|done].
Qed.

(** ** The manifest as a closed world *)

(** Every address some binding reads. *)
Definition loop_sources (l : LoopResolution) : list PortAddress :=
  (l.(initial_bindings) ≫= sources) ++ (l.(feedback_bindings) ≫= sources)
  ++ [l.(continue_source)] ++ (l.(exports) ≫= export_sources).
Definition manifest_sources (m : ExecutionManifest) : list PortAddress :=
  (m.(resolved_connections) ≫= sources) ++ (m.(resolved_loops) ≫= loop_sources).

(** A sealed unit: the scope whose own grants the manifest carries. *)
Definition is_unit (m : ExecutionManifest) (s : ScopePath) : Prop :=
  ∃ b, b ∈ m.(capability_bindings) ∧ b.(cap_scope) = s ∧ b.(binding) = SELF_BINDING
       ∧ b.(cap_id) = SELF_CAPABILITY.
(** The version the manifest resolves a scope to is atomic and declares the output. *)
Definition declares_output (snap : RegistrySnapshot) (lock : option ResolutionLock) (m : ExecutionManifest)
    (s : ScopePath) (port : string) : Prop :=
  ∃ r st p, r ∈ m.(resolved_components) ∧ r.(res_scope) = s ∧ chosen snap lock r st ∧
    r.(resolved_version) = st.(stored_hash) ∧ st.(definition).(body) = CPython p ∧
    port ∈ port_name <$> st.(definition).(def_outputs).

(** What can be read: a supplied graph input, a declared output of a unit, a loop's
    export, a loop body's bound input. *)
Definition readable (snap : RegistrySnapshot) (lock : option ResolutionLock) (supplied : list string)
    (m : ExecutionManifest) (a : PortAddress) : Prop :=
  match a with
  | GraphInputAddress s p =>
      (s = mkScope [graph_name m.(source_graph)] ∧ p ∈ supplied
       ∧ p ∈ port_name <$> graph_inputs m.(source_graph)) ∨
      ∃ l b, l ∈ m.(resolved_loops) ∧ l.(body_scope) = s ∧ b ∈ l.(initial_bindings)
             ∧ b.(destination) = a
  | NodePortAddress s n p =>
      (is_unit m (child s n) ∧ declares_output snap lock m (child s n) p) ∨
      ∃ l e, l ∈ m.(resolved_loops) ∧ e ∈ l.(exports) ∧ e.(export_destination) = a
  | GraphOutputAddress _ _ => False
  end.

Section sealed.
Context (fuel : nat) (g : Graph) (snap : RegistrySnapshot) (cat : gmap string CapabilityDescriptor)
  (caps : gmap string LiveCapability) (rg : EffectiveGrants) (inputs : pyval)
  (lock : option ResolutionLock) (m : ExecutionManifest)
  (Hrun : admit_ fuel g snap cat caps rg inputs lock = Ok m).

Abbreviation sealed_env := (mkEnv snap cat caps (source_graph_hash_for g) (index_lock <$> lock)).
Lemma known_readable supplied d outs a :
  admitted g sealed_env rg supplied d outs → m.(source_graph) = g → m.(resolved_components) = d_res d →
  m.(capability_bindings) = d_cap d → m.(resolved_loops) = d_loops d →
  known sealed_env (root_known g supplied) d a → readable snap lock supplied m a.
Proof.
  intros [Hgood _ _ _ _] Hg Hr Hc Hl. unfold readable, is_unit, declares_output. rewrite Hg, Hc, Hl, Hr.
  intros [(p & -> & ? & ?)|Hm]; [by left|]. destruct a as [s p|s n p|s p]; [by right| |done].
  destruct Hm as [[Hat (r & ref & st & q & Hin & Hs & Hres & Hb & Hp)]|Hex]; [left|by right].
  split; [by apply (g_self _ _ _ _ _ _ Hgood)|]. exists r, st, q. split_and!; try done; [by eapply resolves_chosen|apply Hres].
Qed.

Lemma sealed_closed :
  ∃ members, json_value inputs = Ok (JObj members) ∧
    ∀ a, a ∈ manifest_sources m → readable snap lock members.*1 m a.
Proof.
  destruct (admit_ok _ _ _ _ _ _ _ _ _ Hrun)
    as (members & d & outs & Hj & Hadm & Hsg & _ & Hres & Hcon & Hcap & Hloops & _).
  exists members. split; [done|]. intros a. pose proof Hadm as [Hgood _ _ Houts _].
  intros Ha. eapply known_readable; [exact Hadm|done..|]. revert Ha.
  unfold manifest_sources. rewrite Hcon, Hloops, elem_of_app.
  intros [(b & Ha & Hb)%list_elem_of_bind|(l & Ha & Hl)%list_elem_of_bind].
  - apply elem_of_app in Hb as [Hb|Hb].
    + destruct (g_bind _ _ _ _ _ _ Hgood b Hb) as [[_ Hs] _]. by apply Hs.
    + destruct (Houts b Hb) as [[_ Hs] _]. by apply Hs.
  - destruct (g_loops _ _ _ _ _ _ Hgood l Hl) as [_ _ Hi Hf Hc He].
    unfold loop_sources in Ha. rewrite !elem_of_app in Ha.
    destruct Ha as [(b & Ha & Hb)%list_elem_of_bind|[(b & Ha & Hb)%list_elem_of_bind|
      [->%list_elem_of_singleton|(e & Ha & Hb)%list_elem_of_bind]]].
    + destruct (Hi b Hb) as [[_ Hs] _]. by apply Hs.
    + destruct (Hf b Hb) as [[_ Hs] _]. by apply Hs.
    + done.
    + destruct (He e Hb) as (_ & Hs & _). by apply Hs.
Qed.

Lemma sealed_authority :
  ∀ b, b ∈ m.(capability_bindings) → grants_le b.(effective_grants) rg ∧ is_unit m b.(cap_scope).
Proof.
  destruct (admit_ok _ _ _ _ _ _ _ _ _ Hrun)
    as (members & d & outs & _ & [Hgood _ _ _ _] & _ & _ & _ & _ & Hcap & _).
  intros b. unfold is_unit. rewrite Hcap. intros Hb. split; [by eapply g_grants|].
  by eapply g_self, g_cap_scope.
Qed.

Lemma sealed_units :
  NoDup (res_scope <$> m.(resolved_components)) ∧
  NoDup (destination <$> m.(resolved_connections)) ∧
  NoDup (loop_scope <$> m.(resolved_loops)) ∧
  ∀ s, is_unit m s → s ∈ res_scope <$> m.(resolved_components).
Proof.
  destruct (admit_ok _ _ _ _ _ _ _ _ _ Hrun)
    as (members & d & outs & _ & [Hgood _ _ Houts Hon] & _ & _ & Hres & Hcon & Hcap & Hloops & _).
  rewrite Hres, Hcon, Hloops. split_and!; [apply Hgood| |apply Hgood|].
  - rewrite fmap_app. apply NoDup_app. split; [apply Hgood|]. split; [|done].
    intros a (b & -> & Hb)%list_elem_of_fmap (b' & Heq & Hb')%list_elem_of_fmap.
    destruct (g_bind _ _ _ _ _ _ Hgood b Hb) as (_ & s & n & p & Hd & _).
    destruct (Houts b' Hb') as (_ & q & Hd'). by rewrite Hd, Hd' in Heq.
  - unfold is_unit. rewrite Hcap. intros s (b & Hb & <- & _).
    by eapply g_atomic_res, g_cap_scope.
Qed.

Lemma sealed_loops :
  ∀ l, l ∈ m.(resolved_loops) →
    l.(body_scope) = child l.(loop_scope) LOOP_BODY_SEGMENT ∧ l.(member_order) ≠ [] ∧
    (∀ s, s ∈ l.(member_order) → is_unit m s ∧ strictly_under l.(body_scope) s) ∧
    ∀ b, b ∈ l.(initial_bindings) ++ l.(feedback_bindings) →
      b.(sources) ≠ [] ∧ ∃ p, b.(destination) = GraphInputAddress l.(body_scope) p.
Proof.
  destruct (admit_ok _ _ _ _ _ _ _ _ _ Hrun)
    as (members & d & outs & _ & [Hgood _ _ _ _] & _ & _ & _ & _ & Hcap & Hloops & _).
  unfold is_unit. rewrite Hloops, Hcap. intros l Hl.
  destruct (g_loops _ _ _ _ _ _ Hgood l Hl) as [Hb (Hne & Hsub & Hund) Hi Hf _ _].
  split_and!; [done|done| |].
  - intros s Hs. split; [|by apply Hund]. by eapply g_self, Hsub.
  - intros b [Hin|Hin]%elem_of_app; [destruct (Hi b Hin) as [[] ?]|destruct (Hf b Hin) as [[] ?]]; done.
Qed.
End sealed.

(** ** The theorems *)

(** C2: A sealed manifest is a closed world: every port binding, loop binding, continuation
    source and loop export reads only an address the manifest itself provides - a supplied
    graph input, a declared output port of a node whose sealed resolution is a registered
    atomic component, a loop body's boundary input or a loop export. *)
Theorem admit_closed_world fuel g snap cat caps rg inputs lock m :
  admit_ fuel g snap cat caps rg inputs lock = Ok m →
  ∃ members, json_value inputs = Ok (JObj members) ∧
    ∀ a, a ∈ manifest_sources m → readable snap lock members.*1 m a.
Proof. apply sealed_closed. Qed.
Lemma admit_closed_world_witness :
  ∃ members, json_value Fixture.inputs = Ok (JObj members) ∧
    ∀ a, a ∈ manifest_sources (Fixture.manifest None) →
      readable Fixture.snapshot None members.*1 (Fixture.manifest None) a.
Proof. exact (admit_closed_world _ _ _ _ _ _ _ _ _ (Fixture.run_manifest None Fixture.run_ok)). Defined.

(** C3: Authority only narrows: every capability binding of a sealed manifest carries grants at
    most the run's root grants, and belongs to a unit the manifest resolves. *)
Theorem admit_narrows_authority fuel g snap cat caps rg inputs lock m :
  admit_ fuel g snap cat caps rg inputs lock = Ok m →
  ∀ b, b ∈ m.(capability_bindings) → grants_le b.(effective_grants) rg ∧ is_unit m b.(cap_scope).
Proof. apply sealed_authority. Qed.
Lemma admit_narrows_authority_witness :
  Forall (λ b, grants_le b.(effective_grants) Fixture.grants
               ∧ is_unit (Fixture.manifest None) b.(cap_scope))
    (Fixture.manifest None).(capability_bindings).
Proof.
  apply Forall_forall.
  exact (admit_narrows_authority _ _ _ _ _ _ _ _ _ (Fixture.run_manifest None Fixture.run_ok)).
Defined.

(** A sealed manifest embeds the authored graph and passes the readers' checks: its source
    graph hash and manifest hash are those of its contents, and its schema version is the
    channel-aware one exactly when it binds a channel. *)
Theorem admit_seals_identity fuel g snap cat caps rg inputs lock m :
  admit_ fuel g snap cat caps rg inputs lock = Ok m →
  m.(source_graph) = g ∧ validated_manifest_identity m = Ok m ∧ declared_version_check m = Ok m ∧
  (m.(schema_version) = MANIFEST_CHANNEL_SCHEMA_VERSION ↔ binds_channel m = true).
Proof.
  intros H. destruct (admit_ok _ _ _ _ _ _ _ _ _ H)
    as (members & d & outs & _ & _ & Hg & Hgh & _ & _ & Hcap & _ & Hv & Hmh).
  split; [done|]. split; [|split].
  - unfold validated_manifest_identity. cbv zeta. rewrite Hg, <-Hgh.
    rewrite decide_False by (intros Hne; by apply Hne).
    rewrite <-Hmh. by rewrite decide_False by (intros Hne; by apply Hne).
  - unfold declared_version_check, binds_channel. rewrite Hcap, Hv.
    by destruct (existsb has_channel (d_cap d)).
  - unfold binds_channel. rewrite Hcap, Hv. by destruct (existsb has_channel (d_cap d)).
Qed.
Lemma admit_seals_identity_witness :
  validated_manifest_identity (Fixture.manifest None) = Ok (Fixture.manifest None) ∧
  (Fixture.manifest None).(schema_version) = MANIFEST_CHANNEL_SCHEMA_VERSION.
Proof.
  destruct (admit_seals_identity _ _ _ _ _ _ _ _ _ (Fixture.run_manifest None Fixture.run_ok))
    as (_ & Hid & _ & Hv).
  split; [exact Hid|]. apply Hv. vm_compute. reflexivity.
Defined.

(** The scopes of a sealed manifest are identities: no scope is resolved twice, no port
    address receives two bindings, no loop scope repeats, and every atomic unit is a resolved
    component. *)
Theorem admit_units_unique fuel g snap cat caps rg inputs lock m :
  admit_ fuel g snap cat caps rg inputs lock = Ok m →
  NoDup (res_scope <$> m.(resolved_components)) ∧
  NoDup (destination <$> m.(resolved_connections)) ∧
  NoDup (loop_scope <$> m.(resolved_loops)) ∧
  ∀ s, is_unit m s → s ∈ res_scope <$> m.(resolved_components).
Proof. apply sealed_units. Qed.
Lemma admit_units_unique_witness :
  NoDup (res_scope <$> (Fixture.manifest None).(resolved_components)).
Proof. exact (proj1 (admit_units_unique _ _ _ _ _ _ _ _ _ (Fixture.run_manifest None Fixture.run_ok))). Defined.

(** C34: Admission accepts only well-formed graphs and inputs: at every level of the authored
    graph endpoints are declared, connections are acyclic, node ids and port names are unique
    and no Loop is nested; and the run's inputs name exactly declared ports, every required one
    among them. *)
Theorem admit_accepts_admissible fuel g snap cat caps rg inputs lock m :
  admit_ fuel g snap cat caps rg inputs lock = Ok m →
  admissible O g ∧ ∃ members, json_value inputs = Ok (JObj members) ∧
    required_inputs g ⊆ members.*1 ∧ members.*1 ⊆ port_name <$> graph_inputs g.
Proof.
  intros H. destruct (admit_ok _ _ _ _ _ _ _ _ _ H)
    as (members & d & outs & Hj & [_ Hadm [? ?] _ _] & _).
  split; [done|]. by exists members.
Qed.
Lemma admit_accepts_admissible_witness : admissible O Fixture.graph.
Proof.
  exact (proj1 (admit_accepts_admissible _ _ _ _ _ _ _ _ _ (Fixture.run_manifest None Fixture.run_ok))).
Defined.

(** Every sealed loop is a complete mini-program: it has at least one member, each an
    atomic unit strictly under the body's scope, and its initial and feedback bindings have
    sources and address inputs of the body. *)
Theorem admit_loops_complete fuel g snap cat caps rg inputs lock m :
  admit_ fuel g snap cat caps rg inputs lock = Ok m →
  ∀ l, l ∈ m.(resolved_loops) →
    l.(body_scope) = child l.(loop_scope) LOOP_BODY_SEGMENT ∧ l.(member_order) ≠ [] ∧
    (∀ s, s ∈ l.(member_order) → is_unit m s ∧ strictly_under l.(body_scope) s) ∧
    ∀ b, b ∈ l.(initial_bindings) ++ l.(feedback_bindings) →
      b.(sources) ≠ [] ∧ ∃ p, b.(destination) = GraphInputAddress l.(body_scope) p.
Proof. apply sealed_loops. Qed.
Lemma admit_loops_complete_witness :
  ∃ l, l ∈ (Fixture.manifest None).(resolved_loops) ∧ l.(member_order) ≠ [].
Proof.
  assert (length (Fixture.manifest None).(resolved_loops) = 1) as Hlen by (vm_compute; reflexivity).
  pose proof (admit_loops_complete _ _ _ _ _ _ _ _ _ (Fixture.run_manifest None Fixture.run_ok)) as H.
  destruct ((Fixture.manifest None).(resolved_loops)) as [|l k]; [discriminate Hlen|].
  exists l. split; [left|]. apply (H l). left.
Defined.

(** Every component resolution of a sealed manifest records the name, the content hash and
    the contract hash of one registered version, and that version is the one the snapshot (its
    stable or the requested version) or the resolution lock's pin for that very scope chose. *)
Theorem admit_resolves_exactly fuel g snap cat caps rg inputs lock m :
  admit_ fuel g snap cat caps rg inputs lock = Ok m →
  ∀ r, r ∈ m.(resolved_components) → ∃ st, chosen snap lock r st ∧
    r.(resolved_version) = st.(stored_hash) ∧ r.(res_component) = st.(definition).(def_name) ∧
    r.(contract_hash) = component_contract st.(definition).
Proof.
  intros H. destruct (admit_ok _ _ _ _ _ _ _ _ _ H)
    as (members & d & outs & _ & [Hgood _ _ _ _] & _ & _ & Hres & _).
  rewrite Hres. intros r Hr.
  destruct (g_res_from _ _ _ _ _ _ Hgood r Hr) as (ref & st & Hsel). exists st.
  split; [by eapply resolves_chosen|apply Hsel].
Qed.
Lemma admit_resolves_exactly_witness :
  Forall (λ r, ∃ pin, pin ∈ Fixture.lock.(pins) ∧ pin.(pin_scope) = r.(res_scope))
    (Fixture.manifest (Some Fixture.lock)).(resolved_components).
Proof.
  apply Forall_forall. intros r Hr.
  destruct (admit_resolves_exactly _ _ _ _ _ _ _ _ _
    (Fixture.run_manifest (Some Fixture.lock) Fixture.run_locked_ok) r Hr) as (st & (pin & ? & ? & _) & _).
  by exists pin.
Defined.

(** ** Grants *)

(** A request that stays within its parent. *)
Record narrows (r : GrantRequest) (parent : EffectiveGrants) : Prop := {
  nw_posture : r.(gr_posture) = Some WRITE → parent.(posture) = WRITE;
  nw_tools t : r.(gr_allowed_tools) = Some t → t ⊆ parent.(allowed_tools);
  nw_env t : r.(gr_env_allowlist) = Some t → t ⊆ parent.(env_allowlist);
  nw_network : r.(gr_network) = NetRequest NetAllow → parent.(grant_network) = NetAllow;
  nw_timeout t : r.(gr_timeout_s) = Some t → (t ≤ parent.(timeout_s))%positive;
}.

Definition with_faults (c : comp_state) (l : list fault) : comp_state :=
  mkComp (c.(faults) ++ l) c.(resolutions) c.(bindings) c.(cap_bindings) c.(loops)
    c.(atomic_scopes) c.(consumed_pins) c.(allocated).
Lemma fault_if_eq P `{Decision P} f c : fault_if P f c = (Ok tt, with_faults c (when P f)).
Proof.
  unfold fault_if, when, with_faults, add_fault, modify, eret. case_decide; [done|].
  rewrite app_nil_r. by destruct c.
Qed.
Lemma with_faults_app c l k : with_faults (with_faults c l) k = with_faults c (l ++ k).
Proof. unfold with_faults. simpl. by rewrite app_assoc. Qed.

Lemma compile_grants_run parent r w c :
  ∃ g l, _compile_grants parent (Some r) w c = (Ok g, with_faults c l) ∧
    (l = [] ↔ narrows r parent) ∧ (l ≠ [] → g = parent).
Proof.
  unfold _compile_grants. cbv zeta. rewrite (ebind_eq get _ c c c eq_refl).
  do 5 (erewrite ebind_eq by apply fault_if_eq; rewrite ?with_faults_app).
  rewrite (ebind_eq get _ _ _ _ eq_refl).
  match goal with |- context [with_faults c ?l] => set (fs := l) end.
  assert (fs = [] ↔ narrows r parent) as Hiff.
  { unfold fs, when. rewrite !app_nil. split.
    - intros Hall. destruct Hall as [[[[H1 H2] H3] H4] H5].
      repeat case_decide; try done. split.
      + intros Hp. rewrite Hp in *. simpl in *. destruct (posture parent); [exfalso; tauto|done].
      + intros t Ht. rewrite Ht in *. simpl in *. apply set_minus_nil, dec_stable. intros Hn.
        match goal with H : ¬ (Some t ≠ None ∧ set_minus t (allowed_tools _) ≠ []) |- _ => by apply H end.
      + intros t Ht. rewrite Ht in *. simpl in *. apply set_minus_nil, dec_stable. intros Hn.
        match goal with H : ¬ (Some t ≠ None ∧ set_minus t (env_allowlist _) ≠ []) |- _ => by apply H end.
      + intros Hn. destruct (grant_network parent); [exfalso; tauto|done].
      + intros t Ht. rewrite Ht in *. simpl in *. apply Pos.le_nlt. intros Hlt.
        match goal with H : ¬ (Some t ≠ None ∧ (_ < t)%positive) |- _ => by apply H end.
    - intros [H1 H2 H3 H4 H5]. rewrite !decide_False; [done|..].
      + intros [Ht Hlt]. destruct (gr_timeout_s r) as [t|]; [|done]. simpl in Hlt.
        specialize (H5 t eq_refl). lia.
      + intros [Hn Hn']. rewrite (H4 Hn) in Hn'. done.
      + intros [Ht Hne]. destruct (gr_env_allowlist r) as [t|]; [|done].
        by apply Hne, set_minus_nil, H3.
      + intros [Ht Hne]. destruct (gr_allowed_tools r) as [t|]; [|done].
        by apply Hne, set_minus_nil, H2.
      + intros [Hw Hr]. destruct (gr_posture r) as [p|]; simpl in Hw; [|congruence]. subst p.
        rewrite H1 in Hr by done. done. }
  unfold eret. destruct (_ <? _) eqn:Elt.
  - exists parent, fs. done.
  - eexists _, fs. split; [done|]. split; [done|]. intros Hne. exfalso.
    apply Nat.ltb_ge in Elt. simpl in Elt. rewrite length_app in Elt.
    destruct fs; [done|simpl in Elt; lia].
Qed.

(** _compile_grants never raises, always returns grants at most the parent's, and applies
    a request exactly when the request narrows the parent; otherwise it reports a fault. *)
Theorem compile_grants_only_narrows parent request w c :
  ∃ g c', _compile_grants parent request w c = (Ok g, c') ∧ grants_le g parent ∧
    (g = parent ∨ c'.(faults) = c.(faults)) ∧
    ∀ r, request = Some r → (c'.(faults) = c.(faults) ↔ narrows r parent).
Proof.
  destruct request as [r|]; [|exists parent, c; split_and!; [done|reflexivity|by left|done]].
  destruct (compile_grants_run parent r w c) as (g & l & E & Hiff & Hp).
  exists g, (with_faults c l). split; [done|]. split; [by eapply compile_grants_le|].
  assert (faults (with_faults c l) = faults c ↔ l = []) as Hl.
  { simpl. split; [|intros ->; by rewrite app_nil_r]. intros H.
    apply (f_equal length) in H. rewrite length_app in H. destruct l; [done|simpl in H; lia]. }
  split.
  - destruct l as [|f l]; [right; by apply Hl|left; by apply Hp].
  - intros r' [= <-]. by rewrite Hl.
Qed.

(** ** Unavailable executors *)

(** Admission ignores a provider's published unavailability only when that provider
    authorizes this very graph and capability, is coherent with its descriptor, and no
    resolution lock is in force. *)
Theorem unavailability_cleared_only_by_authorization env d cap :
  _admitted_unavailability env d cap = [] →
  executor_unavailability d (env.(capabilities) !! cap) = [] ∨
  (env.(resolution_lock) = None ∧ executor_incoherence d (env.(capabilities) !! cap) = None ∧
   ∃ live authorizes, env.(capabilities) !! cap = Some live ∧
     live.(authorizes_admission) = Some authorizes ∧ authorizes env.(env_graph_hash) cap = true).
Proof.
  unfold _admitted_unavailability. cbv zeta.
  destruct (_ && _) eqn:E; [|by left]. intros _. right.
  rewrite !andb_true_iff, !bool_decide_eq_true in E. destruct E as [[[_ Hl] Hi] Ha].
  split; [done|]. split; [done|].
  destruct (capabilities env !! cap) as [live|]; simpl in Ha; [|done].
  destruct (authorizes_admission live) as [authorizes|] eqn:Ea; [|done]. by exists live, authorizes.
Qed.
Lemma unavailability_cleared_only_by_authorization_witness :
  executor_unavailability (mkDescriptor "x" "executor" "1" None None None true None) None = [].
Proof.
  assert (_admitted_unavailability (mkEnv Fixture.snapshot ∅ ∅ "h" None)
    (mkDescriptor "x" "executor" "1" None None None true None) "x" = []) as E
    by (vm_compute; reflexivity).
  destruct (unavailability_cleared_only_by_authorization
    (mkEnv Fixture.snapshot ∅ ∅ "h" None) (mkDescriptor "x" "executor" "1" None None None true None)
    "x" E) as [H|(_ & _ & live & _ & H & _)]; [exact H|discriminate H].
Defined.
