(* ===== verification/Combinators.v ===== *)
(** The composition sugar of the SDK
    ([src/constructicon/sdk/combinators.py], [src/constructicon/sdk/types.py]):
    [loop], [component], [harness], [flow] and [panel], each reducing to the
    graph IR, and the errors they raise. The theorems are in [CombinatorSpec]. *)

From S2P Require Import Prelude Identity Address Graph Component Binding.
From Stdlib Require Import Ascii.

(** ** Errors, one constructor per [raise] *)
Inductive authoring_error :=
| NonPositiveIterations (n : Z)
| RedeclaredBoundary
| BoundaryRequired
| FlowWithoutSteps
| FlowInputsRequired
| FlowOutputsRequired
| FlowUnknownMaps (unknown generated : list string)
| FlowMapOnFirst (node : string)
| PanelTooFew
| PanelMemberNotBundle
| PanelAggregatorNotBundle
| PanelAggregatorComposite (name : string)
| PanelMemberArity (name : string) (inputs outputs : nat)
| PanelMemberCardinality (name : string) (request result_ : cardinality)
| PanelMemberContract (name first : string)
| PanelEmptyResultName
| PanelRequestIsResult
| PanelGatherCount (name : string) (count : nat)
| PanelGatherContract (name : string) (gathers result_ : Port)
| PanelDottedMember
| PanelIdCollision (id : string)
| PanelPolicyIsResult (port : string)
| PanelPortsCollide (names : list string)
| IdsLength (ids steps : nat)
| IdsRepeat
| IdEmpty
| IdReserved (id : string).

(** ** Carriers

    [implementation] is a process-local callable, which the combinators never
    look at. *)
Section sdk.
Context {NodeImpl : Type}.
Record DefinitionBundle := mkBundle {
  bundle_definition : ComponentDef;
  implementation : option NodeImpl;
}.
Definition bundle_name (b : DefinitionBundle) : string := b.(bundle_definition).(def_name).
Definition bundle_ref (b : DefinitionBundle) (version : option string)
    (bind : list (string * string)) (grants : option GrantRequest) : Ref :=
  mkRef b.(bundle_definition).(def_name) version bind grants.

Inductive AuthoringStep := StepBundle (b : DefinitionBundle) | StepRef (r : Ref) | StepName (s : string).
Definition as_bundle (s : AuthoringStep) : option DefinitionBundle :=
  match s with StepBundle b => Some b | _ => None end.
Definition _to_ref (s : AuthoringStep) : Ref :=
  match s with
  | StepBundle b => bundle_ref b None [] None
  | StepRef r => r
  | StepName name => mkRef name None [] None
  end.

(** ** Node ids *)

(** [component.rsplit("/", 1)[-1]] *)
Definition last_segment (l : list ascii) : list ascii :=
  foldl (λ acc c, if decide (c = "/"%char) then [] else acc ++ [c]) [] l.
(** [[A-Za-z0-9_]] *)
Definition is_word (c : ascii) : bool :=
  let n := N_of_ascii c in
  ((65 <=? n) && (n <=? 90) || (97 <=? n) && (n <=? 122) || (48 <=? n) && (n <=? 57)
   || (n =? 95))%N.
(** [re.sub(r"[^A-Za-z0-9_]+", "_", segment)]; [in_run]: inside such a run. *)
Fixpoint sub_runs (in_run : bool) (l : list ascii) : list ascii :=
  match l with
  | [] => []
  | c :: l =>
      if is_word c then c :: sub_runs false l
      else if in_run then sub_runs true l else "_"%char :: sub_runs true l
  end.
Fixpoint lstrip_underscore (l : list ascii) : list ascii :=
  match l with
  | [] => []
  | c :: l' => if decide (c = "_"%char) then lstrip_underscore l' else l
  end.
Definition strip_underscore (l : list ascii) : list ascii :=
  reverse (lstrip_underscore (reverse (lstrip_underscore l))).
Definition id_base (r : Ref) : string :=
  let base := String.string_of_list_ascii
    (strip_underscore (sub_runs false (last_segment (String.list_ascii_of_string r.(component))))) in
  if decide (base = "") then "component" else base.

Fixpoint _validate_ids (ids : list string) : result authoring_error unit :=
  match ids with
  | [] => Ok tt
  | id :: ids =>
      if decide (id = "") then Raise IdEmpty
      else if String.prefix "$" id then Raise (IdReserved id)
      else _validate_ids ids
  end.
Definition numbered (base : string) (count : N) : string :=
  if decide (count = 1%N) then base else base +:+ "_" +:+ py_int_str count.
Fixpoint generate_ids (counts : list (string * N)) (refs : list Ref) : list string :=
  match refs with
  | [] => []
  | r :: refs =>
      let base := id_base r in
      let count := (Dict.get_or base 0 counts + 1)%N in
      numbered base count :: generate_ids (Dict.set base count counts) refs
  end.
Definition _node_ids (refs : list Ref) (explicit : option (list string)) :
    result authoring_error (list string) :=
  match explicit with
  | Some explicit =>
      if decide (length explicit ≠ length refs) then Raise (IdsLength (length explicit) (length refs))
      else if decide (length (remove_dups explicit) ≠ length explicit) then Raise IdsRepeat
      else _ ← _validate_ids explicit; Ok explicit
  | None =>
      let generated := generate_ids [] refs in
      _ ← _validate_ids generated; Ok generated
  end.

(** ** Composites *)
Inductive loop_source := LoopBundle (b : DefinitionBundle) | LoopRef (r : Ref) | LoopGraph (g : Graph).
Definition loop (body : loop_source) (feedback : list (string * string)) (continue_from : string)
    (max_iterations : Z) : result authoring_error Loop :=
  let normalized :=
    match body with
    | LoopBundle b => LRef (bundle_ref b None [] None) | LoopRef r => LRef r | LoopGraph g => LGraph g
    end in
  match max_iterations with
  | Zpos n => Ok (mkLoop normalized feedback continue_from n)
  | n => Raise (NonPositiveIterations n)
  end.

Inductive composite_source :=
| FromBundle (b : DefinitionBundle) | FromRef (r : Ref) | FromGraph (g : Graph) | FromLoop (l : Loop).
Definition redeclared (given : option (list Port)) (own : list Port) : bool :=
  match given with Some ports => negb (same_boundary ports own) | None => false end.
Definition composite (name : string) (role : ComponentRole) (g : Graph) (inputs outputs : list Port) :
    DefinitionBundle :=
  mkBundle (mkComponent name role (CGraph g) inputs outputs (mkMetadata None None []) None) None.
(** The wrapping of a [Ref] or [Loop] in a graph of one node named [body]. *)
Definition wrapped (name : string) (role : ComponentRole) (b : node_body)
    (inputs outputs : option (list Port)) : result authoring_error DefinitionBundle :=
  match inputs, outputs with
  | Some inputs, Some outputs =>
      Ok (composite name role (mkGraph name [mkNode "body" b] [] inputs outputs) inputs outputs)
  | _, _ => Raise BoundaryRequired
  end.
Definition component (name : string) (body : composite_source) (role : ComponentRole)
    (inputs outputs : option (list Port)) : result authoring_error DefinitionBundle :=
  match body with
  | FromBundle b =>
      wrapped name role (BRef (bundle_ref b None [] None))
        (Some (from_option id b.(bundle_definition).(def_inputs) inputs))
        (Some (from_option id b.(bundle_definition).(def_outputs) outputs))
  | FromGraph g =>
      if redeclared inputs (graph_inputs g) || redeclared outputs (graph_outputs g)
      then Raise RedeclaredBoundary
      else Ok (composite name role g (graph_inputs g) (graph_outputs g))
  | FromRef r => wrapped name role (BRef r) inputs outputs
  | FromLoop l => wrapped name role (BLoop l) inputs outputs
  end.
Definition harness (name : string) (body : composite_source) (inputs outputs : option (list Port)) :
    result authoring_error DefinitionBundle :=
  component name body RoleHarness inputs outputs.

(** ** [flow] *)
Definition or_raise {A} (o : option A) (e : authoring_error) : result authoring_error A :=
  match o with Some a => Ok a | None => Raise e end.
Definition boundary_of (given : option (list Port)) (step : option AuthoringStep)
    (own : ComponentDef → list Port) (e : authoring_error) : result authoring_error (list Port) :=
  match given with
  | Some ports => Ok ports
  | None => or_raise ((λ b, own b.(bundle_definition)) <$> (step ≫= as_bundle)) e
  end.
Definition flow_maps : Type := list (string * list (string * string)).
(** [for index in range(1, len(node_ids))] *)
Fixpoint chain_connections (maps : flow_maps) (node_ids : list string) : list Connection :=
  match node_ids with
  | source :: (destination :: _) as rest =>
      mkConnection source destination (Dict.get_or destination [] maps)
        :: chain_connections maps rest
  | _ => []
  end.
Definition flow (name : string) (steps : list AuthoringStep) (maps : option flow_maps)
    (ids : option (list string)) (inputs outputs : option (list Port)) :
    result authoring_error DefinitionBundle :=
  match steps with
  | [] => Raise FlowWithoutSteps
  | _ =>
      let refs := _to_ref <$> steps in
      node_ids ← _node_ids refs ids;
      inputs ← boundary_of inputs (head steps) def_inputs FlowInputsRequired;
      outputs ← boundary_of outputs (last steps) def_outputs FlowOutputsRequired;
      let maps_by_id := from_option id [] maps in
      match sorted_set (filter (λ k, k ∉ node_ids) (Dict.keys maps_by_id)) with
      | [] =>
          first ← or_raise (head node_ids) FlowWithoutSteps;
          if Dict.mem first maps_by_id then Raise (FlowMapOnFirst first) else
          component name
            (FromGraph (mkGraph name (zip_with (λ i r, mkNode i (BRef r)) node_ids refs)
               (chain_connections maps_by_id node_ids) inputs outputs))
            RoleWorkflow None None
      | unknown => Raise (FlowUnknownMaps unknown node_ids)
      end
  end.

(** ** [panel] *)
Definition _same_contract (left right : Port) : bool :=
  bool_decide (left.(type_id) = right.(type_id))
  && bool_decide (left.(schema_hash) = right.(schema_hash)).

Fixpoint same_contracts (first : ComponentDef) (others : list ComponentDef) :
    result authoring_error unit :=
  match others with
  | [] => Ok tt
  | d :: others =>
      if negb (same_boundary d.(def_inputs) first.(def_inputs))
         || negb (same_boundary d.(def_outputs) first.(def_outputs))
      then Raise (PanelMemberContract d.(def_name) first.(def_name))
      else same_contracts first others
  end.
Definition _one_member_contract (first : ComponentDef) (others : list ComponentDef) :
    result authoring_error (Port * Port) :=
  match first.(def_inputs), first.(def_outputs) with
  | [request], [result_] =>
      if decide (request.(port_cardinality) ≠ CardOne ∨ result_.(port_cardinality) ≠ CardOne)
      then Raise (PanelMemberCardinality first.(def_name) request.(port_cardinality)
                    result_.(port_cardinality))
      else _ ← same_contracts first others; Ok (request, result_)
  | ins, outs => Raise (PanelMemberArity first.(def_name) (length ins) (length outs))
  end.
Definition gathers_many (p : Port) : Prop := p.(port_cardinality) = CardMany.
#[export] Instance gathers_many_dec p : Decision (gathers_many p).
Proof. unfold gathers_many. apply _. Defined.
Definition _aggregator_contract (aggregator : ComponentDef) (result_ : Port) :
    result authoring_error (Port * list Port) :=
  match filter gathers_many aggregator.(def_inputs) with
  | [gathers] =>
      if _same_contract gathers result_
      then Ok (gathers, filter (λ p, ¬ gathers_many p) aggregator.(def_inputs))
      else Raise (PanelGatherContract aggregator.(def_name) gathers result_)
  | l => Raise (PanelGatherCount aggregator.(def_name) (length l))
  end.
Fixpoint check_policy (result_ : Port) (policy : list Port) : result authoring_error unit :=
  match policy with
  | [] => Ok tt
  | p :: policy =>
      if _same_contract p result_ then Raise (PanelPolicyIsResult p.(port_name))
      else check_policy result_ policy
  end.
Definition gather_id (aggregator : DefinitionBundle) (given : option string) :
    result authoring_error string :=
  match given with
  | Some id => Ok id
  | None =>
      ids ← _node_ids [bundle_ref aggregator None [] None] None;
      or_raise (head ids) IdEmpty
  end.
Definition panel_graph (name : string) (member_ids : list string) (member_refs : list Ref)
    (gather : string) (aggregator_ref : Ref) (gathers result_ : Port) (inputs outputs : list Port) : Graph :=
  mkGraph name
    (zip_with (λ i r, mkNode i (BRef r)) member_ids member_refs ++ [mkNode gather (BRef aggregator_ref)])
    ((λ m, mkConnection m gather
             [(gathers.(port_name), m +:+ "." +:+ result_.(port_name))]) <$> member_ids)
    inputs outputs.
Definition panel (name : string) (members : list AuthoringStep) (aggregator : AuthoringStep)
    (ids : option (list string)) (aggregator_id : option string) :
    result authoring_error DefinitionBundle :=
  if decide (length members < 2) then Raise PanelTooFew else
  members ← or_raise (mapM as_bundle members) PanelMemberNotBundle;
  aggregator ← or_raise (as_bundle aggregator) PanelAggregatorNotBundle;
  let agg := aggregator.(bundle_definition) in
  match agg.(body) with
  | CGraph _ => Raise (PanelAggregatorComposite agg.(def_name))
  | CPython _ =>
      match members with
      | [] => Raise PanelTooFew
      | first :: others =>
          '(request, result_) ← _one_member_contract first.(bundle_definition)
                                  (bundle_definition <$> others);
          if decide (result_.(port_name) = "") then Raise PanelEmptyResultName else
          if _same_contract request result_ then Raise PanelRequestIsResult else
          '(gathers, policy) ← _aggregator_contract agg result_;
          let refs := (λ m, bundle_ref m None [] None) <$> members in
          member_ids ← _node_ids refs ids;
          if existsb has_dot member_ids then Raise PanelDottedMember else
          gather ← gather_id aggregator aggregator_id;
          _ ← _validate_ids [gather];
          if decide (gather ∈ member_ids) then Raise (PanelIdCollision gather) else
          let inputs := request :: policy in
          _ ← check_policy result_ policy;
          let names := port_name <$> inputs in
          if decide (length (remove_dups names) ≠ length names) then Raise (PanelPortsCollide names) else
          component name
            (FromGraph (panel_graph name member_ids refs gather (bundle_ref aggregator None [] None)
               gathers result_ inputs agg.(def_outputs)))
            RoleWorkflow None None
      end
  end.
End sdk.
Arguments DefinitionBundle : clear implicits.
Arguments AuthoringStep : clear implicits.
Arguments loop_source : clear implicits.
Arguments composite_source : clear implicits.
