(* ===== verification/CombinatorSpec.v ===== *)
(** What the combinators of the SDK build ([Combinators]): the ids they give to
    nodes, the chain a [flow] is and the seating of a [panel], each stated
    against the topology and the binding that admission runs on it. *)

From S2P Require Import Prelude Identity Address Graph Component Topology Binding.
From S2P Require Import Admission Combinators.
From Stdlib Require Import Ascii DecimalString.

(** ** Node ids *)
Definition usable_id (i : string) : Prop := i ≠ "" ∧ String.prefix "$" i = false.
Lemma validate_ids_ok ids : _validate_ids ids = Ok tt ↔ Forall usable_id ids.
Proof.
  induction ids as [|i ids IH]; simpl; [done|]. rewrite Forall_cons. unfold usable_id at 1.
  case_decide; [naive_solver|]. destruct (String.prefix "$" i); [naive_solver|]. naive_solver.
Qed.

Definition chars (s : string) : list ascii := String.list_ascii_of_string s.
Lemma chars_app s t : chars (s +:+ t) = chars s ++ chars t.
Proof. apply list_ascii_app. Qed.
Lemma chars_of l : chars (String.string_of_list_ascii l) = l.
Proof. apply String.list_ascii_of_string_of_list_ascii. Qed.
Definition word_id (i : string) : Prop := i ≠ "" ∧ Forall (λ c, is_word c = true) (chars i).

Lemma word_not_dot i : Forall (λ c, is_word c = true) (chars i) → has_dot i = false.
Proof.
  intros H. unfold has_dot. apply bool_decide_eq_false. intros Hin. rewrite Forall_forall in H.
  by specialize (H _ Hin).
Qed.
Lemma word_usable i : word_id i → usable_id i.
Proof.
  intros [Hne H]. split; [done|]. destruct i as [|c i]; [done|].
  unfold chars in H. apply Forall_cons in H as [H _]. cbn [String.prefix].
  destruct (ascii_dec "$" c) as [<-|]; [by vm_compute in H|done].
Qed.
Lemma sub_runs_word b l : Forall (λ c, is_word c = true) (sub_runs b l).
Proof.
  revert b. induction l as [|c l IH]; intros b; simpl; [constructor|].
  destruct (is_word c) eqn:E; [by constructor|]. destruct b; [done|]. by constructor.
Qed.
Lemma lstrip_sub l : lstrip_underscore l ⊆ l.
Proof. induction l as [|c l IH]; simpl; [done|]. case_decide; set_solver. Qed.
Lemma strip_sub l : strip_underscore l ⊆ l.
Proof.
  intros c. unfold strip_underscore. rewrite elem_of_reverse. intros H%lstrip_sub.
  rewrite elem_of_reverse in H. by apply lstrip_sub.
Qed.
Lemma id_base_word r : word_id (id_base r).
Proof.
  unfold id_base. cbv zeta. case_decide as Hb.
  - split; [done|]. by repeat constructor.
  - split; [done|]. rewrite chars_of. apply Forall_forall. intros c Hc%strip_sub.
    pose proof (sub_runs_word false (last_segment (String.list_ascii_of_string (Graph.component r)))) as H.
    rewrite Forall_forall in H. by apply H.
Qed.

Definition digit (c : ascii) : bool := let n := N_of_ascii c in ((48 <=? n) && (n <=? 57))%N.
Lemma digits_of_uint d : Forall (λ c, digit c = true) (chars (NilEmpty.string_of_uint d)).
Proof. induction d; simpl; constructor; done. Qed.
Lemma int_digits n : Forall (λ c, digit c = true) (chars (py_int_str n)).
Proof. unfold py_int_str. rewrite chars_of. unfold render_int. destruct n; apply digits_of_uint. Qed.
Lemma py_int_str_inj n m : py_int_str n = py_int_str m → n = m.
Proof.
  unfold py_int_str. intros H%string_of_list_ascii_inj%render_int_inj. lia.
Qed.
Lemma digit_word c : digit c = true → is_word c = true.
Proof. unfold digit, is_word. cbv zeta. intros ->. by rewrite orb_true_r. Qed.

(** [base_n] has one reading: the number is what follows the last underscore. *)
Lemma numbered_inj b b' n m :
  b +:+ "_" +:+ py_int_str n = b' +:+ "_" +:+ py_int_str m → b = b' ∧ n = m.
Proof.
  intros H%(f_equal chars). rewrite !chars_app in H. apply (f_equal reverse) in H.
  rewrite !reverse_app in H.
  assert (∀ k, Forall (λ c, digit c = true) (reverse (chars (py_int_str k)))) as Hd
    by (intros k; apply Forall_reverse, int_digits).
  rewrite <-!app_assoc in H. apply (span_unique digit) in H as [Hn Hb]; [|apply Hd..|done|done].
  split; [|by apply py_int_str_inj, list_ascii_inj, (inj reverse)].
  simpl in Hb. injection Hb as Hb. by apply list_ascii_inj, (inj reverse).
Qed.
Lemma numbered_word b n : word_id b → word_id (numbered b n).
Proof.
  intros [Hne H]. unfold numbered. case_decide; [done|]. split; [by destruct b|].
  rewrite !chars_app. apply Forall_app. split; [done|]. constructor; [done|].
  eapply Forall_impl; [apply int_digits|]. intros c. apply digit_word.
Qed.
Lemma generated_word counts refs : Forall word_id (generate_ids counts refs).
Proof.
  revert counts. induction refs as [|r refs IH]; intros counts; simpl; constructor; [|apply IH].
  apply numbered_word, id_base_word.
Qed.
Lemma generated_length counts refs : length (generate_ids counts refs) = length refs.
Proof. revert counts. induction refs; intros; simpl; [done|]. by f_equal. Qed.

(** Two names clash when one step's base is another's base followed by a count. *)
Definition clash (refs : list Ref) : Prop :=
  ∃ r r' n, r ∈ refs ∧ r' ∈ refs ∧ (2 ≤ n)%N ∧ id_base r = numbered (id_base r') n.
Lemma elem_of_generated counts refs i : i ∈ generate_ids counts refs →
  ∃ r n, r ∈ refs ∧ (Dict.get_or (id_base r) 0 counts < n)%N ∧ i = numbered (id_base r) n.
Proof.
  revert counts. induction refs as [|r refs IH]; intros counts; simpl; [by intros ?%elem_of_nil|].
  intros [->|Hi]%elem_of_cons.
  - exists r, (Dict.get_or (id_base r) 0 counts + 1)%N. split; [left|]. split; [lia|done].
  - destruct (IH _ Hi) as (r' & n & Hr' & Hn & ->). exists r', n. split; [by right|]. split; [|done].
    unfold Dict.get_or in *. rewrite Dict.get_set in Hn. case_decide as Hb; [|done].
    simpl in Hn. rewrite Hb. lia.
Qed.
Lemma generated_NoDup counts refs : ¬ clash refs → NoDup (generate_ids counts refs).
Proof.
  revert counts. induction refs as [|r refs IH]; intros counts Hc; simpl; constructor.
  - intros (r' & n & Hr' & Hn & Heq)%elem_of_generated. unfold Dict.get_or in Hn.
    rewrite Dict.get_set in Hn.
    assert (∀ m k, (1 ≤ m)%N → (1 ≤ k)%N → numbered (id_base r) m = numbered (id_base r') k →
      id_base r = id_base r' ∧ m = k) as Hone.
    { intros m k Hm Hk. unfold numbered. destruct (decide (m = 1%N)) as [->|Hm1], (decide (k = 1%N)) as [->|Hk1].
      - done.
      - intros Hb. destruct Hc. exists r, r', k. split_and!; [left|by right|lia|].
        unfold numbered. by rewrite decide_False.
      - intros Hb. destruct Hc. exists r', r, m. split_and!; [by right|left|lia|].
        unfold numbered. by rewrite decide_False.
      - intros [-> ->]%numbered_inj. done. }
    apply Hone in Heq as [Hb Hk]; [|lia|].
    + rewrite <-Hb, decide_True in Hn by done. simpl in Hn. subst n. unfold Dict.get_or in Hn. lia.
    + destruct (decide (id_base r' = id_base r)); simpl in *; lia.
  - apply IH. intros (r1 & r2 & n & H1 & H2 & Hn & Hb). apply Hc. exists r1, r2, n.
    split_and!; [by right..|done|done].
Qed.
Lemma generated_ids_ok refs : _node_ids refs None = Ok (generate_ids [] refs).
Proof.
  unfold _node_ids. cbv zeta. rewrite (proj2 (validate_ids_ok _)); [done|].
  eapply Forall_impl; [apply generated_word|]. apply word_usable.
Qed.
Lemma remove_dups_length {A} `{EqDecision A} (l : list A) :
  length (remove_dups l) = length l → NoDup l.
Proof.
  induction l as [|x l IH]; simpl; [constructor|].
  assert (length (remove_dups l) ≤ length l) as Hle
    by (clear; induction l; simpl; [done|]; case_decide; simpl; lia).
  case_decide as Hx; simpl; intros Hlen; [lia|]. constructor; [done|]. apply IH. lia.
Qed.
Lemma node_ids_ok refs explicit ids :
  _node_ids refs explicit = Ok ids →
  length ids = length refs ∧ Forall usable_id ids ∧
  match explicit with Some l => ids = l ∧ NoDup ids | None => ids = generate_ids [] refs end.
Proof.
  destruct explicit as [l|].
  - unfold _node_ids. case_decide as Hl; [done|]. case_decide as Hd; [done|].
    intros ([] & Hv & [= <-])%result_bind_ok. apply validate_ids_ok in Hv.
    split_and!; [done..|]. by apply remove_dups_length.
  - rewrite generated_ids_ok. intros [= <-]. split_and!; [apply generated_length| |done].
    eapply Forall_impl; [apply generated_word|]. apply word_usable.
Qed.

Lemma NoDup_taken {A} n (l : list A) : NoDup l → NoDup (take n l).
Proof. intros H. eapply sublist_NoDup; [exact H|apply sublist_take]. Qed.

(** ** Orders forced by the edges

    A level whose ancestry is a total order has one topological arrangement. *)
Lemma ancestors_unique (before : NodeId → NodeId → Prop) l k :
  NoDup k → l ≡ₚ k →
  (∀ i j x y, k !! i = Some x → k !! j = Some y → i < j → before x y) →
  (∀ i x, l !! i = Some x → ∀ y, before y x → y ∈ take i l) → l = k.
Proof.
  intros Hnd Hp Htotal Hl.
  assert (NoDup l) as Hndl by (by rewrite Hp).
  set (R x y := ∃ i j, k !! i = Some x ∧ k !! j = Some y ∧ i ≤ j).
  assert (∀ l', NoDup l' → l' ⊆ k → (∀ i j x y, l' !! i = Some x → l' !! j = Some y → i < j → R x y) →
    StronglySorted R l') as Hsort.
  { intros l' _ Hsub HR. clear -HR. induction l' as [|x l' IH]; constructor.
    - apply IH. intros i j a b Ha Hb Hij. apply (HR (S i) (S j)); [done..|lia].
    - apply Forall_lookup. intros j y Hy. apply (HR 0 (S j)); [done..|lia]. }
  eapply (StronglySorted_unique_strong R); [|apply Hsort|apply Hsort|done].
  - intros x y _ _ (i & j & Hi & Hj & Hij) (j' & i' & Hj' & Hi' & Hij').
    assert (i' = i) as -> by (by eapply (NoDup_lookup k)). assert (j' = j) as -> by (by eapply (NoDup_lookup k)).
    assert (i = j) as -> by lia. congruence.
  - done.
  - by rewrite Hp.
  - intros i j x y Hi Hj Hij.
    assert (x ∈ k) as [a Ha]%list_elem_of_lookup by (rewrite <-Hp; by eapply list_elem_of_lookup_2).
    assert (y ∈ k) as [b Hb]%list_elem_of_lookup by (rewrite <-Hp; by eapply list_elem_of_lookup_2).
    exists a, b. split_and!; [done..|]. destruct (decide (a ≤ b)) as [|Hgt]; [done|]. exfalso.
    assert (y ∈ take i l) as Hy by (eapply Hl; [exact Hi|]; eapply (Htotal b a); [done..|lia]).
    apply list_elem_of_lookup in Hy as [m Hm]. apply lookup_take_Some in Hm as [Hm Hmi].
    assert (m = j) by (by eapply (NoDup_lookup l)). lia.
  - done.
  - done.
  - intros i j x y Hi Hj Hij. exists i, j. split_and!; [done..|lia].
Qed.
Lemma fmap_perm_eq {A B} (f : A → B) l k :
  NoDup (f <$> k) → l ≡ₚ k → f <$> l = f <$> k → l = k.
Proof.
  intros Hnd Hp Hf. apply list_eq. intros i.
  assert ((f <$> l) !! i = (f <$> k) !! i) as Hi by (by rewrite Hf). rewrite !list_lookup_fmap in Hi.
  destruct (l !! i) as [x|] eqn:Hx, (k !! i) as [y|] eqn:Hy; simplify_eq/=; [|done].
  assert (x ∈ k) as [j Hj]%list_elem_of_lookup by (rewrite <-Hp; by eapply list_elem_of_lookup_2).
  assert (i = j) as ->; [|congruence]. eapply (NoDup_lookup (f <$> k) i j (f x)); [done| |];
    rewrite list_lookup_fmap; [rewrite Hy|rewrite Hj]; simpl; congruence.
Qed.

(** ** A chain of connections *)
Section chain.
Context (maps : flow_maps) (ids : list string) (Hnd : NoDup ids).
Lemma chain_lookup i c :
  chain_connections maps ids !! i = Some c ↔
  ∃ x y, ids !! i = Some x ∧ ids !! S i = Some y ∧ c = mkConnection x y (Dict.get_or y [] maps).
Proof.
  clear Hnd. revert i. induction ids as [|x l IH]; intros i; [simpl; rewrite lookup_nil; naive_solver|].
  destruct l as [|y l].
  - simpl. rewrite lookup_nil. split; [done|]. by intros (? & ? & _ & ? & _).
  - cbn [chain_connections]. destruct i as [|i]; [simpl; naive_solver|]. simpl. apply IH.
Qed.
Context (g : Graph) (Hc : connections g = chain_connections maps ids) (Hids : node_ids g = ids).
Lemma chain_edge x y : edge g x y ↔ ∃ i, ids !! i = Some x ∧ ids !! S i = Some y.
Proof.
  unfold edge. rewrite Hc. split.
  - intros (c & (i & Hi)%list_elem_of_lookup & <- & <-). apply chain_lookup in Hi as (x' & y' & ? & ? & ->).
    by exists i.
  - intros (i & Hx & Hy). exists (mkConnection x y (Dict.get_or y [] maps)).
    split; [|done]. apply list_elem_of_lookup. exists i. apply chain_lookup. by exists x, y.
Qed.
Lemma line_tc x y : tc (edge g) x y ↔ ∃ i j, i < j ∧ ids !! i = Some x ∧ ids !! j = Some y.
Proof.
  split.
  - induction 1 as [x y (i & Hx & Hy)%chain_edge|x y z (i & Hx & Hy)%chain_edge _ (j & k & Hj & Hy' & Hz)].
    + exists i, (S i). split_and!; [lia|done..].
    + assert (j = S i) as -> by (by eapply NoDup_lookup). exists i, k. split_and!; [lia|done..].
  - intros (i & j & Hij & Hx & Hy). revert x Hx. remember (j - i - 1) as n eqn:Hn. revert i Hij Hn.
    induction n as [|n IH]; intros i Hij Hn x Hx.
    + assert (j = S i) as -> by lia. apply tc_once, chain_edge. by exists i.
    + destruct (lookup_lt_is_Some_2 ids (S i)) as [z Hz].
      { apply lookup_lt_Some in Hy. lia. }
      eapply tc_l; [apply chain_edge; exists i; by split|]. apply (IH (S i)); [lia..|done].
Qed.
Lemma chain_declared : endpoints_declared g.
Proof.
  unfold endpoints_declared. rewrite Hc, Hids. intros c (i & Hi)%list_elem_of_lookup.
  apply chain_lookup in Hi as (x & y & Hx & Hy & ->). simpl.
  split; by eapply list_elem_of_lookup_2.
Qed.
Lemma chain_acyclic : acyclic g.
Proof.
  intros x (i & j & Hij & Hi & Hj)%line_tc. assert (i = j) by (by eapply NoDup_lookup). lia.
Qed.
Lemma chain_order : ∃ up, _upstream_closure g = Ok up ∧ _ordered_nodes g up = Ok (nodes g) ∧
  ∀ j x, ids !! j = Some x → Dict.get x up = Some (take j ids).
Proof.
  destruct (upstream_closure_spec g chain_declared chain_acyclic) as (up & Hup & Hok & Hall).
  assert (NoDup (node_ids g)) as Hndg by (by rewrite Hids).
  destruct (ordered_nodes_spec g chain_declared chain_acyclic Hndg up Hok Hall) as (l & Hl & Hp & Haf).
  exists up. split; [done|]. split.
  - rewrite Hl. f_equal. apply (fmap_perm_eq node_id); [done|done|].
    apply (ancestors_unique (tc (edge g))); [done|by rewrite Hp| |exact Haf].
    intros i j x y Hi Hj Hij. apply line_tc. exists i, j.
    unfold node_ids in Hids. rewrite Hids in Hi, Hj. done.
  - intros j x Hx. destruct (Hall x) as [k Hk].
    { rewrite Hids. by eapply list_elem_of_lookup_2. }
    rewrite Hk. f_equal. destruct (Hok _ _ Hk) as (Hndk & Hin & Hafk).
    apply (ancestors_unique (tc (edge g))).
    + by apply NoDup_taken.
    + apply NoDup_Permutation; [done|by apply NoDup_taken|]. intros y. rewrite Hin, line_tc.
      rewrite list_elem_of_lookup. setoid_rewrite lookup_take_Some. split.
      * intros (i & j' & Hij & Hi & Hj'). assert (j' = j) as -> by (by eapply (NoDup_lookup ids)).
        exists i. by split.
      * intros (i & Hi & Hij). by exists i, j.
    + intros a b y z [Ha _]%lookup_take_Some [Hb _]%lookup_take_Some Hab.
      apply line_tc. by exists a, b.
    + exact Hafk.
Qed.
End chain.

(** ** [flow] *)
Section composites.
Context {NodeImpl : Type}.
Implicit Types (b : DefinitionBundle NodeImpl) (steps : list (AuthoringStep NodeImpl)).

Lemma composite_of_graph name g r :
  component (NodeImpl:=NodeImpl) name (FromGraph g) r None None
  = Ok (composite name r g (graph_inputs g) (graph_outputs g)).
Proof. done. Qed.
Lemma or_raise_ok {A} (o : option A) e a : or_raise o e = Ok a ↔ o = Some a.
Proof. destruct o; naive_solver. Qed.

Lemma zip_ids (ids : list string) (refs : list Ref) : length ids = length refs →
  node_id <$> zip_with (λ i r, mkNode i (BRef r)) ids refs = ids.
Proof.
  revert refs. induction ids as [|i ids IH]; intros [|r refs]; simpl; try done. intros [= H]. f_equal. auto.
Qed.
Lemma zip_bodies (ids : list string) (refs : list Ref) : length ids = length refs →
  node_body_of <$> zip_with (λ i r, mkNode i (BRef r)) ids refs = BRef <$> refs.
Proof.
  revert refs. induction ids as [|i ids IH]; intros [|r refs]; simpl; try done. intros [= H]. f_equal. auto.
Qed.

Lemma flow_inv name steps maps ids ins outs b :
  flow name steps maps ids ins outs = Ok b →
  ∃ node_ids i o,
    _node_ids (_to_ref <$> steps) ids = Ok node_ids ∧
    boundary_of ins (head steps) def_inputs FlowInputsRequired = Ok i ∧
    boundary_of outs (last steps) def_outputs FlowOutputsRequired = Ok o ∧
    (∀ k, k ∈ Dict.keys (from_option id [] maps) → k ∈ tail node_ids) ∧
    b = composite name RoleWorkflow
          (mkGraph name (zip_with (λ i r, mkNode i (BRef r)) node_ids (_to_ref <$> steps))
             (chain_connections (from_option id [] maps) node_ids) i o) i o.
Proof.
  unfold flow. destruct steps as [|s steps]; [done|].
  intros (nids & Hn & (i & Hi & (o & Ho & H)%result_bind_ok)%result_bind_ok)%result_bind_ok.
  cbv zeta in H. destruct (sorted_set _) as [|u us] eqn:Hu in H; [|done].
  apply result_bind_ok in H as (first & Hf%or_raise_ok & H).
  destruct (Dict.mem first _) eqn:Hm in H; [done|]. rewrite composite_of_graph in H. injection H as <-.
  exists nids, i, o. split_and!; [done..| |done]. intros k Hk.
  assert (k ∈ nids) as Hin.
  { destruct (decide (k ∈ nids)) as [|Hno]; [done|]. exfalso.
    apply (not_elem_of_nil k). rewrite <-Hu. apply elem_of_sorted_set, list_elem_of_filter. by split. }
  destruct nids as [|f nids]; [done|]. injection Hf as ->. simpl.
  apply elem_of_cons in Hin as [->|]; [|done]. apply bool_decide_eq_false in Hm.
  destruct Hm. by apply Dict.get_is_Some.
Qed.

(** What the ancestry of a level must be for its order to be the authored one. *)
Definition pipeline (g : Graph) : Prop :=
  NoDup (node_ids g) ∧ undeclared_endpoints g = [] ∧ find_back_edges g = Some [] ∧
  ∃ up, _upstream_closure g = Ok up ∧ _ordered_nodes g up = Ok (nodes g) ∧
    ∀ j x, node_ids g !! j = Some x → Dict.get x up = Some (take j (node_ids g)).
Lemma no_back_edges g : endpoints_declared g → acyclic g → find_back_edges g = Some [].
Proof.
  intros Hd Hac. destruct (find_back_edges_spec g Hd) as (found & Hf & Hiff & _).
  by rewrite Hf, (proj2 Hiff Hac).
Qed.
Lemma chain_pipeline maps g :
  NoDup (node_ids g) → connections g = chain_connections maps (node_ids g) → pipeline g.
Proof.
  intros Hnd Hc.
  pose proof (chain_declared maps (node_ids g) g Hc eq_refl) as Hd.
  pose proof (chain_acyclic maps (node_ids g) Hnd g Hc) as Hac.
  split_and!; [done|by apply undeclared_endpoints_nil|by apply no_back_edges|].
  by apply (chain_order maps (node_ids g) Hnd g Hc).
Qed.

(** A flow is the pipeline it reads as: the graph has one node per step referring to that
    step, usable unique ids, one connection between each adjacent pair carrying exactly the map
    given for its target and no other, the declared or inferred boundary, and no map is lost
    (when ids are generated, unless two of them clash). *)
Theorem flow_is_a_pipeline name steps maps ids ins outs b :
  flow name steps maps ids ins outs = Ok b →
  (ids = None → ¬ clash (_to_ref <$> steps)) →
  ∃ g, b.(bundle_definition).(body) = CGraph g ∧
    b.(bundle_definition).(def_inputs) = graph_inputs g ∧
    b.(bundle_definition).(def_outputs) = graph_outputs g ∧
    (∀ ports, ins = Some ports → graph_inputs g = ports) ∧
    (ins = None → ∃ d, head steps = Some (StepBundle d) ∧ graph_inputs g = d.(bundle_definition).(def_inputs)) ∧
    (∀ ports, outs = Some ports → graph_outputs g = ports) ∧
    (outs = None → ∃ d, last steps = Some (StepBundle d) ∧ graph_outputs g = d.(bundle_definition).(def_outputs)) ∧
    node_body_of <$> nodes g = (λ s, BRef (_to_ref s)) <$> steps ∧
    Forall usable_id (node_ids g) ∧ pipeline g ∧
    ∀ k m, Dict.get k (from_option id [] maps) = Some m →
      ∃ i x, node_ids g !! S i = Some k ∧ connections g !! i = Some (mkConnection x k m).
Proof.
  intros (nids & i & o & Hn & Hi & Ho & Hk & ->)%flow_inv Hcl.
  destruct (node_ids_ok _ _ _ Hn) as (Hlen & Huse & Hids).
  assert (NoDup nids) as Hnd.
  { destruct ids; [apply Hids|]. rewrite Hids. by apply generated_NoDup, Hcl. }
  set (g := mkGraph _ _ _ _ _). exists g.
  assert (node_ids g = nids) as Hg by (by apply zip_ids).
  assert (∀ given step own e ports, boundary_of (NodeImpl:=NodeImpl) given step own e = Ok ports →
    (∀ p, given = Some p → ports = p) ∧
    (given = None → ∃ d, step = Some (StepBundle d) ∧ ports = own d.(bundle_definition))) as Hb.
  { intros [p|] step own e ports; simpl; [naive_solver|]. intros Hs%or_raise_ok. split; [done|]. intros _.
    destruct step as [[d| |]|]; simplify_eq/=. by exists d. }
  destruct (Hb _ _ _ _ _ Hi) as [Hi1 Hi2]. destruct (Hb _ _ _ _ _ Ho) as [Ho1 Ho2].
  split_and!; [done..| | | |].
  - simpl. rewrite zip_bodies by done. by rewrite <-list_fmap_compose.
  - by rewrite Hg.
  - eapply chain_pipeline; rewrite Hg; [done|reflexivity].
  - intros k m Hm. rewrite Hg. assert (k ∈ tail nids) as [j Hj]%list_elem_of_lookup.
    { apply Hk, Dict.get_is_Some. by rewrite Hm. }
    rewrite lookup_tail in Hj. destruct (lookup_lt_is_Some_2 nids j) as [x Hx].
    { apply lookup_lt_Some in Hj. lia. }
    exists j, x. split; [done|]. apply chain_lookup. exists x, k. split_and!; [done..|].
    unfold Dict.get_or. by rewrite Hm.
Qed.

(** ** [panel] *)

(** What a panel proves about its members and aggregator at authoring time. *)
Record seats (members : list ComponentDef) (agg : ComponentDef) (request result_ gathers : Port)
    (policy : list Port) (member_ids : list string) (gather : string) : Prop := {
  st_request : request.(port_cardinality) = CardOne;
  st_result : result_.(port_cardinality) = CardOne;
  st_members m : m ∈ members → same_boundary m.(def_inputs) [request] = true ∧
    same_boundary m.(def_outputs) [result_] = true;
  st_own : ∃ m, m ∈ members ∧ m.(def_inputs) = [request];
  st_named : result_.(port_name) ≠ "";
  st_distinct : _same_contract request result_ = false;
  st_gather : filter gathers_many agg.(def_inputs) = [gathers];
  st_contract : _same_contract gathers result_ = true;
  st_policy : policy = filter (λ p, ¬ gathers_many p) agg.(def_inputs);
  st_foreign p : p ∈ policy → _same_contract p result_ = false;
  st_length : length member_ids = length members;
  st_usable : Forall usable_id (member_ids ++ [gather]);
  st_dots m : m ∈ member_ids → has_dot m = false;
  st_fresh : gather ∉ member_ids;
  st_ports : NoDup (port_name <$> request :: policy);
}.
Lemma same_contracts_ok first others : same_contracts first others = Ok tt →
  ∀ d, d ∈ others → same_boundary d.(def_inputs) first.(def_inputs) = true ∧
    same_boundary d.(def_outputs) first.(def_outputs) = true.
Proof.
  induction others as [|d others IH]; simpl; [by intros _ ? ?%elem_of_nil|].
  destruct (same_boundary (def_inputs d) _) eqn:E1; [|done].
  destruct (same_boundary (def_outputs d) _) eqn:E2; [|done]. simpl.
  intros H x [->|Hx]%elem_of_cons; [done|]. by apply IH.
Qed.
Lemma same_boundary_refl l : same_boundary l l = true.
Proof. by apply bool_decide_eq_true. Qed.
Lemma one_member_contract_ok first others request result_ :
  _one_member_contract first others = Ok (request, result_) →
  request.(port_cardinality) = CardOne ∧ result_.(port_cardinality) = CardOne ∧
  first.(def_inputs) = [request] ∧
  ∀ m, m ∈ first :: others → same_boundary m.(def_inputs) [request] = true ∧
    same_boundary m.(def_outputs) [result_] = true.
Proof.
  unfold _one_member_contract. destruct (def_inputs first) as [|r [|]] eqn:Ei; [done| |done].
  destruct (def_outputs first) as [|s [|]] eqn:Eo; [done| |done].
  case_decide as Hc; [done|]. intros ([] & Hs & [= -> ->])%result_bind_ok.
  destruct (decide (port_cardinality request = CardOne)) as [Hr|]; [|tauto].
  destruct (decide (port_cardinality result_ = CardOne)) as [Ho|]; [|tauto].
  split; [done|]. split; [done|]. split; [done|].
  pose proof (same_contracts_ok _ _ Hs) as Hall. rewrite Ei, Eo in Hall.
  intros m [->|Hm]%elem_of_cons; [|by apply Hall]. rewrite Ei, Eo. split; apply same_boundary_refl.
Qed.
Lemma aggregator_contract_ok agg result_ gathers policy :
  _aggregator_contract agg result_ = Ok (gathers, policy) →
  filter gathers_many agg.(def_inputs) = [gathers] ∧ _same_contract gathers result_ = true ∧
  policy = filter (λ p, ¬ gathers_many p) agg.(def_inputs).
Proof.
  unfold _aggregator_contract. destruct (filter gathers_many _) as [|x [|]]; [done| |done].
  destruct (_same_contract x result_) eqn:E; [|done]. intros [= -> <-]. done.
Qed.
Lemma check_policy_ok result_ policy : check_policy result_ policy = Ok tt →
  ∀ p, p ∈ policy → _same_contract p result_ = false.
Proof.
  induction policy as [|p policy IH]; simpl; [by intros _ ? ?%elem_of_nil|].
  destruct (_same_contract p result_) eqn:E; [done|]. intros H x [->|Hx]%elem_of_cons; [done|]. by apply IH.
Qed.
Lemma as_bundles_ok (l : list (AuthoringStep NodeImpl)) ms : mapM as_bundle l = Some ms → l = StepBundle <$> ms.
Proof.
  intros H%mapM_Some_1. induction H as [|s d l ms Hs _ ->]; [done|]. destruct s; naive_solver.
Qed.

Lemma panel_inv name members aggregator ids aid b :
  panel name members aggregator ids aid = Ok b →
  ∃ ms agg p request result_ gathers policy mids gather,
    members = StepBundle <$> ms ∧ aggregator = StepBundle agg ∧
    agg.(bundle_definition).(body) = CPython p ∧ 2 ≤ length ms ∧
    _node_ids (_to_ref <$> members) ids = Ok mids ∧
    seats (bundle_definition <$> ms) agg.(bundle_definition) request result_ gathers policy mids gather ∧
    (∀ id, aid = Some id → gather = id) ∧
    let g := panel_graph name mids (_to_ref <$> members) gather (_to_ref aggregator) gathers result_
               (request :: policy) agg.(bundle_definition).(def_outputs) in
    b = composite name RoleWorkflow g (graph_inputs g) (graph_outputs g).
Proof.
  unfold panel. case_decide as Hlen; [done|].
  intros (ms & Hms%or_raise_ok%as_bundles_ok & H)%result_bind_ok.
  apply result_bind_ok in H as (agg & Ha%or_raise_ok & H). cbv zeta in H.
  assert (aggregator = StepBundle agg) as -> by (by destruct aggregator; simplify_eq/=).
  destruct (body _) as [p|] eqn:Hp in H; [|done]. destruct ms as [|first others]; [done|].
  apply result_bind_ok in H as ([request result_] & H1%one_member_contract_ok & H).
  destruct H1 as (Hr & Ho & Hown & Hall).
  case_decide as Hname; [done|]. destruct (_same_contract request result_) eqn:Hd; [done|].
  apply result_bind_ok in H as ([gathers policy] & H1%aggregator_contract_ok & H).
  destruct H1 as (Hg & Hc & Hpol).
  apply result_bind_ok in H as (mids & Hids & H).
  destruct (existsb has_dot mids) eqn:Hdot; [done|].
  apply result_bind_ok in H as (gather & Hgather & H).
  apply result_bind_ok in H as ([] & Hv%validate_ids_ok & H). case_decide as Hfresh; [done|].
  apply result_bind_ok in H as ([] & Hf & H). pose proof (check_policy_ok _ _ Hf) as Hforeign.
  case_decide as Hports; [done|]. rewrite composite_of_graph in H. injection H as <-.
  assert (_to_ref <$> members = (λ m, bundle_ref m None [] None) <$> first :: others) as Href.
  { rewrite Hms, <-list_fmap_compose. done. }
  destruct (node_ids_ok _ _ _ Hids) as (Hl & Hu & _).
  exists (first :: others), agg, p, request, result_, gathers, policy, mids, gather.
  split_and!; try done.
  - rewrite Hms, length_fmap in Hlen. simpl in *. lia.
  - by rewrite Href.
  - split; try done.
    + eexists. split; [left|done].
    + by rewrite Hl, !length_fmap.
    + apply Forall_app. by split.
    + intros m Hm. destruct (has_dot m) eqn:E; [|done]. exfalso.
      apply not_true_iff_false in Hdot. apply Hdot, existsb_elem. by exists m.
    + by apply remove_dups_length.
  - intros id ->. simpl in Hgather. congruence.
  - by rewrite Href.
Qed.

(** *** A star: every member connects to the gathering node *)
Section star.
Context (g : Graph) (mids : list string) (gather : string) (map_of : string → list (string * string)).
Context (Hids : node_ids g = mids ++ [gather]) (Hfresh : gather ∉ mids).
Context (Hc : connections g = (λ m, mkConnection m gather (map_of m)) <$> mids).
Lemma star_edge x y : edge g x y ↔ x ∈ mids ∧ y = gather.
Proof.
  unfold edge. rewrite Hc. split.
  - intros (c & (m & -> & Hm)%list_elem_of_fmap & <- & <-). done.
  - intros [Hx ->]. exists (mkConnection x gather (map_of x)). split; [|done]. apply list_elem_of_fmap. by exists x.
Qed.
Lemma star_tc x y : tc (edge g) x y ↔ x ∈ mids ∧ y = gather.
Proof.
  split; [|intros H; by apply tc_once, star_edge].
  destruct 1 as [x y H%star_edge|x y z [_ ->]%star_edge H]; [done|].
  assert (∀ u v, tc (edge g) u v → u ∈ mids) as Hsrc
    by (by destruct 1 as [? ? [? _]%star_edge|? ? ? [? _]%star_edge]).
  by apply Hsrc in H.
Qed.
Lemma star_declared : endpoints_declared g.
Proof.
  intros c. rewrite Hc, Hids. intros (m & -> & Hm)%list_elem_of_fmap. set_solver.
Qed.
Lemma star_acyclic : acyclic g.
Proof. intros x [Hx ->]%star_tc. done. Qed.
Lemma star_closure : ∃ up, _upstream_closure g = Ok up ∧
  (∃ l, Dict.get gather up = Some l ∧ (NoDup mids → l ≡ₚ mids)) ∧
  ∀ m, m ∈ mids → Dict.get m up = Some [].
Proof.
  destruct (upstream_closure_spec g star_declared star_acyclic) as (up & Hup & Hok & Hall).
  exists up. split; [done|]. split.
  - destruct (Hall gather) as [l Hl]; [rewrite Hids; set_solver|]. exists l. split; [done|].
    intros Hnd. destruct (Hok _ _ Hl) as (Hndl & Hin & _). apply NoDup_Permutation; [done..|].
    intros x. rewrite Hin, star_tc. naive_solver.
  - intros m Hm. destruct (Hall m) as [l Hl]; [rewrite Hids; set_solver|]. rewrite Hl.
    destruct (Hok _ _ Hl) as (_ & Hin & _). destruct l as [|x l]; [done|]. exfalso.
    assert (tc (edge g) x m) as [_ ->]%star_tc by (apply Hin; left). done.
Qed.
End star.

(** *** Binding a node of the panel *)

(** The arguments [compile_one_node] gives to a node. *)
Definition level_args (g : Graph) (scope : ScopePath) (inputs : source_dict) (gr : EffectiveGrants)
    (depth : nat) (loc : GraphLocation) (up : closure_dict) (outputs : node_dict) (id : NodeId) : node_args :=
  mkNodeArgs scope (node_pool up outputs inputs id) (Dict.get_or id [] (explicit_by_node g loc))
    outputs inputs gr depth
    (loc_child loc [Key "nodes"; Index (Dict.get_or id O (node_indices g)); Key "body"])
    loc (Dict.get id (incoming_indices g)).
Lemma compile_one_node_args cn g scope inputs gr depth loc up outputs node :
  compile_one_node cn g scope inputs gr depth loc up outputs node
  = let* out := cn node (level_args g scope inputs gr depth loc up outputs (node_id node)) in
    eret (Dict.set (node_id node) out outputs).
Proof. reflexivity. Qed.

Lemma append_get {A B} (key : A → string) (val : A → B) (l : list A) k :
  Dict.get_or k [] (foldl (λ d e, Dict.append (key e) (val e) d) [] l)
  = val <$> filter (λ e, key e = k) l.
Proof.
  induction l as [|x l IH] using rev_ind; [done|]. rewrite foldl_snoc, filter_app, fmap_app, <-IH.
  unfold Dict.append, Dict.get_or at 1. rewrite Dict.get_set.
  destruct (decide (key x = k)) as [<-|Hne].
  - rewrite decide_True, filter_cons_True by done. done.
  - rewrite decide_False, filter_cons_False by congruence. simpl. by rewrite app_nil_r.
Qed.
Lemma explicit_get g loc k :
  Dict.get_or k [] (explicit_by_node g loc)
  = (λ e, mkEntry e loc) <$> filter (λ e, e.(destination_node) = k) (_explicit_maps g).
Proof. apply (append_get destination_node (λ e, mkEntry e loc)). Qed.

Lemma partition_named m r : has_dot m = false → partition_dot (m +:+ "." +:+ r) = (m, r).
Proof.
  unfold has_dot, partition_dot. intros H%bool_decide_eq_false. fold (chars (m +:+ "." +:+ r)).
  rewrite chars_app. fold (chars m) in H.
  change (chars ("." +:+ r)) with ("."%char :: chars r).
  assert (partition_chars (chars m ++ "."%char :: chars r) = (chars m, chars r)) as ->.
  { induction (chars m) as [|c l IH]; [done|]. simpl. rewrite decide_False by set_solver.
    rewrite IH by set_solver. done. }
  unfold chars. by rewrite !String.string_of_list_ascii_of_string.
Qed.
Lemma mapM_all {A B} (h : A → B) (l : list A) : mapM id ((λ x, Some (h x)) <$> l) = Some (h <$> l).
Proof. induction l as [|x l IH]; [done|]. cbn. cbn in IH. by rewrite IH. Qed.

(** The one source of each port that is bound by name. *)
Definition one_each (at_ : Port → Source) (ports : list Port) : source_dict :=
  (λ p, (p.(port_name), [at_ p])) <$> ports.
Lemma all_sources_one_each at_ ports : all_sources (one_each at_ ports) = at_ <$> ports.
Proof.
  unfold all_sources, one_each, Dict.values. rewrite <-list_fmap_compose.
  induction ports as [|p ports IH]; [done|]. simpl. f_equal. apply IH.
Qed.
Lemma source_matches_contract s p q :
  s.(source_port) = q → _source_matches s p = _same_contract q p.
Proof. by intros <-. Qed.
Lemma same_contract_sym p q : _same_contract p q = _same_contract q p.
Proof. unfold _same_contract. f_equal; apply bool_decide_ext; naive_solver. Qed.
Lemma same_contract_trans p q r : _same_contract p q = true → _same_contract p r = _same_contract q r.
Proof.
  unfold _same_contract. intros [H1 H2]%andb_true_iff. apply bool_decide_eq_true in H1, H2.
  by rewrite H1, H2.
Qed.

(** Among sources of distinct names, a scalar port's namesake of its contract is
    its one binding, whatever other contracts the pool holds. *)
Lemma forced_namesake (at_ : Port → Source) ports foreign pool port p :
  (∀ q, q ∈ ports → (at_ q).(source_port) = q) → NoDup (port_name <$> ports) →
  pool ≡ₚ foreign ++ (at_ <$> ports) → (∀ s, s ∈ foreign → _source_matches s port = false) →
  p ∈ ports → p.(port_name) = port.(port_name) → _same_contract p port = true →
  port.(port_cardinality) ≠ CardMany → forced port pool [at_ p].
Proof.
  intros Hat Hnd Hp Hforeign Hin Hname Hsame Hcard.
  assert (namesakes port (foreign ++ (at_ <$> ports)) = [at_ p]) as Hn.
  { unfold namesakes, candidates. rewrite filter_app, (filter_none _ foreign), app_nil_l.
    2: { apply Forall_forall. intros s Hs. by rewrite (Hforeign s Hs). }
    clear Hp Hforeign. induction ports as [|q ports IH]; [by apply elem_of_nil in Hin|].
    apply NoDup_cons in Hnd as [Hq Hnd]. rewrite fmap_cons, filter_cons.
    assert ((at_ q).(source_port) = q) as Hatq by (apply Hat; left).
    rewrite (source_matches_contract _ _ _ Hatq).
    apply elem_of_cons in Hin as [->|Hin].
    - rewrite decide_True by done. rewrite filter_cons_True by (by rewrite Hatq).
      f_equal. apply filter_none, Forall_forall. intros s [_ (q' & -> & Hq')%list_elem_of_fmap]%list_elem_of_filter.
      rewrite Hat by (by right). intros Heq. apply Hq. rewrite Hname, <-Heq. by apply list_elem_of_fmap_2.
    - assert (q.(port_name) ≠ port.(port_name)) as Hne.
      { rewrite <-Hname. intros Heq. apply Hq. rewrite Heq. by apply list_elem_of_fmap_2. }
      destruct (decide _).
      + rewrite filter_cons_False by (by rewrite Hatq). apply IH; [|done..]. intros; apply Hat; by right.
      + apply IH; [|done..]. intros; apply Hat; by right. }
  assert (forced port (foreign ++ (at_ <$> ports)) [at_ p]) as Hf.
  { unfold forced. destruct (port_cardinality port); [eauto|eauto|done]. }
  symmetry in Hp. destruct (forced_perm _ _ _ _ Hp Hf) as (l & Hl & Hlp).
  by apply Permutation_singleton_l in Hlp as ->.
Qed.

Lemma forced_unique port pool l k : forced port pool l → forced port pool k → l = k.
Proof.
  unfold forced. destruct (port_cardinality port).
  3: { by intros [-> _] [-> _]. }
  all: intros (s & -> & [H|[H H']]) (t & -> & [K|[K K']]); congruence.
Qed.
Lemma bind_port_forced port pool l w loc sc ctx c :
  forced port pool l → _bind_port port pool w loc sc ctx c = (Ok (Some l), c).
Proof.
  intros Hf. destruct (bind_port_cases port pool w loc sc ctx c) as (r & c' & -> & H).
  destruct r as [k|]; [|by destruct (proj1 H l)].
  destruct H as [-> H]. by rewrite (forced_unique _ _ _ _ Hf H).
Qed.
Lemma bind_scalar node scope w pool loc ctx by_port bound port l c :
  Dict.get_or port.(port_name) [] by_port = [] → forced port pool l →
  bind_one_input node scope w pool loc [] ctx by_port bound port c
  = (Ok (Dict.set port.(port_name) l bound), c).
Proof.
  intros He Hf. unfold bind_one_input. rewrite He. cbn [Dict.values fmap list_fmap].
  rewrite decide_False by (by intros [?%elem_of_nil _]).
  unfold ebind. by rewrite (bind_port_forced _ _ _ _ _ _ _ _ Hf).
Qed.

Lemma efold_pure {S E A B} (f : B → A → eff S E B) (h : B → A → B) l v s :
  (∀ u x, x ∈ l → f u x s = (Ok (h u x), s)) → efold f v l s = (Ok (foldl h v l), s).
Proof.
  revert v. induction l as [|x l IH]; intros v H; [done|]. simpl. unfold ebind.
  rewrite H by left. apply IH. intros u y Hy. apply H. by right.
Qed.
Lemma collect_all declared scope port (l : list LocatedEntry) c :
  port ∈ declared → (∀ e, e ∈ l → e.(entry).(destination_port) = port) →
  NoDup ((λ e, e.(entry).(selector)) <$> l) →
  ∃ by_port, efold (collect_entry declared scope) [] l c = (Ok by_port, c) ∧
    Dict.get_or port [] by_port = (λ e, (e.(entry).(selector), e)) <$> l ∧
    ∀ q, q ≠ port → Dict.get_or q [] by_port = [].
Proof.
  intros Hd Hport Hnd.
  rewrite (efold_pure _ (λ u e, Dict.set port
    (Dict.setdefault e.(entry).(selector) e (Dict.get_or port [] u)) u)).
  2: { intros u e He. unfold collect_entry. cbv zeta. rewrite (Hport e He).
       by rewrite decide_False by (by intros ?). }
  eexists. split; [done|]. clear Hport. induction l as [|e l IH] using rev_ind; [done|].
  rewrite fmap_app in Hnd. apply NoDup_app in Hnd as (Hnd & Hdisj & _).
  rewrite foldl_snoc. destruct (IH Hnd) as [He Hq]. split.
  - unfold Dict.get_or at 1. rewrite Dict.get_set_eq. cbn [from_option id]. rewrite He, fmap_app.
    unfold Dict.setdefault.
    rewrite (proj2 (Dict.get_None _ _)); [apply Dict.set_fresh|];
      unfold Dict.keys; rewrite <-list_fmap_compose; intros Hin; by apply (Hdisj _ Hin), list_elem_of_singleton.
  - intros q Hne. unfold Dict.get_or. rewrite Dict.get_set_ne by done. by apply Hq.
Qed.
Lemma collect_none declared scope c :
  efold (collect_entry declared scope) [] [] c = (Ok [], c).
Proof. done. Qed.

(** Binding the ports of a node, each to sources that do not depend on the others. *)
Lemma bind_node_ports node inputs a (val : Port → list Source) by_port c :
  efold (collect_entry (port_name <$> inputs) (child a.(level_scope) (node_id node))) [] a.(explicit) c
    = (Ok by_port, c) →
  NoDup (port_name <$> inputs) →
  (∀ p bound, p ∈ inputs → ∀ w,
    bind_one_input node (child a.(level_scope) (node_id node)) w a.(pool) a.(location) []
      (context_of node a) by_port bound p c = (Ok (Dict.set p.(port_name) (val p) bound), c)) →
  bind_inputs node inputs a [] false c = (Ok ((λ p, (p.(port_name), val p)) <$> inputs), c).
Proof.
  intros Hb Hnd H. unfold bind_inputs, _bind_node_inputs. cbv zeta. unfold ebind at 1. rewrite Hb.
  rewrite (efold_pure _ (λ bound p, Dict.set p.(port_name) (val p) bound)).
  2: { intros bound p Hp. by apply H. }
  do 2 f_equal. rewrite <-(Dict.of_pairs_NoDup ((λ p, (p.(port_name), val p)) <$> inputs)).
  - unfold Dict.of_pairs. generalize (@nil (string * list Source)). clear. induction inputs as [|p l IH]; [done|].
    intros d. simpl. apply IH.
  - by rewrite <-list_fmap_compose.
Qed.

Lemma bind_singletons {A B C} (h : nat → A → B) (k : B → list C) (u : nat → A → C) l :
  (∀ i x, k (h i x) = [u i x]) → imap h l ≫= k = imap u l.
Proof.
  revert h u. induction l as [|x l IH]; intros h u H; [done|]. cbn [imap mbind list_bind].
  rewrite H. simpl. f_equal. apply (IH (h ∘ S) (u ∘ S)). intros i y. apply H.
Qed.
Definition seat_entry (loc : GraphLocation) (gather port result_ : string) (i : nat) (m : string) : LocatedEntry :=
  mkEntry (mkMapEntry i gather port (m +:+ "." +:+ result_)) loc.
Lemma panel_explicit name mids refs gather aref gathers result_ ins outs loc k :
  let g := panel_graph name mids refs gather aref gathers result_ ins outs in
  Dict.get_or k [] (explicit_by_node g loc)
  = if decide (k = gather) then imap (seat_entry loc gather gathers.(port_name) result_.(port_name)) mids else [].
Proof.
  intros g. rewrite explicit_get.
  assert (_explicit_maps g = imap (λ i m, mkMapEntry i gather gathers.(port_name)
    (m +:+ "." +:+ result_.(port_name))) mids) as ->.
  { unfold _explicit_maps, indexed. simpl. rewrite imap_fmap. by apply bind_singletons. }
  case_decide as Hk.
  - subst k. rewrite filter_all; [by rewrite fmap_imap|].
    apply Forall_forall. intros e (i & m & -> & _)%elem_of_lookup_imap. done.
  - rewrite filter_none; [done|].
    apply Forall_forall. intros e (i & m & -> & _)%elem_of_lookup_imap. simpl. congruence.
Qed.
Lemma equiv_one_port (l : list Port) p : Forall wf l → wf p → same_boundary l [p] = true →
  ∃ q, l = [q] ∧ q.(port_name) = p.(port_name) ∧ _same_contract p q = true ∧
    q.(port_cardinality) = p.(port_cardinality).
Proof.
  intros Hl Hp H. apply same_boundary_equiv in H; [|by apply Forall_forall; intros q Hq; rewrite Forall_forall in Hl; apply Hl|by repeat constructor].
  apply list_equiv_Forall2, Forall2_cons_inv_r in H as (q & l' & (Hn & Ht & Hh & _ & Hcd) & Hnil & ->).
  apply Forall2_nil_inv_r in Hnil as ->. exists q. split_and!; [done..| |done].
  unfold _same_contract. by rewrite Ht, Hh, !bool_decide_eq_true_2.
Qed.

(** *** The seating *)
Section seating.
Context (name : string) (members : list ComponentDef) (agg : ComponentDef).
Context (request result_ gathers : Port) (policy : list Port) (mids : list string) (gather : string).
Context (Hs : seats members agg request result_ gathers policy mids gather) (Hnd : NoDup mids).
Context (refs : list Ref) (aref : Ref) (outs : list Port).
Abbreviation g := (panel_graph name mids refs gather aref gathers result_ (request :: policy) outs).
Context (up : closure_dict) (Hup : _upstream_closure g = Ok up) (Hrefs : length mids = length refs).
Context (scope : ScopePath) (gr : EffectiveGrants) (depth : nat) (loc : GraphLocation) (outputs : node_dict).
Context (supplied : Port → Source) (Hsup : ∀ p, p ∈ request :: policy → (supplied p).(source_port) = p).
Abbreviation args := (level_args g scope (one_each supplied (request :: policy)) gr depth loc up outputs).

Lemma panel_ids : node_ids g = mids ++ [gather].
Proof. unfold node_ids. simpl. rewrite fmap_app. f_equal. by apply zip_ids. Qed.
Lemma panel_closure :
  (∃ l, Dict.get gather up = Some l ∧ l ≡ₚ mids) ∧ ∀ m, m ∈ mids → Dict.get m up = Some [].
Proof.
  destruct (star_closure g mids gather (λ m, [(gathers.(port_name), m +:+ "." +:+ result_.(port_name))])
    panel_ids (st_fresh _ _ _ _ _ _ _ _ Hs) eq_refl) as (up' & Hup' & (l & Hl & Hp) & Hm).
  assert (up' = up) as -> by (rewrite Hup in Hup'; by injection Hup'). split; [|done].
  exists l. split; [done|by apply Hp].
Qed.

Lemma member_seated m node d c :
  m ∈ mids → node_id node = m → d ∈ members → (∀ d', d' ∈ members → Forall wf d'.(def_inputs)) →
  bind_inputs node d.(def_inputs) (args m) [] false c = (Ok [(request.(port_name), [supplied request])], c).
Proof.
  intros Hm <- Hd Hwf. destruct (st_own _ _ _ _ _ _ _ _ Hs) as (d0 & Hd0 & Hown).
  assert (wf request) as Hwr.
  { specialize (Hwf d0 Hd0). rewrite Hown in Hwf. by apply Forall_cons in Hwf as [? _]. }
  destruct (equiv_one_port d.(def_inputs) request) as (q & Hq & Hn & Hsame & Hcard);
    [by apply Hwf|done|by apply (st_members _ _ _ _ _ _ _ _ Hs)|].
  rewrite Hq. assert (node_id node ≠ gather) as Hne.
  { intros Heq. apply (st_fresh _ _ _ _ _ _ _ _ Hs). by rewrite <-Heq. }
  rewrite (bind_node_ports _ _ _ (λ _, [supplied request]) []).
  - simpl. by rewrite Hn.
  - cbn [explicit level_args]. rewrite panel_explicit, decide_False by done. done.
  - simpl. apply NoDup_singleton.
  - intros p bound ->%list_elem_of_singleton w. apply bind_scalar; [done|].
    eapply (forced_namesake supplied (request :: policy) []); [done|apply Hs| | |left|done|done|].
    + cbn [pool level_args]. unfold node_pool.
      assert (Dict.get_or (node_id node) [] up = []) as ->
        by (unfold Dict.get_or; by rewrite (proj2 panel_closure)).
      by rewrite all_sources_one_each.
    + by intros s ?%elem_of_nil.
    + rewrite Hcard, (st_request _ _ _ _ _ _ _ _ Hs). done.
Qed.

(** A member's node has published its one result. *)
Definition published (seat : string → Source) : Prop :=
  ∀ m, m ∈ mids → Dict.get m outputs = Some [(result_.(port_name), [seat m])] ∧
    _same_contract (seat m).(source_port) result_ = true ∧ (seat m).(source_port).(port_cardinality) = CardOne.
Definition gathered (seat : string → Source) (p : Port) : list Source :=
  if decide (gathers_many p) then seat <$> mids else [supplied p].
Lemma gather_pool seat : published seat →
  (args gather).(pool) ≡ₚ (seat <$> mids) ++ (supplied <$> request :: policy).
Proof.
  intros Hpub. cbn [pool level_args]. unfold node_pool. rewrite all_sources_one_each. f_equiv.
  destruct panel_closure as [(l & Hl & Hp) _].
  assert (Dict.get_or gather [] up = l) as -> by (unfold Dict.get_or; by rewrite Hl).
  rewrite <-Hp. assert (∀ m, m ∈ l → m ∈ mids) as Hin by (intros m; by rewrite Hp). clear Hl Hp.
  induction l as [|m l IH]; [done|]. rewrite fmap_cons, <-IH by (intros x Hx; apply Hin; by right).
  cbn [mbind list_bind]. destruct (Hpub m) as [Hm _]; [apply Hin; left|].
  assert (Dict.get_or m [] outputs = _) as -> by exact (f_equal (default []) Hm). done.
Qed.
Lemma seat_resolved seat p i m c : published seat → mids !! i = Some m → _same_contract gathers p = true →
  _resolve_selector (seat_entry loc gather gathers.(port_name) result_.(port_name) i m) p outputs
    (one_each supplied (request :: policy)) (child scope gather) c = (Ok (Some (seat m)), c).
Proof.
  intros Hpub Hi%list_elem_of_lookup_2 Hp. unfold _resolve_selector. cbn [entry seat_entry selector].
  rewrite partition_named by (by apply (st_dots _ _ _ _ _ _ _ _ Hs)).
  rewrite decide_False by (apply (st_named _ _ _ _ _ _ _ _ Hs)).
  rewrite decide_False.
  2: { intros ->. pose proof (st_usable _ _ _ _ _ _ _ _ Hs) as Hu. apply Forall_app in Hu as [Hu _].
       rewrite Forall_forall in Hu. by destruct (Hu _ Hi). }
  destruct (Hpub m Hi) as (Hm & Hsame & Hcard).   assert (Dict.get_or m [] outputs = _) as -> by exact (f_equal (default []) Hm).
  unfold Dict.get_or. cbn [from_option id Dict.get]. rewrite decide_True by done. cbn [from_option id].
  rewrite Hcard. rewrite decide_False by (by intros ?). rewrite (source_matches_contract _ _ _ eq_refl).
  assert (_same_contract (source_port (seat m)) p = true) as ->; [|done].
  rewrite (same_contract_trans _ _ _ Hsame).
  rewrite <-(same_contract_trans _ _ _ (st_contract _ _ _ _ _ _ _ _ Hs)). done.
Qed.
Lemma agg_port p : p ∈ agg.(def_inputs) → (gathers_many p ∧ p = gathers) ∨ (¬ gathers_many p ∧ p ∈ policy).
Proof.
  intros Hp. destruct (decide (gathers_many p)) as [Hg|Hg]; [left|right]; (split; [done|]).
  - assert (p ∈ filter gathers_many agg.(def_inputs)) as Hin by (by apply list_elem_of_filter).
    rewrite (st_gather _ _ _ _ _ _ _ _ Hs) in Hin. by apply list_elem_of_singleton in Hin.
  - rewrite (st_policy _ _ _ _ _ _ _ _ Hs). by apply list_elem_of_filter.
Qed.
Lemma bind_seats node seat p by_port bound w c :
  published seat → mids ≠ [] → _same_contract gathers p = true → gathers_many p →
  Dict.get_or p.(port_name) [] by_port = (λ e, (e.(entry).(selector), e)) <$>
    imap (seat_entry loc gather gathers.(port_name) result_.(port_name)) mids →
  bind_one_input node (child scope gather) w (args gather).(pool) (args gather).(location) []
    (context_of node (args gather)) by_port bound p c
  = (Ok (Dict.set p.(port_name) (seat <$> mids) bound), c).
Proof.
  intros Hpub Hne Hsame Hmany He. unfold bind_one_input. rewrite He. unfold Dict.values.
  rewrite <-list_fmap_compose, list_fmap_id.
  set (entries := imap _ _).
  assert (emap (λ e, _resolve_selector e p (ctx_node_lookup (context_of node (args gather)))
    (ctx_input_sources (context_of node (args gather))) (child scope gather)) entries c
    = (Ok ((λ e, Some (seat (partition_dot e.(entry).(selector)).1)) <$> entries), c)) as Hemap.
  { apply emap_pure. intros e (i & m & -> & Hi)%elem_of_lookup_imap. cbn [entry seat_entry selector].
    rewrite partition_named by (apply (st_dots _ _ _ _ _ _ _ _ Hs); by eapply list_elem_of_lookup_2).
    by apply seat_resolved. }
  assert ((λ e, seat (partition_dot e.(entry).(selector)).1) <$> entries = seat <$> mids) as Hseat.
  { unfold entries. rewrite fmap_imap. rewrite <-(imap_const seat). apply imap_ext. intros i m Hi.
    cbn. rewrite partition_named by (apply (st_dots _ _ _ _ _ _ _ _ Hs); by eapply list_elem_of_lookup_2).
    done. }
  destruct (decide (port_cardinality p = CardMany)) as [_|]; [|done].
  destruct entries as [|e entries'] eqn:Ee.
  { exfalso. apply Hne. apply length_zero_iff_nil. rewrite <-(length_imap (seat_entry loc gather
      gathers.(port_name) result_.(port_name))). fold entries. by rewrite Ee. }
  assert (∀ c', ebind (emap (λ e, _resolve_selector e p (ctx_node_lookup (context_of node (args gather)))
    (ctx_input_sources (context_of node (args gather))) (child scope gather)) (e :: entries'))
    (λ selected, eret (match mapM id selected with
      | Some sources => Dict.set p.(port_name) sources bound | None => bound end)) c = c' →
    c' = (Ok (Dict.set p.(port_name) (seat <$> mids) bound), c)) as Hgo.
  { intros c' <-. unfold ebind at 1. rewrite Hemap, mapM_all, Hseat. done. }
  destruct entries'; by apply Hgo.
Qed.
Lemma gather_seated node seat c :
  node_id node = gather → published seat → NoDup (port_name <$> agg.(def_inputs)) →
  bind_inputs node agg.(def_inputs) (args gather) [] false c
  = (Ok ((λ p, (p.(port_name), gathered seat p)) <$> agg.(def_inputs)), c).
Proof.
  intros Hid Hpub Hports.
  assert (gathers ∈ agg.(def_inputs) ∧ gathers_many gathers) as [Hgin Hgm].
  { assert (gathers ∈ filter gathers_many agg.(def_inputs)) as Hin
      by (rewrite (st_gather _ _ _ _ _ _ _ _ Hs); left).
    by apply list_elem_of_filter in Hin as [? ?]. }
  destruct (collect_all (port_name <$> agg.(def_inputs)) (child scope gather) gathers.(port_name)
    (imap (seat_entry loc gather gathers.(port_name) result_.(port_name)) mids) c) as (by_port & Hcol & He & Hne).
  { by apply list_elem_of_fmap_2. }
  { by intros e (i & m & -> & _)%elem_of_lookup_imap. }
  { rewrite fmap_imap. apply NoDup_alt. intros i j x Hi Hj.
    rewrite list_lookup_imap in Hi, Hj.
    destruct (mids !! i) as [m|] eqn:Hm; [|done]. destruct (mids !! j) as [m'|] eqn:Hm'; [|done].
    cbn in Hi, Hj. apply (NoDup_lookup mids i j m); [done..|].
    assert (m' = m) as ->; [|done]. rewrite <-Hj in Hi. apply (f_equal (partition_dot ∘ default "")) in Hi.
    cbn in Hi. rewrite !partition_named in Hi
      by (apply (st_dots _ _ _ _ _ _ _ _ Hs); by eapply list_elem_of_lookup_2).
    by injection Hi. }
  rewrite (bind_node_ports _ _ _ (gathered seat) by_port); [done| |done|].
  { rewrite Hid. cbn [explicit level_args level_scope]. rewrite panel_explicit, decide_True by done. exact Hcol. }
  intros p bound Hp w. rewrite Hid. unfold gathered. destruct (agg_port p Hp) as [[Hg ->]|[Hg Hpol]].
  - rewrite decide_True by done. apply bind_seats; try done.
    + intros Hnil. destruct (st_own _ _ _ _ _ _ _ _ Hs) as (d & Hd & _).
      pose proof (st_length _ _ _ _ _ _ _ _ Hs) as Hl. rewrite Hnil in Hl.
      destruct members; [by apply elem_of_nil in Hd|done].
    + unfold _same_contract. by rewrite !bool_decide_eq_true_2.
  - rewrite decide_False by done. apply bind_scalar; [apply Hne|].
    + intros Heq. apply Hg. apply list_elem_of_lookup in Hp as [i Hi], Hgin as [j Hj].
      assert (i = j) as ->; [|by simplify_eq].
      apply (NoDup_lookup (port_name <$> agg.(def_inputs)) i j p.(port_name)); [done| |];
        rewrite list_lookup_fmap; [by rewrite Hi|rewrite Hj; simpl; by rewrite Heq].
    + eapply (forced_namesake supplied (request :: policy) (seat <$> mids));
        [done|apply Hs|by apply gather_pool| |by right|done| |done].
      * intros s (m & -> & Hm)%list_elem_of_fmap. destruct (Hpub m Hm) as (_ & Hsame & _).
        rewrite (source_matches_contract _ _ _ eq_refl), (same_contract_trans _ _ _ Hsame), same_contract_sym.
        by apply (st_foreign _ _ _ _ _ _ _ _ Hs).
      * unfold _same_contract. by rewrite !bool_decide_eq_true_2.
Qed.
End seating.

(** C33: A panel admits by construction, when its member ids are given or the generated ones do
    not clash (members named a_2, a, a do: a finding) and its members' input ports are
    well-formed: it has one node per member and the aggregator, distinct ids, an acyclic star
    of connections, and whatever the members publish, the binder gives every member exactly the
    panel's request and the aggregator every member's result in seat order at its gathering
    port, its policy inputs from the boundary, without a fault. *)
Theorem panel_seats_every_member name (members : list (AuthoringStep NodeImpl)) aggregator ids aid b :
  panel name members aggregator ids aid = Ok b →
  (ids = None → ¬ clash (_to_ref <$> members)) →
  (∀ m, StepBundle m ∈ members → Forall wf m.(bundle_definition).(def_inputs)) →
  ∃ ms agg g up request result_ mids gather,
    members = StepBundle <$> ms ∧ aggregator = StepBundle agg ∧
    b.(bundle_definition).(body) = CGraph g ∧ graph_outputs g = agg.(bundle_definition).(def_outputs) ∧
    node_body_of <$> nodes g = (λ s, BRef (_to_ref s)) <$> members ++ [aggregator] ∧
    node_ids g = mids ++ [gather] ∧ NoDup (node_ids g) ∧ 2 ≤ length mids ∧
    undeclared_endpoints g = [] ∧ find_back_edges g = Some [] ∧ _upstream_closure g = Ok up ∧
    ∀ scope gr depth loc outputs supplied c,
      (∀ p, p ∈ graph_inputs g → (supplied p).(source_port) = p) →
      let args := level_args g scope (one_each supplied (graph_inputs g)) gr depth loc up outputs in
      (∀ i n m, nodes g !! i = Some n → ms !! i = Some m →
         bind_inputs n m.(bundle_definition).(def_inputs) (args (node_id n)) [] false c
         = (Ok [(request.(port_name), [supplied request])], c)) ∧
      (∀ n seat, nodes g !! length mids = Some n → published result_ mids outputs seat →
         NoDup (port_name <$> agg.(bundle_definition).(def_inputs)) →
         bind_inputs n agg.(bundle_definition).(def_inputs) (args (node_id n)) [] false c
         = (Ok ((λ p, (p.(port_name), gathered mids supplied seat p))
                  <$> agg.(bundle_definition).(def_inputs)), c)).
Proof.
  intros (ms & agg & py & request & result_ & gathers & policy & mids & gather & Hms & Ha & Hpy & Hlen
    & Hids & Hs & _ & Hb)%panel_inv Hcl Hwf. cbv zeta in Hb.
  destruct (node_ids_ok _ _ _ Hids) as (Hl & _ & Hu).
  assert (NoDup mids) as Hnd.
  { destruct ids; [apply Hu|]. rewrite Hu. by apply generated_NoDup, Hcl. }
  pose proof (st_fresh _ _ _ _ _ _ _ _ Hs) as Hfresh.
  pose proof (panel_ids name request result_ gathers policy mids gather (_to_ref <$> members) (_to_ref aggregator)
    agg.(bundle_definition).(def_outputs) Hl) as Hnids.
  set (g := panel_graph _ _ _ _ _ _ _ _ _) in Hb, Hnids.
  pose proof (star_declared g mids gather _ Hnids Hfresh eq_refl) as Hdecl.
  pose proof (star_acyclic g mids gather _ Hfresh eq_refl) as Hac.
  destruct (upstream_closure_spec g Hdecl Hac) as (up & Hup & _ & _).
  assert (length ms = length mids) as Hlm by (rewrite Hl, Hms, !length_fmap; done).
  exists ms, agg, g, up, request, result_, mids, gather. rewrite Hb.
  split_and!; [done..| | | | | | |done|].
  - simpl. rewrite !fmap_app, zip_bodies by done. simpl. by rewrite <-list_fmap_compose.
  - done.
  - rewrite Hnids. apply NoDup_app. split_and!; [done| |apply NoDup_singleton].
    by intros x Hx ->%list_elem_of_singleton.
  - lia.
  - by apply undeclared_endpoints_nil.
  - by apply no_back_edges.
  - intros scope gr depth loc outputs supplied c Hsup args.
    assert (∀ i n, nodes g !! i = Some n → (mids ++ [gather]) !! i = Some (node_id n)) as Hat.
    { intros i n Hn. rewrite <-Hnids. unfold node_ids. by rewrite list_lookup_fmap, Hn. }
    split.
    + intros i n m Hn Hm. pose proof (Hat i n Hn) as Hi.
      rewrite lookup_app_l in Hi by (apply lookup_lt_Some in Hm; lia).
      apply (member_seated name (bundle_definition <$> ms) agg.(bundle_definition) request result_ gathers policy
        mids gather Hs Hnd _ _ _ up Hup Hl scope gr depth loc outputs supplied Hsup).
      * by eapply list_elem_of_lookup_2.
      * done.
      * by apply list_elem_of_fmap_2, (list_elem_of_lookup_2 _ i).
      * intros d (m' & -> & Hm')%list_elem_of_fmap. apply Hwf. rewrite Hms. by apply list_elem_of_fmap_2.
    + intros n seat Hn Hpub Hports. pose proof (Hat _ n Hn) as Hi.
      rewrite lookup_app_r, Nat.sub_diag in Hi by done. injection Hi as Hi. unfold args. rewrite <-Hi.
      by apply (gather_seated name (bundle_definition <$> ms) agg.(bundle_definition) request result_ gathers policy
        mids gather Hs Hnd _ _ _ up Hup Hl scope gr depth loc outputs supplied Hsup).
Qed.
End composites.

(** ** A panel of two and a flow around it *)
Module CombinatorFixture.
Definition port (name type : string) (c : cardinality) : Port := mkPort name type "h" None c.
Definition definition (name : string) (inputs outputs : list Port) : ComponentDef :=
  mkComponent name RoleNode (CPython (mkPythonRef "p" "m" "f" "d" None)) inputs outputs
    (mkMetadata None None []) (Some []).
Definition bundle name inputs outputs : DefinitionBundle unit := mkBundle (definition name inputs outputs) None.
Definition critic := bundle "org/critic" [port "draft" "t/Draft" CardOne] [port "vote" "t/Vote" CardOne].
Definition judge := bundle "org/judge" [port "draft" "t/Draft" CardOne] [port "vote" "t/Vote" CardOne].
Definition quorum := bundle "std/quorum"
  [port "votes" "t/Vote" CardMany; port "law" "t/Law" CardOne] [port "verdict" "t/Verdict" CardOne].
Definition jury := panel "jury" [StepBundle critic; StepBundle judge] (StepBundle quorum) None None.
Definition jury_bundle := match jury with Ok b => b | Raise _ => critic end.
Lemma jury_ok : jury = Ok jury_bundle.
Proof. vm_compute. reflexivity. Qed.
Definition publish := bundle "org/publish" [port "verdict" "t/Verdict" CardOne] [port "done" "t/Done" CardOne].
Definition maps : flow_maps := [("publish", [("verdict", "jury.verdict")])].
Definition process := flow "process" [StepBundle jury_bundle; StepBundle publish; StepName "org/archive"]
  (Some maps) None None (Some [port "done" "t/Done" CardOne]).
Definition process_bundle := match process with Ok b => b | Raise _ => critic end.
Lemma process_ok : process = Ok process_bundle.
Proof. vm_compute. reflexivity. Qed.
Lemma append_assoc (s t u : string) : (s +:+ t) +:+ u = s +:+ (t +:+ u).
Proof. apply list_ascii_inj. by rewrite !chars_app, app_assoc. Qed.
Lemma prefix_app s t : String.prefix s (s +:+ t) = true.
Proof.
  induction s as [|c s IH]; [by destruct t|].
  change (String.prefix (String c s) (String c (s +:+ t)) = true). cbn [String.prefix].
  destruct (ascii_dec c c); [exact IH|done].
Qed.
Lemma no_clash (refs : list Ref) :
  forallb (λ r, forallb (λ r', negb (String.prefix (id_base r' +:+ "_") (id_base r))) refs) refs = true →
  ¬ clash refs.
Proof.
  rewrite forallb_elem. intros H (r & r' & n & Hr & Hr' & Hn & Hb). specialize (H r Hr).
  rewrite forallb_elem in H. specialize (H r' Hr'). unfold numbered in Hb.
  rewrite decide_False in Hb by lia. rewrite Hb, <-append_assoc, prefix_app in H. done.
Qed.
End CombinatorFixture.

(** Generated ids are not unique when one base reads like a numbered other. *)
Example generated_ids_may_collide :
  _node_ids ((λ s, mkRef s None [] None) <$> ["a_2"; "a"; "a"]) None = Ok ["a_2"; "a"; "a_2"].
Proof. vm_compute. reflexivity. Qed.

Lemma flow_is_a_pipeline_witness :
  ∃ g, CombinatorFixture.process_bundle.(bundle_definition).(body) = CGraph g ∧ pipeline g ∧
    node_ids g = ["jury"; "publish"; "archive"].
Proof.
  destruct (flow_is_a_pipeline "process" _ (Some CombinatorFixture.maps) None None _
    CombinatorFixture.process_bundle CombinatorFixture.process_ok) as (g & Hg & _ & _ & _ & _ & _ & _ & _ & _ & Hp & _).
  - intros _. apply CombinatorFixture.no_clash. vm_compute. reflexivity.
  - exists g. split; [exact Hg|]. split; [exact Hp|]. vm_compute in Hg. injection Hg as <-. reflexivity.
Defined.
Lemma panel_seats_every_member_witness :
  let at_ p := mkSource 0 (GraphInputAddress (mkScope ["jury"]) p.(port_name)) p in
  ∃ g up n, CombinatorFixture.jury_bundle.(bundle_definition).(body) = CGraph g ∧
    _upstream_closure g = Ok up ∧ nodes g !! 1%nat = Some n ∧ node_id n = "judge" ∧
    ∃ request, bind_inputs n CombinatorFixture.judge.(bundle_definition).(def_inputs)
      (level_args g (mkScope ["jury"]) (one_each at_ (graph_inputs g))
         (mkGrants READ (mkSelection BackendDefault None) None [] [] NetNone 1) 0 (mkLocation [] None) up [] (node_id n))
      [] false empty_comp
    = (Ok [(request.(port_name), [at_ request])], empty_comp).
Proof.
  intros at_. destruct (panel_seats_every_member "jury" _ _ None None CombinatorFixture.jury_bundle
    CombinatorFixture.jury_ok) as (ms & agg & g & up & request & result_ & mids & gather & Hms & _ & Hg & _ & _ &
      _ & _ & _ & _ & _ & Hup & Hbind).
  - intros _. apply CombinatorFixture.no_clash. vm_compute. reflexivity.
  - intros m Hm. repeat (apply elem_of_cons in Hm as [[= ->]|Hm]; [by repeat constructor|]).
    by apply elem_of_nil in Hm.
  - destruct (Hbind (mkScope ["jury"]) (mkGrants READ (mkSelection BackendDefault None) None [] [] NetNone 1) 0
      (mkLocation [] None) [] at_ empty_comp (λ p _, eq_refl)) as [Hmem _].
    assert (ms = [CombinatorFixture.critic; CombinatorFixture.judge]) as ->.
    { destruct ms as [|m0 [|m1 [|]]]; [discriminate Hms..| |discriminate Hms].
      injection Hms as <- <-. reflexivity. }
    revert Hmem. vm_compute in Hg. injection Hg as <-. intros Hmem.
    eexists _, up, _. split; [reflexivity|]. split; [exact Hup|]. split; [reflexivity|]. split; [reflexivity|].
    exists request. exact (Hmem 1%nat _ _ eq_refl eq_refl).
Defined.
