(* ===== verification/Panel.v ===== *)
(** The panel law ([src/constructicon/core/panel.py]): what a member reports,
    where the aggregator seats it, and what the panel concludes. *)

From S2P Require Import Prelude Identity Address.

(** ** Contracts *)
Inductive PanelMemberOutcome := Responded | Declined | Unavailable | TimedOut.
#[export] Instance PanelMemberOutcome_eq_dec : EqDecision PanelMemberOutcome.
Proof. solve_decision. Defined.
Inductive PanelBallot := Approve | Reject | Abstain.
#[export] Instance PanelBallot_eq_dec : EqDecision PanelBallot.
Proof. solve_decision. Defined.
Inductive PanelOutcome := Approved | Rejected | InsufficientResponses | ImpossibleQuorum.
#[export] Instance PanelOutcome_eq_dec : EqDecision PanelOutcome.
Proof. solve_decision. Defined.

(** [rationale] is [JNull] where Python has [None]. *)
Record PanelMemberResult := mkVote {
  vote_run : RunId;
  member : ExecutionPath;
  vote_outcome : PanelMemberOutcome;
  ballot : option PanelBallot;
  rationale : json;
  actor_id : option string;
  vote_message : option Digest;
}.
#[export] Instance PanelMemberResult_eq_dec : EqDecision PanelMemberResult.
Proof. solve_decision. Defined.

(** What an advisor writes to cast a vote. *)
Record PanelBallotPayload := mkBallotPayload {
  bp_outcome : PanelMemberOutcome;   (** only "responded" and "declined" *)
  bp_ballot : option PanelBallot;
  bp_rationale : json;
}.

Record PanelQuorum := mkQuorum { required_approvals : positive }.
#[export] Instance PanelQuorum_eq_dec : EqDecision PanelQuorum.
Proof. solve_decision. Defined.

Record PanelTally := mkTally {
  approve : nat; reject : nat; abstain : nat;
  declined : nat; unavailable : nat; timed_out : nat;
}.
#[export] Instance PanelTally_eq_dec : EqDecision PanelTally.
Proof. solve_decision. Defined.
Definition responded (t : PanelTally) : nat := t.(approve) + t.(reject) + t.(abstain).
Definition tally_members (t : PanelTally) : nat :=
  responded t + t.(declined) + t.(unavailable) + t.(timed_out).

Record PanelMemberSummary := mkSummary { seat_node : string; seat_result : PanelMemberResult }.
#[export] Instance PanelMemberSummary_eq_dec : EqDecision PanelMemberSummary.
Proof. solve_decision. Defined.

Record PanelResult := mkPanelResult {
  panel_run : RunId;
  aggregator : ExecutionPath;
  quorum : PanelQuorum;
  outcome : PanelOutcome;
  tally : PanelTally;
  seats : list PanelMemberSummary;
}.
#[export] Instance PanelResult_eq_dec : EqDecision PanelResult.
Proof. solve_decision. Defined.

(** [ContractViolation], one constructor per message, and the [ValueError]s of
    the model validators. *)
Inductive panel_error :=
| AggregatorAtRoot
| AggregatorFrames (aggregator : ExecutionPath)
| ForeignRun (member : ExecutionPath) (run expected : RunId)
| NotASibling (member aggregator : ExecutionPath)
| OwnSeat (member : ExecutionPath)
| SeatTaken (node : string)
| TallyKeyError (outcome : PanelMemberOutcome)
| BallotMismatch
| ContradictsMembers.

(** [(self.outcome == "responded") != (self.ballot is not None)] *)
Definition ballot_mismatch (o : PanelMemberOutcome) (b : option PanelBallot) : bool :=
  negb (eqb (bool_decide (o = Responded)) (bool_decide (is_Some b))).
Definition vote_ballot_iff_responded (v : PanelMemberResult) : result panel_error PanelMemberResult :=
  if ballot_mismatch v.(vote_outcome) v.(ballot) then Raise BallotMismatch else Ok v.
Definition payload_ballot_iff_responded (p : PanelBallotPayload) :
    result panel_error PanelBallotPayload :=
  if ballot_mismatch p.(bp_outcome) p.(bp_ballot) then Raise BallotMismatch else Ok p.

(** ** The policy *)
Definition panel_outcome (t : PanelTally) (q : PanelQuorum) : PanelOutcome :=
  let required := Pos.to_nat q.(required_approvals) in
  if tally_members t <? required then ImpossibleQuorum
  else if required <=? t.(approve) then Approved
  else if responded t <? required then InsufficientResponses
  else Rejected.

(** ** Seating *)
Definition _member_key (v : PanelMemberResult) : string := canonical_text (dump v.(member)).

(** [xs[:n]] and [xs[n : n + 1]] are [take n xs] and [take 1 (drop n xs)]. *)
Definition frame_writable (invocation : list string) (frame : IterationFrame) : bool :=
  let lp := frame.(frame_loop).(segments) in
  let beneath := take 1 (drop (length lp) invocation) in
  negb (bool_decide (lp = []) || bool_decide (take (length lp) invocation ≠ lp)
        || bool_decide (beneath ≠ [LOOP_BODY_SEGMENT])).
Definition _frames_writable (frames : list IterationFrame) (invocation : list string) : bool :=
  if (1 <? length frames)%nat then false else forallb (frame_writable invocation) frames.

(** The topology test of [_place]'s loop; [parent] is the aggregator's. *)
Definition not_a_sibling (parent : list string) (frames : list IterationFrame)
    (m : ExecutionPath) : bool :=
  let segs := m.(path_scope).(segments) in
  let depth := length parent in
  let seat := take (S depth) segs in
  bool_decide (take depth segs ≠ parent)
  || (length segs <=? depth)
  || bool_decide (take (length frames) m.(iterations) ≠ frames)
  || negb (_frames_writable m.(iterations) segs)
  || existsb (λ f, bool_decide (take (length seat) f.(frame_loop).(segments) ≠ seat))
       (drop (length frames) m.(iterations)).

(** One turn of the loop over the sorted votes; [seen] is the nodes seated. *)
Definition place_vote (aggregator : ExecutionPath) (run_id : RunId) (parent : list string)
    (acc : list PanelMemberSummary) (v : PanelMemberResult) :
    result panel_error (list PanelMemberSummary) :=
  if decide (v.(vote_run) ≠ run_id) then Raise (ForeignRun v.(member) v.(vote_run) run_id)
  else if not_a_sibling parent aggregator.(iterations) v.(member)
  then Raise (NotASibling v.(member) aggregator)
  else
    match v.(member).(path_scope).(segments) !! length parent with
    | None => Raise (NotASibling v.(member) aggregator)
    | Some node =>
        if decide (Some node = last aggregator.(path_scope).(segments)) then Raise (OwnSeat v.(member))
        else if decide (node ∈ seat_node <$> acc) then Raise (SeatTaken node)
        else Ok (acc ++ [mkSummary node v])
    end.
Fixpoint place_votes (aggregator : ExecutionPath) (run_id : RunId) (parent : list string)
    (acc : list PanelMemberSummary) (votes : list PanelMemberResult) :
    result panel_error (list PanelMemberSummary) :=
  match votes with
  | [] => Ok acc
  | v :: votes =>
      acc ← place_vote aggregator run_id parent acc v;
      place_votes aggregator run_id parent acc votes
  end.
Definition _place (votes : list PanelMemberResult) (aggregator : ExecutionPath) (run_id : RunId) :
    result panel_error (list PanelMemberSummary) :=
  let scope := aggregator.(path_scope).(segments) in
  match scope with
  | [] => Raise AggregatorAtRoot
  | _ =>
      if negb (_frames_writable aggregator.(iterations) scope)
      then Raise (AggregatorFrames aggregator)
      else place_votes aggregator run_id (take (length scope - 1) scope) []
             (sorted_by String.leb _member_key votes)
  end.

(** ** Counting *)
Definition bump (v : PanelMemberResult) (t : PanelTally) : result panel_error PanelTally :=
  let 'mkTally a r s d u o := t in
  match v.(ballot), v.(vote_outcome) with
  | Some Approve, _ => Ok (mkTally (S a) r s d u o)
  | Some Reject, _ => Ok (mkTally a (S r) s d u o)
  | Some Abstain, _ => Ok (mkTally a r (S s) d u o)
  | None, Declined => Ok (mkTally a r s (S d) u o)
  | None, Unavailable => Ok (mkTally a r s d (S u) o)
  | None, TimedOut => Ok (mkTally a r s d u (S o))
  | None, Responded => Raise (TallyKeyError Responded)
  end.
Definition tally_step (t : result panel_error PanelTally) (s : PanelMemberSummary) :
    result panel_error PanelTally := t ≫= bump s.(seat_result).
Definition _tally (members : list PanelMemberSummary) : result panel_error PanelTally :=
  foldl tally_step (Ok (mkTally 0 0 0 0 0 0)) members.

(** ** Conclusions *)

(** The model validator: a stored or foreign result is re-derived. *)
Definition _concluded_from_its_members (r : PanelResult) : result panel_error PanelResult :=
  placed ← _place (seat_result <$> r.(seats)) r.(aggregator) r.(panel_run);
  t ← _tally placed;
  if decide ((r.(seats), r.(tally), r.(outcome)) ≠ (placed, t, panel_outcome t r.(quorum)))
  then Raise ContradictsMembers else Ok r.

Definition aggregate_panel (votes : list PanelMemberResult) (q : PanelQuorum)
    (aggregator : ExecutionPath) (run_id : RunId) : result panel_error PanelResult :=
  members ← _place votes aggregator run_id;
  t ← _tally members;
  _concluded_from_its_members (mkPanelResult run_id aggregator q (panel_outcome t q) t members).

(** ** The standard adapters ([src/constructicon/sdk/std.py]) *)

(** The ballot [panel_ballot] casts for the invocation it runs as. *)
Definition panel_ballot (run_id : RunId) (path : ExecutionPath) (p : PanelBallotPayload)
    (actor : string) (message : Digest) : result panel_error PanelMemberResult :=
  p ← payload_ballot_iff_responded p;
  vote_ballot_iff_responded
    (mkVote run_id path p.(bp_outcome) p.(bp_ballot) p.(bp_rationale) (Some actor) (Some message)).
Definition panel_quorum (run_id : RunId) (path : ExecutionPath) (votes : list PanelMemberResult)
    (q : PanelQuorum) : result panel_error PanelResult := aggregate_panel votes q path run_id.

(** ** Seating, as a predicate on the votes *)
Section seating.
Context (ag : ExecutionPath) (run : RunId) (parent : list string).

Definition seat_of (v : PanelMemberResult) : string :=
  from_option id "" (v.(member).(path_scope).(segments) !! length parent).
Definition summary (v : PanelMemberResult) : PanelMemberSummary := mkSummary (seat_of v) v.
(** A vote of this run from a sibling's seat that is not the aggregator's. *)
Record seated (v : PanelMemberResult) : Prop := {
  se_run : v.(vote_run) = run;
  se_sibling : not_a_sibling parent ag.(iterations) v.(member) = false;
  se_not_own : Some (seat_of v) ≠ last ag.(path_scope).(segments);
}.

Lemma sibling_lookup v :
  not_a_sibling parent ag.(iterations) v.(member) = false →
  v.(member).(path_scope).(segments) !! length parent = Some (seat_of v).
Proof.
  unfold not_a_sibling. cbv zeta. rewrite !orb_false_iff. intros [[[[_ H] _] _] _].
  apply Nat.leb_gt in H. unfold seat_of.
  by destruct (lookup_lt_is_Some_2 _ _ H) as [node ->].
Qed.
Lemma place_vote_iff acc v acc' :
  place_vote ag run parent acc v = Ok acc' ↔
  seated v ∧ (seat_of v ∉ seat_node <$> acc) ∧ acc' = acc ++ [summary v].
Proof.
  unfold place_vote. split.
  - case_decide; [done|]. destruct (not_a_sibling _ _ _) eqn:Es; [done|].
    rewrite (sibling_lookup v Es). repeat (case_decide; [done|]). intros [= <-].
    by split.
  - intros ([Hr Hs Ho] & Hn & ->). rewrite decide_False by (intros H; by apply H).
    rewrite Hs, (sibling_lookup v Hs). by rewrite !decide_False.
Qed.
Lemma place_votes_iff acc votes placed :
  place_votes ag run parent acc votes = Ok placed ↔
  Forall seated votes ∧ NoDup (seat_of <$> votes) ∧
  (∀ v, v ∈ votes → seat_of v ∉ seat_node <$> acc) ∧ placed = acc ++ (summary <$> votes).
Proof.
  revert acc. induction votes as [|v votes IH]; intros acc; simpl.
  - rewrite app_nil_r. split; [intros [= <-]|by intros (_ & _ & _ & ->)].
    split_and!; [done|constructor|by intros v ?%elem_of_nil|done].
  - rewrite result_bind_ok. setoid_rewrite place_vote_iff. setoid_rewrite IH.
    rewrite Forall_cons, NoDup_cons. split.
    + intros (acc' & (Hv & Hn & ->) & Hf & Hnd & Hall & ->). split; [by constructor|]. split; [split; [|done]|split].
      * intros (w & Heq & Hw)%list_elem_of_fmap. apply (Hall w Hw). rewrite fmap_app, elem_of_app.
        right. simpl. rewrite <-Heq. by apply list_elem_of_singleton.
      * intros w [->|Hw]%elem_of_cons; [done|]. intros Hin. apply (Hall w Hw).
        rewrite fmap_app, elem_of_app. by left.
      * by rewrite <-app_assoc.
    + intros ([Hv Hf] & [Hn Hnd] & Hall & ->). eexists. split; [split; [done|split; [apply Hall; left|done]]|].
      split; [done|]. split; [done|]. split; [|by rewrite <-app_assoc].
      intros w Hw. rewrite fmap_app, elem_of_app. intros [Hin|Hin%list_elem_of_singleton].
      * apply (Hall w); [by right|done].
      * apply Hn. change (seat_of v) with (seat_node (summary v)). rewrite <-Hin.
        by apply list_elem_of_fmap_2.
Qed.
End seating.

Definition parent_scope (ag : ExecutionPath) : list string :=
  take (length ag.(path_scope).(segments) - 1) ag.(path_scope).(segments).

Lemma member_key_inj v w : _member_key v = _member_key w → v.(member) = w.(member).
Proof.
  unfold _member_key. rewrite canonical_text_equiv by (by apply dump_wf).
  by rewrite dump_equiv.
Qed.
Lemma NoDup_fmap_inj_on {A B} (f : A → B) l x y :
  NoDup (f <$> l) → x ∈ l → y ∈ l → f x = f y → x = y.
Proof.
  intros Hnd (i & Hi)%list_elem_of_lookup (j & Hj)%list_elem_of_lookup Heq.
  assert (i = j) as ->; [|congruence].
  eapply NoDup_lookup; [exact Hnd|by rewrite list_lookup_fmap, Hi|].
  by rewrite list_lookup_fmap, Hj, Heq.
Qed.
(** Votes from distinct seats have one canonical order. *)
Lemma sorted_votes_perm p votes votes' :
  NoDup (seat_of p <$> votes) → votes ≡ₚ votes' →
  sorted_by String.leb _member_key votes = sorted_by String.leb _member_key votes'.
Proof.
  intros Hnd. apply sorted_by_perm_eq; [apply _|apply _|]. intros v w Hv Hw Hk.
  eapply (NoDup_fmap_inj_on (seat_of p)); [done..|]. unfold seat_of. by rewrite (member_key_inj v w Hk).
Qed.

Lemma place_iff ag run votes placed :
  _place votes ag run = Ok placed ↔
  ag.(path_scope).(segments) ≠ [] ∧
  _frames_writable ag.(iterations) ag.(path_scope).(segments) = true ∧
  Forall (seated ag run (parent_scope ag)) votes ∧ NoDup (seat_of (parent_scope ag) <$> votes) ∧
  placed = summary (parent_scope ag) <$> sorted_by String.leb _member_key votes.
Proof.
  assert (_place votes ag run = Ok placed ↔
    ag.(path_scope).(segments) ≠ [] ∧
    _frames_writable ag.(iterations) ag.(path_scope).(segments) = true ∧
    place_votes ag run (parent_scope ag) [] (sorted_by String.leb _member_key votes) = Ok placed) as ->.
  { unfold _place, parent_scope. cbv zeta. destruct (segments (path_scope ag)) as [|x l].
    - split; [discriminate|intros [Hn _]; by destruct Hn].
    - destruct (_frames_writable _ _); simpl negb; cbv iota.
      + split; [|by intros (_ & _ & ?)]. by split; [|split].
      + split; [discriminate|intros (_ & Hn & _); discriminate Hn]. }
  rewrite place_votes_iff.
  assert (sorted_by String.leb _member_key votes ≡ₚ votes) as Hp by apply py_sorted_perm.
  assert (∀ P, Forall P (sorted_by String.leb _member_key votes) ↔ Forall P votes) as ->
    by (intros P; by rewrite Hp).
  assert (∀ f : _ → string, NoDup (f <$> sorted_by String.leb _member_key votes)
    ↔ NoDup (f <$> votes)) as -> by (intros f; by rewrite Hp).
  split.
  - intros (? & ? & ? & ? & _ & ->). done.
  - intros (? & ? & ? & ? & ->). split_and!; try done. intros v _ ?%elem_of_nil. done.
Qed.
Lemma place_permutes ag run votes placed :
  _place votes ag run = Ok placed → seat_result <$> placed ≡ₚ votes ∧ NoDup (seat_node <$> placed).
Proof.
  intros (_ & _ & _ & Hnd & ->)%place_iff. set (p := parent_scope ag) in *.
  assert (sorted_by String.leb _member_key votes ≡ₚ votes) as Hp by apply py_sorted_perm.
  rewrite <-!list_fmap_compose. split.
  - unfold compose, summary. simpl. by rewrite list_fmap_id.
  - unfold compose, summary. simpl. change (NoDup (seat_of p <$> sorted_by String.leb _member_key votes)).
    by rewrite Hp.
Qed.
(** Seating is a function of the set of votes, and seats what it has seated. *)
Lemma place_perm ag run votes votes' placed :
  votes ≡ₚ votes' → _place votes ag run = Ok placed → _place votes' ag run = Ok placed.
Proof.
  intros Hp (H1 & H2 & H3 & H4 & ->)%place_iff. apply place_iff. split_and!; [done|done|..].
  - by rewrite <-Hp.
  - by rewrite <-Hp.
  - by rewrite (sorted_votes_perm _ _ _ H4 Hp).
Qed.
Lemma place_idemp ag run votes placed :
  _place votes ag run = Ok placed → _place (seat_result <$> placed) ag run = Ok placed.
Proof. intros H. eapply place_perm; [|exact H]. symmetry. by apply (place_permutes ag run). Qed.

(** ** The count *)
Definition count_votes (P : PanelMemberResult → Prop) `{∀ v, Decision (P v)}
    (votes : list PanelMemberResult) : nat := length (filter P votes).
Lemma count_snoc P `{∀ v, Decision (P v)} votes v :
  count_votes P (votes ++ [v]) = (count_votes P votes + if decide (P v) then 1 else 0)%nat.
Proof.
  unfold count_votes. rewrite filter_app, length_app, filter_cons, filter_nil.
  by destruct (decide (P v)).
Qed.
Definition valid_vote (v : PanelMemberResult) : Prop := vote_ballot_iff_responded v = Ok v.
Lemma valid_vote_iff v : valid_vote v ↔ (v.(vote_outcome) = Responded ↔ is_Some v.(ballot)).
Proof.
  unfold valid_vote, vote_ballot_iff_responded, ballot_mismatch.
  case_bool_decide as H1; case_bool_decide as H2; simpl; split; try done; tauto.
Qed.

Definition says (b : PanelBallot) (v : PanelMemberResult) : Prop := v.(ballot) = Some b.
#[export] Instance says_dec b v : Decision (says b v).
Proof. unfold says. apply _. Defined.
Definition reports (o : PanelMemberOutcome) (v : PanelMemberResult) : Prop := v.(vote_outcome) = o.
#[export] Instance reports_dec o v : Decision (reports o v).
Proof. unfold reports. apply _. Defined.
Definition tally_of (votes : list PanelMemberResult) : PanelTally :=
  mkTally (count_votes (says Approve) votes) (count_votes (says Reject) votes)
    (count_votes (says Abstain) votes) (count_votes (reports Declined) votes)
    (count_votes (reports Unavailable) votes) (count_votes (reports TimedOut) votes).

Lemma bump_tally_of votes v : valid_vote v → bump v (tally_of votes) = Ok (tally_of (votes ++ [v])).
Proof.
  rewrite valid_vote_iff. unfold tally_of. rewrite !count_snoc. unfold says, reports, bump.
  destruct v as [? ? o [b|] ? ? ?]; simpl; intros [H1 H2].
  - rewrite (H2 (mk_is_Some _ _ eq_refl)).
    destruct b; simpl; rewrite !Nat.add_0_r, ?Nat.add_1_r; done.
  - destruct o; simpl; rewrite ?Nat.add_0_r, ?Nat.add_1_r; try done.
    by destruct (H1 eq_refl).
Qed.
Lemma tally_spec members :
  Forall valid_vote (seat_result <$> members) →
  _tally members = Ok (tally_of (seat_result <$> members)).
Proof.
  induction members as [|s members IH] using rev_ind; [done|].
  rewrite fmap_app, Forall_app. intros [Hm Hs]. apply Forall_cons in Hs as [Hs _].
  unfold _tally in *. rewrite foldl_snoc, (IH Hm). exact (bump_tally_of _ _ Hs).
Qed.
Lemma tally_of_perm votes votes' : votes ≡ₚ votes' → tally_of votes = tally_of votes'.
Proof. intros Hp. unfold tally_of, count_votes. by rewrite !Hp. Qed.
Lemma tally_of_counts votes :
  Forall valid_vote votes →
  responded (tally_of votes) = count_votes (reports Responded) votes ∧
  tally_members (tally_of votes) = length votes.
Proof.
  induction votes as [|v votes IH] using rev_ind; [done|].
  rewrite Forall_app. intros [Hm [Hv _]%Forall_cons]. apply valid_vote_iff in Hv.
  destruct (IH Hm) as [H1 H2]. unfold tally_members, responded, tally_of in *. simpl in *.
  rewrite !count_snoc, length_app. unfold says, reports in *.
  destruct v as [? ? o [b|] ? ? ?]; simpl in *; destruct Hv as [Hv1 Hv2].
  - rewrite (Hv2 (mk_is_Some _ _ eq_refl)). destruct b; simpl; lia.
  - destruct o; simpl; try lia. by destruct (Hv1 eq_refl).
Qed.

(** ** What a conclusion is *)
Lemma concluded_iff r :
  _concluded_from_its_members r = Ok r ↔
  ∃ t, _place (seat_result <$> r.(seats)) r.(aggregator) r.(panel_run) = Ok r.(seats) ∧
       _tally r.(seats) = Ok t ∧ r.(tally) = t ∧ r.(outcome) = panel_outcome t r.(quorum).
Proof.
  unfold _concluded_from_its_members. rewrite result_bind_ok. setoid_rewrite result_bind_ok. split.
  - intros (placed & Hp & t & Ht & Hd). case_decide as Hne; [done|].
    injection Hne as H1 H2 H3. subst placed. by exists t.
  - intros (t & Hp & Ht & H2 & H3). exists (r.(seats)). split; [done|]. exists t. split; [done|].
    rewrite H2, H3. by rewrite decide_False by (intros Hn; by apply Hn).
Qed.
Lemma aggregate_iff votes q ag run r :
  aggregate_panel votes q ag run = Ok r ↔
  ∃ placed t, _place votes ag run = Ok placed ∧ _tally placed = Ok t ∧
    r = mkPanelResult run ag q (panel_outcome t q) t placed.
Proof.
  unfold aggregate_panel. rewrite result_bind_ok. setoid_rewrite result_bind_ok. split.
  - intros (placed & Hp & t & Ht & Hc). exists placed, t. split_and!; [done..|].
    revert Hc. unfold _concluded_from_its_members. simpl.
    rewrite (place_idemp _ _ _ _ Hp). simpl. rewrite Ht. simpl.
    rewrite decide_False by (intros Hn; by apply Hn). by intros [= <-].
  - intros (placed & t & Hp & Ht & ->). exists placed. split; [done|]. exists t. split; [done|].
    apply concluded_iff. exists t. simpl. split_and!; [|done..]. by eapply place_idemp.
Qed.

(** ** Genuine panels *)
Lemma frames_writable_app frames scope k :
  _frames_writable frames scope = true → _frames_writable frames (scope ++ k) = true.
Proof.
  unfold _frames_writable. destruct (1 <? length frames); [done|].
  rewrite !forallb_forall. intros Hall f Hf. specialize (Hall f Hf). revert Hall.
  unfold frame_writable. cbv zeta. set (lp := segments (frame_loop f)).
  rewrite !negb_true_iff, !orb_false_iff, !bool_decide_eq_false.
  intros ((Hne & Hp%dec_stable) & Hb%dec_stable).
  assert (length lp < length scope) as Hlt.
  { apply Nat.nle_gt. intros Hge. rewrite drop_ge in Hb by done. done. }
  rewrite take_app_le, drop_app_le by lia. split_and!; [done| |].
  - intros Hn. by apply Hn.
  - intros Hn. apply Hn. rewrite take_app_le; [done|]. rewrite length_drop. lia.
Qed.

(** A member the walker invoked beside the aggregator, in the same iteration. *)
Definition genuine (parent : list string) (gather : string) (frames : list IterationFrame)
    (run : RunId) (v : PanelMemberResult) : Prop :=
  v.(vote_run) = run ∧ ∃ node rest, node ≠ gather ∧
    v.(member) = mkPath (mkScope (parent ++ node :: rest)) frames.
Lemma genuine_seated parent gather frames run v :
  _frames_writable frames parent = true → genuine parent gather frames run v →
  seated (mkPath (mkScope (parent ++ [gather])) frames) run parent v.
Proof.
  intros Hw (Hr & node & rest & Hne & Hm). split; simpl.
  - done.
  - unfold not_a_sibling. rewrite Hm. simpl. rewrite !orb_false_iff, !bool_decide_eq_false.
    rewrite take_app_length, firstn_all, drop_all. split_and!.
    + intros Hn. by apply Hn.
    + apply Nat.leb_gt. rewrite length_app. simpl. lia.
    + intros Hn. by apply Hn.
    + apply negb_false_iff. by apply frames_writable_app.
    + done.
  - unfold seat_of. rewrite Hm. simpl. rewrite list_lookup_middle by done. rewrite last_snoc.
    simpl. congruence.
Qed.

(** ** The panel law *)

(** The verdict, from what the votes say. *)
Definition verdict_law (votes : list PanelMemberResult) (q : PanelQuorum) (o : PanelOutcome) : Prop :=
  let required := Pos.to_nat q.(required_approvals) in
  match o with
  | ImpossibleQuorum => length votes < required
  | Approved => required ≤ count_votes (says Approve) votes
  | InsufficientResponses => required ≤ length votes ∧ count_votes (reports Responded) votes < required
  | Rejected => required ≤ count_votes (reports Responded) votes
                ∧ count_votes (says Approve) votes < required
  end.
Lemma panel_outcome_law votes q :
  Forall valid_vote votes → verdict_law votes q (panel_outcome (tally_of votes) q).
Proof.
  intros Hv. destruct (tally_of_counts votes Hv) as [Hr Hm]. unfold panel_outcome, verdict_law.
  cbv zeta. rewrite Hr, Hm. simpl.
  destruct (Nat.ltb_spec (length votes) (Pos.to_nat (required_approvals q))); [done|].
  destruct (Nat.leb_spec (Pos.to_nat (required_approvals q)) (count_votes (says Approve) votes)); [done|].
  destruct (Nat.ltb_spec (count_votes (reports Responded) votes) (Pos.to_nat (required_approvals q)));
    done.
Qed.

Lemma aggregate_verdict votes q ag run r :
  Forall valid_vote votes → aggregate_panel votes q ag run = Ok r →
  seat_result <$> r.(seats) ≡ₚ votes ∧ NoDup (seat_node <$> r.(seats)) ∧
  tally_members r.(tally) = length votes ∧ verdict_law votes q r.(outcome).
Proof.
  intros Hv (placed & t & Hp & Ht & ->)%aggregate_iff. simpl.
  destruct (place_permutes _ _ _ _ Hp) as [Hperm Hnd].
  rewrite tally_spec in Ht by (by rewrite Hperm). injection Ht as <-.
  rewrite (tally_of_perm _ _ Hperm). split_and!; [done|done| |by apply panel_outcome_law].
  by apply tally_of_counts.
Qed.
Lemma aggregate_accepts votes q ag run :
  Forall valid_vote votes →
  (∃ r, aggregate_panel votes q ag run = Ok r) ↔
  ag.(path_scope).(segments) ≠ [] ∧
  _frames_writable ag.(iterations) ag.(path_scope).(segments) = true ∧
  Forall (seated ag run (parent_scope ag)) votes ∧ NoDup (seat_of (parent_scope ag) <$> votes).
Proof.
  intros Hv. setoid_rewrite aggregate_iff. setoid_rewrite place_iff. split.
  - intros (r & placed & t & (? & ? & ? & ? & _) & _). done.
  - intros (? & ? & ? & Hnd). set (p := parent_scope ag) in *.
    eexists _, (summary p <$> sorted_by String.leb _member_key votes), _.
    split; [done|]. split; [|reflexivity]. apply tally_spec.
    rewrite <-list_fmap_compose. unfold compose, summary. simpl. rewrite list_fmap_id.
    assert (sorted_by String.leb _member_key votes ≡ₚ votes) as -> by apply py_sorted_perm. done.
Qed.

(** *** A panel for the witnesses: two approvals and an unavailable member *)
Module PanelFixture.
Definition at_ (node : string) : ExecutionPath :=
  mkPath (mkScope ["run"; "loop"; "body"; "panel"; node; "ballot"])
    [mkFrame (mkScope ["run"; "loop"]) 2%N].
Definition gather : ExecutionPath :=
  mkPath (mkScope ["run"; "loop"; "body"; "panel"; "quorum"]) [mkFrame (mkScope ["run"; "loop"]) 2%N].
Definition vote (node : string) (b : option PanelBallot) : PanelMemberResult :=
  mkVote "r" (at_ node) (if b is Some _ then Responded else Unavailable) b JNull None None.
Definition votes : list PanelMemberResult :=
  [vote "carol" (Some Approve); vote "alice" (Some Approve); vote "bob" None].
Definition two : PanelQuorum := mkQuorum 2.
Lemma valid : Forall valid_vote votes.
Proof. repeat constructor. Qed.
Definition conclusion : PanelResult :=
  match aggregate_panel votes two gather "r" with
  | Ok r => r
  | Raise _ => mkPanelResult "r" gather two Rejected (mkTally 0 0 0 0 0 0) []
  end.
Lemma concludes : aggregate_panel votes two gather "r" = Ok conclusion.
Proof. vm_compute. reflexivity. Qed.
End PanelFixture.

(** A panel's conclusion seats every vote exactly once under distinct member nodes, its
    tally counts them all, and its verdict is the quorum law over what the votes say. *)
Theorem aggregate_counts_every_vote votes q ag run r :
  Forall valid_vote votes → aggregate_panel votes q ag run = Ok r →
  seat_result <$> r.(seats) ≡ₚ votes ∧ NoDup (seat_node <$> r.(seats)) ∧
  tally_members r.(tally) = length votes ∧ verdict_law votes q r.(outcome).
Proof. apply aggregate_verdict. Qed.
Lemma aggregate_counts_every_vote_witness :
  tally_members PanelFixture.conclusion.(tally) = 3 ∧
  PanelFixture.conclusion.(outcome) = Approved ∧
  seat_node <$> PanelFixture.conclusion.(seats) = ["alice"; "bob"; "carol"].
Proof.
  destruct (aggregate_counts_every_vote _ _ _ _ _ PanelFixture.valid PanelFixture.concludes)
    as (_ & _ & Hn & _).
  split; [exact Hn|]. split; vm_compute; reflexivity.
Defined.

(** The aggregation does not depend on the order in which votes arrive: permuted votes
    give the same conclusion, or none in both cases. *)
Theorem aggregate_order_independent votes votes' q ag run r :
  votes ≡ₚ votes' → aggregate_panel votes q ag run = Ok r ↔ aggregate_panel votes' q ag run = Ok r.
Proof.
  intros Hp. rewrite !aggregate_iff. split; intros (placed & t & H & ?); exists placed, t;
    (split; [|done]); by eapply place_perm.
Qed.
Lemma aggregate_order_independent_witness :
  aggregate_panel (reverse PanelFixture.votes) PanelFixture.two PanelFixture.gather "r"
  = Ok PanelFixture.conclusion.
Proof.
  apply (aggregate_order_independent PanelFixture.votes); [|exact PanelFixture.concludes].
  symmetry. apply reverse_Permutation.
Defined.

(** A retained panel result passes its own validator exactly when aggregating its members
    again, under its quorum, aggregator and run, returns it. *)
Theorem panel_result_self_verifying r :
  _concluded_from_its_members r = Ok r ↔
  aggregate_panel (seat_result <$> r.(seats)) r.(quorum) r.(aggregator) r.(panel_run) = Ok r.
Proof.
  rewrite concluded_iff, aggregate_iff. split.
  - intros (t & Hp & Ht & H2 & H3). exists r.(seats), t. split_and!; [done..|].
    destruct r. simpl in *. by subst.
  - intros (placed & t & Hp & Ht & Hr). exists t. rewrite Hr in *. simpl in *. done.
Qed.

(** For votes whose ballots match their outcomes, aggregation succeeds exactly when the
    aggregator has a writable place, every member sits beside it in the same iteration and run,
    and no two votes come from one member node; every other panel is refused. *)
Theorem aggregate_accepts_exactly votes q ag run :
  Forall valid_vote votes →
  (∃ r, aggregate_panel votes q ag run = Ok r) ↔
  ag.(path_scope).(segments) ≠ [] ∧
  _frames_writable ag.(iterations) ag.(path_scope).(segments) = true ∧
  Forall (seated ag run (parent_scope ag)) votes ∧ NoDup (seat_of (parent_scope ag) <$> votes).
Proof. apply aggregate_accepts. Qed.
(** A vote cast twice from one seat, by two invocations beneath it. *)
Lemma aggregate_accepts_exactly_witness :
  let stuffed := PanelFixture.votes
    ++ [mkVote "r" (mkPath (mkScope ["run"; "loop"; "body"; "panel"; "alice"; "again"])
          [mkFrame (mkScope ["run"; "loop"]) 2%N]) Responded (Some Approve) JNull None None] in
  ~ ∃ r, aggregate_panel stuffed PanelFixture.two PanelFixture.gather "r" = Ok r.
Proof.
  intros stuffed H. apply aggregate_accepts_exactly in H as (_ & _ & _ & Hnd);
    [|repeat constructor].
  refine (proj1 (bool_decide_eq_false _) _ Hnd). vm_compute. reflexivity.
Defined.

(** A panel whose members the walker invoked beside the aggregator, in its iteration and
    run and at distinct nodes, always concludes, with the verdict of the quorum law. *)
Theorem genuine_panel_concludes parent gather frames run votes q :
  Forall valid_vote votes → _frames_writable frames parent = true →
  Forall (genuine parent gather frames run) votes → NoDup (seat_of parent <$> votes) →
  ∃ r, panel_quorum run (mkPath (mkScope (parent ++ [gather])) frames) votes q = Ok r ∧
    verdict_law votes q r.(outcome).
Proof.
  intros Hv Hw Hg Hnd. set (ag := mkPath _ frames).
  assert (parent_scope ag = parent) as Hpar.
  { unfold parent_scope. simpl. rewrite length_app. simpl.
    by rewrite Nat.add_sub, take_app_length. }
  destruct (proj2 (aggregate_accepts votes q ag run Hv)) as [r Hr].
  { rewrite Hpar. split_and!; [by destruct parent|by apply frames_writable_app| |done].
    eapply Forall_impl; [exact Hg|]. intros v. by apply genuine_seated. }
  exists r. split; [exact Hr|]. by destruct (aggregate_verdict _ _ _ _ _ Hv Hr) as (_ & _ & _ & ?).
Qed.
Lemma genuine_panel_concludes_witness :
  ∃ r, panel_quorum "r" PanelFixture.gather PanelFixture.votes PanelFixture.two = Ok r ∧
    verdict_law PanelFixture.votes PanelFixture.two r.(outcome).
Proof.
  apply (genuine_panel_concludes ["run"; "loop"; "body"; "panel"] "quorum"
    [mkFrame (mkScope ["run"; "loop"]) 2%N]).
  - exact PanelFixture.valid.
  - reflexivity.
  - repeat (apply Forall_cons_2; [split; [reflexivity|eexists _, ["ballot"]; split; [|reflexivity]; discriminate]|]).
    constructor.
  - apply (bool_decide_unpack _). vm_compute. exact I.
Defined.
