(* ===== verification/Message.v ===== *)
(** Channel messages ([src/constructicon/core/channel.py]) and the independent
    proof of a reply ([src/constructicon/core/human.py]): what one request and
    the one reply it admits are, whichever transport stores them.

    A clock reading is the string it dumps to. *)

From S2P Require Import Prelude Identity Address Capability.
#[local] Open Scope Z_scope.
(** Identities are compared, never computed, by the proofs. *)
#[global] Arguments canonical_text : simpl never.
#[global] Arguments request_message_id : simpl never.
#[global] Arguments reply_message_id : simpl never.

(** ** Messages *)
Record Envelope := mkEnvelope {
  env_run : RunId;
  env_path : ExecutionPath;
  env_port : string;
  created_at : string;
  provenance : list ExecutionPath;
  payload : json;
}.
#[export] Instance Envelope_eq_dec : EqDecision Envelope.
Proof. solve_decision. Defined.
#[export] Instance Envelope_dump : Dump Envelope := λ e,
  JObj [("run_id", JStr e.(env_run)); ("path", dump e.(env_path)); ("port", JStr e.(env_port));
        ("created_at", JStr e.(created_at)); ("provenance", dump e.(provenance));
        ("payload", e.(payload))].

Inductive message_kind := KRequest | KReply.
#[export] Instance message_kind_eq_dec : EqDecision message_kind.
Proof. solve_decision. Defined.
Definition kind_value (k : message_kind) : string :=
  match k with KRequest => "request" | KReply => "reply" end.

Record ChannelMessage := mkMessage {
  message_id : Digest;
  msg_channel : string;
  msg_lane : string;
  msg_interaction : ChannelInteraction;
  msg_kind : message_kind;
  reply_to : option Digest;
  recipient : option string;
  sender : option string;
  msg_contract : ChannelContract;
  msg_reply_contract : option ChannelContract;
  msg_reply_port : option string;
  envelope : Envelope;
}.
#[export] Instance ChannelMessage_eq_dec : EqDecision ChannelMessage.
Proof. solve_decision. Defined.
#[export] Instance ChannelMessage_dump : Dump ChannelMessage := λ m,
  JObj [("schema_version", JInt 1); ("message_id", JStr m.(message_id));
        ("channel_id", JStr m.(msg_channel)); ("lane", JStr m.(msg_lane));
        ("interaction", JStr (interaction_value m.(msg_interaction)));
        ("kind", JStr (kind_value m.(msg_kind))); ("reply_to", dump m.(reply_to));
        ("recipient_actor_id", dump m.(recipient)); ("sender_actor_id", dump m.(sender));
        ("contract", dump m.(msg_contract)); ("reply_contract", dump m.(msg_reply_contract));
        ("reply_port", dump m.(msg_reply_port)); ("envelope", dump m.(envelope))].

(** A timestamp-free request; its payload is the caller's Python value. *)
Record ChannelSendIntent := mkIntent {
  in_message_id : Digest;
  in_channel : string;
  in_revision : string;
  in_lane : string;
  in_interaction : ChannelInteraction;
  in_recipient : option string;
  in_contract : ChannelContract;
  in_reply_contract : ChannelContract;
  in_run : RunId;
  in_path : ExecutionPath;
  in_port : string;
  in_reply_port : string;
  in_payload : pyval;
}.

Inductive channel_error :=
(** ContractViolation *)
| NonDerivedIntent (carried derived : Digest)
| OnlyRequestsAnswered
| NoReplyPinned
| NotAddressedTo (actor : string)
| WrongChannel (addressed : string)
| NoRequestToReply (id : Digest)
| ApprovalNeedsApproval
| IncoherentExchange (why : exchange_fault)
| NothingToAcknowledge (id : Digest)
(** ValueError *)
| PayloadError (e : value_error)
| BadShape
| NonDerivedId
| LimitNotPositive
| LimitTooLarge
(** ChannelReplyConflict and ChannelAckConflict *)
| AnsweredByAnother (id : Digest)
| DifferentReply (id : Digest)
| AcknowledgedByAnother (id : Digest) (actor : string)
(** InvalidChannelRevision *)
| FutureRevision
| IncoherentRevision
(** JournalDamaged *)
| NotAReply (id : Digest)
| AnswersOther (id : Digest)
| ContradictsRequest (id : Digest)
| NamesNoRequest (id : Digest)
| RequestNotStored (id : Digest)
| IncompleteRequest (id : Digest)
| ContradictsProof (id : Digest)
| NotARequest (id : Digest)
| NoIntentProof (id : Digest)
| ContradictsIntent (id : Digest)
| NoReplyPort (id : Digest)
| StoredDifferently (id : Digest)
| CommandRepliedElsewhere (command : string)
| CommandAcknowledgedElsewhere (command : string)
| AckWithoutReply (command : string)
| InvalidOwnedReply (command : string)
| ReplyWithoutAck (id : Digest)
| NoPayloadProof (id : Digest)
| MessageHistory | RequestHistory | ReplyHistory | AckHistory.

(** The model validators. *)
Definition _one_of_two_legal_shapes (m : ChannelMessage) : result channel_error ChannelMessage :=
  let some {A} (o : option A) := bool_decide (is_Some o) in
  match m.(msg_kind) with
  | KRequest =>
      if some m.(reply_to) || some m.(sender) then Raise BadShape
      else if negb (some m.(msg_reply_contract)) || negb (some m.(msg_reply_port)) then Raise BadShape
      else Ok m
  | KReply =>
      if negb (some m.(reply_to)) || negb (some m.(sender)) then Raise BadShape
      else if some m.(recipient) then Raise BadShape
      else if some m.(msg_reply_contract) || some m.(msg_reply_port) then Raise BadShape
      else Ok m
  end.
Definition derived_id (i : ChannelSendIntent) : Digest :=
  request_message_id i.(in_run) i.(in_path) i.(in_channel) i.(in_revision) i.(in_lane)
    i.(in_interaction) i.(in_port).
Definition _identity_is_derived (i : ChannelSendIntent) : result channel_error ChannelSendIntent :=
  if decide (i.(in_message_id) ≠ derived_id i) then Raise NonDerivedId else Ok i.

(** Canonical bytes, never Python equality. *)
Definition same_message (left right : ChannelMessage) : bool :=
  bool_decide (canonical_text (dump left) = canonical_text (dump right)).

(** [json_value(payload)] *)
Definition own_payload (p : pyval) : result channel_error json :=
  match json_value p with Ok j => Ok j | Raise e => Raise (PayloadError e) end.

Definition message_for_intent (i : ChannelSendIntent) (created : string) :
    result channel_error ChannelMessage :=
  let derived := derived_id i in
  if decide (derived ≠ i.(in_message_id)) then Raise (NonDerivedIntent i.(in_message_id) derived) else
  p ← own_payload i.(in_payload);
  _one_of_two_legal_shapes
    (mkMessage i.(in_message_id) i.(in_channel) i.(in_lane) i.(in_interaction) KRequest None
       i.(in_recipient) None i.(in_contract) (Some i.(in_reply_contract)) (Some i.(in_reply_port))
       (mkEnvelope i.(in_run) i.(in_path) i.(in_port) created [] p)).

Definition message_for_reply (request : ChannelMessage) (actor : string) (p : pyval)
    (created : string) : result channel_error ChannelMessage :=
  if decide (request.(msg_kind) ≠ KRequest) then Raise OnlyRequestsAnswered else
  match request.(msg_reply_contract), request.(msg_reply_port) with
  | Some contract, Some port =>
      if bool_decide (is_Some request.(recipient)) && bool_decide (Some actor ≠ request.(recipient))
      then Raise (NotAddressedTo actor) else
      p ← own_payload p;
      _one_of_two_legal_shapes
        (mkMessage (reply_message_id request.(message_id) port) request.(msg_channel)
           request.(msg_lane) request.(msg_interaction) KReply (Some request.(message_id)) None
           (Some actor) contract None None
           (mkEnvelope request.(envelope).(env_run) request.(envelope).(env_path) port created [] p))
  | _, _ => Raise NoReplyPinned
  end.

(** A stored payload is a wire value; Python hands it back as the same value. *)
Definition validated_reply (request reply : ChannelMessage) : result channel_error ChannelMessage :=
  match reply.(msg_kind), reply.(sender) with
  | KReply, Some actor =>
      if decide (reply.(reply_to) ≠ Some request.(message_id))
      then Raise (AnswersOther reply.(message_id)) else
      expected ← message_for_reply request actor (embed reply.(envelope).(payload))
                   reply.(envelope).(created_at);
      if negb (same_message reply expected) then Raise (ContradictsRequest reply.(message_id))
      else Ok reply
  | _, _ => Raise (NotAReply reply.(message_id))
  end.

Definition discoverable_by (m : ChannelMessage) (actor : string) : bool :=
  match m.(recipient) with
  | Some r => bool_decide (r = actor)
  | None => bool_decide (m.(msg_kind) = KRequest)
  end.

Definition governing_request (m : ChannelMessage) (request : option ChannelMessage) :
    result channel_error ChannelMessage :=
  match m.(msg_kind), request with
  | KRequest, _ => Ok m
  | KReply, None => Raise (RequestNotStored m.(message_id))
  | KReply, Some request => _ ← validated_reply request m; Ok request
  end.

(** ** The independent proof of a reply *)
Record ChannelReplyProof := mkProof {
  pf_channel : string;
  pf_request : Digest;
  pf_interaction : ChannelInteraction;
  pf_actor : string;
  pf_reply : Digest;
  pf_reply_port : string;
  pf_payload : json;
  pf_run : RunId;
}.
#[export] Instance ChannelReplyProof_eq_dec : EqDecision ChannelReplyProof.
Proof. solve_decision. Defined.
#[export] Instance ChannelReplyProof_dump : Dump ChannelReplyProof := λ p,
  JObj [("channel_id", JStr p.(pf_channel)); ("request_id", JStr p.(pf_request));
        ("interaction", JStr (interaction_value p.(pf_interaction)));
        ("actor_id", JStr p.(pf_actor)); ("reply_id", JStr p.(pf_reply));
        ("reply_port", JStr p.(pf_reply_port)); ("payload", p.(pf_payload));
        ("run_id", JStr p.(pf_run))].

Definition channel_reply_proof (request reply : ChannelMessage) :
    result channel_error ChannelReplyProof :=
  _ ← validated_reply request reply;
  match request.(msg_reply_port), reply.(sender) with
  | Some port, Some actor =>
      p ← own_payload (embed reply.(envelope).(payload));
      Ok (mkProof request.(msg_channel) request.(message_id) request.(msg_interaction) actor
            reply.(message_id) port p request.(envelope).(env_run))
  | _, _ => Raise (IncompleteRequest reply.(message_id))
  end.
Definition validated_channel_reply_proof (proof : ChannelReplyProof)
    (request reply : ChannelMessage) : result channel_error ChannelReplyProof :=
  expected ← channel_reply_proof request reply;
  if decide (canonical_text (dump proof) ≠ canonical_text (dump expected))
  then Raise (ContradictsProof reply.(message_id)) else Ok proof.

(** ** The dump of a message is faithful *)
#[export] Instance ChannelContract_wf : Wf ChannelContract := λ _, True.
#[export] Instance ChannelContract_equiv : Equiv ChannelContract := eq.
#[export] Instance ChannelContract_dump_some : DumpSome ChannelContract.
Proof. done. Qed.
#[export] Instance ChannelContract_dump_laws : DumpLaws ChannelContract.
Proof.
  split; intros [t s]; [intros _; by wf_fields|].
  intros [t' s'] _ _. dump_fields. rewrite !jequiv_str. unfold equiv, ChannelContract_equiv. simpl.
  split; [by intros (-> & -> & _)|by intros [= -> ->]].
Qed.

Lemma option_equiv_eq {A} `{!Equiv A} (o p : option A) :
  (∀ a b : A, a ≡ b ↔ a = b) → o ≡ p ↔ o = p.
Proof.
  intros H. split.
  - destruct 1 as [a b Hab|]; [|done]. f_equal. by apply H.
  - intros ->. destruct p; constructor. by apply H.
Qed.
Lemma dump_opt_string (o p : option string) : jequiv (dump o) (dump p) ↔ o = p.
Proof. rewrite dump_equiv by done. by apply option_equiv_eq. Qed.
Lemma dump_opt_contract (o p : option ChannelContract) : jequiv (dump o) (dump p) ↔ o = p.
Proof. rewrite dump_equiv by done. by apply option_equiv_eq. Qed.
Lemma dump_contract (c d : ChannelContract) : jequiv (dump c) (dump d) ↔ c = d.
Proof. by rewrite dump_equiv. Qed.
Lemma interaction_value_inj i j : interaction_value i = interaction_value j → i = j.
Proof. by destruct i, j. Qed.
Lemma kind_value_inj i j : kind_value i = kind_value j → i = j.
Proof. by destruct i, j. Qed.

#[export] Instance Envelope_wf : Wf Envelope := λ e, wf_json e.(payload).
#[export] Instance Envelope_equiv : Equiv Envelope := λ e f,
  e.(env_run) = f.(env_run) ∧ e.(env_path) = f.(env_path) ∧ e.(env_port) = f.(env_port) ∧
  e.(created_at) = f.(created_at) ∧ e.(provenance) = f.(provenance) ∧
  jequiv e.(payload) f.(payload).
#[export] Instance Envelope_dump_laws : DumpLaws Envelope.
Proof.
  split; intros e.
  - intros He. wf_fields; [by apply (dump_wf e.(env_path))| |done].
    by apply (dump_wf e.(provenance)), Forall_true.
  - intros f He Hf. dump_fields. rewrite !jequiv_str.
    rewrite !dump_equiv by (done || by apply Forall_true). rewrite list_equiv_eq by done.
    unfold equiv, Envelope_equiv. tauto.
Qed.

#[export] Instance ChannelMessage_wf : Wf ChannelMessage := λ m, wf m.(envelope).
#[export] Instance ChannelMessage_equiv : Equiv ChannelMessage := λ m n,
  m.(message_id) = n.(message_id) ∧ m.(msg_channel) = n.(msg_channel) ∧
  m.(msg_lane) = n.(msg_lane) ∧ m.(msg_interaction) = n.(msg_interaction) ∧
  m.(msg_kind) = n.(msg_kind) ∧ m.(reply_to) = n.(reply_to) ∧ m.(recipient) = n.(recipient) ∧
  m.(sender) = n.(sender) ∧ m.(msg_contract) = n.(msg_contract) ∧
  m.(msg_reply_contract) = n.(msg_reply_contract) ∧ m.(msg_reply_port) = n.(msg_reply_port) ∧
  m.(envelope) ≡ n.(envelope).
#[export] Instance ChannelMessage_dump_laws : DumpLaws ChannelMessage.
Proof.
  split; intros m.
  - intros Hm. wf_fields.
    + by apply (dump_wf m.(reply_to)).
    + by apply (dump_wf m.(recipient)).
    + by apply (dump_wf m.(sender)).
    + by apply (dump_wf m.(msg_contract)).
    + by apply (dump_wf m.(msg_reply_contract)).
    + by apply (dump_wf m.(msg_reply_port)).
    + by apply (dump_wf m.(envelope)).
  - intros n Hm Hn. dump_fields. rewrite !jequiv_str, jequiv_int, !dump_opt_string.
    rewrite dump_opt_contract, dump_contract, (dump_equiv m.(envelope)) by done.
    assert (interaction_value (msg_interaction m) = interaction_value (msg_interaction n)
      ↔ msg_interaction m = msg_interaction n) as ->
      by (split; [apply interaction_value_inj|by intros ->]).
    assert (kind_value (msg_kind m) = kind_value (msg_kind n) ↔ msg_kind m = msg_kind n) as ->
      by (split; [apply kind_value_inj|by intros ->]).
    unfold equiv at 2, ChannelMessage_equiv. tauto.
Qed.
Lemma same_message_iff m n : wf m → wf n → same_message m n = true ↔ m ≡ n.
Proof.
  intros Hm Hn. unfold same_message. rewrite bool_decide_eq_true.
  rewrite canonical_text_equiv by (by apply dump_wf). by apply dump_equiv.
Qed.
Lemma same_message_refl m : same_message m m = true.
Proof. unfold same_message. by apply bool_decide_eq_true. Qed.

(** ** The one request an intent becomes, the one reply a request admits *)
Definition request_of (i : ChannelSendIntent) (j : json) (t : string) : ChannelMessage :=
  mkMessage i.(in_message_id) i.(in_channel) i.(in_lane) i.(in_interaction) KRequest None
    i.(in_recipient) None i.(in_contract) (Some i.(in_reply_contract)) (Some i.(in_reply_port))
    (mkEnvelope i.(in_run) i.(in_path) i.(in_port) t [] j).
Definition reply_of (request : ChannelMessage) (actor : string) (contract : ChannelContract)
    (port : string) (j : json) (t : string) : ChannelMessage :=
  mkMessage (reply_message_id request.(message_id) port) request.(msg_channel)
    request.(msg_lane) request.(msg_interaction) KReply (Some request.(message_id)) None
    (Some actor) contract None None
    (mkEnvelope request.(envelope).(env_run) request.(envelope).(env_path) port t [] j).
(** Whom a request lets answer. *)
Definition may_answer (request : ChannelMessage) (actor : string) : Prop :=
  request.(recipient) = None ∨ request.(recipient) = Some actor.
Definition admits (request : ChannelMessage) (actor : string) (contract : ChannelContract)
    (port : string) : Prop :=
  request.(msg_kind) = KRequest ∧ request.(msg_reply_contract) = Some contract ∧
  request.(msg_reply_port) = Some port ∧ may_answer request actor.

Lemma own_payload_ok p j : own_payload p = Ok j ↔ json_value p = Ok j.
Proof. unfold own_payload. destruct (json_value p); split; intros H; by simplify_eq. Qed.
Lemma own_payload_embed j : wire j → own_payload (embed j) = Ok j.
Proof. intros H. by apply own_payload_ok, json_value_embed. Qed.

Lemma message_for_intent_iff i t m :
  message_for_intent i t = Ok m ↔
  i.(in_message_id) = derived_id i ∧ ∃ j, json_value i.(in_payload) = Ok j ∧ m = request_of i j t.
Proof.
  unfold message_for_intent. cbv zeta. case_decide as H.
  - split; [discriminate|]. intros [H1 _]. by destruct H.
  - rewrite result_bind_ok. setoid_rewrite own_payload_ok. simpl. split.
    + intros (j & Hj & [= <-]). split; [congruence|]. by exists j.
    + intros (_ & j & Hj & ->). by exists j.
Qed.
Lemma may_answer_test request actor :
  bool_decide (is_Some request.(recipient)) && bool_decide (Some actor ≠ request.(recipient)) = false
  ↔ may_answer request actor.
Proof.
  unfold may_answer. destruct (recipient request) as [r|]; simpl; [|by split; [left|]].
  rewrite bool_decide_eq_false. split.
  - intros H%dec_stable. by right.
  - intros [?|[= ->]]; [done|]. by intros H.
Qed.
Lemma message_for_reply_iff request actor p t m :
  message_for_reply request actor p t = Ok m ↔
  ∃ contract port j, admits request actor contract port ∧ json_value p = Ok j ∧
    m = reply_of request actor contract port j t.
Proof.
  unfold message_for_reply, admits. case_decide as Hk.
  { split; [discriminate|]. by intros (c & po & j & (? & _) & _). }
  destruct (msg_reply_contract request) as [c|]; [|split; [discriminate|naive_solver]].
  destruct (msg_reply_port request) as [po|]; [|split; [discriminate|naive_solver]].
  destruct (bool_decide _ && bool_decide _) eqn:E.
  - split; [discriminate|]. intros (c' & po' & j & (_ & _ & _ & Hm) & _).
    apply may_answer_test in Hm. congruence.
  - apply may_answer_test in E. rewrite result_bind_ok. setoid_rewrite own_payload_ok. simpl. split.
    + intros (j & Hj & [= <-]). by exists c, po, j.
    + intros (c' & po' & j & (_ & [= <-] & [= <-] & _) & Hj & ->). by exists j.
Qed.

(** A payload a transport retains. *)
Definition sound (m : ChannelMessage) : Prop :=
  wire m.(envelope).(payload) ∧ wf_json m.(envelope).(payload).
Definition answers (request reply : ChannelMessage) : Prop :=
  ∃ actor contract port, admits request actor contract port ∧
    reply = reply_of request actor contract port reply.(envelope).(payload)
              reply.(envelope).(created_at).

Lemma validated_reply_built request actor contract port j t :
  admits request actor contract port → wire j →
  validated_reply request (reply_of request actor contract port j t)
  = Ok (reply_of request actor contract port j t).
Proof.
  intros Hadm Hw. unfold validated_reply. cbn [msg_kind sender reply_of].
  rewrite decide_False by (intros H; by apply H).
  assert (message_for_reply request actor (embed j) t = Ok (reply_of request actor contract port j t))
    as He.
  { apply message_for_reply_iff. exists contract, port, j. split; [done|].
    split; [by apply json_value_embed|reflexivity]. }
  change (payload _) with j. change (created_at _) with t. rewrite He. cbn [mbind result_bind].
  by rewrite same_message_refl.
Qed.
Lemma validated_reply_of_answers request reply :
  wire reply.(envelope).(payload) → answers request reply → validated_reply request reply = Ok reply.
Proof.
  intros Hw (actor & c & po & Hadm & Hr). rewrite Hr. by apply validated_reply_built.
Qed.
Lemma answers_of_validated_reply request reply :
  sound reply → validated_reply request reply = Ok reply → answers request reply.
Proof.
  intros [Hw Hwf]. unfold validated_reply.
  destruct (msg_kind reply); [discriminate|]. destruct (sender reply) as [actor|]; [|discriminate].
  case_decide; [discriminate|]. rewrite result_bind_ok. intros (e & He & Hs).
  destruct (same_message reply e) eqn:Es; [|discriminate Hs].
  apply message_for_reply_iff in He as (c & po & j & Hadm & Hj & ->).
  rewrite json_value_embed in Hj by done. injection Hj as <-.
  exists actor, c, po. split; [done|].
  apply same_message_iff in Es; [|done..].
  destruct reply as [? ? ? ? ? ? ? ? ? ? ? [? ? ? ? ? ?]], Es as (?&?&?&?&?&?&?&?&?&?&?&(?&?&?&?&?&_)).
  simpl in *. by simplify_eq.
Qed.

(** validated_reply accepts a retained reply exactly when it is the one reply its request
    admits from its sender, field for field: channel, lane, interaction, contract, port,
    provenance and derived identity. *)
Theorem validated_reply_exact request reply :
  sound reply → validated_reply request reply = Ok reply ↔ answers request reply.
Proof.
  intros Hs. split; [by apply answers_of_validated_reply|].
  apply validated_reply_of_answers. by destruct Hs.
Qed.
(** An advice request to anyone, and the reply it admits. *)
Lemma validated_reply_exact_witness :
  let request := mkMessage "q" "desk" "main" Advice KRequest None None None ADVICE_REQUEST_CONTRACT
    (Some ADVICE_REPLY_CONTRACT) (Some "advice")
    (mkEnvelope "r" (mkPath (mkScope ["run"]) []) "request" "t0" [] JNull) in
  let reply := reply_of request "bob" ADVICE_REPLY_CONTRACT "advice" JNull "t1" in
  validated_reply request reply = Ok reply.
Proof.
  intros request reply. apply validated_reply_exact.
  - split; [reflexivity|exact I].
  - exists "bob", ADVICE_REPLY_CONTRACT, "advice".
    split; [|reflexivity]. split; [reflexivity|]. split; [reflexivity|]. split; [reflexivity|].
    left. reflexivity.
Defined.
