(* ===== verification/InProcess.v ===== *)
(** The in-process channel
    ([src/constructicon/substrate/channels/in_process.py]): an append-only
    history of messages and acknowledgements behind one lock, with its indices
    and first-write proofs.

    Every public method runs with the lock held, so one method is one atomic
    transition; [now_fn] is read at most once per call, and its reading is an
    argument. A retained message is never handed out ([_detached_message] is a
    deep copy), so values model the retained objects and [is not] is [≠]. *)

From S2P Require Import Prelude Identity Address Capability Message.

Record ChannelAck := mkAck { ack_message : Digest; ack_actor : string; acked_at : string }.
#[export] Instance ChannelAck_eq_dec : EqDecision ChannelAck.
Proof. solve_decision. Defined.
Record ChannelRevision := mkRevision { message_seq : nat; ack_seq : nat }.
Record ChannelDelivery := mkDelivery {
  delivery_seq : nat; delivered : ChannelMessage; acknowledged : bool }.

Definition REPLY_CONSUMES : list ChannelInteraction := [Advice].

(** What the constructor is given. *)
Record channel_config := mkConfig { own_channel_id : string; own_max_batch : positive }.

Abbreviation ack_key := (Digest * string)%type (only parsing).
(** The instance's fields; dicts in insertion order. *)
Record chan := mkChan {
  messages : list ChannelMessage;
  acks : list ChannelAck;
  by_id : list (Digest * ChannelMessage);
  seq_by_id : list (Digest * nat);
  attestations : list (Digest * string);
  intent_by_message : list (Digest * ChannelSendIntent);
  ack_by_key : list (ack_key * ChannelAck);
  ack_commands : list (string * ack_key);
  reply_command : list (Digest * string);
  reply_message : list (string * Digest);
  reply_proofs : list (Digest * ChannelReplyProof);
}.
Definition new_channel : chan := mkChan [] [] [] [] [] [] [] [] [] [] [].

Definition C := eff chan channel_error.

(** ** Appending *)
Definition _append (m : ChannelMessage) : C unit := modify (λ s,
  let messages := s.(messages) ++ [m] in
  mkChan messages s.(acks) (Dict.set m.(message_id) m s.(by_id))
    (Dict.set m.(message_id) (length messages) s.(seq_by_id)) s.(attestations)
    s.(intent_by_message) s.(ack_by_key) s.(ack_commands) s.(reply_command) s.(reply_message)
    s.(reply_proofs)).
Definition record_request (id : Digest) (attestation : string) (proof : ChannelSendIntent) : C unit :=
  modify (λ s,
  mkChan s.(messages) s.(acks) s.(by_id) s.(seq_by_id) (Dict.set id attestation s.(attestations))
    (Dict.set id proof s.(intent_by_message)) s.(ack_by_key) s.(ack_commands) s.(reply_command)
    s.(reply_message) s.(reply_proofs)).
Definition record_reply (id : Digest) (command : string) (proof : ChannelReplyProof) : C unit :=
  modify (λ s,
  mkChan s.(messages) s.(acks) s.(by_id) s.(seq_by_id) s.(attestations) s.(intent_by_message)
    s.(ack_by_key) s.(ack_commands) (Dict.set id command s.(reply_command))
    (Dict.set command id s.(reply_message)) (Dict.set id proof s.(reply_proofs))).
Definition _append_ack (key : ack_key) (a : ChannelAck) (command : string) : C unit := modify (λ s,
  mkChan s.(messages) (s.(acks) ++ [a]) s.(by_id) s.(seq_by_id) s.(attestations)
    s.(intent_by_message) (Dict.set key a s.(ack_by_key)) (Dict.set command key s.(ack_commands))
    s.(reply_command) s.(reply_message) s.(reply_proofs)).

(** ** The integrity of retained history *)
Definition same_set {A} `{EqDecision A} (l k : list A) : bool :=
  bool_decide (Forall (λ x, x ∈ k) l) && bool_decide (Forall (λ x, x ∈ l) k).

Definition ack_key_of (a : ChannelAck) : ack_key := (a.(ack_message), a.(ack_actor)).
Definition messages_ok (s : chan) : bool :=
  let ids := message_id <$> s.(messages) in
  bool_decide (length ids = length (remove_dups ids))
  && same_set ids (Dict.keys s.(by_id)) && same_set ids (Dict.keys s.(seq_by_id))
  && forallb (λ im : nat * ChannelMessage,
       bool_decide (Dict.get im.2.(message_id) s.(by_id) = Some im.2)
       && bool_decide (Dict.get im.2.(message_id) s.(seq_by_id) = Some (S im.1)))
       (zip (seq 0 (length s.(messages))) s.(messages)).
Definition request_ids (s : chan) : list Digest :=
  message_id <$> filter (λ m, m.(msg_kind) = KRequest) s.(messages).
(** [set(message_ids) - request_ids] *)
Definition reply_ids (s : chan) : list Digest :=
  remove_dups (filter (λ i, i ∉ request_ids s) (message_id <$> s.(messages))).
Definition requests_ok (s : chan) : bool :=
  same_set (request_ids s) (Dict.keys s.(attestations))
  && same_set (request_ids s) (Dict.keys s.(intent_by_message)).
Definition replies_ok (s : chan) : bool :=
  same_set (reply_ids s) (Dict.keys s.(reply_command))
  && same_set (reply_ids s) (Dict.keys s.(reply_proofs))
  && same_set (reply_ids s) (Dict.values s.(reply_message))
  && bool_decide (length s.(reply_message) = length (reply_ids s))
  && forallb (λ rc : Digest * string, bool_decide (Dict.get rc.2 s.(reply_message) = Some rc.1))
       s.(reply_command).
Definition acks_ok (s : chan) : bool :=
  let keys := ack_key_of <$> s.(acks) in
  bool_decide (length keys = length (remove_dups keys))
  && same_set keys (Dict.keys s.(ack_by_key)) && same_set keys (Dict.values s.(ack_commands))
  && bool_decide (length s.(ack_commands) = length keys)
  && forallb (λ a, bool_decide (Dict.get (ack_key_of a) s.(ack_by_key) = Some a)
                   && Dict.mem a.(ack_message) s.(by_id)) s.(acks).
Definition _validate_history (s : chan) : result channel_error unit :=
  if negb (messages_ok s) then Raise MessageHistory
  else if negb (requests_ok s) then Raise RequestHistory
  else if negb (replies_ok s) then Raise ReplyHistory
  else if negb (acks_ok s) then Raise AckHistory
  else Ok tt.

(** ** Completeness of one message *)
Definition _complete_request (s : chan) (request : ChannelMessage) :
    result channel_error ChannelMessage :=
  if decide (request.(msg_kind) ≠ KRequest) then Raise (NotARequest request.(message_id)) else
  match Dict.get request.(message_id) s.(intent_by_message) with
  | None => Raise (NoIntentProof request.(message_id))
  | Some proof =>
      expected ← message_for_intent proof request.(envelope).(created_at);
      if negb (same_message request expected) then Raise (ContradictsIntent request.(message_id))
      else Ok request
  end.
Definition _complete_reply (s : chan) (request reply : ChannelMessage) :
    result channel_error ChannelMessage :=
  request ← _complete_request s request;
  validated ← validated_reply request reply;
  let acked :=
    match validated.(sender) with
    | None => false
    | Some actor => Dict.mem (request.(message_id), actor) s.(ack_by_key)
    end in
  if negb acked then Raise (ReplyWithoutAck validated.(message_id)) else
  match Dict.get validated.(message_id) s.(reply_proofs) with
  | None => Raise (NoPayloadProof validated.(message_id))
  | Some proof =>
      _ ← validated_channel_reply_proof proof request validated; Ok validated
  end.
Definition _complete_message (s : chan) (m : ChannelMessage) : result channel_error ChannelMessage :=
  match m.(msg_kind) with
  | KRequest => _complete_request s m
  | KReply =>
      match m.(reply_to) with
      | None => Raise (NamesNoRequest m.(message_id))
      | Some id =>
          match Dict.get id s.(by_id) with
          | None => Raise (RequestNotStored m.(message_id))
          | Some request => _complete_reply s request m
          end
      end
  end.

(** ** Acknowledgements *)
Definition _ack_key (s : chan) (id : Digest) (actor command : string) :
    result channel_error ack_key :=
  if negb (Dict.mem id s.(by_id)) then Raise (NothingToAcknowledge id) else
  let key := (id, actor) in
  _ ← match Dict.get command s.(reply_message) with
      | None => Ok tt
      | Some reply_id =>
          match Dict.get reply_id s.(by_id) with
          | None => Raise (InvalidOwnedReply command)
          | Some reply =>
              match reply.(reply_to), reply.(sender) with
              | Some request, Some by_ =>
                  if decide ((request, by_) ≠ key) then Raise (CommandRepliedElsewhere command)
                  else Ok tt
              | _, _ => Raise (InvalidOwnedReply command)
              end
          end
      end;
  match Dict.get command s.(ack_commands) with
  | Some owner => if decide (owner ≠ key) then Raise (CommandAcknowledgedElsewhere command) else Ok key
  | None => Ok key
  end.
Definition _claim_acknowledgement (id : Digest) (actor command now : string) : C ChannelAck :=
  let* s := get in
  let* key := lift (_ack_key s id actor command) in
  match Dict.get key s.(ack_by_key) with
  | Some stored =>
      if decide (Dict.get command s.(ack_commands) ≠ Some key)
      then raise (AcknowledgedByAnother id actor) else eret stored
  | None =>
      let a := mkAck id actor now in
      _append_ack key a command;;; eret a
  end.

(** ** The public methods *)
Section methods.
Context (cfg : channel_config).

Definition append_request (i : ChannelSendIntent) (attestation now : string) : C ChannelMessage :=
  if decide (i.(in_channel) ≠ cfg.(own_channel_id)) then raise (WrongChannel i.(in_channel)) else
  let* s := get in
  lift (_validate_history s);;;
  match Dict.get i.(in_message_id) s.(by_id) with
  | Some stored =>
      let* stored := lift (_complete_request s stored) in
      let* expected := lift (message_for_intent i stored.(envelope).(created_at)) in
      if negb (same_message stored expected)
         || bool_decide (Dict.get i.(in_message_id) s.(attestations) ≠ Some attestation)
      then raise (StoredDifferently i.(in_message_id)) else eret stored
  | None =>
      let* m := lift (message_for_intent i now) in
      _append m;;;
      record_request m.(message_id) attestation i;;;
      eret m
  end.

Definition message (id : Digest) : C (option ChannelMessage) :=
  let* s := get in
  lift (_validate_history s);;;
  match Dict.get id s.(by_id) with
  | None => eret None
  | Some stored => let* m := lift (_complete_message s stored) in eret (Some m)
  end.

Definition reply_for (request_id : Digest) : C (option ChannelMessage) :=
  let* s := get in
  lift (_validate_history s);;;
  match Dict.get request_id s.(by_id) with
  | None => eret None
  | Some request =>
      let* request := lift (_complete_request s request) in
      match request.(msg_reply_port) with
      | None => raise (NoReplyPort request_id)
      | Some port =>
          match Dict.get (reply_message_id request.(message_id) port) s.(by_id) with
          | None => eret None
          | Some stored => let* m := lift (_complete_reply s request stored) in eret (Some m)
          end
      end
  end.

(** The reply when one is stored already: an exact retry of its command, or a
    conflict. *)
Definition reply_again (s : chan) (request stored : ChannelMessage) (reply_id : Digest)
    (actor : string) (p : pyval) (command : string) : C ChannelMessage :=
  let* complete := lift (_complete_reply s request stored) in
  if decide (Dict.get reply_id s.(reply_command) ≠ Some command)
  then raise (AnsweredByAnother request.(message_id)) else
  let* candidate := lift (message_for_reply request actor p stored.(envelope).(created_at)) in
  if negb (same_message stored candidate) then raise (DifferentReply request.(message_id))
  else eret complete.
(** The first reply: it acknowledges its request for its actor. *)
Definition reply_first (s : chan) (request : ChannelMessage) (actor : string) (p : pyval)
    (command now : string) : C ChannelMessage :=
  let ack_key := (request.(message_id), actor) in
  if Dict.mem ack_key s.(ack_by_key)
     && bool_decide (Dict.get command s.(ack_commands) = Some ack_key)
  then raise (AckWithoutReply command) else
  let* key := lift (_ack_key s request.(message_id) actor command) in
  let* reply := lift (message_for_reply request actor p now) in
  let* proof := lift (channel_reply_proof request reply) in
  let acked := Dict.mem key s.(ack_by_key) in
  _append reply;;;
  record_reply reply.(message_id) command proof;;;
  ewhen (negb acked) (_append_ack key (mkAck request.(message_id) actor now) command);;;
  eret reply.
Definition reply (request_id : Digest) (actor : string) (p : pyval) (command now : string) :
    C ChannelMessage :=
  let* s := get in
  lift (_validate_history s);;;
  let* request := lift (match Dict.get request_id s.(by_id) with
                        | None => Raise (NoRequestToReply request_id)
                        | Some request => _complete_request s request
                        end) in
  match request.(msg_kind), request.(msg_reply_port), request.(msg_reply_contract) with
  | KRequest, Some port, Some contract =>
      if decide (request.(msg_interaction) ∉ REPLY_CONSUMES) then raise ApprovalNeedsApproval else
      match canonical_exchange_fault request.(msg_contract) contract request.(msg_interaction) with
      | Some why => raise (IncoherentExchange why)
      | None =>
          let reply_id := reply_message_id request.(message_id) port in
          let owned_reply := Dict.get command s.(reply_message) in
          if decide (owned_reply ≠ None ∧ owned_reply ≠ Some reply_id)
          then raise (CommandRepliedElsewhere command) else
          match Dict.get reply_id s.(by_id) with
          | Some stored => reply_again s request stored reply_id actor p command
          | None => reply_first s request actor p command now
          end
      end
  | _, _, _ => raise (NoRequestToReply request_id)
  end.

Definition acknowledge (id : Digest) (actor command now : string) : C ChannelAck :=
  let* s := get in
  lift (_validate_history s);;;
  lift (match Dict.get id s.(by_id) with
        | Some request =>
            if decide (request.(msg_kind) = KRequest) then
              request ← _complete_request s request;
              match request.(msg_reply_port) with
              | None => Raise (NoReplyPort id)
              | Some port =>
                  match Dict.get (reply_message_id request.(message_id) port) s.(by_id) with
                  | None => Ok tt
                  | Some stored => _ ← _complete_reply s request stored; Ok tt
                  end
              end
            else Ok tt
        | None => Ok tt
        end);;;
  _claim_acknowledgement id actor command now.

Definition latest_revision : C ChannelRevision :=
  let* s := get in
  lift (_validate_history s);;;
  eret (mkRevision (length s.(messages)) (length s.(acks))).

(** The page loop; [after] is the last delivery's position and id. *)
Definition past (after : option (nat * string)) (seq_ : nat) (id : Digest) : bool :=
  match after with
  | None => false
  | Some (n, i) => (seq_ <? n) || ((seq_ =? n) && String.leb id i)
  end.
Fixpoint page_loop (s : chan) (actor : string) (acked : list ack_key)
    (after : option (nat * string)) (room : nat) (seq_ : nat) (ms : list ChannelMessage) :
    result channel_error (list ChannelDelivery) :=
  match ms with
  | [] => Ok []
  | m :: ms =>
      m ← _complete_message s m;
      if negb (discoverable_by m actor) || past after seq_ m.(message_id)
      then page_loop s actor acked after room (S seq_) ms
      else
        let d := mkDelivery seq_ m (bool_decide ((m.(message_id), actor) ∈ acked)) in
        match room with
        | O | S O => Ok [d]
        | S room => rest ← page_loop s actor acked after room (S seq_) ms; Ok (d :: rest)
        end
  end.
Definition inbox (actor : string) (revision : ChannelRevision) (after : option (nat * string))
    (limit : Z) : C (list ChannelDelivery) :=
  if decide (limit ≤ 0)%Z then raise LimitNotPositive else
  if decide (Zpos cfg.(own_max_batch) < limit)%Z then raise LimitTooLarge else
  let* s := get in
  lift (_validate_history s);;;
  if (length s.(messages) <? revision.(message_seq)) || (length s.(acks) <? revision.(ack_seq))
  then raise FutureRevision else
  (* a validated history has the position of every acknowledged message *)
  let cut := take revision.(ack_seq) s.(acks) in
  if existsb (λ a, revision.(message_seq) <? Dict.get_or a.(ack_message) O s.(seq_by_id)) cut
  then raise IncoherentRevision else
  lift (page_loop s actor (ack_key_of <$> cut) after (Z.to_nat limit) 1
          (take revision.(message_seq) s.(messages))).
End methods.
