(* ===== verification/ChannelSpec.v ===== *)
(** What the in-process channel promises: its history is append-only and never
    damaged, a request gets at most one reply, a reply acknowledges its request,
    retries are idempotent, and an inbox cut is stable. *)

From S2P Require Import Prelude Identity Address Capability Message InProcess.

(** ** Lists *)
Lemma remove_dups_NoDup {A} `{EqDecision A} (l : list A) : NoDup l → remove_dups l = l.
Proof.
  induction 1 as [|x l Hx _ IH]; [done|]. simpl. case_decide; [done|]. by rewrite IH.
Qed.
Lemma filter_fmap_ext {A B} (f : A → B) (P : B → Prop) (Q : A → Prop)
    `{∀ b, Decision (P b), ∀ a, Decision (Q a)} (l : list A) :
  (∀ x, x ∈ l → P (f x) ↔ Q x) → filter P (f <$> l) = f <$> filter Q l.
Proof.
  induction l as [|x l IH]; intros H1; [done|]. rewrite fmap_cons, !filter_cons.
  assert (P (f x) ↔ Q x) as Hx by (apply H1; left).
  rewrite IH by (intros y Hy; apply H1; by right).
  destruct (decide (P (f x))), (decide (Q x)); try done; exfalso; tauto.
Qed.
Lemma get_fmap {A K} `{EqDecision K} (key : A → K) (l : list A) k a :
  NoDup (key <$> l) →
  Dict.get k ((λ a, (key a, a)) <$> l) = Some a ↔ a ∈ l ∧ key a = k.
Proof.
  intros Hnd. set (d := (λ a, (key a, a)) <$> l).
  assert (Dict.keys d = key <$> l) as Hk
    by (unfold d, Dict.keys; rewrite <-list_fmap_compose; done).
  split.
  - intros (a' & [= -> ->] & Ha)%Dict.get_elem%list_elem_of_fmap. done.
  - intros [Ha <-]. apply Dict.get_NoDup; [by rewrite Hk|].
    apply list_elem_of_fmap. by exists a.
Qed.
Lemma same_set_true {A} `{EqDecision A} (l k : list A) :
  (∀ x, x ∈ l ↔ x ∈ k) → same_set l k = true.
Proof.
  intros H. unfold same_set. rewrite andb_true_iff, !bool_decide_eq_true, !Forall_forall.
  split; intros x Hx; by apply H.
Qed.
Lemma mem_true {K V} `{EqDecision K} k (d : list (K * V)) : Dict.mem k d = true ↔ k ∈ Dict.keys d.
Proof. unfold Dict.mem. by rewrite bool_decide_eq_true, Dict.get_is_Some. Qed.

(** ** The invariant *)
Definition reply_mids (s : chan) : list Digest :=
  message_id <$> filter (λ m, m.(msg_kind) = KReply) s.(messages).
Definition proof_of (request : ChannelMessage) (actor port : string) (j : json) : ChannelReplyProof :=
  mkProof request.(msg_channel) request.(message_id) request.(msg_interaction) actor
    (reply_message_id request.(message_id) port) port j request.(envelope).(env_run).

(** A retained request is what its own intent becomes. *)
Definition request_complete (s : chan) (m : ChannelMessage) : Prop :=
  ∃ i j t, Dict.get m.(message_id) s.(intent_by_message) = Some i ∧
    i.(in_message_id) = derived_id i ∧ json_value i.(in_payload) = Ok j ∧ m = request_of i j t.
(** A retained reply answers a retained request, which its sender may answer
    and has acknowledged, and its payload has a proof. *)
Definition reply_complete (s : chan) (m : ChannelMessage) : Prop :=
  ∃ request actor contract port j t,
    request ∈ s.(messages) ∧ admits request actor contract port ∧ wire j ∧
    m = reply_of request actor contract port j t ∧
    (request.(message_id), actor) ∈ ack_key_of <$> s.(acks) ∧
    Dict.get m.(message_id) s.(reply_proofs) = Some (proof_of request actor port j).

(** The acknowledgement a reply implies. *)
Definition key_of_reply (m : ChannelMessage) : option ack_key :=
  match m.(reply_to), m.(sender) with
  | Some request, Some actor => Some (request, actor)
  | _, _ => None
  end.
Record inv (s : chan) : Prop := {
  v_ids : NoDup (message_id <$> s.(messages));
  v_by_id : s.(by_id) = (λ m, (m.(message_id), m)) <$> s.(messages);
  v_seq : s.(seq_by_id) = imap (λ i m, (m.(message_id), S i)) s.(messages);
  v_att : Dict.keys s.(attestations) = request_ids s;
  v_int : Dict.keys s.(intent_by_message) = request_ids s;
  v_rc : Dict.keys s.(reply_command) = reply_mids s;
  v_rp : Dict.keys s.(reply_proofs) = reply_mids s;
  v_rm : s.(reply_message) = (λ p, (p.2, p.1)) <$> s.(reply_command);
  v_rm_nodup : NoDup (Dict.keys s.(reply_message));
  v_acks : NoDup (ack_key_of <$> s.(acks));
  v_abk : s.(ack_by_key) = (λ a, (ack_key_of a, a)) <$> s.(acks);
  v_ac : Dict.values s.(ack_commands) = ack_key_of <$> s.(acks);
  v_ac_nodup : NoDup (Dict.keys s.(ack_commands));
  v_ack_known : ∀ a, a ∈ s.(acks) → a.(ack_message) ∈ message_id <$> s.(messages);
  v_request : ∀ m, m ∈ s.(messages) → m.(msg_kind) = KRequest → request_complete s m;
  v_reply : ∀ m, m ∈ s.(messages) → m.(msg_kind) = KReply → reply_complete s m;
  v_cmd : ∀ c m key, m ∈ s.(messages) → Dict.get c s.(reply_message) = Some m.(message_id) →
    Dict.get c s.(ack_commands) = Some key → key_of_reply m = Some key;
}.

Section facts.
Context (s : chan) (Hinv : inv s).

Lemma by_id_get id m : Dict.get id s.(by_id) = Some m ↔ m ∈ s.(messages) ∧ m.(message_id) = id.
Proof. rewrite (v_by_id _ Hinv). apply get_fmap, (v_ids _ Hinv). Qed.
Lemma by_id_keys : Dict.keys s.(by_id) = message_id <$> s.(messages).
Proof. rewrite (v_by_id _ Hinv). unfold Dict.keys. by rewrite <-list_fmap_compose. Qed.
Lemma abk_keys : Dict.keys s.(ack_by_key) = ack_key_of <$> s.(acks).
Proof. rewrite (v_abk _ Hinv). unfold Dict.keys. by rewrite <-list_fmap_compose. Qed.
Lemma abk_get key a : Dict.get key s.(ack_by_key) = Some a ↔ a ∈ s.(acks) ∧ ack_key_of a = key.
Proof. rewrite (v_abk _ Hinv). apply get_fmap, (v_acks _ Hinv). Qed.
Lemma same_message_of_id m n :
  m ∈ s.(messages) → n ∈ s.(messages) → m.(message_id) = n.(message_id) → m = n.
Proof.
  intros Hm Hn Heq.
  assert (Dict.get n.(message_id) s.(by_id) = Some m) as H1 by (by apply by_id_get).
  assert (Dict.get n.(message_id) s.(by_id) = Some n) as H2 by (by apply by_id_get).
  congruence.
Qed.
Lemma elem_of_request_ids id :
  id ∈ request_ids s ↔ ∃ m, m ∈ s.(messages) ∧ m.(msg_kind) = KRequest ∧ m.(message_id) = id.
Proof.
  unfold request_ids. rewrite list_elem_of_fmap. setoid_rewrite list_elem_of_filter. naive_solver.
Qed.
Lemma reply_ids_eq : reply_ids s = reply_mids s.
Proof.
  unfold reply_ids, reply_mids.
  rewrite (filter_fmap_ext message_id _ (λ m, m.(msg_kind) = KReply)).
  - apply remove_dups_NoDup. eapply sublist_NoDup; [apply (v_ids _ Hinv)|].
    apply fmap_sublist, sublist_filter.
  - intros m Hm. rewrite elem_of_request_ids. split.
    + intros Hn. destruct (msg_kind m) eqn:E; [|done]. destruct Hn. by exists m.
    + intros Hk (n & Hn & Hkn & Heq). assert (n = m) as -> by by apply same_message_of_id.
      congruence.
Qed.

(** *** Every retained message completes *)
Lemma complete_request_inv m :
  m ∈ s.(messages) → m.(msg_kind) = KRequest → _complete_request s m = Ok m.
Proof.
  intros Hm Hk. destruct (v_request _ Hinv m Hm Hk) as (i & j & t & Hi & Hd & Hj & Heq).
  unfold _complete_request. rewrite decide_False by (intros H; by apply H). rewrite Hi.
  assert (message_for_intent i (created_at (envelope m)) = Ok m) as ->.
  { apply message_for_intent_iff. split; [done|]. exists j. split; [done|]. by rewrite Heq. }
  cbn [mbind result_bind]. by rewrite same_message_refl.
Qed.
Lemma reply_proof_built request actor contract port j t :
  admits request actor contract port → wire j →
  channel_reply_proof request (reply_of request actor contract port j t)
  = Ok (proof_of request actor port j).
Proof.
  intros Hadm Hw. unfold channel_reply_proof.
  rewrite (validated_reply_built _ _ _ _ _ _ Hadm Hw). cbn [mbind result_bind].
  destruct Hadm as (_ & _ & -> & _). cbn [sender reply_of envelope payload].
  by rewrite own_payload_embed.
Qed.
Lemma complete_reply_inv m request :
  m ∈ s.(messages) → m.(msg_kind) = KReply → request ∈ s.(messages) →
  m.(reply_to) = Some request.(message_id) → _complete_reply s request m = Ok m.
Proof.
  intros Hm Hk Hr Hto.
  destruct (v_reply _ Hinv m Hm Hk) as (r & actor & c & po & j & t & Hr' & Hadm & Hw & Heq & Hack & Hp).
  assert (r = request) as ->.
  { apply same_message_of_id; [done..|]. rewrite Heq in Hto. by injection Hto. }
  unfold _complete_reply. rewrite complete_request_inv by (done || apply Hadm).
  cbn [mbind result_bind]. rewrite Heq, (validated_reply_built _ _ _ _ _ _ Hadm Hw).
  cbn [mbind result_bind]. cbn [sender reply_of].
  assert (Dict.mem (message_id request, actor) (ack_by_key s) = true) as ->
    by (by rewrite mem_true, abk_keys).
  cbn [negb]. rewrite Heq in Hp. rewrite Hp. unfold validated_channel_reply_proof.
  rewrite (reply_proof_built _ _ _ _ _ _ Hadm Hw). cbn [mbind result_bind].
  by rewrite decide_False by (intros H; by apply H).
Qed.
Lemma complete_message_inv m : m ∈ s.(messages) → _complete_message s m = Ok m.
Proof.
  intros Hm. unfold _complete_message. destruct (msg_kind m) eqn:Hk; [by apply complete_request_inv|].
  destruct (v_reply _ Hinv m Hm Hk) as (r & actor & c & po & j & t & Hr & Hadm & Hw & Heq & _).
  assert (reply_to m = Some (message_id r)) as Hto by (by rewrite Heq).
  rewrite Hto. assert (Dict.get (message_id r) (by_id s) = Some r) as -> by (by apply by_id_get).
  by apply complete_reply_inv.
Qed.
End facts.

Lemma owned_reply_known s command owned :
  inv s → Dict.get command s.(reply_message) = Some owned → owned ∈ reply_mids s.
Proof.
  intros H Hg%Dict.get_elem. rewrite <-(v_rc _ H). rewrite (v_rm _ H) in Hg.
  apply list_elem_of_fmap in Hg as ([i c] & [= -> ->] & Hin).
  unfold Dict.keys. apply list_elem_of_fmap. by exists (i, c).
Qed.
Lemma reply_mids_messages s id : id ∈ reply_mids s → id ∈ message_id <$> s.(messages).
Proof.
  unfold reply_mids. intros (n & -> & [_ Hn]%list_elem_of_filter)%list_elem_of_fmap.
  by apply list_elem_of_fmap_2.
Qed.

(** ** A valid history *)
Lemma keys_imap (l : list ChannelMessage) :
  Dict.keys (imap (λ i m, (m.(message_id), S i)) l) = message_id <$> l.
Proof.
  unfold Dict.keys. rewrite fmap_imap. unfold compose. simpl.
  induction l as [|m l IH] using rev_ind; [done|].
  rewrite imap_app, fmap_app. simpl. by rewrite IH.
Qed.
Lemma elem_of_zip_seq {A} n (l : list A) i x :
  (i, x) ∈ zip (seq n (length l)) l → ∃ k, i = (n + k)%nat ∧ l !! k = Some x.
Proof.
  revert n. induction l as [|y l IH]; intros n; simpl; [by intros ?%elem_of_nil|].
  intros [[= -> ->]|(k & -> & Hk)%IH]%elem_of_cons.
  - exists O. split; [lia|done].
  - exists (S k). split; [lia|done].
Qed.
Lemma messages_ok_inv s : inv s → messages_ok s = true.
Proof.
  intros H. unfold messages_ok. rewrite !andb_true_iff. split_and!.
  - apply bool_decide_eq_true. by rewrite remove_dups_NoDup by apply H.
  - apply same_set_true. intros x. by rewrite (by_id_keys s H).
  - apply same_set_true. intros x. by rewrite (v_seq _ H), keys_imap.
  - apply forallb_elem. intros [i m] (k & -> & Hk)%elem_of_zip_seq. simpl.
    rewrite andb_true_iff, !bool_decide_eq_true. split.
    + apply (by_id_get s H). split; [by eapply list_elem_of_lookup_2|done].
    + rewrite (v_seq _ H). apply Dict.get_NoDup; [rewrite keys_imap; apply H|].
      apply list_elem_of_lookup. exists k. by rewrite list_lookup_imap, Hk.
Qed.
Lemma replies_ok_inv s : inv s → replies_ok s = true.
Proof.
  intros H. unfold replies_ok. rewrite (reply_ids_eq s H), !andb_true_iff.
  assert (Dict.values (reply_message s) = Dict.keys (reply_command s)) as Hv.
  { rewrite (v_rm _ H). unfold Dict.values, Dict.keys. by rewrite <-list_fmap_compose. }
  split_and!.
  - apply same_set_true. intros x. by rewrite (v_rc _ H).
  - apply same_set_true. intros x. by rewrite (v_rp _ H).
  - apply same_set_true. intros x. by rewrite Hv, (v_rc _ H).
  - apply bool_decide_eq_true. rewrite <-(v_rc _ H), (v_rm _ H). unfold Dict.keys.
    by rewrite !length_fmap.
  - apply forallb_elem. intros [id c] Hin. simpl. apply bool_decide_eq_true, Dict.get_NoDup;
      [apply H|]. rewrite (v_rm _ H). apply list_elem_of_fmap. by exists (id, c).
Qed.
Lemma acks_ok_inv s : inv s → acks_ok s = true.
Proof.
  intros H. unfold acks_ok. rewrite !andb_true_iff. split_and!.
  - apply bool_decide_eq_true. by rewrite remove_dups_NoDup by apply H.
  - apply same_set_true. intros x. by rewrite (abk_keys s H).
  - apply same_set_true. intros x. by rewrite (v_ac _ H).
  - apply bool_decide_eq_true. rewrite <-(v_ac _ H). unfold Dict.values. by rewrite length_fmap.
  - apply forallb_elem. intros a Ha. rewrite andb_true_iff, bool_decide_eq_true, mem_true. split.
    + by apply (abk_get s H).
    + rewrite (by_id_keys s H). by apply (v_ack_known _ H).
Qed.
Lemma validate_inv s : inv s → _validate_history s = Ok tt.
Proof.
  intros H. unfold _validate_history. rewrite (messages_ok_inv s H), (replies_ok_inv s H), (acks_ok_inv s H).
  assert (requests_ok s = true) as ->; [|done].
  unfold requests_ok. rewrite andb_true_iff. split; apply same_set_true; intros x;
    by rewrite ?(v_att _ H), ?(v_int _ H).
Qed.

(** ** The three growths of history *)
Definition with_request (s : chan) (m : ChannelMessage) (attestation : string)
    (i : ChannelSendIntent) : chan :=
  mkChan (s.(messages) ++ [m]) s.(acks) (s.(by_id) ++ [(m.(message_id), m)])
    (s.(seq_by_id) ++ [(m.(message_id), S (length s.(messages)))])
    (s.(attestations) ++ [(m.(message_id), attestation)])
    (s.(intent_by_message) ++ [(m.(message_id), i)]) s.(ack_by_key) s.(ack_commands)
    s.(reply_command) s.(reply_message) s.(reply_proofs).
Definition with_reply (s : chan) (m : ChannelMessage) (command : string) (p : ChannelReplyProof) : chan :=
  mkChan (s.(messages) ++ [m]) s.(acks) (s.(by_id) ++ [(m.(message_id), m)])
    (s.(seq_by_id) ++ [(m.(message_id), S (length s.(messages)))]) s.(attestations)
    s.(intent_by_message) s.(ack_by_key) s.(ack_commands)
    (s.(reply_command) ++ [(m.(message_id), command)])
    (s.(reply_message) ++ [(command, m.(message_id))])
    (s.(reply_proofs) ++ [(m.(message_id), p)]).
Definition with_ack (s : chan) (a : ChannelAck) (command : string) : chan :=
  mkChan s.(messages) (s.(acks) ++ [a]) s.(by_id) s.(seq_by_id) s.(attestations)
    s.(intent_by_message) (s.(ack_by_key) ++ [(ack_key_of a, a)])
    (s.(ack_commands) ++ [(command, ack_key_of a)]) s.(reply_command) s.(reply_message)
    s.(reply_proofs).

Lemma get_app_inv {K V} `{EqDecision K} k k' (v v' : V) (d : list (K * V)) :
  Dict.get k (d ++ [(k', v')]) = Some v → Dict.get k d = Some v ∨ k = k' ∧ v = v'.
Proof.
  induction d as [|[k1 v1] d IH]; simpl.
  - case_decide; [|done]. intros [= ->]. by right.
  - case_decide; [by left|apply IH].
Qed.
Lemma get_app_fresh {K V} `{EqDecision K} k (v : V) (d : list (K * V)) :
  k ∉ Dict.keys d → Dict.get k (d ++ [(k, v)]) = Some v.
Proof. intros H. rewrite <-Dict.set_fresh by done. apply Dict.get_set_eq. Qed.
Lemma request_complete_mono s s' m :
  (∀ i, Dict.get m.(message_id) s.(intent_by_message) = Some i →
        Dict.get m.(message_id) s'.(intent_by_message) = Some i) →
  request_complete s m → request_complete s' m.
Proof. intros H (i & j & t & Hi & ?). exists i, j, t. split; [by apply H|done]. Qed.
Lemma reply_complete_mono s s' m :
  s.(messages) ⊆ s'.(messages) → s.(acks) ⊆ s'.(acks) →
  (∀ p, Dict.get m.(message_id) s.(reply_proofs) = Some p →
        Dict.get m.(message_id) s'.(reply_proofs) = Some p) →
  reply_complete s m → reply_complete s' m.
Proof.
  intros H1 H2 H3 (r & a & c & po & j & t & Hr & ? & ? & ? & (k & Hkey & Hk)%list_elem_of_fmap & Hp).
  exists r, a, c, po, j, t. split_and!; auto. rewrite Hkey. apply list_elem_of_fmap. exists k. auto.
Qed.
Lemma fresh_snoc {A B} (f : A → B) l x : NoDup (f <$> l) → f x ∉ f <$> l → NoDup (f <$> (l ++ [x])).
Proof.
  intros Hl Hx. rewrite fmap_app. apply NoDup_app. split; [done|]. split; [|apply NoDup_singleton].
  intros y Hy ->%list_elem_of_singleton. done.
Qed.
Lemma imap_snoc (l : list ChannelMessage) m :
  imap (λ i m, (m.(message_id), S i)) (l ++ [m])
  = imap (λ i m, (m.(message_id), S i)) l ++ [(m.(message_id), S (length l))].
Proof. rewrite imap_app. simpl. by rewrite Nat.add_0_r. Qed.
Lemma kind_filter_snoc k l m :
  message_id <$> filter (λ m, m.(msg_kind) = k) (l ++ [m])
  = (message_id <$> filter (λ m, m.(msg_kind) = k) l)
    ++ (if decide (m.(msg_kind) = k) then [m.(message_id)] else []).
Proof. rewrite filter_app, fmap_app, filter_cons, filter_nil. by case_decide. Qed.

Lemma inv_request s m attestation i j t :
  inv s → m.(message_id) ∉ message_id <$> s.(messages) →
  i.(in_message_id) = derived_id i → json_value i.(in_payload) = Ok j → m = request_of i j t →
  inv (with_request s m attestation i).
Proof.
  intros H Hn Hd Hj Hm. assert (msg_kind m = KRequest) as Hk by (by rewrite Hm).
  assert (∀ id, id ∈ request_ids s → id ≠ m.(message_id)) as Hne.
  { intros id (n & Hin & _ & Hid)%elem_of_request_ids ->. apply Hn. rewrite <-Hid.
    by apply list_elem_of_fmap_2. }
  split; simpl; try apply H.
  - apply fresh_snoc; [apply H|done].
  - by rewrite fmap_app, (v_by_id _ H).
  - by rewrite imap_snoc, (v_seq _ H).
  - unfold Dict.keys, request_ids. simpl. rewrite fmap_app, kind_filter_snoc, decide_True by done.
    fold (request_ids s). by rewrite <-(v_att _ H).
  - unfold Dict.keys, request_ids. simpl. rewrite fmap_app, kind_filter_snoc, decide_True by done.
    fold (request_ids s). by rewrite <-(v_int _ H).
  - unfold reply_mids. simpl. rewrite kind_filter_snoc, decide_False by congruence.
    rewrite app_nil_r. fold (reply_mids s). apply H.
  - unfold reply_mids. simpl. rewrite kind_filter_snoc, decide_False by congruence.
    rewrite app_nil_r. fold (reply_mids s). apply H.
  - intros a Ha. rewrite fmap_app, elem_of_app. left. by apply (v_ack_known _ H).
  - intros n [Hin| ->%list_elem_of_singleton]%elem_of_app Hkn.
    + eapply request_complete_mono; [|by apply (v_request _ H)]. intros i'. apply Dict.get_app_l.
    + exists i, j, t. split_and!; try done. simpl. apply get_app_fresh.
      rewrite (v_int _ H). intros Hin. by apply (Hne _ Hin).
  - intros n [Hin| ->%list_elem_of_singleton]%elem_of_app Hkn; [|congruence].
    eapply reply_complete_mono; [..|by apply (v_reply _ H)]; simpl; [set_solver|done|done].
  - intros c n key [Hin| ->%list_elem_of_singleton]%elem_of_app Hc; [by apply (v_cmd _ H)|].
    by apply (owned_reply_known _ _ _ H), reply_mids_messages in Hc.
Qed.
Lemma inv_ack s a command :
  inv s → ack_key_of a ∉ ack_key_of <$> s.(acks) → command ∉ Dict.keys s.(ack_commands) →
  a.(ack_message) ∈ message_id <$> s.(messages) →
  (∀ m, m ∈ s.(messages) → Dict.get command s.(reply_message) = Some m.(message_id) →
        key_of_reply m = Some (ack_key_of a)) →
  inv (with_ack s a command).
Proof.
  intros H Hn Hc Hm Hown. split; simpl; try apply H.
  - apply fresh_snoc; [apply H|done].
  - by rewrite fmap_app, (v_abk _ H).
  - unfold Dict.values. rewrite !fmap_app. by rewrite <-(v_ac _ H).
  - apply (fresh_snoc fst); [apply (v_ac_nodup _ H)|done].
  - intros b [Hb| ->%list_elem_of_singleton]%elem_of_app; [by apply (v_ack_known _ H)|done].
  - intros m Hin Hk. eapply reply_complete_mono; [..|by apply (v_reply _ H)]; simpl;
      [done|set_solver|done].
  - intros c m key Hin Hr [Ha|[-> ->]]%get_app_inv; [by eapply (v_cmd _ H)|by apply Hown].
Qed.
Lemma inv_reply s request actor contract port j t command :
  let m := reply_of request actor contract port j t in
  inv s → m.(message_id) ∉ message_id <$> s.(messages) →
  command ∉ Dict.keys s.(reply_message) → request ∈ s.(messages) →
  admits request actor contract port → wire j →
  (request.(message_id), actor) ∈ ack_key_of <$> s.(acks) →
  (∀ key, Dict.get command s.(ack_commands) = Some key → key = (request.(message_id), actor)) →
  inv (with_reply s m command (proof_of request actor port j)).
Proof.
  intros m H Hn Hc Hr Hadm Hw Hack Hown. assert (msg_kind m = KReply) as Hk by done.
  assert (∀ id, id ∈ reply_mids s → id ≠ m.(message_id)) as Hne.
  { unfold reply_mids. intros id (n & -> & [_ Hin]%list_elem_of_filter)%list_elem_of_fmap Heq.
    apply Hn. rewrite <-Heq. by apply list_elem_of_fmap_2. }
  split; simpl; try apply H.
  - apply fresh_snoc; [apply H|done].
  - by rewrite fmap_app, (v_by_id _ H).
  - by rewrite imap_snoc, (v_seq _ H).
  - unfold request_ids. simpl. rewrite kind_filter_snoc, decide_False by congruence.
    rewrite app_nil_r. fold (request_ids s). apply H.
  - unfold request_ids. simpl. rewrite kind_filter_snoc, decide_False by congruence.
    rewrite app_nil_r. fold (request_ids s). apply H.
  - unfold Dict.keys, reply_mids. simpl. rewrite fmap_app, kind_filter_snoc, decide_True by done.
    fold (reply_mids s). by rewrite <-(v_rc _ H).
  - unfold Dict.keys, reply_mids. simpl. rewrite fmap_app, kind_filter_snoc, decide_True by done.
    fold (reply_mids s). by rewrite <-(v_rp _ H).
  - by rewrite fmap_app, (v_rm _ H).
  - apply (fresh_snoc fst); [apply (v_rm_nodup _ H)|done].
  - intros a Ha. rewrite fmap_app, elem_of_app. left. by apply (v_ack_known _ H).
  - intros n [Hin| ->%list_elem_of_singleton]%elem_of_app Hkn; [|congruence].
    eapply request_complete_mono; [|by apply (v_request _ H)]. done.
  - intros n [Hin| ->%list_elem_of_singleton]%elem_of_app Hkn.
    + eapply reply_complete_mono; [..|by apply (v_reply _ H)]; simpl; [set_solver|done|].
      intros p. apply Dict.get_app_l.
    + exists request, actor, contract, port, j, t. split; [apply elem_of_app; by left|].
      do 4 (split; [done|]). apply get_app_fresh. rewrite (v_rp _ H).
      intros Hin. by apply (Hne _ Hin).
  - intros c n key Hin Hg Hk'. apply get_app_inv in Hg as [Hg|[-> Hid]].
    + apply elem_of_app in Hin as [Hin| ->%list_elem_of_singleton]; [by eapply (v_cmd _ H)|].
      by apply (owned_reply_known _ _ _ H), Hne in Hg.
    + apply Hown in Hk' as ->. apply elem_of_app in Hin as [Hin| ->%list_elem_of_singleton]; [|done].
      destruct Hn. apply (list_elem_of_fmap_2 message_id) in Hin. by rewrite Hid in Hin.
Qed.
Lemma with_reply_ack s m c p a c' :
  with_reply (with_ack s a c') m c p = with_ack (with_reply s m c p) a c'.
Proof. done. Qed.
Lemma inv_new : inv new_channel.
Proof.
  split; try constructor; try done; simpl; try (by intros ? ?%elem_of_nil).
Qed.

(** ** The methods, on a valid history *)
Lemma set_fresh_messages s m :
  inv s → m.(message_id) ∉ message_id <$> s.(messages) →
  Dict.set m.(message_id) m s.(by_id) = s.(by_id) ++ [(m.(message_id), m)] ∧
  ∀ n, Dict.set m.(message_id) n s.(seq_by_id) = s.(seq_by_id) ++ [(m.(message_id), n)].
Proof.
  intros H Hn. split; [|intros n]; apply Dict.set_fresh.
  - by rewrite (by_id_keys s H).
  - by rewrite (v_seq _ H), keys_imap.
Qed.
Lemma run_append_request s m attestation i :
  inv s → m.(message_id) ∉ message_id <$> s.(messages) →
  (_append m;;; record_request m.(message_id) attestation i;;; eret m) s
  = (Ok m, with_request s m attestation i).
Proof.
  intros H Hn. destruct (set_fresh_messages s m H Hn) as [H1 H2].
  assert (m.(message_id) ∉ request_ids s) as Hr.
  { intros (n & Hin & _ & Hid)%elem_of_request_ids. apply Hn. rewrite <-Hid.
    by apply list_elem_of_fmap_2. }
  unfold ebind, _append, record_request, modify, eret, with_request. simpl.
  rewrite H1, H2, length_app, Nat.add_1_r. do 2 f_equal; apply Dict.set_fresh;
    by rewrite ?(v_att _ H), ?(v_int _ H).
Qed.
Lemma run_append_reply s m command p key a acked :
  inv s → m.(message_id) ∉ message_id <$> s.(messages) →
  m.(message_id) ∉ reply_mids s →
  command ∉ Dict.keys s.(reply_message) → key = ack_key_of a →
  (acked = false → (key ∉ ack_key_of <$> s.(acks)) ∧ (command ∉ Dict.keys s.(ack_commands))) →
  (_append m;;; record_reply m.(message_id) command p;;;
   ewhen (negb acked) (_append_ack key a command);;; eret m) s
  = (Ok m, with_reply (if acked then s else with_ack s a command) m command p).
Proof.
  intros H Hn Hr Hc -> Ha. destruct (set_fresh_messages s m H Hn) as [H1 H2].
  unfold ebind, _append, record_reply, modify, eret, ewhen. simpl.
  rewrite H1, H2, length_app, Nat.add_1_r.
  rewrite !Dict.set_fresh by (by rewrite ?(v_rc _ H), ?(v_rp _ H)).
  destruct acked; [done|]. destruct (Ha eq_refl) as [Hk Hc'].
  simpl. unfold _append_ack, modify. simpl.
  rewrite !Dict.set_fresh by (by rewrite ?(abk_keys s H)). done.
Qed.

Lemma ebind_Ok {S E A B} (m : eff S E A) (f : A → eff S E B) s a s' :
  m s = (Ok a, s') → ebind m f s = f a s'.
Proof. unfold ebind. by intros ->. Qed.
Lemma ebind_Raise {S E A B} (m : eff S E A) (f : A → eff S E B) s e s' :
  m s = (Raise e, s') → ebind m f s = (Raise e, s').
Proof. unfold ebind. by intros ->. Qed.
Lemma ebind_lift {S E A B} (r : result E A) (f : A → eff S E B) s :
  ebind (lift r) f s = match r with Ok a => f a s | Raise e => (Raise e, s) end.
Proof. by destruct r. Qed.
Lemma ebind_get {S E B} (f : S → eff S E B) s : ebind get f s = f s s.
Proof. done. Qed.
Ltac runs := repeat first [rewrite ebind_lift | rewrite ebind_get].
Ltac opens H :=
  runs; rewrite (validate_inv _ H).

Section outcomes.
Context (cfg : channel_config) (s : chan) (H : inv s).

(** A method returns in the state it was called in, or appends. *)
Lemma append_request_outcome i att now r s' :
  append_request cfg i att now s = (r, s') →
  s' = s ∨ ∃ m j, r = Ok m ∧ (m.(message_id) ∉ message_id <$> s.(messages)) ∧
    i.(in_message_id) = derived_id i ∧ json_value i.(in_payload) = Ok j ∧
    m = request_of i j now ∧ s' = with_request s m att i.
Proof.
  unfold append_request. case_decide; [intros [= <- <-]; by left|]. opens H.
  destruct (Dict.get _ _) as [stored|] eqn:Eg.
  - runs. destruct (_complete_request _ _); [|intros [= <- <-]; by left].
    runs. destruct (message_for_intent _ _); [|intros [= <- <-]; by left].
    destruct (_ || _); intros [= <- <-]; by left.
  - runs. destruct (message_for_intent i now) as [m|] eqn:Em;
      [|intros [= <- <-]; by left].
    apply message_for_intent_iff in Em as (Hd & j & Hj & ->).
    apply Dict.get_None in Eg. rewrite (by_id_keys s H) in Eg.
    rewrite run_append_request by done. intros [= <- <-]. right. by exists (request_of i j now), j.
Qed.

Lemma ack_key_ok id actor command key :
  _ack_key s id actor command = Ok key →
  key = (id, actor) ∧ id ∈ message_id <$> s.(messages) ∧
  (Dict.get command s.(ack_commands) = None ∨ Dict.get command s.(ack_commands) = Some key) ∧
  (∀ m, m ∈ s.(messages) → Dict.get command s.(reply_message) = Some m.(message_id) →
        key_of_reply m = Some key).
Proof.
  unfold _ack_key. destruct (Dict.mem id (by_id s)) eqn:Em; [|done]. simpl.
  rewrite result_bind_ok. intros ([] & Hown & Hk).
  apply mem_true in Em. rewrite (by_id_keys s H) in Em.
  assert (∀ m, m ∈ messages s → Dict.get command (reply_message s) = Some (message_id m) →
            key_of_reply m = Some (id, actor)) as Hm.
  { intros m Hin Hr. rewrite Hr in Hown.
    assert (Dict.get (message_id m) (by_id s) = Some m) as Hg by (by apply (by_id_get s H)).
    rewrite Hg in Hown. unfold key_of_reply.
    destruct (reply_to m) as [r|]; [|done]. destruct (sender m) as [a|]; [|done].
    case_decide; [done|]. congruence. }
  destruct (Dict.get command (ack_commands s)) as [owner|].
  - case_decide; [done|]. injection Hk as <-. split_and!; try done. right. congruence.
  - injection Hk as <-. split_and!; try done. by left.
Qed.
(** A command that owns an acknowledgement owns a recorded one. *)
Lemma ack_commands_known command key :
  Dict.get command s.(ack_commands) = Some key → key ∈ ack_key_of <$> s.(acks).
Proof.
  intros Hg%Dict.get_elem. rewrite <-(v_ac _ H). unfold Dict.values.
  apply list_elem_of_fmap. by exists (command, key).
Qed.
Lemma fresh_command command key :
  key ∉ ack_key_of <$> s.(acks) →
  Dict.get command s.(ack_commands) = None ∨ Dict.get command s.(ack_commands) = Some key →
  command ∉ Dict.keys s.(ack_commands).
Proof.
  intros Hn [Hg|Hg]; [by apply Dict.get_None|]. by apply ack_commands_known in Hg.
Qed.

Lemma ack_claim_outcome id actor command now r s' :
  _claim_acknowledgement id actor command now s = (r, s') →
  s' = s ∨ (r = Ok (mkAck id actor now) ∧ s' = with_ack s (mkAck id actor now) command ∧
            inv (with_ack s (mkAck id actor now) command)).
Proof.
  unfold _claim_acknowledgement. runs.
  destruct (_ack_key _ _ _ _) as [key|] eqn:Ek; [|intros [= <- <-]; by left].
  apply ack_key_ok in Ek as (-> & Hid & Hc & Hown).
  destruct (Dict.get (id, actor) (ack_by_key s)) as [stored|] eqn:Eg.
  - case_decide; intros [= <- <-]; by left.
  - apply Dict.get_None in Eg. rewrite (abk_keys s H) in Eg.
    pose proof (fresh_command _ _ Eg Hc) as Hf.
    unfold ebind, _append_ack, modify, eret. simpl.
    rewrite !Dict.set_fresh by (by rewrite ?(abk_keys s H)).
    intros [= <- <-]. right. split; [done|]. split; [done|]. by apply inv_ack.
Qed.
Lemma acknowledge_outcome id actor command now r s' :
  acknowledge id actor command now s = (r, s') →
  s' = s ∨ (r = Ok (mkAck id actor now) ∧ s' = with_ack s (mkAck id actor now) command ∧
            inv (with_ack s (mkAck id actor now) command)).
Proof.
  unfold acknowledge. opens H. runs.
  match goal with |- match ?x with _ => _ end = _ → _ => destruct x end;
    [apply ack_claim_outcome|intros [= <- <-]; by left].
Qed.
(** What a first reply appends: the reply and its proof, and the request's
    acknowledgement when its actor has none. *)
Record replied (id : Digest) (actor : string) (p : pyval) (command now : string)
    (request m : ChannelMessage) (s' : chan) : Prop := {
  rd_request : request ∈ s.(messages) ∧ request.(message_id) = id;
  rd_fresh : m.(message_id) ∉ message_id <$> s.(messages);
  rd_command : command ∉ Dict.keys s.(reply_message);
  rd_owner : ∀ key, Dict.get command s.(ack_commands) = Some key → key = (id, actor);
  rd_reply : ∃ contract port j, admits request actor contract port ∧ json_value p = Ok j ∧
    m = reply_of request actor contract port j now ∧
    let acked := Dict.mem (id, actor) s.(ack_by_key) in
    (acked = false → command ∉ Dict.keys s.(ack_commands)) ∧
    s' = with_reply (if acked then s else with_ack s (mkAck id actor now) command) m command
           (proof_of request actor port j);
}.

Lemma reply_first_outcome request actor p command now r s' :
  request ∈ s.(messages) →
  (∀ port, request.(msg_reply_port) = Some port →
     reply_message_id request.(message_id) port ∉ message_id <$> s.(messages)) →
  (command ∉ Dict.keys s.(reply_message)) →
  reply_first s request actor p command now s = (r, s') →
  (s' = s ∧ ∃ e, r = Raise e) ∨ ∃ m, r = Ok m ∧ replied request.(message_id) actor p command now request m s'.
Proof.
  intros Hin Hfresh Hcmd. unfold reply_first. cbv zeta.
  destruct (_ && _); [intros [= <- <-]; left; eauto|]. runs.
  destruct (_ack_key _ _ _ _) as [key|] eqn:Ek; [|intros [= <- <-]; left; eauto].
  apply ack_key_ok in Ek as (-> & Hid & Hc & _). runs.
  destruct (message_for_reply request actor p now) as [m|] eqn:Em; [|intros [= <- <-]; left; eauto].
  apply message_for_reply_iff in Em as (contract & port & j & Hadm & Hj & ->).
  assert (wire j) as Hw by (by apply (json_value_wire p)).
  runs. rewrite (reply_proof_built _ _ _ _ _ _ Hadm Hw).
  assert (reply_message_id (message_id request) port ∉ message_id <$> messages s) as Hn
    by (apply Hfresh, Hadm).
  set (acked := Dict.mem _ _).
  assert (acked = false → (message_id request, actor) ∉ ack_key_of <$> acks s) as Hk.
  { unfold acked. intros Hf%not_true_iff_false. by rewrite mem_true, (abk_keys s H) in Hf. }
  assert (acked = false → command ∉ Dict.keys (ack_commands s)) as Hac
    by (intros Hf; eapply fresh_command; eauto).
  rewrite (run_append_reply _ _ _ _ (message_id request, actor)
    (mkAck (message_id request) actor now) acked); [|done|done| |done|done|by split; auto].
  - intros [= <- <-]. right. eexists. split; [done|]. split; [done|done|done|..].
    { intros key Hkey. destruct Hc; congruence. }
    exists contract, port, j. split_and!; try done; apply Hadm.
  - unfold reply_mids. intros (n & Hid' & [_ Hn']%list_elem_of_filter)%list_elem_of_fmap.
    apply Hn. change (reply_message_id _ _) with (message_id (reply_of request actor contract port j now)).
    rewrite Hid'. by apply list_elem_of_fmap_2.
Qed.
Lemma reply_again_state request stored reply_id actor p command r s' :
  reply_again s request stored reply_id actor p command s = (r, s') → s' = s.
Proof.
  unfold reply_again. runs.
  destruct (_complete_reply _ _ _); [|by intros [= <- <-]].
  case_decide; [by intros [= <- <-]|]. runs.
  destruct (message_for_reply _ _ _ _); [|by intros [= <- <-]].
  destruct (negb _); by intros [= <- <-].
Qed.
Lemma reply_outcome id actor p command now r s' :
  reply id actor p command now s = (r, s') →
  s' = s ∨ ∃ request m, r = Ok m ∧ replied id actor p command now request m s'.
Proof.
  unfold reply. opens H. runs.
  destruct (Dict.get id (by_id s)) as [request|] eqn:Eg; [|intros [= <- <-]; by left].
  apply (by_id_get s H) in Eg as [Hin <-].
  destruct (_complete_request s request) as [q|] eqn:Ec; [|intros [= <- <-]; by left].
  assert (q = request) as ->.
  { revert Ec. unfold _complete_request. case_decide; [done|].
    destruct (Dict.get _ _); [|done]. rewrite result_bind_ok. intros (e & _ & He).
    destruct (negb _); [done|]. by injection He. }
  destruct (msg_kind request) eqn:Ekind; [|intros [= <- <-]; by left].
  destruct (msg_reply_port request) as [port|] eqn:Ep; [|intros [= <- <-]; by left].
  destruct (msg_reply_contract request) as [contract|] eqn:Ect; [|intros [= <- <-]; by left].
  case_decide; [intros [= <- <-]; by left|].
  destruct (canonical_exchange_fault _ _ _); [intros [= <- <-]; by left|]. cbv zeta.
  case_decide as Hown; [intros [= <- <-]; by left|].
  destruct (Dict.get (reply_message_id _ _) (by_id s)) as [stored|] eqn:Es.
  - intros Hr. left. by eapply reply_again_state.
  - intros Hr. apply Dict.get_None in Es. rewrite (by_id_keys s H) in Es.
    apply reply_first_outcome in Hr as [[? _]|(m & -> & Hm)]; [by left|right; by exists request, m|done| |].
    + intros port'. rewrite Ep. by intros [= <-].
    + apply Dict.get_None. destruct (Dict.get command (reply_message s)) as [owned|] eqn:Eo; [|done].
      exfalso. apply (owned_reply_known _ _ _ H), reply_mids_messages in Eo as Hko. apply Hown. split; [done|].
      intros [= ->]. done.
Qed.
Lemma inv_replied id actor p command now request m s' :
  replied id actor p command now request m s' → inv s'.
Proof.
  intros [[Hin <-] Hn Hc Ho (contract & port & j & Hadm & Hj & -> & Hac & ->)]. cbv zeta in *.
  assert (wire j) as Hw by (by apply (json_value_wire p)).
  assert (message_id request ∈ message_id <$> messages s) as Hid by (by apply list_elem_of_fmap_2).
  destruct (Dict.mem _ _) eqn:Em.
  - apply inv_reply; try done. by rewrite <-(abk_keys s H), <-mem_true.
  - apply inv_reply; try done; simpl.
    + apply inv_ack; try done; [|by apply Hac|].
      * change (ack_key_of _) with (message_id request, actor).
        by rewrite <-(abk_keys s H), <-mem_true, Em.
      * intros m _ Hg. apply Dict.get_None in Hc. congruence.
    + rewrite fmap_app, elem_of_app. right. by left.
    + intros key [Hk|[_ ->]]%get_app_inv; [by apply Ho|done].
Qed.
End outcomes.
