(* ===== verification/ChannelRuns.v ===== *)
(** Runs of the in-process channel: any sequence of calls on one instance, the
    abstract log the instance refines, and what holds in every run: sound
    append-only history, one authorised reply per request, exactly-once retries,
    and pages of a fixed cut. *)

From S2P Require Import Prelude Identity Address Capability Message InProcess ChannelSpec.

(** ** Calls *)
Inductive call :=
| CAppend (i : ChannelSendIntent) (attestation now : string)
| CReply (request_id : Digest) (actor : string) (p : pyval) (command now : string)
| CAck (id : Digest) (actor command now : string)
| CMessage (id : Digest)
| CReplyFor (request_id : Digest)
| CLatest
| CInbox (actor : string) (revision : ChannelRevision) (after : option (nat * string)) (limit : Z).
Inductive answer :=
| AMessage (m : ChannelMessage)
| AAck (a : ChannelAck)
| AMaybe (o : option ChannelMessage)
| ARevision (r : ChannelRevision)
| APage (ds : list ChannelDelivery).
Definition reads (c : call) : bool :=
  match c with CAppend _ _ _ | CReply _ _ _ _ _ | CAck _ _ _ _ => false | _ => true end.
(** The same call, made again at another time. *)
Definition at_time (t : string) (c : call) : call :=
  match c with
  | CAppend i att _ => CAppend i att t
  | CReply id actor p command _ => CReply id actor p command t
  | CAck id actor command _ => CAck id actor command t
  | c => c
  end.

Section runs.
Context (cfg : channel_config).

Definition run_call (c : call) : C answer :=
  match c with
  | CAppend i att now => let* m := append_request cfg i att now in eret (AMessage m)
  | CReply id actor p command now => let* m := reply id actor p command now in eret (AMessage m)
  | CAck id actor command now => let* a := acknowledge id actor command now in eret (AAck a)
  | CMessage id => let* o := message id in eret (AMaybe o)
  | CReplyFor id => let* o := reply_for id in eret (AMaybe o)
  | CLatest => let* r := latest_revision in eret (ARevision r)
  | CInbox actor rev after limit => let* ds := inbox cfg actor rev after limit in eret (APage ds)
  end.
Definition run_calls (cs : list call) (s : chan) : chan := foldl (λ s c, (run_call c s).2) s cs.
Definition history (cs : list call) : chan := run_calls cs new_channel.
End runs.

Lemma run_calls_app cfg cs ds s : run_calls cfg (cs ++ ds) s = run_calls cfg ds (run_calls cfg cs s).
Proof. apply foldl_app. Qed.
Lemma run_ret {A} (m : C A) (f : A → answer) s r s' :
  (let* a := m in eret (f a)) s = (r, s') →
  (∃ a, r = Ok (f a) ∧ m s = (Ok a, s')) ∨ ∃ e, r = Raise e ∧ m s = (Raise e, s').
Proof.
  unfold ebind, eret. destruct (m s) as [[a|e] s1]; intros [= <- <-]; eauto.
Qed.

(** ** One call, on a sound history *)
Inductive growth (s : chan) : chan → Prop :=
| grow_none : growth s s
| grow_request m att i j now :
    (m.(message_id) ∉ message_id <$> s.(messages)) →
    i.(in_message_id) = derived_id i → json_value i.(in_payload) = Ok j → m = request_of i j now →
    growth s (with_request s m att i)
| grow_ack a command :
    inv (with_ack s a command) → growth s (with_ack s a command)
| grow_reply id actor p command now request m s' :
    replied s id actor p command now request m s' → growth s s'.

Definition pure {A} (m : C A) : Prop := ∀ s r s', m s = (r, s') → s' = s.
Lemma pure_lift {A} (r : result channel_error A) : pure (lift r).
Proof. by intros s r' s' [= _ <-]. Qed.
Lemma pure_raise {A} e : pure (@raise chan channel_error A e).
Proof. by intros s r' s' [= _ <-]. Qed.
Lemma pure_ret {A} (a : A) : pure (eret a).
Proof. by intros s r' s' [= _ <-]. Qed.
Lemma pure_get : pure get.
Proof. by intros s r' s' [= _ <-]. Qed.
Lemma pure_bind {A B} (m : C A) (f : A → C B) : pure m → (∀ a, pure (f a)) → pure (ebind m f).
Proof.
  intros Hm Hf s r s'. unfold ebind. destruct (m s) as [[a|e] s1] eqn:E; apply Hm in E as ->.
  - apply Hf.
  - by intros [= _ <-].
Qed.
Create HintDb pure.
#[export] Hint Resolve pure_lift pure_raise pure_ret pure_get pure_bind : pure.
Ltac pure_tac := repeat first
  [ progress intros
  | apply pure_bind | apply pure_lift | apply pure_raise | apply pure_ret | apply pure_get
  | match goal with |- pure (match ?x with _ => _ end) => destruct x end ].
Lemma reads_pure cfg c : reads c = true → pure (run_call cfg c).
Proof.
  destruct c; try done; intros _; unfold run_call, message, reply_for, latest_revision, inbox;
    pure_tac.
Qed.

Section step.
Context (cfg : channel_config) (s : chan) (H : inv s).

(** A call leaves the history as it was, or succeeds and appends to it. *)
Lemma run_call_outcome c r s' :
  run_call cfg c s = (r, s') → s' = s ∨ (∃ v, r = Ok v) ∧ growth s s'.
Proof.
  intros E. destruct (reads c) eqn:Er; [apply (reads_pure cfg c Er) in E as ->; by left|].
  destruct c; try done; unfold run_call in E; apply run_ret in E as [(v & -> & E)|(e & -> & E)].
  - apply (append_request_outcome _ _ H) in E as [->|(m & j & _ & ? & ? & ? & ? & ->)]; [by left|].
    right. split; [by eexists|]. econstructor; eauto.
  - apply (append_request_outcome _ _ H) in E as [->|(m & j & ? & _)]; [by left|done].
  - apply (reply_outcome _ H) in E as [->|(q & m & _ & ?)]; [by left|].
    right. split; [by eexists|]. econstructor; eauto.
  - apply (reply_outcome _ H) in E as [->|(q & m & ? & _)]; [by left|done].
  - apply (acknowledge_outcome _ H) in E as [->|(_ & -> & ?)]; [by left|].
    right. split; [by eexists|]. by econstructor.
  - apply (acknowledge_outcome _ H) in E as [->|(? & _)]; [by left|done].
Qed.
Lemma run_call_growth c : growth s (run_call cfg c s).2.
Proof.
  destruct (run_call cfg c s) as [r s'] eqn:E. simpl.
  apply run_call_outcome in E as [->|[_ ?]]; [constructor|done].
Qed.
Lemma growth_inv s' : growth s s' → inv s'.
Proof.
  destruct 1; [done| |done|].
  - by eapply inv_request.
  - by eapply inv_replied.
Qed.
End step.

Lemma run_calls_inv cfg cs s : inv s → inv (run_calls cfg cs s).
Proof.
  revert s. induction cs as [|c cs IH]; intros s H; [done|]. apply IH.
  by eapply growth_inv, run_call_growth.
Qed.
Lemma history_inv cfg cs : inv (history cfg cs).
Proof. apply run_calls_inv, inv_new. Qed.

(** ** Growth is by appending, in every field *)
Record extends (s s' : chan) : Prop := {
  e_messages : s.(messages) `prefix_of` s'.(messages);
  e_acks : s.(acks) `prefix_of` s'.(acks);
  e_by_id : s.(by_id) `prefix_of` s'.(by_id);
  e_seq : s.(seq_by_id) `prefix_of` s'.(seq_by_id);
  e_att : s.(attestations) `prefix_of` s'.(attestations);
  e_int : s.(intent_by_message) `prefix_of` s'.(intent_by_message);
  e_abk : s.(ack_by_key) `prefix_of` s'.(ack_by_key);
  e_ac : s.(ack_commands) `prefix_of` s'.(ack_commands);
  e_rc : s.(reply_command) `prefix_of` s'.(reply_command);
  e_rm : s.(reply_message) `prefix_of` s'.(reply_message);
  e_rp : s.(reply_proofs) `prefix_of` s'.(reply_proofs);
}.
#[export] Instance extends_preorder : PreOrder extends.
Proof.
  split.
  - intros s. by split.
  - intros s1 s2 s3 [] []. split; by etrans.
Qed.
Lemma get_prefix {K V} `{EqDecision K} k (v : V) (d e : list (K * V)) :
  d `prefix_of` e → Dict.get k d = Some v → Dict.get k e = Some v.
Proof. intros [x ->]. apply Dict.get_app_l. Qed.
Lemma elem_prefix {A} (x : A) l k : l `prefix_of` k → x ∈ l → x ∈ k.
Proof. intros [y ->] Hx. apply elem_of_app. by left. Qed.
Lemma growth_extends s s' : growth s s' → extends s s'.
Proof.
  destruct 1 as [|m att i j now _ _ _ _|a command _|id actor p command now q m s' Hr]; [done| | |].
  1,2: split; simpl; (done || apply prefix_app_r; done).
  destruct Hr as [_ _ _ _ (contract & port & j & _ & _ & -> & _ & ->)]. cbv zeta.
  destruct (Dict.mem _ _); split; simpl; (done || apply prefix_app_r; done).
Qed.
Lemma run_calls_extends cfg cs s : inv s → extends s (run_calls cfg cs s).
Proof.
  revert s. induction cs as [|c cs IH]; intros s H; [done|].
  pose proof (run_call_growth cfg s H c) as Hg. etrans; [by apply growth_extends|].
  apply IH. by eapply growth_inv.
Qed.

(** ** Retries *)

(** A request this very send stored. *)
Record append_done (cfg : channel_config) (s : chan) (i : ChannelSendIntent) (att : string)
    (m : ChannelMessage) : Prop := {
  ad_channel : i.(in_channel) = cfg.(own_channel_id);
  ad_stored : Dict.get i.(in_message_id) s.(by_id) = Some m;
  ad_kind : m.(msg_kind) = KRequest;
  ad_att : Dict.get i.(in_message_id) s.(attestations) = Some att;
  ad_same : ∃ e, message_for_intent i m.(envelope).(created_at) = Ok e ∧ same_message m e = true;
}.
(** A reply this very command stored. *)
Record reply_done (s : chan) (id : Digest) (actor : string) (p : pyval) (command : string)
    (m : ChannelMessage) : Prop := {
  rp_request : ∃ request port contract,
    Dict.get id s.(by_id) = Some request ∧ request.(msg_kind) = KRequest ∧
    request.(msg_reply_port) = Some port ∧ request.(msg_reply_contract) = Some contract ∧
    request.(msg_interaction) ∈ REPLY_CONSUMES ∧
    canonical_exchange_fault request.(msg_contract) contract request.(msg_interaction) = None ∧
    Dict.get (reply_message_id id port) s.(by_id) = Some m ∧
    Dict.get (reply_message_id id port) s.(reply_command) = Some command ∧
    m.(msg_kind) = KReply ∧ m.(reply_to) = Some id ∧
    ∃ e, message_for_reply request actor p m.(envelope).(created_at) = Ok e ∧
      same_message m e = true;
}.
(** An acknowledgement this very command recorded. *)
Record ack_done (s : chan) (id : Digest) (actor command : string) (a : ChannelAck) : Prop := {
  kd_stored : Dict.get (id, actor) s.(ack_by_key) = Some a;
  kd_command : Dict.get command s.(ack_commands) = Some (id, actor);
}.
(** The place of a request's reply is taken by a message that does not answer it. *)
Definition slot_clash (s : chan) (id : Digest) : Prop :=
  ∃ request port stored, Dict.get id s.(by_id) = Some request ∧
    request.(msg_reply_port) = Some port ∧
    Dict.get (reply_message_id id port) s.(by_id) = Some stored ∧
    (stored.(msg_kind), stored.(reply_to)) ≠ (KReply, Some id).

Lemma append_done_mono cfg s s' i att m :
  extends s s' → append_done cfg s i att m → append_done cfg s' i att m.
Proof.
  intros He [? ? ? ? ?]. split; try done; (eapply get_prefix; [apply He|done]).
Qed.
Lemma reply_done_mono s s' id actor p command m :
  extends s s' → reply_done s id actor p command m → reply_done s' id actor p command m.
Proof.
  intros He [(q & po & c & ? & ? & ? & ? & ? & ? & ? & ? & ? & ? & ?)]. split. exists q, po, c.
  split_and!; try done; (eapply get_prefix; [apply He|done]).
Qed.
Lemma ack_done_mono s s' id actor command a :
  extends s s' → ack_done s id actor command a → ack_done s' id actor command a.
Proof. intros He [? ?]. split; (eapply get_prefix; [apply He|done]). Qed.

Section retries.
Context (cfg : channel_config) (s : chan) (H : inv s).

Lemma by_id_own id m : Dict.get id s.(by_id) = Some m → m ∈ s.(messages) ∧ m.(message_id) = id.
Proof. apply (by_id_get s H). Qed.
Lemma complete_request_kind q m : _complete_request s q = Ok m → q = m ∧ m.(msg_kind) = KRequest.
Proof.
  unfold _complete_request. case_decide as Hk; [done|]. destruct (Dict.get _ _); [|done].
  rewrite result_bind_ok. intros (e & _ & He). revert He. destruct (negb _); [done|]. intros [= <-].
  by destruct (msg_kind q).
Qed.
Lemma complete_reply_kind q r m :
  _complete_reply s q r = Ok m →
  r = m ∧ m.(msg_kind) = KReply ∧ m.(reply_to) = Some q.(message_id).
Proof.
  unfold _complete_reply. rewrite result_bind_ok. intros (q' & [-> _]%complete_request_kind & Hv).
  revert Hv. rewrite result_bind_ok. intros (v & Hv & Hr).
  assert (v = r ∧ r.(msg_kind) = KReply ∧ r.(reply_to) = Some q'.(message_id)) as (-> & ? & ?).
  { revert Hv. unfold validated_reply. destruct (msg_kind r); [done|]. destruct (sender r); [|done].
    case_decide as Hto; [done|]. rewrite result_bind_ok. intros (e & _ & He).
    revert He. destruct (same_message r e); [|done]. intros He%Ok_inj. subst v. done. }
  assert (r = m) as ->; [|done].
  revert Hr. cbv zeta. destruct (negb _); [done|]. destruct (Dict.get _ _); [|done].
  rewrite result_bind_ok. by intros (? & _ & He%Ok_inj).
Qed.

Lemma append_done_retry i att m t :
  append_done cfg s i att m → append_request cfg i att t s = (Ok m, s).
Proof.
  intros [Hch Hst Hk Ha (e & He & Hs)]. unfold append_request.
  rewrite decide_False by (intros Hn; by apply Hn). opens H. rewrite Hst. runs.
  apply by_id_own in Hst as [Hin Hid].
  rewrite (complete_request_inv s H) by done. runs. rewrite He, Hs.
  rewrite bool_decide_eq_false_2 by (by intros Hn). done.
Qed.
Lemma append_done_ok i att now m s' :
  append_request cfg i att now s = (Ok m, s') → append_done cfg s' i att m.
Proof.
  unfold append_request. case_decide as Hch; [done|]. opens H.
  destruct (Dict.get (in_message_id i) (by_id s)) as [stored|] eqn:Eg.
  - runs. destruct (_complete_request s stored) eqn:Ec; [|done].
    apply complete_request_kind in Ec as [-> Hk]. runs.
    destruct (message_for_intent _ _) as [e|] eqn:Ee; [|done].
    destruct (_ || _) eqn:Et; [done|]. intros [= <- <-].
    apply orb_false_iff in Et as [Hs%negb_false_iff Ha%bool_decide_eq_false].
    apply dec_stable in Ha. split; try done. by exists e.
  - runs. destruct (message_for_intent i now) as [m'|] eqn:Em; [|done].
    apply message_for_intent_iff in Em as (Hd & j & Hj & ->).
    apply Dict.get_None in Eg. rewrite (by_id_keys s H) in Eg.
    rewrite run_append_request by done. intros [= <- <-].
    assert (in_message_id i ∉ request_ids s) as Hr.
    { intros (n & Hin & _ & Hid)%elem_of_request_ids. apply Eg. rewrite <-Hid.
      by apply list_elem_of_fmap_2. }
    split; simpl; try done.
    + apply (get_app_fresh (in_message_id i)). by rewrite (by_id_keys s H).
    + apply (get_app_fresh (in_message_id i)). by rewrite (v_att s H).
    + exists (request_of i j now). split; [|apply same_message_refl].
      apply message_for_intent_iff. eauto.
Qed.

Lemma reply_done_retry id actor p command m t :
  reply_done s id actor p command m → reply id actor p command t s = (Ok m, s).
Proof.
  intros [(q & po & c & Hq & Hk & Hpo & Hc & Hi & Hx & Hm & Hcmd & Hmk & Hto & e & He & Hs)].
  unfold reply. opens H. rewrite Hq. apply by_id_own in Hq as [Hin <-].
  rewrite (complete_request_inv s H) by done. rewrite Hk, Hpo, Hc.
  rewrite decide_False by (by intros Hn). rewrite Hx. cbv zeta.
  assert (Dict.get command (reply_message s) = Some (reply_message_id (message_id q) po)) as Hown.
  { apply Dict.get_NoDup; [apply (v_rm_nodup s H)|]. rewrite (v_rm s H).
    apply list_elem_of_fmap. exists (reply_message_id (message_id q) po, command).
    split; [done|]. by apply Dict.get_elem. }
  rewrite decide_False by (rewrite Hown; by intros [_ Hn]). rewrite Hm.
  unfold reply_again. runs. apply by_id_own in Hm as [Hmin Hid].
  rewrite (complete_reply_inv s H) by done.
  rewrite decide_False by (intros Hn; by apply Hn). runs. by rewrite He, Hs.
Qed.

Lemma reply_opened id actor p command now m s' :
  reply id actor p command now s = (Ok m, s') →
  ∃ q po c, Dict.get id s.(by_id) = Some q ∧ q.(msg_kind) = KRequest ∧
    q.(msg_reply_port) = Some po ∧ q.(msg_reply_contract) = Some c ∧
    q.(msg_interaction) ∈ REPLY_CONSUMES ∧
    canonical_exchange_fault q.(msg_contract) c q.(msg_interaction) = None ∧
    (Dict.get command s.(reply_message) = None ∨
     Dict.get command s.(reply_message) = Some (reply_message_id id po)) ∧
    match Dict.get (reply_message_id id po) s.(by_id) with
    | Some stored => reply_again s q stored (reply_message_id id po) actor p command
    | None => reply_first s q actor p command now
    end s = (Ok m, s').
Proof.
  unfold reply. opens H. runs.
  destruct (Dict.get id (by_id s)) as [q'|] eqn:Eg; [|done].
  destruct (_complete_request s q') as [q|] eqn:Ec; [|done].
  apply complete_request_kind in Ec as [-> Hk]. pose proof (by_id_own _ _ Eg) as [_ Hid].
  rewrite Hk. destruct (msg_reply_port q) as [po|] eqn:Ep; [|done].
  destruct (msg_reply_contract q) as [c|] eqn:Ect; [|done].
  case_decide; [done|]. destruct (canonical_exchange_fault _ _ _) eqn:Ex; [done|]. cbv zeta.
  rewrite Hid. case_decide as Hown; [done|].
  intros Hr. exists q, po, c. split_and!; try done.
  destruct (Dict.get command (reply_message s)) as [o|]; [|by left]. right.
  destruct (decide (Some o = Some (reply_message_id id po))); [done|]. by destruct Hown.
Qed.
Lemma reply_again_done q stored rid actor p command m s' :
  reply_again s q stored rid actor p command s = (Ok m, s') →
  s' = s ∧ stored = m ∧ m.(msg_kind) = KReply ∧ m.(reply_to) = Some q.(message_id) ∧
  Dict.get rid s.(reply_command) = Some command ∧
  ∃ e, message_for_reply q actor p m.(envelope).(created_at) = Ok e ∧ same_message m e = true.
Proof.
  unfold reply_again. runs. destruct (_complete_reply s q stored) as [m'|] eqn:Ec; [|done].
  apply complete_reply_kind in Ec as (-> & ? & ?). case_decide as Hc; [done|]. runs.
  destruct (message_for_reply _ _ _ _) as [e|] eqn:Ee; [|done].
  destruct (same_message m' e) eqn:Es; [|done]. cbn [negb].
  intros [= <- <-]. split_and!; try done. by exists e.
Qed.
Lemma reply_done_ok id actor p command now m s' :
  reply id actor p command now s = (Ok m, s') → reply_done s' id actor p command m.
Proof.
  intros (q & po & c & Hq & Hk & Hpo & Hc & Hi & Hx & Hown & Hr)%reply_opened.
  pose proof (by_id_own _ _ Hq) as [Hin Hid].
  destruct (Dict.get (reply_message_id id po) (by_id s)) as [stored|] eqn:Es.
  - apply reply_again_done in Hr as (-> & -> & Hmk & Hto & Hcmd & e & He & Hs).
    split. exists q, po, c. rewrite Hid in Hto. split_and!; try done. by exists e.
  - apply Dict.get_None in Es. rewrite (by_id_keys s H) in Es. rewrite <-Hid in Es.
    apply (reply_first_outcome s H) in Hr as [[_ [? ?]]|(m' & Heq & Hrep)]; [done| |done| |].
    + apply Ok_inj in Heq as <-. rewrite Hid in Hrep.
      assert (extends s s') as Hext by (apply growth_extends; econstructor; exact Hrep).
      assert (inv s') as H' by (eapply inv_replied; eauto).
      destruct Hrep as [_ Hfresh _ _ (ct & port & j & Hadm & Hj & -> & _ & Hs')]. cbv zeta in Hs'.
      assert (port = po) as -> by (destruct Hadm as (_ & _ & ? & _); congruence).
      assert (reply_command s' = reply_command s
        ++ [(reply_message_id (message_id q) po, command)]) as Hrc
        by (rewrite Hs'; by destruct (Dict.mem _ _)).
      assert (messages s' = messages s ++ [reply_of q actor ct po j now]) as Hms
        by (rewrite Hs'; by destruct (Dict.mem _ _)).
      split. exists q, po, c. rewrite <-Hid in *. split_and!; try done.
      * eapply get_prefix; [apply Hext|done].
      * apply (by_id_get s' H'). split; [|done]. rewrite Hms, elem_of_app. right. by left.
      * rewrite Hrc. apply get_app_fresh. rewrite (v_rc s H).
        intros Hn%reply_mids_messages. done.
      * exists (reply_of q actor ct po j now). split; [|apply same_message_refl].
        apply message_for_reply_iff. by exists ct, po, j.
    + intros po'. rewrite Hpo. by intros [= <-].
    + apply Dict.get_None. destruct Hown as [?|Ho]; [done|].
      apply (owned_reply_known s _ _ H), reply_mids_messages in Ho. by rewrite <-Hid in Ho.
Qed.

Lemma ack_done_retry id actor command a t :
  ack_done s id actor command a →
  acknowledge id actor command t s = (Ok a, s) ∨ slot_clash s id.
Proof.
  intros [Hst Hcmd]. pose proof (proj1 (abk_get s H _ _) Hst) as [Ha Hkey].
  assert (id ∈ message_id <$> messages s) as Hid.
  { injection Hkey as <- _. by apply (v_ack_known s H). }
  assert (_ack_key s id actor command = Ok (id, actor)) as Hk.
  { unfold _ack_key. rewrite (proj2 (mem_true _ _)) by (by rewrite (by_id_keys s H)). cbn [negb].
    rewrite Hcmd. rewrite decide_False by (intros Hn; by apply Hn).
    destruct (Dict.get command (reply_message s)) as [rid|] eqn:Er; [|done].
    pose proof (owned_reply_known s _ _ H Er) as Hmid%reply_mids_messages.
    apply list_elem_of_fmap in Hmid as (m & -> & Hm).
    assert (Dict.get (message_id m) (by_id s) = Some m) as -> by (by apply (by_id_get s H)).
    pose proof (v_cmd s H _ _ _ Hm Er Hcmd) as Hkr. unfold key_of_reply in Hkr.
    destruct (reply_to m), (sender m); try done. injection Hkr as -> ->.
    by rewrite decide_False by (intros Hn; by apply Hn). }
  assert (_claim_acknowledgement id actor command t s = (Ok a, s)) as Hclaim.
  { unfold _claim_acknowledgement. runs. rewrite Hk, Hst, Hcmd.
    by rewrite decide_False by (intros Hn; by apply Hn). }
  unfold acknowledge. opens H. runs.
  apply list_elem_of_fmap in Hid as (m & -> & Hm).
  assert (Dict.get (message_id m) (by_id s) = Some m) as Hg by (by apply (by_id_get s H)).
  rewrite Hg. case_decide as Hkind; [|by left].
  rewrite (complete_request_inv s H) by done. cbn [mbind result_bind].
  destruct (v_request s H m Hm Hkind) as (i & j & t' & _ & _ & _ & Hreq).
  assert (msg_reply_port m = Some (in_reply_port i)) as Hpo by (by rewrite Hreq). rewrite Hpo.
  destruct (Dict.get (reply_message_id (message_id m) (in_reply_port i)) (by_id s))
    as [stored|] eqn:Es; [|by left].
  destruct (decide ((msg_kind stored, reply_to stored) = (KReply, Some (message_id m))))
    as [[= Hsk Hsto]|Hne].
  - left. apply by_id_own in Es as [Hsin _].
    by rewrite (complete_reply_inv s H).
  - right. by exists m, (in_reply_port i), stored.
Qed.
Lemma ack_done_ok id actor command now a s' :
  acknowledge id actor command now s = (Ok a, s') → ack_done s' id actor command a.
Proof.
  unfold acknowledge. opens H. runs.
  match goal with |- match ?x with _ => _ end = _ → _ => destruct x end; [|done].
  unfold _claim_acknowledgement. runs.
  destruct (_ack_key _ _ _ _) as [key|] eqn:Ek; [|done].
  apply (ack_key_ok s H) in Ek as (-> & _ & Hc & _).
  destruct (Dict.get (id, actor) (ack_by_key s)) as [stored|] eqn:Eg.
  - case_decide as Hd; [done|]. intros [= <- <-]. by split.
  - unfold ebind, _append_ack, modify, eret. intros [= <- <-].
    split; simpl; apply Dict.get_set_eq.
Qed.
End retries.

(** ** The log a channel promises, whatever its indices *)
Record log := mkLog { l_messages : list ChannelMessage; l_acks : list ChannelAck }.
Definition l_ids (l : log) : list Digest := message_id <$> l.(l_messages).
Definition l_keys (l : log) : list ack_key := ack_key_of <$> l.(l_acks).
Definition log_of (s : chan) : log := mkLog s.(messages) s.(acks).

Inductive log_step (l : log) : log → Prop :=
| log_request i j t :
    i.(in_message_id) = derived_id i → json_value i.(in_payload) = Ok j →
    (i.(in_message_id) ∉ l_ids l) →
    log_step l (mkLog (l.(l_messages) ++ [request_of i j t]) l.(l_acks))
| log_ack a :
    a.(ack_message) ∈ l_ids l → (ack_key_of a ∉ l_keys l) →
    log_step l (mkLog l.(l_messages) (l.(l_acks) ++ [a]))
| log_reply request m actor t :
    request ∈ l.(l_messages) → answers request m → m.(sender) = Some actor →
    (m.(message_id) ∉ l_ids l) →
    log_step l (mkLog (l.(l_messages) ++ [m])
      (l.(l_acks) ++ if decide ((request.(message_id), actor) ∈ l_keys l) then []
                     else [mkAck request.(message_id) actor t])).

Lemma reply_of_answers request actor contract port j t :
  admits request actor contract port → answers request (reply_of request actor contract port j t).
Proof. intros Hadm. by exists actor, contract, port. Qed.
Lemma growth_log s s' : inv s → growth s s' → log_of s' = log_of s ∨ log_step (log_of s) (log_of s').
Proof.
  intros H. destruct 1 as [|m att i j now Hn Hd Hj ->|a command H'|id actor p command now q m s' Hr].
  - by left.
  - right. by apply (log_request (log_of s)).
  - right. apply (log_ack (log_of s)).
    + apply (v_ack_known _ H'). simpl. apply elem_of_app. right. by left.
    + pose proof (v_acks _ H') as Hnd. simpl in Hnd. rewrite fmap_app in Hnd.
      apply NoDup_app in Hnd as (_ & Hnd & _). intros Hin. apply (Hnd _ Hin). by left.
  - destruct Hr as [[Hin <-] Hn _ _ (c & po & j & Hadm & _ & -> & _ & ->)]. right. cbv zeta.
    set (m := reply_of q actor c po j now).
    assert (Dict.mem (message_id q, actor) (ack_by_key s)
      = bool_decide ((message_id q, actor) ∈ l_keys (log_of s))) as ->.
    { unfold Dict.mem. apply bool_decide_ext. by rewrite Dict.get_is_Some, (abk_keys s H). }
    pose proof (log_reply (log_of s) q m actor now Hin (reply_of_answers _ _ _ _ _ _ Hadm) eq_refl Hn)
      as Hstep.
    revert Hstep. case_decide as Hk.
    + rewrite bool_decide_eq_true_2, app_nil_r by done. by intros ?.
    + rewrite bool_decide_eq_false_2 by done. by intros ?.
Qed.

(** ** Pages *)
Definition delivery (actor : string) (acked : list ack_key) (seq_ : nat) (m : ChannelMessage) :=
  mkDelivery seq_ m (bool_decide ((m.(message_id), actor) ∈ acked)).
(** Everything a reader at [rev] could be shown. *)
Definition cut_deliveries (s : chan) (actor : string) (rev : ChannelRevision) : list ChannelDelivery :=
  let acked := ack_key_of <$> take rev.(ack_seq) s.(acks) in
  imap (λ i m, delivery actor acked (S i) m) (take rev.(message_seq) s.(messages)).
Definition visible (actor : string) (after : option (nat * string)) (d : ChannelDelivery) : Prop :=
  discoverable_by d.(delivered) actor = true ∧
  past after d.(delivery_seq) d.(delivered).(message_id) = false.
#[export] Instance visible_dec actor after d : Decision (visible actor after d).
Proof. unfold visible. apply _. Defined.
(** A revision this history has been at or is at: its acknowledgements are of its messages. *)
Record revision_of (s : chan) (rev : ChannelRevision) : Prop := {
  ro_messages : rev.(message_seq) ≤ length s.(messages);
  ro_acks : rev.(ack_seq) ≤ length s.(acks);
  ro_coherent : ∀ a, a ∈ take rev.(ack_seq) s.(acks) →
    a.(ack_message) ∈ message_id <$> take rev.(message_seq) s.(messages);
}.

Lemma page_loop_eq s actor acked after room n ms :
  inv s → 1 ≤ room → ms ⊆ s.(messages) →
  page_loop s actor acked after room n ms
  = Ok (take room (filter (visible actor after) (imap (λ i m, delivery actor acked (n + i) m) ms))).
Proof.
  intros H. revert room n. induction ms as [|m ms IH]; intros room n Hroom Hsub.
  { simpl. by destruct room. }
  cbn [page_loop]. rewrite (complete_message_inv s H) by (apply Hsub; left). cbn [mbind result_bind].
  assert (ms ⊆ messages s) as Hsub' by (intros x Hx; apply Hsub; by right).
  assert (∀ room, 1 ≤ room → page_loop s actor acked after room (S n) ms
    = Ok (take room (filter (visible actor after) (imap (λ i m, delivery actor acked (n + S i) m) ms))))
    as IH'.
  { intros r Hr. rewrite IH by done. do 3 f_equal. apply imap_ext. intros i x _. simpl.
    by rewrite Nat.add_succ_r. }
  rewrite imap_cons, Nat.add_0_r, filter_cons. unfold compose.
  destruct (negb (discoverable_by m actor) || past after n (message_id m)) eqn:Ev.
  - rewrite decide_False; [by apply IH'|]. intros [Hd Hp]. simpl in *. by rewrite Hd, Hp in Ev.
  - rewrite decide_True.
    2: { apply orb_false_iff in Ev as [?%negb_false_iff ?]. by split. }
    destruct room as [|[|room]]; [lia|done|]. rewrite IH' by lia. done.
Qed.
