(* ===== verification/ChannelLaws.v ===== *)
(** The laws of every run of the in-process channel, from its construction on. *)

From S2P Require Import Prelude Identity Address Capability Message InProcess ChannelSpec ChannelRuns.

(** ** The inbox *)
Lemma seq_position s i m :
  inv s → s.(messages) !! i = Some m → Dict.get m.(message_id) s.(seq_by_id) = Some (S i).
Proof.
  intros H Hi. rewrite (v_seq _ H). apply Dict.get_NoDup; [rewrite keys_imap; apply H|].
  apply list_elem_of_lookup. exists i. by rewrite list_lookup_imap, Hi.
Qed.
Lemma position_in_take s n i m :
  inv s → s.(messages) !! i = Some m →
  m.(message_id) ∈ message_id <$> take n s.(messages) ↔ S i ≤ n.
Proof.
  intros H Hi. rewrite list_elem_of_fmap. split.
  - intros (m' & Hid & (k & Hk)%list_elem_of_lookup).
    apply lookup_take_Some in Hk as [Hk Hlt].
    assert (k = i) as ->; [|lia].
    eapply (NoDup_lookup (message_id <$> messages s)); [apply H|rewrite list_lookup_fmap, Hk; done|].
    rewrite list_lookup_fmap, Hi. simpl. by rewrite Hid.
  - intros Hle. exists m. split; [done|]. apply list_elem_of_lookup. exists i.
    by rewrite lookup_take_lt by lia.
Qed.
Lemma coherent_iff s (rev : ChannelRevision) :
  inv s →
  existsb (λ a, rev.(message_seq) <? Dict.get_or a.(ack_message) O s.(seq_by_id))
    (take rev.(ack_seq) s.(acks)) = false ↔
  ∀ a, a ∈ take rev.(ack_seq) s.(acks) →
    a.(ack_message) ∈ message_id <$> take rev.(message_seq) s.(messages).
Proof.
  intros H. rewrite <-not_true_iff_false, existsb_exists.
  assert (∀ a, a ∈ (take (ack_seq rev) (acks s)) →
    (message_seq rev <? Dict.get_or (ack_message a) 0 (seq_by_id s)) = false ↔
    ack_message a ∈ message_id <$> take (message_seq rev) (messages s)) as Ha.
  { intros a Hin.
    assert (a ∈ acks s) as Hacks by (eapply elem_prefix; [apply prefix_take|exact Hin]).
    apply (v_ack_known _ H) in Hacks as (m & Hid & (i & Hi)%list_elem_of_lookup)%list_elem_of_fmap.
    rewrite Hid, (position_in_take _ _ _ _ H Hi). unfold Dict.get_or.
    rewrite (seq_position _ _ _ H Hi). simpl. rewrite Nat.ltb_ge. done. }
  split.
  - intros Hn a Hin. apply Ha; [done|]. apply not_true_iff_false. intros Ht. apply Hn. exists a.
    by rewrite <-list_elem_of_In.
  - intros Hall (a & Hin%list_elem_of_In & Ht). pose proof (proj2 (Ha a Hin) (Hall a Hin)). congruence.
Qed.
Lemma inbox_iff cfg s actor rev after limit ds s' :
  inv s →
  inbox cfg actor rev after limit s = (Ok ds, s') ↔
  s' = s ∧ (0 < limit ≤ Zpos cfg.(own_max_batch))%Z ∧ revision_of s rev ∧
  ds = take (Z.to_nat limit) (filter (visible actor after) (cut_deliveries s actor rev)).
Proof.
  intros H. unfold inbox.
  case_decide as Hl; [split; [done|intros (_ & ? & _); lia]|].
  case_decide as Hb; [split; [done|intros (_ & ? & _); lia]|]. opens H.
  destruct (_ || _) eqn:Ef.
  { split; [done|]. intros (_ & _ & [] & _).
    apply orb_true_iff in Ef as [?%Nat.ltb_lt|?%Nat.ltb_lt]; lia. }
  apply orb_false_iff in Ef as [Hm%Nat.ltb_ge Ha%Nat.ltb_ge].
  destruct (existsb _ _) eqn:Ec.
  { split; [done|]. intros (_ & _ & [_ _ Hco] & _). pose proof (proj2 (coherent_iff _ rev H) Hco). congruence. }
  pose proof (proj1 (coherent_iff _ rev H) Ec) as Hco. cbv zeta. unfold lift.
  rewrite (page_loop_eq _ _ _ _ _ _ _ H).
  - unfold cut_deliveries. split.
    + intros Hr. injection Hr as <- <-. split_and!; try done; lia.
    + intros (-> & _ & _ & ->). done.
  - lia.
  - intros x Hx. eapply elem_prefix; [apply prefix_take|exact Hx].
Qed.

Lemma cut_stable s s' actor rev :
  extends s s' → revision_of s rev →
  revision_of s' rev ∧ cut_deliveries s' actor rev = cut_deliveries s actor rev.
Proof.
  intros He [Hm Ha Hc].
  assert (take rev.(message_seq) s'.(messages) = take rev.(message_seq) s.(messages)) as Hm'
    by (apply take_prefix; [apply He|done]).
  assert (take rev.(ack_seq) s'.(acks) = take rev.(ack_seq) s.(acks)) as Ha'
    by (apply take_prefix; [apply He|done]).
  split; [|unfold cut_deliveries; by rewrite Hm', Ha'].
  split; rewrite ?Hm', ?Ha'; [| |done].
  - etrans; [done|]. apply prefix_length, He.
  - etrans; [done|]. apply prefix_length, He.
Qed.

(** A list of deliveries in increasing position, cut where a cursor points. *)
Lemma delivery_seqs s actor rev i d :
  cut_deliveries s actor rev !! i = Some d → d.(delivery_seq) = S i.
Proof.
  unfold cut_deliveries. rewrite list_lookup_imap. destruct (_ !! i); [|done]. by intros [= <-].
Qed.
Lemma seqs_sorted s actor rev : StronglySorted (λ d e, delivery_seq d < delivery_seq e) (cut_deliveries s actor rev).
Proof.
  unfold cut_deliveries. set (acked := ack_key_of <$> _). generalize (take (message_seq rev) (messages s)).
  intros ms. change (λ i m, delivery actor acked (S i) m) with (λ i m, delivery actor acked (1 + i) m).
  generalize 1 as n. induction ms as [|m ms IH]; intros n; [constructor|].
  rewrite imap_cons. constructor.
  - unfold compose. erewrite (imap_ext _ (λ i m, delivery actor acked (S n + i) m)); [apply IH|].
    intros i x _. simpl. by rewrite Nat.add_succ_r.
  - apply Forall_forall. intros d (i & Hd)%list_elem_of_lookup.
    rewrite list_lookup_imap in Hd. destruct (ms !! i); [|done]. injection Hd as <-. simpl. lia.
Qed.
Lemma filter_sorted {A} (R : A → A → Prop) (P : A → Prop) `{∀ x, Decision (P x)} l :
  StronglySorted R l → StronglySorted R (filter P l).
Proof.
  induction 1 as [|x l Hl IH Hx]; [constructor|]. rewrite filter_cons. case_decide; [|done].
  constructor; [done|]. rewrite Forall_forall in *. intros y [_ Hy]%list_elem_of_filter. auto.
Qed.
Lemma after_cursor actor d ds1 ds2 :
  StronglySorted (λ d e, delivery_seq d < delivery_seq e) (ds1 ++ d :: ds2) →
  Forall (λ d, discoverable_by d.(delivered) actor = true) (ds1 ++ d :: ds2) →
  filter (visible actor (Some (d.(delivery_seq), d.(delivered).(message_id)))) (ds1 ++ d :: ds2) = ds2.
Proof.
  set (after := Some _). intros Hs Hd.
  assert (∀ e, past after (delivery_seq e) (message_id (delivered e)) = true ↔
    delivery_seq e < delivery_seq d ∨ delivery_seq e = delivery_seq d ∧
      String.leb (message_id (delivered e)) (message_id (delivered d)) = true) as Hp.
  { intros e. unfold after, past. by rewrite orb_true_iff, andb_true_iff, Nat.ltb_lt, Nat.eqb_eq. }
  rewrite filter_app, filter_cons.
  apply Forall_app in Hd as [_ [_ Hd2]%Forall_cons].
  assert (filter (visible actor after) ds1 = []) as ->.
  { apply filter_none, Forall_forall. intros e He [_ Hv]. apply not_true_iff_false in Hv.
    apply Hv, Hp. left. clear -Hs He. induction ds1 as [|x ds1 IH]; [by apply elem_of_nil in He|].
    simpl in Hs. apply StronglySorted_inv in Hs as [Hs Hx].
    apply elem_of_cons in He as [->|He]; [|by apply IH].
    rewrite Forall_forall in Hx. apply Hx, elem_of_app. right. by left. }
  rewrite decide_False.
  2: { intros [_ Hv]. apply not_true_iff_false in Hv. apply Hv, Hp. right. split; [done|].
       destruct (String.leb_total (message_id (delivered d)) (message_id (delivered d))); done. }
  simpl. apply filter_all, Forall_forall. intros e He. split.
  - rewrite Forall_forall in Hd2. by apply Hd2.
  - apply not_true_iff_false. rewrite Hp.
    assert (delivery_seq d < delivery_seq e) as Hlt; [|lia]. clear -Hs He.
    induction ds1 as [|x ds1 IH]; simpl in Hs; apply StronglySorted_inv in Hs as [Hs Hx]; [|by apply IH].
    rewrite Forall_forall in Hx. by apply Hx.
Qed.

(** ** A channel for the witnesses: one advice request, answered *)
Module ChannelFixture.
Open Scope string_scope.
Definition cfg : channel_config := mkConfig "desk" 2.
Definition path : ExecutionPath := mkPath (mkScope ["run"; "ask"]) [].
Definition intent : ChannelSendIntent :=
  mkIntent (request_message_id "r" path "desk" "1" "main" Advice "request") "desk" "1" "main" Advice
    (Some "alice") ADVICE_REQUEST_CONTRACT ADVICE_REPLY_CONTRACT "r" path "request" "advice"
    (PStr "which way?").
Definition id : Digest := Eval vm_compute in in_message_id intent.
Definition ask : call := CAppend intent "attested" "t0".
Definition answer_ : call := CReply id "alice" (PStr "left") "c1" "t1".
Definition calls : list call := [ask; answer_].
Definition answered : chan := Eval vm_compute in history cfg calls.
Lemma answered_eq : history cfg calls = answered.
Proof. vm_compute. reflexivity. Qed.
Lemma then_answered : run_calls cfg [answer_] (history cfg [ask]) = answered.
Proof. vm_compute. reflexivity. Qed.
Definition request : ChannelMessage :=
  Eval vm_compute in match messages answered with q :: _ => q | [] => request_of intent JNull "" end.
Definition the_reply : ChannelMessage :=
  Eval vm_compute in match messages answered with [_; r] => r | _ => request end.
End ChannelFixture.

(** C38: In any run, one call on an in-process channel either leaves its history as it was or
    succeeds and is one step of an abstract log: it appends one fresh derived request, one
    acknowledgement of a retained message under a fresh key, or one reply to a retained request
    together with that request's acknowledgement. A read never changes the channel, and
    messages and acknowledgements only ever grow at the end. *)
Theorem channel_refines_log cfg cs c r s' :
  run_call cfg c (history cfg cs) = (r, s') →
  let s := history cfg cs in
  (log_of s' = log_of s ∨ (∃ v, r = Ok v) ∧ log_step (log_of s) (log_of s')) ∧
  (reads c = true → s' = s) ∧
  l_messages (log_of s) `prefix_of` l_messages (log_of s') ∧
  l_acks (log_of s) `prefix_of` l_acks (log_of s').
Proof.
  intros E s. pose proof (history_inv cfg cs) as H. fold s in E, H.
  split_and!.
  - destruct (run_call_outcome cfg s H c r s' E) as [->|[Hv Hg]]; [by left|].
    destruct (growth_log s s' H Hg); [by left|by right].
  - intros Hr. by apply (reads_pure cfg c Hr) in E.
  - apply (e_messages s s'). destruct (run_call_outcome cfg s H c r s' E) as [->|[_ ?]]; [done|].
    by apply growth_extends.
  - apply (e_acks s s'). destruct (run_call_outcome cfg s H c r s' E) as [->|[_ ?]]; [done|].
    by apply growth_extends.
Qed.
Lemma channel_refines_log_witness :
  let s := history ChannelFixture.cfg [ChannelFixture.ask] in
  log_step (log_of s) (log_of ChannelFixture.answered).
Proof.
  destruct (channel_refines_log ChannelFixture.cfg [ChannelFixture.ask] ChannelFixture.answer_
    (Ok (AMessage ChannelFixture.the_reply)) ChannelFixture.answered) as [[He|[_ Hs]] _].
  - vm_compute. reflexivity.
  - exfalso. apply (f_equal (λ l, length (l_acks l))) in He. vm_compute in He. discriminate He.
  - exact Hs.
Defined.

(** A channel never damages its own history: after any calls from construction the
    integrity check passes, every retained message is complete and can be read back by its id,
    and the latest revision counts messages and acknowledgements. *)
Theorem channel_history_sound cfg cs :
  let s := history cfg cs in
  _validate_history s = Ok tt ∧
  Forall (λ m, run_call cfg (CMessage m.(message_id)) s = (Ok (AMaybe (Some m)), s)) s.(messages) ∧
  run_call cfg CLatest s = (Ok (ARevision (mkRevision (length s.(messages)) (length s.(acks)))), s).
Proof.
  intros s. assert (inv s) as H by apply history_inv. split_and!.
  - by apply validate_inv.
  - apply Forall_forall. intros m Hm. unfold run_call, message.
    rewrite (ebind_Ok _ _ s (Some m) s); [done|]. opens H.
    rewrite (proj2 (by_id_get s H (message_id m) m)) by done. runs.
    by rewrite (complete_message_inv s H).
  - unfold run_call, latest_revision. 
    rewrite (ebind_Ok _ _ s (mkRevision (length s.(messages)) (length s.(acks))) s); [done|].
    by opens H.
Qed.

(** C39: In any run of a channel every retained reply answers a retained request with exactly
    its derived identity, its actor may answer that request and has acknowledged it, and no
    request has two replies. *)
Theorem channel_one_authorised_reply cfg cs m :
  let s := history cfg cs in
  m ∈ s.(messages) → m.(msg_kind) = KReply →
  (∃ request actor, request ∈ s.(messages) ∧ answers request m ∧ m.(sender) = Some actor ∧
     may_answer request actor ∧ (request.(message_id), actor) ∈ ack_key_of <$> s.(acks)) ∧
  ∀ n, n ∈ s.(messages) → n.(msg_kind) = KReply → n.(reply_to) = m.(reply_to) → n = m.
Proof.
  intros s Hm Hk. assert (inv s) as H by apply history_inv.
  destruct (v_reply s H m Hm Hk) as (q & actor & c & po & j & t & Hq & Hadm & Hw & -> & Hack & _).
  split.
  - exists q, actor. split_and!; try done; [by eapply reply_of_answers|apply Hadm].
  - intros n Hn Hkn Hto.
    destruct (v_reply s H n Hn Hkn) as (q' & a' & c' & po' & j' & t' & Hq' & Hadm' & _ & -> & _ & _).
    simpl in Hto. injection Hto as Hid.
    assert (q' = q) as -> by (by apply (same_message_of_id s H)).
    assert (po' = po) as -> by (destruct Hadm as (_&_&?&_), Hadm' as (_&_&?&_); congruence).
    by apply (same_message_of_id s H).
Qed.
Lemma channel_one_authorised_reply_witness :
  ∃ request actor, request ∈ messages ChannelFixture.answered ∧
    answers request ChannelFixture.the_reply ∧ may_answer request actor.
Proof.
  destruct (channel_one_authorised_reply ChannelFixture.cfg ChannelFixture.calls
    ChannelFixture.the_reply) as [(q & a & Hq & Ha & _ & Hm & _) _].
  - rewrite ChannelFixture.answered_eq. apply list_elem_of_lookup. exists 1. reflexivity.
  - reflexivity.
  - exists q, a. rewrite ChannelFixture.answered_eq in Hq. split; [exact Hq|split; assumption].
Defined.

(** Retries are exactly-once: after a send, reply or acknowledgement succeeded, and after
    any further calls, the same call at any later time returns the same stored value and
    changes nothing (an acknowledgement retry may instead find the place of its request's reply
    taken by a message that does not answer it, which the identity law makes a digest
    collision). *)
Theorem channel_retries_are_exact cfg cs ds c v s1 t :
  reads c = false →
  run_call cfg c (history cfg cs) = (Ok v, s1) →
  let s2 := run_calls cfg ds s1 in
  run_call cfg (at_time t c) s2 = (Ok v, s2) ∨
  ∃ id actor command now, c = CAck id actor command now ∧ slot_clash s2 id.
Proof.
  intros Hr E s2. pose proof (history_inv cfg cs) as H.
  pose proof (run_call_growth cfg _ H c) as Hg. rewrite E in Hg. simpl in Hg.
  assert (inv s1) as H1 by (by eapply growth_inv).
  assert (inv s2) as H2 by (by apply run_calls_inv).
  assert (extends s1 s2) as He by (by apply run_calls_extends).
  destruct c as [i att now|id actor p command now|id actor command now| | | |]; try done;
    unfold run_call in E; apply run_ret in E as [(w & [= ->] & E)|(e & [=] & _)]; simpl.
  - left. apply (append_done_ok _ _ H) in E. rewrite (ebind_Ok _ _ s2 w s2); [done|].
    apply append_done_retry; [done|]. by eapply append_done_mono.
  - left. apply (reply_done_ok _ H) in E. rewrite (ebind_Ok _ _ s2 w s2); [done|].
    apply reply_done_retry; [done|]. by eapply reply_done_mono.
  - apply (ack_done_ok _ H) in E. apply (ack_done_mono _ s2) in E; [|done].
    destruct (ack_done_retry s2 H2 _ _ _ _ t E) as [Hok|Hc].
    + left. by rewrite (ebind_Ok _ _ s2 w s2).
    + right. eauto 6.
Qed.
Lemma channel_retries_are_exact_witness :
  let s := ChannelFixture.answered in
  run_call ChannelFixture.cfg (at_time "t9" ChannelFixture.ask) s
  = (Ok (AMessage ChannelFixture.request), s).
Proof.
  destruct (channel_retries_are_exact ChannelFixture.cfg [] [ChannelFixture.answer_]
    ChannelFixture.ask (AMessage ChannelFixture.request)
    (history ChannelFixture.cfg [ChannelFixture.ask]) "t9") as [E|(id & a & co & n & Hc & _)].
  - reflexivity.
  - vm_compute. reflexivity.
  - rewrite ChannelFixture.then_answered in E. exact E.
  - discriminate Hc.
Defined.

(** In any run inbox returns exactly when the limit is within 1..max_batch and the
    revision is one this history has reached and is coherent; the page is then the first
    `limit` deliveries of the cut that the actor may discover past the cursor, and nothing
    changes. *)
Theorem inbox_page_exact cfg cs actor rev after limit ds s' :
  let s := history cfg cs in
  inbox cfg actor rev after limit s = (Ok ds, s') ↔
  s' = s ∧ (0 < limit ≤ Zpos cfg.(own_max_batch))%Z ∧ revision_of s rev ∧
  ds = take (Z.to_nat limit) (filter (visible actor after) (cut_deliveries s actor rev)).
Proof. intros s. apply inbox_iff, history_inv. Qed.

(** C40: Paging an inbox at a revision visits everything exactly once and in order, whatever is
    appended meanwhile: the first page is the first deliveries visible to the actor at the cut,
    and the page after the cursor of any delivery is the deliveries that follow it. *)
Theorem inbox_pages_complete cfg cs more actor rev limit ds1 d ds2 :
  let s := history cfg cs in
  (0 < limit ≤ Zpos cfg.(own_max_batch))%Z → revision_of s rev →
  filter (visible actor None) (cut_deliveries s actor rev) = ds1 ++ d :: ds2 →
  let s2 := run_calls cfg more s in
  let after := Some (d.(delivery_seq), d.(delivered).(message_id)) in
  inbox cfg actor rev None limit s2 = (Ok (take (Z.to_nat limit) (ds1 ++ d :: ds2)), s2) ∧
  inbox cfg actor rev after limit s2 = (Ok (take (Z.to_nat limit) ds2), s2).
Proof.
  intros s Hl Hrev Hds s2 after. assert (inv s) as H by apply history_inv.
  assert (inv s2) as H2 by (by apply run_calls_inv).
  assert (extends s s2) as He by (by apply run_calls_extends).
  destruct (cut_stable s s2 actor rev He Hrev) as [Hrev2 Hcut].
  split; apply inbox_iff; try done; rewrite Hcut; (split; [done|]; split; [done|]; split; [done|]).
  - by rewrite Hds.
  - f_equal. symmetry.
    assert (filter (visible actor after) (cut_deliveries s actor rev)
      = filter (visible actor after) (filter (visible actor None) (cut_deliveries s actor rev))) as ->.
    { symmetry. apply list_filter_filter_l. intros x [? _]. by split. }
    rewrite Hds. apply (after_cursor actor).
    + rewrite <-Hds. apply filter_sorted, seqs_sorted.
    + rewrite <-Hds. apply Forall_forall. by intros x [[? _] _]%list_elem_of_filter.
Qed.
Lemma inbox_pages_complete_witness :
  ∃ page, inbox ChannelFixture.cfg "alice" (mkRevision 1 0) None 2 ChannelFixture.answered
    = (Ok [page], ChannelFixture.answered) ∧ delivered page = ChannelFixture.request ∧
      acknowledged page = false.
Proof.
  destruct (inbox_pages_complete ChannelFixture.cfg [ChannelFixture.ask] [ChannelFixture.answer_]
    "alice" (mkRevision 1 0) 2 [] (mkDelivery 1 ChannelFixture.request false) []) as [E _].
  - vm_compute. split; congruence.
  - split; [vm_compute; lia|vm_compute; lia|]. intros a Ha. vm_compute in Ha. inversion Ha.
  - vm_compute. reflexivity.
  - exists (mkDelivery 1 ChannelFixture.request false).
    rewrite ChannelFixture.then_answered in E. split; [exact E|split; reflexivity].
Defined.
(** A limit above the channel's batch. *)
Lemma inbox_page_exact_witness :
  ~ ∃ ds s', inbox ChannelFixture.cfg "alice" (mkRevision 0 0) None 3
    (history ChannelFixture.cfg ChannelFixture.calls) = (Ok ds, s').
Proof.
  intros (ds & s' & E). apply inbox_page_exact in E as (_ & [_ Hl] & _). vm_compute in Hl.
  apply Hl. reflexivity.
Defined.
