(* ===== verification/Run.v ===== *)
(** Run ownership and execution state ([src/constructicon/core/run.py]), and
    the exceptions of the runtime.

    Instants are integers (microseconds); a model keeps an exception's class and
    what it is about, not its message. *)

From S2P Require Import Prelude Identity Address.
From Stdlib Require Import Ascii.

(** ** Statuses *)
Inductive InvocationStatus :=
| Queued | InvocationRunning | Completed | InvocationFailed | InvocationCancelled | Lost
| Blocked | Skipped | InvocationParked_.
#[export] Instance InvocationStatus_eq_dec : EqDecision InvocationStatus.
Proof. solve_decision. Defined.
Inductive RunStatus := PENDING | RUNNING | SUCCEEDED | FAILED | CANCELLED | PARKED.
#[export] Instance RunStatus_eq_dec : EqDecision RunStatus.
Proof. solve_decision. Defined.

Definition TERMINAL_EVENT_STATUSES : list (string * RunStatus) :=
  [("RunSucceeded", SUCCEEDED); ("RunFailed", FAILED); ("RunParked", PARKED);
   ("RunCancelled", CANCELLED)].
Definition TERMINAL_STATUS_EVENTS : list (RunStatus * string) :=
  (λ p, (p.2, p.1)) <$> TERMINAL_EVENT_STATUSES.

(** ** Parking *)
Inductive ParkedReason :=
| AwaitingApproval | AwaitingAdvisor | PolicyExhausted | BudgetExhausted | OperatorIntervention.
#[export] Instance ParkedReason_eq_dec : EqDecision ParkedReason.
Proof. solve_decision. Defined.
Record ParkedUnit := mkParked {
  parked_path : ExecutionPath;
  parked_reason : ParkedReason;
  completed_iterations : option positive;
  waiting_on : option Digest;
}.
#[export] Instance ParkedUnit_eq_dec : EqDecision ParkedUnit.
Proof. solve_decision. Defined.
Definition _reason_carries_its_own_evidence (u : ParkedUnit) : option ParkedUnit :=
  let waiting := bool_decide (u.(parked_reason) ∈ [AwaitingAdvisor; AwaitingApproval]) in
  if bool_decide (u.(parked_reason) = PolicyExhausted) && bool_decide (u.(completed_iterations) = None)
  then None
  else if waiting && bool_decide (u.(waiting_on) = None) then None
  else if negb waiting && bool_decide (u.(waiting_on) ≠ None) then None
  else Some u.

(** ** Why an attempt started *)
Inductive AttemptCauseKind := ResumeCommand | ChannelReply.
#[export] Instance AttemptCauseKind_eq_dec : EqDecision AttemptCauseKind.
Proof. solve_decision. Defined.
Record AttemptCause := mkCause { cause_kind : AttemptCauseKind; cause_id : string }.
Definition _PAYLOAD_KEYS : list (AttemptCauseKind * string) :=
  [(ResumeCommand, "resume_command_id"); (ChannelReply, "reply_message_id")].
Definition _KINDS_BY_PAYLOAD_KEY : list (string * AttemptCauseKind) :=
  (λ p, (p.2, p.1)) <$> _PAYLOAD_KEYS.
(** [self._PAYLOAD_KEYS[self.kind]] is total on the two kinds. *)
Definition cause_payload (c : AttemptCause) : list (string * json) :=
  match Dict.get c.(cause_kind) _PAYLOAD_KEYS with
  | Some key => [(key, JStr c.(cause_id))]
  | None => []
  end.
(** [value.strip() != value], for the blanks that are ASCII. *)
Definition blank (c : ascii) : bool :=
  let n := nat_of_ascii c in (9 <=? n) && (n <=? 13) || (28 <=? n) && (n <=? 32).
Definition _canonical_identity (s : string) : bool :=
  match String.list_ascii_of_string s with
  | [] => false
  | c :: l => negb (blank c) && negb (blank (from_option id c (last (c :: l))))
  end.
(** Three outcomes: no cause, a cause, or a [ValueError]. *)
Definition from_payload (payload : option (list (string * json))) : option (option AttemptCause) :=
  match payload with
  | None => Some None
  | Some payload =>
      match filter (λ k, is_Some (Dict.get k payload)) (Dict.keys _KINDS_BY_PAYLOAD_KEY) with
      | [] => Some None
      | [key] =>
          match Dict.get key payload, Dict.get key _KINDS_BY_PAYLOAD_KEY with
          | Some (JStr i), Some kind =>
              if _canonical_identity i then Some (Some (mkCause kind i)) else None
          | _, _ => None
          end
      | _ => None
      end
  end.

(** ** Ownership *)
Record RunLease := mkLease { lease_run : RunId; lease_owner : string; epoch : nat; expires_at : Z }.
#[export] Instance RunLease_eq_dec : EqDecision RunLease.
Proof. solve_decision. Defined.
Inductive Liveness := Live | LivenessLost | NotApplicable.

(** ** Dependencies *)
Record ProducerStatus := mkProducer { producer_path : ExecutionPath; producer_status : InvocationStatus }.
#[export] Instance ProducerStatus_eq_dec : EqDecision ProducerStatus.
Proof. solve_decision. Defined.
Record DependencyReport := mkReport {
  report_destination : ExecutionPath; producers : list ProducerStatus }.
#[export] Instance DependencyReport_eq_dec : EqDecision DependencyReport.
Proof. solve_decision. Defined.

Lemma cause_round_trip c :
  _canonical_identity c.(cause_id) = true → from_payload (Some (cause_payload c)) = Some (Some c).
Proof. destruct c as [[] i]; simpl; intros Hi; cbn; by rewrite Hi. Qed.

(** ** Exceptions of the runtime *)
Inductive violation :=
(* journal *)
| UnknownRun (run : RunId)
| EventStatus (found : RunStatus)
| TerminallyDone (status : RunStatus)
| TransitionFound (found : RunStatus)
| CheckpointOfOtherRun (run : RunId)
| CancelOfOtherRun
| LeaseContradicts (lease_id : string)
| LeaseNotRecorded (lease_id : string)
| LostAccounting
| DisposedPair
| LeaseStateFound (lease_id : string)
| RunCreationContradicts
| MeteringNeedsItsWriter
| NoRetainedRun
| AttestationOtherManifest (run : RunId)
| SendNamesOtherRun (run : RunId)
| PolicyPromotesOnly
| EffectContradicts (key : Digest)
| EffectOtherManifest (key : Digest)
| NoExactIntent
| OutcomeContradicts (key : Digest)
| OutcomeKind (key : Digest)
(* walker *)
| InputsNotAnObject
| InputsHash (observed expected : Digest)
| NoRecordedInputs (run : RunId)
| NoManifest (run : RunId)
| NoImplementation (scope : ScopePath)
| EmptyUnit
| MissingMember (member : ScopePath)
| NoContinuation (key : string)
| ContinuationNotBool
| RootDependencyCycle
| InputUnbound (scope : ScopePath) (port : string)
| ValueUnavailable (key : string)
| CardinalityMismatch (port : string) (sources : nat)
(* one invocation *)
| NoSealedGrants (scope : ScopePath)
| NotInjected (capability : string)
| NotLeased (capability : string)
| NoSealedChannel (capability : string)
| NotAChannel (capability : string)
| OutputNotMapping
| OutputContract (missing : list string) (extra : bool)
(* effects *)
| SubjectNotObject
| NoAdapter (kind : string)
| NoSimulation (kind : string)
| ReplyContract (request_id : Digest)
| WrongEffectKind (kind : string)
| SubjectNotIntent
| ChannelNotAssembled (id revision : string)
| SendWithoutAttestation
| SendNotAuthorized
| NoCapabilityHeld (alias : string)
| NoChannelHeld (alias : string).
Inductive damage :=
(* journal *)
| EventFence (run : RunId)
| LifecycleDamage (run : RunId)
| DuplicateCompletion (run : RunId) (path : ExecutionPath)
| CompletionDisagrees (run : RunId) (path : ExecutionPath)
| ManifestStoredDifferently (manifest : Digest)
| DifferentOrigin (run : RunId)
| DifferentCommand (run : RunId)
| RunDisappeared (run : RunId)
| LeaseOfOtherRun (lease_id : string)
| AttestationSelectors (id : string)
| AttestationDamaged (id : string)
| AttestationDiffers (id : string)
| AttestationCreator (id : string)
| EffectSelectors (key : Digest)
| OutcomeWithoutRow (key : Digest)
| EffectRowDamaged (key : Digest)
| EffectLifecycle (key : Digest)
| MessageWithoutPreparation (key : Digest)
| NoPreparation (key : Digest)
| OutcomeOtherPreparation (key : Digest)
| DifferentReceipt (key : Digest)
| AttestationNotHeld (id : string)
(* walker *)
| BlockedWithoutRoot
| EmptyExecutionUnit
| ManifestUnreadable (manifest : Digest) (run : RunId)
| IterationGap (loop : ScopePath) (index : nat)
| MemberGap (loop : ScopePath) (index : nat)
| IncompleteLoop (loop : ScopePath) (index : nat)
| PartialLoop (loop : ScopePath) (index : nat)
| AfterTerminal (loop : ScopePath) (index : nat)
| ExhaustedLoop (loop : ScopePath)
| FeedbackWithoutPrevious (loop : ScopePath) (index : nat)
| OutputsOmit (scope : ScopePath) (port : string)
| NoCheckpoint (scope : ScopePath)
| MissingComponent (scope : ScopePath)
| NoTerminalLoop (scope : ScopePath).
Inductive exn :=
| OwnershipLost (run : RunId)
| RunAttemptSuperseded (run : RunId)
| CheckpointConflict (run : RunId) (path : option ExecutionPath)
| CleanupUnresolved (run : RunId) (active : nat)
| ContractViolation (why : violation)
| JournalDamaged (why : damage)
| InvocationParked (request_id : Digest) (reason : ParkedReason)
| CancelRequested
| ValueError (why : value_error)
| ComponentError (type_name text : string)
| KeyError (key : list string)
(** [asyncio.CancelledError] *)
| Cancelled
(** [_CleanupFailure(error, node_error, cancellation)] and an exception group *)
| CleanupFailure (error : exn) (node_error : option exn) (cancellation : bool)
| ExnGroup (errors : list exn)
(** The model only: a recursion out of fuel; never raised ([ordered_units_exact]). *)
| OutOfFuel.
#[export] Instance violation_eq_dec : EqDecision violation.
Proof. solve_decision. Defined.
#[export] Instance damage_eq_dec : EqDecision damage.
Proof. solve_decision. Defined.
