(* ===== verification/Effect.v ===== *)
(** The effect chain ([src/constructicon/core/effect.py]): what is proved, what
    is asked of the outside world, and what it answered.

    A clock reading is the string it dumps to; a float is the text JSON gives
    it. *)

From S2P Require Import Prelude Identity Address Capability Message Run.
From Stdlib Require Import Ascii.

(** ** Evidence ([src/constructicon/core/envelope.py]) *)
Inductive EvidenceRef :=
| ArtifactRef (content : Digest) (media_type : string) (size : N) (locator : option string)
| GitRef (repository : string) (commit : GitSha) (paths : list string) (diff_against : option GitSha).
#[export] Instance EvidenceRef_eq_dec : EqDecision EvidenceRef.
Proof. solve_decision. Defined.
#[export] Instance EvidenceRef_dump : Dump EvidenceRef := λ e,
  match e with
  | ArtifactRef d m n l =>
      JObj [("digest", JStr d); ("media_type", JStr m); ("size", dump n); ("locator", dump l)]
  | GitRef r c ps d =>
      JObj [("repository", JStr r); ("commit", JStr c); ("paths", dump ps); ("diff_against", dump d)]
  end.

(** ** Checks. [ok] is in lockstep with the status, so it is read off it. *)
Inductive CheckStatus :=
| CheckPassed | CheckFailed | CheckConflict | CheckTimeout | CheckCancelled | InfrastructureError.
#[export] Instance CheckStatus_eq_dec : EqDecision CheckStatus.
Proof. solve_decision. Defined.
Definition check_status_value (s : CheckStatus) : string :=
  match s with
  | CheckPassed => "passed" | CheckFailed => "failed" | CheckConflict => "conflict"
  | CheckTimeout => "timeout" | CheckCancelled => "cancelled"
  | InfrastructureError => "infrastructure_error"
  end.
Record CheckResult := mkCheck {
  check_name : string;
  check_status : CheckStatus;
  check_detail : string;
  elapsed_s : string;
}.
#[export] Instance CheckResult_eq_dec : EqDecision CheckResult.
Proof. solve_decision. Defined.
Definition check_ok (c : CheckResult) : bool := bool_decide (c.(check_status) = CheckPassed).
#[export] Instance CheckResult_dump : Dump CheckResult := λ c,
  JObj [("name", JStr c.(check_name)); ("status", JStr (check_status_value c.(check_status)));
        ("ok", JBool (check_ok c)); ("detail", JStr c.(check_detail)); ("elapsed_s", JFloat c.(elapsed_s))].

(** ** Subjects *)
Record MergeSubject := mkMerge {
  repository : string; target_ref : string; candidate : GitSha; expected_base : GitSha;
  merge_commit : GitSha; tested_tree : GitSha;
}.
#[export] Instance MergeSubject_eq_dec : EqDecision MergeSubject.
Proof. solve_decision. Defined.
Record ComponentProofSubject := mkComponentProof {
  proof_component : string; proof_version : Digest; baseline_version : option Digest;
}.
#[export] Instance ComponentProofSubject_eq_dec : EqDecision ComponentProofSubject.
Proof. solve_decision. Defined.
Record ChannelSendSubject := mkSend {
  send_message_id : Digest;
  send_channel : string;
  send_revision : string;
  send_lane : string;
  send_interaction : ChannelInteraction;
  send_recipient : option string;
  send_run : RunId;
  send_path : ExecutionPath;
  send_port : string;
  send_contract : ChannelContract;
  send_reply_port : string;
  send_reply_contract : ChannelContract;
  payload_digest : Digest;
}.
#[export] Instance ChannelSendSubject_eq_dec : EqDecision ChannelSendSubject.
Proof. solve_decision. Defined.
#[export] Instance ChannelSendSubject_dump : Dump ChannelSendSubject := λ s,
  JObj [("kind", JStr "channel_send"); ("message_id", JStr s.(send_message_id));
        ("channel_id", JStr s.(send_channel)); ("channel_revision", JStr s.(send_revision));
        ("lane", JStr s.(send_lane)); ("interaction", dump s.(send_interaction));
        ("recipient_actor_id", dump s.(send_recipient)); ("run_id", JStr s.(send_run));
        ("path", dump s.(send_path)); ("port", JStr s.(send_port)); ("contract", dump s.(send_contract));
        ("reply_port", JStr s.(send_reply_port)); ("reply_contract", dump s.(send_reply_contract));
        ("payload_digest", JStr s.(payload_digest))].
(** A historical Git subject is read from old journals and never minted: it has
    no constructor here. *)
Inductive ProofSubject :=
| SubjectMerge (s : MergeSubject)
| SubjectComponent (s : ComponentProofSubject)
| SubjectSend (s : ChannelSendSubject).
#[export] Instance ProofSubject_eq_dec : EqDecision ProofSubject.
Proof. solve_decision. Defined.
#[export] Instance ProofSubject_dump : Dump ProofSubject := λ s,
  match s with
  | SubjectMerge m =>
      JObj [("kind", JStr "git_merge"); ("repository", JStr m.(repository)); ("target_ref", JStr m.(target_ref));
            ("candidate", JStr m.(candidate)); ("expected_base", JStr m.(expected_base));
            ("merge_commit", JStr m.(merge_commit)); ("tested_tree", JStr m.(tested_tree))]
  | SubjectComponent c =>
      JObj [("kind", JStr "component"); ("component", JStr c.(proof_component));
            ("version", JStr c.(proof_version)); ("baseline_version", dump c.(baseline_version))]
  | SubjectSend s => dump s
  end.

(** The JSON payload an intent carries. *)
Definition intent_payload (i : ChannelSendIntent) : json :=
  match json_value i.(in_payload) with Ok j => j | Raise _ => JNull end.
#[export] Instance ChannelSendIntent_dump : Dump ChannelSendIntent := λ i,
  JObj [("schema_version", JInt 1); ("message_id", JStr i.(in_message_id)); ("channel_id", JStr i.(in_channel));
        ("channel_revision", JStr i.(in_revision)); ("lane", JStr i.(in_lane));
        ("interaction", dump i.(in_interaction)); ("recipient_actor_id", dump i.(in_recipient));
        ("contract", dump i.(in_contract)); ("reply_contract", dump i.(in_reply_contract));
        ("run_id", JStr i.(in_run)); ("path", dump i.(in_path)); ("port", JStr i.(in_port));
        ("reply_port", JStr i.(in_reply_port)); ("payload", intent_payload i)].
Definition channel_send_subject (i : ChannelSendIntent) : ChannelSendSubject :=
  mkSend i.(in_message_id) i.(in_channel) i.(in_revision) i.(in_lane) i.(in_interaction) i.(in_recipient)
    i.(in_run) i.(in_path) i.(in_port) i.(in_contract) i.(in_reply_port) i.(in_reply_contract)
    (digest_of "channel-payload" 1 (intent_payload i)).

(** ** Attestations *)
Inductive EffectAction := ActionMerge | ActionPromote | ActionSend.
#[export] Instance EffectAction_eq_dec : EqDecision EffectAction.
Proof. solve_decision. Defined.
#[export] Instance EffectAction_dump : Dump EffectAction := λ a,
  JStr (match a with ActionMerge => "merge" | ActionPromote => "promote" | ActionSend => "send" end).
Record AttestationDraft := mkDraft {
  dr_action : EffectAction;
  dr_subject : ProofSubject;
  dr_checks : list CheckResult;
  dr_check_set : Digest;
  dr_evidence : list EvidenceRef;
  dr_manifest : Digest;
  dr_workspace : option string;
}.
#[export] Instance AttestationDraft_eq_dec : EqDecision AttestationDraft.
Proof. solve_decision. Defined.
#[export] Instance AttestationDraft_dump : Dump AttestationDraft := λ d,
  JObj [("action", dump d.(dr_action)); ("subject", dump d.(dr_subject)); ("checks", dump d.(dr_checks));
        ("check_set_hash", JStr d.(dr_check_set)); ("evidence", dump d.(dr_evidence));
        ("manifest_hash", JStr d.(dr_manifest)); ("workspace_id", dump d.(dr_workspace))].
Definition attestation_id_for (d : AttestationDraft) : string :=
  "att-" +:+ String.substring 7 64 (digest_of "attestation" 1 (dump d)).
Definition attestation_id_for_run (d : AttestationDraft) (run : RunId) : string :=
  "att-" +:+ String.substring 7 64 (digest_of "attestation" 2
    (JObj [("draft", dump d); ("created_by_run", JStr run)])).
(** An attestation is its draft with its identity and provenance. *)
Record Attestation := mkAttestation {
  attestation_id : string;
  att_draft : AttestationDraft;
  created_by_run : option RunId;
  att_created : string;
}.
#[export] Instance Attestation_eq_dec : EqDecision Attestation.
Proof. solve_decision. Defined.
Definition attestation_ok (a : Attestation) : bool :=
  negb (bool_decide (a.(att_draft).(dr_checks) = [])) && forallb check_ok a.(att_draft).(dr_checks).

Inductive promotion_fault :=
| AuthorizesOther (action : EffectAction)
| NotComponentSubject
| OtherComponent (named : string)
| OtherVersion (bound : Digest)
| OtherBaseline (bound : option Digest)
| ChecksFailing (names : list string)
| OtherSourceRun (run : option RunId).
Definition promotion_attestation_faults (a : Attestation) (component : string) (version : Digest)
    (baseline : option Digest) (source_run : option RunId) : list promotion_fault :=
  let fault (b : bool) f := if b then [f] else [] in
  fault (bool_decide (a.(att_draft).(dr_action) ≠ ActionPromote)) (AuthorizesOther a.(att_draft).(dr_action))
  ++ match a.(att_draft).(dr_subject) with
     | SubjectComponent s =>
         fault (bool_decide (s.(proof_component) ≠ component)) (OtherComponent s.(proof_component))
         ++ fault (bool_decide (s.(proof_version) ≠ version)) (OtherVersion s.(proof_version))
         ++ fault (bool_decide (s.(baseline_version) ≠ baseline)) (OtherBaseline s.(baseline_version))
     | _ => [NotComponentSubject]
     end
  ++ fault (negb (attestation_ok a))
       (ChecksFailing (match check_name <$> filter (λ c, check_ok c = false) a.(att_draft).(dr_checks) with
                       | [] => ["<none>"] | names => names end))
  ++ fault (bool_decide (a.(created_by_run) ≠ source_run)) (OtherSourceRun a.(created_by_run)).

(** [None] is the [ValueError]. *)
Definition validated_channel_send_attestation (a : Attestation) (i : ChannelSendIntent)
    (expected_manifest : Digest) : option Attestation :=
  match a.(att_draft).(dr_subject) with
  | SubjectSend subject =>
      if bool_decide (a.(att_draft).(dr_action) ≠ ActionSend) || negb (attestation_ok a)
         || bool_decide (a.(created_by_run) ≠ Some i.(in_run))
         || bool_decide (a.(att_draft).(dr_manifest) ≠ expected_manifest)
      then None
      else if decide (canonical_text (dump subject) ≠ canonical_text (dump (channel_send_subject i)))
      then None else Some a
  | _ => None
  end.

(** ** Requests and receipts *)
Inductive EffectMode := LiveEffects | SimulatedEffects.
#[export] Instance EffectMode_eq_dec : EqDecision EffectMode.
Proof. solve_decision. Defined.
Definition effect_mode_value (m : EffectMode) : string :=
  match m with LiveEffects => "live" | SimulatedEffects => "simulated" end.
Inductive recovery := NativeIdempotency | Reconcilable.
Record EffectProfile := mkProfile { profile_kind : string; profile_recovery : recovery; simulation : bool }.
Record EffectRequest := mkRequest {
  rq_run : RunId;
  rq_manifest : Digest;
  rq_path : ExecutionPath;
  rq_kind : string;
  rq_subject : list (string * json);
  rq_key : Digest;
  rq_attestation : option string;
  rq_mode : EffectMode;
}.
#[export] Instance EffectRequest_eq_dec : EqDecision EffectRequest.
Proof. solve_decision. Defined.
#[export] Instance EffectRequest_dump : Dump EffectRequest := λ r,
  JObj [("run_id", JStr r.(rq_run)); ("manifest_hash", JStr r.(rq_manifest)); ("path", dump r.(rq_path));
        ("kind", JStr r.(rq_kind)); ("subject", JObj r.(rq_subject)); ("idempotency_key", JStr r.(rq_key));
        ("attestation_id", dump r.(rq_attestation)); ("mode", JStr (effect_mode_value r.(rq_mode)))].
Inductive receipt_status := Committed | Rejected | Unknown | Simulated.
#[export] Instance receipt_status_eq_dec : EqDecision receipt_status.
Proof. solve_decision. Defined.
Definition receipt_status_value (s : receipt_status) : string :=
  match s with
  | Committed => "committed" | Rejected => "rejected" | Unknown => "unknown" | Simulated => "simulated"
  end.
Record EffectReceipt := mkReceipt {
  rc_request : Digest;
  rc_status : receipt_status;
  external_reference : option string;
  observed_state : option (list (string * json));
}.
#[export] Instance EffectReceipt_eq_dec : EqDecision EffectReceipt.
Proof. solve_decision. Defined.
#[export] Instance EffectReceipt_dump : Dump EffectReceipt := λ r,
  JObj [("request_hash", JStr r.(rc_request)); ("status", JStr (receipt_status_value r.(rc_status)));
        ("external_reference", dump r.(external_reference)); ("observed_state", jopt JObj r.(observed_state))].

Definition idempotency_payload (manifest : Digest) (path : ExecutionPath) (kind : string)
    (subject : list (string * json)) : json :=
  JObj [("manifest_hash", JStr manifest); ("path", dump path); ("kind", JStr kind); ("subject", JObj subject)].
Definition idempotency_domain (mode : EffectMode) : string :=
  match mode with LiveEffects => "idempotency" | SimulatedEffects => "idempotency-simulated" end.
Definition idempotency_key (manifest : Digest) (path : ExecutionPath) (kind : string)
    (subject : list (string * json)) (mode : EffectMode) : Digest :=
  digest_of (idempotency_domain mode) 1 (idempotency_payload manifest path kind subject).
Definition request_hash (r : EffectRequest) : Digest := digest_of "effect-request" 1 (dump r).
(** [effect_receipt_hash] of [src/constructicon/substrate/journal/_sqlite_effects.py] *)
Definition effect_receipt_hash (r : EffectReceipt) : Digest := digest_of "effect-receipt" 1 (dump r).
Definition same_request (a b : EffectRequest) : bool :=
  bool_decide (canonical_text (dump a) = canonical_text (dump b)).
Definition same_receipt (a b : EffectReceipt) : bool :=
  bool_decide (canonical_text (dump a) = canonical_text (dump b)).
(** Identities are compared, never computed, by the proofs. *)
#[global] Arguments idempotency_key : simpl never.
#[global] Arguments request_hash : simpl never.
#[global] Arguments effect_receipt_hash : simpl never.
#[global] Arguments attestation_id_for : simpl never.
#[global] Arguments attestation_id_for_run : simpl never.
#[global] Arguments same_request : simpl never.
#[global] Arguments same_receipt : simpl never.

(** ** Reading an intent back
    [decode_intent] is [ChannelSendIntent.model_validate_json] of a subject;
    [parse_intent] adds the check that nothing was lost, which also refuses
    members the model does not have. *)
Definition j_str (j : json) : option string := match j with JStr s => Some s | _ => None end.
Definition j_opt_str (j : json) : option (option string) :=
  match j with JNull => Some None | JStr s => Some (Some s) | _ => None end.
Definition j_get (k : string) (j : json) : option json :=
  match j with JObj m => Dict.get k m | _ => None end.
Definition j_arr {A} (f : json → option A) (j : json) : option (list A) :=
  match j with JArr l => mapM f l | _ => None end.
Definition parse_scope (j : json) : option ScopePath :=
  l ← j_get "segments" j ≫= j_arr j_str; Some (mkScope l).
Definition parse_frame (j : json) : option IterationFrame :=
  loop ← j_get "loop" j ≫= parse_scope;
  match j_get "index" j with
  | Some (JInt z) => if (z <? 0)%Z then None else Some (mkFrame loop (Z.to_N z))
  | _ => None
  end.
Definition parse_path (j : json) : option ExecutionPath :=
  scope ← j_get "scope" j ≫= parse_scope;
  frames ← j_get "iterations" j ≫= j_arr parse_frame;
  Some (mkPath scope frames).
Definition parse_contract (j : json) : option ChannelContract :=
  t ← j_get "type_id" j ≫= j_str; h ← j_get "schema_hash" j ≫= j_str; Some (mkContract t h).
Definition parse_interaction (j : json) : option ChannelInteraction :=
  match j with
  | JStr s => head (filter (λ i, interaction_value i = s) [Advice; Approval])
  | _ => None
  end.
(** [_actor_id_fault], for the blanks that are ASCII. *)
Definition actor_id_is_canonical (s : string) : bool :=
  let cs := String.list_ascii_of_string s in
  negb (bool_decide (cs = [])) && forallb (λ c, negb (blank c)) cs && bool_decide (":"%char ∈ cs).
Definition decode_intent (subject : list (string * json)) : option ChannelSendIntent :=
  let j := JObj subject in
  id ← j_get "message_id" j ≫= j_str;
  channel ← j_get "channel_id" j ≫= j_str;
  revision ← j_get "channel_revision" j ≫= j_str;
  lane ← j_get "lane" j ≫= j_str;
  interaction ← j_get "interaction" j ≫= parse_interaction;
  recipient ← j_get "recipient_actor_id" j ≫= j_opt_str;
  contract ← j_get "contract" j ≫= parse_contract;
  reply_contract ← j_get "reply_contract" j ≫= parse_contract;
  run ← j_get "run_id" j ≫= j_str;
  path ← j_get "path" j ≫= parse_path;
  port ← j_get "port" j ≫= j_str;
  reply_port ← j_get "reply_port" j ≫= j_str;
  payload ← j_get "payload" j;
  let i := mkIntent id channel revision lane interaction recipient contract reply_contract run path
             port reply_port (embed payload) in
  if negb (match recipient with Some a => actor_id_is_canonical a | None => true end) then None
  else if decide (id ≠ derived_id i) then None else Some i.
Definition lossless (i : ChannelSendIntent) (subject : list (string * json)) : bool :=
  bool_decide (canonical_text (dump i) = canonical_text (JObj subject)).
Definition parse_intent (subject : list (string * json)) : option ChannelSendIntent :=
  i ← decode_intent subject; if lossless i subject then Some i else None.

(** A JSON text: no object repeats a key, every float has a text. *)
Fixpoint json_ok (j : json) : bool :=
  match j with
  | JFloat r => float_text r
  | JArr l => forallb id (json_ok <$> l)
  | JObj m => bool_decide (NoDup m.*1) && forallb id ((λ kv, json_ok kv.2) <$> m)
  | _ => true
  end.
