(* ===== verification/Journal.v ===== *)
(** The durable execution store
    ([src/constructicon/substrate/journal/_sqlite_execution.py], [_sqlite_runs.py],
    [_sqlite_execution_facts.py]): runs, their fenced leases, their event log,
    write-once checkpoints, capability leases, effects and attestations.

    A table is a list of typed rows, so decoding a column never fails; the
    seals that detect edits made behind the store's back mirror these rows and
    are not modelled, the relations between rows that it re-proves are. One
    public method is one transaction: [_txn] keeps the state when it raises.
    [now] is the reading of the clock. *)

From S2P Require Import Prelude Identity Address Graph Capability Manifest Message Run Effect.

(** ** Rows *)
Inductive CapabilityMode := NormalCapabilities | DiscardCapabilities.
#[export] Instance CapabilityMode_eq_dec : EqDecision CapabilityMode.
Proof. solve_decision. Defined.
Inductive origin_kind := OriginStart | OriginReproduce | OriginCounterfactual.
#[export] Instance origin_kind_eq_dec : EqDecision origin_kind.
Proof. solve_decision. Defined.
Record RunOrigin := mkOrigin {
  or_kind : origin_kind;
  or_actor : string;
  or_command : string;
  or_source : option RunId;
  or_overrides : list (string * Digest);
  or_effects : EffectMode;
  or_capabilities : CapabilityMode;
}.
#[export] Instance RunOrigin_eq_dec : EqDecision RunOrigin.
Proof. solve_decision. Defined.

Record run_row := mkRun {
  run_status : RunStatus;
  owner_id : option string;
  owner_epoch : nat;
  lease_expires_at : option Z;
  next_event_seq : nat;
  cancel_flag : bool;
  row_manifest : Digest;
  row_input_hash : Digest;
  row_inputs : list (string * json);
  row_origin : option RunOrigin;
}.

(** The dict an event carries, by its shape. *)
Inductive event_payload :=
| PMembers (members : list (string * json))
| PReport (r : DependencyReport)
| PUnit (u : ParkedUnit)
| PError (e : exn)
| PLoopError (e : exn) (iteration : nat)
| PRunFailed (failed : list string) (blocked : list ExecutionPath) (parked : list ParkedUnit)
| PRunParked (parked : list ParkedUnit) (blocked : list ExecutionPath).
Record JournalEvent := mkEvent {
  ev_run : RunId;
  ev_seq : nat;
  ev_kind : string;
  ev_path : option ExecutionPath;
  ev_payload : option event_payload;
}.
Record Checkpoint := mkCheckpoint {
  cp_run : RunId;
  cp_path : ExecutionPath;
  cp_input_hash : Digest;
  cp_version : option Digest;
  cp_outputs : list (string * Envelope);
}.
#[export] Instance Checkpoint_eq_dec : EqDecision Checkpoint.
Proof. solve_decision. Defined.

Inductive lease_state := LeaseActive | LeaseClosed | LeaseLost.
#[export] Instance lease_state_eq_dec : EqDecision lease_state.
Proof. solve_decision. Defined.
Inductive disposition := Released | Discarded.
#[export] Instance disposition_eq_dec : EqDecision disposition.
Proof. solve_decision. Defined.
(** [lifetime] has one value, "invocation". *)
Record CapabilityLease := mkCapabilityLease {
  lease_id : string;
  acquisition_epoch : nat;
  cl_run : RunId;
  binding_id : string;
  cl_path : ExecutionPath;
  cl_state : lease_state;
  cl_disposition : option disposition;
  resource_ref : option string;
}.
#[export] Instance CapabilityLease_eq_dec : EqDecision CapabilityLease.
Proof. solve_decision. Defined.

(** A prepared effect, and its receipt with the event that recorded it. *)
Record effect_row := mkEffect {
  ef_run : RunId;
  ef_request : EffectRequest;
  ef_receipt : option (EffectReceipt * RunId * nat);
}.

Record store := mkStore {
  manifests : list (Digest * ExecutionManifest);
  runs : list (RunId * run_row);
  events : list JournalEvent;
  checkpoints : list ((RunId * ExecutionPath) * Checkpoint);
  capability_leases : list CapabilityLease;
  disposed : list (string * nat);   (** pairs with an administrative disposal receipt *)
  effects : list (Digest * effect_row);
  attested : list (string * Attestation);
  channel_messages : list Digest;   (** ids of the messages of the durable channels *)
}.
Definition new_store : store := mkStore [] [] [] [] [] [] [] [] [].

Definition J := eff store exn.
Definition _txn {A} (m : J A) : J A := λ s,
  match m s with (Ok a, s') => (Ok a, s') | (Raise e, _) => (Raise e, s) end.

Definition with_runs (f : list (RunId * run_row) → list (RunId * run_row)) (s : store) : store :=
  mkStore s.(manifests) (f s.(runs)) s.(events) s.(checkpoints) s.(capability_leases) s.(disposed)
    s.(effects) s.(attested) s.(channel_messages).
Definition set_manifest (h : Digest) (m : ExecutionManifest) (s : store) : store :=
  mkStore (Dict.set h m s.(manifests)) s.(runs) s.(events) s.(checkpoints) s.(capability_leases) s.(disposed)
    s.(effects) s.(attested) s.(channel_messages).
Definition set_run (run : RunId) (r : run_row) : store → store := with_runs (Dict.set run r).
Definition add_event (e : JournalEvent) (s : store) : store :=
  mkStore s.(manifests) s.(runs) (s.(events) ++ [e]) s.(checkpoints) s.(capability_leases) s.(disposed)
    s.(effects) s.(attested) s.(channel_messages).
Definition add_checkpoint (c : Checkpoint) (s : store) : store :=
  mkStore s.(manifests) s.(runs) s.(events) (s.(checkpoints) ++ [((c.(cp_run), c.(cp_path)), c)])
    s.(capability_leases) s.(disposed) s.(effects) s.(attested) s.(channel_messages).
Definition set_leases (ls : list CapabilityLease) (s : store) : store :=
  mkStore s.(manifests) s.(runs) s.(events) s.(checkpoints) ls s.(disposed)
    s.(effects) s.(attested) s.(channel_messages).
Definition set_effect (key : Digest) (row : effect_row) (s : store) : store :=
  mkStore s.(manifests) s.(runs) s.(events) s.(checkpoints) s.(capability_leases) s.(disposed)
    (Dict.set key row s.(effects)) s.(attested) s.(channel_messages).
Definition add_attestation (a : Attestation) (s : store) : store :=
  mkStore s.(manifests) s.(runs) s.(events) s.(checkpoints) s.(capability_leases) s.(disposed)
    s.(effects) (s.(attested) ++ [(a.(attestation_id), a)]) s.(channel_messages).

(** Column updates of one run row. *)
Definition row_seq (n : nat) (r : run_row) : run_row :=
  mkRun r.(run_status) r.(owner_id) r.(owner_epoch) r.(lease_expires_at) n r.(cancel_flag)
    r.(row_manifest) r.(row_input_hash) r.(row_inputs) r.(row_origin).
Definition row_status (st : RunStatus) (r : run_row) : run_row :=
  mkRun st r.(owner_id) r.(owner_epoch) r.(lease_expires_at) r.(next_event_seq) r.(cancel_flag)
    r.(row_manifest) r.(row_input_hash) r.(row_inputs) r.(row_origin).
Definition row_owner (o : option string) (epoch : nat) (expires : option Z) (r : run_row) : run_row :=
  mkRun r.(run_status) o epoch expires r.(next_event_seq) r.(cancel_flag)
    r.(row_manifest) r.(row_input_hash) r.(row_inputs) r.(row_origin).
Definition row_cancel (r : run_row) : run_row :=
  mkRun r.(run_status) r.(owner_id) r.(owner_epoch) r.(lease_expires_at) r.(next_event_seq) true
    r.(row_manifest) r.(row_input_hash) r.(row_inputs) r.(row_origin).

(** ** The fence every writer re-proves *)
Definition run_events (s : store) (run : RunId) : list JournalEvent :=
  filter (λ e, e.(ev_run) = run) s.(events).
Definition seqs (s : store) (run : RunId) : list nat := ev_seq <$> run_events s run.
(** [COALESCE(MIN(seq), 0)] and [COALESCE(MAX(seq), 0)] *)
Definition min_seq (l : list nat) : nat :=
  match l with [] => O | x :: l => foldl Nat.min x l end.
Definition max_seq (l : list nat) : nat := foldl Nat.max O l.
Definition validated_event_fence (s : store) (run : RunId) (fence : nat) : result exn nat :=
  let l := seqs s run in
  let expected_minimum := if decide (fence = 0) then O else 1 in
  if decide (length l ≠ fence ∨ min_seq l ≠ expected_minimum ∨ max_seq l ≠ fence)
  then Raise (JournalDamaged (EventFence run)) else Ok fence.

(** The event at the fence, and whether a newer one exists. *)
Definition event_at (s : store) (run : RunId) (seq_ : nat) : option JournalEvent :=
  head (filter (λ e, e.(ev_seq) = seq_) (run_events s run)).
Definition has_newer_event (s : store) (run : RunId) (seq_ : nat) : bool :=
  existsb (λ n, seq_ <? n) (seqs s run).
Definition validated_run_lifecycle (s : store) (run : RunId) (r : run_row) :
    result exn (option (nat * string)) :=
  let broken := Raise (JournalDamaged (LifecycleDamage run)) in
  let newer := has_newer_event s run r.(next_event_seq) in
  let at_fence := event_at s run r.(next_event_seq) in
  match r.(run_status) with
  | PENDING =>
      if decide (r.(next_event_seq) ≠ 0) then broken
      else match at_fence with Some _ => broken | None => if newer then broken else Ok None end
  | status =>
      match at_fence with
      | None => broken
      | Some e =>
          if decide (e.(ev_seq) ≠ r.(next_event_seq)) then broken else if newer then broken else
          let lawful :=
            match status with
            | RUNNING =>
                (0 <? r.(next_event_seq))
                && bool_decide (e.(ev_kind) ∉ Dict.keys TERMINAL_EVENT_STATUSES)
            | _ => bool_decide (Dict.get status TERMINAL_STATUS_EVENTS = Some e.(ev_kind))
            end in
          if lawful then Ok (Some (e.(ev_seq), e.(ev_kind))) else broken
      end
  end.
Definition validated_run_fence (s : store) (run : RunId) (r : run_row) :
    result exn (option (nat * string)) :=
  _ ← validated_event_fence s run r.(next_event_seq);
  validated_run_lifecycle s run r.

(** One run's row, its world proven first. *)
Definition _run_mutation_row (run : RunId) : J (option run_row) :=
  let* s := get in
  match Dict.get run s.(runs) with
  | None => eret None
  | Some r => lift (validated_run_fence s run r);;; eret (Some r)
  end.

(** ** Allocation of event sequences: THE fence *)
Definition METERING_EVENT : string := "ExecutorMetering".

Definition holds (lease : RunLease) (r : run_row) : bool :=
  bool_decide (r.(owner_id) = Some lease.(lease_owner))
  && bool_decide (r.(owner_epoch) = lease.(epoch)).
Definition _allocate_seq (lease : RunLease) (expected : list RunStatus) : J nat :=
  let run := lease.(lease_run) in
  let* row := _run_mutation_row run in
  match row with
  | None => raise (OwnershipLost run)
  | Some r =>
      if decide (r.(run_status) ∉ expected) then raise (ContractViolation (EventStatus r.(run_status)))
      else if negb (holds lease r) then raise (OwnershipLost run)
      else
        let allocated := S r.(next_event_seq) in
        modify (set_run run (row_seq allocated r));;;
        eret allocated
  end.
Definition _insert_event (run : RunId) (seq_ : nat) (kind : string) (path : option ExecutionPath)
    (payload : option event_payload) : J JournalEvent :=
  if decide (kind = METERING_EVENT) then raise (ContractViolation MeteringNeedsItsWriter) else
  let e := mkEvent run seq_ kind path payload in
  modify (add_event e);;;
  eret e.

(** ** Runs *)
Definition _manifest_semantically_equal (left right : ExecutionManifest) : bool :=
  bool_decide (canonical_text (manifest_identity_payload left)
               = canonical_text (manifest_identity_payload right))
  && bool_decide (canonical_text (dump left.(source_graph)) = canonical_text (dump right.(source_graph)))
  && bool_decide (canonical_text (dump left.(resolved_loops)) = canonical_text (dump right.(resolved_loops)))
  && bool_decide (left.(manifest_hash) = right.(manifest_hash)).

(** [parse_manifest_json] of the text, and [digest("inputs", 1, inputs)]. *)
Definition create_run (run : RunId) (m : ExecutionManifest) (mhash ihash : Digest)
    (inputs : list (string * json)) (origin : option RunOrigin) : J unit :=
  let contradicts := raise (ContractViolation RunCreationContradicts) in
  match declared_version_check m, validated_manifest_identity m with
  | Ok _, Ok _ =>
      if decide (m.(manifest_hash) ≠ mhash ∨ m.(input_hash) ≠ ihash
                 ∨ digest_of "inputs" 1 (JObj inputs) ≠ ihash)
      then contradicts else
      _txn (
        let* s := get in
        match Dict.get mhash s.(manifests) with
        | None => modify (set_manifest mhash m)
        | Some stored =>
            if negb (_manifest_semantically_equal stored m)
            then raise (JournalDamaged (ManifestStoredDifferently mhash)) else eret tt
        end;;;
        match Dict.get run s.(runs) with
        | Some r =>
            if decide (r.(row_manifest) ≠ mhash ∨ r.(row_input_hash) ≠ ihash
                       ∨ canonical_text (JObj r.(row_inputs)) ≠ canonical_text (JObj inputs))
            then raise (CheckpointConflict run None)
            else if decide (r.(row_origin) ≠ origin) then raise (JournalDamaged (DifferentOrigin run))
            else eret tt
        | None =>
            modify (with_runs (λ runs, runs ++ [(run,
              mkRun PENDING None 0 None 0 false mhash ihash inputs origin)]))
        end)
  | _, _ => contradicts
  end.

Definition claim_run (run : RunId) (owner : string) (ttl : Z) (expected_seq : option nat)
    (expected : option (list RunStatus)) (now : Z) : J RunLease := _txn (
  let expires := (now + ttl)%Z in
  let* row := _run_mutation_row run in
  match row with
  | None => raise (ContractViolation (UnknownRun run))
  | Some r =>
      let superseded :=
        match expected_seq with Some n => negb (n =? r.(next_event_seq)) | None => false end
        || match expected with Some l => bool_decide (r.(run_status) ∉ l) | None => false end in
      if superseded then raise (RunAttemptSuperseded run)
      else if decide (r.(run_status) ∈ [SUCCEEDED; CANCELLED])
      then raise (ContractViolation (TerminallyDone r.(run_status)))
      else
        let free :=
          match r.(owner_id), r.(lease_expires_at) with
          | None, _ | _, None => true
          | Some _, Some t => (t <=? now)%Z
          end in
        if negb (bool_decide (r.(run_status) ∈ [PENDING; RUNNING; FAILED; PARKED]) && free)
        then raise (OwnershipLost run)
        else
          modify (set_run run (row_owner (Some owner) (S r.(owner_epoch)) (Some expires) r));;;
          eret (mkLease run owner (S r.(owner_epoch)) expires)
  end).
Definition heartbeat (lease : RunLease) (ttl now : Z) : J RunLease := _txn (
  let run := lease.(lease_run) in
  let expires := (now + ttl)%Z in
  let* row := _run_mutation_row run in
  match row with
  | None => raise (OwnershipLost run)
  | Some r =>
      if negb (holds lease r) then raise (OwnershipLost run) else
      modify (set_run run (row_owner r.(owner_id) r.(owner_epoch) (Some expires) r));;;
      eret (mkLease run lease.(lease_owner) lease.(epoch) expires)
  end).
Definition release_run (lease : RunLease) : J unit := _txn (
  let run := lease.(lease_run) in
  let* row := _run_mutation_row run in
  match row with
  | None => raise (OwnershipLost run)
  | Some r =>
      if negb (holds lease r) then raise (OwnershipLost run) else
      modify (set_run run (row_owner None r.(owner_epoch) None r))
  end).
Definition request_cancel (run : RunId) (lease : option RunLease) : J unit :=
  if match lease with Some l => bool_decide (l.(lease_run) ≠ run) | None => false end
  then raise (ContractViolation CancelOfOtherRun) else
  _txn (
    let* row := _run_mutation_row run in
    match row with
    | None => raise (ContractViolation (UnknownRun run))
    | Some r =>
        if match lease with Some l => negb (holds l r) | None => false end
        then raise (OwnershipLost run)
        else modify (set_run run (row_cancel r))
    end).
Definition cancel_requested (s : store) (run : RunId) : bool :=
  match Dict.get run s.(runs) with Some r => r.(cancel_flag) | None => false end.
Definition run_state (run : RunId) : J (option RunStatus) :=
  let* row := _run_mutation_row run in
  eret (run_status <$> row).

Definition leases_of (s : store) (run : RunId) : list CapabilityLease :=
  filter (λ l, l.(cl_run) = run) s.(capability_leases).
Definition active_leases (s : store) (run : RunId) : list CapabilityLease :=
  filter (λ l, l.(cl_state) = LeaseActive) (leases_of s run).
Definition transition_run (lease : RunLease) (expected : list RunStatus) (target : RunStatus)
    (kind : string) (payload : option event_payload) : J unit := _txn (
  let run := lease.(lease_run) in
  let* seq_ := _allocate_seq lease expected in
  let* s := get in
  let active := if bool_decide (target ∈ Dict.keys TERMINAL_STATUS_EVENTS)
                then active_leases s run else [] in
  if decide (active ≠ []) then raise (CleanupUnresolved run (length active)) else
  match Dict.get run s.(runs) with
  | None => raise (JournalDamaged (RunDisappeared run))
  | Some r =>
      if decide (r.(run_status) ∉ expected) then raise (ContractViolation (TransitionFound r.(run_status)))
      else
        modify (set_run run (row_status target r));;;
        _insert_event run seq_ kind None payload;;;
        eret tt
  end).
Definition append_event (lease : RunLease) (kind : string) (path : option ExecutionPath)
    (payload : option event_payload) : J JournalEvent := _txn (
  let* seq_ := _allocate_seq lease [RUNNING] in
  _insert_event lease.(lease_run) seq_ kind path payload).

(** ** Write-once completions *)
Definition _checkpoint_identity (c : Checkpoint) : Digest :=
  digest_of "checkpoint-identity" 1 (JObj [
    ("input_hash", JStr c.(cp_input_hash));
    ("resolved_version",
      match c.(cp_version) with
      | Some v => if decide (v = "") then JNull else JStr v
      | None => JNull
      end);
    ("outputs", JObj ((λ po, (po.1, po.2.(payload))) <$>
                        sorted_by String.leb fst c.(cp_outputs)))]).

(** The completion's row and the one event that proves it. *)
Definition stored_checkpoint_for (s : store) (run : RunId) (path : ExecutionPath) :
    result exn (option Checkpoint) :=
  let rows := filter (λ kc, kc.1 = (run, path)) s.(checkpoints) in
  let completions :=
    filter (λ e, e.(ev_kind) = "NodeCompleted" ∧ e.(ev_path) = Some path) (run_events s run) in
  if 1 <? length rows then Raise (JournalDamaged (DuplicateCompletion run path))
  else if 1 <? length completions then Raise (JournalDamaged (DuplicateCompletion run path))
  else match rows, completions with
       | [], [] => Ok None
       | (_, c) :: _, _ :: _ => Ok (Some c)
       | _, _ => Raise (JournalDamaged (CompletionDisagrees run path))
       end.
Definition checkpoint (run : RunId) (path : ExecutionPath) : J (option Checkpoint) :=
  let* s := get in
  lift (stored_checkpoint_for s run path).
Definition record_completion (lease : RunLease) (c : Checkpoint) : J unit :=
  if decide (c.(cp_run) ≠ lease.(lease_run))
  then raise (ContractViolation (CheckpointOfOtherRun c.(cp_run))) else
  let identity := _checkpoint_identity c in
  _txn (
    let* s := get in
    let* existing := lift (stored_checkpoint_for s c.(cp_run) c.(cp_path)) in
    match existing with
    | Some stored =>
        if decide (_checkpoint_identity stored = identity) then eret tt
        else raise (CheckpointConflict c.(cp_run) (Some c.(cp_path)))
    | None =>
        let* seq_ := _allocate_seq lease [RUNNING] in
        modify (add_checkpoint c);;;
        _insert_event c.(cp_run) seq_ "NodeCompleted" (Some c.(cp_path))
          (Some (PMembers [("input_hash", JStr c.(cp_input_hash))]));;;
        eret tt
    end).

(** ** Capability leases *)
Definition lease_id_for (run : RunId) (path : ExecutionPath) (b : string) : string :=
  "lease-" +:+ String.substring 7 32 (digest_of "capability-lease" 2 (JObj [
    ("run_id", JStr run); ("path", dump path); ("binding", JStr b)])).
Definition lease_row (s : store) (id : string) (ep : nat) : option CapabilityLease :=
  head (filter (λ l, l.(lease_id) = id ∧ l.(acquisition_epoch) = ep) s.(capability_leases)).
Definition lease_payload (l : CapabilityLease) : event_payload :=
  PMembers [("lease_id", JStr l.(lease_id)); ("acquisition_epoch", JInt (Z.of_nat l.(acquisition_epoch)));
            ("binding", JStr l.(binding_id)); ("resource_ref", dump l.(resource_ref))].
Definition record_capability_lease (lease : RunLease) (l : CapabilityLease) : J unit :=
  if decide (l.(cl_run) ≠ lease.(lease_run) ∨ l.(acquisition_epoch) ≠ lease.(epoch)
             ∨ l.(lease_id) ≠ lease_id_for l.(cl_run) l.(cl_path) l.(binding_id)
             ∨ l.(cl_state) ≠ LeaseActive ∨ l.(cl_disposition) ≠ None)
  then raise (ContractViolation (LeaseContradicts l.(lease_id))) else
  _txn (
    let* row := _run_mutation_row lease.(lease_run) in
    match row with
    | None => raise (ContractViolation NoRetainedRun)
    | Some _ =>
        let* s := get in
        match lease_row s l.(lease_id) l.(acquisition_epoch) with
        | Some stored =>
            if decide (stored = l) then eret tt
            else raise (CheckpointConflict lease.(lease_run) (Some l.(cl_path)))
        | None =>
            let* seq_ := _allocate_seq lease [RUNNING] in
            modify (λ s, set_leases (s.(capability_leases) ++ [l]) s);;;
            _insert_event lease.(lease_run) seq_ "LeaseAcquired" None (Some (lease_payload l));;;
            eret tt
        end
    end).
Definition lease_at (target : lease_state) (d : option disposition) (l : CapabilityLease) : CapabilityLease :=
  mkCapabilityLease l.(lease_id) l.(acquisition_epoch) l.(cl_run) l.(binding_id) l.(cl_path)
    target d l.(resource_ref).
Definition state_value (st : lease_state) : string :=
  match st with LeaseActive => "active" | LeaseClosed => "closed" | LeaseLost => "lost" end.
Definition disposition_value (d : disposition) : string :=
  match d with Released => "released" | Discarded => "discarded" end.
Definition transition_capability_lease (lease : RunLease) (id : string) (ep : nat)
    (expected : list lease_state) (target : lease_state) (d : option disposition) : J unit := _txn (
  let* s := get in
  match lease_row s id ep with
  | None => raise (ContractViolation (LeaseNotRecorded id))
  | Some stored =>
      if decide (stored.(cl_run) ≠ lease.(lease_run)) then raise (JournalDamaged (LeaseOfOtherRun id))
      else if decide (stored.(cl_state) = target ∧ stored.(cl_disposition) = d) then eret tt
      else if decide (target = LeaseLost) then raise (ContractViolation LostAccounting)
      else if decide (stored.(cl_state) = LeaseLost ∧ (id, ep) ∈ s.(disposed))
      then raise (ContractViolation DisposedPair)
      else if decide (stored.(cl_state) = LeaseLost ∧ target = LeaseActive)
      then raise (ContractViolation LostAccounting)
      else if decide (stored.(cl_state) ∉ expected) then raise (ContractViolation (LeaseStateFound id))
      else
        let* seq_ := _allocate_seq lease [RUNNING] in
        modify (λ s, set_leases
          ((λ l, if decide (l.(lease_id) = id ∧ l.(acquisition_epoch) = ep)
                 then lease_at target d l else l) <$> s.(capability_leases)) s);;;
        _insert_event lease.(lease_run) seq_ "LeaseTransition" None
          (Some (PMembers [("lease_id", JStr id); ("acquisition_epoch", JInt (Z.of_nat ep));
             ("from", JStr (state_value stored.(cl_state))); ("to", JStr (state_value target));
             ("disposition", match d with Some d => JStr (disposition_value d) | None => JNull end)]));;;
        eret tt
  end).
Definition run_capability_leases (run : RunId) : J (list CapabilityLease) :=
  let* s := get in
  _run_mutation_row run;;;
  eret (leases_of s run).

(** ** Reads *)
Definition run_manifest_hash (run : RunId) : J (option Digest) :=
  let* row := _run_mutation_row run in eret (row_manifest <$> row).
Definition run_inputs (run : RunId) : J (option (list (string * json))) :=
  let* row := _run_mutation_row run in eret (row_inputs <$> row).
Definition run_origin (run : RunId) : J (option RunOrigin) :=
  let* row := _run_mutation_row run in eret (row ≫= row_origin).
Definition load_manifest_json (hash : Digest) : J (option ExecutionManifest) :=
  let* s := get in eret (Dict.get hash s.(manifests)).
Definition events_after (run : RunId) (after_seq limit : nat) : J (list JournalEvent) :=
  let* row := _run_mutation_row run in
  match row with
  | None => eret []
  | Some _ =>
      let* s := get in
      eret (take limit (filter (λ e, after_seq < e.(ev_seq)) (run_events s run)))
  end.
