(* ===== verification/EffectStore.v ===== *)
(** The effect facts and attestations of the durable store
    ([src/constructicon/substrate/journal/_sqlite_execution.py],
    [_sqlite_attestations.py]): proofs minted once under a content-derived
    identity, effects prepared once under an idempotency key and closed by one
    receipt with its event.

    Rows of the historical eras, which no current writer makes, are not
    modelled. *)

From S2P Require Import Prelude Identity Address Capability Message Run Effect Journal.

(** ** Attestations *)

(** The identity law under which the stored proof was minted. *)
Definition attestation_sound (a : Attestation) : bool :=
  match a.(created_by_run) with
  | Some run => bool_decide (a.(attestation_id) = attestation_id_for_run a.(att_draft) run)
  | None => bool_decide (a.(attestation_id) = attestation_id_for a.(att_draft))
            && bool_decide (a.(att_draft).(dr_action) = ActionPromote)
            && match a.(att_draft).(dr_subject) with SubjectComponent _ => true | _ => false end
  end.
Definition stored_attestation_for_id (s : store) (id : string) : result exn (option Attestation) :=
  match filter (λ ka : string * Attestation, ka.1 = id ∨ ka.2.(attestation_id) = id) s.(attested) with
  | [] => Ok None
  | [(key, a)] =>
      if decide (key = id ∧ a.(attestation_id) = id ∧ attestation_sound a = true) then Ok (Some a)
      else Raise (JournalDamaged (AttestationDamaged id))
  | _ => Raise (JournalDamaged (AttestationSelectors id))
  end.
Definition load_attestation (id : string) : J (option Attestation) :=
  let* s := get in lift (stored_attestation_for_id s id).

Fixpoint prior_mint (s : store) (d : AttestationDraft) (creator : option RunId) (ids : list string) :
    result exn (option Attestation) :=
  match ids with
  | [] => Ok None
  | id :: ids =>
      stored ← stored_attestation_for_id s id;
      match stored with
      | None => prior_mint s d creator ids
      | Some proof =>
          if decide (proof.(att_draft) ≠ d) then Raise (JournalDamaged (AttestationDiffers id))
          else if decide (proof.(created_by_run) = creator) then Ok (Some proof)
          else if decide (id ≠ attestation_id_for d) then Raise (JournalDamaged (AttestationCreator id))
          else prior_mint s d creator ids
      end
  end.
Definition _stored_attestation_for_draft (s : store) (d : AttestationDraft) (creator : option RunId) :
    result exn (option Attestation) :=
  prior_mint s d creator
    (match creator with
     | None => [attestation_id_for d]
     | Some run => [attestation_id_for_run d run; attestation_id_for d]
     end).
Definition _insert_attestation (a : Attestation) : J unit :=
  let* s := get in
  let* prior := lift (stored_attestation_for_id s a.(attestation_id)) in
  match prior with
  | Some p =>
      if decide (mkAttestation p.(attestation_id) p.(att_draft) p.(created_by_run) a.(att_created) = a)
      then eret tt else raise (JournalDamaged (AttestationDiffers a.(attestation_id)))
  | None => modify (add_attestation a)
  end.
Definition mint_once (d : AttestationDraft) (creator : option RunId) (id now : string) : J Attestation :=
  let* s := get in
  let* stored := lift (_stored_attestation_for_draft s d creator) in
  match stored with
  | Some a => eret a
  | None => let a := mkAttestation id d creator now in _insert_attestation a;;; eret a
  end.
Definition mint_attestation (lease : RunLease) (d : AttestationDraft) (now : string) : J Attestation := _txn (
  let run := lease.(lease_run) in
  let* row := _run_mutation_row run in
  match row with
  | None => raise (OwnershipLost run)
  | Some r =>
      if negb (holds lease r) then raise (OwnershipLost run)
      else if decide (d.(dr_manifest) ≠ r.(row_manifest)) then
        raise (ContractViolation (AttestationOtherManifest run))
      else if bool_decide (d.(dr_action) = ActionSend)
              && negb match d.(dr_subject) with SubjectSend s => bool_decide (s.(send_run) = run) | _ => false end
      then raise (ContractViolation (SendNamesOtherRun run))
      else mint_once d (Some run) (attestation_id_for_run d run) now
  end).
Definition mint_policy_attestation (d : AttestationDraft) (now : string) : J Attestation :=
  if negb (bool_decide (d.(dr_action) = ActionPromote)
           && match d.(dr_subject) with SubjectComponent _ => true | _ => false end)
  then raise (ContractViolation PolicyPromotesOnly)
  else _txn (mint_once d None (attestation_id_for d) now).

(** ** Effects *)
Definition _effect_request_key (r : EffectRequest) : Digest :=
  idempotency_key r.(rq_manifest) r.(rq_path) r.(rq_kind) r.(rq_subject) r.(rq_mode).
Definition _effect_event_kind (r : EffectReceipt) : string :=
  match r.(rc_status) with
  | Committed => "EffectCommitted" | Rejected => "EffectRejected"
  | Simulated => "EffectSimulated" | Unknown => "EffectUnresolved"
  end.
Definition RECONCILED : string := "EffectReconciled".
Definition outcome_kinds (r : EffectReceipt) : list string := [_effect_event_kind r; RECONCILED].
Definition _effect_outcome_payload (q : EffectRequest) (r : EffectReceipt) : list (string * json) :=
  [("kind", JStr q.(rq_kind)); ("idempotency_key", JStr q.(rq_key));
   ("request_hash", JStr (request_hash q)); ("receipt_hash", JStr (effect_receipt_hash r))].
(** [_effect_key_from_event_payload] *)
Definition payload_key (p : option event_payload) : option Digest :=
  match p with
  | Some (PMembers members) =>
      match Dict.get "idempotency_key" members with
      | Some (JStr key) => if is_ok (Digest_well_formed key) then Some key else None
      | _ => None
      end
  | _ => None
  end.
Definition _effect_event_rows (s : store) (key : Digest) : list JournalEvent :=
  filter (λ e, payload_key e.(ev_payload) = Some key) s.(events).
Definition _effect_row (s : store) (key : Digest) : result exn (option (Digest * effect_row)) :=
  match filter (λ kr : Digest * effect_row, kr.1 = key ∨ kr.2.(ef_request).(rq_key) = key) s.(effects) with
  | [] => if decide (_effect_event_rows s key = []) then Ok None
          else Raise (JournalDamaged (OutcomeWithoutRow key))
  | [row] => Ok (Some row)
  | _ => Raise (JournalDamaged (EffectSelectors key))
  end.
Definition _effect_receipt_from_row (key : Digest) (q : EffectRequest) (r : EffectReceipt) :
    result exn EffectReceipt :=
  if decide (r.(rc_request) ≠ request_hash q) then Raise (JournalDamaged (EffectRowDamaged key)) else Ok r.
(** The row is prepared without an outcome event, or closed by exactly one. *)
Definition _validate_effect_lifecycle (s : store) (key : Digest) (row : effect_row) : result exn () :=
  let broken := Raise (JournalDamaged (EffectLifecycle key)) in
  match row.(ef_receipt), _effect_event_rows s key with
  | None, [] => Ok tt
  | None, _ => broken
  | Some (receipt, run, seq_), [e] =>
      match event_at s run seq_ with
      | Some e' =>
          if decide (e.(ev_run) = e'.(ev_run) ∧ e.(ev_seq) = e'.(ev_seq)
                     ∧ e'.(ev_kind) ∈ outcome_kinds receipt ∧ e'.(ev_path) = Some row.(ef_request).(rq_path))
          then
            if match e'.(ev_payload) with
               | Some (PMembers ms) =>
                   bool_decide (canonical_text (JObj ms)
                                = canonical_text (JObj (_effect_outcome_payload row.(ef_request) receipt)))
               | _ => false
               end then Ok tt else broken
          else broken
      | None => broken
      end
  | Some _, _ => broken
  end.
Definition _effect_request_from_row (s : store) (key : Digest) (row : effect_row) : result exn EffectRequest :=
  let q := row.(ef_request) in
  let invalid := Raise (JournalDamaged (EffectRowDamaged key)) in
  match Dict.get row.(ef_run) s.(runs) with
  | None => invalid
  | Some r =>
      _ ← validated_run_fence s row.(ef_run) r;
      (* [stored_effect_request] decodes the row's text, which is JSON *)
      if decide (json_ok (JObj q.(rq_subject)) = false ∨ q.(rq_run) ≠ row.(ef_run) ∨ q.(rq_manifest) ≠ r.(row_manifest)
                 ∨ q.(rq_key) ≠ key ∨ q.(rq_key) ≠ _effect_request_key q) then invalid else
      known ← match q.(rq_attestation) with
              | None => Ok true
              | Some id => a ← stored_attestation_for_id s id; Ok (bool_decide (is_Some a))
              end;
      if negb known then invalid else
      _ ← match row.(ef_receipt) with
          | None => Ok tt
          | Some (receipt, _, _) => _ ← _effect_receipt_from_row key q receipt; Ok tt
          end;
      _ ← _validate_effect_lifecycle s key row;
      Ok q
  end.
Definition receipt_of (s : store) (key : Digest) : result exn (option EffectReceipt) :=
  found ← _effect_row s key;
  match found with
  | None => Ok None
  | Some (k, row) =>
      q ← _effect_request_from_row s k row;
      if decide (q.(rq_key) ≠ key) then Raise (JournalDamaged (EffectRowDamaged key)) else
      match row.(ef_receipt) with
      | None => Ok None
      | Some (receipt, _, _) => r ← _effect_receipt_from_row k q receipt; Ok (Some r)
      end
  end.
Definition receipt_for (key : Digest) : J (option EffectReceipt) :=
  let* s := get in lift (receipt_of s key).

Definition CHANNEL_SEND_EFFECT : string := "channel_send".
Definition _require_no_channel_send_fact (s : store) (q : EffectRequest) : result exn () :=
  if decide (q.(rq_kind) ≠ CHANNEL_SEND_EFFECT) then Ok tt else
  match parse_intent q.(rq_subject) with
  | None => Raise (ContractViolation NoExactIntent)
  | Some i =>
      if decide (i.(in_message_id) ∈ s.(channel_messages))
      then Raise (JournalDamaged (MessageWithoutPreparation q.(rq_key))) else Ok tt
  end.
(** Prepare one global key; its first exact request is the one returned. *)
Definition record_effect_prepared (lease : RunLease) (q : EffectRequest) : J EffectRequest :=
  let run := lease.(lease_run) in
  if decide (q.(rq_run) ≠ run ∨ q.(rq_key) ≠ _effect_request_key q)
  then raise (ContractViolation (EffectContradicts q.(rq_key))) else
  _txn (
    let* row := _run_mutation_row run in
    match row with
    | None => raise (OwnershipLost run)
    | Some r =>
        if negb (holds lease r) then raise (OwnershipLost run)
        else if decide (q.(rq_manifest) ≠ r.(row_manifest))
        then raise (ContractViolation (EffectOtherManifest q.(rq_key)))
        else
          let* s := get in
          let* existing := lift (_effect_row s q.(rq_key)) in
          match existing with
          | Some (k, row) => lift (_effect_request_from_row s k row)
          | None =>
              lift (_require_no_channel_send_fact s q);;;
              let prepared := mkEffect run q None in
              modify (set_effect q.(rq_key) prepared);;;
              let* s := get in
              lift (_effect_request_from_row s q.(rq_key) prepared)
          end
    end).

Inductive outcome_disposition := Recorded | AlreadyRecorded.
Definition record_effect_outcome (lease : RunLease) (q : EffectRequest) (receipt : EffectReceipt)
    (kind : string) : J outcome_disposition :=
  if decide (q.(rq_key) ≠ _effect_request_key q ∨ receipt.(rc_request) ≠ request_hash q)
  then raise (ContractViolation (OutcomeContradicts q.(rq_key)))
  else if decide (kind ∉ outcome_kinds receipt) then raise (ContractViolation (OutcomeKind q.(rq_key))) else
  _txn (
    let* s := get in
    let* existing := lift (_effect_row s q.(rq_key)) in
    match existing with
    | None => raise (JournalDamaged (NoPreparation q.(rq_key)))
    | Some (k, row) =>
        let* stored := lift (_effect_request_from_row s k row) in
        if negb (same_request stored q) then raise (JournalDamaged (OutcomeOtherPreparation q.(rq_key))) else
        match row.(ef_receipt) with
        | Some (prior, _, _) =>
            let* prior := lift (_effect_receipt_from_row k stored prior) in
            if same_receipt prior receipt then eret AlreadyRecorded
            else raise (JournalDamaged (DifferentReceipt q.(rq_key)))
        | None =>
            let* seq_ := _allocate_seq lease [RUNNING] in
            modify (set_effect q.(rq_key) (mkEffect row.(ef_run) row.(ef_request)
                      (Some (receipt, lease.(lease_run), seq_))));;;
            _insert_event lease.(lease_run) seq_ kind (Some q.(rq_path))
              (Some (PMembers (_effect_outcome_payload q receipt)));;;
            eret Recorded
        end
    end).
