(* ===== verification/RegistryStore.v ===== *)
(** The durable registry
    ([src/constructicon/substrate/journal/_sqlite_registry.py]): component
    registrations and promotions as two append-only sequences, and the exact
    snapshot of any cut of them.

    A public method is one transaction. Rows of the eras before the current
    writer, the seals a writer puts beside each row and the re-reading of what
    it has just inserted only detect edits made behind the program's back, which
    no call here can make; they are not modelled. *)

From S2P Require Import Prelude Identity Address Component Manifest Run Effect Journal EffectStore.

(** ** Errors *)
Inductive registry_damage :=
| SequenceIncomplete (table : string)
| ComponentRowDamaged (name version : string)
| ComponentSelectors (name version : string)
| ComponentStoredDifferently (name version : string)
| PromotionRowDamaged (attestation : string)
| PromotionSelectors (attestation : string)
| PromotionWithoutAuthority (attestation : string)
| PromotionContradictsAuthority (attestation : string) (faults : list promotion_fault)
| PromotionContradictory (attestation : string)
| PromotionEndpoint (attestation : string)
| CutEndpoints
| CutDiscontinuous
| SemanticIdentities (component : string) (identities : list string)
| IdentityCollision (component version : string)
| PlannedContradicts (component version : string)
| PlannedDisappeared
| PlannedNotProduced
| RollbackProofContradicts.
Inductive loadability_status :=
| Loadable | MissingModule | MissingQualname | NotCallable | ImplementationDrift
| SourceUnavailable | Composite.
#[export] Instance loadability_status_eq_dec : EqDecision loadability_status.
Proof. solve_decision. Defined.
Inductive admission_refusal :=
| StableMoved (component : string) (expected found : option string)
| SchemaFaults (f : schema_fault)
| LocalClosure (component qualname : string)
| ContractHashDiffers (component : string)
| DuplicateAliases (component : string) (aliases : list string)
| EmptyRequirement (component : string)
| SourceUnreadable (component : string)
| SourceDigestRequired (component : string) (observed : Digest)
| DriftAtRegistration (component : string) (declared observed : Digest)
| NotInRegistry (scope : ScopePath) (component version : string)
| NotExecutable (scope : ScopePath) (component : string) (status : loadability_status)
| ManifestDigestDiffers (scope : ScopePath) (installed : option Digest) (sealed : Digest)
| NotAssembled (scope : ScopePath) (capability : string)
| RevisionDiffers (scope : ScopePath) (capability assembled admitted : string)
| ChannelShapeDiffers (scope : ScopePath) (capability : string)
| EndpointDiffers (scope : ScopePath) (capability : string)
| AttestationElsewhere (attestation : string)
| NotJournalMinted (component attestation : string)
| PromotionFault (f : promotion_fault)
| SourceRunDiffers (given created : option RunId)
| AlreadyStable (component : string) (stable : Digest)
| UnexpectedStable (component : string) (expected : Digest) (found : option Digest).
Inductive rexn :=
| JournalRaised (e : exn)
| RegistryDamaged (why : registry_damage)
| InvalidRegistryRevision (why : option registry_damage)
| AdmissionRefused (faults : list admission_refusal)
| RollbackProofConsumed (component : string)
(* RegistryError *)
| CompositeWithImplementation (component : string)
| CompositeWithRequirements (component : string)
| BoundaryNotExported (component : string)
| MainModule (component : string)
| NotColdImportable (component : string) (status : loadability_status)
| ImplementationNotTarget (component : string)
| NoSuchVersion (component version : string)
| NothingStable (component : string)
| NothingEarlier (component : string)
| NoRetainedTarget (component version : string)
(* the model of [Digest(value)] on a value that is none *)
| BadDigest (e : value_error)
(* a key the dicts of a store always hold together *)
| MissingKey (name key : string)
(* [rdeps] *)
| SnapshotAndRevision.

(** ** State *)
Record component_row := mkComponentRow {
  cr_seq : N;
  cr_name : string;
  cr_hash : string;
  cr_definition : ComponentDef;
  cr_registered_at : string;
}.
Record promotion_row := mkPromotionRow { pr_seq : N; pr_record : PromotionRecord }.
#[export] Instance promotion_row_eq_dec : EqDecision promotion_row.
Proof. solve_decision. Defined.
(** The registry shares its database with the journal: it reads the
    attestations the journal minted. *)
Record registry := mkRegistry {
  reg_journal : store;
  component_rows : list component_row;
  promotion_rows : list promotion_row;
}.
Definition new_registry : registry := mkRegistry new_store [] [].

Definition R := eff registry rexn.
Definition reg_txn {A} (m : R A) : R A := λ s,
  match m s with (Ok a, s') => (Ok a, s') | (Raise e, _) => (Raise e, s) end.
(** A call of the journal, in its own transaction. *)
Definition on_journal {A} (m : J A) : R A := λ s,
  let '(r, j) := m s.(reg_journal) in
  (match r with Ok a => Ok a | Raise e => Raise (JournalRaised e) end,
   mkRegistry j s.(component_rows) s.(promotion_rows)).
Definition damaged {A} (why : registry_damage) : result rexn A := Raise (RegistryDamaged why).

(** ** Rows *)

(** The bound of an append-only sequence: positive, and as many rows as its
    maximum. *)
Definition _registry_sequence_max (table : string) (seqs : list N) : result rexn N :=
  let maximum := foldl N.max 0%N seqs in
  if existsb (λ n, bool_decide (n = 0%N)) seqs then damaged (SequenceIncomplete table)
  else if decide (N.of_nat (length seqs) ≠ maximum) then damaged (SequenceIncomplete table)
  else Ok maximum.
Definition registrations (s : registry) : result rexn N :=
  _registry_sequence_max "components" (cr_seq <$> s.(component_rows)).
Definition promotions (s : registry) : result rexn N :=
  _registry_sequence_max "promotions" (pr_seq <$> s.(promotion_rows)).
Definition _current_registry_revision (s : registry) : result rexn RegistryRevision :=
  r ← registrations s; p ← promotions s; Ok (mkRevision r p).

Definition _stored_version_from_row (row : component_row) : result rexn StoredVersion :=
  if decide (row.(cr_seq) = 0%N ∨ row.(cr_definition).(def_name) ≠ row.(cr_name)
             ∨ content_hash row.(cr_definition) ≠ row.(cr_hash)
             ∨ is_ok (Digest_well_formed row.(cr_hash)) = false)
  then damaged (ComponentRowDamaged row.(cr_name) row.(cr_hash))
  else Ok (mkStored row.(cr_definition) row.(cr_hash) row.(cr_registered_at)).
(** Selected by the relational identity or by the one its definition derives. *)
Definition component_selected (name hash : string) (row : component_row) : Prop :=
  (row.(cr_name) = name ∧ row.(cr_hash) = hash)
  ∨ (row.(cr_definition).(def_name) = name ∧ content_hash row.(cr_definition) = hash).
#[export] Instance component_selected_dec name hash row : Decision (component_selected name hash row).
Proof. unfold component_selected. apply _. Defined.
Definition _component_row_for_version (s : registry) (name hash : string) :
    result rexn (option component_row) :=
  match filter (component_selected name hash) s.(component_rows) with
  | [] => Ok None
  | [row] =>
      stored ← _stored_version_from_row row;
      if decide (stored.(definition).(def_name) ≠ name ∨ stored.(stored_hash) ≠ hash)
      then damaged (ComponentRowDamaged name hash) else Ok (Some row)
  | _ => damaged (ComponentSelectors name hash)
  end.

(** Binds a receipt to the very edge the journal-minted proof evaluated. *)
Definition lift_journal {A} (r : result exn A) : result rexn A :=
  match r with Ok a => Ok a | Raise e => Raise (JournalRaised e) end.
Definition _validate_promotion_authority (s : registry) (p : PromotionRecord) : result rexn () :=
  stored ← lift_journal (stored_attestation_for_id s.(reg_journal) p.(Component.attestation_id));
  match stored with
  | None => damaged (PromotionWithoutAuthority p.(Component.attestation_id))
  | Some a =>
      match promotion_attestation_faults a p.(promoted) p.(to_version) p.(from_version)
              p.(Component.source_run) with
      | [] => Ok tt
      | faults => damaged (PromotionContradictsAuthority p.(Component.attestation_id) faults)
      end
  end.
Definition _promotion_from_row (s : registry) (row : promotion_row) : result rexn PromotionRecord :=
  let p := row.(pr_record) in
  let bad_digest (d : string) := negb (is_ok (Digest_well_formed d)) in
  if bool_decide (row.(pr_seq) = 0%N) || bad_digest p.(to_version)
     || match p.(from_version) with Some d => bad_digest d | None => false end
  then damaged (PromotionRowDamaged p.(Component.attestation_id))
  else _ ← _validate_promotion_authority s p; Ok p.
Definition _promotion_row_for_attestation (s : registry) (id : string) :
    result rexn (option promotion_row) :=
  match filter (λ row, row.(pr_record).(Component.attestation_id) = id) s.(promotion_rows) with
  | [] => Ok None
  | [row] => _ ← _promotion_from_row s row; Ok (Some row)
  | _ => damaged (PromotionSelectors id)
  end.

(** ** Snapshots *)
Definition cut_components : Type := gmap string (gmap string StoredVersion) * gmap string (list string).
Definition cut_component (acc : cut_components) (v : StoredVersion) : cut_components :=
  let name := v.(definition).(def_name) in
  (<[name := <[v.(stored_hash) := v]> (default ∅ (acc.1 !! name))]> acc.1,
   <[name := default [] (acc.2 !! name) ++ [v.(stored_hash)]]> acc.2).
Fixpoint project_components (rows : list component_row) (acc : cut_components) :
    result rexn cut_components :=
  match rows with
  | [] => Ok acc
  | row :: rows => v ← _stored_version_from_row row; project_components rows (cut_component acc v)
  end.
Definition cut_pointers : Type := gmap string string * gmap string (list (option string * string)).
Definition retained (versions : gmap string (gmap string StoredVersion)) (component hash : string) : bool :=
  bool_decide (is_Some (versions !! component ≫= λ by_hash, by_hash !! hash)).
Definition move_pointer (acc : cut_pointers) (p : PromotionRecord) : cut_pointers :=
  (<[p.(promoted) := p.(to_version)]> acc.1,
   <[p.(promoted) := default [] (acc.2 !! p.(promoted)) ++ [(p.(from_version), p.(to_version))]]> acc.2).
Fixpoint project_promotions (s : registry) (incoherence : registry_damage → rexn)
    (versions : gmap string (gmap string StoredVersion)) (rows : list promotion_row)
    (acc : cut_pointers) : result rexn cut_pointers :=
  match rows with
  | [] => Ok acc
  | row :: rows =>
      p ← _promotion_from_row s row;
      if negb (retained versions p.(promoted) p.(to_version))
         || match p.(from_version) with
            | Some before => negb (retained versions p.(promoted) before)
            | None => false
            end
      then Raise (incoherence CutEndpoints)
      else if decide (acc.1 !! p.(promoted) ≠ p.(from_version)) then Raise (incoherence CutDiscontinuous)
      else project_promotions s incoherence versions rows (move_pointer acc p)
  end.
Definition _registry_snapshot_at_revision (s : registry) (r : RegistryRevision)
    (incoherence : registry_damage → rexn) : result rexn RegistrySnapshot :=
  '(versions, order) ← project_components
    (filter (λ row, (row.(cr_seq) ≤ r.(registration_seq))%N) s.(component_rows)) (∅, ∅);
  '(stable, history) ← project_promotions s incoherence versions
    (filter (λ row, (row.(pr_seq) ≤ r.(promotion_seq))%N) s.(promotion_rows)) (∅, ∅);
  Ok (mkSnapshot r versions order stable history).
Definition snapshot_of (s : registry) (revision : option RegistryRevision) : result rexn RegistrySnapshot :=
  current ← _current_registry_revision s;
  let selected := default current revision in
  if decide ((current.(registration_seq) < selected.(registration_seq))%N
             ∨ (current.(promotion_seq) < selected.(promotion_seq))%N)
  then Raise (InvalidRegistryRevision None)
  else _registry_snapshot_at_revision s selected
         (match revision with
          | Some _ => λ why, InvalidRegistryRevision (Some why)
          | None => RegistryDamaged
          end).
Definition snapshot (revision : option RegistryRevision) : R RegistrySnapshot :=
  let* s := get in lift (snapshot_of s revision).

(** ** Writes *)
Definition add_component (row : component_row) (s : registry) : registry :=
  mkRegistry s.(reg_journal) (s.(component_rows) ++ [row]) s.(promotion_rows).
Definition add_promotion (row : promotion_row) (s : registry) : registry :=
  mkRegistry s.(reg_journal) s.(component_rows) (s.(promotion_rows) ++ [row]).

Definition store_version (v : StoredVersion) : R unit := reg_txn (
  let* s := get in
  let* count := lift (registrations s) in
  let* _ := lift (promotions s) in
  let name := v.(definition).(def_name) in
  let* existing := lift (_component_row_for_version s name v.(stored_hash)) in
  match existing with
  | Some row =>
      let* found := lift (_stored_version_from_row row) in
      if same_definition found.(definition) v.(definition) then eret tt
      else raise (RegistryDamaged (ComponentStoredDifferently name v.(stored_hash)))
  | None =>
      let row := mkComponentRow (count + 1) name v.(stored_hash) v.(definition) v.(registered_at) in
      let* _ := lift (_stored_version_from_row row) in
      modify (add_component row)
  end).

Definition current_promotion (s : registry) (component : string) : option promotion_row :=
  last (filter (λ row, row.(pr_record).(promoted) = component) s.(promotion_rows)).
Definition store_promotion (record : PromotionRecord) : R PromotionRecord := reg_txn (
  let id := record.(Component.attestation_id) in
  let component := record.(promoted) in
  let* s := get in
  let* _ := lift (registrations s) in
  let* count := lift (promotions s) in
  let* prior := lift (_promotion_row_for_attestation s id) in
  match prior with
  | Some row =>
      let* existing := lift (_promotion_from_row s row) in
      if same_identity_as existing record then eret existing
      else raise (RegistryDamaged (PromotionContradictory id))
  | None =>
      lift (_validate_promotion_authority s record);;;
      let* target := lift (_component_row_for_version s component record.(to_version)) in
      let* baseline :=
        match target, record.(from_version) with
        | Some _, Some before => lift (_component_row_for_version s component before)
        | _, _ => eret target
        end in
      match target, baseline with
      | Some _, Some _ =>
          let* current :=
            match current_promotion s component with
            | Some row => let* p := lift (_promotion_from_row s row) in eret (Some p.(to_version))
            | None => eret None
            end in
          if decide (current ≠ record.(from_version)) then
            raise (AdmissionRefused [StableMoved component record.(from_version) current])
          else
            let row := mkPromotionRow (count + 1) record in
            let* _ := lift (_promotion_from_row s row) in
            modify (add_promotion row);;;
            eret record
      | _, _ => raise (RegistryDamaged (PromotionEndpoint id))
      end
  end).

Definition promotion_for_attestation (id : string) : R (option PromotionRecord) :=
  let* s := get in
  let* _ := lift (registrations s) in
  let* _ := lift (promotions s) in
  let* row := lift (_promotion_row_for_attestation s id) in
  match row with
  | None => eret None
  | Some row => let* p := lift (_promotion_from_row s row) in eret (Some p)
  end.
