(* ===== verification/JournalSpec.v ===== *)
(** What the execution store promises: it never damages itself, a stale owner
    writes nothing, completions are write-once and finished runs are final. *)

From S2P Require Import Prelude Identity Address Graph Capability Manifest Message Run Effect Journal EffectStore.

(** ** Operations of any worker, client or host *)
Inductive jcall :=
| JCreate (run : RunId) (m : ExecutionManifest) (mhash ihash : Digest) (inputs : list (string * json))
    (origin : option RunOrigin)
| JClaim (run : RunId) (owner : string) (ttl : Z) (seq_ : option nat)
    (expected : option (list RunStatus)) (now : Z)
| JHeartbeat (lease : RunLease) (ttl now : Z)
| JRelease (lease : RunLease)
| JCancel (run : RunId) (lease : option RunLease)
| JTransition (lease : RunLease) (expected : list RunStatus) (target : RunStatus) (kind : string)
    (p : option event_payload)
| JAppend (lease : RunLease) (kind : string) (path : option ExecutionPath) (p : option event_payload)
| JComplete (lease : RunLease) (c : Checkpoint)
| JLease (lease : RunLease) (l : CapabilityLease)
| JLeaseTransition (lease : RunLease) (id : string) (ep : nat) (expected : list lease_state)
    (target : lease_state) (d : option disposition)
| JMint (lease : RunLease) (d : AttestationDraft) (now : string)
| JMintPolicy (d : AttestationDraft) (now : string)
| JPrepare (lease : RunLease) (q : EffectRequest)
| JOutcome (lease : RunLease) (q : EffectRequest) (receipt : EffectReceipt) (kind : string).
Definition unit_of {A} (m : J A) : J unit := let* _ := m in eret tt.
Definition run_jcall (c : jcall) : J unit :=
  match c with
  | JCreate run m mh ih inputs o => create_run run m mh ih inputs o
  | JClaim run owner ttl n st now => unit_of (claim_run run owner ttl n st now)
  | JHeartbeat l ttl now => unit_of (heartbeat l ttl now)
  | JRelease l => release_run l
  | JCancel run l => request_cancel run l
  | JTransition l ex t k p => transition_run l ex t k p
  | JAppend l k path p => unit_of (append_event l k path p)
  | JComplete l c => record_completion l c
  | JLease l cl => record_capability_lease l cl
  | JLeaseTransition l id ep ex t d => transition_capability_lease l id ep ex t d
  | JMint l d now => unit_of (mint_attestation l d now)
  | JMintPolicy d now => unit_of (mint_policy_attestation d now)
  | JPrepare l q => unit_of (record_effect_prepared l q)
  | JOutcome l q receipt kind => unit_of (record_effect_outcome l q receipt kind)
  end.
Definition run_jcalls (cs : list jcall) (s : store) : store := foldl (λ s c, (run_jcall c s).2) s cs.

(** The kinds only the store itself or a transition to that status may write. *)
Definition reserved (kind : string) : bool :=
  bool_decide (kind = "NodeCompleted" ∨ kind ∈ Dict.keys TERMINAL_EVENT_STATUSES).
(** What every caller in the program does: statuses move out of the four live
    statuses, a status comes with its own event, no other event uses a
    reserved kind or names an effect, and the request an outcome answers is the
    one [record_effect_prepared] read back, a JSON text. *)
Definition unkeyed (p : option event_payload) : bool := bool_decide (payload_key p = None).
Definition lawful (c : jcall) : bool :=
  match c with
  | JTransition _ expected target kind p =>
      unkeyed p
      && (forallb (λ st, bool_decide (st ∈ [PENDING; RUNNING; FAILED; PARKED])) expected
      && match target with
         | PENDING => false
         | RUNNING => negb (reserved kind)
         | _ => bool_decide (Dict.get target TERMINAL_STATUS_EVENTS = Some kind)
         end)
  | JAppend _ kind _ p => unkeyed p && negb (reserved kind)
  | JOutcome _ q _ _ => json_ok (JObj q.(rq_subject))
  | _ => true
  end.

(** ** One transaction is one of these steps *)
Inductive write_extra :=
| WNone
| WCheckpoint (c : Checkpoint)
| WLeases (ls : list CapabilityLease)
| WEffect (key : Digest) (row : effect_row).
Definition extend (x : write_extra) (s : store) : store :=
  match x with
  | WNone => s
  | WCheckpoint c => add_checkpoint c s
  | WLeases ls => set_leases ls s
  | WEffect key row => set_effect key row s
  end.
Definition kind_lawful (st : RunStatus) (kind : string) : Prop :=
  match st with
  | PENDING => False
  | RUNNING => reserved kind = false
  | _ => Dict.get st TERMINAL_STATUS_EVENTS = Some kind
  end.
Definition live_status (st : RunStatus) : Prop := st ∈ [PENDING; RUNNING; FAILED; PARKED].

(** What comes with an event: a completion, its own kind of event; a receipt,
    for a prepared effect, under the event that carries it. *)
Definition extra_lawful (s : store) (run : RunId) (n : nat) (st : RunStatus) (kind : string)
    (path : option ExecutionPath) (p : option event_payload) (x : write_extra) : Prop :=
  match x with
  | WCheckpoint c =>
      st = RUNNING ∧ kind = "NodeCompleted" ∧ path = Some c.(cp_path) ∧ c.(cp_run) = run ∧
      payload_key p = None ∧ stored_checkpoint_for s c.(cp_run) c.(cp_path) = Ok None
  | WEffect key row =>
      kind_lawful st kind ∧ ∃ prepared q receipt,
        Dict.get key s.(effects) = Some prepared ∧ prepared.(ef_receipt) = None ∧
        row = mkEffect prepared.(ef_run) prepared.(ef_request) (Some (receipt, run, n)) ∧
        json_ok (JObj q.(rq_subject)) = true ∧ same_request prepared.(ef_request) q = true ∧
        q.(rq_key) = key ∧ receipt.(rc_request) = request_hash q ∧ kind ∈ outcome_kinds receipt ∧
        path = Some q.(rq_path) ∧ p = Some (PMembers (_effect_outcome_payload q receipt))
  | _ => kind_lawful st kind ∧ payload_key p = None
  end.

Inductive jstep (s : store) : store → Prop :=
| step_manifest h m :
    Dict.get h s.(manifests) = None → jstep s (set_manifest h m s)
| step_mint a :
    Dict.get a.(attestation_id) s.(attested) = None → attestation_sound a = true →
    jstep s (add_attestation a s)
| step_prepare q r :
    filter (λ kr : Digest * effect_row, kr.1 = q.(rq_key) ∨ kr.2.(ef_request).(rq_key) = q.(rq_key)) s.(effects) = [] →
    _effect_event_rows s q.(rq_key) = [] →
    Dict.get q.(rq_run) s.(runs) = Some r → q.(rq_manifest) = r.(row_manifest) →
    q.(rq_key) = _effect_request_key q → json_ok (JObj q.(rq_subject)) = true →
    (∀ id, q.(rq_attestation) = Some id → stored_attestation_for_id s id ≠ Ok None) →
    jstep s (set_effect q.(rq_key) (mkEffect q.(rq_run) q None) s)
| step_create run mh ih inputs origin :
    Dict.get run s.(runs) = None →
    jstep s (with_runs (λ l, l ++ [(run, mkRun PENDING None 0 None 0 false mh ih inputs origin)]) s)
| step_owner run r o ep ex :
    Dict.get run s.(runs) = Some r →
    (ep = r.(owner_epoch) ∧ (o = r.(owner_id) ∨ o = None)) ∨
    (ep = S r.(owner_epoch) ∧ live_status r.(run_status)) →
    jstep s (set_run run (row_owner o ep ex r) s)
| step_cancel run r :
    Dict.get run s.(runs) = Some r → jstep s (set_run run (row_cancel r) s)
| step_write lease r st kind path p x :
    Dict.get lease.(lease_run) s.(runs) = Some r → holds lease r = true →
    live_status r.(run_status) →
    extra_lawful s lease.(lease_run) (S r.(next_event_seq)) st kind path p x →
    jstep s (extend x (add_event (mkEvent lease.(lease_run) (S r.(next_event_seq)) kind path p)
               (set_run lease.(lease_run) (row_status st (row_seq (S r.(next_event_seq)) r)) s))).

(** ** Running an operation *)
Lemma jbind {A B} (m : J A) (f : A → J B) s r s' :
  ebind m f s = (r, s') →
  (∃ a s1, m s = (Ok a, s1) ∧ f a s1 = (r, s')) ∨ (∃ e, m s = (Raise e, s') ∧ r = Raise e).
Proof. unfold ebind. destruct (m s) as [[a|e] s1]; [by eauto|]. intros [= <- <-]. eauto. Qed.
Lemma txn_inv {A} (m : J A) s r s' :
  _txn m s = (r, s') → (∃ a, r = Ok a ∧ m s = (Ok a, s')) ∨ s' = s ∧ ∃ e, r = Raise e.
Proof. unfold _txn. destruct (m s) as [[a|e] s1]; intros [= <- <-]; eauto. Qed.
Lemma unit_of_inv {A} (m : J A) s r s' :
  unit_of m s = (r, s') → ∃ r0, m s = (r0, s') ∧ (is_ok r = true → is_ok r0 = true).
Proof.
  unfold unit_of, ebind, eret. destruct (m s) as [[a|e] s1]; intros [= <- <-]; eauto.
Qed.
Lemma mutation_row_inv run s r s' :
  _run_mutation_row run s = (r, s') →
  s' = s ∧ match r with Ok o => o = Dict.get run s.(runs) | Raise _ => True end.
Proof.
  unfold _run_mutation_row. unfold ebind at 1, get. destruct (Dict.get run (runs s)) as [row|] eqn:E.
  - unfold ebind, lift, eret. destruct (validated_run_fence _ _ _); by intros [= <- <-].
  - by intros [= <- <-].
Qed.
Lemma allocate_inv lease expected s r s' :
  _allocate_seq lease expected s = (r, s') →
  match r with
  | Ok n => ∃ row, Dict.get lease.(lease_run) s.(runs) = Some row ∧ row.(run_status) ∈ expected ∧
      holds lease row = true ∧ n = S row.(next_event_seq) ∧
      s' = set_run lease.(lease_run) (row_seq n row) s
  | Raise _ => s' = s
  end.
Proof.
  unfold _allocate_seq. cbv zeta. intros [(o & s1 & Hr & Hf)|(e & Hr & ->)]%jbind.
  - apply mutation_row_inv in Hr as [-> ->].
    destruct (Dict.get _ _) as [row|] eqn:E; [|by injection Hf as <- <-].
    case_decide; [by injection Hf as <- <-|].
    destruct (holds lease row) eqn:Eh; [|by injection Hf as <- <-].
    simpl in Hf. injection Hf as <- <-. exists row. split_and!; try done.
  - by apply mutation_row_inv in Hr as [-> _].
Qed.
Lemma insert_event_inv run n kind path p s r s' :
  _insert_event run n kind path p s = (r, s') →
  match r with
  | Ok _ => s' = add_event (mkEvent run n kind path p) s
  | Raise _ => s' = s
  end.
Proof. unfold _insert_event. case_decide; intros [= <- <-]; done. Qed.

Ltac txn H a := apply txn_inv in H as [(a & -> & H)|[H _]]; [|by left].
(** After a bind that succeeded, its result and state. *)
Ltac bound H a s1 H1 :=
  apply jbind in H as [(a & s1 & H1 & H)|(? & _ & [=])].

Lemma claim_outcome run owner ttl n ex now s r s' :
  claim_run run owner ttl n ex now s = (r, s') →
  s' = s ∧ (∃ e, r = Raise e) ∨ ∃ row l, r = Ok l ∧ Dict.get run s.(runs) = Some row ∧ live_status row.(run_status) ∧
    l = mkLease run owner (S row.(owner_epoch)) (now + ttl)%Z ∧
    s' = set_run run (row_owner (Some owner) (S row.(owner_epoch)) (Some (now + ttl)%Z) row) s.
Proof.
  unfold claim_run. intros E. apply txn_inv in E as [(l & -> & E)|E]; [|by left]. bound E o s1 Hrow. apply mutation_row_inv in Hrow as [-> ->].
  destruct (Dict.get run (runs s)) as [row|]; [|done].
  revert E. cbv zeta. destruct (match n with Some _ => _ | None => _ end || _); [done|].
  case_decide as Hd; [done|].
  match goal with |- context [bool_decide ?P && ?b] =>
    destruct (bool_decide P && b) eqn:Ef; [|done] end.
  apply andb_true_iff in Ef as [Hl%bool_decide_eq_true _].
  intros [= <- <-]. right. by exists row, (mkLease run owner (S (owner_epoch row)) (now + ttl)%Z).
Qed.
Lemma owned_outcome {A} run lease (f : run_row → run_row) (a : A) s r s' :
  _txn (let* row := _run_mutation_row run in
        match row with
        | None => raise (OwnershipLost run)
        | Some row =>
            if negb (holds lease row) then raise (OwnershipLost run)
            else modify (set_run run (f row));;; eret a
        end) s = (r, s') →
  s' = s ∨ ∃ row, Dict.get run s.(runs) = Some row ∧ holds lease row = true ∧ r = Ok a ∧
    s' = set_run run (f row) s.
Proof.
  intros E. txn E x. bound E o s1 Hrow. apply mutation_row_inv in Hrow as [-> ->].
  destruct (Dict.get run (runs s)) as [row|]; [|done].
  destruct (holds lease row) eqn:Eh; [|done]. simpl in E. injection E as <- <-.
  right. by exists row.
Qed.
Lemma heartbeat_outcome lease ttl now s r s' :
  heartbeat lease ttl now s = (r, s') →
  s' = s ∨ ∃ row, Dict.get lease.(lease_run) s.(runs) = Some row ∧ holds lease row = true ∧
    s' = set_run lease.(lease_run)
           (row_owner row.(owner_id) row.(owner_epoch) (Some (now + ttl)%Z) row) s.
Proof.
  intros E. apply (owned_outcome _ lease
    (λ row, row_owner row.(owner_id) row.(owner_epoch) (Some (now + ttl)%Z) row)) in E
    as [->|(row & ? & ? & _ & ->)]; [by left|right; by exists row].
Qed.
Lemma release_outcome lease s r s' :
  release_run lease s = (r, s') →
  s' = s ∨ ∃ row, Dict.get lease.(lease_run) s.(runs) = Some row ∧ holds lease row = true ∧
    s' = set_run lease.(lease_run) (row_owner None row.(owner_epoch) None row) s.
Proof.
  unfold release_run. cbv zeta. intros E. txn E x. bound E o s1 Hrow.
  apply mutation_row_inv in Hrow as [-> ->].
  destruct (Dict.get _ (runs s)) as [row|] eqn:Eg; [|done].
  destruct (holds lease row) eqn:Eh; [|done]. simpl in E. injection E as <- <-.
  right. by exists row.
Qed.
Lemma cancel_outcome run lease s r s' :
  request_cancel run lease s = (r, s') →
  s' = s ∨ ∃ row, Dict.get run s.(runs) = Some row ∧ s' = set_run run (row_cancel row) s ∧
    ∀ l, lease = Some l → l.(lease_run) = run ∧ holds l row = true.
Proof.
  unfold request_cancel.
  destruct (match lease with Some _ => _ | None => _ end) eqn:El; [intros [= _ <-]; by left|].
  intros E. txn E x. bound E o s1 Hrow. apply mutation_row_inv in Hrow as [-> ->].
  destruct (Dict.get run (runs s)) as [row|] eqn:Eg; [|done].
  destruct (match lease with Some _ => _ | None => _ end) eqn:Eh in E; [done|].
  injection E as <- <-. right. exists row. split_and!; try done. intros l ->.
  split; [|by apply negb_false_iff]. apply bool_decide_eq_false in El. by apply dec_stable.
Qed.

(** What every write under the fence does. *)
Record written (s : store) (lease : RunLease) (expected : list RunStatus) (st : RunStatus → RunStatus)
    (kind : string) (path : option ExecutionPath) (p : option event_payload) (x : nat → write_extra)
    (s' : store) : Prop := {
  w_row : ∃ row, Dict.get lease.(lease_run) s.(runs) = Some row ∧ row.(run_status) ∈ expected ∧
    holds lease row = true ∧
    s' = extend (x (S row.(next_event_seq)))
           (add_event (mkEvent lease.(lease_run) (S row.(next_event_seq)) kind path p)
           (set_run lease.(lease_run)
              (row_status (st row.(run_status)) (row_seq (S row.(next_event_seq)) row)) s));
}.
Lemma set_run_twice run r r' s : set_run run r (set_run run r' s) = set_run run r s.
Proof.
  unfold set_run, with_runs. simpl. f_equal. induction (runs s) as [|[k v] l IH]; simpl.
  - by rewrite decide_True.
  - case_decide as H; simpl; [by rewrite decide_True|]. by rewrite decide_False, IH.
Qed.
Lemma get_set_run run r s : Dict.get run (set_run run r s).(runs) = Some r.
Proof. apply Dict.get_set_eq. Qed.

Lemma append_outcome lease kind path p s r s' :
  append_event lease kind path p s = (r, s') →
  s' = s ∨ written s lease [RUNNING] id kind path p (λ _, WNone) s'.
Proof.
  unfold append_event. intros E. txn E e. bound E n s1 Ha.
  apply allocate_inv in Ha as (row & Hg & Hst & Hh & -> & ->).
  apply insert_event_inv in E as ->. right. split. exists row.
  by split_and!.
Qed.
Lemma transition_outcome lease expected target kind p s r s' :
  transition_run lease expected target kind p s = (r, s') →
  s' = s ∨ written s lease expected (λ _, target) kind None p (λ _, WNone) s'.
Proof.
  unfold transition_run. cbv zeta. intros E. txn E e. bound E n s1 Ha.
  apply allocate_inv in Ha as (row & Hg & Hst & Hh & -> & ->).
  bound E s2 s3 Hget. injection Hget as <- <-. case_decide; [done|].
  rewrite get_set_run in E. case_decide; [done|].
  bound E u s4 Hm. injection Hm as _ <-. bound E ev s5 Hi. apply insert_event_inv in Hi as ->.
  injection E as _ <-. right. split. exists row. split_and!; try done.
  unfold extend. f_equal. apply set_run_twice.
Qed.
Lemma complete_outcome lease c s r s' :
  record_completion lease c s = (r, s') →
  s' = s ∨ (c.(cp_run) = lease.(lease_run) ∧
    stored_checkpoint_for s c.(cp_run) c.(cp_path) = Ok None ∧
    written s lease [RUNNING] id "NodeCompleted" (Some c.(cp_path))
      (Some (PMembers [("input_hash", JStr c.(cp_input_hash))])) (λ _, WCheckpoint c) s').
Proof.
  unfold record_completion. case_decide as Hrun; [intros [= _ <-]; by left|]. cbv zeta.
  intros E. txn E e.
  bound E s2 s3 Hget. injection Hget as <- <-. bound E o s4 Ho.
  unfold lift in Ho. injection Ho as Ho <-. destruct o as [stored|].
  - case_decide; [|done]. injection E as _ <-. by left.
  - bound E n s1 Ha. apply allocate_inv in Ha as (row & Hg & Hst & Hh & -> & ->).
    bound E u s5 Hm. injection Hm as _ <-. bound E ev s6 Hi. apply insert_event_inv in Hi as ->.
    injection E as _ <-. right. split; [done|]. split; [done|]. split.
    exists row. split_and!; try done. by rewrite Hrun.
Qed.
Lemma lease_outcome lease l s r s' :
  record_capability_lease lease l s = (r, s') →
  s' = s ∨ (lease_row s l.(lease_id) l.(acquisition_epoch) = None ∧
    written s lease [RUNNING] id "LeaseAcquired" None (Some (lease_payload l))
      (λ _, WLeases (s.(capability_leases) ++ [l])) s').
Proof.
  unfold record_capability_lease. case_decide; [intros [= _ <-]; by left|].
  intros E. txn E e. bound E o s1 Hrow. apply mutation_row_inv in Hrow as [-> ->].
  destruct (Dict.get _ _) as [row0|]; [|done]. bound E s2 s3 Hget. injection Hget as <- <-.
  destruct (lease_row _ _ _) as [stored|] eqn:Er.
  - case_decide; [|done]. injection E as _ <-. by left.
  - bound E n s1 Ha. apply allocate_inv in Ha as (row & Hg & Hst & Hh & -> & ->).
    bound E u s5 Hm. injection Hm as _ <-. bound E ev s6 Hi. apply insert_event_inv in Hi as ->.
    injection E as _ <-. right. split; [done|]. split.
    exists row. by split_and!.
Qed.
Lemma lease_transition_outcome lease id_ ep expected target d s r s' :
  transition_capability_lease lease id_ ep expected target d s = (r, s') →
  s' = s ∨ ∃ ls p, written s lease [RUNNING] id "LeaseTransition" None (Some p) (λ _, WLeases ls) s' ∧
    payload_key (Some p) = None ∧
    (λ l, (l.(lease_id), l.(acquisition_epoch))) <$> ls
    = (λ l, (l.(lease_id), l.(acquisition_epoch))) <$> s.(capability_leases).
Proof.
  unfold transition_capability_lease. intros E. txn E e.
  bound E s2 s3 Hget. injection Hget as <- <-.
  destruct (lease_row _ _ _) as [stored|]; [|done].
  case_decide; [done|]. case_decide; [injection E as _ <-; by left|].
  do 4 (case_decide; [done|]).
  bound E n s1 Ha. apply allocate_inv in Ha as (row & Hg & Hst & Hh & -> & ->).
  bound E u s5 Hm. injection Hm as _ <-. bound E ev s6 Hi. apply insert_event_inv in Hi as ->.
  injection E as _ <-. right.
  exists ((λ l, if decide (l.(lease_id) = id_ ∧ l.(acquisition_epoch) = ep)
                then lease_at target d l else l) <$> s.(capability_leases)). eexists. split; [|split].
  - split. exists row. by split_and!.
  - done.
  - rewrite <-list_fmap_compose. apply list_fmap_ext. intros _ l _. simpl. by case_decide.
Qed.

(** Minting adds at most one sound attestation under a fresh identity. *)
Lemma stored_attestation_none s id :
  stored_attestation_for_id s id = Ok None → Dict.get id s.(attested) = None.
Proof.
  unfold stored_attestation_for_id. destruct (filter _ _) as [|[k a] [|]] eqn:E; [|by case_decide|done].
  intros _. apply Dict.get_None. intros Hin. apply list_elem_of_fmap in Hin as (ka & -> & Hin).
  assert (ka ∈ filter (λ ka0 : string * Attestation, ka0.1 = ka.1 ∨ ka0.2.(attestation_id) = ka.1) (attested s)) as Hx
    by (apply list_elem_of_filter; split; [by left|done]).
  rewrite E in Hx. by apply elem_of_nil in Hx.
Qed.
Lemma mint_once_outcome d creator id now s r s' :
  attestation_sound (mkAttestation id d creator now) = true →
  mint_once d creator id now s = (r, s') → rtc jstep s s'.
Proof.
  intros Hs. unfold mint_once. intros E. apply jbind in E as [(s0 & s1 & H & E)|(e & [=] & _)].
  injection H as <- <-. apply jbind in E as [(o & s1 & H & E)|(e & H & _)]; injection H as H <-; [|done].
  destruct o as [a|]; [by injection E as _ <-|].
  apply jbind in E as [(u & s1 & H1 & E)|(e & H1 & _)].
  - injection E as _ <-. revert H1. unfold _insert_attestation. intros H1.
    bound H1 s2 s3 Hg. injection Hg as <- <-. bound H1 o s2 Ho. injection Ho as Ho <-. simpl in Ho.
    destruct o as [p|]; [case_decide; [by injection H1 as _ <-|done]|]. injection H1 as _ <-.
    apply rtc_once, step_mint; [by eapply stored_attestation_none|done].
  - revert H1. unfold _insert_attestation. intros H1.
    apply jbind in H1 as [(s2 & s3 & Hg & H1)|(? & Hg & _)]; [|done]. injection Hg as <- <-.
    apply jbind in H1 as [(o & s2 & Ho & H1)|(? & Ho & _)]; injection Ho as Ho <-; [|done].
    destruct o as [p|]; [case_decide; [done|by injection H1 as _ <-]|done].
Qed.
Lemma mint_outcome lease d now s r s' :
  mint_attestation lease d now s = (r, s') →
  s' = s ∨ rtc jstep s s' ∧ ∃ row, Dict.get lease.(lease_run) s.(runs) = Some row ∧ holds lease row = true.
Proof.
  unfold mint_attestation. cbv zeta. intros E. txn E a. bound E o s1 Hrow.
  apply mutation_row_inv in Hrow as [-> ->]. destruct (Dict.get _ _) as [row|] eqn:Eg; [|done].
  destruct (holds lease row) eqn:Eh; [|done]. simpl in E. case_decide; [done|].
  destruct (_ && _); [done|]. right. split; [|by exists row].
  eapply mint_once_outcome; [|exact E]. by apply bool_decide_eq_true.
Qed.
Lemma mint_policy_outcome d now s r s' : mint_policy_attestation d now s = (r, s') → rtc jstep s s'.
Proof.
  unfold mint_policy_attestation. destruct (_ && _) eqn:Ed; [|by intros [= _ <-]]. simpl.
  intros E. apply txn_inv in E as [(a & -> & E)|[-> _]]; [|done].
  eapply mint_once_outcome; [|exact E]. apply andb_true_iff in Ed as [H1 H2].
  unfold attestation_sound. simpl. by rewrite bool_decide_eq_true_2, H1, H2.
Qed.
Lemma prepare_outcome lease q s r s' :
  record_effect_prepared lease q s = (r, s') →
  s' = s ∨ jstep s s' ∧ ∃ row, Dict.get lease.(lease_run) s.(runs) = Some row ∧ holds lease row = true.
Proof.
  unfold record_effect_prepared. cbv zeta. case_decide as Hq; [intros [= _ <-]; by left|].
  intros E. txn E a. bound E o s1 Hrow. apply mutation_row_inv in Hrow as [-> ->].
  destruct (Dict.get _ _) as [row|] eqn:Eg; [|done]. destruct (holds lease row) eqn:Eh; [|done]. simpl in E.
  case_decide as Hm; [done|]. bound E s2 s3 Hg. injection Hg as <- <-. bound E o s2 Ho. injection Ho as Ho <-.
  destruct o as [[k row']|]; [injection E as _ <-; by left|].
  bound E u s2 Hc. injection Hc as _ <-. bound E u2 s2 Hmod. injection Hmod as <- <-.
  bound E s3 s4 Hget. injection Hget as <- <-. injection E as Hrow <-.
  right. split; [|by exists row].
  unfold _effect_row in Ho. destruct (filter _ (effects s)) as [|? [|]] eqn:Ef; [|done|done].
  case_decide as Hev; [|done].
  assert (rq_run q = lease_run lease) as Hrun by (apply dec_stable; tauto).
  rewrite <-Hrun in Eg |- *.
  revert Hrow. unfold _effect_request_from_row. cbv zeta. simpl.
  destruct (Dict.get (lease_run lease) (runs s)) as [row2|]; [|done]. intros Hrow.
  apply result_bind_ok in Hrow as (? & _ & Hrow). case_decide as Hd; [done|].
  assert (json_ok (JObj q.(rq_subject)) = true) as Hj
    by (apply not_false_iff_true; intros ?; apply Hd; by left).
  eapply step_prepare; [done|done|exact Eg|done|apply dec_stable; tauto|done|].
  intros id Hid Hn.
  apply result_bind_ok in Hrow as (known & Hk & Hrow). rewrite Hid in Hk.
  apply result_bind_ok in Hk as (o & Ho' & [= <-]).
  assert (stored_attestation_for_id s id = Ok o) as Hx by exact Ho'.
  rewrite Hn in Hx. injection Hx as <-. done.
Qed.
Lemma effect_outcome lease q receipt kind s r s' :
  record_effect_outcome lease q receipt kind s = (r, s') →
  s' = s ∨ ∃ k row, r = Ok Recorded ∧
    filter (λ kr : Digest * effect_row, kr.1 = q.(rq_key) ∨ kr.2.(ef_request).(rq_key) = q.(rq_key)) s.(effects)
      = [(k, row)] ∧ k = q.(rq_key) ∧
    row.(ef_receipt) = None ∧ same_request row.(ef_request) q = true ∧
    receipt.(rc_request) = request_hash q ∧ kind ∈ outcome_kinds receipt ∧
    written s lease [RUNNING] id kind (Some q.(rq_path)) (Some (PMembers (_effect_outcome_payload q receipt)))
      (λ n, WEffect q.(rq_key) (mkEffect row.(ef_run) row.(ef_request)
                                  (Some (receipt, lease.(lease_run), n)))) s'.
Proof.
  unfold record_effect_outcome. case_decide as Hq; [intros [= _ <-]; by left|].
  case_decide as Hk; [intros [= _ <-]; by left|]. intros E. txn E d.
  bound E s2 s3 Hg. injection Hg as <- <-. bound E o s2 Ho. injection Ho as Ho <-.
  destruct o as [[k row]|]; [|done]. bound E stored s2 Hst. injection Hst as Hst <-.
  destruct (same_request stored q) eqn:Es; [|done]. cbn [negb] in E.
  unfold _effect_row in Ho. destruct (filter _ (effects s)) as [|[k' row'] [|]] eqn:Ef; [by case_decide| |done].
  injection Ho as -> ->.
  assert (stored = ef_request row ∧ rq_key (ef_request row) = k) as [-> Hkey].
  { revert Hst. unfold _effect_request_from_row. cbv zeta. destruct (Dict.get _ _); [|done]. intros Hst.
    apply result_bind_ok in Hst as (? & _ & Hst). case_decide as Hd; [done|].
    apply result_bind_ok in Hst as (known & _ & Hst). destruct known; [|done]. simpl in Hst.
    apply result_bind_ok in Hst as (? & _ & Hst). apply result_bind_ok in Hst as (? & _ & [= <-]).
    split; [done|]. apply dec_stable. tauto. }
  destruct (ef_receipt row) as [[[prior pr] pn]|] eqn:Er.
  { bound E pr' s2 Hp. injection Hp as _ <-. destruct (same_receipt _ _); [injection E as _ <-; by left|done]. }
  bound E n s1 Ha. apply allocate_inv in Ha as (row0 & Hg & Hst' & Hh & -> & ->).
  bound E u s5 Hm. injection Hm as _ <-. bound E ev s6 Hi. apply insert_event_inv in Hi as ->.
  injection E as <- <-. right. exists k, row.
  split; [done|]. split; [done|]. split.
  { assert ((k, row) ∈ filter (λ kr : Digest * effect_row, kr.1 = rq_key q ∨ (kr.2).(ef_request).(rq_key) = rq_key q) (effects s))
      as Hin by (rewrite Ef; by apply list_elem_of_singleton).
    apply list_elem_of_filter in Hin as [[H1|H1] _]; [done|]. simpl in H1. congruence. }
  split_and!; try done; [apply dec_stable; tauto|].
  split. exists row0. by split_and!.
Qed.

Lemma create_outcome run m mh ih inputs o s r s' :
  create_run run m mh ih inputs o s = (r, s') → rtc jstep s s'.
Proof.
  unfold create_run. cbv zeta.
  destruct (declared_version_check m); [|by intros [= _ <-]].
  destruct (validated_manifest_identity m); [|by intros [= _ <-]].
  case_decide; [by intros [= _ <-]|].
  intros E. apply txn_inv in E as [(u & -> & E)|[H' _]]; [|by rewrite H'].
  bound E s1 s2 Hget. injection Hget as <- <-. bound E u1 s3 Hm.
  assert (rtc jstep s s3 ∧ runs s3 = runs s) as [Hs Hruns].
  { destruct (Dict.get mh (manifests s)) as [stored|] eqn:Em.
    - destruct (negb _); injection Hm as _ <-; done.
    - injection Hm as _ <-. split; [|done]. by apply rtc_once; constructor. }
  destruct (Dict.get run (runs s)) as [row|] eqn:Er.
  - case_decide; [done|]. case_decide; [done|]. by injection E as _ <-.
  - injection E as _ <-. etrans; [exact Hs|]. apply rtc_once. constructor. by rewrite Hruns.
Qed.
Lemma written_step s lease expected st kind path p x s' :
  written s lease expected st kind path p x s' →
  (∀ r, r ∈ expected → live_status r) →
  (∀ r n, r ∈ expected → extra_lawful s lease.(lease_run) n (st r) kind path p (x n)) → rtc jstep s s'.
Proof. intros [(row & Hg & Hst & Hh & ->)] Hlive Hx. apply rtc_once. econstructor; eauto. Qed.
Lemma outcome_kind_lawful receipt kind : kind ∈ outcome_kinds receipt → kind_lawful RUNNING kind.
Proof.
  unfold outcome_kinds, _effect_event_kind. intros Hk.
  repeat (apply elem_of_cons in Hk as [->|Hk]; [by destruct (rc_status receipt)|]). by apply elem_of_nil in Hk.
Qed.
Lemma unkeyed_None p : unkeyed p = true → payload_key p = None.
Proof. apply bool_decide_eq_true. Qed.
Lemma running_live r : r ∈ [RUNNING] → live_status r.
Proof. intros ->%list_elem_of_singleton. right. left. Qed.
Lemma get_of_filter s key row :
  filter (λ kr : Digest * effect_row, kr.1 = key ∨ kr.2.(ef_request).(rq_key) = key) s.(effects) = [(key, row)] →
  Dict.get key s.(effects) = Some row.
Proof.
  induction (effects s) as [|[k r] l IH]; [done|]. rewrite filter_cons. simpl.
  case_decide as Hd.
  - intros [= -> -> _]. by rewrite decide_True.
  - intros E. rewrite decide_False by (intros ?; apply Hd; left; congruence). by apply IH.
Qed.
Lemma jcall_steps c s r s' : run_jcall c s = (r, s') → lawful c = true → rtc jstep s s'.
Proof.
  destruct c as [run m mh ih inputs o|run owner ttl n ex now|l ttl now|l|run l|l ex t k p|l k path p
                |l c|l cl|l id_ ep ex t d|l d now|d now|l q|l q receipt k]; simpl; intros E Hl.
  - by eapply create_outcome.
  - apply unit_of_inv in E as (r0 & E & _).
    apply claim_outcome in E as [[-> _]|(row & lease & _ & Hg & Hlive & -> & ->)]; [done|].
    apply rtc_once, step_owner; [done|]. by right.
  - apply unit_of_inv in E as (r0 & E & _).
    apply heartbeat_outcome in E as [->|(row & Hg & _ & ->)]; [done|].
    apply rtc_once, step_owner; [done|]. left. split; [done|by left].
  - apply release_outcome in E as [->|(row & Hg & _ & ->)]; [done|].
    apply rtc_once, step_owner; [done|]. left. split; [done|by right].
  - apply cancel_outcome in E as [->|(row & Hg & -> & _)]; [done|]. by apply rtc_once, step_cancel.
  - apply andb_true_iff in Hl as [Hp%unkeyed_None Hl]. apply andb_true_iff in Hl as [Hex Hk].
    apply transition_outcome in E as [->|Hw]; [done|]. eapply written_step; [exact Hw| |].
    + intros st Hst. rewrite forallb_forall in Hex. eapply bool_decide_eq_true, Hex.
      by apply list_elem_of_In.
    + intros st n _. split; [|done].
      destruct t; try done; simpl; first [by apply negb_true_iff|by apply bool_decide_eq_true in Hk].
  - apply andb_true_iff in Hl as [Hp%unkeyed_None Hl].
    apply unit_of_inv in E as (r0 & E & _). apply append_outcome in E as [->|Hw]; [done|].
    eapply written_step; [exact Hw|by apply running_live|].
    intros st n ->%list_elem_of_singleton. split; [by apply negb_true_iff|done].
  - apply complete_outcome in E as [->|(Hrun & Hn & Hw)]; [done|].
    eapply written_step; [exact Hw|by apply running_live|]. by intros st n ->%list_elem_of_singleton.
  - apply lease_outcome in E as [->|(_ & Hw)]; [done|].
    eapply written_step; [exact Hw|by apply running_live|]. by intros st n ->%list_elem_of_singleton.
  - apply lease_transition_outcome in E as [->|(ls & p & Hw & Hp & _)]; [done|].
    eapply written_step; [exact Hw|by apply running_live|]. by intros st n ->%list_elem_of_singleton.
  - apply unit_of_inv in E as (r0 & E & _). by apply mint_outcome in E as [->|[? _]].
  - apply unit_of_inv in E as (r0 & E & _). by apply mint_policy_outcome in E.
  - apply unit_of_inv in E as (r0 & E & _). apply prepare_outcome in E as [->|[? _]]; [done|]. by apply rtc_once.
  - apply unit_of_inv in E as (r0 & E & _).
    apply effect_outcome in E as [->|(k' & row & _ & Hrow & -> & Hn & Hs & Hr & Hk & Hw)]; [done|].
    eapply written_step; [exact Hw|by apply running_live|].
    intros st n ->%list_elem_of_singleton. split; [by eapply outcome_kind_lawful|].
    exists row, q, receipt. split_and!; try done. by apply get_of_filter.
Qed.
Lemma jcalls_steps cs s : forallb lawful cs = true → rtc jstep s (run_jcalls cs s).
Proof.
  revert s. induction cs as [|c cs IH]; intros s Hl; [done|].
  apply andb_true_iff in Hl as [Hc Hcs]. simpl.
  destruct (run_jcall c s) as [r s1] eqn:E. etrans; [by eapply jcall_steps|by apply IH].
Qed.

(** ** The invariant *)
Definition completed (s : store) (run : RunId) : list ExecutionPath :=
  omap (λ e, if decide (e.(ev_kind) = "NodeCompleted") then e.(ev_path) else None) (run_events s run).
Definition checkpointed (s : store) (run : RunId) : list ExecutionPath :=
  (λ kc, kc.1.2) <$> filter (λ kc : (RunId * ExecutionPath) * Checkpoint, kc.1.1 = run) s.(checkpoints).
Definition kind_of (st : RunStatus) (kind : string) : Prop :=
  match st with
  | PENDING => False
  | RUNNING => kind ∉ Dict.keys TERMINAL_EVENT_STATUSES
  | _ => Dict.get st TERMINAL_STATUS_EVENTS = Some kind
  end.
Definition lifecycle (s : store) (run : RunId) (r : run_row) : Prop :=
  match r.(run_status) with
  | PENDING => r.(next_event_seq) = 0
  | st => ∃ e, last (run_events s run) = Some e ∧ kind_of st e.(ev_kind)
  end.
Record good (s : store) : Prop := {
  g_seqs : ∀ run r, Dict.get run s.(runs) = Some r → seqs s run = seq 1 r.(next_event_seq);
  g_life : ∀ run r, Dict.get run s.(runs) = Some r → lifecycle s run r;
  g_known : ∀ e, e ∈ s.(events) → is_Some (Dict.get e.(ev_run) s.(runs));
  g_completed : ∀ run, completed s run = checkpointed s run;
  g_keys : NoDup (Dict.keys s.(checkpoints));
  g_key : ∀ kc, kc ∈ s.(checkpoints) → kc.1 = (kc.2.(cp_run), kc.2.(cp_path));
}.

Lemma run_events_write s x lease e r run :
  run_events (extend x (add_event e (set_run lease r s))) run
  = run_events s run ++ if decide (e.(ev_run) = run) then [e] else [].
Proof.
  assert (∀ s', events (extend x s') = events s') as Hx by (by destruct x).
  unfold run_events. rewrite Hx. simpl. rewrite filter_app, filter_cons, filter_nil. done.
Qed.
Lemma get_runs_write s x lease e r run :
  Dict.get run (runs (extend x (add_event e (set_run lease r s))))
  = if decide (run = lease) then Some r else Dict.get run (runs s).
Proof.
  assert (∀ s', runs (extend x s') = runs s') as Hx by (by destruct x).
  rewrite Hx. simpl. apply Dict.get_set.
Qed.
Lemma get_app_new {V} (run run' : RunId) (v : V) d :
  Dict.get run d = None →
  Dict.get run' (d ++ [(run, v)]) = if decide (run' = run) then Some v else Dict.get run' d.
Proof.
  intros Hn. rewrite <-Dict.set_fresh by (by apply Dict.get_None). apply Dict.get_set.
Qed.

Lemma run_events_unknown s run : good s → Dict.get run s.(runs) = None → run_events s run = [].
Proof.
  intros H Hn. apply filter_none, Forall_forall. intros e He Hrun.
  apply (g_known _ H) in He as [r Hr]. congruence.
Qed.
Lemma completed_write s x lease e r run :
  completed (extend x (add_event e (set_run lease r s))) run
  = completed s run ++ if decide (e.(ev_run) = run ∧ e.(ev_kind) = "NodeCompleted")
                       then option_list e.(ev_path) else [].
Proof.
  unfold completed. rewrite run_events_write, omap_app. f_equal.
  destruct (decide (ev_run e = run)) as [Hr|Hr]; simpl.
  - destruct (decide (ev_kind e = "NodeCompleted")) as [Hk|Hk]; simpl.
    + rewrite decide_True by done. by destruct (ev_path e).
    + by rewrite decide_False by tauto.
  - by rewrite decide_False by tauto.
Qed.
Lemma checkpointed_write s x lease e r run :
  checkpointed (extend x (add_event e (set_run lease r s))) run
  = checkpointed s run ++ match x with
                          | WCheckpoint c => if decide (c.(cp_run) = run) then [c.(cp_path)] else []
                          | _ => []
                          end.
Proof.
  unfold checkpointed. destruct x as [|c|ls|key row]; simpl; rewrite ?app_nil_r; [done| |done..].
  rewrite filter_app, fmap_app, filter_cons, filter_nil. simpl. by case_decide.
Qed.
Lemma reserved_not kind : reserved kind = false → kind ≠ "NodeCompleted" ∧ kind ∉ Dict.keys TERMINAL_EVENT_STATUSES.
Proof. unfold reserved. rewrite bool_decide_eq_false. tauto. Qed.
Lemma kind_lawful_not st kind : kind_lawful st kind → kind ≠ "NodeCompleted".
Proof.
  destruct st; simpl; try done; [intros [? _]%reserved_not; done|..]; intros H ->; by vm_compute in H.
Qed.
Lemma kind_lawful_of st kind : kind_lawful st kind → kind_of st kind.
Proof. destruct st; simpl; try done. by intros [_ ?]%reserved_not. Qed.

(** A step that leaves the log alone keeps the invariant. *)
Lemma good_rows s s' :
  good s → s'.(events) = s.(events) → s'.(checkpoints) = s.(checkpoints) →
  (∀ run, is_Some (Dict.get run s.(runs)) → is_Some (Dict.get run s'.(runs))) →
  (∀ run r', Dict.get run s'.(runs) = Some r' →
     (∃ r, Dict.get run s.(runs) = Some r ∧ run_status r = run_status r' ∧
           next_event_seq r = next_event_seq r') ∨
     (Dict.get run s.(runs) = None ∧ run_status r' = PENDING ∧ next_event_seq r' = 0)) →
  good s'.
Proof.
  intros H He Hc Hk Hr.
  assert (∀ run, run_events s' run = run_events s run) as Hev
    by (intros run; unfold run_events; by rewrite He).
  split.
  - intros run r' Hg. unfold seqs. rewrite Hev.
    destruct (Hr _ _ Hg) as [(r & Hr' & _ & <-)|(Hn & _ & ->)].
    + by apply (g_seqs _ H).
    + by rewrite (run_events_unknown _ _ H Hn).
  - intros run r' Hg. unfold lifecycle. rewrite Hev.
    destruct (Hr _ _ Hg) as [(r & Hr' & <- & <-)|(Hn & -> & ->)]; [|done].
    by apply (g_life _ H).
  - intros e Hin. rewrite He in Hin. by apply Hk, (g_known _ H).
  - intros run. unfold completed, checkpointed. rewrite Hev, Hc. apply (g_completed _ H).
  - rewrite Hc. apply (g_keys _ H).
  - rewrite Hc. apply (g_key _ H).
Qed.

(** *** What the integrity reads return *)
Lemma filter_key_get {K V} `{EqDecision K} (k : K) (d : list (K * V)) :
  NoDup (Dict.keys d) →
  filter (λ kv, kv.1 = k) d = match Dict.get k d with Some v => [(k, v)] | None => [] end.
Proof.
  induction d as [|[k' v] d IH]; [done|]. intros [Hn Hd]%NoDup_cons. rewrite filter_cons. simpl.
  destruct (decide (k' = k)) as [->|Hne].
  - rewrite decide_True by done. rewrite IH by done.
    assert (Dict.get k d = None) as -> by (by apply Dict.get_None). done.
  - rewrite decide_False by done. by apply IH.
Qed.
Lemma length_completions s run path :
  length (filter (λ e, e.(ev_kind) = "NodeCompleted" ∧ e.(ev_path) = Some path) (run_events s run))
  = length (filter (λ p, p = path) (completed s run)).
Proof.
  unfold completed. induction (run_events s run) as [|e l IH]; [done|].
  rewrite filter_cons. simpl. destruct (decide (ev_kind e = "NodeCompleted")) as [Hk|Hk].
  - destruct (ev_path e) as [p|]; simpl.
    + rewrite filter_cons. destruct (decide (p = path)) as [->|Hp].
      * rewrite decide_True by done. simpl. by rewrite IH.
      * rewrite decide_False by (intros [_ [=]]; done). done.
    + rewrite decide_False by (by intros [_ ?]). done.
  - rewrite decide_False by tauto. done.
Qed.
Lemma length_rows s run path :
  length (filter (λ kc : (RunId * ExecutionPath) * Checkpoint, kc.1 = (run, path)) s.(checkpoints))
  = length (filter (λ p, p = path) (checkpointed s run)).
Proof.
  unfold checkpointed. induction (checkpoints s) as [|[[run' p] c] l IH]; [done|].
  rewrite !filter_cons. simpl. destruct (decide (run' = run)) as [->|Hr]; simpl.
  - rewrite filter_cons. destruct (decide (p = path)) as [->|Hp].
    + rewrite decide_True by done. simpl. by rewrite IH.
    + rewrite decide_False by congruence. done.
  - rewrite decide_False by congruence. done.
Qed.
Lemma stored_checkpoint_good s run path :
  good s → stored_checkpoint_for s run path = Ok (Dict.get (run, path) s.(checkpoints)).
Proof.
  intros H. unfold stored_checkpoint_for.
  pose proof (length_rows s run path) as Hrows. pose proof (length_completions s run path) as Hev.
  rewrite (g_completed _ H) in Hev. rewrite <-Hrows in Hev.
  rewrite (filter_key_get _ _ (g_keys _ H)) in *.
  destruct (Dict.get (run, path) (checkpoints s)) as [c|]; simpl in *.
  - destruct (filter _ (run_events s run)) as [|e [|]]; done.
  - destruct (filter _ (run_events s run)) as [|e l]; done.
Qed.

(** *** Every step keeps the invariant *)
Lemma good_write s lease r st kind path p x :
  good s → Dict.get lease.(lease_run) s.(runs) = Some r →
  extra_lawful s lease.(lease_run) (S r.(next_event_seq)) st kind path p x →
  good (extend x (add_event (mkEvent lease.(lease_run) (S r.(next_event_seq)) kind path p)
          (set_run lease.(lease_run) (row_status st (row_seq (S r.(next_event_seq)) r)) s))).
Proof.
  intros H Hg Hx. set (run0 := lease_run lease) in *. set (e := mkEvent _ _ _ _ _).
  assert (kind_of st kind) as Hk.
  { destruct x as [|c|ls|key row]; [by apply kind_lawful_of, Hx| |by apply kind_lawful_of, Hx..].
    destruct Hx as (-> & -> & _). apply (bool_decide_unpack _). vm_compute. done. }
  split.
  - intros run r'. rewrite get_runs_write. unfold seqs. rewrite run_events_write. change (ev_run e) with run0.
    case_decide as Hr; [intros [= <-]|intros Hr']; simpl.
    + rewrite decide_True by done. rewrite fmap_app.
      change (ev_seq <$> run_events s run) with (seqs s run). subst run.
      rewrite (g_seqs _ H _ _ Hg). symmetry. exact (seq_S (next_event_seq r) 1).
    + rewrite decide_False, app_nil_r by done. by apply (g_seqs _ H).
  - intros run r'. rewrite get_runs_write. unfold lifecycle. rewrite run_events_write.
    change (ev_run e) with run0. case_decide as Hr; [intros [= <-]|intros Hr']; simpl.
    + rewrite decide_True by done. subst run. rewrite last_snoc.
      destruct st; try done; by exists e.
    + rewrite decide_False, app_nil_r by done. by apply (g_life _ H).
  - intros e' Hin. rewrite get_runs_write. case_decide; [done|].
    assert (events (extend x (add_event e (set_run run0 (row_status st (row_seq (S (next_event_seq r)) r)) s)))
      = events s ++ [e]) as Hev by (by destruct x).
    rewrite Hev in Hin. apply elem_of_app in Hin as [Hin| ->%list_elem_of_singleton]; [|done].
    by apply (g_known _ H).
  - intros run. rewrite completed_write, checkpointed_write, (g_completed _ H). f_equal. simpl.
    destruct x as [|c|ls|key row].
    2: { destruct Hx as (_ & -> & -> & Hrun & _). rewrite Hrun. fold run0.
      destruct (decide (run0 = run)); [by rewrite decide_True|by rewrite decide_False by tauto]. }
    all: rewrite decide_False; [done|]; intros [_ Hc]; by destruct Hx as [Hx%kind_lawful_not _].
  - destruct x as [|c|ls|key row]; try apply (g_keys _ H). simpl. unfold Dict.keys. rewrite fmap_app.
    destruct Hx as (_ & _ & _ & _ & _ & Hn). rewrite (stored_checkpoint_good _ _ _ H) in Hn.
    injection Hn as Hn%Dict.get_None. apply NoDup_app. split; [apply (g_keys _ H)|].
    split; [|apply NoDup_singleton]. intros k Hk1 ->%list_elem_of_singleton. done.
  - destruct x as [|c|ls|key row]; try apply (g_key _ H). simpl.
    intros kc [Hin| ->%list_elem_of_singleton]%elem_of_app; [by apply (g_key _ H)|done].
Qed.
Lemma good_step s s' : jstep s s' → good s → good s'.
Proof.
  destruct 1 as [h m Hnm|a _ _|q r0 _ _ _ _ _ _ _|run mh ih inputs o Hn|run r o ep ex Hg _|run r Hg
                |lease r st kind path p x Hg _ _ Hx]; intros H.
  1-3: eapply good_rows; [exact H|done|done|done|]; intros run r' Hr; left; by exists r'.
  - eapply good_rows; [exact H|done|done|..].
    + intros run' Hs. simpl. rewrite get_app_new by done. case_decide; [done|exact Hs].
    + intros run' r'. simpl. rewrite get_app_new by done. case_decide as Hr; [intros [= <-]|intros Hr'].
      * right. subst run'. done.
      * left. by exists r'.
  - eapply good_rows; [exact H|done|done|..].
    + intros run' Hs. simpl. rewrite Dict.get_set. by case_decide.
    + intros run' r'. simpl. rewrite Dict.get_set. case_decide as Hr; [intros [= <-]; subst run'|intros Hr'].
      * left. by exists r.
      * left. by exists r'.
  - eapply good_rows; [exact H|done|done|..].
    + intros run' Hs. simpl. rewrite Dict.get_set. by case_decide.
    + intros run' r'. simpl. rewrite Dict.get_set. case_decide as Hr; [intros [= <-]; subst run'|intros Hr'].
      * left. by exists r.
      * left. by exists r'.
  - by apply good_write.
Qed.
Lemma good_steps s s' : rtc jstep s s' → good s → good s'.
Proof. induction 1; [done|]. intros H'. eauto using good_step. Qed.
Lemma good_new : good new_store.
Proof. split; try done; simpl; [by intros e ?%elem_of_nil|constructor|by intros e ?%elem_of_nil]. Qed.

(** *** The fence is always proven *)
Lemma foldl_max_seq k n m : foldl Nat.max m (seq k n) = if decide (n = 0) then m else Nat.max m (k + n - 1).
Proof.
  revert k m. induction n as [|n IH]; intros k m; [done|]. simpl. rewrite IH.
  destruct (decide (n = 0)) as [->|]; [|]; simpl; lia.
Qed.
Lemma foldl_min_seq k n m : m ≤ k → foldl Nat.min m (seq k n) = m.
Proof.
  revert k m. induction n as [|n IH]; intros k m Hm; [done|]. simpl. rewrite IH by lia. lia.
Qed.
Lemma event_fence_good s run r :
  good s → Dict.get run s.(runs) = Some r →
  validated_event_fence s run r.(next_event_seq) = Ok r.(next_event_seq).
Proof.
  intros H Hg. unfold validated_event_fence. cbv zeta. rewrite (g_seqs _ H _ _ Hg).
  apply decide_False. rewrite length_seq. unfold max_seq. rewrite foldl_max_seq.
  destruct (next_event_seq r) as [|n]; simpl; [tauto|]. rewrite foldl_min_seq by lia. lia.
Qed.
Lemma event_at_good s run r e :
  good s → Dict.get run s.(runs) = Some r → last (run_events s run) = Some e →
  event_at s run r.(next_event_seq) = Some e ∧ e.(ev_seq) = r.(next_event_seq) ∧ 0 < r.(next_event_seq).
Proof.
  intros H Hg Hl. pose proof (g_seqs _ H _ _ Hg) as Hs. unfold seqs in Hs. unfold event_at.
  apply last_Some in Hl as [l Hl]. rewrite Hl in *. rewrite fmap_app in Hs. simpl in Hs.
  destruct (next_event_seq r) as [|n]; [by destruct (ev_seq <$> l)|].
  rewrite seq_S in Hs. apply app_inj_tail in Hs as [Hls He]. simpl in He.
  rewrite filter_app, filter_cons, filter_nil, decide_True by done.
  rewrite (filter_none _ l); [split_and!; [done|done|lia]|].
  apply Forall_forall. intros e' Hin Heq.
  assert (ev_seq e' ∈ seq 1 n) as Hx by (rewrite <-Hls; by apply list_elem_of_fmap_2).
  apply elem_of_seq in Hx. lia.
Qed.
Lemma no_newer_good s run r :
  good s → Dict.get run s.(runs) = Some r → has_newer_event s run r.(next_event_seq) = false.
Proof.
  intros H Hg. unfold has_newer_event. rewrite (g_seqs _ H _ _ Hg).
  apply not_true_iff_false. rewrite existsb_exists. intros (n & Hin & Hlt%Nat.ltb_lt).
  apply in_seq in Hin. lia.
Qed.
Lemma fence_good s run r :
  good s → Dict.get run s.(runs) = Some r → is_ok (validated_run_fence s run r) = true.
Proof.
  intros H Hg. unfold validated_run_fence. rewrite event_fence_good by done. cbn [mbind result_bind].
  unfold validated_run_lifecycle. cbv zeta. rewrite (no_newer_good _ _ _ H Hg).
  pose proof (g_life _ H _ _ Hg) as Hl. unfold lifecycle in Hl.
  destruct (run_status r) eqn:Est;
    [|destruct Hl as (e & Hlast & Hk);
      destruct (event_at_good _ _ _ _ H Hg Hlast) as (-> & He & Hpos%Nat.ltb_lt);
      rewrite decide_False by (intros Hn; by apply Hn); unfold kind_of in Hk;
      rewrite ?Hpos; by rewrite bool_decide_eq_true_2..].
  rewrite decide_False by (intros Hn; by apply Hn).
  pose proof (g_seqs _ H _ _ Hg) as Hs. rewrite Hl in Hs.
  unfold seqs in Hs. apply fmap_nil_inv in Hs. unfold event_at. by rewrite Hs.
Qed.

(** ** Owners and epochs *)
Definition call_lease (c : jcall) : option RunLease :=
  match c with
  | JHeartbeat l _ _ | JRelease l | JTransition l _ _ _ _ | JAppend l _ _ _ | JComplete l _
  | JLease l _ | JLeaseTransition l _ _ _ _ _ | JMint l _ _ | JPrepare l _ | JOutcome l _ _ _ => Some l
  | JCancel _ l => l
  | JCreate _ _ _ _ _ _ | JClaim _ _ _ _ _ _ | JMintPolicy _ _ => None
  end.
Lemma prepare_unheld lease q s r s' :
  record_effect_prepared lease q s = (r, s') →
  (∀ row, Dict.get lease.(lease_run) s.(runs) = Some row → holds lease row = false) → s' = s.
Proof.
  unfold record_effect_prepared. cbv zeta. case_decide; [by intros [= _ <-]|]. intros E Hn.
  apply txn_inv in E as [(a & -> & E)|[-> _]]; [|done]. bound E o s1 Hrow.
  apply mutation_row_inv in Hrow as [-> ->]. destruct (Dict.get _ _) as [row|]; [|done].
  by rewrite (Hn row eq_refl) in E.
Qed.
Lemma unheld_writes_nothing c lease s :
  call_lease c = Some lease →
  (∀ row, Dict.get lease.(lease_run) s.(runs) = Some row → holds lease row = false) →
  (run_jcall c s).2 = s.
Proof.
  intros Hc Hn. destruct (run_jcall c s) as [r s'] eqn:E. simpl.
  assert (∀ ex st k path p x, written s lease ex st k path p x s' → s' = s) as Hw.
  { intros ex st k path p x [(row & Hg & _ & Hh & _)]. apply Hn in Hg. congruence. }
  destruct c; simpl in Hc, E; try done; try (injection Hc as ->).
  - apply unit_of_inv in E as (r0 & E & _).
    apply heartbeat_outcome in E as [->|(row & Hg & Hh & _)]; [done|]. apply Hn in Hg. congruence.
  - apply release_outcome in E as [->|(row & Hg & Hh & _)]; [done|]. apply Hn in Hg. congruence.
  - rewrite Hc in E. apply cancel_outcome in E as [->|(row & Hg & _ & Hh)]; [done|].
    destruct (Hh _ eq_refl) as [<- Hh']. apply Hn in Hg. congruence.
  - apply transition_outcome in E as [->|?]; [done|eauto].
  - apply unit_of_inv in E as (r0 & E & _). apply append_outcome in E as [->|?]; [done|eauto].
  - apply complete_outcome in E as [->|(_ & _ & ?)]; [done|eauto].
  - apply lease_outcome in E as [->|(_ & ?)]; [done|eauto].
  - apply lease_transition_outcome in E as [->|(ls & p & ? & _)]; [done|eauto].
  - apply unit_of_inv in E as (r0 & E & _).
    apply mint_outcome in E as [->|(_ & row & Hg & Hh)]; [done|]. apply Hn in Hg. congruence.
  - apply unit_of_inv in E as (r0 & E & _). by eapply prepare_unheld.
  - apply unit_of_inv in E as (r0 & E & _).
    apply effect_outcome in E as [->|(k' & row & _ & _ & _ & _ & _ & _ & _ & ?)]; [done|eauto].
Qed.

Definition run_epoch (s : store) (run : RunId) : nat :=
  match Dict.get run s.(runs) with Some r => r.(owner_epoch) | None => 0 end.
Lemma run_epoch_step s s' run : jstep s s' → run_epoch s run ≤ run_epoch s' run.
Proof.
  destruct 1 as [h m Hnm|a _ _|q r0 _ _ _ _ _ _ _|run' mh ih inputs o Hn|run' r o ep ex Hg He|run' r Hg
                |lease r st kind path p x Hg _ _ _]; unfold run_epoch; [done..| | | |].
  - simpl. rewrite get_app_new by done. case_decide; [subst; rewrite Hn; simpl; lia|done].
  - simpl. rewrite Dict.get_set. case_decide; [subst; rewrite Hg; simpl; lia|done].
  - simpl. rewrite Dict.get_set. case_decide; [subst; rewrite Hg; simpl; lia|done].
  - rewrite get_runs_write. case_decide; [subst; rewrite Hg; simpl; lia|done].
Qed.
Lemma run_epoch_steps s s' run : rtc jstep s s' → run_epoch s run ≤ run_epoch s' run.
Proof. induction 1; [done|]. etrans; [by apply run_epoch_step|done]. Qed.
Lemma old_epoch_unheld s lease row :
  lease.(epoch) < run_epoch s lease.(lease_run) → Dict.get lease.(lease_run) s.(runs) = Some row →
  holds lease row = false.
Proof.
  unfold run_epoch, holds. intros Hlt Hg. rewrite Hg in Hlt. apply andb_false_iff. right.
  apply bool_decide_eq_false. lia.
Qed.

(** ** Facts that never change *)
Lemma checkpoint_step s s' run path c :
  jstep s s' → Dict.get (run, path) s.(checkpoints) = Some c →
  Dict.get (run, path) s'.(checkpoints) = Some c.
Proof. destruct 1; [done..|]. destruct x; try done. apply Dict.get_app_l. Qed.
Lemma checkpoint_steps s s' run path c :
  rtc jstep s s' → Dict.get (run, path) s.(checkpoints) = Some c →
  Dict.get (run, path) s'.(checkpoints) = Some c.
Proof. induction 1; [done|]. intros ?. eauto using checkpoint_step. Qed.

(** Everything a finished run keeps. *)
Definition finished (s : store) (run : RunId) (st : RunStatus) (evs : list JournalEvent)
    (cps : list ExecutionPath) (inputs : list (string * json)) : Prop :=
  ∃ r, Dict.get run s.(runs) = Some r ∧ r.(run_status) = st ∧ r.(row_inputs) = inputs ∧
    run_events s run = evs ∧ checkpointed s run = cps.
Lemma finished_step s s' run st evs cps inputs :
  st ∈ [SUCCEEDED; CANCELLED] → jstep s s' →
  finished s run st evs cps inputs → finished s' run st evs cps inputs.
Proof.
  intros Hst Hstep (r & Hg & Hs & Hi & He & Hc).
  destruct Hstep as [h m Hnm|a _ _|q r0 _ _ _ _ _ _ _|run' mh ih inp o Hn|run' r' o ep ex Hg' _|run' r' Hg'
                     |lease r' st' kind path p x Hg' _ Hlive Hx]; [by exists r..| | | |].
  - exists r. simpl. split_and!; try done. by apply Dict.get_app_l.
  - destruct (decide (run = run')) as [<-|Hne].
    + assert (r' = r) as -> by congruence. eexists. split; [apply Dict.get_set_eq|]. done.
    + exists r. simpl. rewrite Dict.get_set_ne by done. done.
  - destruct (decide (run = run')) as [<-|Hne].
    + assert (r' = r) as -> by congruence. eexists. split; [apply Dict.get_set_eq|]. done.
    + exists r. simpl. rewrite Dict.get_set_ne by done. done.
  - assert (run ≠ lease_run lease) as Hne.
    { intros ->. assert (r' = r) as -> by congruence. rewrite Hs in Hlive. clear -Hst Hlive.
      unfold live_status in Hlive.
      repeat (apply elem_of_cons in Hst as [->|Hst];
        [by apply (bool_decide_eq_true_2 _) in Hlive|]). by apply elem_of_nil in Hst. }
    exists r. rewrite get_runs_write, decide_False, run_events_write, checkpointed_write by done.
    simpl. rewrite decide_False, app_nil_r by congruence. split_and!; try done.
    destruct x as [|c|ls|key row]; rewrite ?app_nil_r; try done.
    destruct Hx as (_ & _ & _ & Hrun & _). by rewrite decide_False, app_nil_r by congruence.
Qed.
Lemma finished_steps s s' run st evs cps inputs :
  st ∈ [SUCCEEDED; CANCELLED] → rtc jstep s s' →
  finished s run st evs cps inputs → finished s' run st evs cps inputs.
Proof. intros Hst. induction 1; [done|]. intros ?. eauto using finished_step. Qed.
Lemma elem_of_checkpointed s run path :
  (run, path) ∈ Dict.keys s.(checkpoints) ↔ path ∈ checkpointed s run.
Proof.
  unfold Dict.keys, checkpointed. rewrite !list_elem_of_fmap. split.
  - intros ([k c] & Hkc & Hkc'). exists (k, c). simpl in Hkc. subst k.
    split; [done|]. by apply list_elem_of_filter.
  - intros ([[k p] c] & -> & [Hr Hkc]%list_elem_of_filter). simpl in *. subst k.
    by exists ((run, p), c).
Qed.
Lemma finished_no_checkpoint s s' run r path :
  Dict.get run s.(runs) = Some r → r.(run_status) ∈ [SUCCEEDED; CANCELLED] → rtc jstep s s' →
  Dict.get (run, path) s.(checkpoints) = None → Dict.get (run, path) s'.(checkpoints) = None.
Proof.
  intros Hg Hst Hs Hn.
  assert (finished s run r.(run_status) (run_events s run) (checkpointed s run) r.(row_inputs)) as Hf
    by (by exists r).
  apply (finished_steps _ _ _ _ _ _ _ Hst Hs) in Hf as (_ & _ & _ & _ & _ & H4).
  apply Dict.get_None in Hn. apply Dict.get_None. by rewrite elem_of_checkpointed, H4, <-elem_of_checkpointed.
Qed.

(** What a run was created from never changes. *)
Definition created_from (s : store) (run : RunId) (mhash : Digest) (inputs : list (string * json))
    (m : ExecutionManifest) : Prop :=
  (∃ r, Dict.get run s.(runs) = Some r ∧ r.(row_manifest) = mhash ∧ r.(row_inputs) = inputs) ∧
  Dict.get mhash s.(manifests) = Some m.
Lemma created_step s s' run mhash inputs m :
  jstep s s' → created_from s run mhash inputs m → created_from s' run mhash inputs m.
Proof.
  intros Hstep [(r & Hg & Hm & Hi) Hman].
  destruct Hstep as [h m' Hn|a _ _|q r0 _ _ _ _ _ _ _|run' mh ih inp o Hn|run' r' o ep ex Hg' _|run' r' Hg'
                     |lease r' st' kind path p x Hg' _ _ _]; (split; [|try done]); try by exists r.
  - simpl. rewrite Dict.get_set. case_decide; [congruence|done].
  - exists r. simpl. split; [by apply Dict.get_app_l|done].
  - simpl. rewrite Dict.get_set. case_decide; [|by exists r]. subst.
    assert (r' = r) as -> by congruence. by eexists.
  - simpl. rewrite Dict.get_set. case_decide; [|by exists r]. subst.
    assert (r' = r) as -> by congruence. by eexists.
  - rewrite get_runs_write. case_decide; [|by exists r]. subst.
    assert (r' = r) as -> by congruence. by eexists.
  - by destruct x.
Qed.
Lemma created_steps s s' run mhash inputs m :
  rtc jstep s s' → created_from s run mhash inputs m → created_from s' run mhash inputs m.
Proof. induction 1; eauto using created_step. Qed.
