(* ===== verification/EffectSpec.v ===== *)
(** The invariant of the effect facts: what every reachable store satisfies, so
    that no read of an effect or an attestation ever finds damage. *)

From S2P Require Import Prelude Identity Address Capability Message Run Effect Journal EffectStore JournalSpec.

(** ** JSON texts *)
Lemma json_ok_wf j : json_ok j = true → wf_json j.
Proof.
  induction j as [| | | | |l IH|m IH] using json_ind_nested; simpl; try done.
  - rewrite forallb_forall, Forall_fmap. intros H. rewrite Forall_forall in IH |- *.
    intros x Hx. apply IH; [done|]. apply H. apply list_elem_of_In, list_elem_of_fmap. by exists x.
  - intros [H1%bool_decide_eq_true H2]%andb_true_iff. split; [done|].
    rewrite forallb_forall in H2. rewrite Forall_fmap. rewrite Forall_forall in IH |- *.
    intros x Hx. apply IH; [done|]. apply H2. apply list_elem_of_In, list_elem_of_fmap. by exists x.
Qed.
Lemma request_wf q : json_ok (JObj q.(rq_subject)) = true → wf_json (dump q).
Proof.
  intros Hj. wf_fields; [by apply (dump_wf (rq_path q))|by apply json_ok_wf|].
  apply (dump_wf (rq_attestation q)). by intros a _.
Qed.
(** Canonically equal requests are one request but for the order of members. *)
Lemma same_request_fields a b :
  json_ok (JObj a.(rq_subject)) = true → json_ok (JObj b.(rq_subject)) = true → same_request a b = true →
  rq_run a = rq_run b ∧ rq_manifest a = rq_manifest b ∧ rq_path a = rq_path b ∧ rq_kind a = rq_kind b ∧
  jequiv (JObj a.(rq_subject)) (JObj b.(rq_subject)) ∧ rq_key a = rq_key b ∧
  rq_attestation a = rq_attestation b ∧ rq_mode a = rq_mode b ∧ request_hash a = request_hash b.
Proof.
  intros Ha Hb Hs. apply bool_decide_eq_true in Hs.
  assert (request_hash a = request_hash b) as Hh by (by apply digest_of_canonical).
  apply canonical_text_equiv in Hs; [|by apply request_wf..].
  unfold dump, EffectRequest_dump in Hs. revert Hs.
  rewrite jequiv_obj_fields; [|by apply NoDup_unpack|done].
  cbn [fmap list_fmap snd]. rewrite !Forall2_cons_iff, !jequiv_str.
  intros (H1 & H2 & H3 & H4 & H5 & H6 & H7 & H8 & _).
  apply (dump_equiv (A:=ExecutionPath)) in H3; [|done..].
  apply (dump_equiv (A:=option string)) in H7; [|by intros ? _..].
  split_and!; try done.
  - destruct (rq_attestation a), (rq_attestation b); try done; inversion H7; subst; congruence.
  - by destruct (rq_mode a), (rq_mode b).
Qed.

(** ** The invariant *)
Definition row_ok (s : store) (row : effect_row) : Prop :=
  let q := row.(ef_request) in
  q.(rq_run) = row.(ef_run) ∧ q.(rq_key) = _effect_request_key q ∧ json_ok (JObj q.(rq_subject)) = true ∧
  (∃ r, Dict.get row.(ef_run) s.(runs) = Some r ∧ q.(rq_manifest) = r.(row_manifest)) ∧
  (∀ id, q.(rq_attestation) = Some id → is_Some (Dict.get id s.(attested))) ∧
  (∀ receipt run n, row.(ef_receipt) = Some (receipt, run, n) → receipt.(rc_request) = request_hash q).
(** A closed effect has exactly its own outcome event; any other key has none. *)
Definition outcome_ok (s : store) (key : Digest) : Prop :=
  match Dict.get key s.(effects) with
  | Some (mkEffect _ q (Some (receipt, run, n))) =>
      ∃ kind ms, _effect_event_rows s key = [mkEvent run n kind (Some q.(rq_path)) (Some (PMembers ms))] ∧
        kind ∈ outcome_kinds receipt ∧
        canonical_text (JObj ms) = canonical_text (JObj (_effect_outcome_payload q receipt))
  | _ => _effect_event_rows s key = []
  end.
Record facts (s : store) : Prop := {
  f_proofs : NoDup (Dict.keys s.(attested));
  f_sound : ∀ ka, ka ∈ s.(attested) → ka.1 = ka.2.(attestation_id) ∧ attestation_sound ka.2 = true;
  f_keys : NoDup (Dict.keys s.(effects));
  f_row : ∀ kr, kr ∈ s.(effects) → kr.1 = kr.2.(ef_request).(rq_key) ∧ row_ok s kr.2;
  f_outcome : ∀ key, outcome_ok s key;
}.
Lemma facts_new : facts new_store.
Proof. split; [constructor|by intros ? ?%elem_of_nil|constructor|by intros ? ?%elem_of_nil|done]. Qed.

(** *** What the reads return *)
Lemma filter_iff_elem {A} (P Q : A → Prop) `{∀ x, Decision (P x), ∀ x, Decision (Q x)} (l : list A) :
  (∀ x, x ∈ l → P x ↔ Q x) → filter P l = filter Q l.
Proof.
  induction l as [|x l IH]; intros Hl; [done|]. rewrite !filter_cons.
  rewrite IH by (intros y Hy; apply Hl; by right). pose proof (Hl x (list_elem_of_here _ _)) as Hx.
  repeat case_decide; tauto.
Qed.
Lemma filter_selected {K V} `{EqDecision K} (key_of : V → K) (k : K) (d : list (K * V)) :
  NoDup (Dict.keys d) → (∀ kv, kv ∈ d → kv.1 = key_of kv.2) →
  filter (λ kv, kv.1 = k ∨ key_of kv.2 = k) d = match Dict.get k d with Some v => [(k, v)] | None => [] end.
Proof.
  intros Hd Hk. rewrite <-filter_key_get by done. apply filter_iff_elem. intros kv Hin.
  rewrite (Hk _ Hin). tauto.
Qed.
Lemma stored_attestation_good s id : facts s → stored_attestation_for_id s id = Ok (Dict.get id s.(attested)).
Proof.
  intros H. unfold stored_attestation_for_id.
  rewrite (filter_selected attestation_id); [|apply (f_proofs _ H)|intros kv Hkv; by apply (f_sound _ H)].
  destruct (Dict.get id (attested s)) as [a|] eqn:E; [|done].
  apply Dict.get_elem, (f_sound _ H) in E as [H1 H2]. simpl in *. by rewrite decide_True.
Qed.
Lemma effect_row_good s key :
  facts s → _effect_row s key = Ok ((λ row, (key, row)) <$> Dict.get key s.(effects)).
Proof.
  intros H. unfold _effect_row.
  rewrite (filter_selected (λ row, row.(ef_request).(rq_key)));
    [|apply (f_keys _ H)|intros kv Hkv; by apply (f_row _ H)].
  pose proof (f_outcome _ H key) as Ho. unfold outcome_ok in Ho.
  destruct (Dict.get key (effects s)) as [row|]; [done|]. by rewrite decide_True.
Qed.
Lemma event_at_elem s e :
  good s → e ∈ s.(events) → event_at s e.(ev_run) e.(ev_seq) = Some e.
Proof.
  intros H Hin. unfold event_at. destruct (g_known _ H _ Hin) as [r Hr].
  pose proof (g_seqs _ H _ _ Hr) as Hs. unfold seqs in Hs.
  assert (e ∈ run_events s (ev_run e)) as Hre by (by apply list_elem_of_filter).
  assert (NoDup (ev_seq <$> run_events s (ev_run e))) as Hnd by (rewrite Hs; apply NoDup_seq).
  revert Hre Hnd. generalize (run_events s (ev_run e)). intros l Hre Hnd.
  induction l as [|e' l IH]; [by apply elem_of_nil in Hre|]. rewrite fmap_cons in Hnd.
  apply NoDup_cons in Hnd as [Hn Hnd]. rewrite filter_cons.
  apply elem_of_cons in Hre as [<-|Hre]; [by rewrite decide_True|].
  rewrite decide_False; [by apply IH|]. intros Heq. apply Hn. rewrite Heq. by apply list_elem_of_fmap_2.
Qed.
Lemma lifecycle_good s key row :
  good s → facts s → Dict.get key s.(effects) = Some row → _validate_effect_lifecycle s key row = Ok tt.
Proof.
  intros Hg H Hr. pose proof (f_outcome _ H key) as Ho. unfold outcome_ok in Ho. rewrite Hr in Ho.
  unfold _validate_effect_lifecycle. cbv zeta. destruct row as [run q [[[receipt orun] n]|]]; simpl in *.
  - destruct Ho as (kind & ms & Hev & Hk & Hms). rewrite Hev.
    assert (mkEvent orun n kind (Some (rq_path q)) (Some (PMembers ms)) ∈ s.(events)) as Hin.
    { assert (mkEvent orun n kind (Some (rq_path q)) (Some (PMembers ms)) ∈ _effect_event_rows s key) as Hx
        by (rewrite Hev; by apply list_elem_of_singleton).
      by apply list_elem_of_filter in Hx as [_ ?]. }
    pose proof (event_at_elem _ _ Hg Hin) as He. simpl in He. rewrite He. simpl.
    rewrite decide_True by done. by rewrite bool_decide_eq_true_2.
  - by rewrite Ho.
Qed.
(** Reading an effect never finds damage. *)
Lemma effect_request_good s key row :
  good s → facts s → Dict.get key s.(effects) = Some row →
  _effect_request_from_row s key row = Ok row.(ef_request).
Proof.
  intros Hg H Hr. pose proof (Dict.get_elem _ _ _ Hr) as Hin.
  destruct (f_row _ H _ Hin) as [Hk (Hrun & Hkey & Hj & (r & Hgr & Hm) & Ha & Hrc)].
  cbn [fst snd] in Hk, Hrun, Hkey, Hj, Hgr, Hm, Ha, Hrc.
  unfold _effect_request_from_row. cbv zeta. rewrite Hgr.
  pose proof (fence_good _ _ _ Hg Hgr) as Hf. destruct (validated_run_fence s (ef_run row) r); [|done].
  cbn [mbind result_bind]. rewrite decide_False by (rewrite Hrun, Hm, <-Hkey, Hk, Hj; clear; intuition congruence).
  assert (match rq_attestation (ef_request row) with
          | None => Ok true
          | Some id => a ← stored_attestation_for_id s id; Ok (bool_decide (is_Some a))
          end = (Ok true : result exn bool)) as ->.
  { destruct (rq_attestation (ef_request row)) as [id|] eqn:Ei; [|done].
    rewrite stored_attestation_good by done. cbn. rewrite bool_decide_eq_true_2; [done|by apply Ha]. }
  cbn [mbind result_bind negb]. rewrite lifecycle_good by done.
  destruct (ef_receipt row) as [[[receipt orun] n]|] eqn:Er; [|done].
  unfold _effect_receipt_from_row. rewrite decide_False; [done|]. intros Hne. eapply Hne, Hrc. reflexivity.
Qed.
Definition receipt_in (s : store) (key : Digest) : option EffectReceipt :=
  row ← Dict.get key s.(effects); (λ r, r.1.1) <$> row.(ef_receipt).
Lemma receipt_of_good s key : good s → facts s → receipt_of s key = Ok (receipt_in s key).
Proof.
  intros Hg H. unfold receipt_of, receipt_in. rewrite effect_row_good by done. cbn [mbind result_bind].
  destruct (Dict.get key (effects s)) as [row|] eqn:Er; [|done]. simpl.
  rewrite (effect_request_good s key row) by done. cbn [mbind result_bind].
  destruct (f_row _ H _ (Dict.get_elem _ _ _ Er)) as [Hk (_ & _ & _ & _ & _ & Hrc)]. simpl in Hk.
  rewrite decide_False by (intros Hn; by apply Hn). destruct (ef_receipt row) as [[[receipt orun] n]|] eqn:Ef; [|done].
  simpl. unfold _effect_receipt_from_row. rewrite decide_False; [done|]. intros Hne. eapply Hne, Hrc, Ef.
Qed.

(** *** Every step keeps it *)
(** A step that leaves the effects, their proofs and their events alone. *)
Lemma facts_same s s' :
  facts s → s'.(attested) = s.(attested) → s'.(effects) = s.(effects) →
  (∀ key, _effect_event_rows s' key = _effect_event_rows s key) →
  (∀ run r, Dict.get run s.(runs) = Some r →
     ∃ r', Dict.get run s'.(runs) = Some r' ∧ r'.(row_manifest) = r.(row_manifest)) →
  facts s'.
Proof.
  intros H Ha He Hev Hr. split; rewrite ?Ha, ?He; try apply H.
  - intros kr Hkr. destruct (f_row _ H _ Hkr) as [Hk (H1 & H2 & H3 & (r & Hg & Hm) & H5 & H6)].
    split; [done|]. unfold row_ok. rewrite Ha. split_and!; try done.
    apply Hr in Hg as (r' & Hg' & Hm'). exists r'. split; [done|congruence].
  - intros key. unfold outcome_ok. rewrite He, Hev. apply (f_outcome _ H key).
Qed.
Lemma event_rows_write s x run r e key :
  _effect_event_rows (extend x (add_event e (set_run run r s))) key
  = _effect_event_rows s key ++ if decide (payload_key e.(ev_payload) = Some key) then [e] else [].
Proof.
  unfold _effect_event_rows.
  assert (∀ s', events (extend x s') = events s') as -> by (by destruct x). simpl.
  rewrite filter_app, filter_cons, filter_nil. done.
Qed.
Lemma row_manifest_write s x lease r st n run r0 :
  Dict.get lease s.(runs) = Some r → Dict.get run s.(runs) = Some r0 →
  ∃ r', Dict.get run (extend x (add_event n (set_run lease (row_status st (row_seq (S r.(next_event_seq)) r)) s))).(runs)
    = Some r' ∧ r'.(row_manifest) = r0.(row_manifest).
Proof.
  intros Hg Hr. rewrite get_runs_write. case_decide; [|by exists r0]. subst.
  assert (r = r0) as -> by congruence. by eexists.
Qed.
Lemma request_key_digest q : q.(rq_key) = _effect_request_key q → is_ok (Digest_well_formed q.(rq_key)) = true.
Proof. intros ->. unfold _effect_request_key, idempotency_key. by rewrite digest_of_well_formed. Qed.
Lemma outcome_payload_key q receipt :
  is_ok (Digest_well_formed q.(rq_key)) = true →
  payload_key (Some (PMembers (_effect_outcome_payload q receipt))) = Some q.(rq_key).
Proof. intros Hk. unfold payload_key, _effect_outcome_payload. simpl. by rewrite Hk. Qed.
Lemma facts_mint s a :
  facts s → Dict.get a.(attestation_id) s.(attested) = None → attestation_sound a = true →
  facts (add_attestation a s).
Proof.
  intros H Hn Hs. split; simpl; try apply H.
  - unfold Dict.keys. rewrite fmap_app. apply NoDup_app. split; [apply (f_proofs _ H)|].
    split; [|apply NoDup_singleton]. by intros k Hk ->%list_elem_of_singleton; apply Dict.get_None in Hn.
  - intros ka [Hka|Hka%list_elem_of_singleton]%elem_of_app; [by apply (f_sound _ H)|by subst].
  - intros kr Hkr. destruct (f_row _ H _ Hkr) as [Hk (H1 & H2 & H3 & H4 & H5 & H6)].
    split; [done|]. split_and!; try done. intros id Hid. destruct (H5 id Hid) as [b Hb].
    exists b. by apply Dict.get_app_l.
Qed.
Lemma facts_prepare s q r :
  facts s → filter (λ kr : Digest * effect_row, kr.1 = q.(rq_key) ∨ kr.2.(ef_request).(rq_key) = q.(rq_key)) s.(effects) = [] →
  _effect_event_rows s q.(rq_key) = [] →
  Dict.get q.(rq_run) s.(runs) = Some r → q.(rq_manifest) = r.(row_manifest) →
  q.(rq_key) = _effect_request_key q → json_ok (JObj q.(rq_subject)) = true →
  (∀ id, q.(rq_attestation) = Some id → stored_attestation_for_id s id ≠ Ok None) →
  facts (set_effect q.(rq_key) (mkEffect q.(rq_run) q None) s).
Proof.
  intros H _ Hev Hg Hm Hk Hj Ha. split; try apply H.
  - by apply Dict.NoDup_keys_set, (f_keys _ H).
  - intros kr [->|Hkr]%Dict.elem_of_set; [|by apply (f_row _ H)].
    split; [done|]. split_and!; try done; [by exists r|].
    intros id Hid. apply Ha in Hid. rewrite stored_attestation_good in Hid by done. simpl.
    destruct (Dict.get id (attested s)); [by eexists|done].
  - intros key. unfold outcome_ok. simpl. rewrite Dict.get_set. case_decide as Hkey; [by subst|].
    apply (f_outcome _ H key).
Qed.
Lemma facts_outcome s lease r st n kind row prepared q receipt :
  facts s → Dict.get lease s.(runs) = Some r →
  Dict.get q.(rq_key) s.(effects) = Some prepared → prepared.(ef_receipt) = None →
  row = mkEffect prepared.(ef_run) prepared.(ef_request) (Some (receipt, lease, n)) →
  json_ok (JObj q.(rq_subject)) = true → same_request prepared.(ef_request) q = true →
  receipt.(rc_request) = request_hash q → kind ∈ outcome_kinds receipt →
  facts (extend (WEffect q.(rq_key) row)
    (add_event (mkEvent lease n kind (Some q.(rq_path)) (Some (PMembers (_effect_outcome_payload q receipt))))
      (set_run lease (row_status st (row_seq n r)) s))).
Proof.
  intros H Hg Hp Hnone -> Hj Hs Hrc Hkind.
  destruct (f_row _ H _ (Dict.get_elem _ _ _ Hp)) as [Hk (H1 & H2 & H3 & (r0 & Hg0 & Hm) & H5 & _)].
  simpl in Hk, H1, H2, H3, Hg0, Hm, H5.
  destruct (same_request_fields _ _ H3 Hj Hs) as (Hrun & Hman & Hpath & Hk' & _ & Hkey & _ & _ & Hh).
  split; try apply H.
  - by apply Dict.NoDup_keys_set, (f_keys _ H).
  - simpl. intros kr [->|Hkr]%Dict.elem_of_set.
    + split; [done|]. split_and!; try done; simpl.
      * rewrite Dict.get_set. case_decide; [|by exists r0]. subst lease. exists (row_status st (row_seq n r)).
        split; [done|]. assert (r = r0) as -> by congruence. done.
      * intros ??? [= <- _ _]. by rewrite Hrc, Hh.
    + destruct (f_row _ H _ Hkr) as [Hk2 (G1 & G2 & G3 & (r1 & G4 & G4') & G5 & G6)].
      split; [done|]. split_and!; try done. simpl. rewrite Dict.get_set. case_decide; [|by exists r1].
      subst lease. eexists. split; [done|]. assert (r = r1) as -> by congruence. done.
  - intros key. unfold outcome_ok. rewrite event_rows_write. cbn [ev_payload].
    rewrite outcome_payload_key by (rewrite <-Hkey; by apply request_key_digest).
    simpl. rewrite Dict.get_set. pose proof (f_outcome _ H key) as Ho. unfold outcome_ok in Ho.
    destruct (decide (key = rq_key q)) as [->|Hne]; [|by rewrite decide_False, app_nil_r by congruence].
    rewrite decide_True by done. destruct prepared as [run0 q0 [[[]]|]]; [done|]. rewrite Hp in Ho. rewrite Ho. simpl in *.
    exists kind, (_effect_outcome_payload q receipt). rewrite Hpath.
    split; [done|]. split; [done|]. unfold _effect_outcome_payload. by rewrite Hk', Hkey, Hh.
Qed.
Lemma facts_write s lease r st kind path p x :
  facts s → Dict.get lease s.(runs) = Some r →
  extra_lawful s lease (S r.(next_event_seq)) st kind path p x →
  facts (extend x (add_event (mkEvent lease (S r.(next_event_seq)) kind path p)
                     (set_run lease (row_status st (row_seq (S r.(next_event_seq)) r)) s))).
Proof.
  intros H Hg Hx.
  assert ((∃ key row, x = WEffect key row) ∨ payload_key p = None) as [(key & row & ->)|Hp].
  { destruct x; simpl in Hx; [by right; apply Hx|by right; apply Hx|by right; apply Hx|left; eauto]. }
  { destruct Hx as (_ & prep & q & receipt & Hp1 & Hn & -> & Hj & Hs & <- & Hrc & Hk & -> & ->).
    by eapply facts_outcome. }
  destruct x as [|c|ls|key row];
    [apply (facts_same s);
     [done|done|done
     |intros key; rewrite event_rows_write; cbn [ev_payload]; rewrite Hp; by rewrite decide_False, app_nil_r by done
     |intros run r0 Hr; by apply row_manifest_write]..|].
  destruct Hx as (_ & prep & q & receipt & Hp1 & Hn & -> & Hj & Hs & <- & Hrc & Hk & -> & ->).
  by eapply facts_outcome.
Qed.
Lemma facts_step s s' : jstep s s' → facts s → facts s'.
Proof.
  intros Hstep H.
  destruct Hstep as [h m Hnm|a Hn Hs|q r0 H1 H2 H3 H4 H5 H6 H7|run mh ih inputs o Hn|run r o ep ex Hg _|run r Hg
                |lease r st kind path p x Hg _ _ Hx].
  - apply (facts_same s); try done. intros run r Hr. by exists r.
  - by apply facts_mint.
  - by eapply facts_prepare.
  - apply (facts_same s); try done. intros run' r Hr. exists r. split; [|done]. by apply Dict.get_app_l.
  - apply (facts_same s); try done. intros run' r' Hr. simpl. rewrite Dict.get_set. case_decide; [|by exists r'].
    subst. assert (r = r') as -> by congruence. by eexists.
  - apply (facts_same s); try done. intros run' r' Hr. simpl. rewrite Dict.get_set. case_decide; [|by exists r'].
    subst. assert (r = r') as -> by congruence. by eexists.
  - by apply facts_write.
Qed.
Lemma facts_steps s s' : rtc jstep s s' → facts s → facts s'.
Proof. induction 1; eauto using facts_step. Qed.

(** ** Effect facts are written once *)
(** The request prepared under a key. *)
Definition asked (s : store) (key : Digest) : option EffectRequest := ef_request <$> Dict.get key s.(effects).
Lemma unprepared s key :
  filter (λ kr : Digest * effect_row, kr.1 = key ∨ kr.2.(ef_request).(rq_key) = key) s.(effects) = [] →
  Dict.get key s.(effects) = None.
Proof.
  intros Hf. destruct (Dict.get key (effects s)) as [row|] eqn:E; [|done]. apply Dict.get_elem in E.
  assert ((key, row) ∈ filter (λ kr : Digest * effect_row, kr.1 = key ∨ kr.2.(ef_request).(rq_key) = key) s.(effects))
    as Hin by (apply list_elem_of_filter; split; [by left|done]).
  rewrite Hf in Hin. by apply elem_of_nil in Hin.
Qed.
Lemma effect_step s s' key row :
  jstep s s' → Dict.get key s.(effects) = Some row →
  ∃ row', Dict.get key s'.(effects) = Some row' ∧ ef_request row' = ef_request row ∧
    ∀ r, ef_receipt row = Some r → ef_receipt row' = Some r.
Proof.
  intros Hstep Hr.
  destruct Hstep as [| |q' r0 Hf _ _ _ _ _ _| | | |lease r1 st kind path p x _ _ _ Hx]; try by exists row.
  - simpl. rewrite Dict.get_set. case_decide; [|by exists row]. subst key.
    apply unprepared in Hf. congruence.
  - destruct x as [|c|ls|key' row']; try by exists row. simpl. rewrite Dict.get_set.
    case_decide; [|by exists row]. subst key'.
    destruct Hx as (_ & prep & q0 & receipt & Hp & Hn & -> & _). assert (prep = row) as -> by congruence.
    eexists. split; [done|]. split; [done|]. intros ? ?. congruence.
Qed.
Lemma asked_step s s' key q : jstep s s' → asked s key = Some q → asked s' key = Some q.
Proof.
  unfold asked. intros Hstep (row & Hr & ->)%fmap_Some.
  destruct (effect_step _ _ _ _ Hstep Hr) as (row' & -> & Hq & _). simpl. by rewrite Hq.
Qed.
Lemma receipt_step s s' key r : jstep s s' → receipt_in s key = Some r → receipt_in s' key = Some r.
Proof.
  unfold receipt_in. intros Hstep (row & Hr & Hf)%bind_Some.
  destruct (effect_step _ _ _ _ Hstep Hr) as (row' & -> & _ & Hrc). simpl.
  apply fmap_Some in Hf as (x & Hx & ->). by rewrite (Hrc _ Hx).
Qed.
Lemma asked_steps s s' key q : rtc jstep s s' → asked s key = Some q → asked s' key = Some q.
Proof. induction 1; eauto using asked_step. Qed.
Lemma receipt_steps s s' key r : rtc jstep s s' → receipt_in s key = Some r → receipt_in s' key = Some r.
Proof. induction 1; eauto using receipt_step. Qed.
