(* ===== verification/JournalLaws.v ===== *)
(** The laws of every history of the execution store: any sequence of lawful
    operations by any workers, hosts and clients, from an empty store on. *)

From S2P Require Import Prelude Identity Address Graph Capability Manifest Message Fixture Run Journal JournalSpec.

(** ** A store for the witnesses: a run of the fixture's sealed manifest,
    claimed, started, and claimed again after its lease expired *)
Module StoreFixture.
Definition manifest : ExecutionManifest := Eval vm_compute in Fixture.manifest None.
Definition inputs : list (string * json) :=
  [("seed", JStr "x"); ("question", JStr "which one?")].
Definition create : jcall :=
  JCreate "r" manifest manifest.(manifest_hash) manifest.(input_hash) inputs None.
Definition claim1 : jcall := JClaim "r" "a" 30 None None 0.
Definition lease1 : RunLease := mkLease "r" "a" 1 30.
Definition begin : jcall := JTransition lease1 [PENDING] RUNNING "RunStarted" None.
Definition path : ExecutionPath := mkPath (mkScope ["demo"; "begin"]) [].
Definition done_ : Checkpoint := mkCheckpoint "r" path (digest_of "inputs" 1 JNull) None [].
Definition complete : jcall := JComplete lease1 done_.
Definition finish : jcall := JTransition lease1 [RUNNING] SUCCEEDED "RunSucceeded" None.
Definition claim2 : jcall := JClaim "r" "b" 30 None None 40.
Definition lease2 : RunLease := mkLease "r" "b" 2 70.
Definition started : list jcall := [create; claim1; begin; complete].
Definition running : store := Eval vm_compute in run_jcalls started new_store.
Lemma running_eq : run_jcalls started new_store = running.
Proof. vm_compute. reflexivity. Qed.
Lemma running_good : good running.
Proof.
  rewrite <-running_eq. eapply good_steps; [apply jcalls_steps; vm_compute; reflexivity|apply good_new].
Qed.
Lemma claimed_again : claim_run "r" "b" 30 None None 40 running = (Ok lease2, (run_jcall claim2 running).2).
Proof. vm_compute. reflexivity. Qed.
End StoreFixture.

(** C18: The execution store never damages itself: after any calls by any owners that keep the
    writers' discipline (lawful: an appended event has no reserved kind or key, a transition
    leaves a live status under the kind of its target), from the empty store, every run passes
    the fence every writer re-proves, its events are numbered 1..n without gaps under its
    status, and every checkpoint reads back as stored. *)
Theorem store_never_damages_itself cs run path :
  forallb lawful cs = true →
  let s := run_jcalls cs new_store in
  (∀ r, Dict.get run s.(runs) = Some r →
     is_ok (validated_run_fence s run r) = true ∧
     ev_seq <$> run_events s run = seq 1 r.(next_event_seq) ∧ lifecycle s run r) ∧
  checkpoint run path s = (Ok (Dict.get (run, path) s.(checkpoints)), s).
Proof.
  intros Hl s. assert (good s) as H.
  { eapply good_steps; [by apply jcalls_steps|apply good_new]. }
  split.
  - intros r Hr. split; [by eapply fence_good|]. split; [by apply (g_seqs s H)|by apply (g_life s H)].
  - unfold checkpoint, ebind, get, lift. by rewrite (stored_checkpoint_good s run path H).
Qed.
Lemma store_never_damages_itself_witness :
  checkpoint "r" StoreFixture.path StoreFixture.running
  = (Ok (Some StoreFixture.done_), StoreFixture.running).
Proof.
  destruct (store_never_damages_itself StoreFixture.started "r" StoreFixture.path) as [_ E];
    [vm_compute; reflexivity|].
  rewrite StoreFixture.running_eq in E. rewrite E. vm_compute. reflexivity.
Defined.

(** C4: The fence works: once a run has been claimed again, the newer lease has a higher epoch,
    and whatever calls anyone makes afterwards, any call under the older lease changes nothing. *)
Theorem stale_owner_writes_nothing cs ds es run owner1 owner2 ttl1 ttl2 n1 n2 ex1 ex2 now1 now2 l1 l2 s1 s2 c :
  let s := run_jcalls cs new_store in
  forallb lawful (cs ++ ds ++ es) = true →
  claim_run run owner1 ttl1 n1 ex1 now1 s = (Ok l1, s1) →
  claim_run run owner2 ttl2 n2 ex2 now2 (run_jcalls ds s1) = (Ok l2, s2) →
  l1.(epoch) < l2.(epoch) ∧
  (call_lease c = Some l1 → (run_jcall c (run_jcalls es s2)).2 = run_jcalls es s2).
Proof.
  intros s Hl E1 E2. rewrite !forallb_app, !andb_true_iff in Hl. destruct Hl as (_ & Hds & Hes).
  apply claim_outcome in E1 as [[_ [? [=]]]|(row1 & l & [= <-] & Hg1 & _ & -> & ->)].
  apply claim_outcome in E2 as [[_ [? [=]]]|(row2 & l & [= <-] & Hg2 & _ & -> & ->)].
  set (s1 := set_run _ _ s) in *. set (s3 := run_jcalls ds s1) in *.
  assert (S (owner_epoch row1) ≤ owner_epoch row2) as Hle.
  { assert (run_epoch s1 run ≤ run_epoch s3 run) as He by (by apply run_epoch_steps, jcalls_steps).
    unfold run_epoch in He. rewrite Hg2 in He. unfold s1 in He. by rewrite get_set_run in He. }
  split; [simpl; lia|]. intros Hc. eapply unheld_writes_nothing; [done|].
  intros row. apply old_epoch_unheld. simpl.
  set (s2 := set_run run _ s3) in *.
  assert (run_epoch s2 run ≤ run_epoch (run_jcalls es s2) run) as He
    by (by apply run_epoch_steps, jcalls_steps).
  unfold run_epoch at 1 in He. unfold s2 at 1 in He. rewrite get_set_run in He. simpl in He. lia.
Qed.
(** The first owner completes a node after the second has claimed the run. *)
Lemma stale_owner_writes_nothing_witness :
  let s := run_jcalls [StoreFixture.claim2] StoreFixture.running in
  let late := JAppend StoreFixture.lease1 "NodeStarted" None None in
  (run_jcall late s).2 = s.
Proof.
  destruct (stale_owner_writes_nothing [StoreFixture.create]
    [StoreFixture.begin; StoreFixture.complete] [] "r" "a" "b" 30 30 None None None None 0 40
    StoreFixture.lease1 StoreFixture.lease2
    (run_jcalls [StoreFixture.create; StoreFixture.claim1] new_store)
    (run_jcall StoreFixture.claim2 StoreFixture.running).2
    (JAppend StoreFixture.lease1 "NodeStarted" None None)) as [_ E].
  - vm_compute. reflexivity.
  - vm_compute. reflexivity.
  - vm_compute. reflexivity.
  - exact (E eq_refl).
Defined.

(** Completions are write-once: after a completion was recorded, and after any further
    calls, it is still the stored one, recording the same fact again succeeds and changes
    nothing, and a different one is refused. *)
Theorem completions_are_write_once cs ds run path c lease c' :
  let s := run_jcalls cs new_store in
  forallb lawful (cs ++ ds) = true →
  checkpoint run path s = (Ok (Some c), s) →
  let s2 := run_jcalls ds s in
  checkpoint run path s2 = (Ok (Some c), s2) ∧ c.(cp_run) = run ∧ c.(cp_path) = path ∧
  (c'.(cp_run) = run → c'.(cp_path) = path → lease.(lease_run) = run →
   record_completion lease c' s2 =
     (if decide (_checkpoint_identity c = _checkpoint_identity c') then Ok tt
      else Raise (CheckpointConflict run (Some path)), s2)).
Proof.
  intros s Hl Hc s2. rewrite forallb_app, andb_true_iff in Hl. destruct Hl as [Hcs Hds].
  assert (good s) as H by (eapply good_steps; [by apply jcalls_steps|apply good_new]).
  assert (rtc jstep s s2) as Hs by (by apply jcalls_steps).
  assert (good s2) as H2 by (by eapply good_steps).
  unfold checkpoint, ebind, get, lift in Hc. rewrite (stored_checkpoint_good s run path H) in Hc.
  injection Hc as Hc. pose proof (checkpoint_steps _ _ _ _ _ Hs Hc) as Hc2.
  pose proof (g_key s H _ (Dict.get_elem _ _ _ Hc)) as Hk. simpl in Hk. injection Hk as Hk1 Hk2.
  split; [|split; [done|split; [done|]]].
  - unfold checkpoint, ebind, get, lift. by rewrite (stored_checkpoint_good s2 run path H2), Hc2.
  - intros Hr Hp Hlr. unfold record_completion.
    rewrite decide_False by (intros Hn; by rewrite Hr, Hlr in Hn). cbv zeta.
    unfold _txn, ebind, get, lift. rewrite Hr, Hp.
    rewrite (stored_checkpoint_good s2 run path H2), Hc2. by case_decide.
Qed.
(** Recording the completion again changes nothing; another one is a conflict. *)
Lemma completions_are_write_once_witness :
  record_completion StoreFixture.lease1 StoreFixture.done_ StoreFixture.running
  = (Ok tt, StoreFixture.running).
Proof.
  destruct (completions_are_write_once StoreFixture.started [] "r" StoreFixture.path
    StoreFixture.done_ StoreFixture.lease1 StoreFixture.done_) as (_ & _ & _ & E).
  - vm_compute. reflexivity.
  - vm_compute. reflexivity.
  - rewrite StoreFixture.running_eq in E. unfold run_jcalls in E at 1. simpl foldl in E.
    rewrite decide_True in E by reflexivity. apply E; reflexivity.
Defined.

(** A SUCCEEDED or CANCELLED run stays as it ended: whatever calls come later, under
    whatever lease, its status, inputs and events are the same and it has no new checkpoint. *)
Theorem finished_runs_are_final cs ds run r :
  let s := run_jcalls cs new_store in
  forallb lawful (cs ++ ds) = true →
  Dict.get run s.(runs) = Some r → r.(run_status) ∈ [SUCCEEDED; CANCELLED] →
  let s2 := run_jcalls ds s in
  ∃ r2, Dict.get run s2.(runs) = Some r2 ∧ r2.(run_status) = r.(run_status) ∧
    r2.(row_inputs) = r.(row_inputs) ∧ run_events s2 run = run_events s run ∧
    ∀ path, Dict.get (run, path) s.(checkpoints) = None → Dict.get (run, path) s2.(checkpoints) = None.
Proof.
  intros s Hl Hg Hst s2. rewrite forallb_app, andb_true_iff in Hl. destruct Hl as [Hcs Hds].
  assert (rtc jstep s s2) as Hs by (by apply jcalls_steps).
  assert (finished s run r.(run_status) (run_events s run) (checkpointed s run) r.(row_inputs)) as Hf
    by (by exists r).
  apply (finished_steps _ _ _ _ _ _ _ Hst Hs) in Hf as (r2 & Hg2 & H1 & H2 & H3 & H4).
  exists r2. split_and!; try done. intros path. by eapply finished_no_checkpoint.
Qed.
Lemma finished_runs_are_final_witness :
  ∃ r2, Dict.get "r" (run_jcalls [StoreFixture.claim2; JCancel "r" None]
      (run_jcalls (StoreFixture.started ++ [StoreFixture.finish]) new_store)).(runs) = Some r2 ∧
    r2.(run_status) = SUCCEEDED.
Proof.
  destruct (finished_runs_are_final (StoreFixture.started ++ [StoreFixture.finish])
    [StoreFixture.claim2; JCancel "r" None] "r"
    (mkRun SUCCEEDED (Some "a") 1 (Some 30%Z) 3 false StoreFixture.manifest.(manifest_hash)
       StoreFixture.manifest.(input_hash) StoreFixture.inputs None)) as (r2 & Hg & Hs & _).
  - vm_compute. reflexivity.
  - vm_compute. reflexivity.
  - left.
  - exists r2. split; [exact Hg|exact Hs].
Defined.
