(* ===== verification/Units.v ===== *)
(** The static part of the walker ([src/constructicon/runtime/walker.py]):
    the execution units of a sealed manifest, who produces what, their order,
    and the dictionaries of values keyed by port address. *)

From S2P Require Import Prelude Identity Address Graph Component Capability Manifest Message Run Journal.

(** The dict of values: [_address_key] of a port address to its value. *)
Definition values := list (string * json).

Definition _address_key (a : PortAddress) : string :=
  match a with
  | NodePortAddress s n p => "node:" +:+ str_join "/" s.(segments) +:+ ":" +:+ n +:+ ":" +:+ p
  | GraphInputAddress s p => "in:" +:+ str_join "/" s.(segments) +:+ ":" +:+ p
  | GraphOutputAddress s p => "out:" +:+ str_join "/" s.(segments) +:+ ":" +:+ p
  end.

Fixpoint collect_sources (vs : values) (sources : list PortAddress) : result exn (list json) :=
  match sources with
  | [] => Ok []
  | source :: sources =>
      match Dict.get (_address_key source) vs with
      | None => Raise (ContractViolation (ValueUnavailable (_address_key source)))
      | Some v => rest ← collect_sources vs sources; Ok (v :: rest)
      end
  end.
Definition _collect (vs : values) (sources : list PortAddress) (port : Port) : result exn json :=
  resolved ← collect_sources vs sources;
  if decide (port.(port_cardinality) = CardMany) then Ok (JArr resolved) else
  match resolved with
  | [v] => Ok v
  | _ => Raise (ContractViolation (CardinalityMismatch port.(port_name) (length resolved)))
  end.

Section units.
Context {NodeImpl : Type}.

Record _Instance := mkInstance {
  in_scope : ScopePath;
  in_component : string;
  in_version : Digest;
  in_definition : ComponentDef;
  in_impl : option NodeImpl;
}.
Record _Unit := mkUnit {
  unit_scope : ScopePath;
  unit_instance : option _Instance;
  unit_loop : option LoopResolution;
}.

(** ** The instances of a manifest *)

(** What the registry binds one version to; [composite] is its loadability. *)
Record BoundVersion := mkBound {
  bound_stored : StoredVersion;
  composite : bool;
  bound_impl : option NodeImpl;
}.
Fixpoint _instances (bound : string → Digest → BoundVersion) (rs : list ComponentResolution) :
    result exn (list _Instance) :=
  match rs with
  | [] => Ok []
  | r :: rs =>
      let b := bound r.(res_component) r.(resolved_version) in
      if b.(composite) then _instances bound rs else
      match b.(bound_impl) with
      | None => Raise (ContractViolation (NoImplementation r.(res_scope)))
      | Some impl =>
          rest ← _instances bound rs;
          Ok (mkInstance r.(res_scope) r.(res_component) r.(resolved_version)
                b.(bound_stored).(definition) (Some impl) :: rest)
      end
  end.
Fixpoint _materialization_instances (snapshot : RegistrySnapshot) (rs : list ComponentResolution) :
    result exn (list _Instance) :=
  match rs with
  | [] => Ok []
  | r :: rs =>
      match snapshot_get snapshot r.(res_component) r.(resolved_version) with
      | None => Raise (JournalDamaged (MissingComponent r.(res_scope)))
      | Some stored =>
          match stored.(definition).(body) with
          | CGraph _ => _materialization_instances snapshot rs
          | CPython _ =>
              rest ← _materialization_instances snapshot rs;
              Ok (mkInstance r.(res_scope) r.(res_component) r.(resolved_version)
                    stored.(definition) None :: rest)
          end
      end
  end.

(** ** Units and their producers *)
Definition segs (s : ScopePath) : list string := s.(segments).
(** [scope.segments[:-1]] and [scope.segments[-1]] *)
Definition level_of (s : ScopePath) : ScopePath := mkScope (take (length s.(segments) - 1) s.(segments)).
Definition node_of (s : ScopePath) : string := from_option id "" (last s.(segments)).

Definition _root_units (m : ExecutionManifest) (instances : list _Instance) : list _Unit :=
  let member_scopes := l ← m.(resolved_loops); l.(member_order) in
  ((λ i, mkUnit i.(in_scope) (Some i) None) <$> filter (λ i, i.(in_scope) ∉ member_scopes) instances)
  ++ ((λ l, mkUnit l.(loop_scope) None (Some l)) <$> m.(resolved_loops)).

Definition _atomic_output_address (i : _Instance) (p : Port) : PortAddress :=
  NodePortAddress (level_of i.(in_scope)) (node_of i.(in_scope)) p.(port_name).
Definition input_address (i : _Instance) (p : Port) : PortAddress :=
  NodePortAddress (level_of i.(in_scope)) (node_of i.(in_scope)) p.(port_name).
Definition unit_outputs (u : _Unit) : list PortAddress :=
  match u.(unit_instance), u.(unit_loop) with
  | Some i, _ => _atomic_output_address i <$> i.(in_definition).(def_outputs)
  | None, Some l => export_destination <$> l.(exports)
  | None, None => []
  end.
Definition _unit_producer_index (units : list _Unit) : list (string * _Unit) :=
  foldl (λ index u, foldl (λ index a, Dict.set (_address_key a) u index) index (unit_outputs u)) [] units.
Definition _member_producer_index (members : list _Instance) : list (string * _Instance) :=
  foldl (λ index i, foldl (λ index p, Dict.set (_address_key (_atomic_output_address i p)) i index)
                      index i.(in_definition).(def_outputs)) [] members.

Abbreviation bindings := (list (string * ResolvedPortBinding)) (only parsing).
Definition instance_bindings (i : _Instance) (bs : bindings) : list ResolvedPortBinding :=
  omap (λ p, Dict.get (_address_key (input_address i p)) bs) i.(in_definition).(def_inputs).
Definition _unit_input_bindings (u : _Unit) (bs : bindings) : list ResolvedPortBinding :=
  match u.(unit_loop), u.(unit_instance) with
  | Some l, _ => l.(initial_bindings)
  | None, None => []
  | None, Some i => instance_bindings i bs
  end.

(** ** The order of units *)

(** The producers a unit reads from, as [dependencies[scope]] sorted. *)
Definition producers_of {P} (key : P → list string) (producer_of : list (string * P))
    (read : list ResolvedPortBinding) : list (list string) :=
  b ← read; s ← b.(sources); option_list (key <$> Dict.get (_address_key s) producer_of).
Definition unit_dependencies (bs : bindings) (producer_of : list (string * _Unit)) (u : _Unit) :
    list (list string) :=
  remove_dups (producers_of (λ u, segs u.(unit_scope)) producer_of (_unit_input_bindings u bs)).
(** [dependencies]: a later unit of the same scope adds to the same set. *)
Definition dependencies (bs : bindings) (producer_of : list (string * _Unit)) (units : list _Unit)
    (scope : list string) : list (list string) :=
  py_sorted segs_leb (remove_dups
    (u ← filter (λ u, segs u.(unit_scope) = scope) units; unit_dependencies bs producer_of u)).
End units.
Arguments _Instance : clear implicits.
Arguments _Unit : clear implicits.
Arguments BoundVersion : clear implicits.

(** Depth-first placement: a node after its dependencies. [placed] is the order
    so far, whose elements are the set of placed nodes. *)
Section placement.
Context {A : Type} `{EqDecision A} (deps : A → list A).
Fixpoint place_each (f : A → list A → result exn (list A)) (ds : list A) (placed : list A) :
    result exn (list A) :=
  match ds with
  | [] => Ok placed
  | d :: ds => placed ← f d placed; place_each f ds placed
  end.
Fixpoint place (fuel : nat) (trail : list A) (scope : A) (placed : list A) : result exn (list A) :=
  match fuel with
  | O => Raise OutOfFuel
  | S fuel =>
      if decide (scope ∈ placed) then Ok placed
      else if decide (scope ∈ trail) then Raise (ContractViolation RootDependencyCycle)
      else
        placed ← place_each (place fuel (trail ++ [scope])) (deps scope) placed;
        Ok (placed ++ [scope])
  end.
End placement.

Section ordered.
Context {NodeImpl : Type}.
Abbreviation bindings := (list (string * ResolvedPortBinding)) (only parsing).
Definition unit_segs (u : _Unit NodeImpl) : list string := segs u.(unit_scope).
Definition by_scope (units : list (_Unit NodeImpl)) : list (list string * _Unit NodeImpl) :=
  Dict.of_pairs ((λ u, (unit_segs u, u)) <$> units).
Definition _ordered_units (units : list (_Unit NodeImpl)) (bs : bindings)
    (producer_of : list (string * _Unit NodeImpl)) : result exn (list (_Unit NodeImpl)) :=
  let fuel := S (length units) in
  let roots := unit_segs <$> sorted_by segs_leb unit_segs units in
  match place_each (place (dependencies bs producer_of units) fuel []) roots [] with
  | Ok placed => Ok (omap (λ scope, Dict.get scope (by_scope units)) placed)
  | Raise e => Raise e
  end.

(** ** Dependency reports *)
Fixpoint report_producers {P} (scope_of : P → ScopePath) (path_of : P → ExecutionPath)
    (producer_of : list (string * P)) (status : list (list string * InvocationStatus))
    (seen : list (list string)) (sources : list PortAddress) : list ProducerStatus :=
  match sources with
  | [] => []
  | source :: sources =>
      match Dict.get (_address_key source) producer_of with
      | None => report_producers scope_of path_of producer_of status seen sources
      | Some p =>
          let scope := segs (scope_of p) in
          if decide (scope ∈ seen) then report_producers scope_of path_of producer_of status seen sources
          else mkProducer (path_of p) (Dict.get_or scope Queued status)
               :: report_producers scope_of path_of producer_of status (scope :: seen) sources
      end
  end.
Definition _unit_dependency_report (u : _Unit NodeImpl) (bs : bindings)
    (producer_of : list (string * _Unit NodeImpl)) (status : list (list string * InvocationStatus)) :
    DependencyReport :=
  mkReport (mkPath u.(unit_scope) [])
    (report_producers unit_scope (λ p, mkPath p.(unit_scope) []) producer_of status []
       (b ← _unit_input_bindings u bs; b.(sources))).
Definition _member_dependency_report (i : _Instance NodeImpl) (frame : IterationFrame) (bs : bindings)
    (producer_of : list (string * _Instance NodeImpl)) (status : list (list string * InvocationStatus)) :
    DependencyReport :=
  mkReport (mkPath i.(in_scope) [frame])
    (report_producers in_scope (λ p, mkPath p.(in_scope) [frame]) producer_of status []
       (b ← instance_bindings i bs; b.(sources))).

(** ** Inputs and outputs of one atomic unit *)
Fixpoint node_inputs_loop (i : _Instance NodeImpl) (vs : values) (bs : bindings) (ports : list Port)
    (inputs : list (string * json)) : result exn (list (string * json)) :=
  match ports with
  | [] => Ok inputs
  | p :: ports =>
      match Dict.get (_address_key (input_address i p)) bs with
      | None =>
          if decide (p.(port_cardinality) = CardOptional)
          then node_inputs_loop i vs bs ports (Dict.set p.(port_name) JNull inputs)
          else Raise (ContractViolation (InputUnbound i.(in_scope) p.(port_name)))
      | Some b =>
          v ← _collect vs b.(sources) p;
          node_inputs_loop i vs bs ports (Dict.set p.(port_name) v inputs)
      end
  end.
Definition _node_inputs (i : _Instance NodeImpl) (vs : values) (bs : bindings) :
    result exn (list (string * json)) :=
  node_inputs_loop i vs bs i.(in_definition).(def_inputs) [].

(** [json_value] of a value that was decoded from JSON. *)
Definition json_again (j : json) : result exn json :=
  match json_value (embed j) with Ok j => Ok j | Raise e => Raise (ValueError e) end.
Fixpoint publish_loop (i : _Instance NodeImpl) (outputs : list (string * json)) (ports : list Port)
    (vs : values) : result exn values :=
  match ports with
  | [] => Ok vs
  | p :: ports =>
      match Dict.get p.(port_name) outputs with
      | None => Raise (JournalDamaged (OutputsOmit i.(in_scope) p.(port_name)))
      | Some v =>
          v ← json_again v;
          publish_loop i outputs ports (Dict.set (_address_key (_atomic_output_address i p)) v vs)
      end
  end.
Definition _publish_atomic_outputs (i : _Instance NodeImpl) (outputs : list (string * json))
    (vs : values) : result exn values :=
  publish_loop i outputs i.(in_definition).(def_outputs) vs.
End ordered.

(** ** The root's outputs *)
Fixpoint graph_outputs_loop (root : ScopePath) (vs : values)
    (bs : list (string * ResolvedPortBinding)) (ports : list Port) (outputs : list (string * json)) :
    result exn (list (string * json)) :=
  match ports with
  | [] => Ok outputs
  | p :: ports =>
      match Dict.get (_address_key (GraphOutputAddress root p.(port_name))) bs with
      | None => graph_outputs_loop root vs bs ports outputs
      | Some b =>
          v ← _collect vs b.(sources) p;
          graph_outputs_loop root vs bs ports (Dict.set p.(port_name) v outputs)
      end
  end.
Definition root_scope (m : ExecutionManifest) : ScopePath := mkScope [graph_name m.(source_graph)].
Definition _graph_outputs (m : ExecutionManifest) (vs : values)
    (bs : list (string * ResolvedPortBinding)) : result exn (list (string * json)) :=
  graph_outputs_loop (root_scope m) vs bs (graph_outputs m.(source_graph)) [].
Definition connection_index (m : ExecutionManifest) : list (string * ResolvedPortBinding) :=
  Dict.of_pairs ((λ b, (_address_key b.(destination), b)) <$> m.(resolved_connections)).
