(* ===== verification/Registry.v ===== *)
(** The component registry
    ([src/constructicon/runtime/registry.py]): the in-memory store, and
    [ComponentRegistry]'s registration, host binding, activation, promotion,
    rollback and reverse dependencies over the durable store.

    The host's import system is a parameter: an object is what [import_module]
    and [getattr] return, compared by identity. *)

From S2P Require Import Prelude Identity Address Graph Component Capability Manifest Run Effect Journal.
From S2P Require Import EffectStore RegistryStore Admission Units.
From Stdlib Require Import Ascii.

(** ** [InMemoryRegistryStore] *)
Module InMemory.
Record memory := mkMemory {
  _versions : gmap string (gmap string StoredVersion);
  _order : list (string * list string);
  _version_seq : gmap (string * string) N;
  _promotions : list (N * PromotionRecord);
  _registration_seq : N;
  _promotion_seq : N;
}.
Definition new_memory : memory := mkMemory ∅ [] ∅ [] 0 0.
Definition Mem := eff memory rexn.

Fixpoint cut_hashes (m : memory) (limit : N) (name : string) (hashes : list string) (acc : cut_components) :
    result rexn cut_components :=
  match hashes with
  | [] => Ok acc
  | key :: hashes =>
      match m.(_version_seq) !! (name, key), m.(_versions) !! name ≫= lookup key with
      | Some n, Some v =>
          if decide (limit < n)%N then cut_hashes m limit name hashes acc
          else cut_hashes m limit name hashes
                 (<[name := <[key := v]> (default ∅ (acc.1 !! name))]> acc.1,
                  <[name := default [] (acc.2 !! name) ++ [key]]> acc.2)
      | _, _ => Raise (MissingKey name key)
      end
  end.
Fixpoint cut_names (m : memory) (limit : N) (order : list (string * list string)) (acc : cut_components) :
    result rexn cut_components :=
  match order with
  | [] => Ok acc
  | (name, hashes) :: order => acc ← cut_hashes m limit name hashes acc; cut_names m limit order acc
  end.
Fixpoint cut_promotions (limit : N) (versions : gmap string (gmap string StoredVersion))
    (rows : list (N * PromotionRecord)) (acc : cut_pointers) : result rexn cut_pointers :=
  match rows with
  | [] => Ok acc
  | (n, p) :: rows =>
      if decide (limit < n)%N then cut_promotions limit versions rows acc
      else if negb (retained versions p.(promoted) p.(to_version))
              || match p.(from_version) with
                 | Some before => negb (retained versions p.(promoted) before)
                 | None => false
                 end
      then Raise (InvalidRegistryRevision (Some CutEndpoints))
      else if decide (acc.1 !! p.(promoted) ≠ p.(from_version))
      then Raise (InvalidRegistryRevision (Some CutDiscontinuous))
      else cut_promotions limit versions rows (move_pointer acc p)
  end.
Definition snapshot_of (m : memory) (revision : option RegistryRevision) : result rexn RegistrySnapshot :=
  let current := mkRevision m.(_registration_seq) m.(_promotion_seq) in
  let selected := default current revision in
  if decide ((current.(registration_seq) < selected.(registration_seq))%N
             ∨ (current.(promotion_seq) < selected.(promotion_seq))%N)
  then Raise (InvalidRegistryRevision None)
  else
    '(versions, order) ← cut_names m selected.(registration_seq) m.(_order) (∅, ∅);
    '(stable, history) ← cut_promotions selected.(promotion_seq) versions m.(_promotions) (∅, ∅);
    Ok (mkSnapshot selected versions order stable history).
Definition snapshot (revision : option RegistryRevision) : Mem RegistrySnapshot :=
  let* m := get in lift (snapshot_of m revision).

Definition store_version (v : StoredVersion) : Mem unit :=
  let* m := get in
  let name := v.(definition).(def_name) in
  let key := v.(stored_hash) in
  match m.(_versions) !! name ≫= lookup key with
  | Some existing =>
      if same_definition existing.(definition) v.(definition) then eret tt
      else raise (RegistryDamaged (ComponentStoredDifferently name key))
  | None =>
      modify (λ m,
        let n := (m.(_registration_seq) + 1)%N in
        mkMemory (<[name := <[key := v]> (default ∅ (m.(_versions) !! name))]> m.(_versions))
          (Dict.append name key m.(_order)) (<[(name, key) := n]> m.(_version_seq))
          m.(_promotions) n m.(_promotion_seq))
  end.
Definition current_stable (m : memory) (component : string) : option string :=
  foldl (λ current np, if decide (np.2.(promoted) = component) then Some np.2.(to_version) else current)
    None m.(_promotions).
Definition prior_promotion (m : memory) (id : string) : option PromotionRecord :=
  head (filter (λ p, p.(Component.attestation_id) = id) m.(_promotions).*2).
Definition store_promotion (record : PromotionRecord) : Mem PromotionRecord :=
  let* m := get in
  match prior_promotion m record.(Component.attestation_id) with
  | Some prior =>
      if same_identity_as prior record then eret prior
      else raise (RegistryDamaged (PromotionContradictory record.(Component.attestation_id)))
  | None =>
      let current := current_stable m record.(promoted) in
      if decide (current ≠ record.(from_version)) then
        raise (AdmissionRefused [StableMoved record.(promoted) record.(from_version) current])
      else if negb (retained m.(_versions) record.(promoted) record.(to_version)) then
        raise (RegistryDamaged (PromotionEndpoint record.(Component.attestation_id)))
      else
        modify (λ m,
          let n := (m.(_promotion_seq) + 1)%N in
          mkMemory m.(_versions) m.(_order) m.(_version_seq) (m.(_promotions) ++ [(n, record)])
            m.(_registration_seq) n);;;
        eret record
  end.
Definition promotion_for_attestation (id : string) : Mem (option PromotionRecord) :=
  let* m := get in eret (prior_promotion m id).
End InMemory.

(** ** References *)

(** Each occurrence, in node order. *)
Fixpoint _refs_in (g : Graph) : list string :=
  let 'mkGraph _ ns _ _ _ := g in mjoin (refs_in_node <$> ns)
with refs_in_node (n : GraphNode) : list string :=
  let 'mkNode _ b := n in
  match b with
  | BRef r => [r.(component)]
  | BGraph g => _refs_in g
  | BLoop l => refs_in_loop l
  end
with refs_in_loop (l : Loop) : list string :=
  let 'mkLoop b _ _ _ := l in
  match b with LRef r => [r.(component)] | LGraph g => _refs_in g end.
Definition references (d : ComponentDef) : list string :=
  match d.(body) with CGraph g => _refs_in g | CPython _ => [] end.
(** [direct.get(name, ())]: the components some version of which names it. *)
Definition dependents (s : RegistrySnapshot) (name : string) : list string :=
  filter (λ owner, Exists (λ v : string * StoredVersion, name ∈ references v.2.(definition))
            (map_to_list (default ∅ (s.(versions) !! owner)))) (names s).
(** The loop over [frontier], whose end comes first here. *)
Fixpoint rdeps_loop (fuel : nat) (s : RegistrySnapshot) (seen frontier : list string) : option (list string) :=
  match frontier with
  | [] => Some seen
  | current :: frontier =>
      match fuel with
      | O => None
      | S fuel =>
          let fresh := filter (λ d, d ∉ seen) (dependents s current) in
          rdeps_loop fuel s (fresh ++ seen) (reverse fresh ++ frontier)
      end
  end.
Definition rdeps_in (s : RegistrySnapshot) (name : string) : option (list string) :=
  py_sorted String.leb <$> rdeps_loop (S (length (names s))) s [] [name].

(** ** Planned moves *)
Inductive row_origin := Existing | CanonicalNew.
#[export] Instance row_origin_eq_dec : EqDecision row_origin.
Proof. solve_decision. Defined.
Record PlannedRegistration := mkPlanned { planned : StoredVersion; origin : row_origin }.
Record PlannedPolicyPromotion := mkPolicyPlan {
  pp_component : string;
  pp_baseline : option Digest;
  pp_target : Digest;
  pp_draft : AttestationDraft;
  pp_attestation : string;
}.

(** The check of a policy proof is named by its policy. *)
Definition _policy_attestation_draft (component : string) (version : Digest) (baseline : option Digest)
    (policy detail : string) : AttestationDraft :=
  mkDraft ActionPromote (SubjectComponent (mkComponentProof component version baseline))
    [mkCheck policy CheckPassed detail "0.0"]
    (digest_of "check-set" 1 (JObj [("policy", JStr policy); ("v", JInt 1)])) []
    (digest_of "manifest" 1 (JObj [("policy", JStr policy)])) None.
Definition BOOTSTRAP : string := "bootstrap-initial".
Definition BOOTSTRAP_DETAIL : string := "freshly registered version with a validated contract".
Definition policy_plan (component : string) (version : Digest) (baseline : option Digest)
    (policy detail : string) : PlannedPolicyPromotion :=
  let draft := _policy_attestation_draft component version baseline policy detail in
  mkPolicyPlan component baseline version draft (attestation_id_for draft).

Definition to_digest (r : result value_error (option Digest)) : result rexn (option Digest) :=
  match r with Ok d => Ok d | Raise e => Raise (BadDigest e) end.
(** [snapshot.stable_version(component)] *)
Definition stable_of (s : RegistrySnapshot) (component : string) : R (option Digest) :=
  lift (to_digest (stable_version s component)).
Definition each_digest (l : list string) : result rexn (list Digest) :=
  foldr (λ v acc, d ← to_digest (Some <$> Digest_well_formed v); ds ← acc; Ok (default v d :: ds)) (Ok []) l.

(** ** [ComponentRegistry] *)
Section host.
Context {obj : Type} `{EqDecision obj}.
Context (import_module : string → option obj) (getattr : obj → string → option obj) (callable : obj → bool).
(** [inspect.getsource], [inspect.unwrap] and the adapter's revision attribute. *)
Context (getsource : obj → option string) (unwrap : obj → obj) (adapter_revision : obj → option string).

(** [qualname.split(".")] *)
Fixpoint split_chars (l : list ascii) : list (list ascii) :=
  match l with
  | [] => [[]]
  | c :: l =>
      if decide (c = "."%char) then [] :: split_chars l
      else match split_chars l with
           | part :: parts => (c :: part) :: parts
           | [] => [[c]]
           end
  end.
Definition split_dots (s : string) : list string :=
  String.string_of_list_ascii <$> split_chars (String.list_ascii_of_string s).
(** [x in s] of strings. *)
Definition contains (x s : string) : bool :=
  bool_decide (is_Some (String.index 0 x s)).

Definition source_digest_for (impl : obj) : option Digest :=
  match adapter_revision impl with
  | None => (λ source, digest_of "python-source" 1 (JStr source)) <$> getsource impl
  | Some revision =>
      (λ source, digest_of "python-source" 2
         (JObj [("source", JStr source); ("adapter_revision", JStr revision)]))
        <$> getsource (unwrap impl)
  end.

Record Loadability := mkLoadability {
  load_status : loadability_status;
  expected_digest : option Digest;
  observed_digest : option Digest;
}.
Fixpoint walk_qualname (target : obj) (parts : list string) : option obj :=
  match parts with
  | [] => Some target
  | part :: parts => target ← getattr target part; walk_qualname target parts
  end.
Definition _load (module qualname : string) : result loadability_status obj :=
  match import_module module with
  | None => Raise MissingModule
  | Some loaded =>
      match walk_qualname loaded (split_dots qualname) with
      | None => Raise MissingQualname
      | Some target => if callable target then Ok target else Raise NotCallable
      end
  end.

(** *** Registration *)
Definition requirement_faults (d : ComponentDef) : list admission_refusal :=
  match d.(capability_requirements) with
  | None => []
  | Some reqs =>
      let aliases := req_alias <$> reqs in
      match sorted_set (filter (λ a, (1 < count_of a aliases)%nat) aliases) with
      | [] => []
      | duplicates => [DuplicateAliases d.(def_name) duplicates]
      end
      ++ (reqs ≫= λ r, if decide (r.(req_alias) = "" ∨ r.(req_kind) = "")
                       then [EmptyRequirement d.(def_name)] else [])
  end.
Definition drift_faults (d : ComponentDef) (declared : option Digest) (impl : obj) : list admission_refusal :=
  match source_digest_for impl, declared with
  | None, _ => [SourceUnreadable d.(def_name)]
  | Some observed, None => [SourceDigestRequired d.(def_name) observed]
  | Some observed, Some declared =>
      if decide (declared ≠ observed) then [DriftAtRegistration d.(def_name) declared observed] else []
  end.
Definition _validate_atomic_identity (d : ComponentDef) (body : PythonRef) (impl : obj) : R unit :=
  let faults :=
    (if contains "<locals>" body.(qualname) then [LocalClosure d.(def_name) body.(qualname)] else [])
    ++ (if decide (body.(py_contract_hash) ≠ component_contract d)
        then [ContractHashDiffers d.(def_name)] else [])
    ++ (SchemaFaults <$> embedded_schema_faults d)
    ++ requirement_faults d
    ++ drift_faults d body.(source_digest) impl in
  match faults with [] => eret tt | _ => raise (AdmissionRefused faults) end.

Definition check_composite (d : ComponentDef) (g : Graph) (impl : option obj) : R unit :=
  if decide (is_Some impl) then raise (CompositeWithImplementation d.(def_name)) else
  if decide (is_Some d.(capability_requirements)) then raise (CompositeWithRequirements d.(def_name)) else
  match embedded_schema_faults d with
  | [] => if boundary_differs d g then raise (BoundaryNotExported d.(def_name)) else eret tt
  | faults => raise (AdmissionRefused (SchemaFaults <$> faults))
  end.
Definition check_atomic (d : ComponentDef) (body : PythonRef) (impl : option obj) : R unit :=
  if decide (body.(py_module) = "__main__") then raise (MainModule d.(def_name)) else
  match _load body.(py_module) body.(qualname) with
  | Raise status => raise (NotColdImportable d.(def_name) status)
  | Ok loaded =>
      if match impl with Some i => bool_decide (loaded ≠ i) | None => false end
      then raise (ImplementationNotTarget d.(def_name))
      else _validate_atomic_identity d body loaded
  end.
(** [snapshot.versions.get(name, {}).values()], in registration order. *)
Definition versions_of (s : RegistrySnapshot) (name : string) : list StoredVersion :=
  omap (λ h, snapshot_get s name h) (default [] (s.(order) !! name)).
Definition plan_registration (d : ComponentDef) (impl : option obj) (registered_at : string) :
    R PlannedRegistration :=
  match d.(body) with
  | CGraph g => check_composite d g impl
  | CPython p => check_atomic d p impl
  end;;;
  let* s := snapshot None in
  let matches := filter (λ v, same_definition v.(definition) d = true) (versions_of s d.(def_name)) in
  match matches with
  | v :: _ =>
      if decide (1 < length (remove_dups (stored_hash <$> matches)))
      then raise (RegistryDamaged (SemanticIdentities d.(def_name) (sorted_set (stored_hash <$> matches))))
      else eret (mkPlanned v Existing)
  | [] =>
      let content := content_hash d in
      match snapshot_get s d.(def_name) content with
      | Some collision =>
          if same_definition collision.(definition) d
          then eret (mkPlanned (mkStored d content registered_at) CanonicalNew)
          else raise (RegistryDamaged (IdentityCollision d.(def_name) content))
      | None => eret (mkPlanned (mkStored d content registered_at) CanonicalNew)
      end
  end.
Definition impl_table : Type := list ((string * Digest) * obj).
(** Returns the content hash and the process's implementations after the call. *)
Definition register (impls : impl_table) (d : ComponentDef) (impl : option obj) (now : string) :
    R (Digest * impl_table) :=
  let* p := plan_registration d impl now in
  ewhen (bool_decide (p.(origin) = CanonicalNew)) (store_version p.(planned));;;
  let content := p.(planned).(stored_hash) in
  eret (content, match impl with
                 | Some i => Dict.set (d.(def_name), content) i impls
                 | None => impls
                 end).
Definition apply_registration (p : PlannedRegistration) : R StoredVersion :=
  let name := p.(planned).(definition).(def_name) in
  let hash := p.(planned).(stored_hash) in
  let* s := snapshot None in
  match snapshot_get s name hash with
  | Some existing =>
      if same_definition existing.(definition) p.(planned).(definition) then eret existing
      else raise (RegistryDamaged (PlannedContradicts name hash))
  | None =>
      if decide (p.(origin) = Existing) then raise (RegistryDamaged PlannedDisappeared) else
      store_version p.(planned);;;
      let* s := snapshot None in
      match snapshot_get s name hash with
      | Some stored =>
          if same_definition stored.(definition) p.(planned).(definition) then eret stored
          else raise (RegistryDamaged PlannedNotProduced)
      | None => raise (RegistryDamaged PlannedNotProduced)
      end
  end.

(** *** Host binding and activation *)
Record HostBound := mkHostBound { host_stored : StoredVersion; host_impl : option obj; loadability : Loadability }.
Definition bind_ (impls : impl_table) (v : StoredVersion) : HostBound :=
  match v.(definition).(body) with
  | CGraph _ => mkHostBound v None (mkLoadability Composite None None)
  | CPython body =>
      let impl :=
        match Dict.get (v.(definition).(def_name), v.(stored_hash)) impls with
        | Some impl => Ok impl
        | None => _load body.(py_module) body.(qualname)
        end in
      match impl with
      | Raise status => mkHostBound v None (mkLoadability status None None)
      | Ok impl =>
          match source_digest_for impl with
          | None => mkHostBound v None (mkLoadability SourceUnavailable body.(source_digest) None)
          | Some observed =>
              if decide (body.(source_digest) ≠ None ∧ body.(source_digest) ≠ Some observed)
              then mkHostBound v None (mkLoadability ImplementationDrift body.(source_digest) (Some observed))
              else mkHostBound v (Some impl) (mkLoadability Loadable body.(source_digest) (Some observed))
          end
      end
  end.
Definition bindings_table : Type := list ((string * Digest) * HostBound).
(** One resolution: the binding it adds and the faults it reports. *)
Definition activate_component (impls : impl_table) (s : RegistrySnapshot) (r : ComponentResolution) :
    option HostBound * list admission_refusal :=
  match snapshot_get s r.(res_component) r.(resolved_version) with
  | None => (None, [NotInRegistry r.(res_scope) r.(res_component) r.(resolved_version)])
  | Some stored =>
      let bound := bind_ impls stored in
      (Some bound,
       match bound.(loadability).(load_status) with
       | Composite => []
       | Loadable =>
           match r.(implementation_digest) with
           | Some sealed =>
               if decide (bound.(loadability).(observed_digest) ≠ Some sealed)
               then [ManifestDigestDiffers r.(res_scope) bound.(loadability).(observed_digest) sealed] else []
           | None => []
           end
       | status => [NotExecutable r.(res_scope) r.(res_component) status]
       end)
  end.
Definition capability_faults (catalog : gmap string CapabilityDescriptor) (b : CapabilityBinding) :
    list admission_refusal :=
  if decide (b.(binding) = SELF_BINDING) then [] else
  match catalog !! b.(cap_id) with
  | None => [NotAssembled b.(cap_scope) b.(cap_id)]
  | Some d =>
      if decide (d.(cap_revision) ≠ b.(cap_binding_revision)) then
        [RevisionDiffers b.(cap_scope) b.(cap_id) d.(cap_revision) b.(cap_binding_revision)]
      else if decide (bool_decide (is_Some d.(channel_profile)) ≠ bool_decide (is_Some b.(channel))) then
        [ChannelShapeDiffers b.(cap_scope) b.(cap_id)]
      else if decide (d.(cap_endpoint) ≠ endpoint <$> b.(channel)) then
        [EndpointDiffers b.(cap_scope) b.(cap_id)]
      else []
  end.
Definition activate_step (impls : impl_table) (s : RegistrySnapshot)
    (acc : bindings_table * list admission_refusal) (r : ComponentResolution) :
    bindings_table * list admission_refusal :=
  let '(bound, faults) := activate_component impls s r in
  (match bound with
   | Some b => Dict.set (r.(res_component), r.(resolved_version)) b acc.1
   | None => acc.1
   end, acc.2 ++ faults).
Definition activate (impls : impl_table) (m : ExecutionManifest) (catalog : gmap string CapabilityDescriptor) :
    R bindings_table :=
  let* s := snapshot None in
  let '(bindings, faults) := foldl (activate_step impls s) ([], []) m.(resolved_components) in
  match faults ++ (m.(capability_bindings) ≫= capability_faults catalog) with
  | [] => eret bindings
  | faults => raise (AdmissionRefused faults)
  end.
End host.
Arguments HostBound : clear implicits.
Arguments impl_table : clear implicits.
Arguments bindings_table : clear implicits.

(** ** Promotion *)
Definition promote (component : string) (version : Digest) (attestation_id actor : string)
    (source_run : option RunId) (now : string) : R PromotionRecord :=
  let* s := snapshot None in
  match snapshot_get s component version with
  | None => raise (NoSuchVersion component version)
  | Some _ =>
      let* prior := promotion_for_attestation attestation_id in
      match prior with
      | Some prior =>
          if decide (prior.(promoted) ≠ component ∨ prior.(to_version) ≠ version)
          then raise (AdmissionRefused [AttestationElsewhere attestation_id])
          else eret prior
      | None =>
          let* minted := on_journal (load_attestation attestation_id) in
          match minted with
          | None => raise (AdmissionRefused [NotJournalMinted component attestation_id])
          | Some a =>
              let* current := stable_of s component in
              let faults :=
                (PromotionFault <$> promotion_attestation_faults a component version current a.(created_by_run))
                ++ (match source_run with
                    | Some run => if decide (Some run ≠ a.(created_by_run))
                                  then [SourceRunDiffers source_run a.(created_by_run)] else []
                    | None => []
                    end) in
              match faults with
              | [] => store_promotion (mkPromotion component Stable current version attestation_id actor
                                         a.(created_by_run) now)
              | _ => raise (AdmissionRefused faults)
              end
          end
      end
  end.
Definition _mint_policy_attestation (component : string) (version : Digest) (baseline : option Digest)
    (policy detail now : string) : R Attestation :=
  on_journal (mint_policy_attestation (_policy_attestation_draft component version baseline policy detail) now).
Definition promote_initial (component : string) (version : Digest) (actor now : string) :
    R (option PromotionRecord) :=
  let* s := snapshot None in
  let* stable := stable_of s component in
  if decide (stable = Some version) then eret None else
  match stable with
  | Some stable => raise (AdmissionRefused [AlreadyStable component stable])
  | None =>
      let* a := _mint_policy_attestation component version None BOOTSTRAP BOOTSTRAP_DETAIL now in
      let* p := promote component version a.(attestation_id) actor None now in
      eret (Some p)
  end.
Definition plan_initial_promotion (component : string) (version : Digest) : R PlannedPolicyPromotion :=
  let* s := snapshot None in
  match snapshot_get s component version with
  | None => raise (NoSuchVersion component version)
  | Some _ => eret (policy_plan component version None BOOTSTRAP BOOTSTRAP_DETAIL)
  end.

(** ** Rollback *)
Definition rollback_detail (baseline target : Digest) : string :=
  "pointer move back from " +:+ baseline +:+ " to retained " +:+ target.
Definition plan_rollback_edge (component : string) (baseline target : Digest) : R PlannedPolicyPromotion :=
  let* s := snapshot None in
  match snapshot_get s component target with
  | None => raise (NoRetainedTarget component target)
  | Some _ => eret (policy_plan component target (Some baseline) "rollback" (rollback_detail baseline target))
  end.
(** The last move to [current]: what it moved from. *)
Definition previous_stable (history : list (option string * string)) (current : string) : option string :=
  match head (filter (λ ft : option string * string, ft.2 = current) (reverse history)) with
  | Some (from, _) => from
  | None => None
  end.
Definition plan_rollback (component : string) (expected_stable : option Digest) : R PlannedPolicyPromotion :=
  let* s := snapshot None in
  let* current := stable_of s component in
  match expected_stable with
  | Some expected =>
      if decide (current ≠ Some expected)
      then raise (AdmissionRefused [UnexpectedStable component expected current]) else eret tt
  | None => eret tt
  end;;;
  match current with
  | None => raise (NothingStable component)
  | Some current =>
      match previous_stable (default [] (s.(history) !! component)) current with
      | None => raise (NothingEarlier component)
      | Some previous =>
          let* target := lift (to_digest (Some <$> Digest_well_formed previous)) in
          let* p := plan_rollback_edge component current (default previous target) in
          let* prior := promotion_for_attestation p.(pp_attestation) in
          match prior with
          | Some prior =>
              if decide (prior.(promoted) ≠ component ∨ prior.(from_version) ≠ Some current
                         ∨ prior.(to_version) ≠ p.(pp_target) ∨ prior.(Component.source_run) ≠ None)
              then raise (RegistryDamaged RollbackProofContradicts)
              else raise (RollbackProofConsumed component)
          | None => eret p
          end
      end
  end.
Definition rollback (component actor : string) (expected_stable : option Digest) (now : string) :
    R PromotionRecord :=
  let* p := plan_rollback component expected_stable in
  let* a := on_journal (mint_policy_attestation p.(pp_draft) now) in
  promote component p.(pp_target) a.(attestation_id) actor None now.

(** ** Reads *)
Definition current_stable_version (name : string) : R (option Digest) :=
  let* s := snapshot None in stable_of s name.
Definition versions (name : string) : R (list Digest) :=
  let* s := snapshot None in lift (each_digest (default [] (s.(order) !! name))).
Definition candidates (name : string) : R (list Digest) :=
  let* s := snapshot None in
  lift (each_digest (filter (λ v, s.(stable) !! name ≠ Some v) (default [] (s.(order) !! name)))).
(** [None]: out of fuel, which [rdeps_exact] excludes. *)
Definition rdeps (name : string) (given : option RegistrySnapshot) (revision : option RegistryRevision) :
    R (option (list string)) :=
  match given, revision with
  | Some _, Some _ => raise SnapshotAndRevision
  | Some s, None => eret (rdeps_in s name)
  | None, revision => let* s := snapshot revision in eret (rdeps_in s name)
  end.
