(* ===== verification/RegistrySpec.v ===== *)
(** What every history of registry calls keeps ([RegistryStore]): the two
    append-only sequences, the authority of every promotion and the continuity
    of the stable pointer; and what the reads then return. *)

From S2P Require Import Prelude Identity Address Component Manifest Run Effect Journal EffectStore.
From S2P Require Import RegistryStore JournalSpec EffectSpec.

(** ** Histories *)
Inductive rcall :=
| RJournal (c : jcall)
| RVersion (v : StoredVersion)
| RPromotion (p : PromotionRecord).
Definition unit_r {A} (m : R A) : R unit := let* _ := m in eret tt.
Definition run_rcall (c : rcall) : R unit :=
  match c with
  | RJournal c => on_journal (run_jcall c)
  | RVersion v => store_version v
  | RPromotion p => unit_r (store_promotion p)
  end.
Definition rlawful (c : rcall) : bool := match c with RJournal c => lawful c | _ => true end.
Definition run_rcalls (cs : list rcall) (s : registry) : registry := foldl (λ s c, (run_rcall c s).2) s cs.

(** ** The invariant *)

(** Where the stable pointer of a component stands after a list of moves. *)
Definition pointer (rows : list promotion_row) (component : string) : option Digest :=
  (λ row, row.(pr_record).(to_version)) <$>
    last (filter (λ row, row.(pr_record).(promoted) = component) rows).
Definition row_key (row : component_row) : string * string := (row.(cr_name), row.(cr_hash)).
Definition stored_of (row : component_row) : StoredVersion :=
  mkStored row.(cr_definition) row.(cr_hash) row.(cr_registered_at).
Definition has_version (s : registry) (component hash : string) : Prop :=
  ∃ row, row ∈ s.(component_rows) ∧ row_key row = (component, hash).
Definition sequence (n : nat) : list N := N.of_nat <$> seq 1 n.
Record row_valid (row : component_row) : Prop := {
  rv_name : row.(cr_definition).(def_name) = row.(cr_name);
  rv_hash : content_hash row.(cr_definition) = row.(cr_hash);
}.
(** The proof behind a move: minted, sound and of exactly this edge. *)
Definition authorized (j : store) (p : PromotionRecord) : Prop :=
  ∃ a, Dict.get p.(Component.attestation_id) j.(attested) = Some a ∧
    promotion_attestation_faults a p.(promoted) p.(to_version) p.(from_version) p.(Component.source_run) = [].
Record reg_ok (s : registry) : Prop := {
  ro_facts : facts s.(reg_journal);
  ro_cseq : cr_seq <$> s.(component_rows) = sequence (length s.(component_rows));
  ro_valid : Forall row_valid s.(component_rows);
  ro_keys : NoDup (row_key <$> s.(component_rows));
  ro_pseq : pr_seq <$> s.(promotion_rows) = sequence (length s.(promotion_rows));
  ro_ids : NoDup ((λ row, row.(pr_record).(Component.attestation_id)) <$> s.(promotion_rows));
  ro_auth row : row ∈ s.(promotion_rows) → authorized s.(reg_journal) row.(pr_record);
  ro_target row : row ∈ s.(promotion_rows) → has_version s row.(pr_record).(promoted) row.(pr_record).(to_version);
  ro_base row d : row ∈ s.(promotion_rows) → row.(pr_record).(from_version) = Some d →
    has_version s row.(pr_record).(promoted) d;
  ro_chain i row : s.(promotion_rows) !! i = Some row →
    row.(pr_record).(from_version) = pointer (take i s.(promotion_rows)) row.(pr_record).(promoted);
}.
Lemma reg_ok_new : reg_ok new_registry.
Proof.
  split; try done; try constructor; simpl.
  all: try (by intros ? ?%elem_of_nil). all: try (by intros ? ? ?%elem_of_nil).
  all: apply facts_new.
Qed.

(** ** Steps *)
Inductive rstep (s : registry) : registry → Prop :=
| rstep_journal j : jstep s.(reg_journal) j → rstep s (mkRegistry j s.(component_rows) s.(promotion_rows))
| rstep_component row :
    row.(cr_seq) = N.of_nat (S (length s.(component_rows))) → row_valid row →
    ¬ has_version s row.(cr_name) row.(cr_hash) → rstep s (add_component row s)
| rstep_promotion row :
    row.(pr_seq) = N.of_nat (S (length s.(promotion_rows))) →
    authorized s.(reg_journal) row.(pr_record) →
    (∀ row', row' ∈ s.(promotion_rows) →
       row'.(pr_record).(Component.attestation_id) ≠ row.(pr_record).(Component.attestation_id)) →
    has_version s row.(pr_record).(promoted) row.(pr_record).(to_version) →
    (∀ d, row.(pr_record).(from_version) = Some d → has_version s row.(pr_record).(promoted) d) →
    row.(pr_record).(from_version) = pointer s.(promotion_rows) row.(pr_record).(promoted) →
    rstep s (add_promotion row s).

Lemma sequence_snoc n : sequence (S n) = sequence n ++ [N.of_nat (S n)].
Proof. unfold sequence. by rewrite seq_S, fmap_app. Qed.
Lemma proofs_step j j' : jstep j j' → ∀ id a, Dict.get id j.(attested) = Some a → Dict.get id j'.(attested) = Some a.
Proof.
  destruct 1; intros id_ a_ Ha; try exact Ha.
  - simpl. by apply Dict.get_app_l.
  - destruct x; exact Ha.
Qed.
Lemma authorized_step j j' p : jstep j j' → authorized j p → authorized j' p.
Proof. intros Hs (a & Ha & Hf). exists a. split; [by eapply proofs_step|done]. Qed.
Lemma pointer_snoc rows row c :
  pointer (rows ++ [row]) c
  = if decide (row.(pr_record).(promoted) = c) then Some row.(pr_record).(to_version) else pointer rows c.
Proof.
  unfold pointer. rewrite filter_app. case_decide as Hc.
  - rewrite filter_cons_True, filter_nil, last_snoc by done. done.
  - rewrite filter_cons_False, filter_nil, app_nil_r by done. done.
Qed.
Lemma reg_ok_step s s' : rstep s s' → reg_ok s → reg_ok s'.
Proof.
  destruct 1 as [j Hj|row Hseq Hv Hfresh|row Hseq Ha Hfresh Ht Hb Hp]; intros H; destruct H as [Hf Hcs Hcv Hk Hps Hids Hau Hta Hba Hch].
  - split; simpl; try done; [by eapply facts_step|]. intros row Hrow. eapply authorized_step; [done|by apply Hau].
  - assert (∀ c h, has_version s c h → has_version (add_component row s) c h) as Hmono.
    { intros c h (r & Hr & Hrk). exists r. split; [simpl; set_solver|done]. }
    split; simpl; try done.
    + rewrite fmap_app, length_app, Nat.add_1_r, sequence_snoc, Hcs. simpl. by rewrite Hseq.
    + apply Forall_app. split; [done|by constructor].
    + rewrite fmap_app. apply NoDup_app. split_and!; [done| |apply NoDup_singleton].
      intros k Hin ->%list_elem_of_singleton. apply Hfresh.
      apply list_elem_of_fmap in Hin as (r & Hr & Hin). exists r. split; [done|]. by rewrite <-Hr.
    + intros r Hr. by apply Hmono, Hta.
    + intros r d Hr Hd. by eapply Hmono, Hba.
  - split; simpl; try done.
    + rewrite fmap_app, length_app, Nat.add_1_r, sequence_snoc, Hps. simpl. by rewrite Hseq.
    + rewrite fmap_app. apply NoDup_app. split_and!; [done| |apply NoDup_singleton].
      intros k Hin ->%list_elem_of_singleton.
      apply list_elem_of_fmap in Hin as (r & Hr & Hin). by destruct (Hfresh r Hin).
    + intros r [Hr| ->%list_elem_of_singleton]%elem_of_app; [by apply Hau|done].
    + intros r [Hr| ->%list_elem_of_singleton]%elem_of_app; [by apply Hta|done].
    + intros r d [Hr| ->%list_elem_of_singleton]%elem_of_app Hd; [by eapply Hba|by apply Hb].
    + intros i r [Hr|[Hle Hr]]%lookup_app_Some.
      * rewrite take_app_le by (apply lookup_lt_Some in Hr; lia). by apply Hch.
      * apply list_lookup_singleton_Some in Hr as [Hz <-].
        rewrite take_app_ge by done. assert (i - length (promotion_rows s) = 0) as -> by lia.
        by rewrite app_nil_r.
Qed.
Lemma reg_ok_steps s s' : rtc rstep s s' → reg_ok s → reg_ok s'.
Proof. induction 1; eauto using reg_ok_step. Qed.

(** ** Reads of a sound registry *)
Lemma sequence_max t n : _registry_sequence_max t (sequence n) = Ok (N.of_nat n).
Proof.
  unfold _registry_sequence_max.
  assert (foldl N.max 0%N (sequence n) = N.of_nat n) as ->.
  { induction n as [|n IH]; [done|]. rewrite sequence_snoc, foldl_snoc, IH. lia. }
  assert (existsb (λ m, bool_decide (m = 0%N)) (sequence n) = false) as ->.
  { apply not_true_iff_false. rewrite existsb_elem. intros (m & Hm & Hz%bool_decide_eq_true).
    apply list_elem_of_fmap in Hm as (k & -> & Hk%elem_of_seq). lia. }
  unfold sequence. rewrite length_fmap, length_seq, decide_False by (intros Hn; by apply Hn). done.
Qed.
Lemma sequence_elem {A} (f : A → N) l x : f <$> l = sequence (length l) → x ∈ l → f x ≠ 0%N.
Proof.
  intros Hs Hx. assert (f x ∈ sequence (length l)) as Hin by (rewrite <-Hs; by apply list_elem_of_fmap_2).
  apply list_elem_of_fmap in Hin as (k & -> & Hk%elem_of_seq). lia.
Qed.
Lemma filter_one {A B} `{EqDecision B} (f : A → B) (k : B) (l : list A) :
  NoDup (f <$> l) → filter (λ x, f x = k) l = [] ∨ ∃ x, filter (λ x, f x = k) l = [x].
Proof.
  induction l as [|x l IH]; [by left|]. rewrite fmap_cons. intros [Hx Hnd]%NoDup_cons.
  rewrite filter_cons. case_decide as Hk; [|by apply IH]. right. exists x. f_equal.
  apply filter_none, Forall_forall. intros y Hy Hfy. apply Hx. rewrite Hk, <-Hfy.
  by apply list_elem_of_fmap_2.
Qed.
Lemma content_hash_ok d : Digest_well_formed (content_hash d) = Ok (content_hash d).
Proof. unfold content_hash. destruct (capability_requirements d); apply digest_of_well_formed. Qed.

Lemma well_formed_value d : is_ok (Digest_well_formed d) = true → Digest_well_formed d = Ok d.
Proof. unfold Digest_well_formed. cbv zeta. by repeat case_match. Qed.

Section reads.
Context (s : registry) (Hok : reg_ok s).
Definition component_of (s : registry) (c h : string) : option component_row :=
  head (filter (λ row, row_key row = (c, h)) s.(component_rows)).
Definition move_of (s : registry) (id : string) : option promotion_row :=
  head (filter (λ row, row.(pr_record).(Component.attestation_id) = id) s.(promotion_rows)).

Lemma registrations_ok : registrations s = Ok (N.of_nat (length s.(component_rows))).
Proof. unfold registrations. rewrite (ro_cseq _ Hok). apply sequence_max. Qed.
Lemma promotions_ok : promotions s = Ok (N.of_nat (length s.(promotion_rows))).
Proof. unfold promotions. rewrite (ro_pseq _ Hok). apply sequence_max. Qed.
Lemma valid_hash row : row_valid row → is_ok (Digest_well_formed row.(cr_hash)) = true.
Proof. intros [_ <-]. by rewrite content_hash_ok. Qed.
Lemma stored_row row : row_valid row → row.(cr_seq) ≠ 0%N → _stored_version_from_row row = Ok (stored_of row).
Proof.
  intros Hv Hz. pose proof (valid_hash row Hv) as Hh. destruct Hv as [Hn Hc].
  unfold _stored_version_from_row. rewrite decide_False; [done|].
  intros [?|[?|[?|?]]]; [done..|congruence].
Qed.
Lemma row_of row : row ∈ s.(component_rows) → row_valid row ∧ row.(cr_seq) ≠ 0%N.
Proof.
  intros Hr. split; [|by eapply sequence_elem, Hr; apply Hok].
  pose proof (ro_valid _ Hok) as H. rewrite Forall_forall in H. by apply H.
Qed.
Lemma component_row_ok c h : _component_row_for_version s c h = Ok (component_of s c h).
Proof.
  unfold _component_row_for_version, component_of.
  rewrite (filter_iff_elem (component_selected c h) (λ row, row_key row = (c, h))).
  2: { intros row Hr. destruct (row_of row Hr) as [[Hn Hc] _]. unfold component_selected, row_key.
       rewrite Hn, Hc. naive_solver. }
  destruct (filter_one row_key (c, h) _ (ro_keys _ Hok)) as [->|(row & E)]; [done|]. rewrite E.
  assert (row ∈ filter (λ row, row_key row = (c, h)) s.(component_rows)) as Hin by (rewrite E; left).
  apply list_elem_of_filter in Hin as [Hk Hin]. destruct (row_of row Hin) as [Hv Hz].
  rewrite (stored_row row Hv Hz). cbn [mbind result_bind stored_of definition stored_hash].
  destruct Hv as [Hn Hc]. injection Hk as Hk1 Hk2. by rewrite decide_False by (rewrite Hn; naive_solver).
Qed.
Lemma has_version_iff c h : has_version s c h ↔ is_Some (component_of s c h).
Proof.
  unfold has_version, component_of. split.
  - intros (row & Hin & Hk). destruct (filter _ _) as [|r l] eqn:E; [|by eexists].
    exfalso. apply (not_elem_of_nil row). rewrite <-E. by apply list_elem_of_filter.
  - intros [row Hrow]. exists row.
    assert (row ∈ filter (λ row, row_key row = (c, h)) s.(component_rows)) as Hin.
    { destruct (filter _ _); [done|]. injection Hrow as ->. left. }
    by apply list_elem_of_filter in Hin as [? ?].
Qed.
Lemma version_digest c h : has_version s c h → is_ok (Digest_well_formed h) = true.
Proof. intros (row & Hin & Hk). injection Hk as _ <-. apply valid_hash. by apply row_of. Qed.

Lemma authority_ok p : authorized s.(reg_journal) p → _validate_promotion_authority s p = Ok tt.
Proof.
  intros (a & Ha & Hf). unfold _validate_promotion_authority.
  rewrite (stored_attestation_good _ _ (ro_facts _ Hok)), Ha. cbn [lift_journal mbind result_bind]. by rewrite Hf.
Qed.
Lemma authority_inv p u : _validate_promotion_authority s p = Ok u → authorized s.(reg_journal) p.
Proof.
  unfold _validate_promotion_authority. rewrite (stored_attestation_good _ _ (ro_facts _ Hok)).
  cbn [lift_journal mbind result_bind]. destruct (Dict.get _ _) as [a|] eqn:Ea; [|done].
  destruct (promotion_attestation_faults _ _ _ _ _) eqn:Ef; [|done]. intros _. by exists a.
Qed.
Lemma digest_true h : is_ok (Digest_well_formed h) = true → negb (is_ok (Digest_well_formed h)) = false.
Proof. by intros ->. Qed.
Lemma promotion_row_ok row :
  row.(pr_seq) ≠ 0%N → authorized s.(reg_journal) row.(pr_record) →
  has_version s row.(pr_record).(promoted) row.(pr_record).(to_version) →
  (∀ d, row.(pr_record).(from_version) = Some d → has_version s row.(pr_record).(promoted) d) →
  _promotion_from_row s row = Ok row.(pr_record).
Proof.
  intros Hz Ha Ht Hb. unfold _promotion_from_row.
  rewrite (bool_decide_eq_false_2 _ Hz), (digest_true _ (version_digest _ _ Ht)).
  destruct (from_version _) as [d|] eqn:Ed; cbn [orb].
  - rewrite (digest_true _ (version_digest _ _ (Hb d eq_refl))). by rewrite authority_ok.
  - by rewrite authority_ok.
Qed.
Lemma promotion_read row : row ∈ s.(promotion_rows) → _promotion_from_row s row = Ok row.(pr_record).
Proof.
  intros Hr. apply promotion_row_ok.
  - eapply sequence_elem, Hr. apply Hok.
  - by apply (ro_auth _ Hok).
  - by apply (ro_target _ Hok).
  - intros d Hd. by apply (ro_base _ Hok).
Qed.
Lemma move_of_elem id row : move_of s id = Some row →
  row ∈ s.(promotion_rows) ∧ row.(pr_record).(Component.attestation_id) = id.
Proof.
  unfold move_of. intros H.
  assert (row ∈ filter (λ row, row.(pr_record).(Component.attestation_id) = id) s.(promotion_rows)) as Hin.
  { destruct (filter _ _); [done|]. injection H as ->. left. }
  by apply list_elem_of_filter in Hin as [? ?].
Qed.
Lemma promotion_for_row_ok id : _promotion_row_for_attestation s id = Ok (move_of s id).
Proof.
  unfold _promotion_row_for_attestation, move_of.
  destruct (filter_one (λ row, row.(pr_record).(Component.attestation_id)) id _ (ro_ids _ Hok)) as [->|(row & E)];
    [done|]. rewrite E.
  assert (row ∈ filter (λ row, row.(pr_record).(Component.attestation_id) = id) s.(promotion_rows)) as Hin
    by (rewrite E; left).
  apply list_elem_of_filter in Hin as [_ Hin]. by rewrite (promotion_read row Hin).
Qed.
Lemma current_promotion_ok c row : current_promotion s c = Some row →
  _promotion_from_row s row = Ok row.(pr_record).
Proof.
  intros H%last_Some_elem_of. apply list_elem_of_filter in H as [_ H]. by apply promotion_read.
Qed.
End reads.

(** ** What the writes do to a sound registry *)
Definition new_component (s : registry) (v : StoredVersion) : component_row :=
  mkComponentRow (N.of_nat (length s.(component_rows)) + 1) v.(definition).(def_name) v.(stored_hash)
    v.(definition) v.(registered_at).
Definition new_promotion (s : registry) (p : PromotionRecord) : promotion_row :=
  mkPromotionRow (N.of_nat (length s.(promotion_rows)) + 1) p.
Definition endpoints (s : registry) (p : PromotionRecord) : Prop :=
  is_Some (component_of s p.(promoted) p.(to_version)) ∧
  match p.(from_version) with Some d => is_Some (component_of s p.(promoted) d) | None => True end.
#[export] Instance endpoints_dec s p : Decision (endpoints s p).
Proof. unfold endpoints. destruct (from_version p); apply _. Defined.

Section writes.
Context (s : registry) (Hok : reg_ok s).

Lemma store_version_eq v :
  let name := v.(definition).(def_name) in
  store_version v s =
    match component_of s name v.(stored_hash) with
    | Some row =>
        if same_definition row.(cr_definition) v.(definition) then (Ok tt, s)
        else (Raise (RegistryDamaged (ComponentStoredDifferently name v.(stored_hash))), s)
    | None =>
        if decide (content_hash v.(definition) = v.(stored_hash))
        then (Ok tt, add_component (new_component s v) s)
        else (Raise (RegistryDamaged (ComponentRowDamaged name v.(stored_hash))), s)
    end.
Proof.
  intros name. unfold store_version, reg_txn. unfold ebind at 1, get at 1.
  unfold ebind at 1, lift at 1. rewrite (registrations_ok s Hok).
  unfold ebind at 1, lift at 1. rewrite (promotions_ok s Hok). cbv zeta. fold name.
  unfold ebind at 1, lift at 1. rewrite (component_row_ok s Hok).
  destruct (component_of s name _) as [row|] eqn:Erow.
  - assert (row ∈ s.(component_rows)) as Hin.
    { unfold component_of in Erow.
      assert (row ∈ filter (λ row, row_key row = (name, v.(stored_hash))) s.(component_rows)) as Hin.
      { destruct (filter _ _); [done|]. injection Erow as ->. left. }
      by apply list_elem_of_filter in Hin as [_ ?]. }
    destruct (row_of s Hok row Hin) as [Hv Hz]. unfold ebind at 1, lift at 1. rewrite (stored_row row Hv Hz).
    by destruct (same_definition _ _).
  - unfold ebind at 1, lift at 1. unfold _stored_version_from_row.
    cbn [cr_seq cr_definition cr_name cr_hash]. case_decide as Hbad; case_decide as Hc; try done.
    + exfalso. destruct Hbad as [Hb|[Hb|[Hb|Hb]]]; [lia|done|done|].
      rewrite <-Hc, content_hash_ok in Hb. done.
    + exfalso. apply Hbad. right. right. left. done.
Qed.

Lemma elem_of_component c h row : component_of s c h = Some row →
  row ∈ s.(component_rows) ∧ row_key row = (c, h).
Proof.
  intros H. unfold component_of in H.
  assert (row ∈ filter (λ row, row_key row = (c, h)) s.(component_rows)) as Hin.
  { destruct (filter _ _); [done|]. injection H as ->. left. }
  by apply list_elem_of_filter in Hin as [? ?].
Qed.
Lemma current_pointer c :
  (λ row, row.(pr_record).(to_version)) <$> current_promotion s c = pointer s.(promotion_rows) c.
Proof. done. Qed.
Lemma store_promotion_eq p :
  let id := p.(Component.attestation_id) in
  store_promotion p s =
    match move_of s id with
    | Some row =>
        if same_identity_as row.(pr_record) p then (Ok row.(pr_record), s)
        else (Raise (RegistryDamaged (PromotionContradictory id)), s)
    | None =>
        match _validate_promotion_authority s p with
        | Raise e => (Raise e, s)
        | Ok _ =>
            if decide (endpoints s p) then
              if decide (pointer s.(promotion_rows) p.(promoted) = p.(from_version))
              then (Ok p, add_promotion (new_promotion s p) s)
              else (Raise (AdmissionRefused [StableMoved p.(promoted) p.(from_version)
                      (pointer s.(promotion_rows) p.(promoted))]), s)
            else (Raise (RegistryDamaged (PromotionEndpoint id)), s)
        end
    end.
Proof.
  intros id. unfold store_promotion, reg_txn. cbv zeta. fold id. unfold ebind at 1, get at 1.
  unfold ebind at 1, lift at 1. rewrite (registrations_ok s Hok).
  unfold ebind at 1, lift at 1. rewrite (promotions_ok s Hok).
  unfold ebind at 1, lift at 1. rewrite (promotion_for_row_ok s Hok).
  destruct (move_of s id) as [row|] eqn:Erow.
  { destruct (move_of_elem s id row Erow) as [Hin _]. unfold ebind at 1, lift at 1.
    rewrite (promotion_read s Hok row Hin). by destruct (same_identity_as _ _). }
  unfold ebind at 1, lift at 1. destruct (_validate_promotion_authority s p) as [[]|e] eqn:Ea; [|done].
  pose proof (authority_inv s Hok p tt Ea) as Hauth.
  unfold ebind at 1, lift at 1. rewrite (component_row_ok s Hok).
  destruct (component_of s _ (to_version p)) as [target|] eqn:Et.
  2: { rewrite decide_False; [by destruct (from_version p)|]. intros [[? H] _]. by rewrite Et in H. }
  assert (∀ k : registry, (match from_version p with
    | Some before => lift (_component_row_for_version s (promoted p) before)
    | None => eret (Some target) end) k
    = (Ok (match from_version p with Some d => component_of s (promoted p) d | None => Some target end), k)) as Hbase.
  { intros k. destruct (from_version p); [|done]. unfold lift. by rewrite (component_row_ok s Hok). }
  unfold ebind at 1. rewrite Hbase.
  destruct (match from_version p with Some d => component_of s (promoted p) d | None => Some target end)
    as [base|] eqn:Eb.
  2: { rewrite decide_False; [done|]. intros [_ H]. destruct (from_version p) as [d|]; [|done].
       rewrite Eb in H. by destruct H. }
  rewrite decide_True.
  2: { split; [by eexists|]. destruct (from_version p) as [d|]; [|done]. rewrite Eb. by eexists. }
  assert (∀ k : registry, (match current_promotion s (promoted p) with
    | Some row => let* q := lift (_promotion_from_row s row) in eret (Some q.(to_version))
    | None => eret None end) k = (Ok (pointer (promotion_rows s) (promoted p)), k)) as Hcur.
  { intros k. rewrite <-current_pointer. destruct (current_promotion s _) as [row|] eqn:Ec; [|done].
    unfold ebind, lift. by rewrite (current_promotion_ok s Hok _ _ Ec). }
  unfold ebind at 1. rewrite Hcur.
  destruct (decide (pointer _ _ = from_version p)) as [Hp|Hp].
  - rewrite decide_False by (intros Hn; by apply Hn). cbv zeta. unfold ebind at 1, lift at 1.
    rewrite (promotion_row_ok s Hok (mkPromotionRow (N.of_nat (length (promotion_rows s)) + 1) p)).
    + done.
    + simpl. lia.
    + done.
    + apply (has_version_iff s). by eexists.
    + intros d Hd. simpl in Hd. rewrite Hd in Eb. apply (has_version_iff s). by eexists.
  - by rewrite decide_True by done.
Qed.
End writes.

Lemma store_version_step s v r s' : reg_ok s → store_version v s = (r, s') →
  s' = s ∨ (r = Ok tt ∧ rstep s s').
Proof.
  intros Hok. rewrite (store_version_eq s Hok). cbv zeta.
  destruct (component_of s _ _) as [row|] eqn:Ec.
  - destruct (same_definition _ _); intros [= <- <-]; by left.
  - case_decide as Hc; intros [= <- <-]; [|by left]. right. split; [done|].
    apply rstep_component; [simpl; lia|by split|].
    simpl. rewrite (has_version_iff s), Ec. by intros [? ?].
Qed.
Lemma store_promotion_step s p r s' : reg_ok s → store_promotion p s = (r, s') →
  s' = s ∨ (r = Ok p ∧ rstep s s').
Proof.
  intros Hok. rewrite (store_promotion_eq s Hok). cbv zeta.
  destruct (move_of s _) as [row|] eqn:Em.
  { destruct (same_identity_as _ _); intros [= <- <-]; by left. }
  destruct (_validate_promotion_authority s p) as [[]|e] eqn:Ea; [|intros [= <- <-]; by left].
  case_decide as He; [|intros [= <- <-]; by left]. case_decide as Hp; intros [= <- <-]; [|by left].
  right. split; [done|]. apply rstep_promotion.
  - simpl. lia.
  - by eapply authority_inv.
  - intros row Hrow Hid. unfold move_of in Em.
    assert (row ∈ filter (λ row, row.(pr_record).(Component.attestation_id) = p.(Component.attestation_id))
      s.(promotion_rows)) as Hin by (by apply list_elem_of_filter).
    destruct (filter _ _); [by apply elem_of_nil in Hin|done].
  - apply (has_version_iff s). apply He.
  - intros d Hd. simpl in Hd. apply (has_version_iff s). destruct He as [_ He]. by rewrite Hd in He.
  - done.
Qed.
Lemma store_promotion_moves s p r s' : reg_ok s → store_promotion p s = (r, s') →
  s' = s ∨ ∃ row, row.(pr_record) = p ∧ s' = add_promotion row s.
Proof.
  intros Hok. rewrite (store_promotion_eq s Hok). cbv zeta.
  repeat case_match; intros [= <- <-]; try (by left). right. by exists (new_promotion s p).
Qed.
Lemma journal_steps j j' cs ps : rtc jstep j j' → rtc rstep (mkRegistry j cs ps) (mkRegistry j' cs ps).
Proof.
  induction 1 as [j|j j1 j2 Hj _ IH]; [reflexivity|]. eapply rtc_l; [|exact IH].
  apply (rstep_journal (mkRegistry j cs ps)). exact Hj.
Qed.
Lemma rcall_steps c s r s' : reg_ok s → rlawful c = true → run_rcall c s = (r, s') → rtc rstep s s'.
Proof.
  intros Hok Hl. destruct c as [c|v|p]; simpl.
  - unfold on_journal. destruct (run_jcall c s.(reg_journal)) as [r0 j] eqn:E. intros [= _ <-].
    destruct s as [j0 cs ps]. eapply journal_steps, jcall_steps; [exact E|exact Hl].
  - intros [->|[_ H]]%store_version_step; [reflexivity|by apply rtc_once|done].
  - unfold unit_r, ebind. destruct (store_promotion p s) as [r0 s0] eqn:E. intros H.
    assert (s' = s0) as -> by (by destruct r0; injection H).
    apply store_promotion_step in E as [->|[_ E]]; [reflexivity|by apply rtc_once|done].
Qed.
Lemma rcalls_steps cs s : reg_ok s → forallb rlawful cs = true → rtc rstep s (run_rcalls cs s).
Proof.
  revert s. induction cs as [|c cs IH]; intros s Hok; [reflexivity|]. simpl.
  intros [Hc Hcs]%andb_true_iff. destruct (run_rcall c s) as [r s1] eqn:E.
  pose proof (rcall_steps c s r s1 Hok Hc E) as H1. etrans; [exact H1|]. simpl.
  apply IH; [by eapply reg_ok_steps|done].
Qed.
Lemma run_rcalls_app cs cs' s : run_rcalls (cs ++ cs') s = run_rcalls cs' (run_rcalls cs s).
Proof. apply foldl_app. Qed.
Lemma history_ok cs : forallb rlawful cs = true → reg_ok (run_rcalls cs new_registry).
Proof. intros H. eapply reg_ok_steps; [by apply rcalls_steps, H; apply reg_ok_new|apply reg_ok_new]. Qed.

(** ** Cuts *)
Fixpoint follow (incoherence : registry_damage → rexn) (versions : gmap string (gmap string StoredVersion))
    (ps : list PromotionRecord) (acc : cut_pointers) : result rexn cut_pointers :=
  match ps with
  | [] => Ok acc
  | p :: ps =>
      if negb (retained versions p.(promoted) p.(to_version))
         || match p.(from_version) with
            | Some before => negb (retained versions p.(promoted) before)
            | None => false
            end
      then Raise (incoherence CutEndpoints)
      else if decide (acc.1 !! p.(promoted) ≠ p.(from_version)) then Raise (incoherence CutDiscontinuous)
      else follow incoherence versions ps (move_pointer acc p)
  end.
(** A cut is a function of the registrations and moves it spans. *)
Definition cut (vs : list StoredVersion) (ps : list PromotionRecord) (r : RegistryRevision)
    (incoherence : registry_damage → rexn) : result rexn RegistrySnapshot :=
  let '(versions, order) := foldl cut_component (∅, ∅) vs in
  '(stable, history) ← follow incoherence versions ps (∅, ∅);
  Ok (mkSnapshot r versions order stable history).

Lemma filter_sequence {A} (f : A → N) (l : list A) n k :
  f <$> l = N.of_nat <$> seq (S k) (length l) →
  filter (λ x, (f x ≤ n)%N) l = take (N.to_nat n - k) l.
Proof.
  revert k. induction l as [|x l IH]; intros k H; [by rewrite take_nil|].
  rewrite fmap_cons in H. cbn [length seq] in H. rewrite fmap_cons in H. injection H as Hx Hl.
  rewrite filter_cons. case_decide as Hle.
  - assert (N.to_nat n - k = S (N.to_nat n - S k)) as -> by lia. cbn [take]. f_equal. by apply IH.
  - assert (N.to_nat n - k = 0) as -> by lia. rewrite take_0. rewrite (IH (S k)) by done.
    assert (N.to_nat n - S k = 0) as -> by lia. by rewrite take_0.
Qed.
Lemma project_components_ok rows acc :
  Forall (λ row, row_valid row ∧ row.(cr_seq) ≠ 0%N) rows →
  project_components rows acc = Ok (foldl cut_component acc (stored_of <$> rows)).
Proof.
  intros H. revert acc. induction H as [|row rows [Hv Hz] _ IH]; intros acc; [done|].
  cbn [project_components]. rewrite (stored_row row Hv Hz). apply IH.
Qed.
Lemma project_promotions_ok s inc vs rows acc :
  Forall (λ row, _promotion_from_row s row = Ok row.(pr_record)) rows →
  project_promotions s inc vs rows acc = follow inc vs (pr_record <$> rows) acc.
Proof.
  intros H. revert acc. induction H as [|row rows Hr _ IH]; intros acc; [done|].
  rewrite fmap_cons. cbn [project_promotions follow]. rewrite Hr. cbn [mbind result_bind].
  destruct (_ || _); [done|]. case_decide; [done|]. apply IH.
Qed.
Definition registered (s : registry) : list StoredVersion := stored_of <$> s.(component_rows).
Definition moves (s : registry) : list PromotionRecord := pr_record <$> s.(promotion_rows).
Definition current_revision (s : registry) : RegistryRevision :=
  mkRevision (N.of_nat (length s.(component_rows))) (N.of_nat (length s.(promotion_rows))).
Definition within (r : RegistryRevision) (s : registry) : Prop :=
  (r.(registration_seq) ≤ N.of_nat (length s.(component_rows)))%N ∧
  (r.(promotion_seq) ≤ N.of_nat (length s.(promotion_rows)))%N.
#[export] Instance within_dec r s : Decision (within r s).
Proof. unfold within. apply _. Defined.

Lemma snapshot_cut s revision : reg_ok s →
  let r := default (current_revision s) revision in
  snapshot_of s revision =
    if decide (within r s) then
      cut (take (N.to_nat r.(registration_seq)) (registered s)) (take (N.to_nat r.(promotion_seq)) (moves s)) r
        (match revision with Some _ => λ why, InvalidRegistryRevision (Some why) | None => RegistryDamaged end)
    else Raise (InvalidRegistryRevision None).
Proof.
  intros Hok r. unfold snapshot_of, _current_registry_revision.
  rewrite (registrations_ok s Hok), (promotions_ok s Hok). cbn [mbind result_bind]. fold (current_revision s).
  cbv zeta. fold r. unfold within. cbn [current_revision registration_seq promotion_seq].
  case_decide as Hf; case_decide as Hw; [lia|done| |exfalso; lia].
  unfold _registry_snapshot_at_revision, cut, registered, moves.
  rewrite (filter_sequence cr_seq _ _ 0), (filter_sequence pr_seq _ _ 0), !Nat.sub_0_r;
    [|apply (ro_pseq _ Hok)|apply (ro_cseq _ Hok)].
  rewrite project_components_ok.
  2: { apply Forall_take, Forall_forall. intros row Hrow. by apply (row_of s Hok). }
  cbn [mbind result_bind]. rewrite <-fmap_take.
  destruct (foldl cut_component (∅, ∅) _) as [vs order]. rewrite project_promotions_ok.
  2: { apply Forall_take, Forall_forall. intros row Hrow. by apply promotion_read. }
  by rewrite <-fmap_take.
Qed.
Lemma grown s s' : rtc rstep s s' →
  s.(component_rows) `prefix_of` s'.(component_rows) ∧ s.(promotion_rows) `prefix_of` s'.(promotion_rows).
Proof.
  induction 1 as [s|s s1 s2 Hs _ [IHc IHp]]; [done|].
  assert (s.(component_rows) `prefix_of` s1.(component_rows) ∧ s.(promotion_rows) `prefix_of` s1.(promotion_rows)) as [? ?].
  { destruct Hs; simpl; split; try done; by apply prefix_app_r. }
  split; by etrans.
Qed.
Lemma snapshot_fixed s s' r : reg_ok s → rtc rstep s s' → within r s →
  snapshot_of s' (Some r) = snapshot_of s (Some r).
Proof.
  intros Hok Hs [Hc Hp]. pose proof (reg_ok_steps _ _ Hs Hok) as Hok'. destruct (grown _ _ Hs) as [Hgc Hgp].
  rewrite !snapshot_cut by done. cbn [from_option id].
  pose proof (prefix_length _ _ Hgc). pose proof (prefix_length _ _ Hgp).
  assert (within r s') by (split; lia). assert (within r s) by done.
  rewrite !decide_True by done. unfold registered, moves. rewrite <-!fmap_take.
  rewrite (take_prefix _ _ _ Hgc), (take_prefix _ _ _ Hgp) by lia. done.
Qed.

(** *** The current cut *)
Lemma cut_versions rows c h :
  Forall row_valid rows → NoDup (row_key <$> rows) →
  (foldl cut_component (∅, ∅) (stored_of <$> rows)).1 !! c ≫= lookup h
  = stored_of <$> head (filter (λ row, row_key row = (c, h)) rows).
Proof.
  induction rows as [|row rows IH] using rev_ind; intros Hv Hnd; [done|].
  rewrite fmap_app, foldl_app. cbn [fmap list_fmap foldl].
  apply Forall_app in Hv as [Hv Hrow]. rewrite Forall_singleton in Hrow. rewrite fmap_app in Hnd.
  apply NoDup_app in Hnd as (Hnd & Hdisj & _). specialize (IH Hv Hnd).
  destruct (foldl cut_component (∅, ∅) _) as [vs order]. cbn [fst] in *. unfold cut_component.
  cbn [fst definition stored_hash stored_of]. destruct Hrow as [-> _].
  assert (filter (λ row, row_key row = (c, h)) (rows ++ [row])
    = filter (λ row, row_key row = (c, h)) rows ++ (if decide (row_key row = (c, h)) then [row] else [])) as ->.
  { rewrite filter_app, filter_cons, filter_nil. by case_decide. }
  destruct (decide (row_key row = (c, h))) as [Hk|Hk].
  - rewrite (filter_none _ rows).
    2: { apply Forall_forall. intros r Hr Hrk. apply (Hdisj (c, h)); [|apply list_elem_of_singleton; symmetry; exact Hk].
         rewrite <-Hrk. by apply list_elem_of_fmap_2. }
    injection Hk as <- <-. rewrite lookup_insert_eq. simpl. by rewrite lookup_insert_eq.
  - rewrite app_nil_r, <-IH. destruct (decide (row.(cr_name) = c)) as [<-|Hc].
    + rewrite lookup_insert_eq. simpl. rewrite lookup_insert_ne by (intros <-; by apply Hk).
      destruct (vs !! cr_name row); [done|]. simpl. by rewrite lookup_empty.
    + by rewrite lookup_insert_ne.
Qed.
Lemma cut_order rows c :
  Forall row_valid rows →
  (foldl cut_component (∅, ∅) (stored_of <$> rows)).2 !! c
  = match filter (λ row, row.(cr_name) = c) rows with [] => None | l => Some (cr_hash <$> l) end.
Proof.
  induction rows as [|row rows IH] using rev_ind; intros Hv; [done|].
  rewrite fmap_app, foldl_app. cbn [fmap list_fmap foldl].
  apply Forall_app in Hv as [Hv Hrow]. rewrite Forall_singleton in Hrow. specialize (IH Hv).
  destruct (foldl cut_component (∅, ∅) _) as [vs order]. cbn [snd] in *. unfold cut_component.
  cbn [snd definition stored_hash stored_of]. destruct Hrow as [-> _].
  rewrite filter_app, filter_cons, filter_nil. destruct (decide (row.(cr_name) = c)) as [<-|Hc].
  - rewrite lookup_insert_eq, IH. destruct (filter _ rows) as [|r l]; [done|]. simpl. by rewrite fmap_app.
  - rewrite lookup_insert_ne by done. rewrite app_nil_r. exact IH.
Qed.
Lemma moves_pointer rows c :
  (foldl move_pointer (∅, ∅) (pr_record <$> rows)).1 !! c = pointer rows c.
Proof.
  induction rows as [|row rows IH] using rev_ind; [done|].
  rewrite fmap_app, foldl_app, pointer_snoc, <-IH. cbn [fmap list_fmap foldl].
  destruct (foldl move_pointer (∅, ∅) _) as [st hi]. cbn [fst move_pointer].
  case_decide as Hc; [subst; by rewrite lookup_insert_eq|by rewrite lookup_insert_ne].
Qed.
(** The moves of one component, oldest first. *)
Definition moves_of (rows : list promotion_row) (c : string) : list (option string * string) :=
  (λ row, (row.(pr_record).(from_version), row.(pr_record).(to_version)))
    <$> filter (λ row, row.(pr_record).(promoted) = c) rows.
Lemma moves_history rows c :
  default [] ((foldl move_pointer (∅, ∅) (pr_record <$> rows)).2 !! c) = moves_of rows c.
Proof.
  unfold moves_of. induction rows as [|row rows IH] using rev_ind; [done|].
  rewrite fmap_app, foldl_app, filter_app, fmap_app, <-IH. cbn [fmap list_fmap foldl].
  destruct (foldl move_pointer (∅, ∅) _) as [st hi]. cbn [snd move_pointer].
  rewrite filter_cons, filter_nil. case_decide as Hc.
  - subst c. by rewrite lookup_insert_eq.
  - rewrite lookup_insert_ne by done. simpl. by rewrite app_nil_r.
Qed.

Definition full_versions (s : registry) : gmap string (gmap string StoredVersion) :=
  (foldl cut_component (∅, ∅) (registered s)).1.
Definition full_pointers (s : registry) : cut_pointers := foldl move_pointer (∅, ∅) (moves s).
Definition current_snapshot (s : registry) : RegistrySnapshot :=
  mkSnapshot (current_revision s) (full_versions s) (foldl cut_component (∅, ∅) (registered s)).2
    (full_pointers s).1 (full_pointers s).2.

Section current.
Context (s : registry) (Hok : reg_ok s).
Lemma snapshot_get_current c h : snapshot_get (current_snapshot s) c h = stored_of <$> component_of s c h.
Proof. apply (cut_versions s.(component_rows) c h); apply Hok. Qed.
Lemma retained_iff c h : retained (full_versions s) c h = true ↔ has_version s c h.
Proof.
  unfold retained, full_versions, registered. rewrite bool_decide_eq_true, (has_version_iff s).
  change (λ by_hash : gmap string StoredVersion, by_hash !! h) with (lookup (M:=gmap string StoredVersion) h).
  rewrite cut_versions by apply Hok. unfold component_of. by rewrite fmap_is_Some.
Qed.
Lemma follow_all inc : follow inc (full_versions s) (moves s) (∅, ∅) = Ok (full_pointers s).
Proof.
  assert (∀ n, follow inc (full_versions s) (drop (length (moves s) - n) (moves s))
    (foldl move_pointer (∅, ∅) (take (length (moves s) - n) (moves s))) = Ok (full_pointers s)) as H.
  { induction n as [|n IH].
    - rewrite Nat.sub_0_r, drop_all, firstn_all. done.
    - destruct (decide (n < length (moves s))) as [Hn|Hn].
      2: { replace (length (moves s) - S n) with (length (moves s) - n) by lia. exact IH. }
      set (i := length (moves s) - S n) in *. assert (length (moves s) - n = S i) as Hi by lia.
      rewrite Hi in IH. assert (i < length (moves s)) as Hlt by lia.
      destruct (lookup_lt_is_Some_2 _ _ Hlt) as [p Hp]. rewrite (drop_S _ p i Hp). cbn [follow].
      rewrite (take_S_r _ _ _ Hp), foldl_snoc in IH. revert IH.
      unfold moves in Hp. rewrite list_lookup_fmap in Hp.
      destruct (promotion_rows s !! i) as [row|] eqn:Erow; [|done]. injection Hp as Hp.
      pose proof (list_elem_of_lookup_2 _ _ _ Erow) as Hin.
      rewrite (proj2 (retained_iff _ _)) by (rewrite <-Hp; by apply (ro_target _ Hok)). cbn [negb orb].
      assert (match from_version p with Some before => negb (retained (full_versions s) (promoted p) before)
        | None => false end = false) as ->.
      { destruct (from_version p) as [d|] eqn:Ed; [|done].
        rewrite (proj2 (retained_iff _ _)); [done|]. rewrite <-Hp. apply (ro_base _ Hok _ _ Hin). by rewrite Hp. }
      rewrite decide_False; [done|]. intros Hne. apply Hne.
      unfold moves. rewrite <-fmap_take, moves_pointer, <-Hp. symmetry. by apply (ro_chain _ Hok). }
  specialize (H (length (moves s))). rewrite Nat.sub_diag, take_0, drop_0 in H. exact H.
Qed.
Lemma snapshot_current : snapshot_of s None = Ok (current_snapshot s).
Proof.
  rewrite (snapshot_cut s None Hok). cbn [from_option id current_revision registration_seq promotion_seq].
  rewrite decide_True by (unfold within; simpl; lia). rewrite !Nat2N.id, !firstn_all2
    by (unfold registered, moves; by rewrite length_fmap).
  unfold cut. pose proof (follow_all RegistryDamaged) as Hf. unfold full_versions in Hf.
  unfold current_snapshot, full_versions. destruct (foldl cut_component (∅, ∅) (registered s)) as [vs order].
  cbn [fst snd] in *. rewrite Hf. cbn [mbind result_bind]. by destruct (full_pointers s).
Qed.
Lemma snapshot_own : snapshot_of s (Some (current_revision s)) = Ok (current_snapshot s).
Proof.
  rewrite <-snapshot_current, !(snapshot_cut s _ Hok). cbn [from_option id].
  rewrite !decide_True by (unfold within; simpl; lia). simpl. rewrite !Nat2N.id, !firstn_all2
    by (unfold registered, moves; by rewrite length_fmap).
  unfold cut. pose proof follow_all as Hf. unfold full_versions in Hf.
  destruct (foldl cut_component (∅, ∅) (registered s)) as [vs order]. cbn [fst] in Hf. by rewrite !Hf.
Qed.
Lemma snapshot_now : snapshot None s = (Ok (current_snapshot s), s).
Proof. unfold snapshot, ebind, get, lift. by rewrite snapshot_current. Qed.
Lemma pointer_version c d : pointer s.(promotion_rows) c = Some d → has_version s c d.
Proof.
  unfold pointer. destruct (last _) as [row|] eqn:E; [|done]. intros [= <-].
  apply last_Some_elem_of, list_elem_of_filter in E as [<- Hin]. by apply (ro_target _ Hok).
Qed.
Lemma stable_current c : stable_version (current_snapshot s) c = Ok (pointer s.(promotion_rows) c).
Proof.
  unfold stable_version. simpl. unfold full_pointers, moves. rewrite moves_pointer.
  destruct (pointer _ c) as [d|] eqn:E; [|done]. pose proof (version_digest s Hok c d (pointer_version c d E)) as Hd.
  rewrite decide_False by (by intros ->). by rewrite (well_formed_value d Hd).
Qed.
End current.
