(* ===== verification/RegistryLaws.v ===== *)
(** What the durable registry promises ([RegistryStore], [RegistrySpec]): every
    pointer move has its proof and starts where the pointer stood, a cut reads
    the same for ever, and a promotion is a compare-and-swap. *)

From S2P Require Import Prelude Identity Address Component Manifest Run Effect Journal EffectStore.
From S2P Require Import RegistryStore JournalSpec EffectSpec RegistrySpec Fixture.
From Stdlib Require Import Ascii.

(** ** A registry with two versions of a component and a move to each *)
Module Registered.
Definition start2 : ComponentDef :=
  Fixture.atomic "start" [Fixture.port "seed" "demo/Seed"] [Fixture.port "draft" "demo/State"; Fixture.again].
Definition first_hash : Digest := Eval vm_compute in content_hash Fixture.start.
Definition second_hash : Digest := Eval vm_compute in content_hash start2.
Definition first : StoredVersion := mkStored Fixture.start first_hash "t1".
Definition second : StoredVersion := mkStored start2 second_hash "t2".
Definition draft (version : Digest) (baseline : option Digest) : AttestationDraft :=
  mkDraft ActionPromote (SubjectComponent (mkComponentProof "start" version baseline))
    [mkCheck "reviewed" CheckPassed "by hand" "1.0"] (Fixture.hash_of "a"%char) []
    (Fixture.hash_of "b"%char) None.
Definition first_proof : string := Eval vm_compute in attestation_id_for (draft first_hash None).
Definition second_proof : string := Eval vm_compute in attestation_id_for (draft second_hash (Some first_hash)).
Definition first_move : PromotionRecord :=
  mkPromotion "start" Stable None first_hash first_proof "operator" None "t3".
Definition second_move : PromotionRecord :=
  mkPromotion "start" Stable (Some first_hash) second_hash second_proof "operator" None "t4".
Definition setup : list rcall :=
  [RVersion first; RVersion second; RJournal (JMintPolicy (draft first_hash None) "t2"); RPromotion first_move].
Definition upgrade : list rcall :=
  [RJournal (JMintPolicy (draft second_hash (Some first_hash)) "t3"); RPromotion second_move].
Example lawful : forallb rlawful (setup ++ upgrade) = true.
Proof. vm_compute. reflexivity. Qed.
Example two_versions : length (run_rcalls setup new_registry).(component_rows) = 2.
Proof. vm_compute. reflexivity. Qed.
Example one_move : length (run_rcalls setup new_registry).(promotion_rows) = 1.
Proof. vm_compute. reflexivity. Qed.
Example upgraded : pointer (run_rcalls (setup ++ upgrade) new_registry).(promotion_rows) "start" = Some second_hash.
Proof. vm_compute. reflexivity. Qed.
Definition ready : list rcall := setup ++ [RJournal (JMintPolicy (draft second_hash (Some first_hash)) "t3")].
Example ready_lawful : forallb rlawful ready = true.
Proof. vm_compute. reflexivity. Qed.
Example ready_moves : (run_rcalls ready new_registry).(promotion_rows) = [mkPromotionRow 1 first_move].
Proof. vm_compute. reflexivity. Qed.
Example ready_versions : (run_rcalls ready new_registry).(component_rows)
  = [mkComponentRow 1 "start" first_hash Fixture.start "t1"; mkComponentRow 2 "start" second_hash start2 "t2"].
Proof. vm_compute. reflexivity. Qed.
Definition minted : Attestation := mkAttestation second_proof (draft second_hash (Some first_hash)) None "t3".
Example ready_proof :
  (load_attestation second_proof (run_rcalls ready new_registry).(reg_journal)).1 = Ok (Some minted).
Proof. vm_compute. reflexivity. Qed.
End Registered.

(** ** Authority and continuity *)

(** C23: In every history of a registry the current snapshot is readable, and every pointer
    move it retains has a journal-minted attestation for exactly its component, versions and
    run, spends that attestation alone, joins two retained versions and starts where the
    pointer stood; the stable version is where the last move led. *)
Theorem promotions_are_authorized cs :
  forallb rlawful cs = true →
  let s := run_rcalls cs new_registry in
  ∃ snap, snapshot None s = (Ok snap, s) ∧
    NoDup ((λ row, row.(pr_record).(Component.attestation_id)) <$> s.(promotion_rows)) ∧
    (∀ c, stable_version snap c = Ok (pointer s.(promotion_rows) c)) ∧
    ∀ i row, s.(promotion_rows) !! i = Some row → let p := row.(pr_record) in
      (∃ a, load_attestation p.(Component.attestation_id) s.(reg_journal) = (Ok (Some a), s.(reg_journal)) ∧
         attestation_sound a = true ∧
         promotion_attestation_faults a p.(promoted) p.(to_version) p.(from_version) p.(Component.source_run) = []) ∧
      is_Some (snapshot_get snap p.(promoted) p.(to_version)) ∧
      (∀ d, p.(from_version) = Some d → is_Some (snapshot_get snap p.(promoted) d)) ∧
      p.(from_version) = pointer (take i s.(promotion_rows)) p.(promoted).
Proof.
  intros Hl s. pose proof (history_ok cs Hl) as Hok. fold s in Hok.
  exists (current_snapshot s). split; [by apply snapshot_now|]. split; [apply Hok|].
  split; [by apply stable_current|]. intros i row Hi p.
  pose proof (list_elem_of_lookup_2 _ _ _ Hi) as Hin. setoid_rewrite (snapshot_get_current s Hok).
  split_and!.
  - destruct (ro_auth _ Hok row Hin) as (a & Ha & Hf). exists a.
    pose proof (stored_attestation_good _ p.(Component.attestation_id) (ro_facts _ Hok)) as Hg. fold p in Ha.
    split_and!; [|exact (proj2 (f_sound _ (ro_facts _ Hok) _ (Dict.get_elem _ _ _ Ha)))|exact Hf].
    unfold load_attestation, ebind, get, lift. by rewrite Hg, Ha.
  - apply fmap_is_Some, (has_version_iff s). by apply (ro_target _ Hok).
  - intros d Hd. apply fmap_is_Some, (has_version_iff s). by apply (ro_base _ Hok).
  - by apply (ro_chain _ Hok).
Qed.
Lemma promotions_are_authorized_witness :
  let s := run_rcalls (Registered.setup ++ Registered.upgrade) new_registry in
  ∃ snap, snapshot None s = (Ok snap, s) ∧ length s.(promotion_rows) = 2 ∧
    stable_version snap "start" = Ok (Some Registered.second_hash).
Proof.
  destruct (promotions_are_authorized (Registered.setup ++ Registered.upgrade) Registered.lawful) as (snap & Hs & _ & Hst & _).
  exists snap. split; [exact Hs|]. split; [vm_compute; reflexivity|]. rewrite Hst.
  exact (f_equal Ok Registered.upgraded).
Defined.

(** ** Cuts *)

(** C25: A revision is a cut that never changes: what it answers once reached is what it
    answers after any later calls, the snapshot taken now is what its own revision reads back
    for ever, and a revision not reached yet is refused. *)
Theorem registry_cuts_are_immutable cs later r :
  forallb rlawful (cs ++ later) = true →
  let s := run_rcalls cs new_registry in
  let s' := run_rcalls (cs ++ later) new_registry in
  let cut r s := (snapshot (Some r) s).1 in
  (* what a revision reached by now answers never changes *)
  ((r.(registration_seq) ≤ N.of_nat (length s.(component_rows)))%N ∧
   (r.(promotion_seq) ≤ N.of_nat (length s.(promotion_rows)))%N → cut r s' = cut r s) ∧
  (* and the snapshot taken now is what its own revision reads back *)
  (∀ snap, (snapshot None s).1 = Ok snap → cut snap.(Component.revision) s' = Ok snap) ∧
  (* any other revision is refused *)
  (¬ ((r.(registration_seq) ≤ N.of_nat (length s.(component_rows)))%N ∧
      (r.(promotion_seq) ≤ N.of_nat (length s.(promotion_rows)))%N) →
   cut r s = Raise (InvalidRegistryRevision None)).
Proof.
  rewrite forallb_app. intros [Hl Hl']%andb_true_iff s s' cut. pose proof (history_ok cs Hl) as Hok.
  assert (rtc rstep s s') as Hsteps by (unfold s'; rewrite run_rcalls_app; by apply rcalls_steps).
  assert (∀ r s, cut r s = snapshot_of s (Some r)) as Hcut by done.
  split_and!.
  - intros Hw. rewrite !Hcut. by apply snapshot_fixed.
  - intros snap. rewrite (snapshot_now s Hok). intros [= <-].
    rewrite Hcut, (snapshot_fixed s s') by (done || split; simpl; lia). by apply snapshot_own.
  - intros Hw. rewrite Hcut, (snapshot_cut s _ Hok), decide_False by exact Hw. done.
Qed.
#[local] Opaque run_rcalls.
Lemma registry_cuts_are_immutable_witness :
  let s := run_rcalls Registered.setup new_registry in
  let s' := run_rcalls (Registered.setup ++ Registered.upgrade) new_registry in
  (snapshot (Some (mkRevision 2 1)) s').1 = (snapshot (Some (mkRevision 2 1)) s).1 ∧
  (snapshot (Some (mkRevision 2 2)) s).1 = Raise (InvalidRegistryRevision None).
Proof.
  destruct (registry_cuts_are_immutable Registered.setup Registered.upgrade (mkRevision 2 1) Registered.lawful)
    as (H & _ & _).
  destruct (registry_cuts_are_immutable Registered.setup Registered.upgrade (mkRevision 2 2) Registered.lawful)
    as (_ & _ & H').
  rewrite Registered.two_versions, Registered.one_move in H, H'.
  intros s s'. split; [refine (H (conj _ _)); discriminate|].
  refine (H' _). intros [_ Hp]. exact (Hp eq_refl).
Defined.
#[local] Transparent run_rcalls.

(** ** Promotion *)
Definition proved (s : registry) (p : PromotionRecord) : Prop :=
  ∃ a, (load_attestation p.(Component.attestation_id) s.(reg_journal)).1 = Ok (Some a) ∧
    promotion_attestation_faults a p.(promoted) p.(to_version) p.(from_version) p.(Component.source_run) = [].
Definition spent (s : registry) (id : string) : Prop :=
  ∃ row, row ∈ s.(promotion_rows) ∧ row.(pr_record).(Component.attestation_id) = id.
Definition movable (s : registry) (p : PromotionRecord) : Prop :=
  proved s p ∧ has_version s p.(promoted) p.(to_version) ∧
  (∀ d, p.(from_version) = Some d → has_version s p.(promoted) d) ∧
  p.(from_version) = pointer s.(promotion_rows) p.(promoted).
Lemma proved_iff s p : reg_ok s → proved s p ↔ authorized s.(reg_journal) p.
Proof.
  intros Hok. unfold proved, authorized, load_attestation, ebind, get, lift. cbn [fst].
  rewrite (stored_attestation_good _ _ (ro_facts _ Hok)). split; intros (a & Ha & Hf); exists a.
  - by injection Ha as ->.
  - by rewrite Ha.
Qed.
Lemma endpoints_iff s p : endpoints s p ↔
  has_version s p.(promoted) p.(to_version) ∧ ∀ d, p.(from_version) = Some d → has_version s p.(promoted) d.
Proof.
  unfold endpoints. rewrite (has_version_iff s). destruct (from_version p) as [d|]; split.
  - intros [? Hd]. split; [done|]. intros d' [= <-]. by apply (has_version_iff s).
  - intros [? Hd]. split; [done|]. apply (has_version_iff s), Hd. done.
  - by intros [? _].
  - by intros [? _].
Qed.
Lemma spent_move s row : reg_ok s → row ∈ s.(promotion_rows) →
  move_of s row.(pr_record).(Component.attestation_id) = Some row.
Proof.
  intros Hok Hin. unfold move_of.
  assert (row ∈ filter (λ r, r.(pr_record).(Component.attestation_id) = row.(pr_record).(Component.attestation_id))
    s.(promotion_rows)) as Hrow by (by apply list_elem_of_filter).
  destruct (filter_one (λ r, r.(pr_record).(Component.attestation_id))
    row.(pr_record).(Component.attestation_id) _ (ro_ids _ Hok)) as [E|(r & E)]; rewrite E in *.
  - by apply elem_of_nil in Hrow.
  - apply list_elem_of_singleton in Hrow as ->. done.
Qed.
Lemma unspent_move s id : ¬ spent s id → move_of s id = None.
Proof.
  intros Hn. destruct (move_of s id) as [row|] eqn:E; [|done]. apply move_of_elem in E as [? ?].
  exfalso. apply Hn. by exists row.
Qed.
Lemma move_succeeds s p : reg_ok s → ¬ spent s p.(Component.attestation_id) → movable s p →
  store_promotion p s = (Ok p, add_promotion (new_promotion s p) s).
Proof.
  intros Hok Hn (Hpr & Ht & Hb & Hp). rewrite (store_promotion_eq s Hok), (unspent_move s _ Hn).
  rewrite (proved_iff s p Hok) in Hpr. rewrite (authority_ok s Hok p Hpr).
  rewrite decide_True by (by apply endpoints_iff). by rewrite decide_True by done.
Qed.
Lemma move_refused s p : reg_ok s → ¬ spent s p.(Component.attestation_id) → ¬ movable s p →
  (∃ e, store_promotion p s = (Raise e, s)).
Proof.
  intros Hok Hn Hm. rewrite (store_promotion_eq s Hok), (unspent_move s _ Hn).
  destruct (_validate_promotion_authority s p) as [u|e] eqn:Ea; [|by eexists].
  case_decide as He; [|by eexists]. case_decide as Hp; [|by eexists].
  exfalso. apply Hm. apply endpoints_iff in He as [Ht Hb]. split_and!; [|done|done|done].
  apply (proved_iff s p Hok). by eapply authority_inv.
Qed.

(** C24: Storing a promotion is a compare-and-swap: under an unspent proof it succeeds exactly
    when the proof is of this edge, both versions are retained and the pointer still stands at
    the baseline, and then moves that pointer alone; under a spent proof it returns the same
    receipt or refuses; and of two moves from one baseline the later is refused. *)
Theorem promotion_is_compare_and_swap cs p :
  forallb rlawful cs = true →
  let s := run_rcalls cs new_registry in
  let '(r, s') := store_promotion p s in
  (* its proof is unspent *)
  (¬ spent s p.(Component.attestation_id) →
     (movable s p → r = Ok p ∧ s'.(promotion_rows) = s.(promotion_rows) ++ [new_promotion s p] ∧
        s'.(component_rows) = s.(component_rows) ∧ s'.(reg_journal) = s.(reg_journal) ∧
        ∀ c, pointer s'.(promotion_rows) c
             = if decide (p.(promoted) = c) then Some p.(to_version) else pointer s.(promotion_rows) c) ∧
     (¬ movable s p → is_ok r = false ∧ s' = s)) ∧
  (* its proof has moved the pointer before *)
  (∀ row, row ∈ s.(promotion_rows) → row.(pr_record).(Component.attestation_id) = p.(Component.attestation_id) →
     s' = s ∧ r = if same_identity_as row.(pr_record) p then Ok row.(pr_record)
                  else Raise (RegistryDamaged (PromotionContradictory p.(Component.attestation_id)))) ∧
  (* and of two moves from one baseline the later finds it gone *)
  (∀ q, q.(promoted) = p.(promoted) → q.(from_version) = p.(from_version) →
     q.(from_version) ≠ Some p.(to_version) → is_ok r = true →
     ¬ spent s' q.(Component.attestation_id) → s' ≠ s →
     is_ok (store_promotion q s').1 = false ∧ (store_promotion q s').2 = s').
Proof.
  intros Hl s. pose proof (history_ok cs Hl) as Hok. fold s in Hok.
  destruct (store_promotion p s) as [r s'] eqn:E. split_and!.
  - intros Hn. split.
    + intros Hm. rewrite (move_succeeds s p Hok Hn Hm) in E. injection E as <- <-. split_and!; try done.
      intros c. cbn [add_promotion promotion_rows]. by rewrite pointer_snoc.
    + intros Hm. destruct (move_refused s p Hok Hn Hm) as [e He]. rewrite He in E. by injection E as <- <-.
  - intros row Hin Hid. rewrite (store_promotion_eq s Hok), <-Hid, (spent_move s row Hok Hin), Hid in E.
    destruct (same_identity_as _ _); by injection E as <- <-.
  - intros q Hc Hb Hne Hr Hq Hs. destruct (store_promotion_step s p r s' Hok E) as [->|[-> Hstep]]; [done|].
    pose proof (reg_ok_step _ _ Hstep Hok) as Hok'. destruct (move_refused s' q Hok' Hq) as [e ->]; [|done].
    intros (_ & _ & _ & Hp). apply Hne. rewrite Hp, Hc.
    destruct (store_promotion_moves s p _ _ Hok E) as [->|(row & Hrow & ->)]; [done|].
    cbn [add_promotion promotion_rows]. rewrite pointer_snoc, Hrow. by rewrite decide_True.
Qed.
Lemma promotion_is_compare_and_swap_witness :
  let s := run_rcalls Registered.ready new_registry in
  let '(r, s') := store_promotion Registered.second_move s in
  r = Ok Registered.second_move ∧ pointer s'.(promotion_rows) "start" = Some Registered.second_hash.
Proof.
  intros s. pose proof (promotion_is_compare_and_swap Registered.ready Registered.second_move
    Registered.ready_lawful) as H.
  fold s in H. cbv zeta in H. destruct (store_promotion Registered.second_move s) as [r s'].
  destruct H as [H _]. destruct H as [H _].
  - intros (row & Hrow & Hid). unfold s in Hrow. rewrite Registered.ready_moves in Hrow.
    apply list_elem_of_singleton in Hrow as ->. discriminate Hid.
  - destruct H as (Hr & _ & _ & _ & Hp); [|split; [exact Hr|exact (Hp "start")]].
    assert (∀ h, h = Registered.first_hash ∨ h = Registered.second_hash → has_version s "start" h) as Hv.
    { intros h Hh. unfold has_version, s. rewrite Registered.ready_versions.
      destruct Hh as [-> | ->]; eexists; (split; [|]); [left|reflexivity|right; left|reflexivity]. }
    split; [|split; [|split]].
    + exists Registered.minted. split; [exact Registered.ready_proof|vm_compute; reflexivity].
    + apply Hv. right. reflexivity.
    + intros d Hd. injection Hd as <-. apply Hv. left. reflexivity.
    + unfold s. rewrite Registered.ready_moves. reflexivity.
Defined.
