(* ===== verification/RollbackSpec.v ===== *)
(** The promotion operations of [ComponentRegistry] over a sound registry
    ([Registry]): what the plans read and what a minted policy proof moves. *)

From S2P Require Import Prelude Identity Address Component Capability Manifest Run Effect Journal EffectStore.
From S2P Require Import RegistryStore Registry JournalSpec EffectSpec RegistrySpec RegistryLaws Fixture.

(** ** Minting a policy proof *)
Definition policy_draft (d : AttestationDraft) : Prop :=
  d.(dr_action) = ActionPromote ∧ ∃ proof, d.(dr_subject) = SubjectComponent proof.
(** No other proof holds the identity of this draft. *)
Definition mintable (j : store) (d : AttestationDraft) : Prop :=
  ∀ a, Dict.get (attestation_id_for d) j.(attested) = Some a → a.(att_draft) = d ∧ a.(created_by_run) = None.
Lemma mint_policy_eq j d now : facts j → policy_draft d →
  let fresh := mkAttestation (attestation_id_for d) d None now in
  match Dict.get (attestation_id_for d) j.(attested) with
  | None => mint_policy_attestation d now j = (Ok fresh, add_attestation fresh j)
  | Some a =>
      if decide (a.(att_draft) = d ∧ a.(created_by_run) = None)
      then mint_policy_attestation d now j = (Ok a, j)
      else ∃ e, mint_policy_attestation d now j = (Raise e, j)
  end.
Proof.
  intros Hf [Ha (proof & Hs)] fresh. unfold mint_policy_attestation. rewrite Ha, Hs. cbn [negb andb].
  rewrite bool_decide_eq_true_2 by done. cbn [negb andb]. unfold _txn, mint_once, ebind, get, lift.
  unfold _stored_attestation_for_draft. cbn [prior_mint]. rewrite stored_attestation_good by done.
  cbn [mbind result_bind]. destruct (Dict.get _ _) as [a|] eqn:E.
  - destruct (decide (att_draft a ≠ d)) as [Hd|Hd].
    { rewrite decide_False by naive_solver. by eexists. }
    apply dec_stable in Hd. destruct (decide (created_by_run a = None)) as [Hc|Hc].
    { by rewrite decide_True. }
    rewrite decide_False by naive_solver. rewrite decide_False by (intros Hn; by apply Hn).
    unfold _insert_attestation, ebind, get, lift. cbn [attestation_id].
    rewrite stored_attestation_good, E by done. case_decide as Heq; [|by eexists].
    exfalso. apply Hc. by injection Heq.
  - unfold _insert_attestation, ebind, get, lift. cbn [attestation_id].
    by rewrite stored_attestation_good, E by done.
Qed.
Lemma mint_policy_ok j d now : facts j → policy_draft d → mintable j d →
  is_ok (mint_policy_attestation d now j).1 = true.
Proof.
  intros Hf Hd Hm. pose proof (mint_policy_eq j d now Hf Hd) as H. cbv zeta in H.
  destruct (Dict.get _ _) as [a|] eqn:E; [|by rewrite H].
  rewrite decide_True in H by (by apply Hm). by rewrite H.
Qed.
Lemma mint_policy_inv j d now a j' : facts j → policy_draft d → mint_policy_attestation d now j = (Ok a, j') →
  Dict.get (attestation_id_for d) j'.(attested) = Some a ∧ a.(attestation_id) = attestation_id_for d ∧
  a.(att_draft) = d ∧ a.(created_by_run) = None.
Proof.
  intros Hf Hd E. pose proof (mint_policy_eq j d now Hf Hd) as H. cbv zeta in H. rewrite E in H.
  destruct (Dict.get _ _) as [b|] eqn:Eb.
  - case_decide as Hb; [|by destruct H]. injection H as -> ->. split; [done|]. split; [|done].
    destruct (f_sound _ Hf _ (Dict.get_elem _ _ _ Eb)) as [Hid _]. by symmetry.
  - injection H as -> ->. split; [|done]. simpl. rewrite <-Dict.set_fresh.
    + apply Dict.get_set_eq.
    + by apply Dict.get_None.
Qed.

(** ** The reads of a plan *)
Definition last_move (s : registry) (c : string) : option promotion_row :=
  last (filter (λ row, row.(pr_record).(promoted) = c) s.(promotion_rows)).
Lemma pointer_last s c : pointer s.(promotion_rows) c = (λ row, row.(pr_record).(to_version)) <$> last_move s c.
Proof. done. Qed.
Lemma previous_of_last s c row : last_move s c = Some row →
  previous_stable (moves_of s.(promotion_rows) c) row.(pr_record).(to_version) = row.(pr_record).(from_version).
Proof.
  unfold last_move, previous_stable, moves_of. generalize (filter (λ row, row.(pr_record).(promoted) = c) s.(promotion_rows)).
  intros l. destruct l as [|l r _] using rev_ind; [done|]. rewrite last_snoc. intros [= ->].
  rewrite fmap_app, reverse_app. simpl. rewrite filter_cons_True by done. done.
Qed.
Definition inverse_plan (row : promotion_row) (previous : Digest) : PlannedPolicyPromotion :=
  policy_plan row.(pr_record).(promoted) previous (Some row.(pr_record).(to_version)) "rollback"
    (rollback_detail row.(pr_record).(to_version) previous).
Section plans.
Context (s : registry) (Hok : reg_ok s).
Lemma stable_now c : stable_of (current_snapshot s) c s = (Ok (pointer s.(promotion_rows) c), s).
Proof. unfold stable_of, lift. by rewrite (stable_current s Hok). Qed.
Lemma last_move_elem c row : last_move s c = Some row → row ∈ s.(promotion_rows) ∧ row.(pr_record).(promoted) = c.
Proof. intros H%last_Some_elem_of. by apply list_elem_of_filter in H as [? ?]. Qed.
Lemma promotion_for_ok id : promotion_for_attestation id s = (Ok (pr_record <$> move_of s id), s).
Proof.
  unfold promotion_for_attestation. unfold ebind at 1, get at 1.
  unfold ebind at 1, lift at 1. rewrite (registrations_ok s Hok).
  unfold ebind at 1, lift at 1. rewrite (promotions_ok s Hok).
  unfold ebind at 1, lift at 1. rewrite (promotion_for_row_ok s Hok).
  destruct (move_of s id) as [row|] eqn:E; [|done]. apply move_of_elem in E as [Hin _].
  unfold ebind, lift. by rewrite (promotion_read s Hok row Hin).
Qed.
Lemma version_get c h : has_version s c h → ∃ v, snapshot_get (current_snapshot s) c h = Some v.
Proof. intros [row Hr]%(has_version_iff s). rewrite (snapshot_get_current s Hok), Hr. by eexists. Qed.
Lemma plan_rollback_eq c expected :
  plan_rollback c expected s =
  ((_ ← match expected with
        | Some e => if decide (pointer s.(promotion_rows) c ≠ Some e)
                    then Raise (AdmissionRefused [UnexpectedStable c e (pointer s.(promotion_rows) c)]) else Ok tt
        | None => Ok tt
        end;
    match last_move s c with
    | None => Raise (NothingStable c)
    | Some row =>
        match row.(pr_record).(from_version) with
        | None => Raise (NothingEarlier c)
        | Some previous =>
            match move_of s (inverse_plan row previous).(pp_attestation) with
            | None => Ok (inverse_plan row previous)
            | Some prior =>
                let q := prior.(pr_record) in
                if decide (q.(promoted) ≠ c ∨ q.(from_version) ≠ Some row.(pr_record).(to_version)
                           ∨ q.(to_version) ≠ previous ∨ q.(Component.source_run) ≠ None)
                then Raise (RegistryDamaged RollbackProofContradicts) else Raise (RollbackProofConsumed c)
            end
        end
    end), s).
Proof.
  unfold plan_rollback. unfold ebind at 1. rewrite (snapshot_now s Hok).
  unfold ebind at 1. rewrite stable_now.
  assert (∀ k : registry, (match expected with
    | Some e => if decide (pointer (promotion_rows s) c ≠ Some e)
                then raise (AdmissionRefused [UnexpectedStable c e (pointer (promotion_rows s) c)]) else eret tt
    | None => eret tt end) k = (match expected with
        | Some e => if decide (pointer s.(promotion_rows) c ≠ Some e)
                    then Raise (AdmissionRefused [UnexpectedStable c e (pointer s.(promotion_rows) c)]) else Ok tt
        | None => Ok tt
        end, k)) as Hexp.
  { intros k. destruct expected; [|done]. by case_decide. }
  unfold ebind at 1. rewrite Hexp.
  destruct (match expected with Some e => _ | None => _ end) as [[]|e]; [|done].
  cbn [mbind result_bind]. rewrite pointer_last. destruct (last_move s c) as [row|] eqn:El; [|done].
  cbn [fmap option_fmap option_map]. destruct (last_move_elem c row El) as [Hin Hc].
  assert (default [] (history (current_snapshot s) !! c) = moves_of (promotion_rows s) c) as ->
    by apply moves_history.
  rewrite (previous_of_last s c row El). destruct (from_version _) as [previous|] eqn:Ef; [|done].
  pose proof (ro_base _ Hok row previous Hin Ef) as Hv. rewrite Hc in Hv.
  unfold ebind at 1, lift at 1. rewrite (well_formed_value previous (version_digest s Hok _ _ Hv)).
  cbn [fmap result_fmap to_digest option_fmap option_map from_option id].
  unfold ebind at 1, plan_rollback_edge. unfold ebind at 1. rewrite (snapshot_now s Hok).
  destruct (version_get c previous Hv) as [v ->]. cbn [eret].
  unfold inverse_plan. rewrite Hc. unfold ebind at 1. unfold eret at 1. rewrite promotion_for_ok.
  destruct (move_of s _) as [prior|]; [|done]. cbn [fmap option_fmap option_map].
  cbn [pp_target policy_plan]. by case_decide.
Qed.
End plans.

(** ** Moving the pointer under a policy proof *)
Definition inverse_move (row : promotion_row) (previous : Digest) (actor now : string) : PromotionRecord :=
  let p := inverse_plan row previous in
  mkPromotion p.(pp_component) Stable p.(pp_baseline) p.(pp_target) p.(pp_attestation) actor None now.
Lemma policy_proof_faults a c v baseline policy detail :
  a.(att_draft) = _policy_attestation_draft c v baseline policy detail → a.(created_by_run) = None →
  promotion_attestation_faults a c v baseline None = [].
Proof.
  intros Hd Hc. unfold promotion_attestation_faults, attestation_ok. rewrite Hd, Hc.
  cbn [_policy_attestation_draft dr_action dr_subject dr_checks proof_component proof_version baseline_version].
  rewrite !bool_decide_eq_false_2 by (intros Hn; by apply Hn). reflexivity.
Qed.
Lemma promote_policy s c v baseline policy detail a actor now :
  reg_ok s → let d := _policy_attestation_draft c v baseline policy detail in
  Dict.get (attestation_id_for d) s.(reg_journal).(attested) = Some a →
  a.(attestation_id) = attestation_id_for d → a.(att_draft) = d → a.(created_by_run) = None →
  move_of s (attestation_id_for d) = None → has_version s c v → pointer s.(promotion_rows) c = baseline →
  promote c v (attestation_id_for d) actor None now s
  = store_promotion (mkPromotion c Stable baseline v (attestation_id_for d) actor None now) s.
Proof.
  intros Hok d Ha Hid Hd Hc Hm Hv Hp. unfold promote. unfold ebind at 1. rewrite (snapshot_now s Hok).
  destruct (version_get s Hok c v Hv) as [st ->]. unfold ebind at 1. rewrite (promotion_for_ok s Hok), Hm.
  cbn [fmap option_fmap option_map]. unfold ebind at 1, on_journal at 1.
  unfold load_attestation, ebind at 1, get at 1, lift at 1.
  rewrite (stored_attestation_good _ _ (ro_facts _ Hok)), Ha.
  assert (mkRegistry (reg_journal s) (component_rows s) (promotion_rows s) = s) as -> by (by destruct s).
  unfold ebind at 1. rewrite (stable_now s Hok), Hp, Hc.
  rewrite (policy_proof_faults a c v baseline policy detail Hd Hc). reflexivity.
Qed.
(** What the calls of a rollback leave of the registry. *)
Lemma journal_reg_ok s j : reg_ok s → rtc jstep s.(reg_journal) j →
  reg_ok (mkRegistry j s.(component_rows) s.(promotion_rows)).
Proof.
  intros Hok Hj. destruct s as [j0 cs ps]. eapply reg_ok_steps; [by apply journal_steps|exact Hok].
Qed.
Lemma move_of_journal j s id : move_of (mkRegistry j s.(component_rows) s.(promotion_rows)) id = move_of s id.
Proof. done. Qed.
Lemma rollback_eq s c actor expected now : reg_ok s →
  match plan_rollback c expected s with
  | (Raise e, _) => rollback c actor expected now s = (Raise e, s)
  | (Ok plan, _) => ∃ row previous, plan = inverse_plan row previous ∧ last_move s c = Some row ∧
      row.(pr_record).(from_version) = Some previous ∧
      (expected = None ∨ expected = Some row.(pr_record).(to_version)) ∧
      move_of s plan.(pp_attestation) = None ∧
      let '(r, j) := mint_policy_attestation plan.(pp_draft) now s.(reg_journal) in
      let s1 := mkRegistry j s.(component_rows) s.(promotion_rows) in
      match r with
      | Raise e => rollback c actor expected now s = (Raise (JournalRaised e), s1)
      | Ok _ => let p := inverse_move row previous actor now in
          rollback c actor expected now s = (Ok p, add_promotion (new_promotion s p) s1)
      end
  end.
Proof.
  intros Hok. destruct (plan_rollback c expected s) as [[plan|e] s0] eqn:Eplan.
  2: { unfold rollback, ebind. rewrite Eplan. rewrite (plan_rollback_eq s Hok) in Eplan. by injection Eplan as _ ->. }
  pose proof Eplan as Hplan. rewrite (plan_rollback_eq s Hok) in Eplan. injection Eplan as Eplan <-.
  assert (expected = None ∨ ∃ e, expected = Some e ∧ pointer s.(promotion_rows) c = Some e) as Hexp.
  { destruct expected as [e|]; [right|by left]. exists e. split; [done|].
    destruct (decide (pointer (promotion_rows s) c ≠ Some e)) as [|Hn]; [done|by apply dec_stable in Hn]. }
  assert ((match expected with Some e => if decide (pointer (promotion_rows s) c ≠ Some e)
    then Raise (AdmissionRefused [UnexpectedStable c e (pointer (promotion_rows s) c)]) else Ok tt
    | None => Ok tt end) = (Ok tt : result rexn ())) as Hok'.
  { destruct Hexp as [->|(e & -> & ->)]; [done|]. rewrite decide_False by (intros Hn; by apply Hn). done. }
  rewrite Hok' in Eplan. cbn [mbind result_bind] in Eplan.
  destruct (last_move s c) as [row|] eqn:El; [|done]. destruct (last_move_elem s c row El) as [Hin Hc].
  destruct (from_version _) as [previous|] eqn:Ef; [|done].
  destruct (move_of s _) as [prior|] eqn:Em; [by case_decide|]. injection Eplan as <-.
  exists row, previous. do 3 (split; [done|]). split.
  { destruct Hexp as [->|(e & -> & Hp)]; [by left|right]. rewrite pointer_last, El in Hp. by injection Hp as ->. }
  split; [done|]. pose proof (ro_base _ Hok row previous Hin Ef) as Hv.
  assert (policy_draft (inverse_plan row previous).(pp_draft)) as Hpd by (split; [done|by eexists]).
  destruct (mint_policy_attestation _ now s.(reg_journal)) as [[a|e] j] eqn:Emint.
  2: { unfold rollback. unfold ebind at 1. rewrite Hplan. unfold ebind at 1, on_journal at 1. by rewrite Emint. }
  pose proof (journal_reg_ok s j Hok (mint_policy_outcome _ _ _ _ _ Emint)) as Hok1.
  destruct (mint_policy_inv _ _ _ _ _ (ro_facts _ Hok) Hpd Emint) as (Ha & Hid & Hd & Hcr).
  cbv zeta. unfold rollback. unfold ebind at 1. rewrite Hplan. unfold ebind at 1, on_journal at 1. rewrite Emint.
  cbn [pp_target inverse_plan policy_plan]. rewrite Hid.
  assert (pointer s.(promotion_rows) c = Some row.(pr_record).(to_version)) as Hp by (by rewrite pointer_last, El).
  rewrite Hc in Hv. rewrite <-Hc in Hp, Hv |- *.
  etrans; [eapply (promote_policy _ _ _ _ _ _ a _ _ Hok1); try done; by rewrite <-Hid|].
  assert (¬ spent s (inverse_plan row previous).(pp_attestation)) as Hns.
  { intros (r & Hr & Hrid). pose proof (spent_move s r Hok Hr) as Hm. rewrite Hrid in Hm.
    pose proof (eq_trans (eq_sym Hm) Em) as [=]. }
  etrans; [apply (move_succeeds _ _ Hok1)|done].
  - exact Hns.
  - split_and!; [|exact Hv| |by symmetry].
    + exists a. split; [|by apply policy_proof_faults with "rollback" (rollback_detail row.(pr_record).(to_version) previous)].
      unfold load_attestation, ebind, get, lift. cbn [fst reg_journal].
      rewrite (stored_attestation_good _ _ (ro_facts _ Hok1)). cbn [reg_journal]. exact (f_equal Ok Ha).
    + intros d [= <-]. by apply (ro_target _ Hok).
Qed.

(** ** Rollback *)

(** C28: A rollback undoes the last move of a component: it moves the pointer back to that
    move's baseline under a freshly spent policy proof of exactly this edge, refuses without
    moving anything otherwise, and succeeds whenever there is a move to undo whose inverse is
    neither spent nor taken. *)
Theorem rollback_undoes_last_move cs c actor expected now :
  forallb rlawful cs = true →
  let s := run_rcalls cs new_registry in
  let '(r, s') := rollback c actor expected now s in
  match r with
  | Raise _ => s'.(component_rows) = s.(component_rows) ∧ s'.(promotion_rows) = s.(promotion_rows)
  | Ok p => ∃ row previous, last_move s c = Some row ∧ row.(pr_record).(from_version) = Some previous ∧
      (expected = None ∨ expected = Some row.(pr_record).(to_version)) ∧
      p.(promoted) = c ∧ p.(from_version) = Some row.(pr_record).(to_version) ∧ p.(to_version) = previous ∧
      p.(Component.attestation_id) = (inverse_plan row previous).(pp_attestation) ∧
      ¬ spent s p.(Component.attestation_id) ∧ s'.(component_rows) = s.(component_rows) ∧
      s'.(promotion_rows) = s.(promotion_rows) ++ [new_promotion s p] ∧
      ∀ k, pointer s'.(promotion_rows) k
           = if decide (k = c) then Some previous else pointer s.(promotion_rows) k
  end ∧
  (* it succeeds whenever there is a move to undo whose inverse is neither spent nor taken *)
  (∀ row previous, last_move s c = Some row → row.(pr_record).(from_version) = Some previous →
     expected = None ∨ expected = Some row.(pr_record).(to_version) →
     ¬ spent s (inverse_plan row previous).(pp_attestation) →
     mintable s.(reg_journal) (inverse_plan row previous).(pp_draft) → is_ok r = true).
Proof.
  intros Hl s. pose proof (history_ok cs Hl) as Hok. fold s in Hok.
  pose proof (rollback_eq s c actor expected now Hok) as H.
  destruct (plan_rollback c expected s) as [[plan|e] s0] eqn:Eplan.
  - destruct H as (row & previous & Hpl & Hlast & Hfrom & Hexp & Hm & H). rewrite Hpl in *.
    destruct (last_move_elem s c row Hlast) as [Hin Hc].
    destruct (mint_policy_attestation _ now _) as [[a|e] j] eqn:Emint; cbv zeta in H; rewrite H.
    + split; [|done]. exists row, previous. split_and!; try done.
      * intros (r & Hr & Hrid). pose proof (spent_move s r Hok Hr) as Hs. rewrite Hrid in Hs.
        pose proof (eq_trans (eq_sym Hs) Hm) as [=].
      * intros k. cbn [add_promotion promotion_rows]. rewrite pointer_snoc.
        assert (promoted (pr_record (new_promotion s (inverse_move row previous actor now))) = c) as -> by exact Hc.
        by repeat case_decide; subst.
    + split; [done|]. intros row' previous' Hl' Hf' _ _ Hmint. rewrite Hlast in Hl'. injection Hl' as <-.
      rewrite Hfrom in Hf'. injection Hf' as <-.
      assert (policy_draft (inverse_plan row previous).(pp_draft)) as Hpd by (split; [done|by eexists]).
      pose proof (mint_policy_ok _ _ now (ro_facts _ Hok) Hpd Hmint) as Hmok. by rewrite Emint in Hmok.
  - rewrite H. split; [done|]. intros row previous Hlast Hfrom Hexp Hns _. exfalso.
    rewrite (plan_rollback_eq s Hok) in Eplan. injection Eplan as Eplan _. revert Eplan.
    assert ((match expected with Some e => if decide (pointer (promotion_rows s) c ≠ Some e)
      then Raise (AdmissionRefused [UnexpectedStable c e (pointer (promotion_rows s) c)]) else Ok tt
      | None => Ok tt end) = (Ok tt : result rexn ())) as ->.
    { destruct Hexp as [-> | ->]; [done|]. rewrite pointer_last, Hlast.
      rewrite decide_False by (intros Hn; by apply Hn). done. }
    cbn [mbind result_bind]. rewrite Hlast, Hfrom.
    destruct (move_of s _) as [prior|] eqn:Em; [|done]. pose proof (unspent_move s _ Hns) as Hm.
    pose proof (eq_trans (eq_sym Em) Hm) as [=].
Qed.
Lemma rollback_undoes_last_move_witness :
  let s := run_rcalls (Registered.setup ++ Registered.upgrade) new_registry in
  let '(r, s') := rollback "start" "operator" None "t5" s in
  is_ok r = true ∧ ∃ previous, pointer s'.(promotion_rows) "start" = Some previous.
Proof.
  intros s. pose proof (rollback_undoes_last_move (Registered.setup ++ Registered.upgrade) "start" "operator" None "t5"
    Registered.lawful) as H.
  fold s in H. cbv zeta in H.
  assert (is_ok (rollback "start" "operator" None "t5" s).1 = true) as Hok by (vm_compute; reflexivity).
  destruct (rollback "start" "operator" None "t5" s) as [[p|e] s']; [|discriminate Hok].
  destruct H as [(row & previous & _ & _ & _ & _ & _ & _ & _ & _ & _ & _ & Hp) _].
  split; [reflexivity|]. exists previous. exact (Hp "start").
Defined.
