(* ===== verification/MemoryLaws.v ===== *)
(** The in-memory registry store and the durable one ([Registry.InMemory],
    [RegistryStore]): whatever the durable store accepts, the in-memory store
    accepts with the same answer, and every revision reads the same in both. *)

From S2P Require Import Prelude Identity Address Component Manifest Run Effect Journal EffectStore.
From S2P Require Import RegistryStore Registry JournalSpec EffectSpec RegistrySpec RegistryLaws RollbackSpec Fixture.

Lemma filter_fmap {A B} (f : A → B) (P : B → Prop) `{∀ y, Decision (P y)} (l : list A) :
  filter P (f <$> l) = f <$> filter (λ x, P (f x)) l.
Proof. induction l as [|x l IH]; [done|]. rewrite fmap_cons, !filter_cons. case_decide; by rewrite IH. Qed.

(** ** A cut depends on the registrations of each name *)
Definition version_name (v : StoredVersion) : string := v.(definition).(def_name).
Definition agree (c : string) (a b : cut_components) : Prop := a.1 !! c = b.1 !! c ∧ a.2 !! c = b.2 !! c.
Lemma agree_cut c a b vs :
  agree c a b → agree c (foldl cut_component a vs) (foldl cut_component b (filter (λ v, version_name v = c) vs)).
Proof.
  revert a b. induction vs as [|v vs IH]; intros a b [H1 H2]; [by split|].
  rewrite filter_cons. simpl. case_decide as Hv.
  - apply IH. unfold version_name in Hv. unfold cut_component, agree. cbn [fst snd]. rewrite Hv, H1, H2.
    by rewrite !lookup_insert_eq.
  - apply IH. unfold version_name in Hv. unfold cut_component, agree. cbn [fst snd].
    by rewrite !lookup_insert_ne by done.
Qed.
Lemma cut_by_name vs ws :
  (∀ c, filter (λ v, version_name v = c) vs = filter (λ v, version_name v = c) ws) →
  foldl cut_component (∅, ∅) vs = foldl cut_component (∅, ∅) ws.
Proof.
  intros H. assert (∀ c, agree c (foldl cut_component (∅, ∅) vs) (foldl cut_component (∅, ∅) ws)) as Ha.
  { intros c. destruct (agree_cut c (∅, ∅) (∅, ∅) vs) as [H1 H2]; [by split|].
    destruct (agree_cut c (∅, ∅) (∅, ∅) ws) as [H3 H4]; [by split|]. rewrite H in H1, H2.
    split; [by rewrite H1, H3|by rewrite H2, H4]. }
  destruct (foldl _ _ vs) as [v1 o1], (foldl _ _ ws) as [v2 o2].
  f_equal; apply map_eq; intros c; apply (Ha c).
Qed.

(** ** The simulation *)
Definition order_of (rows : list component_row) : list (string * list string) :=
  foldl (λ d row, Dict.append row.(cr_name) row.(cr_hash) d) [] rows.
Record same_registry (m : InMemory.memory) (s : registry) : Prop := {
  sm_versions : m.(InMemory._versions) = full_versions s;
  sm_order : m.(InMemory._order) = order_of s.(component_rows);
  sm_seq row : row ∈ s.(component_rows) → m.(InMemory._version_seq) !! row_key row = Some row.(cr_seq);
  sm_moves : m.(InMemory._promotions) = (λ row, (row.(pr_seq), row.(pr_record))) <$> s.(promotion_rows);
  sm_registrations : m.(InMemory._registration_seq) = N.of_nat (length s.(component_rows));
  sm_promotions : m.(InMemory._promotion_seq) = N.of_nat (length s.(promotion_rows));
}.
Definition rows_named (c : string) (rows : list component_row) : list component_row :=
  filter (λ row, row.(cr_name) = c) rows.
Lemma get_append {K V} `{EqDecision K} (k k' : K) (x : V) d :
  Dict.get k (Dict.append k' x d) = if decide (k = k') then Some (default [] (Dict.get k' d) ++ [x]) else Dict.get k d.
Proof. unfold Dict.append. by rewrite Dict.get_set. Qed.
Lemma order_of_get rows c :
  Dict.get c (order_of rows) = match rows_named c rows with [] => None | l => Some (cr_hash <$> l) end.
Proof.
  unfold order_of, rows_named. induction rows as [|row rows IH] using rev_ind; [done|].
  rewrite foldl_snoc, get_append, filter_app, filter_cons, filter_nil.
  destruct (decide (c = cr_name row)) as [Hc|Hc].
  - rewrite decide_True by done. rewrite <-Hc, IH. destruct (filter _ rows); [done|]. simpl. by rewrite fmap_app.
  - rewrite decide_False by (by intros Hr; apply Hc). by rewrite app_nil_r, IH.
Qed.
Lemma order_of_unique rows : NoDup (Dict.keys (order_of rows)).
Proof.
  unfold order_of. induction rows as [|row rows IH] using rev_ind; [constructor|].
  rewrite foldl_snoc. by apply Dict.NoDup_keys_set.
Qed.

Section cuts.
Context (s : registry) (Hok : reg_ok s) (m : InMemory.memory) (Hm : same_registry m s).
Lemma held row : row ∈ s.(component_rows) →
  m.(InMemory._versions) !! row.(cr_name) ≫= lookup row.(cr_hash) = Some (stored_of row).
Proof.
  intros Hin. rewrite (sm_versions _ _ Hm). unfold full_versions, registered.
  rewrite (cut_versions _ row.(cr_name) row.(cr_hash) (ro_valid _ Hok) (ro_keys _ Hok)).
  destruct (filter_one row_key (row.(cr_name), row.(cr_hash)) _ (ro_keys _ Hok)) as [E|(r & E)].
  - exfalso. apply (not_elem_of_nil row). rewrite <-E. by apply list_elem_of_filter.
  - rewrite E. simpl. assert (row ∈ [r]) as ->%list_elem_of_singleton; [|done].
    rewrite <-E. by apply list_elem_of_filter.
Qed.
Lemma cut_hashes_rows limit c rows acc :
  (∀ row, row ∈ rows → row ∈ s.(component_rows) ∧ row.(cr_name) = c) →
  InMemory.cut_hashes m limit c (cr_hash <$> rows) acc
  = Ok (foldl cut_component acc (stored_of <$> filter (λ row, (row.(cr_seq) ≤ limit)%N) rows)).
Proof.
  revert acc. induction rows as [|row rows IH]; intros acc H; [done|].
  destruct (H row ltac:(left)) as [Hin <-]. rewrite fmap_cons. cbn [InMemory.cut_hashes].
  pose proof (sm_seq _ _ Hm row Hin) as Hseq. unfold row_key in Hseq. rewrite Hseq, (held row Hin).
  rewrite filter_cons. case_decide as Hlt; case_decide as Hle; [exfalso; lia| | |exfalso; lia].
  - apply IH. intros r Hr. apply H. by right.
  - rewrite fmap_cons. cbn [foldl]. rewrite IH; [|intros r Hr; apply H; by right]. f_equal.
    destruct (row_of s Hok row Hin) as [[Hn _] _]. unfold cut_component. cbn [stored_of definition stored_hash].
    by rewrite Hn.
Qed.
(** The registrations in the order of the in-memory store: by name. *)
Definition grouped (order : list (string * list string)) : list component_row :=
  order ≫= λ nh, rows_named nh.1 s.(component_rows).
Lemma cut_names_rows limit order acc :
  (∀ nh, nh ∈ order → nh.2 = cr_hash <$> rows_named nh.1 s.(component_rows)) →
  InMemory.cut_names m limit order acc
  = Ok (foldl cut_component acc (stored_of <$> filter (λ row, (row.(cr_seq) ≤ limit)%N) (grouped order))).
Proof.
  revert acc. induction order as [|[c hashes] order IH]; intros acc H; [done|].
  pose proof (H (c, hashes) ltac:(left)) as Hc. cbn [fst snd] in Hc. cbn [InMemory.cut_names].
  rewrite Hc, cut_hashes_rows.
  2: { intros row Hrow. unfold rows_named in Hrow. apply list_elem_of_filter in Hrow. tauto. }
  cbn [mbind result_bind]. rewrite IH by (intros nh Hnh; apply H; by right). f_equal.
  unfold grouped. simpl. by rewrite filter_app, fmap_app, foldl_app.
Qed.
Lemma grouped_named c order : NoDup (Dict.keys order) →
  rows_named c (grouped order) = if decide (c ∈ Dict.keys order) then rows_named c s.(component_rows) else [].
Proof.
  induction order as [|[c' hashes] order IH]; [done|]. unfold Dict.keys. rewrite fmap_cons. cbn [fst].
  intros [Hc Hnd]%NoDup_cons. 
  assert (rows_named c (grouped ((c', hashes) :: order))
    = rows_named c (rows_named c' s.(component_rows)) ++ rows_named c (grouped order)) as ->.
  { unfold grouped. simpl. unfold rows_named. by rewrite filter_app. }
  rewrite IH by exact Hnd.
  destruct (decide (c = c')) as [->|Hcc].
  - rewrite decide_False by exact Hc. rewrite decide_True by left. rewrite app_nil_r.
    unfold rows_named. rewrite list_filter_filter. apply list_filter_iff. tauto.
  - assert (rows_named c (rows_named c' s.(component_rows)) = []) as ->.
    { apply filter_none, Forall_forall. intros row Hrow. unfold rows_named in Hrow.
      apply list_elem_of_filter in Hrow as [<- _]. congruence. }
    unfold Dict.keys. repeat case_decide; set_solver.
Qed.
Lemma memory_cut limit :
  InMemory.cut_names m limit m.(InMemory._order) (∅, ∅)
  = Ok (foldl cut_component (∅, ∅)
      (stored_of <$> filter (λ row, (row.(cr_seq) ≤ limit)%N) s.(component_rows))).
Proof.
  rewrite (sm_order _ _ Hm), cut_names_rows.
  2: { intros [c hashes] Hin. cbn [fst snd]. pose proof (order_of_get s.(component_rows) c) as Hg.
       rewrite (Dict.get_NoDup _ _ _ (order_of_unique _) Hin) in Hg.
       destruct (rows_named c _); [done|]. by injection Hg. }
  f_equal. apply cut_by_name. intros c.
  assert (∀ rows, (∀ row, row ∈ rows → row ∈ s.(component_rows)) →
    filter (λ v, version_name v = c) (stored_of <$> filter (λ row, (row.(cr_seq) ≤ limit)%N) rows)
    = stored_of <$> filter (λ row, (row.(cr_seq) ≤ limit)%N) (rows_named c rows)) as H.
  { intros rows Hrows. rewrite filter_fmap. f_equal. unfold rows_named. rewrite !list_filter_filter.
    apply filter_iff_elem. intros row Hin. destruct (row_of s Hok row (Hrows row Hin)) as [[Hn _] _].
    unfold version_name. simpl. rewrite Hn. tauto. }
  rewrite !H; [|done|].
  2: { intros row (nh & Hrow & _)%list_elem_of_bind. unfold rows_named in Hrow. apply list_elem_of_filter in Hrow as [_ Hrow]; exact Hrow. }
  do 2 f_equal. rewrite grouped_named by apply order_of_unique. case_decide as Hc; [done|].
  apply Dict.get_None in Hc. rewrite order_of_get in Hc. by destruct (rows_named c _).
Qed.
Definition in_memory_error (why : registry_damage) : rexn := InvalidRegistryRevision (Some why).
Lemma memory_moves limit vs rows acc :
  InMemory.cut_promotions limit vs ((λ row, (row.(pr_seq), row.(pr_record))) <$> rows) acc
  = follow in_memory_error vs (pr_record <$> filter (λ row, (row.(pr_seq) ≤ limit)%N) rows) acc.
Proof.
  revert acc. induction rows as [|row rows IH]; intros acc; [done|].
  rewrite fmap_cons. cbn [InMemory.cut_promotions]. rewrite filter_cons.
  destruct (decide (limit < pr_seq row)%N) as [Hlt|Hlt]; destruct (decide (pr_seq row ≤ limit)%N) as [Hle|Hle];
    [exfalso; lia|apply IH| |exfalso; lia].
  rewrite fmap_cons. cbn [follow]. destruct (_ || _); [done|]. case_decide; [done|]. apply IH.
Qed.
Lemma memory_snapshot revision :
  InMemory.snapshot_of m revision =
    let r := default (current_revision s) revision in
    if decide (within r s) then
      cut (take (N.to_nat r.(registration_seq)) (registered s)) (take (N.to_nat r.(promotion_seq)) (moves s)) r
        in_memory_error
    else Raise (InvalidRegistryRevision None).
Proof.
  unfold InMemory.snapshot_of. rewrite (sm_registrations _ _ Hm), (sm_promotions _ _ Hm). cbv zeta.
  fold (current_revision s). set (r := default _ _). cbn [current_revision registration_seq promotion_seq].
  unfold within. case_decide as Hf; case_decide as Hw; [lia|done| |exfalso; lia].
  rewrite memory_cut, (filter_sequence cr_seq _ _ 0), Nat.sub_0_r by apply (ro_cseq _ Hok).
  cbn [mbind result_bind]. unfold cut, registered, moves. rewrite <-!fmap_take.
  destruct (foldl cut_component (∅, ∅) _) as [vs order].
  rewrite (sm_moves _ _ Hm), memory_moves, (filter_sequence pr_seq _ _ 0), Nat.sub_0_r by apply (ro_pseq _ Hok).
  done.
Qed.
Lemma snapshots_agree revision : InMemory.snapshot_of m revision = snapshot_of s revision.
Proof.
  rewrite memory_snapshot. destruct revision as [r|].
  - by rewrite (snapshot_cut s (Some r) Hok).
  - rewrite (snapshot_current s Hok), <-(snapshot_own s Hok), (snapshot_cut s _ Hok). done.
Qed.
End cuts.

(** ** Writes *)
Lemma same_new : same_registry InMemory.new_memory new_registry.
Proof. split; try done. by intros row ?%elem_of_nil. Qed.
Lemma same_journal m s j : same_registry m s → same_registry m (mkRegistry j s.(component_rows) s.(promotion_rows)).
Proof. by intros []. Qed.
Lemma stored_new_component s v : stored_of (new_component s v) = v.
Proof. by destruct v. Qed.
Section writes.
Context (s : registry) (Hok : reg_ok s) (m : InMemory.memory) (Hm : same_registry m s).
Lemma memory_get c h : m.(InMemory._versions) !! c ≫= lookup h = stored_of <$> component_of s c h.
Proof. rewrite (sm_versions _ _ Hm). apply (snapshot_get_current s Hok). Qed.
Lemma memory_prior id : InMemory.prior_promotion m id = pr_record <$> move_of s id.
Proof.
  unfold InMemory.prior_promotion, move_of. rewrite (sm_moves _ _ Hm), <-list_fmap_compose.
  assert ((snd ∘ (λ row, (pr_seq row, pr_record row))) <$> promotion_rows s = pr_record <$> promotion_rows s) as -> by done.
  rewrite filter_fmap. by destruct (filter _ (promotion_rows s)).
Qed.
Lemma memory_stable c : InMemory.current_stable m c = pointer s.(promotion_rows) c.
Proof.
  unfold InMemory.current_stable. rewrite (sm_moves _ _ Hm). clear.
  induction (promotion_rows s) as [|row rows IH] using rev_ind; [done|].
  rewrite fmap_app, foldl_app, pointer_snoc, IH. simpl. by case_decide.
Qed.
Lemma memory_retained c h : retained m.(InMemory._versions) c h = true ↔ has_version s c h.
Proof. rewrite (sm_versions _ _ Hm). by apply retained_iff. Qed.

Lemma memory_version v s' : store_version v s = (Ok tt, s') →
  ∃ m', InMemory.store_version v m = (Ok tt, m') ∧ same_registry m' s'.
Proof.
  rewrite (store_version_eq s Hok). cbv zeta. unfold InMemory.store_version. unfold ebind at 1, get at 1. cbv zeta.
  rewrite memory_get. destruct (component_of s _ _) as [row|] eqn:Ec.
  - cbn [fmap option_fmap option_map stored_of definition]. destruct (same_definition _ _); [|done].
    intros [= <-]. by exists m.
  - cbn [fmap option_fmap option_map]. case_decide; [|done]. intros [= <-]. eexists. split; [reflexivity|].
    pose proof (stored_new_component s v) as Hnew. split.
    + simpl. unfold full_versions, registered. simpl. rewrite fmap_app, foldl_app. cbn [fmap list_fmap foldl].
      rewrite Hnew. unfold cut_component. cbn [fst]. by rewrite (sm_versions _ _ Hm).
    + simpl. unfold order_of. by rewrite foldl_app, (sm_order _ _ Hm).
    + intros row [Hr|Hr]%elem_of_app; simpl.
      * rewrite lookup_insert_ne; [by apply (sm_seq _ _ Hm)|]. intros Hk.
        assert (has_version s v.(definition).(def_name) v.(stored_hash)) as Hv by (by exists row).
        apply (has_version_iff s) in Hv. rewrite Ec in Hv. by destruct Hv.
      * apply list_elem_of_singleton in Hr as ->. unfold row_key. simpl. rewrite lookup_insert_eq.
        by rewrite (sm_registrations _ _ Hm).
    + apply (sm_moves _ _ Hm).
    + simpl. rewrite length_app, (sm_registrations _ _ Hm). simpl. lia.
    + apply (sm_promotions _ _ Hm).
Qed.
Lemma memory_promotion p q s' : store_promotion p s = (Ok q, s') →
  ∃ m', InMemory.store_promotion p m = (Ok q, m') ∧ same_registry m' s'.
Proof.
  rewrite (store_promotion_eq s Hok). cbv zeta. unfold InMemory.store_promotion. unfold ebind at 1, get at 1. cbv zeta.
  rewrite memory_prior. destruct (move_of s _) as [row|] eqn:Em.
  - cbn [fmap option_fmap option_map]. destruct (same_identity_as _ _); [|done]. intros [= <- <-]. by exists m.
  - cbn [fmap option_fmap option_map]. destruct (_validate_promotion_authority s p); [|done].
    case_decide as He; [|done]. case_decide as Hp; [|done]. intros [= <- <-]. rewrite memory_stable.
    rewrite decide_False by (intros Hn; by apply Hn). apply endpoints_iff in He as [Ht _].
    rewrite (proj2 (memory_retained _ _) Ht). cbn [negb]. eexists. split; [reflexivity|]. split; simpl; try apply Hm.
    + by rewrite (sm_moves _ _ Hm), fmap_app, (sm_promotions _ _ Hm).
    + rewrite length_app, (sm_promotions _ _ Hm). simpl. lia.
Qed.
End writes.

(** ** Both stores under the same calls *)
Definition mem_call (c : rcall) : InMemory.Mem unit :=
  match c with
  | RJournal _ => eret tt
  | RVersion v => InMemory.store_version v
  | RPromotion p => let* _ := InMemory.store_promotion p in eret tt
  end.
(** The in-memory store follows the calls the durable one accepts. *)
Definition mirror (sm : registry * InMemory.memory) (c : rcall) : registry * InMemory.memory :=
  let '(s, m) := sm in
  match run_rcall c s with
  | (Ok _, s') => (s', (mem_call c m).2)
  | (Raise _, s') => (s', m)
  end.
Definition mirrored (cs : list rcall) : registry * InMemory.memory :=
  foldl mirror (new_registry, InMemory.new_memory) cs.
Lemma unit_r_inv {A} (x : R A) s s' : unit_r x s = (Ok tt, s') → ∃ a, x s = (Ok a, s').
Proof. unfold unit_r, ebind. destruct (x s) as [[a|e] s1]; [intros [= <-]; by exists a|done]. Qed.
Lemma mem_promotion_call p q m m' :
  InMemory.store_promotion p m = (Ok q, m') → mem_call (RPromotion p) m = (Ok tt, m').
Proof. simpl. unfold ebind. by intros ->. Qed.
Lemma mirror_same c s m : rlawful c = true → reg_ok s → same_registry m s →
  reg_ok (mirror (s, m) c).1 ∧ same_registry (mirror (s, m) c).2 (mirror (s, m) c).1.
Proof.
  intros Hl Hok Hm. unfold mirror. destruct (run_rcall c s) as [r s'] eqn:E.
  assert (reg_ok s') as Hok' by (eapply reg_ok_steps; [by eapply rcall_steps|done]).
  destruct c as [c|v|p]; cbn [run_rcall] in E.
  - assert (same_registry m s') as Hs.
    { unfold on_journal in E. destruct (run_jcall c _) as [r0 j]. injection E as _ <-. by apply same_journal. }
    destruct r; by split.
  - destruct r as [[]|e].
    + destruct (memory_version s Hok m Hm v s' E) as (m' & Em & Hs). simpl. by rewrite Em.
    + destruct (store_version_step s v _ s' Hok E) as [->|[? _]]; [by split|done].
  - destruct r as [[]|e].
    + apply unit_r_inv in E as [q E]. destruct (memory_promotion s Hok m Hm p q s' E) as (m' & Em & Hs).
      rewrite (mem_promotion_call _ _ _ _ Em). by split.
    + unfold unit_r, ebind in E. destruct (store_promotion p s) as [[q|e'] s1] eqn:E1; [done|].
      injection E as _ <-. destruct (store_promotion_step s p _ s1 Hok E1) as [->|[? _]]; [by split|done].
Qed.
Lemma mirrored_same cs : forallb rlawful cs = true →
  reg_ok (mirrored cs).1 ∧ same_registry (mirrored cs).2 (mirrored cs).1.
Proof.
  induction cs as [|c cs IH] using rev_ind; [intros _; split; [apply reg_ok_new|apply same_new]|].
  rewrite forallb_app. intros [Hcs Hc]%andb_true_iff. unfold mirrored. rewrite foldl_snoc.
  fold (mirrored cs). destruct (mirrored cs) as [s m]. destruct (IH Hcs). simpl in Hc. rewrite andb_true_r in Hc.
  by apply mirror_same.
Qed.
Lemma mirrored_registry cs : (mirrored cs).1 = run_rcalls cs new_registry.
Proof.
  induction cs as [|c cs IH] using rev_ind; [done|]. rewrite run_rcalls_app, <-IH. unfold mirrored.
  rewrite foldl_snoc. fold (mirrored cs). destruct (mirrored cs) as [s m]. simpl.
  by destruct (run_rcall c s) as [[]].
Qed.

(** C29: The in-memory registry simulates the durable one: after any calls, mirrored when the
    durable store accepted them, every revision and every attestation reads alike in both, and
    whatever write the durable store accepts the in-memory one accepts with the same answer. *)
Theorem memory_store_refines cs :
  forallb rlawful cs = true →
  let '(s, m) := mirrored cs in
  s = run_rcalls cs new_registry ∧
  (* every read answers alike *)
  (∀ revision, (InMemory.snapshot revision m).1 = (snapshot revision s).1) ∧
  (∀ id, (InMemory.promotion_for_attestation id m).1 = (promotion_for_attestation id s).1) ∧
  (* and every write the durable store accepts is accepted, with the same answer *)
  (∀ v s', store_version v s = (Ok tt, s') → (InMemory.store_version v m).1 = Ok tt) ∧
  (∀ p q s', store_promotion p s = (Ok q, s') → (InMemory.store_promotion p m).1 = Ok q).
Proof.
  intros Hl. pose proof (mirrored_same cs Hl) as [Hok Hm]. pose proof (mirrored_registry cs) as Hr.
  destruct (mirrored cs) as [s m]. cbn [fst snd] in *. split_and!; [exact Hr|..].
  - intros revision. by apply snapshots_agree.
  - intros id. rewrite (promotion_for_ok s Hok). unfold InMemory.promotion_for_attestation, ebind, get, eret.
    cbn [fst]. f_equal. by apply memory_prior.
  - intros v s' E. destruct (memory_version s Hok m Hm v s' E) as (m' & -> & _). done.
  - intros p q s' E. destruct (memory_promotion s Hok m Hm p q s' E) as (m' & -> & _). done.
Qed.
Lemma memory_store_refines_witness :
  let '(s, m) := mirrored (Registered.setup ++ Registered.upgrade) in
  (InMemory.snapshot (Some (mkRevision 2 1)) m).1 = (snapshot (Some (mkRevision 2 1)) s).1 ∧
  length m.(InMemory._promotions) = 2.
Proof.
  pose proof (memory_store_refines _ Registered.lawful) as H.
  assert (length (mirrored (Registered.setup ++ Registered.upgrade)).2.(InMemory._promotions) = 2) as Hl
    by (vm_compute; reflexivity).
  destruct (mirrored _) as [s m]. split; [exact (proj1 (proj2 H) _)|exact Hl].
Defined.
