(* ===== verification/UnitsSpec.v ===== *)
(** The order of units: it is found within the fuel, lists every unit once
    after everything it reads, and is refused exactly for a cycle. And the keys
    of the value dictionaries: when they identify addresses, and that they do
    not in general. *)

From S2P Require Import Prelude Identity Address Graph Component Capability Manifest Message Run Journal Units.

(** ** Depth-first placement *)
Section placement.
Context {A : Type} `{EqDecision A} (deps : A → list A).
Definition dep (x y : A) : Prop := y ∈ deps x.
(** Every element comes after what it depends on. *)
Definition ordered_in (l : list A) : Prop :=
  ∀ i x, l !! i = Some x → ∀ y, dep x y → y ∈ take i l.

Lemma ordered_snoc l x : ordered_in l → (∀ y, dep x y → y ∈ l) → ordered_in (l ++ [x]).
Proof.
  intros Hl Hx i z Hz y Hy. apply lookup_app_Some in Hz as [Hz|[Hle Hz]].
  - rewrite take_app_le; [by eapply Hl|]. apply lookup_lt_Some in Hz. lia.
  - apply list_lookup_singleton_Some in Hz as [Hi ->].
    assert (i = length l) as -> by lia. rewrite take_app_length. by apply Hx.
Qed.
Lemma ordered_acyclic l x : ordered_in l → NoDup l → x ∈ l → ¬ tc dep x x.
Proof.
  intros Hl Hnd Hx.
  assert (∀ x y, tc dep x y → ∀ i, l !! i = Some x → ∃ j, j < i ∧ l !! j = Some y) as Hlt.
  { induction 1 as [x' y Hxy|x' y z Hxy _ IH]; intros i Hi;
      destruct (proj1 (list_elem_of_lookup _ _) (Hl _ _ Hi _ Hxy)) as [j Hj];
      apply lookup_take_Some in Hj as [Hj Hji]; [by exists j|].
    destruct (IH _ Hj) as (k & ? & ?). exists k. split; [lia|done]. }
  intros Hc. apply list_elem_of_lookup in Hx as [i Hi].
  destruct (Hlt _ _ Hc _ Hi) as (j & Hji & Hj).
  assert (j = i) by (eapply NoDup_lookup; eauto). lia.
Qed.

Context (U : list A) (HU : ∀ x y, x ∈ U → dep x y → y ∈ U).

(** What a placement leaves behind. *)
Record placed_ok (trail placed placed' : list A) : Prop := {
  po_prefix : placed `prefix_of` placed';
  po_ordered : ordered_in placed';
  po_nodup : NoDup placed';
  po_universe : ∀ x, x ∈ placed' → x ∈ placed ∨ x ∈ U;
  po_trail : ∀ x, x ∈ placed' → x ∈ placed ∨ x ∉ trail;
}.
Definition placement (trail placed : list A) (targets : list A) (r : result exn (list A)) : Prop :=
  match r with
  | Ok placed' => placed_ok trail placed placed' ∧ targets ⊆ placed'
  | Raise e => e = ContractViolation RootDependencyCycle ∧ ∃ x, x ∈ U ∧ tc dep x x
  end.

Lemma placed_ok_refl trail placed : ordered_in placed → NoDup placed → placed_ok trail placed placed.
Proof. intros H1 H2. split; auto. Qed.
Lemma placed_ok_trans trail p1 p2 p3 :
  placed_ok trail p1 p2 → placed_ok trail p2 p3 → placed_ok trail p1 p3.
Proof.
  intros [P1 O1 N1 U1 T1] [P2 O2 N2 U2 T2]. split; try done; [by etrans| |].
  - intros x Hx. apply U2 in Hx as [Hx|Hx]; [by apply U1|by right].
  - intros x Hx. apply T2 in Hx as [Hx|Hx]; [by apply T1|by right].
Qed.
Lemma place_each_spec (f : A → list A → result exn (list A)) trail ds placed :
  (∀ d p, d ∈ ds → ordered_in p → NoDup p → placement trail p [d] (f d p)) →
  ordered_in placed → NoDup placed → placement trail placed ds (place_each f ds placed).
Proof.
  revert placed. induction ds as [|d ds IH]; intros placed Hf Ho Hn; simpl.
  { split; [by apply placed_ok_refl|]. by intros x ?%elem_of_nil. }
  pose proof (Hf d placed ltac:(left) Ho Hn) as Hd. destruct (f d placed) as [p|e]; [|exact Hd].
  simpl. destruct Hd as [Hp Hin]. pose proof Hp as [P O N _ _].
  assert (placement trail p ds (place_each f ds p)) as Hr
    by (apply IH; [intros d' p' Hd'; apply Hf; by right|done|done]).
  destruct (place_each f ds p) as [p'|e]; [|exact Hr]. destruct Hr as [Hp' Hin'].
  split; [by eapply placed_ok_trans|]. intros x [->|Hx]%elem_of_cons; [|by apply Hin'].
  destruct Hp' as [[k ->] _ _ _ _]. apply elem_of_app. left. apply Hin. left.
Qed.
Lemma unit_place_spec fuel trail scope placed :
  scope ∈ U → trail ⊆ U → NoDup trail → (∀ x, x ∈ trail → tc dep x scope) →
  length U < fuel + length trail → ordered_in placed → NoDup placed →
  placement trail placed [scope] (place deps fuel trail scope placed).
Proof.
  revert trail scope placed. induction fuel as [|fuel IH]; intros trail scope placed Hs Ht Hnt Hc Hf Ho Hn.
  { exfalso. assert (length trail ≤ length U) by (apply submseteq_length, NoDup_submseteq; done). lia. }
  simpl. case_decide as Hp.
  { split; [by apply placed_ok_refl|]. intros x ->%list_elem_of_singleton. done. }
  case_decide as Htr; [split; [done|]; exists scope; by auto|].
  assert (placement (trail ++ [scope]) placed (deps scope)
    (place_each (place deps fuel (trail ++ [scope])) (deps scope) placed)) as Hr.
  { apply place_each_spec; [|done|done]. intros d p Hd Hop Hnp. apply IH; try done.
    - by apply (HU scope).
    - intros x [Hx| ->%list_elem_of_singleton]%elem_of_app; [by apply Ht|done].
    - apply NoDup_app. split; [done|]. split; [|apply NoDup_singleton].
      intros x Hx ->%list_elem_of_singleton. done.
    - intros x [Hx| ->%list_elem_of_singleton]%elem_of_app.
      + eapply tc_rtc_r; [by apply Hc|]. by apply rtc_once.
      + by apply tc_once.
    - rewrite length_app. simpl. lia. }
  destruct (place_each _ _ _) as [p|e]; [|exact Hr]. simpl. destruct Hr as [[P O N Hu Hx] Hin].
  split; [|intros x ->%list_elem_of_singleton; apply elem_of_app; right; by left]. split.
  - by apply prefix_app_r.
  - by apply ordered_snoc.
  - apply NoDup_app. split; [done|]. split; [|apply NoDup_singleton].
    intros x Hxp ->%list_elem_of_singleton. apply Hx in Hxp as [?|Hxp]; [done|].
    apply Hxp, elem_of_app. right. by left.
  - intros x [Hxp| ->%list_elem_of_singleton]%elem_of_app; [by apply Hu|by right].
  - intros x [Hxp| ->%list_elem_of_singleton]%elem_of_app; [|by right].
    apply Hx in Hxp as [?|Hxp]; [by left|right]. intros ?. apply Hxp, elem_of_app. by left.
Qed.
Lemma place_all_spec roots :
  roots ⊆ U → placement [] [] roots (place_each (place deps (S (length U)) []) roots []).
Proof.
  intros Hr. apply place_each_spec.
  - intros d p Hd Ho Hn. apply unit_place_spec; try done; [by apply Hr|by intros x ?%elem_of_nil|constructor
      |by intros x ?%elem_of_nil|simpl; lia].
  - by intros i x Hx.
  - constructor.
Qed.
End placement.

Lemma tc_mono {A} (R R' : A → A → Prop) x y : (∀ x y, R x y → R' x y) → tc R x y → tc R' x y.
Proof. intros H. induction 1; [apply tc_once|eapply tc_l]; eauto. Qed.

(** ** The order of units *)
Section order.
Context {NodeImpl : Type}.
Implicit Types units : list (_Unit NodeImpl).

Lemma get_set_inv {V} (k k' : string) (v v' : V) d :
  Dict.get k (Dict.set k' v' d) = Some v → v = v' ∨ Dict.get k d = Some v.
Proof. rewrite Dict.get_set. case_decide; [intros [= ->]; by left|by right]. Qed.
Lemma unit_producer_elem units key u :
  Dict.get key (_unit_producer_index units) = Some u → u ∈ units.
Proof.
  unfold _unit_producer_index.
  assert (∀ us index, (∀ k v, Dict.get k index = Some v → v ∈ units) → us ⊆ units →
    ∀ k v, Dict.get k (foldl (λ index u, foldl (λ index a, Dict.set (_address_key a) u index)
      index (unit_outputs u)) index us) = Some v → v ∈ units) as H;
    [|by apply (H units []); [|done]].
  induction us as [|u' us IH]; intros index Hi Hsub; [exact Hi|]. simpl. apply IH.
  - assert (u' ∈ units) as Hu by (apply Hsub; left). revert index Hi.
    induction (unit_outputs u') as [|a l IHl]; intros index Hi; [exact Hi|]. simpl. apply IHl.
    intros k v [->|Hg]%get_set_inv; [done|by eapply Hi].
  - intros x Hx. apply Hsub. by right.
Qed.
Lemma elem_of_dependencies bs producer_of units scope d :
  d ∈ dependencies bs producer_of units scope ↔
  ∃ u, u ∈ units ∧ unit_segs u = scope ∧ d ∈ unit_dependencies bs producer_of u.
Proof.
  unfold dependencies. rewrite py_sorted_perm, elem_of_remove_dups, list_elem_of_bind.
  setoid_rewrite list_elem_of_filter. unfold unit_segs. naive_solver.
Qed.
Lemma unit_dependency_scope bs units u d :
  d ∈ unit_dependencies bs (_unit_producer_index units) u → d ∈ unit_segs <$> units.
Proof.
  unfold unit_dependencies, producers_of. rewrite elem_of_remove_dups, list_elem_of_bind.
  intros (b & Hb & _). revert Hb. rewrite list_elem_of_bind. intros (s & Hs & _). revert Hs.
  destruct (Dict.get _ _) as [p|] eqn:E; simpl; [|by intros ?%elem_of_nil].
  intros ->%list_elem_of_singleton. apply unit_producer_elem in E.
  apply list_elem_of_fmap. by exists p.
Qed.
Lemma get_by_scope units u :
  NoDup (unit_segs <$> units) → u ∈ units → Dict.get (unit_segs u) (by_scope units) = Some u.
Proof.
  intros Hnd Hu.  unfold by_scope.
  assert (((λ u, (unit_segs u, u)) <$> units).*1 = unit_segs <$> units) as Hk
    by (rewrite <-list_fmap_compose; done).
  rewrite Dict.of_pairs_NoDup by (by rewrite Hk).
  apply Dict.get_NoDup; [unfold Dict.keys; by rewrite Hk|].
  apply list_elem_of_fmap. by exists u.
Qed.
Lemma omap_by_scope units order :
  NoDup (unit_segs <$> units) → order ⊆ units →
  omap (λ scope, Dict.get scope (by_scope units)) (unit_segs <$> order) = order.
Proof.
  intros Hnd. induction order as [|u order IH]; intros Hsub; [done|]. simpl.
  rewrite get_by_scope by (try done; apply Hsub; left). f_equal. apply IH.
  intros x Hx. apply Hsub. by right.
Qed.

(** Unit [x] reads what unit [y] produces. *)
Definition reads (bs : list (string * ResolvedPortBinding)) units (x y : list string) : Prop :=
  ∃ u, u ∈ units ∧ unit_segs u = x ∧ y ∈ unit_dependencies bs (_unit_producer_index units) u.
Definition order_law bs units (r : result exn (list (_Unit NodeImpl))) : Prop :=
  match r with
  | Ok order => order ≡ₚ units ∧ (∀ scope, ¬ tc (reads bs units) scope scope) ∧
      ∀ i u, order !! i = Some u →
      ∀ d, d ∈ unit_dependencies bs (_unit_producer_index units) u → d ∈ unit_segs <$> take i order
  | Raise e => e = ContractViolation RootDependencyCycle ∧ ∃ scope, tc (reads bs units) scope scope
  end.

Lemma scopes_of_units units (placed : list (list string)) :
  NoDup (unit_segs <$> units) → NoDup placed → (∀ x, x ∈ placed ↔ x ∈ unit_segs <$> units) →
  ∃ order, placed = unit_segs <$> order ∧ order ≡ₚ units.
Proof.
  intros Hnd Hp Hx.
  assert (placed ≡ₚ unit_segs <$> units) as Hperm by (apply NoDup_Permutation; done).
  apply Permutation.Permutation_map_inv in Hperm as (order & -> & Ho). by exists order.
Qed.
Lemma ordered_units_law bs units :
  NoDup (unit_segs <$> units) →
  order_law bs units (_ordered_units units bs (_unit_producer_index units)).
Proof.
  intros Hnd. unfold _ordered_units. cbv zeta. set (idx := _unit_producer_index units).
  set (deps := dependencies bs idx units). set (U := unit_segs <$> units).
  assert (∀ x y, dep deps x y ↔ reads bs units x y) as Hdep
    by (intros x y; apply elem_of_dependencies).
  assert (∀ x y, x ∈ U → dep deps x y → y ∈ U) as HU.
  { intros x y _ (u & _ & _ & Hy)%Hdep. by eapply unit_dependency_scope. }
  assert (∀ x, x ∈ unit_segs <$> sorted_by segs_leb unit_segs units ↔ x ∈ U) as Hroots.
  { intros x. unfold sorted_by, U. by rewrite py_sorted_perm. }
  pose proof (place_all_spec deps U HU (unit_segs <$> sorted_by segs_leb unit_segs units)) as Hp.
  assert (length U = length units) as HlU by (unfold U; by rewrite length_fmap). rewrite HlU in Hp.
  specialize (Hp (λ x Hx, proj1 (Hroots x) Hx)).
  destruct (place_each _ _ _) as [placed|e].
  - destruct Hp as [[_ Ho Hn Hu _] Hin].
    destruct (scopes_of_units units placed Hnd Hn) as (order & -> & Hperm).
    { intros x. split; [|by intros Hx; apply Hin, Hroots].
      intros Hx. apply Hu in Hx as [Hx|Hx]; [by apply elem_of_nil in Hx|done]. }
    rewrite omap_by_scope; [|done|intros x; by rewrite Hperm]. split; [done|]. split.
    + intros scope Hc. assert (tc (dep deps) scope scope) as Hc'
        by (eapply tc_mono; [|exact Hc]; intros x y; apply Hdep).
      assert (scope ∈ unit_segs <$> order) as Hs.
      { apply Hin, Hroots. inversion Hc as [x y (u & Hu' & <- & _)|x y z (u & Hu' & <- & _)]; subst;
          by apply list_elem_of_fmap_2. }
      by eapply ordered_acyclic.
    + intros i u Hi d Hd. rewrite fmap_take. eapply Ho.
      * by rewrite list_lookup_fmap, Hi.
      * apply Hdep. exists u. split; [|done]. rewrite <-Hperm. by eapply list_elem_of_lookup_2.
  - destruct Hp as [-> (x & _ & Hc)]. split; [done|]. exists x.
    eapply tc_mono; [|exact Hc]. intros y z. apply Hdep.
Qed.
End order.
