(* ===== verification/UnitsLaws.v ===== *)
(** The order of units, exactly; and what the keys of the value dictionaries
    identify. *)

From S2P Require Import Prelude Identity Address Graph Component Capability Manifest Message Fixture.
From S2P Require Import Run Journal JournalLaws Units UnitsSpec.
From Stdlib Require Import Ascii.

(** C22: The recursive unit scheduler terminates within its fuel: it returns an order exactly
    when the units' dependencies are acyclic, every unit then appears once and after everything
    it depends on, and otherwise it reports the cycle. *)
Theorem ordered_units_exact {NodeImpl} (bs : list (string * ResolvedPortBinding)) (units : list (_Unit NodeImpl)) :
  NoDup (unit_segs <$> units) →
  match _ordered_units units bs (_unit_producer_index units) with
  | Ok order =>
      order ≡ₚ units ∧ (∀ scope, ¬ tc (reads bs units) scope scope) ∧
      ∀ i u, order !! i = Some u → ∀ d, d ∈ unit_dependencies bs (_unit_producer_index units) u →
        d ∈ unit_segs <$> take i order
  | Raise e => e = ContractViolation RootDependencyCycle ∧ ∃ scope, tc (reads bs units) scope scope
  end.
Proof. apply ordered_units_law. Qed.

Definition fixture_units : list (_Unit unit) := Eval vm_compute in
  match _materialization_instances Fixture.snapshot StoreFixture.manifest.(resolved_components) with
  | Ok is_ => _root_units StoreFixture.manifest is_
  | Raise _ => []
  end.
(** The loop reads what [begin] produces, so it comes after it. *)
Lemma ordered_units_exact_witness :
  ∃ order, _ordered_units fixture_units (connection_index StoreFixture.manifest)
             (_unit_producer_index fixture_units) = Ok order ∧
    unit_segs <$> order = [["demo"; "begin"]; ["demo"; "consult"]; ["demo"; "refine"]] ∧
    order ≡ₚ fixture_units.
Proof.
  pose proof (ordered_units_exact (connection_index StoreFixture.manifest) fixture_units) as H.
  destruct (_ordered_units _ _ _) as [order|e] eqn:E; [|exfalso; vm_compute in E; discriminate E].
  exists order. split; [reflexivity|]. split.
  - vm_compute in E. injection E as <-. reflexivity.
  - apply H. vm_compute. repeat constructor; intros Hin; apply list_elem_of_In in Hin; simpl in Hin;
      intuition discriminate.
Defined.

(** ** Address keys *)
Abbreviation chars := String.list_ascii_of_string.
(** A name without the two separators of a key. *)
Definition COLON : ascii := ":"%char.
Definition SLASH : ascii := "/"%char.
Definition plain (s : string) : Prop := (COLON ∉ chars s) ∧ (SLASH ∉ chars s) ∧ s ≠ "".
Definition plain_address (a : PortAddress) : Prop :=
  match a with
  | NodePortAddress s n p => Forall plain s.(segments) ∧ plain n ∧ plain p
  | GraphInputAddress s p | GraphOutputAddress s p => Forall plain s.(segments) ∧ plain p
  end.
Lemma cut_unique {A} (x : A) l1 l2 r1 r2 :
  x ∉ l1 → x ∉ l2 → l1 ++ x :: r1 = l2 ++ x :: r2 → l1 = l2 ∧ r1 = r2.
Proof.
  revert l2. induction l1 as [|a l1 IH]; intros [|b l2] H1 H2 E; simpl in E.
  - by injection E.
  - injection E as <- _. exfalso. apply H2. left.
  - injection E as -> _. exfalso. apply H1. left.
  - injection E as <- E. apply not_elem_of_cons in H1 as [_ H1]. apply not_elem_of_cons in H2 as [_ H2].
    by destruct (IH _ H1 H2 E) as [-> ->].
Qed.
Lemma join_no_colon l : Forall plain l → COLON ∉ chars (str_join "/" l).
Proof.
  induction 1 as [|s l [Hs _] Hl IH]; [by intros ?%elem_of_nil|]. destruct l as [|s' l]; [done|].
  cbn [str_join]. rewrite !list_ascii_app. intros [?|[Hx|?]%elem_of_app]%elem_of_app; [done| |done].
  by apply list_elem_of_singleton in Hx.
Qed.
Lemma join_inj l k : Forall plain l → Forall plain k → str_join "/" l = str_join "/" k → l = k.
Proof.
  intros Hl. revert k. induction Hl as [|s l (_ & Hs & Hne) Hl IH]; intros k Hk E.
  - destruct Hk as [|t k (_ & _ & Ht) Hk]; [done|]. destruct k as [|t' k]; simpl in E; [congruence|].
    by destruct t.
  - destruct Hk as [|t k (_ & Ht & Hne') Hk].
    { destruct l as [|s' l]; simpl in E; [congruence|]. by destruct s. }
    destruct l as [|s' l], k as [|t' k]; cbn [str_join] in E.
    + by subst.
    + exfalso. apply Hs. rewrite E, !list_ascii_app. apply elem_of_app. right. left.
    + exfalso. apply Ht. rewrite <-E, !list_ascii_app. apply elem_of_app. right. left.
    + apply (f_equal chars) in E. rewrite !list_ascii_app in E. simpl in E.
      apply cut_unique in E as [E1%list_ascii_inj E2%list_ascii_inj]; [|done..]. subst. f_equal. by apply IH.
Qed.
Lemma key_cut p x y x' y' :
  COLON ∉ chars x → COLON ∉ chars x' →
  p +:+ x +:+ ":" +:+ y = p +:+ x' +:+ ":" +:+ y' → x = x' ∧ y = y'.
Proof.
  intros Hx Hx' E. apply (f_equal chars) in E. rewrite !list_ascii_app in E. simpl in E.
  apply app_inv_head in E. apply cut_unique in E as [E1%list_ascii_inj E2%list_ascii_inj]; [|done..]. done.
Qed.

(** Value keys identify port addresses whose segments, node and port names contain neither
    a slash nor a colon; without that condition two different addresses share a key. *)
Theorem address_keys_identify a b :
  plain_address a → plain_address b →
  (_address_key a = _address_key b ↔ a = b) ∧
  ∃ c d, c ≠ d ∧ _address_key c = _address_key d.
Proof.
  intros Ha Hb. split.
  2: { exists (NodePortAddress (mkScope ["g"]) "a" "b:c"), (NodePortAddress (mkScope ["g"]) "a:b" "c"). done. }
  split; [|by intros ->].
  destruct a as [s p|s n p|s p], b as [s' p'|s' n' p'|s' p']; simpl in *; try (intros; discriminate).
  - intros [E1 ->]%(key_cut "in:"); [|apply join_no_colon, Ha|apply join_no_colon, Hb].
    apply join_inj in E1; [|by apply Ha|by apply Hb]. by destruct s, s'; simpl in *; subst.
  - intros [E1 E2]%(key_cut "node:"); [|by apply join_no_colon, Ha|by apply join_no_colon, Hb].
    apply (key_cut "") in E2 as [-> ->]; [|by apply Ha|by apply Hb].
    apply join_inj in E1; [|by apply Ha|by apply Hb]. by destruct s, s'; simpl in *; subst.
  - intros [E1 ->]%(key_cut "out:"); [|apply join_no_colon, Ha|apply join_no_colon, Hb].
    apply join_inj in E1; [|by apply Ha|by apply Hb]. by destruct s, s'; simpl in *; subst.
Qed.
Lemma address_keys_identify_witness :
  _address_key (NodePortAddress (mkScope ["demo"]) "begin" "draft")
  = _address_key (NodePortAddress (mkScope ["demo"]) "begin" "draft") ↔
  NodePortAddress (mkScope ["demo"]) "begin" "draft" = NodePortAddress (mkScope ["demo"]) "begin" "draft".
Proof.
  assert (∀ s, plain s ↔ (COLON ∉ chars s) ∧ (SLASH ∉ chars s) ∧ s ≠ "") as Hp by done.
  destruct (address_keys_identify (NodePortAddress (mkScope ["demo"]) "begin" "draft")
    (NodePortAddress (mkScope ["demo"]) "begin" "draft")) as [H _]; [..|exact H];
    split_and!; repeat constructor; try done; intros Hin; apply list_elem_of_In in Hin;
      simpl in Hin; intuition discriminate.
Defined.
