(* ===== verification/Walk.v ===== *)
(** The walker's execution of a sealed manifest
    ([src/constructicon/runtime/walker.py]): the scheduler over units, bounded
    loops, restoring from write-once checkpoints, and materialization of a
    finished run from durable facts alone.

    Everything outside the task is [env]: at every [await asyncio.sleep(0)] the
    heartbeat task, other processes and the caller may change the world or
    cancel the task. One node's invocation is a parameter here ([_invoke] with
    the capabilities and the component's own code): the walker's laws are
    stated for whatever honours [InvokeLaws] in WalkSpec. *)

From S2P Require Import Prelude Identity Address Graph Component Capability Manifest Message Run Effect Journal Units.

Record RunResult := mkResult {
  rr_status : RunStatus;
  rr_outputs : list (string * json);
  rr_failures : list (string * exn);
  rr_blocked : list DependencyReport;
  rr_parked : list ParkedUnit;
}.
Record _LoopHistory := mkHistory {
  completed_count : nat;
  terminal_iteration : option nat;
  exhausted : bool;
  final_values : option values;
}.
(** One atomic unit's outcome: [None], a [ParkedUnit], or a [str]. *)
Inductive node_outcome := NDone | NParked (u : ParkedUnit) | NFailed (e : exn).

(** What is outside the attempt's own variables: the store, whether the
    heartbeat task has reported [OwnershipLost] ([lost]), and how often the task
    has yielded to the event loop. *)
Record outside := mkOutside { o_store : store; o_lost : bool; o_tick : nat }.
Definition O := eff outside exn.
Definition set_store (s : store) (o : outside) : outside := mkOutside s o.(o_lost) o.(o_tick).
Definition journal {A} (m : J A) : O A := λ o, let '(r, s) := m o.(o_store) in (r, set_store s o).

(** [try: m] with every handler to come. *)
Definition attempt {A} (m : O A) : O (result exn A) := λ o, let '(r, o) := m o in (Ok r, o).

(** The attempt's variables that are mutated in place: [failures], [blocked],
    [parked]. *)
Record world := mkWorld {
  w_out : outside;
  w_failures : list (string * exn);
  w_blocked : list DependencyReport;
  w_parked : list ParkedUnit;
}.
Definition W := eff world exn.
Definition out {A} (m : O A) : W A := λ w,
  let '(r, o) := m w.(w_out) in (r, mkWorld o w.(w_failures) w.(w_blocked) w.(w_parked)).
Definition fail_unit (key : string) (e : exn) : W unit := modify (λ w,
  mkWorld w.(w_out) (Dict.set key e w.(w_failures)) w.(w_blocked) w.(w_parked)).
Definition block_unit (r : DependencyReport) : W unit := modify (λ w,
  mkWorld w.(w_out) w.(w_failures) (w.(w_blocked) ++ [r]) w.(w_parked)).
Definition park_unit (u : ParkedUnit) : W unit := modify (λ w,
  mkWorld w.(w_out) w.(w_failures) w.(w_blocked) (w.(w_parked) ++ [u])).

(** ** Loops: seeding, deciding, exporting *)
Definition port_index (bs : list ResolvedPortBinding) : list (string * ResolvedPortBinding) :=
  Dict.of_pairs (omap (λ b, match b.(destination) with
                            | GraphInputAddress _ p => Some (p, b)
                            | _ => None
                            end) bs).
Fixpoint seed_loop (l : LoopResolution) (iteration : nat) (initial feedback : list (string * ResolvedPortBinding))
    (outer : values) (previous : option values) (ports : list Port) (vs : values) : result exn values :=
  match ports with
  | [] => Ok vs
  | p :: ports =>
      let use_feedback := (0 <? iteration) && Dict.mem p.(port_name) feedback in
      match (if use_feedback then Dict.get p.(port_name) feedback
             else Dict.get p.(port_name) initial) with
      | None => seed_loop l iteration initial feedback outer previous ports vs
      | Some b =>
          match (if use_feedback then previous else Some outer) with
          | None => Raise (JournalDamaged (FeedbackWithoutPrevious l.(loop_scope) iteration))
          | Some source =>
              v ← _collect source b.(sources) p;
              seed_loop l iteration initial feedback outer previous ports
                (Dict.set (_address_key b.(destination)) v vs)
          end
      end
  end.
Definition _seed_loop_iteration (l : LoopResolution) (iteration : nat) (outer : values)
    (previous : option values) : result exn values :=
  seed_loop l iteration (port_index l.(initial_bindings)) (port_index l.(feedback_bindings))
    outer previous l.(input_ports) [].
Definition _loop_decision (l : LoopResolution) (vs : values) : result exn bool :=
  let key := _address_key l.(continue_source) in
  match Dict.get key vs with
  | None => Raise (ContractViolation (NoContinuation key))
  | Some (JBool b) => Ok b
  | Some _ => Raise (ContractViolation ContinuationNotBool)
  end.
Fixpoint publish_exports (es : list LoopExport) (vs outer : values) : result exn values :=
  match es with
  | [] => Ok outer
  | e :: es =>
      v ← _collect vs e.(export_sources) e.(export_port);
      publish_exports es vs (Dict.set (_address_key e.(export_destination)) v outer)
  end.
Definition _publish_loop_exports (l : LoopResolution) (vs outer : values) : result exn values :=
  publish_exports l.(exports) vs outer.

Section walker.
Context {NodeImpl : Type}.
Abbreviation instance := (_Instance NodeImpl) (only parsing).
Abbreviation bindings := (list (string * ResolvedPortBinding)) (only parsing).

(** ** Restoring from checkpoints *)
Definition payloads (c : Checkpoint) : list (string * json) :=
  (λ po, (po.1, po.2.(payload))) <$> c.(cp_outputs).
Definition inputs_hash (inputs : list (string * json)) : Digest := digest_of "inputs" 1 (JObj inputs).
Definition contradicts (c : Checkpoint) (h : Digest) (i : instance) : bool :=
  negb (bool_decide (c.(cp_input_hash) = h)) || negb (bool_decide (c.(cp_version) = Some i.(in_version))).
Definition _restore_checked_checkpoint (i : instance) (c : Checkpoint) (vs : values) (bs : bindings) :
    result exn values :=
  expected ← _node_inputs i vs bs;
  if contradicts c (inputs_hash expected) i
  then Raise (CheckpointConflict c.(cp_run) (Some c.(cp_path)))
  else _publish_atomic_outputs i (payloads c) vs.

Definition frame_of (l : LoopResolution) (index : nat) : IterationFrame :=
  mkFrame l.(loop_scope) (N.of_nat index).
Definition member_path (l : LoopResolution) (index : nat) (member : ScopePath) : ExecutionPath :=
  mkPath member [frame_of l index].
(** [instances_by_scope[scope.segments]] *)
Definition index_instances (is_ : list instance) : list (list string * instance) :=
  Dict.of_pairs ((λ i, (segs i.(in_scope), i)) <$> is_).
Definition member (by_scope : list (list string * instance)) (scope : ScopePath) : result exn instance :=
  match Dict.get (segs scope) by_scope with Some i => Ok i | None => Raise (KeyError (segs scope)) end.
Fixpoint members (by_scope : list (list string * instance)) (scopes : list ScopePath) :
    result exn (list instance) :=
  match scopes with
  | [] => Ok []
  | s :: scopes => i ← member by_scope s; is_ ← members by_scope scopes; Ok (i :: is_)
  end.

(** One iteration's checkpoints, in member order, up to the first missing one. *)
Fixpoint restore_prefix (by_scope : list (list string * instance)) (bs : bindings)
    (row : list (ScopePath * option Checkpoint)) (vs : values) : result exn values :=
  match row with
  | [] => Ok vs
  | (_, None) :: _ => Ok vs
  | (scope, Some c) :: row =>
      i ← member by_scope scope;
      vs ← _restore_checked_checkpoint i c vs bs;
      restore_prefix by_scope bs row vs
  end.
Definition present (row : list (option Checkpoint)) : list bool := (λ c, bool_decide (is_Some c)) <$> row.
Fixpoint gap (missing_seen : bool) (l : list bool) : bool :=
  match l with
  | [] => false
  | false :: l => gap true l
  | true :: l => missing_seen || gap missing_seen l
  end.
Definition any_present (rows : list (list (option Checkpoint))) : bool :=
  existsb (λ row, existsb id (present row)) rows.
Fixpoint inspect_matrix (l : LoopResolution) (by_scope : list (list string * instance)) (bs : bindings)
    (outer : values) (require_terminal : bool) (index completed : nat) (previous : option values)
    (matrix : list (list (option Checkpoint))) : result exn _LoopHistory :=
  match matrix with
  | [] =>
      if require_terminal then Raise (JournalDamaged (ExhaustedLoop l.(loop_scope)))
      else Ok (mkHistory completed None true previous)
  | row :: later =>
      if negb (existsb id (present row)) then
        if any_present later then Raise (JournalDamaged (IterationGap l.(loop_scope) index))
        else if require_terminal then Raise (JournalDamaged (IncompleteLoop l.(loop_scope) index))
        else Ok (mkHistory completed None false previous)
      else if gap false (present row) then Raise (JournalDamaged (MemberGap l.(loop_scope) index))
      else if negb (forallb id (present row)) then
        if any_present later then Raise (JournalDamaged (IterationGap l.(loop_scope) index)) else
        vs ← _seed_loop_iteration l index outer previous;
        _ ← restore_prefix by_scope bs (zip l.(member_order) row) vs;
        if require_terminal then Raise (JournalDamaged (PartialLoop l.(loop_scope) index))
        else Ok (mkHistory completed None false previous)
      else
        vs ← _seed_loop_iteration l index outer previous;
        vs ← restore_prefix by_scope bs (zip l.(member_order) row) vs;
        decision ← _loop_decision l vs;
        if negb decision then
          if any_present later then Raise (JournalDamaged (AfterTerminal l.(loop_scope) index))
          else Ok (mkHistory (S completed) (Some index) false (Some vs))
        else inspect_matrix l by_scope bs outer require_terminal (S index) (S completed) (Some vs) later
  end.
Definition loop_matrix (run : RunId) (l : LoopResolution) : J (list (list (option Checkpoint))) :=
  emap (λ index, emap (λ scope, checkpoint run (member_path l index scope)) l.(member_order))
    (seq 0 (Pos.to_nat l.(loop_max_iterations))).
Definition _inspect_loop_history (run : RunId) (l : LoopResolution)
    (by_scope : list (list string * instance)) (bs : bindings) (outer : values)
    (require_terminal : bool) : J _LoopHistory :=
  let* matrix := loop_matrix run l in
  lift (inspect_matrix l by_scope bs outer require_terminal 0 0 None matrix).

(** ** Materialization *)
Definition materialize_unit (run : RunId) (by_scope : list (list string * instance)) (bs : bindings)
    (vs : values) (u : _Unit NodeImpl) : J values :=
  match u.(unit_instance), u.(unit_loop) with
  | Some i, _ =>
      let* c := checkpoint run (mkPath u.(unit_scope) []) in
      match c with
      | None => raise (JournalDamaged (NoCheckpoint u.(unit_scope)))
      | Some c => lift (_restore_checked_checkpoint i c vs bs)
      end
  | None, None => raise (JournalDamaged EmptyExecutionUnit)
  | None, Some l =>
      let* h := _inspect_loop_history run l by_scope bs vs true in
      match h.(terminal_iteration), h.(final_values) with
      | Some _, Some final => lift (_publish_loop_exports l final vs)
      | _, _ => raise (JournalDamaged (NoTerminalLoop u.(unit_scope)))
      end
  end.
(** [json_value(value)] of every recorded input. *)
Fixpoint input_values (root : ScopePath) (inputs : list (string * json)) : result exn values :=
  match inputs with
  | [] => Ok []
  | (name, v) :: inputs =>
      v ← json_again v;
      rest ← input_values root inputs;
      Ok ((_address_key (GraphInputAddress root name), v) :: rest)
  end.
(** What both execution and materialization compute from the manifest. *)
Definition plan (m : ExecutionManifest) (is_ : list instance) : result exn (list (_Unit NodeImpl)) :=
  let units := _root_units m is_ in
  _ordered_units units (connection_index m) (_unit_producer_index units).
Definition _materialize (m : ExecutionManifest) (is_ : list instance) (run : RunId)
    (inputs : list (string * json)) : J (list (string * json)) :=
  let by_scope := index_instances is_ in
  let bs := connection_index m in
  let* ordered := lift (plan m is_) in
  let* start := lift (input_values (root_scope m) inputs) in
  let* vs := efold (materialize_unit run by_scope bs) (Dict.of_pairs start) ordered in
  lift (_graph_outputs m vs bs).
End walker.

(** ** One attempt *)
Section attempt.
Context {NodeImpl : Type}.
Abbreviation instance := (_Instance NodeImpl) (only parsing).
Abbreviation unit_ := (_Unit NodeImpl) (only parsing).
Abbreviation bindings := (list (string * ResolvedPortBinding)) (only parsing).
Abbreviation statuses := (list (list string * InvocationStatus)) (only parsing).

(** What happens while the task is suspended at its [n]-th [await
    asyncio.sleep(0)]: what other tasks and processes leave of the store, and
    whether the heartbeat task lost the run or the task was cancelled. *)
Record weather := mkWeather { later : store; found_lost : bool; cancelled : bool }.
Context (env : nat → store → weather).
(** [_invoke] of one instance, and [capability.reconcile] of one stale row. *)
Context (invoke : instance → ExecutionPath → list (string * json) → Digest → O (list (string * json))).
Context (reconcile : CapabilityBinding → CapabilityLease → disposition → O unit).
Context (is_leased : string → bool).
Context (lease : RunLease).
Abbreviation run := (lease.(lease_run)) (only parsing).

Definition sleep0 : O unit := λ o,
  let e := env o.(o_tick) o.(o_store) in
  (if e.(cancelled) then Raise Cancelled else Ok tt,
   mkOutside e.(later) (o.(o_lost) || e.(found_lost)) (S o.(o_tick))).
Definition _check_run_control : O unit := λ o,
  (if o.(o_lost) then Raise (OwnershipLost run)
   else if cancel_requested o.(o_store) run then Raise CancelRequested else Ok tt, o).
Definition log (kind : string) (path : option ExecutionPath) (p : option event_payload) : O unit :=
  let* _ := journal (append_event lease kind path p) in eret tt.

(** [_cleanup_error]: the members of groups side by side; the callers combine
    failures of different sites, never one exception object twice. *)
Definition group_members (e : exn) : list exn := match e with ExnGroup l => l | _ => [e] end.
Definition _cleanup_error (errors : list exn) : option exn :=
  match e ← errors; group_members e with
  | [] => None
  | [e] => Some e
  | l => Some (ExnGroup l)
  end.

(** The exceptions that are not a failure of the node. *)
Definition contained (e : exn) : bool :=
  match e with
  | OwnershipLost _ | CheckpointConflict _ _ | CancelRequested | InvocationParked _ _ | Cancelled => false
  | _ => true
  end.
(** The handlers of [_execute_or_restore] around [_invoke]. *)
Definition invoke_failed (path : ExecutionPath) (e : exn) : O node_outcome :=
  match e with
  | CleanupFailure error node_error cancelled_ =>
      match node_error with
      | Some original =>
          if contained original then
            let* error := catch (log "NodeFailed" (Some path) (Some (PError original));;; eret error)
              (λ d, match d with
                    | OwnershipLost _ => raise d
                    | _ => eret (from_option id error (_cleanup_error [error; d]))
                    end) in
            raise (CleanupFailure error node_error cancelled_)
          else raise e
      | None => raise e
      end
  | OwnershipLost _ | CheckpointConflict _ _ | CancelRequested | Cancelled => raise e
  | InvocationParked request reason =>
      match _reason_carries_its_own_evidence (mkParked path reason None (Some request)) with
      | None => raise (ComponentError "ValidationError" "")
      | Some u => log "NodeParked" (Some path) (Some (PUnit u));;; eret (NParked u)
      end
  | _ => log "NodeFailed" (Some path) (Some (PError e));;; eret (NFailed e)
  end.
Definition _execute_or_restore (i : instance) (path : ExecutionPath) (vs : values) (bs : bindings) :
    O (node_outcome * values) :=
  let* inputs := lift (_node_inputs i vs bs) in
  let h := inputs_hash inputs in
  let* c := journal (checkpoint run path) in
  match c with
  | Some c =>
      if contradicts c h i then raise (CheckpointConflict run (Some path)) else
      log "NodeRestored" (Some path) None;;;
      let* vs := lift (_publish_atomic_outputs i (payloads c) vs) in
      eret (NDone, vs)
  | None =>
      let* r := catch (let* outputs := invoke i path inputs h in eret (inr outputs))
                  (λ e, let* o := invoke_failed path e in eret (inl o)) in
      match r with
      | inl outcome => eret (outcome, vs)
      | inr outputs =>
          let* vs := lift (_publish_atomic_outputs i outputs vs) in
          eret (NDone, vs)
      end
  end.

(** ** One loop *)
Record iteration_state := mkIteration {
  it_values : values;
  it_status : statuses;
  it_failed : bool;
  it_restored_only : bool;
  it_executed : bool;    (** [executed_any] *)
}.
Definition all_completed (r : DependencyReport) : bool :=
  forallb (λ p, bool_decide (p.(producer_status) = Completed)) r.(producers).
Definition block_at (path : ExecutionPath) (kind : string) (r : DependencyReport) : W unit :=
  block_unit r;;; out (log kind (Some path) (Some (PReport r))).

(** The members of one iteration; [inl] is the early return of [PARKED]. *)
Fixpoint run_members (l : LoopResolution) (by_scope : list (list string * instance)) (bs : bindings)
    (member_producers : list (string * instance)) (index : nat) (scopes : list ScopePath)
    (it : iteration_state) : W (unit + iteration_state) :=
  match scopes with
  | [] => eret (inr it)
  | scope :: scopes =>
      let continue_ := run_members l by_scope bs member_producers index scopes in
      out sleep0;;;
      out _check_run_control;;;
      match Dict.get (segs scope) by_scope with
      | None => raise (ContractViolation (MissingMember scope))
      | Some i =>
          let path := member_path l index scope in
          let report := _member_dependency_report i (frame_of l index) bs member_producers it.(it_status) in
          let set_status st failed := mkIteration it.(it_values) (Dict.set (segs scope) st it.(it_status))
                                        failed it.(it_restored_only) it.(it_executed) in
          if negb (all_completed report) then
            block_at path "NodeBlocked" report;;;
            continue_ (set_status Blocked true)
          else if it.(it_failed) then
            out (log "NodeSkipped" (Some path) (Some (PMembers [("reason", JStr "loop_iteration_failed")])));;;
            continue_ (set_status Skipped true)
          else
            let* had := out (journal (checkpoint run path)) in
            let* ov := out (_execute_or_restore i path it.(it_values) bs) in
            let next st failed := mkIteration ov.2 (Dict.set (segs scope) st it.(it_status)) failed
              (it.(it_restored_only) && bool_decide (is_Some had))
              (it.(it_executed) || negb (bool_decide (is_Some had))) in
            match ov.1 with
            | NDone => continue_ (next Completed false)
            | NParked u =>
                park_unit u;;;
                out (log "LoopParked" (Some (mkPath l.(loop_scope) [])) (Some (PUnit u)));;;
                eret (inl tt)
            | NFailed e =>
                fail_unit (render_path path) e;;;
                continue_ (next InvocationFailed true)
            end
      end
  end.

Fixpoint run_iterations (l : LoopResolution) (by_scope : list (list string * instance)) (bs : bindings)
    (member_producers : list (string * instance)) (outer : values) (indices : list nat)
    (previous : option values) (executed : bool) : W (InvocationStatus * values) :=
  let loop_path := mkPath l.(loop_scope) [] in
  match indices with
  | [] =>
      let u := mkParked loop_path PolicyExhausted (Some l.(loop_max_iterations)) None in
      park_unit u;;;
      out (log (if executed then "LoopPolicyExhausted" else "LoopPolicyReobserved")
             (Some loop_path) (Some (PUnit u)));;;
      eret (InvocationParked_, outer)
  | index :: indices =>
      out sleep0;;;
      out _check_run_control;;;
      let* start := lift (_seed_loop_iteration l index outer previous) in
      let* r := run_members l by_scope bs member_producers index l.(member_order)
                  (mkIteration start [] false true executed) in
      match r with
      | inl _ => eret (InvocationParked_, outer)
      | inr it =>
          if it.(it_failed) then eret (InvocationFailed, outer) else
          match _loop_decision l it.(it_values) with
          | Raise e =>
              fail_unit (render_path loop_path) e;;;
              out (log "LoopFailed" (Some loop_path) (Some (PLoopError e index)));;;
              eret (InvocationFailed, outer)
          | Ok decision =>
              out (log (if it.(it_restored_only) then "LoopIterationRestored" else "LoopIterationCompleted")
                     (Some (member_path l index l.(loop_scope)))
                     (Some (PMembers [("continue", JBool decision)])));;;
              if negb decision then
                let* outer := lift (_publish_loop_exports l it.(it_values) outer) in
                out (log (if it.(it_executed) then "LoopCompleted" else "LoopRestored") (Some loop_path)
                       (Some (PMembers [("iterations", JInt (Z.of_nat index + 1))])));;;
                eret (Completed, outer)
              else run_iterations l by_scope bs member_producers outer indices
                     (Some it.(it_values)) it.(it_executed)
          end
      end
  end.
Definition _execute_loop (l : LoopResolution) (by_scope : list (list string * instance)) (bs : bindings)
    (outer : values) : W (InvocationStatus * values) :=
  out (journal (_inspect_loop_history run l by_scope bs outer false));;;
  let* ms := lift (members by_scope l.(member_order)) in
  run_iterations l by_scope bs (_member_producer_index ms) outer
    (seq 0 (Pos.to_nat l.(loop_max_iterations))) None false.

(** ** The units of the graph *)
Definition run_unit (by_scope : list (list string * instance)) (bs : bindings)
    (producer_units : list (string * unit_)) (st : values * statuses) (u : unit_) : W (values * statuses) :=
  let '(vs, status) := st in
  let path := mkPath u.(unit_scope) [] in
  let status_is st := Dict.set (segs u.(unit_scope)) st status in
  out sleep0;;;
  out _check_run_control;;;
  let report := _unit_dependency_report u bs producer_units status in
  if negb (all_completed report) then
    block_at path (match u.(unit_instance) with Some _ => "NodeBlocked" | None => "LoopBlocked" end) report;;;
    eret (vs, status_is Blocked)
  else match u.(unit_instance), u.(unit_loop) with
  | Some i, _ =>
      let* ov := out (_execute_or_restore i path vs bs) in
      match ov.1 with
      | NDone => eret (ov.2, status_is Completed)
      | NParked p => park_unit p;;; eret (ov.2, status_is InvocationParked_)
      | NFailed e => fail_unit (render_scope u.(unit_scope)) e;;; eret (ov.2, status_is InvocationFailed)
      end
  | None, None => raise (ContractViolation EmptyUnit)
  | None, Some l =>
      let* sv := _execute_loop l by_scope bs vs in
      eret (sv.2, status_is sv.1)
  end.

(** ** Starting an attempt *)
Definition begin_attempt (status : RunStatus) (inputs : list (string * json)) (cause : option AttemptCause) :
    O unit :=
  let evidence := (λ c, PMembers (cause_payload c)) <$> cause in
  match status with
  | PENDING => journal (transition_run lease [PENDING] RUNNING "RunStarted"
      (Some (PMembers (("inputs", JObj inputs) :: from_option cause_payload [] cause))))
  | FAILED | PARKED => journal (transition_run lease [FAILED; PARKED] RUNNING "RunResumed" evidence)
  | _ => log "RunReclaimed" None evidence
  end.
Definition reconcile_row (m : ExecutionManifest) (mode : CapabilityMode) (row : CapabilityLease) : O unit :=
  let binding := last (filter (λ b, b.(cap_scope) = row.(cl_path).(path_scope) ∧
                                    b.(binding) = row.(binding_id)) m.(capability_bindings)) in
  let* c := journal (checkpoint run row.(cl_path)) in
  let d := match mode, c with
           | DiscardCapabilities, _ | _, None => Discarded
           | NormalCapabilities, Some _ => Released
           end in
  match binding with
  | Some b => ewhen (is_leased b.(cap_id)) (reconcile b row d)
  | None => eret tt
  end;;;
  journal (transition_capability_lease lease row.(lease_id) row.(acquisition_epoch)
             [LeaseActive] LeaseClosed (Some d)).
Definition _reconcile_stale_leases (m : ExecutionManifest) (mode : CapabilityMode) : O unit :=
  let* rows := journal (run_capability_leases run) in
  eiter (reconcile_row m mode)
    (filter (λ row, row.(cl_state) = LeaseActive ∧ row.(acquisition_epoch) < lease.(epoch)) rows).

(** ** Ending an attempt *)
Definition parked_sorted (w : world) : list ParkedUnit :=
  sorted_by String.leb (λ u, render_path u.(parked_path)) w.(w_parked).
Definition finish (target : RunStatus) (kind : string) (p : event_payload)
    (outputs : list (string * json)) (w : world) : W RunResult :=
  out (journal (transition_run lease [RUNNING] target kind (Some p)));;;
  eret (mkResult target outputs w.(w_failures) w.(w_blocked) (parked_sorted w)).
Definition conclude (m : ExecutionManifest) (bs : bindings) (vs : values) : W RunResult :=
  let* w := get in
  let parked := parked_sorted w in
  let blocked := report_destination <$> w.(w_blocked) in
  if bool_decide (w.(w_failures) ≠ []) then
    finish FAILED "RunFailed" (PRunFailed (py_sorted String.leb (Dict.keys w.(w_failures))) blocked parked) [] w
  else if bool_decide (parked ≠ []) then
    finish PARKED "RunParked" (PRunParked parked blocked) [] w
  else if bool_decide (w.(w_blocked) ≠ []) then raise (JournalDamaged BlockedWithoutRoot)
  else
    let* outputs := lift (_graph_outputs m vs bs) in
    finish SUCCEEDED "RunSucceeded"
      (PMembers [("outputs", JArr (JStr <$> py_sorted String.leb (Dict.keys outputs)))]) outputs w.

Definition start_values (m : ExecutionManifest) (inputs : list (string * json)) : values :=
  Dict.of_pairs ((λ nv, (_address_key (GraphInputAddress (root_scope m) nv.1), nv.2)) <$> inputs).
Definition run_units (m : ExecutionManifest) (is_ : list instance) (ordered : list unit_) (vs : values) :
    W (values * statuses) :=
  efold (run_unit (index_instances is_) (connection_index m) (_unit_producer_index (_root_units m is_)))
    (vs, []) ordered.
Definition _execute (m : ExecutionManifest) (bound : string → Digest → BoundVersion NodeImpl)
    (inputs : list (string * json)) (mode : CapabilityMode) (cause : option AttemptCause) : W RunResult :=
  let* state := out (journal (run_state run)) in
  match state with
  | None => raise (ContractViolation (UnknownRun run))
  | Some status =>
      out (begin_attempt status inputs cause);;;
      out (_reconcile_stale_leases m mode);;;
      let* is_ := lift (_instances bound m.(resolved_components)) in
      let bs := connection_index m in
      let* ordered := lift (plan m is_) in
      let* r := catch (let* st := run_units m is_ ordered (start_values m inputs) in eret (Some st))
                  (λ e, match e with CancelRequested => eret None | _ => raise e end) in
      match r with
      | None =>
          let* w := get in
          finish CANCELLED "RunCancelled" (PMembers [("source", JStr "request")]) [] w
      | Some (vs, _) => conclude m bs vs
      end
  end.
End attempt.
