(* ===== verification/Boundary.v ===== *)
(** The effect boundary of one invocation ([_effect_boundary] of
    [src/constructicon/runtime/walker.py]), the channel exchange behind a
    facade ([_BoundChannel]), and the channel send adapter
    ([src/constructicon/substrate/effects/channel.py]).

    An adapter's methods and a channel's are run in [O]: while they run anything
    outside may happen. *)

From S2P Require Import Prelude Identity Address Graph Component Capability Manifest Message.
From S2P Require Import Run Effect Journal EffectStore Units Walk.

(** [EffectAdapter] ([src/constructicon/core/effect.py]) *)
Record EffectAdapter := mkAdapter {
  ad_profile : EffectProfile;
  ad_execute : EffectRequest → O EffectReceipt;
  ad_reconcile : EffectRequest → O (option EffectReceipt);
  ad_simulate : EffectRequest → O EffectReceipt;
}.
(** The transport methods a send and an exchange use
    ([Channel] of [src/constructicon/core/channel.py]). *)
Record Channel := mkChannel {
  ch_append_request : ChannelSendIntent → string → O ChannelMessage;
  ch_message : Digest → O (option ChannelMessage);
  ch_reply_for : Digest → O (option ChannelMessage);
}.

(** ** The boundary *)
Section boundary.
Context (lease : RunLease) (manifest : Digest) (path : ExecutionPath) (mode : EffectMode).
Context (effects : string → option EffectAdapter).

Definition terminal_statuses : list receipt_status :=
  match mode with SimulatedEffects => [Simulated] | LiveEffects => [Committed; Rejected] end.
Definition deduplicated (kind : string) : O unit :=
  log lease "EffectDeduplicated" (Some path) (Some (PMembers [("kind", JStr kind)])).
Definition terminal_receipt (kind : string) (key : Digest) : O (option EffectReceipt) :=
  let* existing := journal (receipt_for key) in
  match existing with
  | None => eret None
  | Some r =>
      if decide (r.(rc_status) ∈ terminal_statuses) then deduplicated kind;;; eret (Some r) else eret None
  end.
Definition record_outcome (kind : string) (request : EffectRequest) (receipt : EffectReceipt) (event_kind : string) :
    O EffectReceipt :=
  let* disposition := journal (record_effect_outcome lease request receipt event_kind) in
  ewhen (match disposition with AlreadyRecorded => true | Recorded => false end)
    (deduplicated kind);;;
  eret receipt.
(** Perform a prepared request: what already happened is reconciled first. *)
Definition perform (kind : string) (adapter : EffectAdapter) (request : EffectRequest) : O EffectReceipt :=
  let* reconciled := (match mode with
                      | LiveEffects => adapter.(ad_reconcile) request
                      | SimulatedEffects => eret None
                      end) in
  match reconciled with
  | Some receipt => record_outcome kind request receipt RECONCILED
  | None =>
      _check_run_control lease;;;
      let* receipt :=
        (match mode with
         | SimulatedEffects =>
             if adapter.(ad_profile).(simulation) then adapter.(ad_simulate) request
             else raise (ContractViolation (NoSimulation kind))
         | LiveEffects => adapter.(ad_execute) request
         end) in
      record_outcome kind request receipt (_effect_event_kind receipt)
  end.
Definition proposed (kind : string) (normalized : list (string * json)) (attestation : option string) :
    EffectRequest :=
  mkRequest lease.(lease_run) manifest path kind normalized
    (idempotency_key manifest path kind normalized mode) attestation mode.
Definition _effect_boundary (kind : string) (subject : pyval) (attestation : option string) : O EffectReceipt :=
  _check_run_control lease;;;
  match json_value subject with
  | Raise e => raise (ValueError e)
  | Ok (JObj normalized) =>
      let key := idempotency_key manifest path kind normalized mode in
      let* existing := terminal_receipt kind key in
      match existing with
      | Some r => eret r
      | None =>
          match effects kind with
          | None => raise (ContractViolation (NoAdapter kind))
          | Some adapter =>
              _check_run_control lease;;;
              let* request := journal (record_effect_prepared lease (proposed kind normalized attestation)) in
              let* raced := terminal_receipt kind key in
              match raced with
              | Some r => eret r
              | None => perform kind adapter request
              end
          end
      end
  | Ok _ => raise (ContractViolation SubjectNotObject)
  end.
End boundary.

(** ** One admitted exchange *)
Record _BoundChannel := mkBoundChannel {
  bc_binding : ChannelBinding;
  bc_channel_id : string;
  bc_channel_revision : string;
  bc_channel : Channel;
}.
Definition _WAIT_REASON (i : ChannelInteraction) : ParkedReason :=
  match i with Advice => AwaitingAdvisor | Approval => AwaitingApproval end.
Section exchange.
Context (lease : RunLease) (manifest : Digest) (path : ExecutionPath) (utc_now : nat → string).
Context (effect : string → pyval → option string → O EffectReceipt).

Definition request_id (b : _BoundChannel) : Digest :=
  let e := b.(bc_binding).(endpoint) in
  request_message_id lease.(lease_run) path b.(bc_channel_id) b.(bc_channel_revision) e.(lane)
    e.(interaction) b.(bc_binding).(cb_port).
Definition _intent (b : _BoundChannel) (payload : pyval) : result exn ChannelSendIntent :=
  match json_value payload with
  | Raise e => Raise (ValueError e)
  | Ok j =>
      let e := b.(bc_binding).(endpoint) in
      Ok (mkIntent (request_id b) b.(bc_channel_id) b.(bc_channel_revision) e.(lane) e.(interaction)
            e.(recipient_actor_id) b.(bc_binding).(contract) b.(bc_binding).(reply_contract)
            lease.(lease_run) path b.(bc_binding).(cb_port) b.(bc_binding).(reply_port) (embed j))
  end.
Definition send_draft (i : ChannelSendIntent) : AttestationDraft :=
  mkDraft ActionSend (SubjectSend (channel_send_subject i))
    [mkCheck "channel-binding-sealed" CheckPassed
       "trusted runtime derived this message from an admitted binding and its compiled exchange" "0.0"]
    (digest_of "check-set" 1 (JObj [("policy", JStr "channel-send"); ("v", JInt 1)])) [] manifest None.
Definition ask (b : _BoundChannel) (payload_ : pyval) : O json :=
  let* i := lift (_intent b payload_) in
  let* a := (λ o, journal (mint_attestation lease (send_draft i) (utc_now o.(o_tick))) o) in
  effect CHANNEL_SEND_EFFECT (embed (dump i)) (Some a.(attestation_id));;;
  let* reply := b.(bc_channel).(ch_reply_for) i.(in_message_id) in
  match reply with
  | None => raise (InvocationParked i.(in_message_id) (_WAIT_REASON b.(bc_binding).(endpoint).(interaction)))
  | Some r =>
      if decide (r.(msg_contract) ≠ b.(bc_binding).(reply_contract))
      then raise (ContractViolation (ReplyContract i.(in_message_id)))
      else eret r.(envelope).(payload)
  end.
End exchange.

(** ** [ChannelSendEffect] *)
Module ChannelSendEffect.
Definition _committed (q : EffectRequest) (id : Digest) : EffectReceipt :=
  mkReceipt (request_hash q) Committed (Some id) None.
Definition _intent (q : EffectRequest) : result exn ChannelSendIntent :=
  if decide (q.(rq_kind) ≠ CHANNEL_SEND_EFFECT) then Raise (ContractViolation (WrongEffectKind q.(rq_kind))) else
  match decode_intent q.(rq_subject) with
  | None => Raise (ComponentError "ValidationError" "")
  | Some i => if lossless i q.(rq_subject) then Ok i else Raise (ContractViolation SubjectNotIntent)
  end.
(** A send crosses only under proof that this exact message was authorized. *)
Definition _verified_attestation (q : EffectRequest) (i : ChannelSendIntent) : O string :=
  match q.(rq_attestation) with
  | None => raise (ContractViolation SendWithoutAttestation)
  | Some id =>
      let* a := journal (load_attestation id) in
      match a with
      | None => raise (JournalDamaged (AttestationNotHeld id))
      | Some a =>
          match validated_channel_send_attestation a i q.(rq_manifest) with
          | None => raise (ContractViolation SendNotAuthorized)
          | Some a => eret a.(attestation_id)
          end
      end
  end.
Section adapter.
Context (catalog : string * string → option Channel).

Definition _channel (i : ChannelSendIntent) : result exn Channel :=
  match catalog (i.(in_channel), i.(in_revision)) with
  | None => Raise (ContractViolation (ChannelNotAssembled i.(in_channel) i.(in_revision)))
  | Some c => Ok c
  end.
Definition execute (q : EffectRequest) : O EffectReceipt :=
  let* i := lift (_intent q) in
  let* c := lift (_channel i) in
  let* id := _verified_attestation q i in
  let* m := c.(ch_append_request) i id in
  eret (_committed q m.(message_id)).
Definition reconcile (q : EffectRequest) : O (option EffectReceipt) :=
  let* i := lift (_intent q) in
  let* c := lift (_channel i) in
  let* stored := c.(ch_message) i.(in_message_id) in
  match stored with
  | None => eret None
  | Some m =>
      let* id := _verified_attestation q i in
      c.(ch_append_request) i id;;;
      eret (Some (_committed q m.(message_id)))
  end.
Definition simulate (q : EffectRequest) : O EffectReceipt :=
  let* i := lift (_intent q) in
  eret (mkReceipt (request_hash q) Simulated (Some i.(in_message_id)) None).
Definition adapter : EffectAdapter :=
  mkAdapter (mkProfile CHANNEL_SEND_EFFECT Reconcilable true) execute reconcile simulate.
End adapter.
End ChannelSendEffect.
