(* ===== verification/Invoke.v ===== *)
(** One invocation of an atomic component
    ([src/constructicon/runtime/walker.py], [_invoke] and the capability
    leases): acquire and record, expose, call, complete, and close whatever was
    acquired on every way out.

    A provider's methods and the component's own code are parameters, run in
    [O]: while they run anything outside may happen. Exceptions that are not
    [Exception] or [CancelledError] (a process being killed) are not values of
    [exn]; those branches leave durable state as a crash would. *)

From S2P Require Import Prelude Identity Address Graph Component Capability Manifest Message.
From S2P Require Import Run Effect Journal Units Walk Boundary.

Section invoke.
(** [object]s of the process: capabilities and the resources they lease. *)
Context {NodeImpl Resource : Type}.
Abbreviation instance := (_Instance NodeImpl) (only parsing).
Record AcquiredCapability := mkAcquired {
  acq_resource : Resource;
  acq_lease_id : string;
  acq_resource_ref : string;
  acq_deferred : bool;    (** [materialize is not None] *)
}.
Abbreviation held := (Resource * AcquiredCapability)%type (only parsing).
(** [NodeContext] ([src/constructicon/runtime/context.py]); a [_ChannelFacade] is
    its one operation, [ask]. *)
Record NodeContext := mkContext {
  ctx_run : RunId;
  ctx_path : ExecutionPath;
  ctx_capabilities : list (string * Resource);
  ctx_channels : list (string * (pyval → O json));
  ctx_grants : EffectiveGrants;
  ctx_effect : string → pyval → option string → O EffectReceipt;
}.
Definition ctx_capability (c : NodeContext) (alias : string) : result exn Resource :=
  match Dict.get alias c.(ctx_capabilities) with
  | Some r => Ok r
  | None => Raise (ContractViolation (NoCapabilityHeld alias))
  end.
Definition ctx_channel (c : NodeContext) (alias : string) : result exn (pyval → O json) :=
  match Dict.get alias c.(ctx_channels) with
  | Some ask => Ok ask
  | None => Raise (ContractViolation (NoChannelHeld alias))
  end.

Context (env : nat → store → weather) (lease : RunLease).
Abbreviation run := (lease.(lease_run)) (only parsing).
(** The clock, at the n-th yield, and the store's lease duration. *)
Context (clock : nat → Z) (ttl : Z) (utc_now : nat → string).
(** [self._capabilities], [self._catalog], and what an object implements. *)
Context (injected : string → option Resource) (catalog : gmap string CapabilityDescriptor).
Context (is_leased is_relinquishing : Resource → bool) (as_channel : Resource → option Channel).
(** [self._effects] *)
Context (effects : string → option EffectAdapter).
Context (acquire : Resource → CapabilityBinding → ExecutionPath → O AcquiredCapability).
Context (materialize : AcquiredCapability → O unit).
Context (close : Resource → AcquiredCapability → disposition → O disposition).
Context (relinquish : Resource → AcquiredCapability → O unit).
Context (call : NodeImpl → NodeContext → list (string * json) → O pyval).

(** ** Cleanup *)

(** The task yields; whether it was cancelled meanwhile. *)
Definition suspend : O bool := λ o,
  let e := env o.(o_tick) o.(o_store) in
  (Ok e.(cancelled), mkOutside e.(later) (o.(o_lost) || e.(found_lost)) (S o.(o_tick))).
Definition is_cancelled (e : exn) : bool := match e with Cancelled => true | _ => false end.
Definition cleanup_failure (error : exn) (node_error : option exn) (cancellation : bool) : exn :=
  CleanupFailure error node_error (cancellation || from_option is_cancelled false node_error).
(** The caller's cancellation is delayed, and never hides the work's failure. *)
Definition _finish_cleanup (work : O unit) : O unit :=
  let* r := attempt work in
  let* cancellation := suspend in
  match r with
  | Ok _ => if cancellation then raise Cancelled else eret tt
  | Raise (OwnershipLost _ as e) => raise e
  | Raise (CleanupFailure error node_error c) => raise (CleanupFailure error node_error (c || cancellation))
  | Raise e => raise (cleanup_failure e None cancellation)
  end.
Fixpoint relinquish_all (acquired : list held) : O (list exn) :=
  match acquired with
  | [] => eret []
  | (capability, acquisition) :: acquired =>
      let* r := attempt (relinquish capability acquisition) in
      let* errors := relinquish_all acquired in
      eret (match r with Ok _ => errors | Raise e => e :: errors end)
  end.
Definition _relinquish_acquired (acquired : list held) : O (option exn) :=
  match filter (λ ca : held, is_relinquishing ca.1 = true) acquired with
  | [] => eret None
  | relinquishing =>
      let* errors := relinquish_all relinquishing in
      suspend;;;
      eret (_cleanup_error errors)
  end.
Definition _discard_unrecorded_acquisition (capability : Resource) (acquisition : AcquiredCapability) : O unit :=
  _finish_cleanup (
    let* r := attempt (close capability acquisition Discarded) in
    match r with
    | Ok _ => eret tt
    | Raise (OwnershipLost _ as loss) =>
        _relinquish_acquired [(capability, acquisition)];;; raise loss
    | Raise e =>
        let* failure := _relinquish_acquired [(capability, acquisition)] in
        raise (cleanup_failure (from_option id e (_cleanup_error (e :: option_list failure))) None
                 (is_cancelled e))
    end).

(** [if lost: raise lost[0]], then a heartbeat. *)
Definition affirm (watch : bool) : O unit := λ o,
  if watch && o.(o_lost) then (Raise (OwnershipLost run), o)
  else (let* _ := journal (heartbeat lease ttl (clock o.(o_tick))) in eret tt) o.
(** Close one acquisition, then its row; the flag is [closed]. *)
Definition close_one (capability : Resource) (acquisition : AcquiredCapability) (d : disposition) :
    O (bool * result exn unit) :=
  let* r := attempt (close capability acquisition d) in
  match r with
  | Raise e => eret (false, Raise e)
  | Ok closure =>
      let* r := attempt (journal (transition_capability_lease lease acquisition.(acq_lease_id)
                  lease.(epoch) [LeaseActive] LeaseClosed (Some closure))) in
      eret (true, r)
  end.
Fixpoint close_all (watch : bool) (d : disposition) (node_error : option exn) (cancellation : bool)
    (acquired : list held) (errors : list exn) : O unit :=
  let fail errors := raise (cleanup_failure (from_option id OutOfFuel (_cleanup_error errors)) node_error
                              cancellation) in
  match acquired with
  | [] => match errors with [] => eret tt | _ => fail errors end
  | (capability, acquisition) :: rest =>
      let* r := attempt (affirm watch) in
      match r with
      | Raise (OwnershipLost _ as loss) => _relinquish_acquired acquired;;; raise loss
      | Raise observation =>
          let* failure := _relinquish_acquired acquired in
          fail (errors ++ observation :: option_list failure)
      | Ok _ =>
          let* '(closed, r) := close_one capability acquisition d in
          match r with
          | Ok _ => close_all watch d node_error cancellation rest errors
          | Raise (OwnershipLost _ as loss) =>
              _relinquish_acquired (if closed : bool then rest else acquired);;; raise loss
          | Raise e =>
              let* failure := _relinquish_acquired [(capability, acquisition)] in
              let errors := errors ++ e :: option_list failure in
              let* r := attempt (affirm watch) in
              match r with
              | Raise (OwnershipLost _ as loss) => _relinquish_acquired rest;;; raise loss
              | Raise observation =>
                  let* failure := _relinquish_acquired rest in
                  fail (errors ++ observation :: option_list failure)
              | Ok _ => close_all watch d node_error cancellation rest errors
              end
          end
      end
  end.
Definition _close_acquired (watch : bool) (acquired : list held) (d : disposition)
    (node_error prior_error : option exn) (cancellation : bool) : O unit :=
  match acquired with
  | [] => match prior_error with
          | Some e => raise (cleanup_failure e node_error cancellation)
          | None => eret tt
          end
  | _ => _finish_cleanup (close_all watch d node_error cancellation acquired (option_list prior_error))
  end.

(** ** Acquiring *)
Definition durable_lease (b : CapabilityBinding) (path : ExecutionPath) (a : AcquiredCapability) : CapabilityLease :=
  mkCapabilityLease a.(acq_lease_id) lease.(epoch) run b.(binding) path LeaseActive None (Some a.(acq_resource_ref)).
(** The answer of the record was an error: settle it against durable state. *)
Definition settle_record (capability : Resource) (b : CapabilityBinding) (path : ExecutionPath)
    (a : AcquiredCapability) (record_error : exn) : O AcquiredCapability :=
  let* recorded := attempt (journal (run_capability_leases run)) in
  (if match recorded with Ok ls => bool_decide (durable_lease b path a ∈ ls) | Raise _ => false end then
     let* r := attempt (affirm false) in
     match r with
     | Ok _ => eret tt
     | Raise observation => _finish_cleanup (
         let* failure := _relinquish_acquired [(capability, a)] in
         match observation with
         | OwnershipLost _ => raise observation
         | _ => raise (cleanup_failure
                         (from_option id observation (_cleanup_error (observation :: option_list failure)))
                         (Some record_error) false)
         end)
     end;;;
     _close_acquired false [(capability, a)] Discarded (Some record_error) None false
   else
     catch (_discard_unrecorded_acquisition capability a) (λ e,
       match e with
       | CleanupFailure error _ c => raise (CleanupFailure error (Some record_error) c)
       | _ => raise e
       end));;;
  raise record_error.
Definition _acquire_invocation_capability (capability : Resource) (b : CapabilityBinding)
    (path : ExecutionPath) : O AcquiredCapability :=
  let* a := acquire capability b path in
  let* r := attempt (journal (record_capability_lease lease (durable_lease b path a))) in
  match r with
  | Ok _ => eret a
  | Raise (OwnershipLost _ as lost) =>
      let* _ := attempt (_discard_unrecorded_acquisition capability a) in
      raise lost
  | Raise record_error => settle_record capability b path a record_error
  end.

(** ** The invocation *)

(** The world of one invocation: outside, and [acquired], mutated in place. *)
Definition I := eff (outside * list held) exn.
Definition outer {A} (m : O A) : I A := λ oa, let '(r, o) := m oa.1 in (r, (o, oa.2)).
Definition keep_acquired (c : held) : I unit := modify (λ oa, (oa.1, oa.2 ++ [c])).

Definition declared_leased (id : string) : bool :=
  match catalog !! id with Some d => d.(leased) | None => false end.
Definition grant_channel (alias : string) (ask : pyval → O json) (c : NodeContext) : NodeContext :=
  mkContext c.(ctx_run) c.(ctx_path) c.(ctx_capabilities) (Dict.set alias ask c.(ctx_channels))
    c.(ctx_grants) c.(ctx_effect).
Definition grant_capability (alias : string) (r : Resource) (c : NodeContext) : NodeContext :=
  mkContext c.(ctx_run) c.(ctx_path) (Dict.set alias r c.(ctx_capabilities)) c.(ctx_channels)
    c.(ctx_grants) c.(ctx_effect).
Definition expose_one (m : ExecutionManifest) (scope : ScopePath) (path : ExecutionPath)
    (b : CapabilityBinding) (ctx : NodeContext) : I NodeContext :=
  outer (_check_run_control lease);;;
  match injected b.(cap_id) with
  | None => raise (ContractViolation (NotInjected b.(cap_id)))
  | Some capability =>
      let* exposed :=
        (if declared_leased b.(cap_id) then
           if negb (is_leased capability) then raise (ContractViolation (NotLeased b.(cap_id))) else
           let* a := outer (_acquire_invocation_capability capability b path) in
           keep_acquired (capability, a);;;
           ewhen a.(acq_deferred) (outer (materialize a);;; outer (_check_run_control lease));;;
           eret a.(acq_resource)
         else eret capability) in
      match as_channel exposed, b.(channel) with
      | Some _, None => raise (ContractViolation (NoSealedChannel b.(cap_id)))
      | Some transport, Some c =>
          let exchange := mkBoundChannel c b.(cap_id) b.(cap_binding_revision) transport in
          eret (grant_channel b.(binding)
            (ask lease m.(manifest_hash) path utc_now ctx.(ctx_effect) exchange) ctx)
      | None, Some _ => raise (ContractViolation (NotAChannel b.(cap_id)))
      | None, None => eret (grant_capability b.(binding) exposed ctx)
      end
  end.
(** The members of a mapping under [str] keys; another key is [extra]. *)
Definition raw_get (name : string) (items : list (pyval * pyval)) : option pyval :=
  head (omap (λ kv, match kv.1 with PStr k => if decide (k = name) then Some kv.2 else None | _ => None end) items).
Definition is_declared (declared : list string) (key : pyval) : bool :=
  match key with PStr k => bool_decide (k ∈ declared) | _ => false end.
Fixpoint declared_outputs (items : list (pyval * pyval)) (declared : list string) :
    result exn (list (string * json)) :=
  match declared with
  | [] => Ok []
  | name :: declared =>
      match raw_get name items with
      | None => Raise (KeyError [name])
      | Some v =>
          match json_value v with
          | Raise e => Raise (ValueError e)
          | Ok j => rest ← declared_outputs items declared; Ok ((name, j) :: rest)
          end
      end
  end.
Definition normalized_outputs (i : instance) (raw : pyval) : result exn (list (string * json)) :=
  match raw with
  | PDict items =>
      let declared := remove_dups (port_name <$> i.(in_definition).(def_outputs)) in
      let missing := filter (λ n, raw_get n items = None) declared in
      let extra := existsb (λ kv, negb (is_declared declared kv.1)) items in
      if negb (bool_decide (missing = [])) || extra
      then Raise (ContractViolation (OutputContract (py_sorted String.leb missing) extra))
      else declared_outputs items declared
  | _ => Raise (ContractViolation OutputNotMapping)
  end.
Definition completion_of (i : instance) (path : ExecutionPath) (input_hash : Digest) (now : string)
    (outputs : list (string * json)) : Checkpoint :=
  mkCheckpoint run path input_hash (Some i.(in_version))
    ((λ nv, (nv.1, mkEnvelope run path nv.1 now [] nv.2)) <$> outputs).

Definition grants_of (m : ExecutionManifest) (scope : ScopePath) : option CapabilityBinding :=
  last (filter (λ b, b.(binding) = SELF_BINDING ∧ b.(cap_scope) = scope) m.(capability_bindings)).
Definition aliases_of (m : ExecutionManifest) (scope : ScopePath) : list CapabilityBinding :=
  filter (λ b, b.(binding) ≠ SELF_BINDING ∧ b.(cap_scope) = scope) m.(capability_bindings).

(** What the component is handed before its aliases are exposed. *)
Definition fresh_context (m : ExecutionManifest) (mode : EffectMode) (path : ExecutionPath)
    (self : CapabilityBinding) : NodeContext :=
  mkContext run path [] [] self.(effective_grants) (_effect_boundary lease m.(manifest_hash) path mode effects).
(** The [try] body. *)
Definition invocation (m : ExecutionManifest) (effect_mode : EffectMode) (i : instance) (impl : NodeImpl) (self : CapabilityBinding)
    (path : ExecutionPath) (inputs : list (string * json)) (input_hash : Digest) : I (list (string * json)) :=
  let* ctx := efold (λ ctx b, expose_one m i.(in_scope) path b ctx)
                (fresh_context m effect_mode path self) (aliases_of m i.(in_scope)) in
  let* raw := outer (call impl ctx inputs) in
  let* outputs := lift (normalized_outputs i raw) in
  let* '(o, _) := get in
  outer (journal (record_completion lease
    (completion_of i path input_hash (utc_now o.(o_tick)) outputs)));;;
  eret outputs.
(** The handlers and the way out. *)
Definition way_out (mode : CapabilityMode) (acquired : list held)
    (r : result exn (list (string * json))) : O (list (string * json)) :=
  let discard e := _close_acquired true acquired Discarded (Some e) None false;;; raise e in
  match r with
  | Ok outputs =>
      _close_acquired true acquired
        (match mode with DiscardCapabilities => Discarded | NormalCapabilities => Released end) None None false;;;
      eret outputs
  | Raise (CleanupFailure error node_error cancellation as e) =>
      _close_acquired true acquired Discarded node_error (Some error) cancellation;;; raise e
  | Raise (OwnershipLost _ as loss) => _relinquish_acquired acquired;;; raise loss
  | Raise (CancelRequested as e) | Raise (Cancelled as e) => λ o,
      if o.(o_lost) then (_relinquish_acquired acquired;;; raise (OwnershipLost run)) o else discard e o
  | Raise e => discard e
  end.
Definition _invoke (m : ExecutionManifest) (effect_mode : EffectMode) (mode : CapabilityMode) (i : instance) (path : ExecutionPath)
    (inputs : list (string * json)) (input_hash : Digest) : O (list (string * json)) :=
  log lease "NodeStarted" (Some path) None;;;
  match grants_of m i.(in_scope), i.(in_impl) with
  | None, _ => raise (ContractViolation (NoSealedGrants i.(in_scope)))
  | _, None => raise (ContractViolation (NoImplementation i.(in_scope)))
  | Some self, Some impl => λ o,
      let '(r, (o, acquired)) := invocation m effect_mode i impl self path inputs input_hash (o, []) in
      way_out mode acquired r o
  end.
End invoke.
