(* ===== verification/Drive.v ===== *)
(** The walker's entry points and the lifecycle of one attempt
    ([src/constructicon/runtime/walker.py]): prepare, claim, execute under a
    heartbeat, shut down, and read a finished run back. *)

From S2P Require Import Prelude Identity Address Graph Component Capability Manifest Message.
From S2P Require Import Run Effect Journal Units Walk Invoke.

(** ** Reading a run *)

(** [parse_manifest_json] of a stored manifest: its two validators. *)
Definition parsed (m : ExecutionManifest) : bool :=
  is_ok (declared_version_check m) && is_ok (validated_manifest_identity m).
Definition _load_manifest (run : RunId) : J ExecutionManifest :=
  let* hash := run_manifest_hash run in
  match hash with
  | None => raise (ContractViolation (UnknownRun run))
  | Some hash =>
      let* m := load_manifest_json hash in
      match m with
      | None => raise (ContractViolation (NoManifest run))
      | Some m => if parsed m then eret m else raise (JournalDamaged (ManifestUnreadable hash run))
      end
  end.
(** [_materialize], its instances from the registry's snapshot. *)
Definition materialize_manifest (snapshot : RegistrySnapshot) (m : ExecutionManifest) (run : RunId)
    (inputs : list (string * json)) : J (list (string * json)) :=
  let* is_ := lift (_materialization_instances (NodeImpl:=unit) snapshot m.(resolved_components)) in
  _materialize m is_ run inputs.
Definition materialize_run (snapshot : RegistrySnapshot) (run : RunId) : J (list (string * json)) :=
  let* m := _load_manifest run in
  let* inputs := run_inputs run in
  match inputs with
  | None => raise (ContractViolation (NoRecordedInputs run))
  | Some inputs => materialize_manifest snapshot m run inputs
  end.

Definition prepare (m : ExecutionManifest) (run : RunId) (inputs : pyval) (origin : option RunOrigin) : J unit :=
  match json_value inputs with
  | Raise e => raise (ValueError e)
  | Ok (JObj normalized) =>
      let observed := digest_of "inputs" 1 (JObj normalized) in
      if decide (observed ≠ m.(input_hash))
      then raise (ContractViolation (InputsHash observed m.(input_hash)))
      else create_run run m m.(manifest_hash) m.(input_hash) normalized origin
  | Ok _ => raise (ContractViolation InputsNotAnObject)
  end.

Inductive cancellation_mode := CancelRun | AbandonRun.

Section drive.
Context {NodeImpl : Type}.
Context (env : nat → store → weather) (clock : nat → Z) (ttl : Z) (owner_id_ : string).
(** [ComponentRegistry.snapshot] and [activate] of this process. *)
Context (snapshot : RegistrySnapshot).
Context (activate : ExecutionManifest → result exn (string → Digest → BoundVersion NodeImpl)).
(** [_invoke] and [capability.reconcile] under a lease, and [await task] of the
    heartbeat task, whatever is left of it. *)
Context (invoke : RunLease → ExecutionManifest → EffectMode → CapabilityMode →
  _Instance NodeImpl → ExecutionPath → list (string * json) → Digest → O (list (string * json))).
Context (reconcile : RunLease → CapabilityBinding → CapabilityLease → disposition → O unit).
Context (is_leased : string → bool).
Context (heartbeat_end : RunLease → O unit).

(** ** Shutting an attempt down *)
Record shutdown := mkShutdown { sd_loss : option exn; sd_errors : list exn }.
(** [except OwnershipLost as exc: loss = loss or exc; except Exception: errors.append] *)
Definition note (e : exn) (s : shutdown) : shutdown :=
  match e with
  | OwnershipLost _ => mkShutdown (Some (from_option id e s.(sd_loss))) s.(sd_errors)
  | _ => mkShutdown s.(sd_loss) (s.(sd_errors) ++ [e])
  end.
Definition has_loss (s : shutdown) : bool := bool_decide (is_Some s.(sd_loss)).
(** The failure itself, behind a cleanup failure or not. *)
Definition primary_of (failure : option exn) : option exn :=
  match failure with Some (CleanupFailure error _ _) => Some error | _ => failure end.
Definition cancelled_by (failure : option exn) : bool :=
  match failure with
  | Some (CleanupFailure _ _ c) => c
  | _ => from_option is_cancelled false failure
  end.
Definition first_losses (failure : option exn) : shutdown :=
  match primary_of failure with
  | None | Some Cancelled => mkShutdown None []
  | Some (OwnershipLost _ as e) => mkShutdown (Some e) []
  | Some e => mkShutdown None [e]
  end.
(** Join the heartbeat, then record the caller's cancellation durably. *)
Definition settle_run (lease : RunLease) (failure : option exn) (mode : cancellation_mode) : O shutdown :=
  let run := lease.(lease_run) in
  let* r := attempt (heartbeat_end lease) in
  let s := match r with Ok _ => first_losses failure | Raise e => note e (first_losses failure) end in
  let* lost := (λ o, (Ok o.(o_lost), o)) in
  let s := if lost : bool then note (OwnershipLost run) s else s in
  let* '(s, intent) :=
    (if match mode with CancelRun => cancelled_by failure | AbandonRun => false end && negb (has_loss s) then
       let* r := attempt (journal (request_cancel run (Some lease))) in
       eret (match r with Ok _ => (s, true) | Raise e => (note e s, false) end)
     else eret (s, false)) in
  if from_option is_cancelled false failure && intent && negb (has_loss s) then
    let* r := attempt (journal (transition_run lease [RUNNING] CANCELLED "RunCancelled"
                (Some (PMembers [("source", JStr "asyncio")])))) in
    eret (match r with
          | Ok _ | Raise (ContractViolation _) => s
          | Raise e => note e s
          end)
  else eret s.
Definition _finish_run (lease : RunLease) (failure : option exn) (mode : cancellation_mode) : O unit :=
  let* s := settle_run lease failure mode in
  let* r := attempt (journal (release_run lease)) in
  let s := match r with
           | Ok _ | Raise (OwnershipLost _) => s
           | Raise e => mkShutdown s.(sd_loss) (s.(sd_errors) ++ [e])
           end in
  match s.(sd_loss), _cleanup_error s.(sd_errors), primary_of failure with
  | Some loss, _, _ => raise loss
  | None, Some e, _ => raise e
  | None, None, Some e => raise e
  | None, None, None => eret tt
  end.

(** ** Driving and resuming *)
Definition at_start (o : outside) : world := mkWorld o [] [] [].
Definition _drive (m : ExecutionManifest) (run : RunId) (inputs : list (string * json))
    (effects : EffectMode) (capabilities : CapabilityMode) (mode : cancellation_mode)
    (expected_seq : option nat) (expected : option (list RunStatus)) (cause : option AttemptCause) : O RunResult :=
  let* bound := lift (activate m) in
  let* lease := (λ o, journal (claim_run run owner_id_ ttl expected_seq expected (clock o.(o_tick))) o) in
  let* r := attempt (λ o,
    let '(r, w) := _execute env (invoke lease m effects capabilities) (reconcile lease) is_leased lease
                     m bound inputs capabilities cause (at_start o) in
    (r, w.(w_out))) in
  match r with
  | Ok result => _finish_run lease None mode;;; eret result
  | Raise e => _finish_run lease (Some e) mode;;; raise (ComponentError "AssertionError" "")
  end.
Definition run_prepared (run : RunId) (mode : cancellation_mode) (expected_seq : option nat)
    (expected : option (list RunStatus)) (cause : option AttemptCause) : O RunResult :=
  let* state := journal (run_state run) in
  match state with
  | None => raise (ContractViolation (UnknownRun run))
  | Some status =>
      let* m := journal (_load_manifest run) in
      let* inputs := journal (run_inputs run) in
      match inputs with
      | None => raise (ContractViolation (NoRecordedInputs run))
      | Some inputs =>
          let fenced := bool_decide (is_Some expected_seq) || bool_decide (is_Some expected) in
          if bool_decide (status = SUCCEEDED) && negb fenced then
            let* outputs := journal (materialize_manifest snapshot m run inputs) in
            eret (mkResult SUCCEEDED outputs [] [] [])
          else if bool_decide (status = CANCELLED) && negb fenced then eret (mkResult CANCELLED [] [] [] [])
          else
            let* origin := journal (run_origin run) in
            _drive m run inputs
              (match origin with Some o => o.(or_effects) | None => LiveEffects end)
              (match origin with Some o => o.(or_capabilities) | None => NormalCapabilities end)
              mode expected_seq expected cause
      end
  end.
Definition start (m : ExecutionManifest) (run : RunId) (inputs : pyval) (origin : option RunOrigin) : O RunResult :=
  journal (prepare m run inputs origin);;;
  run_prepared run CancelRun None None None.
Definition resume (run : RunId) : O RunResult := run_prepared run CancelRun None None None.
Definition reproduce (source new : RunId) (origin : option RunOrigin) : O RunResult :=
  let* m := journal (_load_manifest source) in
  let* inputs := journal (run_inputs source) in
  match inputs with
  | None => raise (ContractViolation (NoRecordedInputs source))
  | Some inputs => start m new (embed (JObj inputs)) origin
  end.
End drive.
