(* ===== verification/WalkSpec.v ===== *)
(** What one attempt may do to the durable store, and what its environment is
    assumed to do: the observation relation between the store before and after
    a computation of the walker, and the computations that respect it. *)

From S2P Require Import Prelude Identity Address Graph Component Capability Manifest Message.
From S2P Require Import Run Effect Journal EffectStore JournalSpec Units Walk.

(** A method of the store leaves every completion alone, [record_completion]
    apart. *)
Definition completes (c : jcall) : bool := match c with JComplete _ _ => true | _ => false end.
Lemma create_same run m mh ih inputs o s r s' :
  create_run run m mh ih inputs o s = (r, s') →
  s'.(checkpoints) = s.(checkpoints) ∧ s'.(capability_leases) = s.(capability_leases).
Proof.
  unfold create_run. cbv zeta.
  destruct (declared_version_check m); [|by intros [= _ <-]].
  destruct (validated_manifest_identity m); [|by intros [= _ <-]].
  case_decide; [by intros [= _ <-]|].
  intros E. apply txn_inv in E as [(u & -> & E)|[-> _]]; [|done].
  bound E s1 s2 Hget. injection Hget as <- <-. bound E u1 s3 Hm.
  assert (checkpoints s3 = checkpoints s ∧ capability_leases s3 = capability_leases s) as [<- <-].
  { destruct (Dict.get mh (manifests s)); [destruct (negb _)|]; by injection Hm as _ <-. }
  destruct (Dict.get run (runs s)).
  - case_decide; [done|]. case_decide; [done|]. by injection E as _ <-.
  - by injection E as _ <-.
Qed.
Lemma create_leases run m mh ih inputs o s r s' :
  create_run run m mh ih inputs o s = (r, s') → s'.(capability_leases) = s.(capability_leases).
Proof. intros E. by destruct (create_same _ _ _ _ _ _ _ _ _ E). Qed.
(** Minting and preparing touch only their own tables. *)
Definition same_log (s s' : store) : Prop :=
  s'.(checkpoints) = s.(checkpoints) ∧ s'.(capability_leases) = s.(capability_leases).
Lemma mint_once_same d creator id now s r s' : mint_once d creator id now s = (r, s') → same_log s s'.
Proof.
  unfold mint_once. intros E. apply jbind in E as [(s0 & s1 & H & E)|(e & [=] & _)]. injection H as <- <-.
  apply jbind in E as [(o & s1 & H & E)|(e & H & _)]; injection H as H <-; [|done].
  destruct o as [a|]; [by injection E as _ <-|].
  assert (∀ r1 s1, _insert_attestation (mkAttestation id d creator now) s = (r1, s1) → same_log s s1) as Hi.
  { intros r1 s1 H1. unfold _insert_attestation in H1.
    apply jbind in H1 as [(s2 & s3 & Hg & H1)|(? & Hg & _)]; [|done]. injection Hg as <- <-.
    apply jbind in H1 as [(o & s2 & Ho & H1)|(? & Ho & _)]; injection Ho as Ho <-; [|done].
    destruct o as [p|]; [case_decide; by injection H1 as _ <-|by injection H1 as _ <-]. }
  apply jbind in E as [(u & s1 & H1 & E)|(e & H1 & _)]; [injection E as _ <-|]; by eapply Hi.
Qed.
Lemma mint_same lease d now s r s' : mint_attestation lease d now s = (r, s') → same_log s s'.
Proof.
  unfold mint_attestation. cbv zeta. intros E. apply txn_inv in E as [(a & -> & E)|[-> _]]; [|done].
  bound E o s1 Hrow. apply mutation_row_inv in Hrow as [-> ->]. destruct (Dict.get _ _); [|done].
  destruct (negb _); [done|]. case_decide; [done|]. destruct (_ && _); [done|]. by eapply mint_once_same.
Qed.
Lemma mint_policy_same d now s r s' : mint_policy_attestation d now s = (r, s') → same_log s s'.
Proof.
  unfold mint_policy_attestation. destruct (negb _); [by intros [= _ <-]|].
  intros E. apply txn_inv in E as [(a & -> & E)|[-> _]]; [by eapply mint_once_same|done].
Qed.
Lemma prepare_same lease q s r s' : record_effect_prepared lease q s = (r, s') → same_log s s'.
Proof.
  unfold record_effect_prepared. cbv zeta. case_decide; [by intros [= _ <-]|].
  intros E. apply txn_inv in E as [(a & -> & E)|[-> _]]; [|done]. bound E o s1 Hrow.
  apply mutation_row_inv in Hrow as [-> ->]. destruct (Dict.get _ _) as [row|]; [|done].
  destruct (negb _); [done|]. case_decide; [done|]. bound E s2 s3 Hg. injection Hg as <- <-.
  bound E o s2 Ho. injection Ho as _ <-. destruct o as [[k row']|]; [by injection E as _ <-|].
  bound E u s2 Hc. injection Hc as _ <-. bound E u2 s2 Hmod. injection Hmod as <- <-.
  bound E s3 s4 Hget. injection Hget as <- <-. by injection E as _ <-.
Qed.
Lemma call_checkpoints c s :
  completes c = false → (run_jcall c s).2.(checkpoints) = s.(checkpoints).
Proof.
  intros Hc. destruct (run_jcall c s) as [r s'] eqn:E. simpl.
  assert (∀ lease ex st k path p x, written s lease ex st k path p x s' →
    (∀ n, match x n with WCheckpoint _ => False | _ => True end) → checkpoints s' = checkpoints s) as Hw.
  { intros lease ex st k path p x [(row & _ & _ & _ & ->)] Hx. specialize (Hx (S (next_event_seq row))).
    by destruct (x _). }
  destruct c; simpl in Hc, E; try done.
  - by destruct (create_same _ _ _ _ _ _ _ _ _ E).
  - apply unit_of_inv in E as (r0 & E & _).
    by apply claim_outcome in E as [[-> _]|(row & l & _ & _ & _ & _ & ->)].
  - apply unit_of_inv in E as (r0 & E & _). by apply heartbeat_outcome in E as [->|(row & _ & _ & ->)].
  - by apply release_outcome in E as [->|(row & _ & _ & ->)].
  - by apply cancel_outcome in E as [->|(row & _ & -> & _)].
  - apply transition_outcome in E as [->|?]; [done|by eapply Hw].
  - apply unit_of_inv in E as (r0 & E & _). apply append_outcome in E as [->|?]; [done|by eapply Hw].
  - apply lease_outcome in E as [->|(_ & ?)]; [done|by eapply Hw].
  - apply lease_transition_outcome in E as [->|(ls & p & ? & _)]; [done|by eapply Hw].
  - apply unit_of_inv in E as (r0 & E & _). by apply mint_same in E as [-> _].
  - apply unit_of_inv in E as (r0 & E & _). by apply mint_policy_same in E as [-> _].
  - apply unit_of_inv in E as (r0 & E & _). by apply prepare_same in E as [-> _].
  - apply unit_of_inv in E as (r0 & E & _).
    apply effect_outcome in E as [->|(k' & row & _ & _ & _ & _ & _ & _ & _ & ?)]; [done|by eapply Hw].
Qed.

Section obs.
Context (lease : RunLease).
Abbreviation run := (lease.(lease_run)) (only parsing).

(** ** The attempt's hold on its run *)
Definition cks (s : store) (path : ExecutionPath) : option Checkpoint :=
  Dict.get (run, path) s.(checkpoints).
(** No newer attempt has claimed the run. *)
Definition current (s : store) : Prop := run_epoch s run ≤ lease.(epoch).
(** The run has been claimed by this attempt, and by nobody else at its epoch. *)
Definition mine (s : store) : Prop :=
  ∃ r, Dict.get run s.(runs) = Some r ∧ lease.(epoch) ≤ r.(owner_epoch) ∧
    (r.(owner_epoch) = lease.(epoch) → r.(owner_id) = None ∨ r.(owner_id) = Some lease.(lease_owner)).

Lemma mine_step s s' : jstep s s' → mine s → mine s'.
Proof.
  intros Hstep (r & Hg & He & Ho).
  destruct Hstep as [h m Hnm|a _ _|q r0 _ _ _ _ _ _ _|run' mh ih inputs o Hn|run' r' o ep ex Hg' Hop|run' r' Hg'
                     |lease' r' st kind path p x Hg' _ _ _]; unfold mine; [by exists r..| | | |].
  - exists r. simpl. split; [by apply Dict.get_app_l|done].
  - simpl. rewrite Dict.get_set. case_decide as Hr; [|by exists r]. subst run'.
    assert (r' = r) as -> by congruence. eexists. split; [done|]. simpl.
    destruct Hop as [[-> [-> | ->]]|[-> _]]; (split; [lia|]); [done|by left|intros; lia].
  - simpl. rewrite Dict.get_set. case_decide as Hr; [|by exists r]. subst run'.
    assert (r' = r) as -> by congruence. by eexists.
  - rewrite get_runs_write. case_decide as Hr; [|by exists r].
    assert (r' = r) as -> by (rewrite <-Hr in Hg'; congruence). by eexists.
Qed.
Lemma mine_steps s s' : rtc jstep s s' → mine s → mine s'.
Proof. induction 1; eauto using mine_step. Qed.
Lemma current_steps s s' : rtc jstep s s' → current s' → current s.
Proof. unfold current. intros Hs%(λ H, run_epoch_steps _ _ run H). lia. Qed.

(** The attempt's own acquisition under a lease id is active. *)
Definition active (s : store) (id : string) : Prop :=
  ∃ l, lease_row s id lease.(epoch) = Some l ∧ l.(cl_run) = run ∧ l.(cl_state) = LeaseActive.

(** ** Observations *)

(** The store evolves by the store's own methods; as long as no newer attempt
    claims the run, only completions of paths in [P] appear, and only
    acquisitions in [A] become active. *)
Definition leaves (P : ExecutionPath → Prop) (A : string → Prop) (s s' : store) : Prop :=
  rtc jstep s s' ∧ (mine s → current s' →
    (∀ p, ¬ P p → cks s' p = cks s p) ∧ (∀ id, active s' id → active s id ∨ A id)).
#[global] Instance leaves_preorder P A : PreOrder (leaves P A).
Proof.
  split.
  - intros s. split; [done|]. intros _ _. split; [done|]. by left.
  - intros s1 s2 s3 [H1 C1] [H2 C2]. split; [by etrans|]. intros Hm Hc.
    destruct (C2 (mine_steps _ _ H1 Hm) Hc) as [C2p C2a].
    destruct (C1 Hm (current_steps _ _ H2 Hc)) as [C1p C1a]. split.
    + intros p Hp. by rewrite C2p, C1p.
    + intros id [Ha|Ha]%C2a; [by apply C1a|by right].
Qed.
Lemma leaves_mono (P Q : ExecutionPath → Prop) (A B : string → Prop) s s' :
  (∀ p, P p → Q p) → (∀ id, A id → B id) → leaves P A s s' → leaves Q B s s'.
Proof.
  intros HPQ HAB [H C]. split; [done|]. intros Hm Hc. destruct (C Hm Hc) as [C1 C2].
  split; [intros p Hp; apply C1; auto|]. intros id [?|?]%C2; auto.
Qed.
Definition nowhere (_ : ExecutionPath) : Prop := False.
Definition none (_ : string) : Prop := False.
Definition obs (P : ExecutionPath → Prop) : store → store → Prop := leaves P (λ _, True).
#[global] Instance obs_preorder P : PreOrder (obs P).
Proof. apply _. Qed.
Lemma obs_mono (P Q : ExecutionPath → Prop) s s' : (∀ p, P p → Q p) → obs P s s' → obs Q s s'.
Proof. intros HPQ. by apply leaves_mono. Qed.
Lemma obs_nowhere P s s' : obs nowhere s s' → obs P s s'.
Proof. by apply obs_mono. Qed.
Lemma leaves_obs P A s s' : leaves P A s s' → obs P s s'.
Proof. by apply leaves_mono. Qed.
Lemma obs_steps P s s' : obs P s s' → rtc jstep s s'.
Proof. by intros [? _]. Qed.
Lemma obs_same P s s' p : obs P s s' → mine s → current s' → ¬ P p → cks s' p = cks s p.
Proof. intros [_ H] Hm Hc. by apply H. Qed.

(** What other tasks and processes do: any lawful method, but nobody else
    completes a node or changes an acquisition under this attempt's fence. *)
Definition same_fence (l : RunLease) : Prop :=
  l.(lease_run) = run ∧ l.(lease_owner) = lease.(lease_owner) ∧ l.(epoch) = lease.(epoch).
Definition fenced_call (c : jcall) : option RunLease :=
  match c with JComplete l _ | JLease l _ | JLeaseTransition l _ _ _ _ _ => Some l | _ => None end.
Definition foreign (c : jcall) : Prop :=
  lawful c = true ∧ ∀ l, fenced_call c = Some l → ¬ same_fence l.

Lemma held_fence s l r s' row :
  mine s → Dict.get run s.(runs) = Some row → holds l row = true → l.(lease_run) = run →
  Dict.get run s'.(runs) = Some r → r.(owner_epoch) = row.(owner_epoch) → current s' → same_fence l.
Proof.
  intros (row0 & Hg & He & Ho) Hg' Hh Hr Hrow Hep Hc. assert (row0 = row) as -> by congruence.
  unfold holds in Hh. apply andb_true_iff in Hh as [H1%bool_decide_eq_true H2%bool_decide_eq_true].
  unfold current, run_epoch in Hc. rewrite Hrow in Hc.
  destruct (Ho ltac:(lia)) as [Hn|Hn]; [congruence|]. split; [done|]. split; [congruence|lia].
Qed.
Lemma written_same_fence s l ex st kind path p x s' :
  mine s → current s' → written s l ex st kind path p x s' → l.(lease_run) = run → same_fence l.
Proof.
  intros Hm Hc [(row & Hg & _ & Hh & ->)] Hr. rewrite Hr in Hg.
  eapply (held_fence s l (row_status (st row.(run_status)) (row_seq (S row.(next_event_seq)) row)) _ row);
    [done|done|done|done| |done|exact Hc]. rewrite get_runs_write. by rewrite decide_True.
Qed.
Lemma lease_row_app s id ep ls l :
  s.(capability_leases) = ls →
  lease_row (set_leases (ls ++ [l]) s) id ep
  = match lease_row s id ep with
    | Some l0 => Some l0
    | None => if decide (l.(lease_id) = id ∧ l.(acquisition_epoch) = ep) then Some l else None
    end.
Proof.
  intros <-. unfold lease_row. simpl. rewrite filter_app. destruct (filter _ (capability_leases s)); [|done].
  simpl. rewrite filter_cons, filter_nil. by case_decide.
Qed.
Lemma foreign_leases l cl s s' r id :
  ¬ same_fence l → mine s → current s' → record_capability_lease l cl s = (r, s') → active s' id → active s id.
Proof.
  intros Hf Hm Hc E (l0 & Hl & Hrun & Hst).
  assert (s' = s ∨ cl.(cl_run) = l.(lease_run) ∧ lease_row s cl.(lease_id) cl.(acquisition_epoch) = None ∧
    written s l [RUNNING] (λ st, st) "LeaseAcquired" None (Some (lease_payload cl))
      (λ _, WLeases (s.(capability_leases) ++ [cl])) s')
    as [->|(Hcl & Hn & Hw)].
  { destruct (decide (cl.(cl_run) = l.(lease_run))).
    - apply lease_outcome in E as [?|[? ?]]; [by left|by right].
    - unfold record_capability_lease in E. rewrite decide_True in E by tauto. injection E as _ <-. by left. }
  { by exists l0. }
  destruct (decide (l.(lease_run) = run)) as [Hr|Hr]; [exfalso; eapply Hf, written_same_fence; eauto|].
  destruct Hw as [(row & _ & _ & _ & ->)]. exists l0. split; [|done].
  unfold extend in Hl. rewrite lease_row_app in Hl by done.
  change (lease_row (add_event _ _) id (epoch lease)) with (lease_row s id (epoch lease)) in Hl.
  destruct (lease_row s id (epoch lease)); [done|]. case_decide; [|done]. congruence.
Qed.
Lemma lease_row_map s f id ep :
  (∀ l, (f l).(lease_id) = l.(lease_id) ∧ (f l).(acquisition_epoch) = l.(acquisition_epoch)) →
  lease_row (set_leases (f <$> s.(capability_leases)) s) id ep = f <$> lease_row s id ep.
Proof.
  intros Hf. unfold lease_row. simpl. induction (capability_leases s) as [|l ls IH]; [done|].
  rewrite fmap_cons, !filter_cons. destruct (Hf l) as [-> ->]. by case_decide.
Qed.
(** A transition touches the rows of one acquisition of its own run. *)
Lemma transition_rows l id_ ep ex t d s r s' :
  transition_capability_lease l id_ ep ex t d s = (r, s') →
  s' = s ∨ ∃ stored, lease_row s id_ ep = Some stored ∧ stored.(cl_run) = l.(lease_run) ∧
    (∀ id ep', lease_row s' id ep' = (λ x, if decide (x.(lease_id) = id_ ∧ x.(acquisition_epoch) = ep)
                                          then lease_at t d x else x) <$> lease_row s id ep') ∧
    ∃ p, written s l [RUNNING] (λ st, st) "LeaseTransition" None p (λ _, WLeases s'.(capability_leases)) s'.
Proof.
  unfold transition_capability_lease. intros E. txn E e.
  bound E s2 s3 Hget. injection Hget as <- <-.
  destruct (lease_row s id_ ep) as [stored|] eqn:Es; [|done].
  destruct (decide (cl_run stored ≠ lease_run l)) as [|Hrun]; [done|].
  case_decide; [injection E as _ <-; by left|]. do 4 (case_decide; [done|]).
  bound E n s1 Ha. apply allocate_inv in Ha as (row & Hg & Hst & Hh & -> & ->).
  bound E u s5 Hm. injection Hm as _ <-. bound E ev s6 Hi. apply insert_event_inv in Hi as ->.
  injection E as _ <-. right. exists stored. split; [done|]. split; [by apply dec_stable|]. split.
  - intros id ep'. apply (lease_row_map s). intros x. by case_decide.
  - eexists. split. exists row. by split_and!.
Qed.
Lemma lease_row_elem s id ep l : lease_row s id ep = Some l → l.(lease_id) = id ∧ l.(acquisition_epoch) = ep.
Proof.
  unfold lease_row. intros Hl. apply head_Some_elem_of, list_elem_of_filter in Hl as [? _]. done.
Qed.
Lemma foreign_transition l id_ ep ex t d s s' r id :
  ¬ same_fence l → mine s → current s' →
  transition_capability_lease l id_ ep ex t d s = (r, s') → active s' id → active s id.
Proof.
  intros Hf Hm Hc E (l0 & Hl & Hrun & Hst).
  apply transition_rows in E as [->|(stored & Hs & Hsr & Hmap & p & Hw)]; [by exists l0|].
  destruct (decide (l.(lease_run) = run)) as [Hr|Hr]; [exfalso; by eapply Hf, written_same_fence|].
  rewrite Hmap in Hl. destruct (lease_row s id (epoch lease)) as [x|] eqn:Ex; [|done]. injection Hl as <-.
  revert Hrun Hst. case_decide as Hd; [|by exists x]. simpl. intros Hx. exfalso.
  destruct (lease_row_elem _ _ _ _ Ex) as [Hxi Hxe]. destruct Hd as [Hd1 Hd2].
  assert (lease_row s id_ ep = Some x) as Hx' by congruence. congruence.
Qed.
(** Closing an acquisition makes none active. *)
Lemma closing_leases l id_ ep ex d s s' r id :
  transition_capability_lease l id_ ep ex LeaseClosed d s = (r, s') → active s' id → active s id.
Proof.
  intros E (l0 & Hl & Hrun & Hst).
  apply transition_rows in E as [->|(stored & _ & _ & Hmap & _)]; [by exists l0|].
  rewrite Hmap in Hl. destruct (lease_row s id (epoch lease)) as [x|] eqn:Ex; [|done]. injection Hl as <-.
  revert Hrun Hst. case_decide as Hd; [done|by exists x].
Qed.
(** The methods that are not about leases. *)
Lemma call_leases c s :
  match c with JLease _ _ | JLeaseTransition _ _ _ _ _ _ => false | _ => true end = true →
  (run_jcall c s).2.(capability_leases) = s.(capability_leases).
Proof.
  intros Hc. destruct (run_jcall c s) as [r s'] eqn:E. simpl.
  assert (∀ l ex st k path p x, written s l ex st k path p x s' →
    (∀ n, match x n with WLeases _ => False | _ => True end) → capability_leases s' = capability_leases s) as Hw.
  { intros l ex st k path p x [(row & _ & _ & _ & ->)] Hx. specialize (Hx (S (next_event_seq row))).
    by destruct (x _). }
  destruct c; simpl in Hc, E; try done.
  - by eapply create_leases.
  - apply unit_of_inv in E as (r0 & E & _).
    by apply claim_outcome in E as [[-> _]|(row & l & _ & _ & _ & _ & ->)].
  - apply unit_of_inv in E as (r0 & E & _). by apply heartbeat_outcome in E as [->|(row & _ & _ & ->)].
  - by apply release_outcome in E as [->|(row & _ & _ & ->)].
  - by apply cancel_outcome in E as [->|(row & _ & -> & _)].
  - apply transition_outcome in E as [->|?]; [done|by eapply Hw].
  - apply unit_of_inv in E as (r0 & E & _). apply append_outcome in E as [->|?]; [done|by eapply Hw].
  - apply complete_outcome in E as [->|(_ & _ & ?)]; [done|by eapply Hw].
  - apply unit_of_inv in E as (r0 & E & _). by apply mint_same in E as [_ ->].
  - apply unit_of_inv in E as (r0 & E & _). by apply mint_policy_same in E as [_ ->].
  - apply unit_of_inv in E as (r0 & E & _). by apply prepare_same in E as [_ ->].
  - apply unit_of_inv in E as (r0 & E & _).
    apply effect_outcome in E as [->|(k' & row & _ & _ & _ & _ & _ & _ & _ & ?)]; [done|by eapply Hw].
Qed.
Lemma active_same s s' id : s'.(capability_leases) = s.(capability_leases) → active s' id → active s id.
Proof. intros H. unfold active, lease_row. by rewrite H. Qed.

Lemma foreign_leaves c s : foreign c → leaves nowhere none s (run_jcall c s).2.
Proof.
  intros [Hl Hf]. split.
  { destruct (run_jcall c s) as [r s'] eqn:E. by eapply jcall_steps. }
  intros Hm Hcur. split.
  - intros p _. unfold cks. destruct (completes c) eqn:Hc; [|by rewrite call_checkpoints].
    destruct c as [| | | | | | |l c| | | | | |]; try done. simpl in *.
    destruct (record_completion l c s) as [res s'] eqn:E. simpl in *.
    apply complete_outcome in E as [->|(Hrun & Hn & Hw)]; [done|].
    destruct (decide (lease_run l = run)) as [Hr|Hne].
    { exfalso. eapply (Hf l); [done|]. by eapply written_same_fence. }
    destruct Hw as [(row & _ & _ & _ & ->)]. simpl.
    destruct (Dict.get (run, p) (checkpoints s)) as [c'|] eqn:Eg; [by apply Dict.get_app_l|].
    apply Dict.get_None in Eg. apply Dict.get_None. unfold Dict.keys in *. rewrite fmap_app.
    intros [?|Hin]%elem_of_app; [done|]. apply list_elem_of_singleton in Hin. simpl in Hin. congruence.
  - intros id Ha. left.
    destruct (match c with JLease _ _ | JLeaseTransition _ _ _ _ _ _ => false | _ => true end) eqn:Ec.
    { eapply active_same; [|exact Ha]. by apply call_leases. }
    destruct c as [| | | | | | | |l cl|l id_ ep ex t d| | | |]; try done; simpl in *.
    + destruct (record_capability_lease l cl s) as [r s'] eqn:E. by eapply (foreign_leases l); [apply Hf|..].
    + destruct (transition_capability_lease _ _ _ _ _ _ s) as [r s'] eqn:E.
      by eapply (foreign_transition l); [apply Hf|..].
Qed.
Lemma foreign_calls_leaves cs s : Forall foreign cs → leaves nowhere none s (run_jcalls cs s).
Proof.
  intros H. revert s. induction H as [|c cs Hc _ IH]; intros s; [done|].
  simpl. etrans; [by apply foreign_leaves|apply IH].
Qed.
(** The attempt's own calls. *)
Lemma own_leaves c s :
  lawful c = true →
  match c with JComplete _ _ | JLease _ _ => false | JLeaseTransition _ _ _ _ t _ => bool_decide (t = LeaseClosed)
          | _ => true end = true →
  leaves nowhere none s (run_jcall c s).2.
Proof.
  intros Hl Hc. split.
  { destruct (run_jcall c s) as [r s'] eqn:E. by eapply jcall_steps. }
  intros Hm Hcur. split.
  - intros p _. unfold cks. rewrite call_checkpoints; [done|by destruct c].
  - intros id Ha. left. destruct c as [| | | | | | | | |l id_ ep ex t d| | | |]; try done.
    1-7,9-12: eapply active_same; [|exact Ha]; by apply call_leases.
    apply bool_decide_eq_true in Hc as ->. simpl in Ha.
    destruct (transition_capability_lease _ _ _ _ _ _ s) as [r s'] eqn:E. by eapply closing_leases.
Qed.
Lemma lawful_obs P c s : lawful c = true → completes c = false → obs P s (run_jcall c s).2.
Proof.
  intros Hl Hc. split.
  { destruct (run_jcall c s) as [r s'] eqn:E. by eapply jcall_steps. }
  intros _ _. split; [|by right]. intros p _. unfold cks. by rewrite call_checkpoints.
Qed.

Definition obs_out (P : ExecutionPath → Prop) (o o' : outside) : Prop := obs P o.(o_store) o'.(o_store).
#[global] Instance obs_out_preorder P : PreOrder (obs_out P).
Proof. split; [intros o; unfold obs_out; reflexivity|]. intros o1 o2 o3 H1 H2. unfold obs_out. by etrans. Qed.
(** Neither a completion nor an acquisition of the attempt appears. *)
Definition quiet_out (o o' : outside) : Prop := leaves nowhere none o.(o_store) o'.(o_store).
#[global] Instance quiet_out_preorder : PreOrder quiet_out.
Proof. split; [intros o; unfold quiet_out; reflexivity|]. intros o1 o2 o3 H1 H2. unfold quiet_out. by etrans. Qed.
Lemma quiet_obs P o o' : quiet_out o o' → obs_out P o o'.
Proof. by apply leaves_mono. Qed.
(** Nothing has failed, is blocked or waits. *)
Definition clean (w : world) : Prop := w.(w_failures) = [] ∧ w.(w_blocked) = [] ∧ w.(w_parked) = [].
Definition obs_world (P : ExecutionPath → Prop) (w w' : world) : Prop :=
  obs_out P w.(w_out) w'.(w_out) ∧ (clean w' → clean w).
#[global] Instance obs_world_preorder P : PreOrder (obs_world P).
Proof.
  split; [intros w; split; [reflexivity|done]|]. intros w1 w2 w3 [H1 C1] [H2 C2]. split; [by etrans|]. auto.
Qed.

(** ** Computations that respect them *)
Lemma keeps_mono {A} (P Q : ExecutionPath → Prop) (m : O A) :
  (∀ p, P p → Q p) → keeps (obs_out P) m → keeps (obs_out Q) m.
Proof. intros HPQ H o. eapply obs_mono; [exact HPQ|apply H]. Qed.
Lemma keeps_journal {A} P (m : J A) : keeps (obs P) m → keeps (obs_out P) (journal m).
Proof. intros H o. specialize (H o.(o_store)). unfold journal. destruct (m _). exact H. Qed.
Lemma keeps_out {A} P (m : O A) : keeps (obs_out P) m → keeps (obs_world P) (out m).
Proof. intros H w. specialize (H w.(w_out)). unfold out. destruct (m _). by split. Qed.
Lemma keeps_of_call {A} P (m : J A) c :
  (∀ s, (m s).2 = (run_jcall c s).2) → lawful c = true → completes c = false → keeps (obs P) m.
Proof. intros Hm Hl Hc s. rewrite Hm. by apply lawful_obs. Qed.
Lemma unit_of_state {A} (m : J A) s : (unit_of m s).2 = (m s).2.
Proof. unfold unit_of, ebind, eret. by destruct (m s) as [[a|e] s']. Qed.
(** A read returns without touching the store. *)
Lemma keeps_read {A} P (m : J A) : (∀ s, (m s).2 = s) → keeps (obs P) m.
Proof. intros Hm s. by rewrite Hm. Qed.
Lemma mutation_row_state r s : (_run_mutation_row r s).2 = s.
Proof. destruct (_run_mutation_row r s) eqn:E. by apply mutation_row_inv in E as [-> _]. Qed.
Lemma keeps_mutation_row P r : keeps (obs P) (_run_mutation_row r).
Proof. apply keeps_read. intros s. apply mutation_row_state. Qed.

Lemma quiet_of_call {A} (m : J A) c :
  (∀ s, (m s).2 = (run_jcall c s).2) → lawful c = true →
  match c with JComplete _ _ | JLease _ _ => false | JLeaseTransition _ _ _ _ t _ => bool_decide (t = LeaseClosed)
          | _ => true end = true → keeps quiet_out (journal m).
Proof.
  intros Hm Hl Hc o. unfold journal, quiet_out. specialize (Hm o.(o_store)).
  destruct (m (o_store o)) as [r s']. simpl in *. subst. by apply own_leaves.
Qed.
Lemma keeps_quiet {A} P (m : O A) : keeps quiet_out m → keeps (obs_out P) m.
Proof. intros H o. apply quiet_obs, H. Qed.
Lemma quiet_log kind path p :
  reserved kind = false → payload_key p = None → keeps quiet_out (log lease kind path p).
Proof.
  intros Hk Hp. unfold log. apply keeps_bind; [apply _| |intros; apply keeps_eret, _].
  apply (quiet_of_call _ (JAppend lease kind path p)); [|by apply andb_true_iff; split; [apply bool_decide_eq_true|apply negb_true_iff]|done].
  intros s. symmetry. apply unit_of_state.
Qed.
Lemma keeps_log P kind path p :
  reserved kind = false → payload_key p = None → keeps (obs_out P) (log lease kind path p).
Proof. intros Hk Hp. by apply keeps_quiet, quiet_log. Qed.
Lemma keeps_transition P expected target kind p :
  lawful (JTransition lease expected target kind p) = true →
  keeps (obs P) (transition_run lease expected target kind p).
Proof. intros Hl. by eapply (keeps_of_call _ _ (JTransition lease expected target kind p)). Qed.
Lemma keeps_checkpoint P path : keeps (obs P) (checkpoint run path).
Proof. by apply keeps_read. Qed.
Lemma keeps_loop_matrix P l : keeps (obs P) (loop_matrix run l).
Proof.
  unfold loop_matrix. apply keeps_emap; [apply _|]. intros index _.
  apply keeps_emap; [apply _|]. intros scope _. apply keeps_checkpoint.
Qed.
Lemma keeps_inspect {N} P l (by_scope : list (list string * _Instance N)) bs outer rt :
  keeps (obs P) (_inspect_loop_history run l by_scope bs outer rt).
Proof.
  unfold _inspect_loop_history. apply keeps_bind; [apply _|apply keeps_loop_matrix|].
  intros matrix. apply keeps_lift, _.
Qed.
Lemma keeps_control P : keeps (obs_out P) (_check_run_control lease).
Proof. intros o. unfold obs_out. reflexivity. Qed.
End obs.

(** ** The laws of the environment and of one invocation *)
Class EnvLaw (lease : RunLease) (env : nat → store → weather) : Prop :=
  env_foreign n s : ∃ cs, Forall (foreign lease) cs ∧ (env n s).(later) = run_jcalls cs s.
(** [_invoke] completes at most its own path; when it returns outputs, its
    completion is durable with these outputs, this input hash and the version
    it ran. *)
Class InvokeLaws {N} (lease : RunLease)
    (invoke : _Instance N → ExecutionPath → list (string * json) → Digest → O (list (string * json))) : Prop := {
  invoke_obs i path inputs h : keeps (obs_out lease (eq path)) (invoke i path inputs h);
  invoke_durable i path inputs h o outputs o' :
    good o.(o_store) → mine lease o.(o_store) → current lease o'.(o_store) →
    cks lease o.(o_store) path = None → invoke i path inputs h o = (Ok outputs, o') →
    ∃ c, cks lease o'.(o_store) path = Some c ∧ contradicts c h i = false ∧ payloads c = outputs;
}.
Class ReconcileLaw (lease : RunLease)
    (reconcile : CapabilityBinding → CapabilityLease → disposition → O unit) : Prop :=
  reconcile_obs b row d : keeps (obs_out lease nowhere) (reconcile b row d).
