(* ===== verification/BoundarySpec.v ===== *)
(** The computations of one invocation that complete nothing and acquire
    nothing, and the effect boundary among them. *)

From S2P Require Import Prelude Identity Address Graph Component Capability Manifest Message.
From S2P Require Import Run Effect Journal EffectStore JournalSpec EffectSpec Units Walk Boundary WalkSpec.

(** ** Quiet computations *)
Section quiet.
Context (lease : RunLease).
Abbreviation quiet m := (keeps (quiet_out lease) m) (only parsing).

Lemma quiet_eret {A} (a : A) : keeps (E:=exn) (quiet_out lease) (eret a).
Proof. apply keeps_eret, _. Qed.
Lemma quiet_raise {A} (e : exn) : quiet (raise (A:=A) e).
Proof. apply keeps_raise, _. Qed.
Lemma quiet_lift {A} (r : result exn A) : quiet (lift r).
Proof. apply keeps_lift, _. Qed.
Lemma quiet_bind {A B} (m : O A) (f : A → O B) : quiet m → (∀ a, quiet (f a)) → quiet (ebind m f).
Proof. intros Hm Hf. apply keeps_bind; [apply _|done|done]. Qed.
(** A continuation may use what its argument was returned by. *)
Lemma quiet_bind_ret {A B} (m : O A) (f : A → O B) :
  quiet m → (∀ a o o', m o = (Ok a, o') → quiet (f a)) → quiet (ebind m f).
Proof.
  intros Hm Hf o. specialize (Hm o). unfold ebind. destruct (m o) as [[a|e] o1] eqn:E; [|exact Hm].
  etrans; [exact Hm|]. by eapply Hf.
Qed.
Lemma quiet_catch {A} (m : O A) h : quiet m → (∀ e, quiet (h e)) → quiet (catch m h).
Proof. intros Hm Hf. apply keeps_catch; [apply _|done|done]. Qed.
Lemma quiet_attempt {A} (m : O A) : quiet m → quiet (attempt m).
Proof. intros H o. specialize (H o). unfold attempt. destruct (m o). exact H. Qed.
Lemma quiet_ewhen b (m : O unit) : quiet m → quiet (ewhen b m).
Proof. destruct b; [done|]. intros _. apply quiet_eret. Qed.
Lemma quiet_control : quiet (_check_run_control lease).
Proof. intros o. simpl. reflexivity. Qed.
Lemma quiet_read {A} (m : J A) : (∀ s, (m s).2 = s) → quiet (journal m).
Proof.
  intros H o. unfold journal. specialize (H o.(o_store)). destruct (m _) as [r s']. simpl in *. subst s'.
  unfold quiet_out. simpl. reflexivity.
Qed.
End quiet.
Create HintDb quiet.
#[export] Hint Resolve quiet_eret quiet_raise quiet_lift quiet_catch quiet_attempt quiet_ewhen quiet_log quiet_control
  : quiet.
Ltac quiet := repeat first
  [ progress cbv zeta | solve [eauto with quiet]
  | apply quiet_bind; [|intros ?] | apply quiet_attempt | apply quiet_catch; [|intros ?] | apply quiet_ewhen
  | match goal with |- keeps _ (match ?x with _ => _ end) => destruct x end ].

(** ** The store's side of an effect *)
(** Whatever [record_effect_prepared] returns, the store holds under its key. *)
Lemma prepared_stored lease q s q' s' :
  record_effect_prepared lease q s = (Ok q', s') →
  json_ok (JObj q'.(rq_subject)) = true ∧ q'.(rq_key) = q.(rq_key) ∧ asked s' q.(rq_key) = Some q'.
Proof.
  unfold record_effect_prepared. cbv zeta. case_decide as Hq; [done|]. intros E.
  apply txn_inv in E as [(a & [= <-] & E)|[_ [e [=]]]]. bound E o s1 Hrow.
  apply mutation_row_inv in Hrow as [-> ->]. destruct (Dict.get _ _) as [row|]; [|done].
  destruct (negb _); [done|]. case_decide; [done|]. bound E s2 s3 Hg. injection Hg as <- <-.
  bound E o s2 Ho. injection Ho as Ho <-.
  assert (∀ s k row r, _effect_request_from_row s k row = Ok r →
    json_ok (JObj r.(rq_subject)) = true ∧ r = ef_request row ∧ rq_key r = k) as Hread.
  { intros s0 k row0 r. unfold _effect_request_from_row. cbv zeta. destruct (Dict.get _ _); [|done]. intros H1.
    apply result_bind_ok in H1 as (? & _ & H1). case_decide as Hd; [done|].
    apply result_bind_ok in H1 as (known & _ & H1). destruct known; [|done]. cbn [negb] in H1.
    apply result_bind_ok in H1 as (? & _ & H1). apply result_bind_ok in H1 as (? & _ & [= <-]).
    split_and!; [|done|apply dec_stable; tauto]. apply not_false_iff_true. intros ?. apply Hd. by left. }
  destruct o as [[k row']|].
  - injection E as E <-. apply Hread in E as (Hj & -> & Hk).
    unfold _effect_row in Ho. destruct (filter _ (effects s)) as [|[k' row''] [|]] eqn:Ef; [by case_decide| |done].
    injection Ho as -> ->.
    assert (k = rq_key q) as Hkq.
    { assert ((k, row') ∈ filter (λ kr : Digest * effect_row, kr.1 = rq_key q ∨ (kr.2).(ef_request).(rq_key) = rq_key q) (effects s))
        as Hin by (rewrite Ef; by apply list_elem_of_singleton).
      apply list_elem_of_filter in Hin as [[?|?] _]; simpl in *; congruence. }
    split; [done|]. split; [congruence|]. unfold asked. rewrite Hkq in Ef. apply get_of_filter in Ef. by rewrite Ef.
  - bound E u s2 Hc. injection Hc as _ <-. bound E u2 s2 Hmod. injection Hmod as <- <-.
    bound E s3 s4 Hget. injection Hget as <- <-. injection E as E <-. apply Hread in E as (Hj & -> & Hk).
    split; [done|]. split; [done|]. unfold asked. simpl. by rewrite Dict.get_set_eq.
Qed.
Lemma quiet_prepare lease q : keeps (quiet_out lease) (journal (record_effect_prepared lease q)).
Proof.
  apply (quiet_of_call lease _ (JPrepare lease q)); [|done|done]. intros s. symmetry. apply unit_of_state.
Qed.
Lemma quiet_outcome lease q receipt kind :
  json_ok (JObj q.(rq_subject)) = true → keeps (quiet_out lease) (journal (record_effect_outcome lease q receipt kind)).
Proof.
  intros Hj. apply (quiet_of_call lease _ (JOutcome lease q receipt kind)); [|done|done].
  intros s. symmetry. apply unit_of_state.
Qed.
Lemma quiet_mint lease d now : keeps (quiet_out lease) (journal (mint_attestation lease d now)).
Proof.
  apply (quiet_of_call lease _ (JMint lease d now)); [|done|done]. intros s. symmetry. apply unit_of_state.
Qed.
Lemma quiet_receipt lease key : keeps (quiet_out lease) (journal (receipt_for key)).
Proof. by apply quiet_read. Qed.
Lemma quiet_load_attestation lease id : keeps (quiet_out lease) (journal (load_attestation id)).
Proof. by apply quiet_read. Qed.
Lemma quiet_deduplicated lease path kind : keeps (quiet_out lease) (deduplicated lease path kind).
Proof. by apply quiet_log. Qed.
#[export] Hint Resolve quiet_prepare quiet_outcome quiet_mint quiet_receipt quiet_load_attestation quiet_deduplicated
  : quiet.

(** ** The boundary and the exchange *)
(** An adapter's methods leave completions and acquisitions of this attempt
    alone. *)
Class AdapterLaws (lease : RunLease) (effects : string → option EffectAdapter) : Prop := {
  adapter_execute kind a q : effects kind = Some a → keeps (quiet_out lease) (a.(ad_execute) q);
  adapter_reconcile kind a q : effects kind = Some a → keeps (quiet_out lease) (a.(ad_reconcile) q);
  adapter_simulate kind a q : effects kind = Some a → keeps (quiet_out lease) (a.(ad_simulate) q);
}.
(** So do a transport's. *)
Record channel_quiet (lease : RunLease) (c : Channel) : Prop := {
  quiet_append i id : keeps (quiet_out lease) (c.(ch_append_request) i id);
  quiet_message id : keeps (quiet_out lease) (c.(ch_message) id);
  quiet_reply id : keeps (quiet_out lease) (c.(ch_reply_for) id);
}.
Section boundary.
Context (lease : RunLease) (manifest : Digest) (path : ExecutionPath) (mode : EffectMode).
Context (effects : string → option EffectAdapter) `{!AdapterLaws lease effects}.
Abbreviation quiet m := (keeps (quiet_out lease) m) (only parsing).

Lemma quiet_terminal kind key : quiet (terminal_receipt lease path mode kind key).
Proof. unfold terminal_receipt. quiet. Qed.
Lemma quiet_record_outcome kind q receipt event_kind :
  json_ok (JObj q.(rq_subject)) = true → quiet (record_outcome lease path kind q receipt event_kind).
Proof. intros Hj. unfold record_outcome. quiet. Qed.
Hint Resolve quiet_terminal quiet_record_outcome : quiet.
Lemma quiet_perform kind a q :
  effects kind = Some a → json_ok (JObj q.(rq_subject)) = true → quiet (perform lease path mode kind a q).
Proof.
  intros Ha Hj. unfold perform. apply quiet_bind; [destruct mode; [by eapply adapter_reconcile|quiet]|].
  intros [receipt|]; [quiet|]. apply quiet_bind; [quiet|intros _]. apply quiet_bind; [|quiet].
  destruct mode; [by eapply adapter_execute|]. destruct (simulation _); [by eapply adapter_simulate|quiet].
Qed.
Lemma quiet_boundary kind subject attestation :
  quiet (_effect_boundary lease manifest path mode effects kind subject attestation).
Proof.
  unfold _effect_boundary. apply quiet_bind; [quiet|intros _].
  destruct (json_value subject) as [[| | | | | |normalized]|]; try solve [quiet]. cbv zeta.
  apply quiet_bind; [quiet|intros existing]. destruct existing; [quiet|].
  destruct (effects kind) as [a|] eqn:Ha; [|quiet].
  apply quiet_bind; [quiet|intros _]. apply quiet_bind_ret; [quiet|intros request o o' E].
  apply quiet_bind; [quiet|intros raced]. destruct raced; [quiet|].
  apply quiet_perform; [done|]. unfold journal in E.
  destruct (record_effect_prepared _ _ _) as [[q|e] s'] eqn:Ep; [|done]. injection E as -> _.
  by destruct (prepared_stored _ _ _ _ _ Ep).
Qed.
Lemma quiet_ask utc_now effect b payload_ :
  (∀ k s a, quiet (effect k s a)) → channel_quiet lease b.(bc_channel) →
  quiet (ask lease manifest path utc_now effect b payload_).
Proof.
  intros He Hc. unfold ask. apply quiet_bind; [quiet|intros i].
  apply quiet_bind; [intros o; apply quiet_mint|intros a]. apply quiet_bind; [apply He|intros _].
  apply quiet_bind; [by apply quiet_reply|]. intros [r|]; [|quiet]. case_decide; quiet.
Qed.
End boundary.

(** The channel send adapter is one. *)
Lemma send_adapter_laws lease (catalog : string * string → option Channel) effects :
  (∀ e c, catalog e = Some c → channel_quiet lease c) →
  (∀ kind a, effects kind = Some a → a = ChannelSendEffect.adapter catalog) → AdapterLaws lease effects.
Proof.
  intros Hc Ha.
  assert (∀ q i, keeps (quiet_out lease) (ChannelSendEffect._verified_attestation q i)) as Hv.
  { intros q i. unfold ChannelSendEffect._verified_attestation. destruct (rq_attestation q); quiet. }
  assert (∀ i c o o', lift (S:=outside) (ChannelSendEffect._channel catalog i) o = (Ok c, o') → channel_quiet lease c) as Hch.
  { intros i c o o'. unfold ChannelSendEffect._channel, lift. destruct (catalog _) as [c'|] eqn:E; [|done].
    intros [= <- _]. by eapply Hc. }
  split; intros kind a q ->%Ha; simpl.
  - unfold ChannelSendEffect.execute. apply quiet_bind; [quiet|intros i].
    apply quiet_bind_ret; [quiet|intros c o o' E%Hch]. apply quiet_bind; [apply Hv|intros id].
    apply quiet_bind; [by apply quiet_append|quiet].
  - unfold ChannelSendEffect.reconcile. apply quiet_bind; [quiet|intros i].
    apply quiet_bind_ret; [quiet|intros c o o' E%Hch]. apply quiet_bind; [by apply quiet_message|].
    intros [m|]; [|quiet]. apply quiet_bind; [apply Hv|intros id]. apply quiet_bind; [by apply quiet_append|quiet].
  - unfold ChannelSendEffect.simulate. quiet.
Qed.
