(* ===== verification/BoundaryLaws.v ===== *)
(** The laws of effects: a settled effect stays settled, nothing outside is asked
    before the store holds the request, and a message is sent only under its
    proof. *)

From Stdlib Require Import Ascii.
From S2P Require Import Prelude Identity Address Graph Component Capability Manifest Message Fixture.
From S2P Require Import Run Effect Journal EffectStore JournalSpec EffectSpec JournalLaws Units Walk Boundary.
From S2P Require Import WalkSpec BoundarySpec.

(** ** The store's outcome operation, on stores that histories reach *)
Lemma history_facts cs : forallb lawful cs = true → good (run_jcalls cs new_store) ∧ facts (run_jcalls cs new_store).
Proof.
  intros Hl. pose proof (jcalls_steps cs new_store Hl) as Hs.
  split; [eapply good_steps; [exact Hs|apply good_new]|eapply facts_steps; [exact Hs|apply facts_new]].
Qed.
(** Past its guards, the operation on what the store has under the key. *)
Lemma outcome_reads lease q receipt kind s :
  good s → facts s → 
  (∃ e, record_effect_outcome lease q receipt kind s = (Raise e, s)) ∨
  ∃ row, Dict.get q.(rq_key) s.(effects) = Some row ∧
    record_effect_outcome lease q receipt kind s = _txn (
      match ef_receipt row with
      | Some (prior, _, _) => if same_receipt prior receipt then eret AlreadyRecorded
                              else raise (JournalDamaged (DifferentReceipt q.(rq_key)))
      | None =>
          let* seq_ := _allocate_seq lease [RUNNING] in
          modify (set_effect q.(rq_key) (mkEffect row.(ef_run) row.(ef_request)
                    (Some (receipt, lease.(lease_run), seq_))));;;
          _insert_event lease.(lease_run) seq_ kind (Some q.(rq_path))
            (Some (PMembers (_effect_outcome_payload q receipt)));;;
          eret Recorded
      end) s.
Proof.
  intros Hg Hf. unfold record_effect_outcome. case_decide; [by left; eexists|].
  case_decide; [by left; eexists|]. unfold _txn at 1 2. rewrite (ebind_eq get _ s s s eq_refl).
  erewrite ebind_eq by (unfold lift; by rewrite effect_row_good).
  destruct (Dict.get (rq_key q) (effects s)) as [row|] eqn:Hr; [|left; by eexists]. cbn [fmap option_fmap option_map].
  erewrite ebind_eq by (unfold lift; by rewrite (effect_request_good s _ row)).
  destruct (same_request (ef_request row) q); [|left; by eexists]. cbn [negb].
  right. exists row. split; [done|]. destruct (ef_receipt row) as [[[prior run] n]|] eqn:Hp; [|done].
  destruct (f_row _ Hf _ (Dict.get_elem _ _ _ Hr)) as [_ (_ & _ & _ & _ & _ & Hrc)].
  unfold _effect_receipt_from_row. rewrite decide_False by (intros Hne; eapply Hne, Hrc, Hp). done.
Qed.
(** A closed effect is answered as before, or refused; never written. *)
Lemma outcome_closed lease q receipt kind s prior :
  good s → facts s → receipt_in s q.(rq_key) = Some prior →
  (∃ e, record_effect_outcome lease q receipt kind s = (Raise e, s)) ∨
  record_effect_outcome lease q receipt kind s = (Ok AlreadyRecorded, s) ∧ same_receipt prior receipt = true.
Proof.
  intros Hg Hf Hp. destruct (outcome_reads lease q receipt kind s Hg Hf) as [He|(row & Hr & ->)]; [by left|].
  unfold receipt_in in Hp. rewrite Hr in Hp. simpl in Hp.
  destruct (ef_receipt row) as [[[p run] n]|]; [|done]. injection Hp as ->. unfold _txn.
  destruct (same_receipt prior receipt); [by right|left; by eexists].
Qed.
(** The status is the last member of a receipt's canonical text. *)
Lemma receipt_text r : ∃ l, render (sort_keys (dump r)) = l ++ render_str (receipt_status_value r.(rc_status)) ++ ["}"%char].
Proof.
  set (member k j := render_str k ++ [":"%char] ++ render (sort_keys j)).
  exists (["{"%char] ++ member "external_reference" (dump r.(external_reference)) ++ [","%char]
    ++ member "observed_state" (jopt JObj r.(observed_state)) ++ [","%char]
    ++ member "request_hash" (JStr r.(rc_request)) ++ [","%char] ++ render_str "status" ++ [":"%char]).
  unfold member. rewrite <-!app_assoc.
  change (render (sort_keys (dump r))) with (["{"%char] ++ (member "external_reference" (dump r.(external_reference)) ++ [","%char]
    ++ (member "observed_state" (jopt JObj r.(observed_state)) ++ [","%char]
    ++ (member "request_hash" (JStr r.(rc_request)) ++ [","%char]
    ++ member "status" (JStr (receipt_status_value r.(rc_status)))))) ++ ["}"%char]).
  unfold member. by rewrite <-!app_assoc.
Qed.
Lemma same_receipt_status r r' : same_receipt r r' = true → r.(rc_status) = r'.(rc_status).
Proof.
  unfold same_receipt, canonical_text. intros H%bool_decide_eq_true%(f_equal String.list_ascii_of_string).
  rewrite !String.list_ascii_of_string_of_list_ascii in H.
  destruct (receipt_text r) as [l E], (receipt_text r') as [l' E']. rewrite E, E' in H.
  apply (f_equal (@rev _)) in H. rewrite !rev_app_distr in H.
  by destruct (rc_status r), (rc_status r').
Qed.
Lemma outcome_recorded lease q receipt kind s d s' :
  good s → facts s → record_effect_outcome lease q receipt kind s = (Ok d, s') →
  ∃ r0, receipt_in s' q.(rq_key) = Some r0 ∧ same_receipt r0 receipt = true.
Proof.
  intros Hg Hf. destruct (outcome_reads lease q receipt kind s Hg Hf) as [[e ->]|(row & Hr & ->)]; [done|].
  unfold receipt_in. destruct (ef_receipt row) as [[[p run] n]|] eqn:Hp; intros E.
  - unfold _txn in E. destruct (same_receipt p receipt) eqn:Es; [|done]. injection E as _ <-.
    exists p. split; [|done]. rewrite Hr. simpl. by rewrite Hp.
  - apply txn_inv in E as [(a & _ & E)|[_ [e [=]]]].
    bound E n s1 Ha. apply allocate_inv in Ha as (row0 & _ & _ & _ & _ & ->).
    bound E u s5 Hm. injection Hm as _ <-. bound E ev s6 Hi. apply insert_event_inv in Hi as ->.
    injection E as _ <-. exists receipt. simpl. rewrite Dict.get_set_eq. split; [done|].
    unfold same_receipt. by rewrite bool_decide_eq_true_2.
Qed.

(** C7: Effects settle once: when a terminal outcome (committed or rejected; simulated under
    simulation) has been recorded after lawful calls, then whatever lawful calls follow, the
    receipt under its key reads back as recorded and still terminal, and every further outcome
    for that key by anyone leaves the store exactly as it is: it either names the same receipt
    or is refused. Lawful calls are those that keep the writers' discipline: no reserved event
    kinds or keys, matching transition kinds. An unknown outcome is not covered; that it can
    never be settled is a finding. *)
Theorem effects_settle_once mode cs lease q receipt kind d s1 cs' :
  (* a terminal outcome, recorded in a history of lawful calls, *)
  forallb lawful cs = true → lawful (JOutcome lease q receipt kind) = true → receipt.(rc_status) ∈ terminal_statuses mode →
  record_effect_outcome lease q receipt kind (run_jcalls cs new_store) = (Ok d, s1) →
  (* whatever lawful calls follow, *)
  forallb lawful cs' = true →
  let s2 := run_jcalls cs' s1 in
  (* reads back as recorded, terminal, and is not written again *)
  ∃ r0, receipt_for q.(rq_key) s2 = (Ok (Some r0), s2) ∧ same_receipt r0 receipt = true ∧
    r0.(rc_status) ∈ terminal_statuses mode ∧
    ∀ lease' q' receipt' kind', q'.(rq_key) = q.(rq_key) →
      (∃ e, record_effect_outcome lease' q' receipt' kind' s2 = (Raise e, s2)) ∨
      record_effect_outcome lease' q' receipt' kind' s2 = (Ok AlreadyRecorded, s2) ∧
      same_receipt r0 receipt' = true.
Proof.
  intros Hl Hj Hterm E Hl' s2. destruct (history_facts _ Hl) as [Hg Hf].
  destruct (outcome_recorded _ _ _ _ _ _ _ Hg Hf E) as (r0 & Hr & Hs).
  assert (rtc jstep (run_jcalls cs new_store) s1) as H1.
  { apply (jcall_steps (JOutcome lease q receipt kind) _ (Ok ())); [|done]. simpl. unfold unit_of. by rewrite (ebind_eq _ _ _ _ _ E). }
  assert (rtc jstep s1 s2) as H2 by (by apply jcalls_steps).
  assert (good s2 ∧ facts s2) as [Hg2 Hf2].
  { split; [eapply good_steps; [etrans; [exact H1|exact H2]|done]|eapply facts_steps; [etrans; [exact H1|exact H2]|done]]. }
  assert (receipt_in s2 q.(rq_key) = Some r0) as Hr2 by (by eapply receipt_steps).
  exists r0. split_and!; [|done|by rewrite (same_receipt_status _ _ Hs)|].
  - unfold receipt_for. rewrite (ebind_eq get _ s2 s2 s2 eq_refl). unfold lift. by rewrite receipt_of_good, Hr2.
  - intros lease' q' receipt' kind' Hk. apply outcome_closed; [done|done|by rewrite Hk].
Qed.

(** ** The boundary *)
Lemma quiet_steps lease o o' : quiet_out lease o o' → rtc jstep o.(o_store) o'.(o_store).
Proof. by intros [? _]. Qed.
Lemma journal_receipt key o :
  good o.(o_store) → facts o.(o_store) → journal (receipt_for key) o = (Ok (receipt_in o.(o_store) key), o).
Proof.
  intros Hg Hf. unfold journal, receipt_for. rewrite (ebind_eq get _ _ _ _ eq_refl). unfold lift.
  rewrite receipt_of_good by done. by destruct o.
Qed.
(** The effect under the key is not settled yet. *)
Definition unsettled (mode : EffectMode) (s : store) (key : Digest) : Prop :=
  ∀ r, receipt_in s key = Some r → r.(rc_status) ∉ terminal_statuses mode.
Lemma terminal_reads lease path mode kind key o r o' :
  good o.(o_store) → facts o.(o_store) → terminal_receipt lease path mode kind key o = (r, o') →
  match r with
  | Ok None => o' = o ∧ unsettled mode o.(o_store) key
  | Ok (Some r) => receipt_in o.(o_store) key = Some r ∧ r.(rc_status) ∈ terminal_statuses mode
  | Raise _ => ¬ unsettled mode o.(o_store) key
  end.
Proof.
  intros Hg Hf. unfold terminal_receipt. rewrite (ebind_eq _ _ _ _ _ (journal_receipt key o Hg Hf)). unfold unsettled.
  destruct (receipt_in (o_store o) key) as [r0|]; [|intros [= <- <-]; by split].
  case_decide as Hd; [|intros [= <- <-]; split; [done|by intros ? [= <-]]].
  unfold ebind. destruct (deduplicated lease path kind o) as [[u|e] o1]; intros [= <- _]; [done|].
  intros Hu. by apply (Hu r0).
Qed.
Lemma terminal_steps lease path mode kind key o :
  rtc jstep o.(o_store) (terminal_receipt lease path mode kind key o).2.(o_store).
Proof. apply (quiet_steps lease), quiet_terminal. Qed.
Section boundary.
Context (lease : RunLease) (manifest : Digest) (path : ExecutionPath) (mode : EffectMode).
Context (effects : string → option EffectAdapter) `{!AdapterLaws lease effects}.
Abbreviation key_of kind normalized := (idempotency_key manifest path kind normalized mode) (only parsing).

Lemma record_outcome_recorded kind q receipt event_kind o r o' :
  good o.(o_store) → facts o.(o_store) → record_outcome lease path kind q receipt event_kind o = (Ok r, o') →
  json_ok (JObj q.(rq_subject)) = true →
  ∃ r0, receipt_in o'.(o_store) q.(rq_key) = Some r0 ∧ same_receipt r0 r = true.
Proof.
  intros Hg Hf E Hj. unfold record_outcome in E. apply ebind_ok in E as (d & o1 & E1 & E).
  apply ebind_ok in E as (u & o2 & E2 & E). injection E as <- <-. unfold journal in E1.
  destruct (record_effect_outcome _ _ _ _ _) as [rr s1] eqn:Er. injection E1 as -> <-.
  apply outcome_recorded in Er as (r0 & Hr & Hs); [|done..]. exists r0. split; [|done].
  eapply receipt_steps; [|exact Hr].
  assert (keeps (quiet_out lease) (ewhen (match d with AlreadyRecorded => true | Recorded => false end)
    (deduplicated lease path kind))) as Hq by quiet.
  specialize (Hq (set_store s1 o)). rewrite E2 in Hq. by apply quiet_steps in Hq.
Qed.
Lemma perform_recorded kind a q o r o' :
  effects kind = Some a → good o.(o_store) → facts o.(o_store) → json_ok (JObj q.(rq_subject)) = true →
  perform lease path mode kind a q o = (Ok r, o') →
  ∃ r0, receipt_in o'.(o_store) q.(rq_key) = Some r0 ∧ same_receipt r0 r = true.
Proof.
  intros Ha Hg Hf Hj E. unfold perform in E. apply ebind_ok in E as (rc & o1 & E1 & E).
  assert (rtc jstep o.(o_store) o1.(o_store)) as H1.
  { destruct mode; [|by injection E1 as _ <-]. pose proof (adapter_reconcile _ _ q Ha o) as H. rewrite E1 in H.
    by apply quiet_steps in H. }
  destruct rc as [receipt|].
  { apply record_outcome_recorded in E; [done|by eapply good_steps|by eapply facts_steps|done]. }
  apply ebind_ok in E as (u & o2 & E2 & E). injection E2 as _ <-. apply ebind_ok in E as (receipt & o3 & E3 & E).
  assert (rtc jstep o1.(o_store) o3.(o_store)) as H3.
  { destruct mode.
    - pose proof (adapter_execute _ _ q Ha o1) as H. rewrite E3 in H. by apply quiet_steps in H.
    - destruct (simulation _); [|done]. pose proof (adapter_simulate _ _ q Ha o1) as H. rewrite E3 in H.
      by apply quiet_steps in H. }
  assert (rtc jstep o.(o_store) o3.(o_store)) as H by by etrans.
  apply record_outcome_recorded in E; [done|by eapply good_steps|by eapply facts_steps|done].
Qed.
Lemma boundary_recorded kind subject att normalized o r o' :
  good o.(o_store) → facts o.(o_store) → json_value subject = Ok (JObj normalized) →
  _effect_boundary lease manifest path mode effects kind subject att o = (Ok r, o') →
  ∃ r0, receipt_in o'.(o_store) (key_of kind normalized) = Some r0 ∧ same_receipt r0 r = true.
Proof.
  intros Hg Hf Hn E. unfold _effect_boundary in E. apply ebind_ok in E as (u & o1 & E1 & E). injection E1 as _ <-.
  rewrite Hn in E. cbv zeta in E.
  assert (∀ o r o', good o.(o_store) → facts o.(o_store) →
    terminal_receipt lease path mode kind (key_of kind normalized) o = (Ok (Some r), o') →
    ∃ r0, receipt_in o'.(o_store) (key_of kind normalized) = Some r0 ∧ same_receipt r0 r = true) as Ht.
  { intros o1 r1 o1' Hg1 Hf1 E1. pose proof (terminal_steps lease path mode kind (key_of kind normalized) o1) as Hs.
    rewrite E1 in Hs. apply terminal_reads in E1 as [E1 _]; [|done..]. exists r1.
    split; [by eapply receipt_steps|]. unfold same_receipt. by rewrite bool_decide_eq_true_2. }
  apply ebind_ok in E as (ex & o2 & E2 & E). destruct ex as [r0|]; [injection E as <- <-; by eapply Ht|].
  apply terminal_reads in E2 as [-> _]; [|done..]. destruct (effects kind) as [a|] eqn:Ha; [|done].
  apply ebind_ok in E as (u1 & o3 & E3 & E). injection E3 as _ <-.
  apply ebind_ok in E as (q & o4 & E4 & E).
  pose proof (quiet_prepare lease (proposed lease manifest path mode kind normalized att) o) as H4.
  rewrite E4 in H4. apply quiet_steps in H4. simpl in H4. unfold journal in E4.
  destruct (record_effect_prepared _ _ _) as [rr s4] eqn:Ep. injection E4 as -> <-.
  destruct (prepared_stored _ _ _ _ _ Ep) as (Hj & Hk & _). simpl in Hk.
  assert (good s4 ∧ facts s4) as [Hg4 Hf4] by (split; [by eapply good_steps|by eapply facts_steps]).
  apply ebind_ok in E as (ra & o5 & E5 & E). destruct ra as [r0|]; [injection E as <- <-; by eapply (Ht (set_store s4 o))|].
  apply terminal_reads in E5 as [-> _]; [|done..]. rewrite <-Hk. by eapply (perform_recorded kind a q (set_store s4 o)).
Qed.
End boundary.


(** An adapter that agrees with another on whatever the store has prepared. *)
Record agrees_on_prepared (mode : EffectMode) (key : Digest) (a a' : EffectAdapter) : Prop := {
  agrees_profile : a.(ad_profile) = a'.(ad_profile);
  agrees_reconcile q o : q.(rq_key) = key → asked o.(o_store) key = Some q → unsettled mode o.(o_store) key →
    a.(ad_reconcile) q o = a'.(ad_reconcile) q o;
  agrees_execute q o : q.(rq_key) = key → asked o.(o_store) key = Some q → a.(ad_execute) q o = a'.(ad_execute) q o;
  agrees_simulate q o : q.(rq_key) = key → asked o.(o_store) key = Some q → a.(ad_simulate) q o = a'.(ad_simulate) q o;
}.
(** C9: Nothing outside is touched before it is durable: the boundary's result depends on an
    adapter only through its answers to the request the store already holds as prepared under
    the request's own key, and it asks to reconcile only while that effect has no terminal
    receipt. *)
Theorem nothing_outside_before_preparation lease manifest path mode effects effects' kind subject att normalized a a' o :
  AdapterLaws lease effects → good o.(o_store) → facts o.(o_store) → json_value subject = Ok (JObj normalized) →
  effects kind = Some a → effects' kind = Some a' →
  agrees_on_prepared mode (idempotency_key manifest path kind normalized mode) a a' →
  _effect_boundary lease manifest path mode effects kind subject att o
  = _effect_boundary lease manifest path mode effects' kind subject att o.
Proof.
  intros Hl Hg Hf Hn Ha Ha' [Hp Hr He Hs]. unfold _effect_boundary. rewrite Hn. cbv zeta.
  rewrite Ha, Ha'. set (key := idempotency_key manifest path kind normalized mode) in *.
  apply ebind_ext; [done|]. intros u o1 [= _ <-]. apply ebind_ext; [done|]. intros [r|] o2 E2; [done|].
  apply terminal_reads in E2 as [-> _]; [|done..]. apply ebind_ext; [done|]. intros u1 o3 [= _ <-].
  apply ebind_ext; [done|]. intros q o4 E4.
  pose proof (quiet_prepare lease (proposed lease manifest path mode kind normalized att) o) as H4.
  rewrite E4 in H4. apply quiet_steps in H4. simpl in H4. unfold journal in E4.
  destruct (record_effect_prepared _ _ _) as [rr s4] eqn:Ep. injection E4 as -> <-.
  destruct (prepared_stored _ _ _ _ _ Ep) as (_ & Hk & Hq). simpl in Hk, Hq.
  assert (good s4 ∧ facts s4) as [Hg4 Hf4] by (split; [by eapply good_steps|by eapply facts_steps]).
  apply ebind_ext; [done|]. intros [r|] o5 E5; [done|]. apply terminal_reads in E5 as [-> Hu]; [|done..].
  unfold perform. apply ebind_ext; [destruct mode; [by apply Hr|done]|]. intros [rc|] o6 E6; [done|].
  assert (rtc jstep s4 o6.(o_store)) as H6.
  { destruct mode; [|by injection E6 as <-].
    pose proof (adapter_reconcile _ _ q Ha (set_store s4 o)) as H. rewrite E6 in H. by apply quiet_steps in H. }
  assert (asked o6.(o_store) key = Some q) as Hq6 by exact (asked_steps _ _ _ _ H6 Hq).
  apply ebind_ext; [done|]. intros u2 o7 [= _ <-]. unfold ebind. rewrite Hp.
  destruct mode; [by rewrite He|]. destruct (simulation _); [by rewrite Hs|done].
Qed.

(** ** Proofs of messages *)
Lemma attested_step s s' id a : jstep s s' → Dict.get id s.(attested) = Some a → Dict.get id s'.(attested) = Some a.
Proof. destruct 1; [done|apply Dict.get_app_l|done..|]. by destruct x. Qed.
Lemma attested_steps s s' id a :
  rtc jstep s s' → Dict.get id s.(attested) = Some a → Dict.get id s'.(attested) = Some a.
Proof. induction 1; eauto using attested_step. Qed.
Lemma prior_mint_held s d creator ids a :
  facts s → prior_mint s d creator ids = Ok (Some a) →
  Dict.get a.(attestation_id) s.(attested) = Some a ∧ a.(att_draft) = d ∧ a.(created_by_run) = creator.
Proof.
  intros Hf. induction ids as [|id ids IH]; simpl; [done|]. rewrite stored_attestation_good by done. simpl.
  destruct (Dict.get id (attested s)) as [p|] eqn:E; [|done].
  destruct (decide (att_draft p ≠ d)) as [|Hd]; [done|]. case_decide as Hc.
  - intros [= <-]. destruct (f_sound _ Hf _ (Dict.get_elem _ _ _ E)) as [Hid _]. simpl in Hid. subst id.
    split_and!; [done|by apply dec_stable|done].
  - case_decide; [done|]. apply IH.
Qed.
(** What a mint returns, the store holds. *)
Lemma minted_stored lease d now s a s' :
  facts s → mint_attestation lease d now s = (Ok a, s') →
  ∃ p, Dict.get a.(attestation_id) s'.(attested) = Some p ∧ p.(attestation_id) = a.(attestation_id) ∧
    p.(att_draft) = d ∧ p.(created_by_run) = Some lease.(lease_run).
Proof.
  intros Hf E. unfold mint_attestation in E. cbv zeta in E.
  apply txn_inv in E as [(a' & [= <-] & E)|[_ [e [=]]]]. bound E o s1 Hrow.
  apply mutation_row_inv in Hrow as [-> ->]. destruct (Dict.get _ _) as [row|]; [|done].
  destruct (negb _); [done|]. case_decide; [done|]. destruct (_ && _); [done|]. unfold mint_once in E.
  bound E s2 s3 Hg. injection Hg as <- <-. bound E o s2 Ho. injection Ho as Ho <-.
  destruct o as [p|].
  { injection E as <- <-. exists p. by destruct (prior_mint_held _ _ _ _ _ Hf Ho) as (? & ? & ?). }
  bound E u s2 Hi. injection E as <- <-. unfold _insert_attestation in Hi.
  bound Hi s3 s4 Hg. injection Hg as <- <-. bound Hi o s3 Hp. injection Hp as Hp <-.
  rewrite stored_attestation_good in Hp by done. injection Hp as Hp. destruct o as [p|].
  - case_decide as Heq; [|done]. injection Hi as _ <-. exists p. destruct p as [pid pd pc pt]. simpl in *.
    injection Heq as -> -> ->. by split_and!.
  - injection Hi as _ <-. simpl in *.
    exists (mkAttestation (attestation_id_for_run d lease.(lease_run)) d (Some lease.(lease_run)) now).
    split; [|done]. rewrite <-Dict.set_fresh by (by apply Dict.get_None). apply Dict.get_set_eq.
Qed.

Lemma draft_validates manifest i proof :
  proof.(att_draft) = send_draft manifest i → proof.(created_by_run) = Some i.(in_run) →
  validated_channel_send_attestation proof i manifest = Some proof.
Proof.
  intros Hd Hcr. assert (attestation_ok proof = true) as Hok by (unfold attestation_ok; rewrite Hd; reflexivity).
  unfold validated_channel_send_attestation. rewrite Hok, Hcr, Hd.
  cbn [send_draft dr_subject dr_action dr_manifest negb].
  rewrite !bool_decide_eq_false_2 by (intros Hne; by apply Hne). cbn [orb].
  rewrite decide_False by (intros Hne; by apply Hne). reflexivity.
Qed.

(** An answered question leaves its evidence: when ask returns a payload, the store holds
    an attestation of this run that validates for exactly the message derived from the sealed
    binding, and a receipt of its send; and the payload is that of a reply to that message's id
    under the contract the binding pinned. *)
Theorem answered_asks_are_proved lease manifest path mode effects utc_now b p o j o' :
  AdapterLaws lease effects → channel_quiet lease b.(bc_channel) → good o.(o_store) → facts o.(o_store) →
  ask lease manifest path utc_now (_effect_boundary lease manifest path mode effects) b p o = (Ok j, o') →
  ∃ i proof normalized r0 o1 reply,
    _intent lease path b p = Ok i ∧ i.(in_message_id) = request_id lease path b ∧
    Dict.get proof.(attestation_id) o'.(o_store).(attested) = Some proof ∧
    validated_channel_send_attestation proof i manifest = Some proof ∧
    json_value (embed (dump i)) = Ok (JObj normalized) ∧
    receipt_in o'.(o_store) (idempotency_key manifest path CHANNEL_SEND_EFFECT normalized mode) = Some r0 ∧
    b.(bc_channel).(ch_reply_for) i.(in_message_id) o1 = (Ok (Some reply), o') ∧
    reply.(msg_contract) = b.(bc_binding).(reply_contract) ∧ j = reply.(envelope).(payload).
Proof.
  intros Ha Hc Hg Hf E. unfold ask in E. apply ebind_ok in E as (i & o1 & Ei & E). injection Ei as Ei <-.
  apply ebind_ok in E as (a & o2 & Em & E).
  pose proof (quiet_mint lease (send_draft manifest i) (utc_now (o_tick o)) o) as H2. rewrite Em in H2.
  apply quiet_steps in H2. simpl in H2. unfold journal in Em.
  destruct (mint_attestation _ _ _ _) as [rr s2] eqn:E2. injection Em as -> <-.
  destruct (minted_stored _ _ _ _ _ _ Hf E2) as (proof & Hp & Hid & Hd & Hcr).
  apply ebind_ok in E as (r & o3 & E3 & E). simpl in H2.
  assert (good s2 ∧ facts s2) as [Hg2 Hf2] by (split; [by eapply good_steps|by eapply facts_steps]).
  pose proof (quiet_boundary lease manifest path mode effects CHANNEL_SEND_EFFECT (embed (dump i))
    (Some a.(attestation_id)) (set_store s2 o)) as H3. rewrite E3 in H3. apply quiet_steps in H3. simpl in H3.
  assert (∃ normalized, json_value (embed (dump i)) = Ok (JObj normalized)) as [normalized Hn].
  { unfold _effect_boundary in E3. apply ebind_ok in E3 as (u & o4 & _ & E3).
    destruct (json_value _) as [[]|]; try done. by eexists. }
  destruct (boundary_recorded lease manifest path mode effects _ _ _ normalized (set_store s2 o) r o3 Hg2 Hf2 Hn E3)
    as (r0 & Hr & _).
  apply ebind_ok in E as (reply & o4 & E4 & E).
  pose proof (quiet_reply _ _ Hc i.(in_message_id) o3) as H4. rewrite E4 in H4. apply quiet_steps in H4. simpl in H4.
  destruct reply as [reply|]; [|done]. case_decide as Hct; [done|]. injection E as <- <-.
  exists i, proof, normalized, r0, o3, reply.
  assert (in_run i = lease_run lease ∧ in_message_id i = request_id lease path b) as [Hrun Hmid].
  { unfold _intent in Ei. destruct (json_value p); [|done]. by injection Ei as <-. }
  split_and!; try done.
  - rewrite Hid. eapply attested_steps; [|exact Hp]. by etrans.
  - apply draft_validates; [done|congruence].
  - exact (receipt_steps _ _ _ _ H4 Hr).
Qed.

(** An exact proof in the store that this message may be sent. *)
Definition authorized (s : store) (manifest : Digest) (i : ChannelSendIntent) (id : string) : Prop :=
  ∃ proof, stored_attestation_for_id s id = Ok (Some proof) ∧
    validated_channel_send_attestation proof i manifest = Some proof.
(** C10: A message is appended only under its proof: the send adapter's results depend on a
    channel's append only where the message is canonically the request's subject and the store
    holds a sound attestation, under the id passed on, that authorizes this very message under
    the request's manifest. *)
Theorem sends_need_their_proof (catalog catalog' : string * string → option Channel) q :
  (∀ e, match catalog e, catalog' e with
        | Some c, Some c' =>
            (∀ id, c.(ch_message) id = c'.(ch_message) id) ∧
            ∀ i id o, canonical_text (dump i) = canonical_text (JObj q.(rq_subject)) →
              authorized o.(o_store) q.(rq_manifest) i id →
              c.(ch_append_request) i id o = c'.(ch_append_request) i id o
        | None, None => True
        | _, _ => False
        end) →
  ∀ o, ChannelSendEffect.execute catalog q o = ChannelSendEffect.execute catalog' q o ∧
       ChannelSendEffect.reconcile catalog q o = ChannelSendEffect.reconcile catalog' q o.
Proof.
  intros Hc o.
  assert (∀ i o i' o', ChannelSendEffect._verified_attestation q i o = (Ok i', o') →
    authorized o'.(o_store) q.(rq_manifest) i i') as Hv.
  { intros i o1 id o2 E. unfold ChannelSendEffect._verified_attestation in E.
    destruct (rq_attestation q) as [id0|]; [|done]. apply ebind_ok in E as (a & o3 & E3 & E).
    destruct a as [a|]; [|done]. unfold journal, load_attestation in E3.
    rewrite (ebind_eq get _ _ _ _ eq_refl) in E3. injection E3 as E3 <-.
    destruct (validated_channel_send_attestation a i _) as [a'|] eqn:Ev; [|done]. injection E as <- <-.
    assert (a' = a) as ->.
    { unfold validated_channel_send_attestation in Ev. destruct (dr_subject _); try done.
      destruct (_ || _); [done|]. case_decide; [done|]. by injection Ev. }
    exists a. split; [|done]. simpl. revert E3. unfold stored_attestation_for_id at 1.
    destruct (filter _ _) as [|[k x] [|]] eqn:Ef; try done. case_decide as Hd; [|done]. intros [= ->].
    destruct Hd as (-> & Hid & Hs). rewrite Hid. unfold stored_attestation_for_id. rewrite Ef.
    by rewrite decide_True. }
  assert (∀ i o o', lift (S:=outside) (ChannelSendEffect._intent q) o = (Ok i, o') →
    canonical_text (dump i) = canonical_text (JObj q.(rq_subject))) as Hi.
  { intros i o1 o2. unfold lift, ChannelSendEffect._intent. case_decide; [done|].
    destruct (decode_intent _) as [i'|]; [|done]. destruct (lossless i' _) eqn:El; [|done].
    intros [= <- _]. by apply bool_decide_eq_true in El. }
  assert (∀ i (A : Type) (f g : Channel → O A) o1,
    (∀ c c', (∀ id, ch_message c id = ch_message c' id) →
      (∀ i id o, canonical_text (dump i) = canonical_text (JObj q.(rq_subject)) →
         authorized o.(o_store) q.(rq_manifest) i id → ch_append_request c i id o = ch_append_request c' i id o) →
      f c o1 = g c' o1) →
    ebind (lift (ChannelSendEffect._channel catalog i)) f o1
    = ebind (lift (ChannelSendEffect._channel catalog' i)) g o1) as Hch.
  { intros i A f g o1 Hfg. unfold ChannelSendEffect._channel. specialize (Hc (in_channel i, in_revision i)).
    destruct (catalog _) as [c|], (catalog' _) as [c'|]; try done. destruct Hc as [H1 H2]. by apply Hfg. }
  split.
  - unfold ChannelSendEffect.execute. apply ebind_ext; [done|]. intros i o1 E1%Hi. apply Hch. intros c c' _ Ha.
    apply ebind_ext; [done|]. intros id o2 E2%Hv. apply ebind_ext; [by apply Ha|done].
  - unfold ChannelSendEffect.reconcile. apply ebind_ext; [done|]. intros i o1 E1%Hi. apply Hch. intros c c' Hm Ha.
    apply ebind_ext; [by rewrite Hm|]. intros [m|] o2 _; [|done].
    apply ebind_ext; [done|]. intros id o3 E3%Hv. apply ebind_ext; [by apply Ha|done].
Qed.

(** ** An effect and an exchange in the claimed run of [StoreFixture] *)
Module BoundaryFixture.
Definition path : ExecutionPath := mkPath (mkScope ["demo"; "consult"]) [].
Definition hash : Digest := StoreFixture.manifest.(manifest_hash).
Definition subject : list (string * json) := [("note", JStr "hello")].
Definition request : EffectRequest :=
  Eval vm_compute in proposed StoreFixture.lease1 hash path LiveEffects "post" subject None.
Definition answer (st : receipt_status) : EffectReceipt := mkReceipt (request_hash request) st (Some "post-1") None.
Definition history : list jcall := StoreFixture.started ++ [JPrepare StoreFixture.lease1 request].
Definition answered (st : receipt_status) : result exn outcome_disposition * store :=
  record_effect_outcome StoreFixture.lease1 request (answer st) (_effect_event_kind (answer st))
    (run_jcalls history new_store).
Definition unknown : result exn outcome_disposition * store := Eval vm_compute in answered Unknown.
Lemma unknown_eq : answered Unknown = unknown.
Proof. vm_compute. reflexivity. Qed.
Definition settled : result exn outcome_disposition * store := Eval vm_compute in answered Committed.
Lemma settled_eq : answered Committed = settled.
Proof. vm_compute. reflexivity. Qed.
(** What the outside would say on the next attempt. *)
Definition later : result exn outcome_disposition * store :=
  record_effect_outcome StoreFixture.lease1 request (answer Committed) RECONCILED unknown.2.

(** A desk that answers at once, and the send adapter over it. *)
Definition desk_contract : ChannelContract := mkContract "text" (digest_of "schema" 1 JNull).
Definition binding : ChannelBinding :=
  mkChannelBinding (mkEndpoint "main" Advice None) "question" desk_contract "answer" desk_contract.
Definition envelope_ (i : ChannelSendIntent) (j : json) : Envelope :=
  mkEnvelope i.(in_run) i.(in_path) i.(in_port) "2025-01-01T00:00:00Z" [] j.
Definition desk : Channel := mkChannel
  (λ i _, eret (mkMessage i.(in_message_id) i.(in_channel) i.(in_lane) i.(in_interaction) KRequest None
     i.(in_recipient) None i.(in_contract) (Some i.(in_reply_contract)) (Some i.(in_reply_port))
     (envelope_ i (intent_payload i))))
  (λ _, eret None)
  (λ id, eret (Some (mkMessage (reply_message_id id "answer") "desk" "main" Advice KReply (Some id) None (Some "human:a")
     desk_contract None None (mkEnvelope "r" path "answer" "2025-01-01T00:00:01Z" [] (JStr "this one"))))).
Definition bound : _BoundChannel := mkBoundChannel binding "desk" "1" desk.
Definition effects (kind : string) : option EffectAdapter :=
  if decide (kind = CHANNEL_SEND_EFFECT) then Some (ChannelSendEffect.adapter (λ _, Some desk)) else None.
Lemma desk_quiet lease : channel_quiet lease desk.
Proof. split; intros; apply quiet_eret. Qed.
#[global] Instance effects_laws lease : AdapterLaws lease effects.
Proof.
  apply (send_adapter_laws lease (λ _, Some desk)); [intros e c [= <-]; apply desk_quiet|].
  unfold effects. intros kind a. case_decide; congruence.
Qed.
Definition before : outside := mkOutside StoreFixture.running false 0.
Lemma before_good : good before.(o_store) ∧ facts before.(o_store).
Proof.
  unfold before. simpl. rewrite <-StoreFixture.running_eq. apply history_facts. vm_compute. reflexivity.
Qed.
Definition asked_ : result exn json * outside := Eval vm_compute in
  ask StoreFixture.lease1 hash path (λ _, "2025-01-01T00:00:00Z")
    (_effect_boundary StoreFixture.lease1 hash path LiveEffects effects) bound (PStr "which one?") before.
Lemma asked_eq :
  ask StoreFixture.lease1 hash path (λ _, "2025-01-01T00:00:00Z")
    (_effect_boundary StoreFixture.lease1 hash path LiveEffects effects) bound (PStr "which one?") before = asked_.
Proof. vm_compute. reflexivity. Qed.
(** A service that takes every post, and the same one asking first whether the
    store holds the request. *)
Definition poster : EffectAdapter :=
  mkAdapter (mkProfile "post" Reconcilable false) (λ q, eret (mkReceipt (request_hash q) Committed None None))
    (λ _, eret None) (λ _, raise (ComponentError "RuntimeError" "no simulation")).
Definition careful : EffectAdapter :=
  mkAdapter (mkProfile "post" Reconcilable false)
    (λ q o, if decide (asked o.(o_store) q.(rq_key) = Some q) then poster.(ad_execute) q o
            else raise (ComponentError "RuntimeError" "never heard of it") o)
    (λ _, eret None) (λ _, raise (ComponentError "RuntimeError" "no simulation")).
Definition posts (a : EffectAdapter) (_ : string) : option EffectAdapter := Some a.
#[global] Instance poster_laws lease : AdapterLaws lease (posts poster).
Proof. split; intros kind a q [= <-]; simpl; first [apply quiet_eret|apply quiet_raise]. Qed.
Definition subject_ : pyval := embed (JObj subject).
(** The request that was sent. *)
Definition sent : EffectRequest := Eval vm_compute in
  match asked_.2.(o_store).(Journal.effects) with (_, row) :: _ => row.(ef_request) | [] => request end.
(** A desk that checks the proof of every message itself. *)
Definition proved (q : EffectRequest) (s : store) (i : ChannelSendIntent) (id : string) : bool :=
  match stored_attestation_for_id s id with
  | Ok (Some p) => bool_decide (validated_channel_send_attestation p i q.(rq_manifest) = Some p)
  | _ => false
  end.
Definition guarded (q : EffectRequest) : Channel := mkChannel
  (λ i id o, if proved q o.(o_store) i id then desk.(ch_append_request) i id o
             else raise (ComponentError "PermissionError" "no proof") o)
  desk.(ch_message) desk.(ch_reply_for).
End BoundaryFixture.

(** The walker would try an effect again whose receipt is [unknown], and the
    store refuses any other answer to it. *)
Lemma unknown_is_never_settled :
  (Unknown ∉ terminal_statuses LiveEffects) ∧
  BoundaryFixture.later =
    (Raise (JournalDamaged (DifferentReceipt BoundaryFixture.request.(rq_key))), BoundaryFixture.unknown.2).
Proof. split; [|vm_compute; reflexivity].
  unfold terminal_statuses. rewrite !elem_of_cons, elem_of_nil. intuition discriminate. Qed.

Lemma effects_settle_once_witness :
  let s := run_jcalls [StoreFixture.claim2] BoundaryFixture.settled.2 in
  ∃ r0, receipt_for BoundaryFixture.request.(rq_key) s = (Ok (Some r0), s) ∧
    same_receipt r0 (BoundaryFixture.answer Committed) = true.
Proof.
  destruct (effects_settle_once LiveEffects BoundaryFixture.history StoreFixture.lease1 BoundaryFixture.request
    (BoundaryFixture.answer Committed) (_effect_event_kind (BoundaryFixture.answer Committed)) Recorded
    BoundaryFixture.settled.2 [StoreFixture.claim2]) as (r0 & H1 & H2 & _).
  - vm_compute. reflexivity.
  - vm_compute. reflexivity.
  - vm_compute. left.
  - exact BoundaryFixture.settled_eq.
  - vm_compute. reflexivity.
  - exists r0. split; [exact H1|exact H2].
Defined.
Lemma nothing_outside_before_preparation_witness :
  _effect_boundary StoreFixture.lease1 BoundaryFixture.hash BoundaryFixture.path LiveEffects
    (BoundaryFixture.posts BoundaryFixture.poster) "post" BoundaryFixture.subject_ None BoundaryFixture.before
  = _effect_boundary StoreFixture.lease1 BoundaryFixture.hash BoundaryFixture.path LiveEffects
    (BoundaryFixture.posts BoundaryFixture.careful) "post" BoundaryFixture.subject_ None BoundaryFixture.before.
Proof.
  apply (nothing_outside_before_preparation _ _ _ _ _ _ _ _ _ BoundaryFixture.subject
    BoundaryFixture.poster BoundaryFixture.careful).
  - apply _.
  - exact (proj1 BoundaryFixture.before_good).
  - exact (proj2 BoundaryFixture.before_good).
  - vm_compute. reflexivity.
  - reflexivity.
  - reflexivity.
  - split; [reflexivity|reflexivity| |reflexivity]. intros q o Hk Ha. simpl. rewrite Hk, decide_True by exact Ha.
    reflexivity.
Defined.
Lemma answered_asks_are_proved_witness :
  ∃ i proof, _intent StoreFixture.lease1 BoundaryFixture.path BoundaryFixture.bound (PStr "which one?") = Ok i ∧
    Dict.get proof.(attestation_id) BoundaryFixture.asked_.2.(o_store).(attested) = Some proof ∧
    validated_channel_send_attestation proof i BoundaryFixture.hash = Some proof.
Proof.
  destruct (answered_asks_are_proved StoreFixture.lease1 BoundaryFixture.hash BoundaryFixture.path LiveEffects
    BoundaryFixture.effects (λ _, "2025-01-01T00:00:00Z") BoundaryFixture.bound (PStr "which one?")
    BoundaryFixture.before (JStr "this one") BoundaryFixture.asked_.2)
    as (i & proof & n & r0 & o1 & reply & H1 & _ & H2 & H3 & _).
  - apply _.
  - exact (BoundaryFixture.desk_quiet _).
  - exact (proj1 BoundaryFixture.before_good).
  - exact (proj2 BoundaryFixture.before_good).
  - exact BoundaryFixture.asked_eq.
  - exists i, proof. split; [exact H1|]. split; [exact H2|exact H3].
Defined.
Lemma sends_need_their_proof_witness :
  ChannelSendEffect.execute (λ _, Some BoundaryFixture.desk) BoundaryFixture.sent BoundaryFixture.asked_.2
  = ChannelSendEffect.execute (λ _, Some (BoundaryFixture.guarded BoundaryFixture.sent))
      BoundaryFixture.sent BoundaryFixture.asked_.2.
Proof.
  destruct (sends_need_their_proof (λ _, Some BoundaryFixture.desk) (λ _, Some (BoundaryFixture.guarded BoundaryFixture.sent))
    BoundaryFixture.sent) with (o:=BoundaryFixture.asked_.2) as [H _]; [|exact H].
  intros e. split; [reflexivity|]. intros i id o' _ (p & Hp & Hv). simpl. unfold BoundaryFixture.proved.
  rewrite Hp, bool_decide_eq_true_2 by exact Hv. reflexivity.
Defined.
