(* ===== verification/InvokeSpec.v ===== *)
(** [_invoke] honours [InvokeLaws], whatever its providers and the component
    do, as long as they complete no node with the attempt's own lease. *)

From S2P Require Import Prelude Identity Address Graph Component Capability Manifest Message.
From S2P Require Import Run Effect Journal EffectStore JournalSpec Units Walk Boundary Invoke WalkSpec BoundarySpec.

(** What the component is handed leaves completions and acquisitions of this
    attempt alone. *)
Record context_quiet {Resource} (lease : RunLease) (ctx : NodeContext (Resource:=Resource)) : Prop := {
  ctx_effect_quiet kind s a : keeps (quiet_out lease) (ctx.(ctx_effect) kind s a);
  ctx_ask_quiet alias ask p : (alias, ask) ∈ ctx.(ctx_channels) → keeps (quiet_out lease) (ask p);
}.
(** So do a provider's methods, the transports', and the component's code,
    which changes the store only through what it is handed. *)
Class ExternalLaws {NodeImpl Resource : Type} (lease : RunLease) (as_channel : Resource → option Channel)
    (acquire : Resource → CapabilityBinding → ExecutionPath → O (AcquiredCapability (Resource:=Resource)))
    (materialize : AcquiredCapability (Resource:=Resource) → O unit)
    (close : Resource → AcquiredCapability (Resource:=Resource) → disposition → O disposition)
    (relinquish : Resource → AcquiredCapability (Resource:=Resource) → O unit)
    (call : NodeImpl → NodeContext (Resource:=Resource) → list (string * json) → O pyval) : Prop := {
  ext_acquire c b p : keeps (quiet_out lease) (acquire c b p);
  ext_materialize a : keeps (quiet_out lease) (materialize a);
  ext_close c a d : keeps (quiet_out lease) (close c a d);
  ext_relinquish c a : keeps (quiet_out lease) (relinquish c a);
  ext_call f ctx inputs : context_quiet lease ctx → keeps (quiet_out lease) (call f ctx inputs);
  ext_channel r c : as_channel r = Some c → channel_quiet lease c;
}.

Section invoke.
Context {NodeImpl Resource : Type}.
Context (env : nat → store → weather) (lease : RunLease) `{!EnvLaw lease env}.
Context (clock : nat → Z) (ttl : Z) (utc_now : nat → string).
Context (injected : string → option Resource) (catalog : gmap string CapabilityDescriptor).
Context (is_leased is_relinquishing : Resource → bool) (as_channel : Resource → option Channel).
Context (effects : string → option EffectAdapter) `{!AdapterLaws lease effects}.
Context (acquire : Resource → CapabilityBinding → ExecutionPath → O (AcquiredCapability (Resource:=Resource))).
Context (materialize : AcquiredCapability (Resource:=Resource) → O unit).
Context (close : Resource → AcquiredCapability (Resource:=Resource) → disposition → O disposition).
Context (relinquish : Resource → AcquiredCapability (Resource:=Resource) → O unit).
Context (call : NodeImpl → NodeContext (Resource:=Resource) → list (string * json) → O pyval).
Context `{!ExternalLaws lease as_channel acquire materialize close relinquish call}.
Abbreviation run := (lease.(lease_run)) (only parsing).
Abbreviation invoke_ := (_invoke env lease clock ttl utc_now injected catalog is_leased is_relinquishing
  as_channel effects acquire materialize close relinquish call) (only parsing).
Abbreviation quiet m := (keeps (quiet_out lease) m) (only parsing).

Lemma quiet_suspend : quiet (suspend env).
Proof.
  intros o. unfold suspend, quiet_out. simpl.
  destruct (env_foreign o.(o_tick) o.(o_store)) as (cs & Hcs & ->). by apply foreign_calls_leaves.
Qed.
Lemma quiet_affirm watch : quiet (affirm lease clock ttl watch).
Proof.
  intros o. unfold affirm. destruct (watch && o_lost o); [simpl; reflexivity|].
  refine (quiet_bind lease _ _ _ _ o); [|intros; apply quiet_eret].
  apply (quiet_of_call lease _ (JHeartbeat lease ttl (clock (o_tick o)))); [|done|done].
  intros s. symmetry. apply unit_of_state.
Qed.
Lemma quiet_lease_row a d : quiet (journal (transition_capability_lease lease a lease.(epoch) [LeaseActive] LeaseClosed d)).
Proof. by apply (quiet_of_call lease _ (JLeaseTransition lease a lease.(epoch) [LeaseActive] LeaseClosed d)). Qed.
Lemma quiet_leases : quiet (journal (run_capability_leases run)).
Proof.
  intros o. unfold journal, run_capability_leases, ebind, get.
  destruct (_run_mutation_row run (o_store o)) as [[r|e] s'] eqn:E; apply mutation_row_inv in E as [-> _];
    by destruct o.
Qed.
#[local] Hint Resolve quiet_suspend quiet_affirm quiet_lease_row quiet_leases : quiet.
#[local] Hint Resolve ext_acquire ext_materialize ext_close ext_relinquish : quiet.

Lemma quiet_finish work : quiet work → quiet (_finish_cleanup env work).
Proof. intros H. unfold _finish_cleanup. quiet. Qed.
Lemma quiet_relinquish acquired : quiet (_relinquish_acquired env is_relinquishing relinquish acquired).
Proof.
  unfold _relinquish_acquired. destruct (filter _ acquired) as [|c cs]; [quiet|].
  apply quiet_bind; [|intros; quiet].
  generalize (c :: cs). intros l. induction l as [|[ca a] l IH]; simpl; quiet.
Qed.
Hint Resolve quiet_finish quiet_relinquish : quiet.
Lemma quiet_discard c a : quiet (_discard_unrecorded_acquisition env is_relinquishing close relinquish c a).
Proof. unfold _discard_unrecorded_acquisition. apply quiet_finish. quiet. Qed.
Lemma quiet_close_all watch d ne c acquired errors :
  quiet (close_all env lease clock ttl is_relinquishing close relinquish watch d ne c acquired errors).
Proof.
  revert errors. induction acquired as [|[ca a] rest IH]; intros errors; simpl.
  - destruct errors; quiet.
  - unfold close_one. quiet.
Qed.
Lemma quiet_close watch acquired d ne pe c :
  quiet (_close_acquired env lease clock ttl is_relinquishing close relinquish watch acquired d ne pe c).
Proof.
  unfold _close_acquired. destruct acquired; [destruct pe; quiet|]. apply quiet_finish, quiet_close_all.
Qed.
Hint Resolve quiet_discard quiet_close : quiet.
(** A record that fails changes nothing; one that succeeds adds its own row. *)
Lemma record_leaves l s r s' :
  l.(cl_run) = run → record_capability_lease lease l s = (r, s') →
  match r with Ok _ => leaves lease nowhere (eq l.(lease_id)) s s' | Raise _ => s' = s end.
Proof.
  intros Hrun E. destruct r as [u|e].
  2: { unfold record_capability_lease in E. case_decide; [by injection E|].
       apply txn_inv in E as [(? & [=] & _)|[-> _]]. done. }
  split; [by eapply (jcall_steps (JLease lease l))|]. intros Hm Hc. split.
  - intros p _. unfold cks. pose proof (call_checkpoints (JLease lease l) s eq_refl) as H. simpl in H.
    rewrite E in H. simpl in H. by rewrite H.
  - apply lease_outcome in E as [->|(Hn & [(row & _ & _ & _ & ->)])]; [by left|].
    intros id (l0 & Hl & Hr & Hst). unfold extend in Hl. rewrite lease_row_app in Hl by done.
    change (lease_row (add_event _ _) id (epoch lease)) with (lease_row s id (epoch lease)) in Hl.
    destruct (lease_row s id (epoch lease)) eqn:E0; [left; eexists; by split; [|split]; [exact E0|injection Hl as ->..]|].
    case_decide as Hd; [|done]. right. apply Hd.
Qed.
Lemma acquire_leaves c b p o r o' :
  _acquire_invocation_capability env lease clock ttl is_relinquishing acquire close relinquish c b p o = (r, o') →
  leaves lease nowhere (λ id, match r with Ok a => id = a.(acq_lease_id) | Raise _ => False end)
    o.(o_store) o'.(o_store).
Proof.
  unfold _acquire_invocation_capability. intros E. unfold ebind at 1 in E.
  pose proof (ext_acquire c b p o) as H1. destruct (acquire c b p o) as [[a|e] o1]; simpl in H1.
  2: { injection E as <- <-. eapply leaves_mono; [..|exact H1]; by intros ? []. }
  unfold ebind at 1, attempt at 1, journal at 1 in E.
  destruct (record_capability_lease lease (durable_lease lease b p a) (o_store o1)) as [rr s1] eqn:Er.
  apply record_leaves in Er; [|done]. destruct rr as [u|e].
  - injection E as <- <-. etrans; [|eapply leaves_mono; [..|exact Er]; [done|by intros ? <-]].
    eapply leaves_mono; [..|exact H1]; by intros ? [].
  - subst s1. assert (set_store (o_store o1) o1 = o1) as Hs by (by destruct o1). rewrite Hs in E.
    assert (∀ (m : O (AcquiredCapability (Resource:=Resource))), quiet m → m o1 = (r, o') →
      leaves lease nowhere none (o_store o) (o_store o')) as Hq.
    { intros m Hm Em. specialize (Hm o1). rewrite Em in Hm. etrans; [exact H1|exact Hm]. }
    assert (leaves lease nowhere none (o_store o) (o_store o')) as H;
      [|eapply leaves_mono; [..|exact H]; by intros ? []].
    destruct e; (eapply Hq; [|exact E]); unfold settle_record; quiet.
Qed.

(** ** The body: it acquires what it holds *)
Abbreviation held := (list (Resource * AcquiredCapability (Resource:=Resource))) (only parsing).
Definition ids (acquired : held) : list string := (λ ca, ca.2.(acq_lease_id)) <$> acquired.
Definition scene (P : ExecutionPath → Prop) (a b : outside * held) : Prop :=
  leaves lease P (λ id, id ∈ ids b.2) a.1.(o_store) b.1.(o_store) ∧ ids a.2 ⊆ ids b.2.
#[local] Instance scene_preorder P : PreOrder (scene P).
Proof.
  split; [intros a; split; [reflexivity|done]|]. intros a b c [H1 I1] [H2 I2]. split; [|by etrans].
  etrans; [eapply leaves_mono; [done| |exact H1]; intros id ?; by apply I2|done].
Qed.
Lemma scene_eret {A} P (a : A) : keeps (E:=exn) (scene P) (eret a).
Proof. apply keeps_eret, _. Qed.
Lemma scene_raise {A} P (e : exn) : keeps (scene P) (raise (A:=A) e).
Proof. apply keeps_raise, _. Qed.
Lemma scene_bind {A B} P (m : I A) (f : A → I B) :
  keeps (scene P) m → (∀ a, keeps (scene P) (f a)) → keeps (scene P) (ebind m f).
Proof. intros Hm Hf. apply keeps_bind; [apply _|done|done]. Qed.
Lemma scene_bind_ret {A B} P (m : I A) (f : A → I B) :
  keeps (scene P) m → (∀ a oa oa', m oa = (Ok a, oa') → keeps (scene P) (f a)) → keeps (scene P) (ebind m f).
Proof.
  intros Hm Hf oa. specialize (Hm oa). unfold ebind. destruct (m oa) as [[a|e] oa1] eqn:E; [|exact Hm].
  etrans; [exact Hm|]. by eapply Hf.
Qed.
Lemma scene_quiet {A} (m : O A) : quiet m → keeps (scene nowhere) (outer m).
Proof.
  intros H [o l]. specialize (H o). unfold outer, scene. simpl. destruct (m o) as [r o']. simpl in *.
  split; [|done]. eapply leaves_mono; [..|exact H]; [done|by intros ? []].
Qed.
(** Acquiring and remembering what was acquired. *)
Lemma scene_acquire {A} c b p (f : AcquiredCapability (Resource:=Resource) → I A) :
  (∀ a, keeps (scene nowhere) (f a)) →
  keeps (scene nowhere) (let* a := outer (_acquire_invocation_capability env lease clock ttl is_relinquishing
    acquire close relinquish c b p) in keep_acquired (c, a);;; f a).
Proof.
  intros Hf [o l]. unfold ebind at 1, outer. simpl.
  destruct (_acquire_invocation_capability _ _ _ _ _ _ _ _ _ _ _ o) as [r o1] eqn:E.
  apply acquire_leaves in E. destruct r as [a|e].
  - unfold ebind, keep_acquired, modify. simpl.
    specialize (Hf a (o1, l ++ [(c, a)])). etrans; [|exact Hf]. unfold scene, ids. simpl. rewrite fmap_app.
    split; [|intros x; rewrite elem_of_app; by left].
    eapply leaves_mono; [..|exact E]; [done|]. intros id ->. apply elem_of_app. right. by left.
  - unfold scene. simpl. split; [|done]. eapply leaves_mono; [..|exact E]; [done|by intros ? []].
Qed.
Abbreviation expose_ := (expose_one env lease clock ttl utc_now injected catalog is_leased is_relinquishing as_channel
  acquire materialize close relinquish) (only parsing).
Lemma scene_expose m scope path b ctx : keeps (scene nowhere) (expose_ m scope path b ctx).
Proof.
  unfold expose_one. apply scene_bind; [apply scene_quiet, quiet_control|intros _].
  destruct (injected _) as [capability|]; [|apply scene_raise].
  apply scene_bind.
  - destruct (declared_leased _ _); [|apply scene_eret]. destruct (negb _); [apply scene_raise|].
    apply scene_acquire. intros a. apply scene_bind; [|intros; apply scene_eret].
    unfold ewhen. destruct (acq_deferred a); [|apply scene_eret].
    apply scene_bind; [apply scene_quiet, ext_materialize|intros; apply scene_quiet, quiet_control].
  - intros exposed. destruct (as_channel exposed), (channel b); first [apply scene_eret|apply scene_raise].
Qed.
(** Exposing an alias keeps what the component is handed quiet. *)
Lemma expose_quiet m scope path b ctx oa ctx' oa' :
  expose_ m scope path b ctx oa = (Ok ctx', oa') → context_quiet lease ctx → context_quiet lease ctx'.
Proof.
  unfold expose_one. intros E H. apply ebind_ok in E as (u & oa1 & _ & E).
  destruct (injected _) as [capability|]; [|done]. apply ebind_ok in E as (exposed & oa2 & _ & E).
  destruct (as_channel exposed) as [t|] eqn:Et, (channel b) as [c|]; try done; injection E as <- _.
  - split; [apply H|]. simpl. intros alias ask_ p [[= -> ->]|Hin]%Dict.elem_of_set; [|by eapply (ctx_ask_quiet _ _ H)].
    apply quiet_ask; [apply H|]. by eapply ext_channel.
  - split; apply H.
Qed.
Abbreviation aliases_ m scope path := (efold (λ ctx b, expose_ m scope path b ctx)) (only parsing).
Lemma scene_aliases m scope path bs ctx : keeps (scene nowhere) (aliases_ m scope path ctx bs).
Proof. apply keeps_efold; [apply _|]. intros ctx' b _. apply scene_expose. Qed.
Lemma aliases_quiet m scope path bs ctx oa ctx' oa' :
  aliases_ m scope path ctx bs oa = (Ok ctx', oa') → context_quiet lease ctx → context_quiet lease ctx'.
Proof.
  revert ctx oa. induction bs as [|b bs IH]; intros ctx oa; simpl; [by intros [= <- _]|].
  intros (ctx1 & oa1 & E1 & E)%ebind_ok H. eapply IH; [exact E|]. by eapply expose_quiet.
Qed.
Lemma fresh_quiet m mode path self : context_quiet (Resource:=Resource) lease (fresh_context lease effects m mode path self).
Proof. split; [intros; apply quiet_boundary, _|]. by intros ? ? ? ?%elem_of_nil. Qed.

(** ** The completion *)
Lemma complete_leaves c : c.(cp_run) = run → keeps (leaves lease (eq c.(cp_path)) none) (record_completion lease c).
Proof.
  intros Hrun s. destruct (record_completion lease c s) as [r s'] eqn:E. simpl.
  split; [by eapply (jcall_steps (JComplete lease c))|]. intros _ _. split.
  - intros p Hp. apply complete_outcome in E as [->|(_ & Hn & [(row & _ & _ & _ & ->)])]; [done|].
    unfold cks. simpl.
    destruct (Dict.get (run, p) (checkpoints s)) as [c'|] eqn:Eg; [by apply Dict.get_app_l|].
    apply Dict.get_None in Eg. apply Dict.get_None. unfold Dict.keys in *. rewrite fmap_app.
    intros [?|Hin]%elem_of_app; [done|]. apply list_elem_of_singleton in Hin. simpl in Hin. congruence.
  - intros id Ha. left. eapply active_same; [|exact Ha].
    pose proof (call_leases (JComplete lease c) s eq_refl) as H. simpl in H. by rewrite E in H.
Qed.
(** A completion recorded where there was none is the one that is read. *)
Lemma complete_new c s s' :
  good s → c.(cp_run) = run → cks lease s c.(cp_path) = None →
  record_completion lease c s = (Ok tt, s') → cks lease s' c.(cp_path) = Some c.
Proof.
  intros Hg Hrun Hn. unfold record_completion. rewrite decide_False by (by intros []).
  cbv zeta. unfold _txn. destruct (ebind _ _ s) as [[[]|e] s1] eqn:E; [|done]. intros [= <-].
  bound E s2 s3 Hget. injection Hget as <- <-. bound E o s4 Ho.
  unfold lift in Ho. rewrite stored_checkpoint_good in Ho by done. injection Ho as <- <-.
  unfold cks in Hn. rewrite Hrun, Hn in E.
  bound E n s5 Ha. apply allocate_inv in Ha as (row & Hgr & _ & _ & -> & ->).
  bound E u s6 Hm. injection Hm as _ <-. bound E ev s7 Hi. apply insert_event_inv in Hi as ->.
  injection E as <-. unfold cks. simpl. rewrite Hrun.
  rewrite <-Dict.set_fresh by (by apply Dict.get_None). apply Dict.get_set_eq.
Qed.

Abbreviation invocation_ := (invocation env lease clock ttl utc_now injected catalog is_leased is_relinquishing
  as_channel effects acquire materialize close relinquish call) (only parsing).
Lemma scene_invocation m em i impl self path inputs h :
  keeps (scene (eq path)) (invocation_ m em i impl self path inputs h).
Proof.
  assert (∀ A (m : I A), keeps (scene nowhere) m → keeps (scene (eq path)) m) as Hq.
  { intros A m' H oa. destruct (H oa) as [H1 H2]. split; [|done]. eapply leaves_mono; [..|exact H1]; done. }
  unfold invocation. apply scene_bind_ret; [apply Hq, scene_aliases|intros ctx oa oa' E].
  apply scene_bind; [apply Hq, scene_quiet, ext_call; eapply aliases_quiet; [exact E|apply fresh_quiet]|intros raw].
  apply scene_bind; [apply keeps_lift, _|intros outputs].
  apply scene_bind; [apply keeps_get, _|intros [o a]].
  apply scene_bind; [|intros; apply scene_eret]. intros [o1 a1].
  set (c := completion_of lease i path h (utc_now (o_tick o)) outputs).
  pose proof (complete_leaves c eq_refl o1.(o_store)) as H. unfold outer, journal. simpl.
  destruct (record_completion lease c (o_store o1)) as [r s']. unfold scene. simpl in *.
  split; [|done]. eapply leaves_mono; [..|exact H]; [done|by intros ? []].
Qed.
Lemma invocation_done m em i impl self path inputs h o outputs o' acquired :
  good o.(o_store) → mine lease o.(o_store) → current lease o'.(o_store) →
  cks lease o.(o_store) path = None →
  invocation_ m em i impl self path inputs h (o, []) = (Ok outputs, (o', acquired)) →
  ∃ c, cks lease o'.(o_store) path = Some c ∧ contradicts c h i = false ∧ payloads c = outputs.
Proof.
  intros Hg Hm Hcur Hn E. unfold invocation in E.
  apply ebind_ok in E as (ctx & [o1 a1] & E1 & E).
  pose proof (scene_aliases m i.(in_scope) path (aliases_of m i.(in_scope))
    (fresh_context lease effects m em path self) (o, [])) as [H1 _]. rewrite E1 in H1.
  apply aliases_quiet in E1; [|apply fresh_quiet].
  apply ebind_ok in E as (raw & [o2 a2] & E2 & E).
  pose proof (scene_quiet _ (ext_call impl ctx inputs E1) (o1, a1)) as [H2 _]. rewrite E2 in H2.
  apply ebind_ok in E as (outputs1 & [o3 a3] & E3 & E). injection E3 as _ <- <-.
  apply ebind_ok in E as ([o4 a4] & [o5 a5] & E4 & E). injection E4 as <- <- <- <-.
  apply ebind_ok in E as ([] & [o6 a6] & E5 & E). injection E as <- <- <-. simpl in H1, H2.
  assert (obs lease nowhere o.(o_store) o2.(o_store)) as H12 by (etrans; by eapply leaves_obs).
  set (c := completion_of lease i path h (utc_now (o_tick o2)) outputs1) in *.
  unfold outer, journal in E5. simpl in E5.
  destruct (record_completion lease c (o_store o2)) as [r s'] eqn:Er. injection E5 as -> <- <-. simpl in *.
  exists c. split_and!.
  - eapply (complete_new c); [|done| |exact Er]; [eapply good_steps; [apply H12|done]|].
    simpl. erewrite obs_same; [done|exact H12|done| |by intros []].
    eapply current_steps; [|exact Hcur]. by eapply (jcall_steps (JComplete lease c)).
  - unfold contradicts, c. simpl. by rewrite !bool_decide_eq_true_2.
  - unfold payloads, c. simpl. rewrite <-list_fmap_compose. rewrite <-(list_fmap_id outputs1) at 2.
    apply list_fmap_ext. by intros _ [n v] _.
Qed.

(** ** The ways out *)
Abbreviation way_out_ := (way_out env lease clock ttl is_relinquishing close relinquish) (only parsing).
Lemma quiet_way_out mode acquired r : quiet (way_out_ mode acquired r).
Proof.
  assert (∀ e o, quiet_out lease o ((_close_acquired env lease clock ttl is_relinquishing close relinquish
    true acquired Discarded (Some e) None false;;; raise (A:=list (string * json)) e) o).2) as Hd.
  { intros e o. apply quiet_bind; [apply quiet_close|intros; apply quiet_raise]. }
  assert (∀ e, quiet (_relinquish_acquired env is_relinquishing relinquish acquired;;;
    raise (A:=list (string * json)) e)) as Hr.
  { intros e. apply quiet_bind; [apply quiet_relinquish|intros; apply quiet_raise]. }
  unfold way_out. destruct r as [outputs|e].
  - apply quiet_bind; [apply quiet_close|intros; apply quiet_eret].
  - destruct e; try (intros o; apply Hd); try apply Hr.
    1,2: intros o; destruct (o_lost o); [apply Hr|apply Hd].
    apply quiet_bind; [apply quiet_close|intros; apply quiet_raise].
Qed.
Lemma way_out_ok mode acquired r o outputs o' :
  way_out_ mode acquired r o = (Ok outputs, o') → r = Ok outputs.
Proof.
  unfold way_out. cbv zeta. destruct r as [outputs2|e].
  - intros E. by apply ebind_ok in E as (? & ? & _ & [= -> _]).
  - intros E. exfalso. destruct e; try (by apply ebind_ok in E as (? & ? & _ & E));
      destruct (o_lost o); by apply ebind_ok in E as (? & ? & _ & E).
Qed.
(** An invocation: its start, its body and its way out. *)
Lemma invoke_phases m em mode i path inputs h o r o' :
  invoke_ m em mode i path inputs h o = (r, o') →
  (∃ e, r = Raise e) ∧ quiet_out lease o o' ∨
  ∃ o1 self impl rb o2 acquired, quiet_out lease o o1 ∧
    invocation_ m em i impl self path inputs h (o1, []) = (rb, (o2, acquired)) ∧
    scene (eq path) (o1, []) (o2, acquired) ∧ way_out_ mode acquired rb o2 = (r, o').
Proof.
  unfold _invoke. unfold ebind at 1. pose proof (quiet_log lease "NodeStarted" (Some path) None eq_refl eq_refl o) as H.
  destruct (log lease "NodeStarted" (Some path) None o) as [[[]|e] o1]; simpl in H.
  2: { intros [= <- <-]. left. by eauto. }
  destruct (grants_of m _) as [self|]; [|intros [= <- <-]; left; by eauto].
  destruct (in_impl i) as [impl|]; [|intros [= <- <-]; left; by eauto].
  destruct (invocation_ m em i impl self path inputs h (o1, [])) as [rb [o2 acquired]] eqn:E2. intros E. right.
  exists o1, self, impl, rb, o2, acquired. split; [done|]. split; [done|]. split; [|done].
  pose proof (scene_invocation m em i impl self path inputs h (o1, [])) as H2. by rewrite E2 in H2.
Qed.
Lemma scene_obs P a b : scene P a b → obs lease P a.1.(o_store) b.1.(o_store).
Proof. intros [H _]. by eapply leaves_obs. Qed.
#[export] Instance invoke_lawful m em mode : InvokeLaws lease (invoke_ m em mode).
Proof.
  split.
  - intros i path inputs h o. destruct (invoke_ m em mode i path inputs h o) as [r o'] eqn:E.
    apply invoke_phases in E as [[_ H]|(o1 & self & impl & rb & o2 & acquired & H1 & _ & H2 & E)].
    + by apply quiet_obs.
    + pose proof (quiet_way_out mode acquired rb o2) as H3. rewrite E in H3. simpl in *.
      etrans; [by apply quiet_obs|]. etrans; [|by apply quiet_obs]. by apply (scene_obs _ _ _ H2).
  - intros i path inputs h o outputs o' Hg Hm Hcur Hn E.
    apply invoke_phases in E as [[[e [=]] _]|(o1 & self & impl & rb & o2 & acquired & H1 & E2 & H2 & E)].
    pose proof (quiet_way_out mode acquired rb o2) as H3. rewrite E in H3. simpl in H3.
    apply way_out_ok in E as ->. apply (quiet_obs lease nowhere) in H1, H3. apply scene_obs in H2. simpl in H2.
    assert (current lease o2.(o_store)) as Hcur2 by (eapply current_steps; [apply H3|done]).
    assert (current lease o1.(o_store)) as Hcur1 by (eapply current_steps; [apply H2|done]).
    eapply invocation_done in E2 as (c & Hc & Hx & Hp);
      [|eapply good_steps; [apply H1|done]|eapply mine_steps; [apply H1|done]|done
       |by rewrite (obs_same _ _ _ _ _ H1 Hm Hcur1) by (by intros [])].
    exists c. split_and!; [|done|done]. eapply checkpoint_steps; [apply H3|done].
Qed.
End invoke.
