(* ===== verification/WalkRuns.v ===== *)
(** Executing a unit agrees with replaying it from its completions: what
    [_execute_or_restore] and [_execute_loop] leave in the store is exactly
    what [_restore_checked_checkpoint] and [_inspect_loop_history] accept, with
    the same values. *)

From S2P Require Import Prelude Identity Address Graph Component Capability Manifest Message.
From S2P Require Import Run Effect Journal EffectStore JournalSpec Units UnitsSpec Walk WalkSpec.

Section runs.
Context {N : Type} (lease : RunLease).
Context (env : nat → store → weather) `{!EnvLaw lease env}.
Context (invoke : _Instance N → ExecutionPath → list (string * json) → Digest → O (list (string * json)))
  `{!InvokeLaws lease invoke}.
Abbreviation run := (lease.(lease_run)) (only parsing).
Abbreviation bindings := (list (string * ResolvedPortBinding)) (only parsing).
Implicit Types (by_scope : list (list string * _Instance N)) (bs : bindings) (vs : values).

(** ** Footprints *)
Lemma keeps_sleep0 P : keeps (obs_out lease P) (sleep0 env).
Proof.
  intros o. apply quiet_obs. unfold sleep0, quiet_out. simpl.
  destruct (env_foreign o.(o_tick) o.(o_store)) as (cs & Hcs & ->). by apply foreign_calls_leaves.
Qed.
Ltac log := apply keeps_log; reflexivity.
Lemma keeps_invoke_failed P path e : keeps (obs_out lease P) (invoke_failed lease path e).
Proof.
  unfold invoke_failed.
  destruct e; try (apply keeps_raise, _);
    try (apply keeps_bind; [apply _|log|intros; apply keeps_eret, _]).
  - destruct (_reason_carries_its_own_evidence _); [|apply keeps_raise, _].
    apply keeps_bind; [apply _|log|intros; apply keeps_eret, _].
  - destruct node_error; [|apply keeps_raise, _]. destruct (contained _); [|apply keeps_raise, _].
    apply keeps_bind; [apply _| |intros; apply keeps_raise, _].
    apply keeps_catch; [apply _| |].
    + apply keeps_bind; [apply _|log|intros; apply keeps_eret, _].
    + intros d. destruct d; first [apply keeps_raise, _|apply keeps_eret, _].
Qed.
Lemma keeps_execute i path vs bs :
  keeps (obs_out lease (eq path)) (_execute_or_restore invoke lease i path vs bs).
Proof.
  unfold _execute_or_restore. apply keeps_bind; [apply _|apply keeps_lift, _|]. intros inputs.
  cbv zeta. apply keeps_bind; [apply _|apply keeps_journal, keeps_checkpoint|]. intros [c|].
  - destruct (contradicts _ _ _); [apply keeps_raise, _|].
    apply keeps_bind; [apply _|log|]. intros _.
    apply keeps_bind; [apply _|apply keeps_lift, _|intros; apply keeps_eret, _].
  - apply keeps_bind; [apply _| |].
    + apply keeps_catch; [apply _| |].
      * apply keeps_bind; [apply _|apply invoke_obs|intros; apply keeps_eret, _].
      * intros e. apply keeps_bind; [apply _|apply keeps_invoke_failed|intros; apply keeps_eret, _].
    + intros [o|outputs]; [apply keeps_eret, _|].
      apply keeps_bind; [apply _|apply keeps_lift, _|intros; apply keeps_eret, _].
Qed.

(** Every path of one loop, and of one of its iterations. *)
Definition of_loop (l : ScopePath) (p : ExecutionPath) : Prop := ∃ m n, p = mkPath m [mkFrame l n].
Definition of_iteration (l : ScopePath) (index : nat) (p : ExecutionPath) : Prop :=
  ∃ m, p = mkPath m [mkFrame l (N.of_nat index)].
Lemma of_iteration_member l index m : of_iteration l.(loop_scope) index (member_path l index m).
Proof. by exists m. Qed.
Lemma of_iteration_loop l index p : of_iteration l index p → of_loop l p.
Proof. intros [m ->]. by eexists _, _. Qed.

Lemma world_eret {A} P (a : A) : keeps (E:=exn) (obs_world lease P) (eret a).
Proof. apply keeps_eret, _. Qed.
Lemma world_raise {A} P (e : exn) : keeps (obs_world lease P) (raise (A:=A) e).
Proof. apply keeps_raise, _. Qed.
Lemma world_lift {A} P (r : result exn A) : keeps (obs_world lease P) (lift r).
Proof. apply keeps_lift, _. Qed.
Lemma world_log P kind path p :
  reserved kind = false → payload_key p = None → keeps (obs_world lease P) (out (log lease kind path p)).
Proof. intros. by apply keeps_out, keeps_log. Qed.
Lemma world_bind {A B} P (m : W A) (f : A → W B) :
  keeps (obs_world lease P) m → (∀ a, keeps (obs_world lease P) (f a)) → keeps (obs_world lease P) (ebind m f).
Proof. intros Hm Hf. apply keeps_bind; [apply _|done|done]. Qed.
Lemma dict_set_nonempty {V} (k : string) (v : V) d : Dict.set k v d ≠ [].
Proof. destruct d as [|[k' v'] d]; simpl; [done|]. by case_decide. Qed.
Lemma unclean_fail k e w : ¬ clean (fail_unit k e w).2.
Proof. intros [H _]. by apply dict_set_nonempty in H. Qed.
Lemma unclean_block r w : ¬ clean (block_unit r w).2.
Proof. intros (_ & H & _). simpl in H. by destruct (w_blocked w). Qed.
Lemma unclean_park u w : ¬ clean (park_unit u w).2.
Proof. intros (_ & _ & H). simpl in H. by destruct (w_parked w). Qed.
Lemma world_fail P k e : keeps (obs_world lease P) (fail_unit k e).
Proof. intros w. split; [done|]. by intros ?%unclean_fail. Qed.
Lemma world_block P r : keeps (obs_world lease P) (block_unit r).
Proof. intros w. split; [done|]. by intros ?%unclean_block. Qed.
Lemma world_park P u : keeps (obs_world lease P) (park_unit u).
Proof. intros w. split; [done|]. by intros ?%unclean_park. Qed.
Lemma world_sleep P : keeps (obs_world lease P) (out (sleep0 env)).
Proof. apply keeps_out, keeps_sleep0. Qed.
Lemma world_control P : keeps (obs_world lease P) (out (_check_run_control lease)).
Proof. apply keeps_out, keeps_control. Qed.
Lemma world_execute (P : ExecutionPath → Prop) i path vs bs :
  P path → keeps (obs_world lease P) (out (_execute_or_restore invoke lease i path vs bs)).
Proof. intros HP. eapply keeps_out, keeps_mono; [|apply keeps_execute]. by intros p <-. Qed.
Lemma world_block_at P path kind r : reserved kind = false → keeps (obs_world lease P) (block_at lease path kind r).
Proof. intros. unfold block_at. apply world_bind; [apply world_block|intros; by apply world_log]. Qed.
Lemma world_checkpoint P path : keeps (obs_world lease P) (out (journal (checkpoint run path))).
Proof. apply keeps_out, keeps_journal, keeps_checkpoint. Qed.
Lemma world_inspect P l by_scope bs outer rt :
  keeps (obs_world lease P) (out (journal (_inspect_loop_history run l by_scope bs outer rt))).
Proof. apply keeps_out, keeps_journal, keeps_inspect. Qed.
Create HintDb world.
#[local] Hint Resolve world_checkpoint world_inspect world_eret world_raise world_lift world_fail world_block world_park world_sleep
  world_control world_log world_block_at : world.
Ltac world := repeat first [by eauto with world | apply world_bind; [|intros ?] | progress cbv zeta].

Lemma world_members (P : ExecutionPath → Prop) l by_scope bs mp index scopes it :
  (∀ p, of_iteration l.(loop_scope) index p → P p) →
  keeps (obs_world lease P) (run_members env invoke lease l by_scope bs mp index scopes it).
Proof.
  intros HP. revert it. induction scopes as [|scope scopes IH]; intros it; simpl; [world|].
  world. destruct (Dict.get _ _) as [i|]; [|world]. cbv zeta.
  destruct (negb _); [world|]. destruct (it_failed it); [world|].
  world; [by apply world_execute, HP; eexists|].
  destruct a2.1; world.
Qed.
Lemma world_iterations (P : ExecutionPath → Prop) l by_scope bs mp outer indices previous executed :
  (∀ p, of_loop l.(loop_scope) p → P p) →
  keeps (obs_world lease P) (run_iterations env invoke lease l by_scope bs mp outer indices previous executed).
Proof.
  intros HP. revert previous executed. induction indices as [|index indices IH]; intros previous executed; simpl.
  { cbv zeta. world. by destruct executed; world. }
  world; [apply world_members; intros p ?%of_iteration_loop; auto|].
  destruct a2 as [[]|it]; [world|]. destruct (it_failed it); [world|].
  destruct (_loop_decision _ _) as [d|e]; world; [by destruct (it_restored_only it); world|].
  destruct (negb d); [world|by apply IH]. by destruct (it_executed it); world.
Qed.
Lemma world_loop (P : ExecutionPath → Prop) l by_scope bs outer :
  (∀ p, of_loop l.(loop_scope) p → P p) →
  keeps (obs_world lease P) (_execute_loop env invoke lease l by_scope bs outer).
Proof.
  intros HP. unfold _execute_loop. world.
  by apply world_iterations.
Qed.
(** The paths of one unit. *)
Definition footprint (u : _Unit N) (p : ExecutionPath) : Prop :=
  match u.(unit_instance), u.(unit_loop) with
  | Some _, _ => p = mkPath u.(unit_scope) []
  | None, Some l => of_loop l.(loop_scope) p
  | None, None => False
  end.
Lemma world_unit (P : ExecutionPath → Prop) by_scope bs producers st u :
  (∀ p, footprint u p → P p) →
  keeps (obs_world lease P) (run_unit env invoke lease by_scope bs producers st u).
Proof.
  intros HP. unfold footprint in HP. unfold run_unit. destruct st as [vs status]. world.
  destruct (negb _); [destruct (unit_instance u); world|].
  destruct (unit_instance u) as [i|]; [|destruct (unit_loop u) as [l|]; [|world]].
  - world; [by apply world_execute, HP|]. destruct a1.1; world.
  - apply world_bind; [by apply world_loop|intros; world].
Qed.

(** ** What a clean execution leaves *)
Definition ready (s : store) : Prop := good s ∧ mine lease s.
Lemma ready_steps s s' : rtc jstep s s' → ready s → ready s'.
Proof. intros H [Hg Hm]. split; [by eapply good_steps|by eapply mine_steps]. Qed.
Lemma obs_use {A} P (m : W A) w r w' :
  keeps (obs_world lease P) m → m w = (r, w') →
  obs lease P w.(w_out).(o_store) w'.(w_out).(o_store) ∧ (clean w' → clean w).
Proof. intros H E. specialize (H w). rewrite E in H. exact H. Qed.

Lemma invoke_failed_not_done path e o o' : invoke_failed lease path e o ≠ (Ok NDone, o').
Proof.
  assert (∀ kind q p (x : node_outcome) o, x ≠ NDone →
    (log lease kind q p;;; eret x) o ≠ (Ok NDone, o')) as Hlog.
  { intros kind q p x o1 Hx E. apply ebind_ok in E as ([] & o2 & _ & E). by injection E. }
  unfold invoke_failed. destruct e; try (by apply Hlog); try done.
  - by destruct (_reason_carries_its_own_evidence _); [apply Hlog|].
  - destruct node_error; [|done]. destruct (contained _); [|done].
    intros E. apply ebind_ok in E as (? & ? & _ & E). done.
Qed.
Lemma journal_checkpoint path o :
  good o.(o_store) → journal (checkpoint run path) o = (Ok (cks lease o.(o_store) path), o).
Proof.
  intros H. unfold journal, checkpoint, ebind, get, lift. rewrite stored_checkpoint_good by done.
  by destruct o.
Qed.
Lemma execute_done i path vs bs o vs' o' :
  ready o.(o_store) → current lease o'.(o_store) →
  _execute_or_restore invoke lease i path vs bs o = (Ok (NDone, vs'), o') →
  ∃ c, cks lease o'.(o_store) path = Some c ∧ _restore_checked_checkpoint i c vs bs = Ok vs'.
Proof.
  intros [Hg Hm] Hcur. unfold _execute_or_restore. intros E.
  apply ebind_ok in E as (inputs & o1 & Hi & E). injection Hi as Hi <-. cbv zeta in E.
  apply ebind_ok in E as (c & o1 & Hc & E). rewrite journal_checkpoint in Hc by done.
  injection Hc as <- <-. destruct (cks lease (o_store o) path) as [c|] eqn:Ec.
  - destruct (contradicts _ _ _) eqn:Ex; [done|].
    apply ebind_ok in E as ([] & o1 & Hl & E). apply ebind_ok in E as (vs1 & o2 & Hp & E).
    injection Hp as Hp <-. injection E as <- <-. exists c. split.
    + eapply checkpoint_steps; [|exact Ec].
      pose proof (keeps_log lease nowhere "NodeRestored" (Some path) None eq_refl eq_refl o) as Ho.
      rewrite Hl in Ho. apply Ho.
    + unfold _restore_checked_checkpoint. rewrite Hi. cbn. by rewrite Ex.
  - apply ebind_ok in E as (r & o1 & Hr & E). unfold catch in Hr.
    destruct (ebind _ _ o) as [[r'|e] o2] eqn:Ei in Hr.
    + injection Hr as -> ->. apply ebind_ok in Ei as (outputs & o2 & Ei & Er).
      injection Er as <- <-. apply ebind_ok in E as (vs1 & o3 & Hp & E).
      injection Hp as Hp <-. injection E as <- <-.
      destruct (invoke_durable i path inputs _ _ _ _ Hg Hm Hcur Ec Ei) as (c & Hc & Hx & <-).
      exists c. split; [done|]. unfold _restore_checked_checkpoint. rewrite Hi. cbn. by rewrite Hx.
    + apply ebind_ok in Hr as (oc & o3 & Hf & Hr). injection Hr as <- <-.
      injection E as -> <- <-. by apply invoke_failed_not_done in Hf.
Qed.

(** The completions of an iteration's members. *)
Definition rows (s : store) (l : LoopResolution) (index : nat) (scopes : list ScopePath) :
    list (option Checkpoint) := (λ m, cks lease s (member_path l index m)) <$> scopes.
Lemma member_get by_scope scope i :
  Dict.get (segs scope) by_scope = Some i → member by_scope scope = Ok i.
Proof. unfold member. by intros ->. Qed.
Lemma out_ok {A} (m : O A) w a w' :
  out m w = (Ok a, w') → m w.(w_out) = (Ok a, w'.(w_out)) ∧
    w' = mkWorld w'.(w_out) w.(w_failures) w.(w_blocked) w.(w_parked).
Proof. unfold out. destruct (m _) as [r o]. intros [= -> <-]. done. Qed.

Lemma members_clean l by_scope bs mp index scopes it w r w' :
  ready w.(w_out).(o_store) → current lease w'.(w_out).(o_store) → clean w' →
  it.(it_failed) = false →
  run_members env invoke lease l by_scope bs mp index scopes it w = (Ok r, w') →
  ∃ it' cs, r = inr it' ∧ it'.(it_failed) = false ∧
    rows w'.(w_out).(o_store) l index scopes = Some <$> cs ∧
    restore_prefix by_scope bs (zip scopes (Some <$> cs)) it.(it_values) = Ok it'.(it_values).
Proof.
  revert it w. induction scopes as [|scope scopes IH]; intros it w Hr Hcur Hcl Hf E; simpl in E.
  { injection E as <- <-. by exists it, []. }
  apply ebind_ok in E as (u1 & w1 & E1 & E). apply ebind_ok in E as (u2 & w2 & E2 & E).
  apply (obs_use nowhere) in E1 as [[H1 _] _]; [|apply world_sleep].
  apply (obs_use nowhere) in E2 as [[H2 _] _]; [|apply world_control].
  assert (ready w2.(w_out).(o_store)) as Hr2 by (eapply ready_steps; [|exact Hr]; by etrans).
  destruct (Dict.get (segs scope) by_scope) as [i|] eqn:Ei; [|done]. cbv zeta in E.
  destruct (negb _).
  { exfalso. apply ebind_ok in E as (u3 & w3 & E3 & E).
    apply (obs_use (λ _, True)) in E as [_ Hc]; [|by apply world_members].
    unfold block_at in E3. apply ebind_ok in E3 as (u4 & w4 & E4 & E3).
    apply (obs_use nowhere) in E3 as [_ Hc3]; [|by apply world_log].
    injection E4 as _ <-. eapply unclean_block. by apply Hc3, Hc. }
  rewrite Hf in E. apply ebind_ok in E as (had & w3 & E3 & E).
  apply out_ok in E3 as [E3 Hw3]. rewrite journal_checkpoint in E3 by apply Hr2.
  injection E3 as _ E3. apply ebind_ok in E as ([outcome vs] & w4 & E4 & E). simpl in E.
  destruct outcome as [|u|e].
  - apply out_ok in E4 as [E4 Hw4]. rewrite <-E3 in E4.
    assert (rtc jstep w4.(w_out).(o_store) w'.(w_out).(o_store)) as Hs.
    { apply (obs_use (λ _, True)) in E as [[? _] _]; [done|by apply world_members]. }
    assert (rtc jstep w2.(w_out).(o_store) w4.(w_out).(o_store)) as Hs'.
    { pose proof (keeps_execute i (member_path l index scope) (it_values it) bs w2.(w_out)) as H.
      rewrite E4 in H. apply H. }
    destruct (execute_done _ _ _ _ _ _ _ Hr2 (current_steps _ _ _ Hs Hcur) E4) as (c & Hc & Hrc).
    apply IH in E as (it' & cs & -> & Hf' & Hrows & Hrest); [|by eapply ready_steps|done|done|done].
    exists it', (c :: cs). split; [done|]. split; [done|]. split.
    + unfold rows in *. rewrite !fmap_cons, Hrows. f_equal. by eapply checkpoint_steps.
    + simpl. rewrite (member_get _ _ _ Ei). cbn. rewrite Hrc. exact Hrest.
  - exfalso. apply ebind_ok in E as (u3 & w5 & E5 & E). apply ebind_ok in E as (u4 & w6 & E6 & E).
    apply (obs_use nowhere) in E6 as [_ Hc6]; [|by apply world_log].
    injection E as _ <-. injection E5 as _ <-. eapply unclean_park. by apply Hc6.
  - exfalso. apply ebind_ok in E as (u3 & w5 & E5 & E).
    apply (obs_use (λ _, True)) in E as [_ Hc]; [|by apply world_members].
    injection E5 as _ <-. eapply unclean_fail. by apply Hc.
Qed.

(** ** One loop, executed and replayed *)
Lemma rows_kept P s s' l j :
  obs lease P s s' → mine lease s → current lease s' →
  (∀ p, P p → ∃ index, index ≠ j ∧ of_iteration l.(loop_scope) index p) →
  rows s' l j l.(member_order) = rows s l j l.(member_order).
Proof.
  intros H Hm Hc HP. apply list_fmap_ext. intros _ m _. eapply obs_same; [done..|].
  intros (index & Hne & m' & Heq)%HP. injection Heq as _ Heq. lia.
Qed.
Lemma rows_grow s s' l j cs scopes :
  rtc jstep s s' → rows s l j scopes = Some <$> cs → rows s' l j scopes = Some <$> cs.
Proof.
  intros Hs. revert cs. induction scopes as [|m scopes IH]; intros [|c cs] H; try done.
  unfold rows in *. rewrite !fmap_cons in *. injection H as Hc H. f_equal; [|by apply IH].
  by eapply checkpoint_steps.
Qed.
Lemma present_all {A} (cs : list Checkpoint) (row : list A) :
  length row = length cs → row ≠ [] →
  existsb id (present (Some <$> cs)) = true ∧ forallb id (present (Some <$> cs)) = true ∧
  ∀ b, gap b (present (Some <$> cs)) = b.
Proof.
  intros Hl Hne. assert (cs ≠ []) as Hcs by (by destruct cs, row).
  assert (present (Some <$> cs) = replicate (length cs) true) as ->.
  { clear. unfold present. induction cs as [|c cs IH]; [done|]. rewrite !fmap_cons. simpl. by rewrite IH. }
  destruct cs as [|c cs]; [done|]. simpl. split; [done|]. split.
  - clear. induction (length cs); [done|]. simpl. done.
  - intros [|]; [done|]. clear. induction (length cs); done.
Qed.
Lemma inspect_empty l by_scope bs outer index completed previous matrix :
  any_present matrix = false →
  is_ok (inspect_matrix l by_scope bs outer false index completed previous matrix) = true.
Proof.
  unfold any_present. destruct matrix as [|row later]; [done|].
  simpl. intros [H1 H2]%orb_false_iff. rewrite H1. simpl. unfold any_present. by rewrite H2.
Qed.
(** The matrix of one loop's completions. *)
Definition matrix_at (s : store) (l : LoopResolution) (indices : list nat) : list (list (option Checkpoint)) :=
  (λ index, rows s l index l.(member_order)) <$> indices.

(** A full first row: what the inspection does next. *)
Lemma inspect_full l by_scope bs outer rt index completed previous cs later vs vs' :
  length cs = length l.(member_order) → l.(member_order) ≠ [] →
  _seed_loop_iteration l index outer previous = Ok vs →
  restore_prefix by_scope bs (zip l.(member_order) (Some <$> cs)) vs = Ok vs' →
  inspect_matrix l by_scope bs outer rt index completed previous ((Some <$> cs) :: later)
  = match _loop_decision l vs' with
    | Raise e => Raise e
    | Ok false => if any_present later then Raise (JournalDamaged (AfterTerminal l.(loop_scope) index))
                  else Ok (mkHistory (S completed) (Some index) false (Some vs'))
    | Ok true => inspect_matrix l by_scope bs outer rt (S index) (S completed) (Some vs') later
    end.
Proof.
  intros Hl Hne Hseed Hrest. simpl.
  destruct (present_all cs l.(member_order) (eq_sym Hl) Hne) as (-> & -> & Hg). rewrite Hg. simpl.
  rewrite Hseed. cbn. rewrite Hrest. cbn. by destruct (_loop_decision l vs') as [[|]|].
Qed.

(** The inspection of an older store accepted it: after its first row was
    completed, it accepts what comes later, or nothing comes later. *)
Lemma inspect_next l by_scope bs outer index completed previous row later cs vs vs' :
  length cs = length l.(member_order) → l.(member_order) ≠ [] →
  (∀ cs0, row = Some <$> cs0 → cs0 = cs) →
  _seed_loop_iteration l index outer previous = Ok vs →
  restore_prefix by_scope bs (zip l.(member_order) (Some <$> cs)) vs = Ok vs' →
  is_ok (inspect_matrix l by_scope bs outer false index completed previous (row :: later)) = true →
  match _loop_decision l vs' with
  | Ok true => is_ok (inspect_matrix l by_scope bs outer false (S index) (S completed) (Some vs') later) = true
  | Ok false => any_present later = false
  | Raise _ => True
  end.
Proof.
  intros Hl Hne Hrow Hseed Hrest Hin. destruct (forallb id (present row)) eqn:Eall.
  - assert (∃ cs0, row = Some <$> cs0) as [cs0 Hcs0].
    { clear -Eall. unfold present in Eall. induction row as [|[c|] row IH]; [by exists []| |done].
      simpl in Eall. destruct (IH Eall) as [cs0 ->]. by exists (c :: cs0). }
    rewrite Hcs0, (Hrow _ Hcs0), (inspect_full _ _ _ _ _ _ _ _ _ _ _ _ Hl Hne Hseed Hrest) in Hin.
    destruct (_loop_decision l vs') as [[|]|]; [exact Hin|by destruct (any_present later)|done].
  - assert (any_present later = false) as Hlate.
    { simpl in Hin. rewrite Eall in Hin. simpl in Hin.
      destruct (negb (existsb id (present row))); [by destruct (any_present later)|].
      destruct (gap false (present row)); [done|]. by destruct (any_present later). }
    destruct (_loop_decision l vs') as [[|]|]; [by apply inspect_empty|done|done].
Qed.
Lemma matrix_kept P s s' l indices :
  obs lease P s s' → mine lease s → current lease s' →
  (∀ p j, P p → j ∈ indices → ∃ index, index ≠ j ∧ of_iteration l.(loop_scope) index p) →
  matrix_at s' l indices = matrix_at s l indices.
Proof.
  intros Ho Hm Hc HP. apply list_fmap_ext. intros i j Hj. eapply rows_kept; [done..|].
  intros p Hp. apply HP; [done|by eapply list_elem_of_lookup_2].
Qed.

(** What [run_iterations] does after the members of one iteration. *)
Definition after_members (l : LoopResolution) by_scope bs mp outer index indices it : W (InvocationStatus * values) :=
  let loop_path := mkPath l.(loop_scope) [] in
  match _loop_decision l it.(it_values) with
  | Raise e =>
      fail_unit (render_path loop_path) e;;;
      out (log lease "LoopFailed" (Some loop_path) (Some (PLoopError e index)));;;
      eret (InvocationFailed, outer)
  | Ok decision =>
      out (log lease (if it.(it_restored_only) then "LoopIterationRestored" else "LoopIterationCompleted")
             (Some (member_path l index l.(loop_scope)))
             (Some (PMembers [("continue", JBool decision)])));;;
      if negb decision then
        let* outer := lift (_publish_loop_exports l it.(it_values) outer) in
        out (log lease (if it.(it_executed) then "LoopCompleted" else "LoopRestored") (Some loop_path)
               (Some (PMembers [("iterations", JInt (Z.of_nat index + 1))])));;;
        eret (Completed, outer)
      else run_iterations env invoke lease l by_scope bs mp outer indices
             (Some it.(it_values)) it.(it_executed)
  end.
Lemma world_after (P : ExecutionPath → Prop) l by_scope bs mp outer index indices it :
  (∀ p, of_loop l.(loop_scope) p → P p) →
  keeps (obs_world lease P) (after_members l by_scope bs mp outer index indices it).
Proof.
  intros HP. unfold after_members. destruct (_loop_decision _ _) as [d|e]; world.
  { by destruct (it_restored_only it); world. }
  destruct (negb d); [world|by apply world_iterations]. by destruct (it_executed it); world.
Qed.

(** One iteration of a clean execution. *)
Record iterated (l : LoopResolution) by_scope bs mp outer index indices previous (w : world)
    (r : result exn (InvocationStatus * values)) (w' : world) (cs : list Checkpoint) (start : values)
    (it : iteration_state) (w1 : world) : Prop := {
  ir_seed : _seed_loop_iteration l index outer previous = Ok start;
  ir_length : length cs = length l.(member_order);
  ir_rows : rows w1.(w_out).(o_store) l index l.(member_order) = Some <$> cs;
  ir_restore : restore_prefix by_scope bs (zip l.(member_order) (Some <$> cs)) start = Ok it.(it_values);
  ir_before : obs lease (of_iteration l.(loop_scope) index) w.(w_out).(o_store) w1.(w_out).(o_store);
  ir_after : obs lease (of_loop l.(loop_scope)) w1.(w_out).(o_store) w'.(w_out).(o_store);
  ir_rest : after_members l by_scope bs mp outer index indices it w1 = (r, w');
}.
Lemma iteration_clean l by_scope bs mp outer index indices previous executed w r w' :
  ready w.(w_out).(o_store) → current lease w'.(w_out).(o_store) → clean w' → is_ok r = true →
  run_iterations env invoke lease l by_scope bs mp outer (index :: indices) previous executed w = (r, w') →
  ∃ cs start it w1, iterated l by_scope bs mp outer index indices previous w r w' cs start it w1.
Proof.
  intros Hr Hcur Hcl Hok E. destruct r as [r|]; [|done].
  cbn [run_iterations] in E. cbv zeta in E.
  apply ebind_ok in E as (u1 & w1 & E1 & E). apply ebind_ok in E as (u2 & w2 & E2 & E).
  apply (obs_use nowhere) in E1 as [H1 _]; [|apply world_sleep].
  apply (obs_use nowhere) in E2 as [H2 _]; [|apply world_control].
  apply ebind_ok in E as (start & w3 & Hseed & E). injection Hseed as Hseed <-.
  apply ebind_ok in E as (rr & w4 & E4 & E).
  assert (obs lease nowhere w.(w_out).(o_store) w2.(w_out).(o_store)) as H02 by (by etrans).
  assert (ready w2.(w_out).(o_store)) as Hr2 by (eapply ready_steps; [apply H02|done]).
  destruct (obs_use (of_iteration l.(loop_scope) index) _ _ _ _
    (world_members _ _ _ _ _ _ _ _ (λ _ H, H)) E4) as [H24 _].
  assert (obs lease (of_loop l.(loop_scope)) w4.(w_out).(o_store) w'.(w_out).(o_store) ∧ (clean w' → clean w4))
    as [H4 Hcl4].
  { destruct rr as [[]|it]; [by injection E as _ <-|].
    destruct (it_failed it); [by injection E as _ <-|].
    refine (obs_use _ _ _ _ _ (world_after _ _ _ _ _ _ _ _ _ (λ _ H, H)) E). }
  assert (current lease w4.(w_out).(o_store)) as Hcur4 by (eapply current_steps; [apply H4|done]).
  pose proof (λ r1 r2 r3 r4, members_clean _ _ _ _ _ _ _ _ _ _ r1 r2 r3 r4 E4) as Hmem.
  destruct (Hmem Hr2 Hcur4 (Hcl4 Hcl) eq_refl) as (it & cs & -> & Hf & Hrows & Hrest).
  rewrite Hf in E. exists cs, start, it, w4. split; try done.
  - apply (f_equal length) in Hrows. unfold rows in Hrows. by rewrite !length_fmap in Hrows.
  - etrans; [by apply obs_nowhere|exact H24].
Qed.

Lemma iterations_clean l by_scope bs mp outer n index previous executed completed w st outer' w' :
  l.(member_order) ≠ [] →
  ready w.(w_out).(o_store) → current lease w'.(w_out).(o_store) → clean w' →
  is_ok (inspect_matrix l by_scope bs outer false index completed previous
           (matrix_at w.(w_out).(o_store) l (seq index n))) = true →
  run_iterations env invoke lease l by_scope bs mp outer (seq index n) previous executed w
  = (Ok (st, outer'), w') →
  st = Completed ∧ ∃ k c vs,
    inspect_matrix l by_scope bs outer true index completed previous
      (matrix_at w'.(w_out).(o_store) l (seq index n)) = Ok (mkHistory c (Some k) false (Some vs)) ∧
    _publish_loop_exports l vs outer = Ok outer'.
Proof.
  intros Hne. revert index previous executed completed w.
  induction n as [|n IH]; intros index previous executed completed w Hr Hcur Hcl Hin E.
  { exfalso. simpl in E. apply ebind_ok in E as (u1 & w1 & E1 & E).
    apply ebind_ok in E as (u2 & w2 & E2 & E). injection E as _ _ <-.
    apply (obs_use nowhere) in E2 as [_ Hc]; [|destruct executed; by apply world_log].
    injection E1 as _ <-. eapply unclean_park. by apply Hc. }
  cbn [seq] in E. apply iteration_clean in E as (cs & start & it & w1 & [Hseed Hlen Hrows Hrest Hb Ha E]);
    [|done..].
  assert (ready w1.(w_out).(o_store)) as Hr1 by (eapply ready_steps; [apply Hb|done]).
  assert (current lease w1.(w_out).(o_store)) as Hcur1 by (eapply current_steps; [apply Ha|done]).
  assert (∀ cs0, rows w.(w_out).(o_store) l index l.(member_order) = Some <$> cs0 → cs0 = cs) as Hagree.
  { intros cs0 Hcs0. apply (inj (fmap (M:=list) (A:=Checkpoint) Some)). rewrite <-Hrows. symmetry.
    eapply rows_grow; [apply Hb|exact Hcs0]. }
  pose proof (inspect_next l by_scope bs outer index completed previous _
    (matrix_at w.(w_out).(o_store) l (seq (S index) n)) cs start _ Hlen Hne Hagree Hseed Hrest Hin) as Hnext.
  assert (matrix_at w1.(w_out).(o_store) l (seq (S index) n)
          = matrix_at w.(w_out).(o_store) l (seq (S index) n)) as Hlater.
  { eapply matrix_kept; [exact Hb|apply Hr|done|].
    intros p j Hp [Hj _]%elem_of_seq. exists index. split; [lia|done]. }
  rewrite <-Hlater in Hnext. unfold matrix_at at 1. cbn [seq]. rewrite fmap_cons.
  rewrite (rows_grow _ _ _ _ _ _ (proj1 Ha) Hrows).
  fold (matrix_at w'.(w_out).(o_store) l (seq (S index) n)).
  rewrite (inspect_full _ _ _ _ _ _ _ _ _ _ _ _ Hlen Hne Hseed Hrest).
  unfold after_members in E. destruct (_loop_decision l (it_values it)) as [d|e] eqn:Ed.
  2: { exfalso. apply ebind_ok in E as (u5 & w5 & E5 & E). apply ebind_ok in E as (u6 & w6 & E6 & E).
    apply (obs_use nowhere) in E6 as [_ Hc6]; [|by apply world_log].
    injection E as _ _ <-. injection E5 as _ <-. eapply unclean_fail. by apply Hc6. }
  cbv zeta in E. apply ebind_ok in E as (u5 & w5 & E5 & E).
  apply (obs_use nowhere) in E5 as [H5 _]; [|destruct (it_restored_only it); by apply world_log].
  destruct d; simpl in E.
  - eapply IH; [|done|done| |exact E]; [eapply ready_steps; [apply H5|done]|].
    pose proof (world_iterations _ l by_scope bs mp outer (seq (S index) n) (Some (it_values it))
      (it_executed it) (λ _ H, H) w5) as Hit. rewrite E in Hit.
    rewrite (matrix_kept nowhere _ _ _ _ H5 (proj2 Hr1)); [exact Hnext| |done].
    eapply current_steps; [apply Hit|done].
  - apply ebind_ok in E as (outer1 & w6 & E6 & E). injection E6 as E6 <-.
    apply ebind_ok in E as (u7 & w7 & E7 & E). injection E as <- <- <-.
    apply (obs_use nowhere) in E7 as [H7 _]; [|destruct (it_executed it); by apply world_log].
    split; [done|]. exists index, (S completed), (it_values it). split; [|done].
    rewrite (matrix_kept nowhere w1.(w_out).(o_store)); [by rewrite Hnext|by etrans|apply Hr1|done|done].
Qed.

Lemma inspect_at s l by_scope bs outer rt :
  good s →
  _inspect_loop_history run l by_scope bs outer rt s
  = (inspect_matrix l by_scope bs outer rt 0 0 None
       (matrix_at s l (seq 0 (Pos.to_nat l.(loop_max_iterations)))), s).
Proof.
  intros H. unfold _inspect_loop_history, loop_matrix, ebind.
  rewrite (emap_pure _ (λ index, rows s l index l.(member_order))); [done|].
  intros index _. apply emap_pure. intros scope _. unfold checkpoint, ebind, get, lift.
  by rewrite stored_checkpoint_good.
Qed.

(** ** The units *)
Definition wf_unit (u : _Unit N) : Prop :=
  match u.(unit_loop) with
  | Some l => l.(loop_scope) = u.(unit_scope) ∧ l.(member_order) ≠ []
  | None => True
  end.
Lemma loop_clean l by_scope bs outer w st outer' w' :
  l.(member_order) ≠ [] →
  ready w.(w_out).(o_store) → current lease w'.(w_out).(o_store) → clean w' →
  _execute_loop env invoke lease l by_scope bs outer w = (Ok (st, outer'), w') →
  st = Completed ∧ ∃ h k final,
    _inspect_loop_history run l by_scope bs outer true w'.(w_out).(o_store) = (Ok h, w'.(w_out).(o_store)) ∧
    h.(terminal_iteration) = Some k ∧ h.(final_values) = Some final ∧
    _publish_loop_exports l final outer = Ok outer'.
Proof.
  intros Hne Hr Hcur Hcl E. pose proof (world_loop (of_loop l.(loop_scope)) l by_scope bs outer (λ _ H, H) w) as [Hs _].
  rewrite E in Hs. unfold _execute_loop in E.
  apply ebind_ok in E as (h0 & w1 & E1 & E). apply out_ok in E1 as [E1 _].
  unfold journal in E1. rewrite inspect_at in E1 by apply Hr.
  injection E1 as E1 Ew. apply ebind_ok in E as (ms & w2 & E2 & E). injection E2 as _ <-.
  assert (w1.(w_out).(o_store) = w.(w_out).(o_store)) as Ew1 by (rewrite <-Ew; done).
  apply iterations_clean with (completed := 0) in E as [-> (k & c & final & Hin & Hex)];
    [|done|by rewrite Ew1|done|done|by rewrite Ew1, E1].
  split; [done|]. eexists _, k, final. rewrite inspect_at, Hin; [by split_and!|].
  eapply good_steps; [apply Hs|apply Hr].
Qed.
Lemma unit_clean by_scope bs producers vs status u w vs' status' w' :
  wf_unit u → ready w.(w_out).(o_store) → current lease w'.(w_out).(o_store) → clean w' →
  run_unit env invoke lease by_scope bs producers (vs, status) u w = (Ok (vs', status'), w') →
  materialize_unit run by_scope bs vs u w'.(w_out).(o_store) = (Ok vs', w'.(w_out).(o_store)).
Proof.
  intros Hwf Hr Hcur Hcl E.
  pose proof (world_unit (footprint u) by_scope bs producers (vs, status) u (λ _ H, H) w) as [Hs _].
  rewrite E in Hs. assert (good w'.(w_out).(o_store)) as Hg' by (eapply good_steps; [apply Hs|apply Hr]).
  unfold run_unit in E. cbv zeta in E.
  apply ebind_ok in E as (u1 & w1 & E1 & E). apply ebind_ok in E as (u2 & w2 & E2 & E).
  apply (obs_use nowhere) in E1 as [H1 _]; [|apply world_sleep].
  apply (obs_use nowhere) in E2 as [H2 _]; [|apply world_control].
  assert (ready w2.(w_out).(o_store)) as Hr2 by (eapply ready_steps; [|exact Hr]; etrans; [apply H1|apply H2]).
  destruct (negb _).
  { exfalso. apply ebind_ok in E as (u3 & w3 & E3 & E). injection E as _ _ <-.
    unfold block_at in E3. apply ebind_ok in E3 as (u4 & w4 & E4 & E3).
    apply (obs_use nowhere) in E3 as [_ Hc3]; [|destruct (unit_instance u); by apply world_log].
    injection E4 as _ <-. eapply unclean_block. by apply Hc3. }
  unfold materialize_unit, wf_unit in *. destruct (unit_instance u) as [i|].
  - apply ebind_ok in E as ([outcome vs1] & w3 & E3 & E). simpl in E.
    apply out_ok in E3 as [E3 _]. destruct outcome as [|p|e].
    + injection E as <- _ <-.
      destruct (execute_done _ _ _ _ _ _ _ Hr2 Hcur E3) as (c & Hc & Hrc).
      unfold ebind, checkpoint, get, lift. unfold ebind. rewrite stored_checkpoint_good by done.
      unfold cks in Hc. rewrite Hc. by rewrite Hrc.
    + exfalso. apply ebind_ok in E as (u3 & w4 & E4 & E). injection E as _ _ <-.
      apply (unclean_park p w3). by rewrite E4.
    + exfalso. apply ebind_ok in E as (u3 & w4 & E4 & E). injection E as _ _ <-.
      by eapply (unclean_fail _ e w3); rewrite E4.
  - destruct (unit_loop u) as [l|]; [|done]. destruct Hwf as [_ Hne].
    apply ebind_ok in E as ([st vs1] & w3 & E3 & E). injection E as <- _ <-.
    apply loop_clean in E3 as [_ (h & k & final & Hh & Hk & Hf & Hex)]; [|done..].
    unfold ebind. rewrite Hh, Hk, Hf. unfold lift. simpl. by rewrite Hex.
Qed.
Lemma materialize_kept by_scope bs vs u s s' vs' :
  good s → good s' → (∀ p, footprint u p → cks lease s' p = cks lease s p) →
  materialize_unit run by_scope bs vs u s = (Ok vs', s) →
  materialize_unit run by_scope bs vs u s' = (Ok vs', s').
Proof.
  intros Hg Hg' Hk. unfold materialize_unit, footprint in *. destruct (unit_instance u) as [i|].
  - unfold ebind, checkpoint, get, lift. unfold ebind. rewrite !stored_checkpoint_good by done.
    specialize (Hk _ eq_refl). unfold cks in Hk. rewrite Hk.
    destruct (Dict.get _ (checkpoints s)) as [c|]; [|done]. by intros [= ->].
  - destruct (unit_loop u) as [l|]; [|done]. unfold ebind. rewrite !inspect_at by done.
    assert (∀ indices, matrix_at s' l indices = matrix_at s l indices) as ->.
    { intros indices. apply list_fmap_ext. intros _ j _. apply list_fmap_ext. intros _ m _.
      apply Hk. by eexists _, _. }
    destruct (inspect_matrix _ _ _ _ _ _ _ _ _) as [h|]; [|done].
    destruct (terminal_iteration h), (final_values h); try done. unfold lift. by intros [= ->].
Qed.
Lemma footprint_inj u u' p :
  wf_unit u → wf_unit u' → footprint u p → footprint u' p → unit_segs u = unit_segs u'.
Proof.
  unfold wf_unit, footprint, unit_segs.
  destruct (unit_instance u), (unit_instance u'), (unit_loop u) as [l|], (unit_loop u') as [l'|];
    try done; intros H1 H2; try (by intros -> [= ->]);
    try (by intros -> (m & n & [=])); try (by intros (m & n & ->) [=]).
  destruct H1 as [<- _], H2 as [<- _]. by intros (m & n & ->) (m' & n' & [= -> -> ->]).
Qed.
Lemma units_clean by_scope bs producers ordered vs status w vs' status' w' :
  NoDup (unit_segs <$> ordered) → Forall wf_unit ordered →
  ready w.(w_out).(o_store) → current lease w'.(w_out).(o_store) → clean w' →
  efold (run_unit env invoke lease by_scope bs producers) (vs, status) ordered w = (Ok (vs', status'), w') →
  efold (materialize_unit run by_scope bs) vs ordered w'.(w_out).(o_store) = (Ok vs', w'.(w_out).(o_store)).
Proof.
  revert vs status w. induction ordered as [|u us IH]; intros vs status w Hnd Hwf Hr Hcur Hcl E.
  { by injection E as <- _ <-. }
  cbn [efold] in E. rewrite fmap_cons in Hnd. apply NoDup_cons in Hnd as [Hu Hnd].
  apply Forall_cons in Hwf as [Hwu Hwf].
  apply ebind_ok in E as ([vs1 st1] & w1 & E1 & E).
  destruct (obs_use (footprint u) _ _ _ _ (world_unit _ by_scope bs producers _ u (λ _ H, H)) E1) as [H1 _].
  assert (ready w1.(w_out).(o_store)) as Hr1 by (eapply ready_steps; [apply H1|done]).
  destruct (obs_use (λ p, ∃ u', u' ∈ us ∧ footprint u' p) _ _ _ _
    (keeps_efold _ _ _ _ (λ b u' Hu', world_unit _ by_scope bs producers b u'
       (λ p Hp, ex_intro _ u' (conj Hu' Hp)))) E) as [H2 Hc2].
  assert (current lease w1.(w_out).(o_store)) as Hcur1 by (eapply current_steps; [apply H2|done]).
  apply unit_clean in E1; [|done..|by apply Hc2].
  assert (good w'.(w_out).(o_store)) as Hg' by (eapply good_steps; [apply H2|apply Hr1]).
  cbn [efold]. unfold ebind.
  erewrite (materialize_kept _ _ _ _ _ w'.(w_out).(o_store)); [|apply Hr1|done| |exact E1].
  - by eapply IH.
  - intros p Hp. eapply obs_same; [exact H2|apply Hr1|done|]. intros (u' & Hu' & Hp').
    apply Hu. rewrite (footprint_inj u u' p); [by apply list_elem_of_fmap_2|done| |done|done].
    by eapply Forall_forall in Hwf.
Qed.
End runs.
