(* ===== verification/WalkDurable.v ===== *)
(** A successful attempt and the materialization of its run: the same outputs,
    now and in every later store. *)

From S2P Require Import Prelude Identity Address Graph Component Capability Manifest Message.
From S2P Require Import Run Effect Journal EffectStore JournalSpec Units UnitsSpec Walk WalkSpec WalkRuns.

(** ** The plan *)
Section plan.
Context {N : Type}.
Lemma plan_units m (is_ : list (_Instance N)) ordered :
  plan m is_ = Ok ordered → NoDup (unit_segs <$> ordered) ∧ ordered ⊆ _root_units m is_.
Proof.
  unfold plan, _ordered_units. cbv zeta. set (units := _root_units m is_).
  set (deps := dependencies _ _ units).
  destruct (place_each _ _ _) as [placed|e] eqn:E; [|done]. intros [= <-].
  assert (∀ u scope, Dict.get scope (by_scope units) = Some u → unit_segs u = scope ∧ u ∈ units) as Hget.
  { intros u scope Hg%Dict.get_of_pairs_elem. apply list_elem_of_fmap in Hg as (u' & [= -> ->] & ?). done. }
  assert (NoDup placed) as Hnd.
  { pose proof (place_all_spec deps (unit_segs <$> units)) as Hp.
    rewrite length_fmap in Hp.
    assert (∀ x y, x ∈ unit_segs <$> units → dep deps x y → y ∈ unit_segs <$> units) as HU.
    { intros x y _ (u & Hu & _ & Hy)%elem_of_dependencies. by eapply unit_dependency_scope. }
    assert ((unit_segs <$> sorted_by segs_leb unit_segs units) ⊆ unit_segs <$> units) as Hroots.
    { intros x. rewrite !list_elem_of_fmap. intros (u & -> & Hu). exists u. split; [done|].
      revert Hu. unfold sorted_by. by rewrite py_sorted_perm. }
    specialize (Hp HU _ Hroots). rewrite E in Hp. apply Hp. }
  clear E. split.
  - induction Hnd as [|scope placed Hn Hnd IH]; [constructor|]. simpl.
    destruct (Dict.get scope (by_scope units)) as [u|] eqn:Eg; [|done].
    rewrite fmap_cons. constructor; [|done]. apply Hget in Eg as [-> _].
    intros (u' & Hu' & Hin)%list_elem_of_fmap. apply list_elem_of_omap in Hin as (scope' & Hs & Hg).
    apply Hget in Hg as [Hg _]. congruence.
  - intros u (scope & _ & Hg)%list_elem_of_omap. by apply Hget in Hg as [_ ?].
Qed.
Lemma root_units_wf m (is_ : list (_Instance N)) u :
  Forall (λ l, l.(member_order) ≠ []) m.(resolved_loops) → u ∈ _root_units m is_ → wf_unit u.
Proof.
  intros Hl. unfold _root_units. rewrite elem_of_app, !list_elem_of_fmap.
  intros [(i & -> & _)|(l & -> & Hin)]; [done|]. split; [done|]. by eapply Forall_forall in Hl.
Qed.
End plan.

(** ** Implementations do not matter to a replay *)
Section erase.
Context {A B : Type} (f : _Instance A → _Instance B).
Context (Hscope : ∀ i, in_scope (f i) = in_scope i) (Hversion : ∀ i, in_version (f i) = in_version i)
  (Hdef : ∀ i, in_definition (f i) = in_definition i).
Definition map_unit (u : _Unit A) : _Unit B := mkUnit u.(unit_scope) (f <$> u.(unit_instance)) u.(unit_loop).
Definition map_values {K V W} (g : V → W) (d : list (K * V)) : list (K * W) := (λ kv, (kv.1, g kv.2)) <$> d.

Lemma get_map {K V W} `{EqDecision K} (g : V → W) (k : K) d : Dict.get k (map_values g d) = g <$> Dict.get k d.
Proof. induction d as [|[k' v] d IH]; [done|]. simpl. by case_decide. Qed.
Lemma set_map {K V W} `{EqDecision K} (g : V → W) (k : K) v d :
  Dict.set k (g v) (map_values g d) = map_values g (Dict.set k v d).
Proof. induction d as [|[k' v'] d IH]; [done|]. simpl. case_decide; [done|]. simpl. by rewrite <-IH. Qed.
Lemma of_pairs_map {K V W} `{EqDecision K} (g : V → W) (l : list (K * V)) :
  Dict.of_pairs (map_values g l) = map_values g (Dict.of_pairs l).
Proof.
  unfold Dict.of_pairs. change (@nil (K * W)) with (map_values g (@nil (K * V))) at 1.
  generalize (@nil (K * V)). induction l as [|[k v] l IH]; intros d; [done|]. simpl. by rewrite set_map, IH.
Qed.

Lemma root_units_map m (is_ : list (_Instance A)) : _root_units m (f <$> is_) = map_unit <$> _root_units m is_.
Proof.
  unfold _root_units. rewrite fmap_app, <-!list_fmap_compose. f_equal.
  induction is_ as [|i is_ IH]; [done|]. rewrite fmap_cons, !filter_cons, Hscope.
  case_decide; [rewrite !fmap_cons|done]. unfold map_unit at 1. simpl. by rewrite Hscope, IH.
Qed.
Lemma unit_outputs_map u : unit_outputs (map_unit u) = unit_outputs u.
Proof.
  unfold unit_outputs, map_unit. simpl. destruct (unit_instance u) as [i|]; [|done]. simpl.
  rewrite Hdef. apply list_fmap_ext. intros _ p _. unfold _atomic_output_address. by rewrite Hscope.
Qed.
Lemma producer_index_map (us : list (_Unit A)) : _unit_producer_index (map_unit <$> us) = map_values map_unit (_unit_producer_index us).
Proof.
  unfold _unit_producer_index. change (@nil (string * _Unit B)) with (map_values map_unit (@nil (string * _Unit A))) at 1.
  generalize (@nil (string * _Unit A)). induction us as [|u us IH]; intros d; [done|]. simpl.
  rewrite <-IH. f_equal. rewrite unit_outputs_map. revert d.
  induction (unit_outputs u) as [|a l IHl]; intros d; [done|]. simpl. by rewrite set_map, IHl.
Qed.
Lemma instance_bindings_map i bs : instance_bindings (f i) bs = instance_bindings i bs.
Proof.
  unfold instance_bindings. rewrite Hdef. unfold input_address. rewrite Hscope. done.
Qed.
Lemma unit_dependencies_map bs us u :
  unit_dependencies bs (_unit_producer_index (map_unit <$> us)) (map_unit u)
  = unit_dependencies bs (_unit_producer_index us) u.
Proof.
  unfold unit_dependencies. f_equal.
  assert (_unit_input_bindings (map_unit u) bs = _unit_input_bindings u bs) as ->.
  { unfold _unit_input_bindings, map_unit. simpl. destruct (unit_loop u); [done|].
    destruct (unit_instance u); [|done]. apply instance_bindings_map. }
  unfold producers_of. rewrite producer_index_map. apply list_bind_ext; [|done]. intros b.
  apply list_bind_ext; [|done]. intros s. rewrite get_map. by destruct (Dict.get _ _).
Qed.
Lemma dependencies_map bs us scope :
  dependencies bs (_unit_producer_index (map_unit <$> us)) (map_unit <$> us) scope
  = dependencies bs (_unit_producer_index us) us scope.
Proof.
  unfold dependencies. do 2 f_equal.
  assert (∀ us', (filter (λ u, segs u.(unit_scope) = scope) (map_unit <$> us') ≫=
      unit_dependencies bs (_unit_producer_index (map_unit <$> us)))
    = filter (λ u, segs u.(unit_scope) = scope) us' ≫= unit_dependencies bs (_unit_producer_index us))
    as H; [|apply H].
  induction us' as [|u us' IH]; [done|]. rewrite fmap_cons, !filter_cons.
  change (unit_scope (map_unit u)) with (unit_scope u). case_decide; [|exact IH].
  rewrite !bind_cons, unit_dependencies_map. by f_equal.
Qed.
Lemma place_each_ext {K} (g h : K → list K → result exn (list K)) ds placed :
  (∀ d p, g d p = h d p) → place_each g ds placed = place_each h ds placed.
Proof.
  intros H. revert placed. induction ds as [|d ds IH]; intros placed; [done|]. simpl. rewrite H.
  destruct (h d placed); [apply IH|done].
Qed.
Lemma place_ext {K} `{EqDecision K} (d1 d2 : K → list K) fuel trail scope placed :
  (∀ x, d1 x = d2 x) → place d1 fuel trail scope placed = place d2 fuel trail scope placed.
Proof.
  intros H. revert trail scope placed. induction fuel as [|fuel IH]; intros trail scope placed; [done|]. simpl.
  case_decide; [done|]. case_decide; [done|]. rewrite H. by rewrite (place_each_ext _ _ _ _ (λ d p, IH _ d p)).
Qed.
Lemma omap_cons {X Y} (g : X → option Y) x l : omap g (x :: l) = option_list (g x) ++ omap g l.
Proof. simpl. by destruct (g x). Qed.
Lemma sorted_by_map {X Y K} (leb : K → K → bool) (key : Y → K) (g : X → Y) l :
  sorted_by leb key (g <$> l) = g <$> sorted_by leb (key ∘ g) l.
Proof.
  unfold sorted_by. induction l as [|x l IH]; [done|]. rewrite fmap_cons. cbn [py_sorted]. rewrite IH. clear IH.
  induction (py_sorted _ l) as [|y k IH]; [done|]. rewrite fmap_cons. cbn [sort_insert].
  rewrite IH. unfold compose. by destruct (leb _ _).
Qed.
Lemma plan_map m (is_ : list (_Instance A)) :
  plan m (f <$> is_) = match plan m is_ with Ok us => Ok (map_unit <$> us) | Raise e => Raise e end.
Proof.
  unfold plan, _ordered_units. cbv zeta. rewrite root_units_map, length_fmap.
  set (us := _root_units m is_).
  assert (unit_segs <$> sorted_by segs_leb unit_segs (map_unit <$> us)
          = unit_segs <$> sorted_by segs_leb unit_segs us) as ->.
  { rewrite sorted_by_map, <-list_fmap_compose. done. }
  rewrite (place_each_ext _ _ _ _ (λ d p, place_ext _ _ _ _ _ _ (dependencies_map _ _))).
  destruct (place_each _ _ _) as [placed|e]; [|done]. simpl. f_equal.
  assert (by_scope (map_unit <$> us) = map_values map_unit (by_scope us)) as ->.
  { unfold by_scope. rewrite <-of_pairs_map. f_equal. unfold map_values. by rewrite <-!list_fmap_compose. }
  induction placed as [|s placed IH]; [done|]. rewrite !omap_cons, get_map.
  rewrite fmap_app, IH. f_equal. by destruct (Dict.get s (by_scope us)).
Qed.

Lemma index_map (is_ : list (_Instance A)) : index_instances (f <$> is_) = map_values f (index_instances is_).
Proof.
  unfold index_instances. rewrite <-of_pairs_map. f_equal. unfold map_values.
  rewrite <-!list_fmap_compose. apply list_fmap_ext. intros _ i _. simpl. by rewrite Hscope.
Qed.
Lemma node_inputs_map i vs bs : _node_inputs (f i) vs bs = _node_inputs i vs bs.
Proof.
  unfold _node_inputs. rewrite Hdef. generalize (@nil (string * json)).
  induction (def_inputs (in_definition i)) as [|p ports IH]; intros d; [done|]. simpl.
  unfold input_address. rewrite Hscope. destruct (Dict.get _ bs) as [b|].
  - destruct (_collect _ _ _); simpl; [apply IH|done].
  - case_decide; [apply IH|done].
Qed.
Lemma publish_map i outputs vs : _publish_atomic_outputs (f i) outputs vs = _publish_atomic_outputs i outputs vs.
Proof.
  unfold _publish_atomic_outputs. rewrite Hdef. revert vs.
  induction (def_outputs (in_definition i)) as [|p ports IH]; intros vs; [done|]. simpl.
  unfold _atomic_output_address. rewrite Hscope. destruct (Dict.get _ outputs); [|done].
  destruct (json_again j); simpl; [apply IH|done].
Qed.
Lemma restore_map i c vs bs :
  _restore_checked_checkpoint (f i) c vs bs = _restore_checked_checkpoint i c vs bs.
Proof.
  unfold _restore_checked_checkpoint, contradicts. rewrite node_inputs_map.
  destruct (_node_inputs i vs bs); [|done]. cbn. rewrite Hversion. case_match; [done|]. apply publish_map.
Qed.
Lemma restore_prefix_map by_scope bs row vs :
  restore_prefix (map_values f by_scope) bs row vs = restore_prefix by_scope bs row vs.
Proof.
  revert vs. induction row as [|[scope [c|]] row IH]; intros vs; try done. simpl.
  unfold member. rewrite get_map. destruct (Dict.get _ by_scope); [|done]. simpl. rewrite restore_map.
  destruct (_restore_checked_checkpoint _ _ _ _); [apply IH|done].
Qed.
Lemma inspect_map l by_scope bs outer rt index completed previous matrix :
  inspect_matrix l (map_values f by_scope) bs outer rt index completed previous matrix
  = inspect_matrix l by_scope bs outer rt index completed previous matrix.
Proof.
  revert index completed previous. induction matrix as [|row later IH]; intros; [done|]. simpl.
  case_match; [done|]. case_match; [done|].
  destruct (negb (forallb id (present row))).
  - case_match; [done|]. destruct (_seed_loop_iteration _ _ _ _); [|done]. cbn. by rewrite restore_prefix_map.
  - destruct (_seed_loop_iteration _ _ _ _); [|done]. cbn. rewrite restore_prefix_map.
    destruct (restore_prefix _ _ _ _); [|done]. cbn. destruct (_loop_decision _ _) as [[|]|]; [|done..].
    simpl. apply IH.
Qed.
Lemma materialize_unit_map run by_scope bs vs u s :
  materialize_unit run (map_values f by_scope) bs vs (map_unit u) s = materialize_unit run by_scope bs vs u s.
Proof.
  unfold materialize_unit, map_unit. simpl. destruct (unit_instance u) as [i|]; simpl.
  - unfold ebind. destruct (checkpoint _ _ s) as [[[c|]|] s']; try done. unfold lift. by rewrite restore_map.
  - destruct (unit_loop u) as [l|]; [|done]. unfold _inspect_loop_history, ebind.
    destruct (loop_matrix run l s) as [[matrix|] s']; [|done]. unfold lift. by rewrite inspect_map.
Qed.
Lemma materialize_map m (is_ : list (_Instance A)) run inputs s : _materialize m (f <$> is_) run inputs s = _materialize m is_ run inputs s.
Proof.
  unfold _materialize. cbv zeta. rewrite plan_map, index_map. unfold ebind at 1 3. unfold lift at 1 3.
  destruct (plan m is_) as [ordered|e]; [|done]. simpl. unfold ebind at 1 3. unfold lift at 1 3.
  destruct (input_values _ _) as [start|e]; [|done]. unfold ebind.
  assert (∀ vs s, efold (materialize_unit run (map_values f (index_instances is_)) (connection_index m)) vs
      (map_unit <$> ordered) s
    = efold (materialize_unit run (index_instances is_) (connection_index m)) vs ordered s) as ->; [|done].
  induction ordered as [|u us IH]; intros vs s'; [done|]. simpl. unfold ebind. rewrite materialize_unit_map.
  destruct (materialize_unit _ _ _ _ _ _) as [[vs'|] s1]; [apply IH|done].
Qed.
End erase.

(** ** What the registry activates is what its snapshot holds *)
Definition activated {N} (bound : string → Digest → BoundVersion N) (snapshot : RegistrySnapshot)
    (rs : list ComponentResolution) : Prop :=
  Forall (λ r, let b := bound r.(res_component) r.(resolved_version) in
    snapshot_get snapshot r.(res_component) r.(resolved_version) = Some b.(bound_stored) ∧
    b.(composite) = match b.(bound_stored).(definition).(body) with CGraph _ => true | CPython _ => false end) rs.
Definition erase {N M} (i : _Instance N) : _Instance M :=
  mkInstance i.(in_scope) i.(in_component) i.(in_version) i.(in_definition) None.
Lemma instances_materialized {N M} (bound : string → Digest → BoundVersion N) snapshot rs is_ :
  activated bound snapshot rs → _instances bound rs = Ok is_ →
  _materialization_instances snapshot rs = Ok (erase (M:=M) <$> is_).
Proof.
  intros H. revert is_. induction H as [|r rs [Hs Hc] _ IH]; intros is_ E; simpl in *; [by injection E as <-|].
  rewrite Hs. rewrite Hc in E. destruct (body _).
  - destruct (bound_impl _) as [impl|]; [|done].
    apply result_bind_ok in E as (rest & E & [= <-]). by rewrite (IH _ E).
  - by apply IH.
Qed.

Section durable.
Context {N : Type} (lease : RunLease).
Context (env : nat → store → weather) `{!EnvLaw lease env}.
Context (invoke : _Instance N → ExecutionPath → list (string * json) → Digest → O (list (string * json)))
  `{!InvokeLaws lease invoke}.
Context (reconcile : CapabilityBinding → CapabilityLease → disposition → O unit) `{!ReconcileLaw lease reconcile}.
Context (is_leased : string → bool).
Abbreviation run := (lease.(lease_run)) (only parsing).

Lemma transition_ok expected target kind p s s' :
  transition_run lease expected target kind p s = (Ok tt, s') →
  ∃ row, Dict.get run s.(runs) = Some row ∧ row.(run_status) ∈ expected ∧ holds lease row = true ∧
    s' = add_event (mkEvent run (S row.(next_event_seq)) kind None p)
           (set_run run (row_status target (row_seq (S row.(next_event_seq)) row)) s).
Proof.
  unfold transition_run. cbv zeta. intros E. apply txn_inv in E as [([] & _ & E)|[_ [e [=]]]].
  bound E n s1 Ha. apply allocate_inv in Ha as (row & Hg & Hst & Hh & -> & ->).
  bound E s2 s3 Hget. injection Hget as <- <-. case_decide; [done|].
  rewrite get_set_run in E. case_decide; [done|].
  bound E u s4 Hm. injection Hm as _ <-. bound E ev s5 Hi. apply insert_event_inv in Hi as ->.
  injection E as <-. exists row. split_and!; try done. f_equal. apply set_run_twice.
Qed.
(** The run has a status, and the attempt still holds it. *)
Definition holding (s : store) (st : RunStatus) : Prop :=
  ∃ row, Dict.get run s.(runs) = Some row ∧ row.(run_status) = st ∧ holds lease row = true.
Lemma holding_current s st : holding s st → current lease s.
Proof.
  intros (row & Hg & _ & Hh). unfold current, run_epoch. rewrite Hg.
  unfold holds in Hh. apply andb_true_iff in Hh as [_ ->%bool_decide_eq_true]. done.
Qed.
Lemma finish_ok target kind p outputs w0 w r w' :
  finish lease target kind p outputs w0 w = (Ok r, w') →
  r = mkResult target outputs w0.(w_failures) w0.(w_blocked) (parked_sorted w0) ∧
  holding w'.(w_out).(o_store) target ∧ checkpoints w'.(w_out).(o_store) = checkpoints w.(w_out).(o_store) ∧
  w'.(w_failures) = w.(w_failures) ∧ w'.(w_blocked) = w.(w_blocked) ∧ w'.(w_parked) = w.(w_parked).
Proof.
  unfold finish. intros E. apply ebind_ok in E as ([] & w1 & E1 & E). injection E as <- <-.
  apply out_ok in E1 as [E1 Ew]. unfold journal in E1.
  destruct (transition_run _ _ _ _ _ _) as [rr s'] eqn:Et. injection E1 as -> E1.
  apply transition_ok in Et as (row & Hg & _ & Hh & ->). rewrite <-E1. simpl. split; [done|].
  split; [|split; [done|rewrite Ew; done]].
  eexists. split; [apply get_set_run|]. split; [done|]. exact Hh.
Qed.
Lemma world_finish P target kind p outputs w0 :
  lawful (JTransition lease [RUNNING] target kind (Some p)) = true →
  keeps (obs_world lease P) (finish lease target kind p outputs w0).
Proof.
  intros Hl. unfold finish. apply world_bind; [by apply keeps_out, keeps_journal, keeps_transition|].
  intros _. apply world_eret.
Qed.
Lemma world_conclude P m bs vs : keeps (obs_world lease P) (conclude lease m bs vs).
Proof.
  unfold conclude. apply world_bind; [apply keeps_get, _|intros w]. cbv zeta.
  case_match; [by apply world_finish|]. case_match; [by apply world_finish|]. case_match; [apply world_raise|].
  apply world_bind; [apply world_lift|intros outputs]. by apply world_finish.
Qed.
Lemma conclude_ok m bs vs w r w' :
  conclude lease m bs vs w = (Ok r, w') →
  holding w'.(w_out).(o_store) r.(rr_status) ∧
  (r.(rr_status) = SUCCEEDED → clean w ∧ _graph_outputs m vs bs = Ok r.(rr_outputs) ∧
     checkpoints w'.(w_out).(o_store) = checkpoints w.(w_out).(o_store)) ∧
  (r.(rr_status) = FAILED → w.(w_failures) ≠ []) ∧
  (r.(rr_status) = PARKED → w.(w_failures) = [] ∧ w.(w_parked) ≠ []).
Proof.
  unfold conclude. intros E. apply ebind_ok in E as (w0 & w1 & Eg & E). injection Eg as <- <-. cbv zeta in E.
  case_bool_decide as Hf; [by apply finish_ok in E as (-> & Hh & _)|].
  case_bool_decide as Hp.
  - apply finish_ok in E as (-> & Hh & _). split_and!; try done. intros _. split; [done|].
    intros Hn. apply Hp. unfold parked_sorted, sorted_by. by rewrite Hn.
  - case_bool_decide as Hb; [done|].
    apply ebind_ok in E as (outputs & w1 & Eo & E). injection Eo as Eo <-.
    apply finish_ok in E as (-> & Hh & Hc & _). split_and!; try done. intros _. split_and!; try done.
    split; [done|]. split; [done|]. unfold parked_sorted, sorted_by in Hp.
    pose proof (length_py_sorted (λ x y, String.leb (render_path (parked_path x)) (render_path (parked_path y)))
      w.(w_parked)) as Hl. rewrite Hp in Hl. by destruct (w_parked w).
Qed.

(** ** Before the units *)
Lemma keeps_begin P status inputs cause : keeps (obs_out lease P) (begin_attempt lease status inputs cause).
Proof.
  unfold begin_attempt. cbv zeta.
  destruct cause as [[[] ?]|], status; first [by apply keeps_log|by apply keeps_journal, keeps_transition].
Qed.
Lemma keeps_reconcile P m mode : keeps (obs_out lease P) (_reconcile_stale_leases reconcile is_leased lease m mode).
Proof.
  unfold _reconcile_stale_leases. apply keeps_bind; [apply _| |].
  - apply keeps_journal, keeps_read. intros s. unfold run_capability_leases, ebind, get.
    destruct (_run_mutation_row run s) as [[r|e] s'] eqn:E; by apply mutation_row_inv in E as [-> _].
  - intros rows. apply keeps_eiter; [apply _|]. intros row _. unfold reconcile_row. cbv zeta.
    apply keeps_bind; [apply _|apply keeps_journal, keeps_checkpoint|intros c].
    apply keeps_bind; [apply _| |intros _].
    + destruct (last _) as [b|]; [|apply keeps_eret, _]. apply keeps_ewhen; [apply _|].
      eapply keeps_mono; [|apply reconcile_obs]. by intros p [].
    + eapply keeps_journal, (keeps_of_call _ _ _ (JLeaseTransition lease _ _ _ _ _)); done.
Qed.
Lemma keeps_run_state P : keeps (obs_out lease P) (journal (run_state run)).
Proof.
  apply keeps_journal, keeps_read. intros s. unfold run_state, ebind.
  destruct (_run_mutation_row run s) as [[r|e] s'] eqn:E; by apply mutation_row_inv in E as [-> _].
Qed.
Lemma world_units (P : ExecutionPath → Prop) m is_ ordered vs :
  (∀ u p, u ∈ ordered → footprint u p → P p) →
  keeps (obs_world lease P) (run_units env invoke lease m is_ ordered vs).
Proof.
  intros HP. unfold run_units. apply keeps_efold; [apply _|]. intros b u Hu. apply world_unit; [done..|].
  intros p. by apply HP.
Qed.

Lemma materialize_unit_state by_scope bs vs (u : _Unit N) s :
  good s → (materialize_unit run by_scope bs vs u s).2 = s.
Proof.
  intros Hg. unfold materialize_unit. destruct (unit_instance u) as [i|].
  - unfold ebind, checkpoint, get, lift. unfold ebind. rewrite stored_checkpoint_good by done.
    by destruct (Dict.get _ _).
  - destruct (unit_loop u) as [l|]; [|done]. unfold ebind. rewrite inspect_at by done.
    destruct (inspect_matrix _ _ _ _ _ _ _ _ _) as [h|]; [|done].
    by destruct (terminal_iteration h), (final_values h).
Qed.
Lemma materialize_units_kept by_scope bs vs (us : list (_Unit N)) s s' vs' :
  good s → good s' → (∀ p, cks lease s' p = cks lease s p) →
  efold (materialize_unit run by_scope bs) vs us s = (Ok vs', s) →
  efold (materialize_unit run by_scope bs) vs us s' = (Ok vs', s').
Proof.
  intros Hg Hg' Hk. revert vs. induction us as [|u us IH]; intros vs; simpl; [by intros [= ->]|].
  intros E. apply ebind_ok in E as (vs1 & s1 & E1 & E).
  assert (s1 = s) as -> by (rewrite <-(materialize_unit_state by_scope bs vs u s Hg); by rewrite E1).
  unfold ebind. erewrite materialize_kept; [|exact Hg|exact Hg'| |exact E1]; [by apply IH|done].
Qed.

(** ** The attempt *)
Abbreviation execute := (_execute env invoke reconcile is_leased lease) (only parsing).
Lemma input_values_wire root inputs :
  Forall (λ nv : string * json, wire nv.2) inputs →
  input_values root inputs = Ok ((λ nv, (_address_key (GraphInputAddress root nv.1), nv.2)) <$> inputs).
Proof.
  induction 1 as [|[name v] inputs Hv _ IH]; [done|]. simpl in *.
  unfold json_again. rewrite (json_value_embed v Hv). cbn. by rewrite IH.
Qed.
(** The phases of an attempt that returned. *)
Lemma execute_ok m bound inputs mode cause w r w' :
  execute m bound inputs mode cause w = (Ok r, w') →
  ∃ is_ ordered w1, _instances bound m.(resolved_components) = Ok is_ ∧ plan m is_ = Ok ordered ∧
    obs lease nowhere w.(w_out).(o_store) w1.(w_out).(o_store) ∧
    (r.(rr_status) = CANCELLED ∧ holding w'.(w_out).(o_store) CANCELLED ∨
     ∃ vs st w2, run_units env invoke lease m is_ ordered (start_values m inputs) w1 = (Ok (vs, st), w2) ∧
       conclude lease m (connection_index m) vs w2 = (Ok r, w')).
Proof.
  unfold _execute. intros E. apply ebind_ok in E as (state & wa & Ea & E).
  apply (obs_use lease nowhere) in Ea as [[Ha Ca] _]; [|apply keeps_out, keeps_run_state].
  destruct state as [status|]; [|done].
  apply ebind_ok in E as ([] & wb & Eb & E).
  apply (obs_use lease nowhere) in Eb as [Hb _]; [|apply keeps_out, keeps_begin].
  apply ebind_ok in E as ([] & wc & Ec & E).
  apply (obs_use lease nowhere) in Ec as [Hc _]; [|apply keeps_out, keeps_reconcile].
  apply ebind_ok in E as (is_ & wd & Ed & E). injection Ed as Ed <-. cbv zeta in E.
  apply ebind_ok in E as (ordered & wd & Ep & E). injection Ep as Ep <-.
  exists is_, ordered, wc. split; [done|]. split; [done|]. split; [by do 2 (etrans; [|done])|].
  apply ebind_ok in E as (res & w2 & Er & E). unfold catch in Er.
  destruct (ebind _ _ wc) as [[o|e] w3] eqn:Eu in Er.
  - injection Er as -> ->. apply ebind_ok in Eu as ([vs st] & w4 & Eu & Ew). injection Ew as <- <-.
    right. by exists vs, st, w4.
  - destruct e; try done. injection Er as <- <-. left.
    apply ebind_ok in E as (w0 & w4 & Eg & E). injection Eg as <- <-.
    by apply finish_ok in E as (-> & ? & _).
Qed.
Lemma execute_holding m bound inputs mode cause w r w' :
  execute m bound inputs mode cause w = (Ok r, w') → holding w'.(w_out).(o_store) r.(rr_status).
Proof.
  intros (is_ & ordered & w1 & _ & _ & _ & [[-> H]|(vs & st & w2 & _ & Hc)])%execute_ok; [done|].
  by apply conclude_ok in Hc as [? _].
Qed.
Lemma execute_steps m bound inputs mode cause :
  keeps (obs_world lease (λ _, True)) (execute m bound inputs mode cause).
Proof.
  unfold _execute. apply world_bind; [apply keeps_out, keeps_run_state|intros [status|]; [|apply world_raise]].
  apply world_bind; [apply keeps_out, keeps_begin|intros _].
  apply world_bind; [apply keeps_out, keeps_reconcile|intros _].
  apply world_bind; [apply world_lift|intros is_]. cbv zeta. apply world_bind; [apply world_lift|intros ordered].
  apply world_bind.
  - apply keeps_catch; [apply _| |].
    + apply world_bind; [by apply world_units|intros; apply world_eret].
    + intros e. destruct e; first [apply world_raise|apply world_eret].
  - intros [[vs st]|]; [apply world_conclude|].
    apply world_bind; [apply keeps_get, _|intros w]. by apply world_finish.
Qed.
Lemma execute_replays m bound inputs mode cause w r w' :
  ready lease w.(w_out).(o_store) →
  Forall (λ l, l.(member_order) ≠ []) m.(resolved_loops) →
  Forall (λ nv : string * json, wire nv.2) inputs →
  execute m bound inputs mode cause w = (Ok r, w') → r.(rr_status) = SUCCEEDED →
  ∃ is_, _instances bound m.(resolved_components) = Ok is_ ∧
    _materialize m is_ run inputs w'.(w_out).(o_store) = (Ok r.(rr_outputs), w'.(w_out).(o_store)).
Proof.
  intros Hr Hl Hi E Hs. apply execute_ok in E as (is_ & ordered & w1 & His & Hp & H1 & [[? _]|H]); [congruence|].
  destruct H as (vs & st & w2 & Eu & Ec). exists is_. split; [done|].
  pose proof (world_conclude (λ _, True) m (connection_index m) vs w2) as [H2 _]. rewrite Ec in H2. simpl in H2.
  apply conclude_ok in Ec as (Hh & Hsucc & _). destruct (Hsucc Hs) as (Hcl & Ho & Hck).
  destruct (plan_units _ _ _ Hp) as [Hnd Hsub].
  assert (current lease w2.(w_out).(o_store)) as Hcur
    by (eapply current_steps; [apply H2|by eapply holding_current]).
  assert (ready lease w1.(w_out).(o_store)) as Hr1 by (eapply ready_steps; [apply H1|done]).
  assert (rtc jstep w1.(w_out).(o_store) w2.(w_out).(o_store)) as H12.
  { pose proof (world_units (λ _, True) m is_ ordered (start_values m inputs) ltac:(done) w1) as [H _].
    rewrite Eu in H. apply H. }
  assert (ready lease w2.(w_out).(o_store)) as Hr2 by (by eapply ready_steps).
  assert (good w'.(w_out).(o_store)) as Hg' by (eapply good_steps; [apply H2|apply Hr2]).
  assert (Forall wf_unit ordered) as Hwf.
  { apply Forall_forall. intros u Hu. by eapply root_units_wf, Hsub. }
  pose proof (units_clean lease env invoke _ _ _ _ _ _ _ _ _ _ Hnd Hwf Hr1 Hcur Hcl Eu) as Em.
  unfold _materialize. cbv zeta. unfold ebind, lift. rewrite Hp, input_values_wire by done.
  unfold start_values in Em. eapply materialize_units_kept in Em; [|apply Hr2|exact Hg'|].
  - rewrite Em. by rewrite Ho.
  - intros p. unfold cks. by rewrite Hck.
Qed.
Lemma materialize_state m (is_ : list (_Instance N)) inputs s :
  good s → (_materialize m is_ run inputs s).2 = s.
Proof.
  intros Hg. unfold _materialize. cbv zeta. unfold ebind at 1, lift at 1. destruct (plan m is_) as [ordered|]; [|done].
  unfold ebind at 1, lift at 1. destruct (input_values _ _) as [start|]; [|done].
  unfold ebind, lift. generalize (Dict.of_pairs start). intros vs.
  assert ((efold (materialize_unit run (index_instances is_) (connection_index m)) vs ordered s).2 = s) as H.
  { revert vs. induction ordered as [|u us IH]; intros vs; [done|]. simpl. unfold ebind.
    pose proof (materialize_unit_state (index_instances is_) (connection_index m) vs u s Hg) as H.
    destruct (materialize_unit _ _ _ _ _ s) as [[vs'|] s1]; simpl in H; subst; [apply IH|done]. }
  by destruct (efold _ _ _ s) as [[vs'|] s1].
Qed.
(** Later stores materialize the same. *)
Lemma materialize_later m (is_ : list (_Instance N)) inputs s s' row outputs :
  good s → Dict.get run s.(runs) = Some row → row.(run_status) = SUCCEEDED → rtc jstep s s' →
  _materialize m is_ run inputs s = (Ok outputs, s) → _materialize m is_ run inputs s' = (Ok outputs, s').
Proof.
  intros Hg Hrow Hst Hs E. assert (good s') as Hg' by (by eapply good_steps).
  assert (∀ p, cks lease s' p = cks lease s p) as Hk.
  { intros p. unfold cks. destruct (Dict.get (run, p) (checkpoints s)) as [c|] eqn:Ec;
      [by eapply checkpoint_steps|].
    eapply finished_no_checkpoint; [exact Hrow| |done|done]. rewrite Hst. left. }
  revert E. unfold _materialize. cbv zeta. unfold ebind, lift.
  destruct (plan m is_) as [ordered|]; [|done]. destruct (input_values _ _) as [start|]; [|done].
  destruct (efold _ _ _ s) as [[vs|] s1] eqn:Em; [|done]. intros [= Ho ->].
  eapply materialize_units_kept in Em; [|exact Hg|exact Hg'|exact Hk]. by rewrite Em, Ho.
Qed.
End durable.
