(* ===== verification/ActivationLaws.v ===== *)
(** What [ComponentRegistry.activate] and [register] promise the walker and
    admission ([Registry]): a run executes only the code its manifest sealed,
    over the capabilities it was admitted with, and a registered component is
    what its contract says. *)

From S2P Require Import Prelude Identity Address Graph Component Capability Manifest Run Effect Journal EffectStore.
From S2P Require Import RegistryStore Admission Units Registry JournalSpec EffectSpec RegistrySpec RegistryLaws Fixture.
From S2P Require Import WalkDurable.

Section host.
Context {obj : Type} `{EqDecision obj}.
Context (import_module : string → option obj) (getattr : obj → string → option obj) (callable : obj → bool).
Context (getsource : obj → option string) (unwrap : obj → obj) (adapter_revision : obj → option string).
Abbreviation host_bind := (bind_ import_module getattr callable getsource unwrap adapter_revision).
Abbreviation host_component := (activate_component import_module getattr callable getsource unwrap adapter_revision).
Abbreviation host_step := (activate_step import_module getattr callable getsource unwrap adapter_revision).
Abbreviation host_activate := (activate import_module getattr callable getsource unwrap adapter_revision).
Abbreviation digest_now := (source_digest_for getsource unwrap adapter_revision).

(** ** One resolution *)
Record bound_as (impls : impl_table obj) (v : StoredVersion) (sealed : option Digest) (b : HostBound obj) : Prop := {
  ba_stored : b.(host_stored) = v;
  ba_composite g : v.(definition).(body) = CGraph g → b.(host_impl) = None;
  ba_atomic p : v.(definition).(body) = CPython p → ∃ impl d, b.(host_impl) = Some impl ∧
    (Dict.get (v.(definition).(def_name), v.(stored_hash)) impls = Some impl ∨
     Dict.get (v.(definition).(def_name), v.(stored_hash)) impls = None ∧
     _load import_module getattr callable p.(py_module) p.(qualname) = Ok impl) ∧
    digest_now impl = Some d ∧ (p.(source_digest) = None ∨ p.(source_digest) = Some d) ∧
    (sealed = None ∨ sealed = Some d);
}.
Definition assembled (catalog : gmap string CapabilityDescriptor) (b : CapabilityBinding) : Prop :=
  b.(binding) = SELF_BINDING ∨
  ∃ d, catalog !! b.(cap_id) = Some d ∧ d.(cap_revision) = b.(cap_binding_revision) ∧
    (is_Some d.(channel_profile) ↔ is_Some b.(channel)) ∧ d.(cap_endpoint) = endpoint <$> b.(channel).

Lemma capability_faults_nil catalog b : capability_faults catalog b = [] ↔ assembled catalog b.
Proof.
  unfold capability_faults, assembled. destruct (decide (binding b = SELF_BINDING)) as [|Hs]; [naive_solver|].
  destruct (catalog !! cap_id b) as [d|]; [|naive_solver].
  destruct (decide (_ ≠ _)) as [|Hr%dec_stable]; [naive_solver|].
  destruct (decide (bool_decide _ ≠ _)) as [Hc|Hc%dec_stable].
  { split; [done|]. intros [?|(d' & [= <-] & _ & Hi & _)]; [done|]. exfalso. apply Hc.
    by apply bool_decide_ext. }
  destruct (decide (_ ≠ _)) as [|He%dec_stable]; [naive_solver|].
  split; [|done]. intros _. right. exists d. split_and!; try done.
  by rewrite <-(bool_decide_eq_true (is_Some (channel_profile d))), Hc, bool_decide_eq_true.
Qed.
Lemma load_refused m q st :
  _load import_module getattr callable m q = Raise st → st ≠ Loadable ∧ st ≠ Composite.
Proof. unfold _load. repeat case_match; intros [= <-]; done. Qed.
Lemma implementation_of (impls : impl_table obj) v p :
  match (match Dict.get (v.(definition).(def_name), v.(stored_hash)) impls with
         | Some impl => Ok impl
         | None => _load import_module getattr callable p.(py_module) p.(qualname)
         end) with
  | Ok i => Dict.get (v.(definition).(def_name), v.(stored_hash)) impls = Some i ∨
            Dict.get (v.(definition).(def_name), v.(stored_hash)) impls = None ∧
            _load import_module getattr callable p.(py_module) p.(qualname) = Ok i
  | Raise st => st ≠ Loadable ∧ st ≠ Composite
  end.
Proof.
  destruct (Dict.get _ impls) as [i|]; [by left|].
  destruct (_load _ _ _ _ _) as [i|st] eqn:E; [by right|by eapply load_refused].
Qed.
Lemma component_faults_nil impls s r :
  (host_component impls s r).2 = [] ↔
  ∃ v, snapshot_get s r.(res_component) r.(resolved_version) = Some v ∧
    (host_component impls s r).1 = Some (host_bind impls v) ∧
    bound_as impls v r.(implementation_digest) (host_bind impls v).
Proof.
  unfold activate_component. destruct (snapshot_get _ _ _) as [v|]; [|naive_solver]. cbn [fst snd].
  split.
  2: { intros (? & [= <-] & _ & [Hst Hg Hp]). revert Hg Hp. unfold bind_.
       destruct (body (definition v)) as [p|g]; [|done]. intros _ Hp.
       destruct (Hp p eq_refl) as (impl & d & Hi & Hload & Hd & Hb & Hsealed). revert Hi.
       destruct (match Dict.get _ _ with Some _ => _ | None => _ end) as [i|]; [|done].
       destruct (digest_now i) as [obs|] eqn:Eo; [|done]. case_decide; [done|]. cbn. intros [= ->].
       rewrite Hd in Eo. injection Eo as <-. destruct (implementation_digest r) as [sd|]; [|done].
       rewrite decide_False; [done|]. intros Hn. destruct Hsealed as [|[= ->]]; [done|]. by apply Hn. }
  intros Hf. exists v. do 2 (split; [done|]). revert Hf. split.
  - unfold bind_. by repeat case_match.
  - intros g Hg. unfold bind_. by rewrite Hg.
  - intros p Hp. revert Hf. unfold bind_. rewrite Hp. pose proof (implementation_of impls v p) as Hsrc.
    destruct (match Dict.get _ impls with Some _ => _ | None => _ end) as [i|st]; [|by destruct st; destruct Hsrc].
    destruct (digest_now i) as [obs|] eqn:Eo; [|done]. case_decide as Hb; [done|]. cbn. intros Hf.
    exists i, obs. split_and!; [done|exact Hsrc|done| |].
    * destruct (source_digest p) as [d|]; [|by left]. right. destruct (decide (Some d = Some obs)); naive_solver.
    * destruct (implementation_digest r) as [sd|]; [|by left]. right.
      by destruct (decide (Some obs ≠ Some sd)) as [|Hn%dec_stable].
Qed.
Lemma bound_as_bind impls v sealed b :
  bound_as impls v sealed b → bound_as impls v sealed (host_bind impls v).
Proof.
  intros [Hst Hg Hp]. split.
  - unfold bind_. by repeat case_match.
  - intros g E. unfold bind_. by rewrite E.
  - intros p E. destruct (Hp p E) as (i & d & Hi & Hload & Hd & Hb & Hs).
    exists i, d. split_and!; try done. unfold bind_. rewrite E.
    assert (match Dict.get (v.(definition).(def_name), v.(stored_hash)) impls with
      | Some impl => Ok impl | None => _load import_module getattr callable p.(py_module) p.(qualname) end = Ok i) as ->
      by (by destruct Hload as [-> |[-> ->]]).
    rewrite Hd, decide_False; [done|]. intros [H1 H2]. naive_solver.
Qed.
Lemma bind_composite impls v sealed :
  bound_as impls v sealed (host_bind impls v) →
  bool_decide ((host_bind impls v).(loadability).(load_status) = Composite)
  = match v.(definition).(body) with CGraph _ => true | CPython _ => false end.
Proof.
  intros [_ _ Hp]. unfold bind_ in *. destruct (body (definition v)) as [p|g]; [|by rewrite bool_decide_eq_true_2].
  destruct (Hp p eq_refl) as (i & d & Hi & _).
  destruct (match Dict.get _ _ with Some _ => _ | None => _ end) as [j|]; [|done].
  destruct (digest_now j); [|done]. case_decide; [done|]. done.
Qed.

(** ** All of them *)
Definition res_key (r : ComponentResolution) : string * Digest := (r.(res_component), r.(resolved_version)).
Lemma activation_fold impls s rs :
  (foldl (host_step impls s) ([], []) rs).2 = rs ≫= (λ r, (host_component impls s r).2) ∧
  (∀ k, is_Some (Dict.get k (foldl (host_step impls s) ([], []) rs).1) → ∃ r, r ∈ rs ∧ res_key r = k) ∧
  ∀ r b, r ∈ rs → (host_component impls s r).1 = Some b →
    Dict.get (res_key r) (foldl (host_step impls s) ([], []) rs).1 = Some b.
Proof.
  induction rs as [|r rs (IHf & IHk & IHb)] using rev_ind.
  { split_and!; [done|by intros k [? ?]|by intros r b ?%elem_of_nil]. }
  rewrite foldl_snoc. destruct (foldl (host_step impls s) ([], []) rs) as [bs fs]. cbn [fst snd] in *.
  unfold activate_step at 1 2 3. rewrite bind_app.
  assert (∀ r0 b, (host_component impls s r0).1 = Some b → res_key r0 = res_key r →
    (host_component impls s r).1 = Some b) as Hsame.
  { intros r0 b Hb Hk. revert Hb. injection Hk as Hc Hv. unfold activate_component. rewrite Hc, Hv.
    by destruct (snapshot_get _ _ _). }
  destruct (host_component impls s r) as [ob fr] eqn:Er. cbn [fst snd] in *. split_and!.
  - rewrite IHf. simpl. by rewrite Er, app_nil_r.
  - intros k Hk. destruct ob as [b|].
    + rewrite Dict.get_set in Hk. case_decide as Hkr.
      * exists r. split; [set_solver|by rewrite Hkr].
      * destruct (IHk k Hk) as (r0 & ? & ?). exists r0. set_solver.
    + destruct (IHk k Hk) as (r0 & ? & ?). exists r0. set_solver.
  - intros r0 b [Hin| ->%list_elem_of_singleton]%elem_of_app Hb.
    + destruct (decide (res_key r0 = res_key r)) as [Hk|Hk].
      * pose proof (Hsame r0 b Hb Hk) as ->. unfold res_key in Hk |- *. rewrite Hk. apply Dict.get_set_eq.
      * destruct ob as [b'|]; [|by apply IHb]. rewrite Dict.get_set_ne; [by apply IHb|].
        intros Hk2; by apply Hk.
    + rewrite Er in Hb. cbn [fst] in Hb. subst ob. apply Dict.get_set_eq.
Qed.
Lemma bind_nil {A B} (f : A → list B) l : l ≫= f = [] ↔ Forall (λ x, f x = []) l.
Proof.
  induction l as [|x l IH]; [done|]. simpl. rewrite app_nil, Forall_cons. by rewrite <-IH.
Qed.
(** What the walker makes of a bound version. *)
Definition as_bound {N} (node : obj → N) (b : HostBound obj) : BoundVersion N :=
  mkBound b.(host_stored) (bool_decide (b.(loadability).(load_status) = Composite)) (node <$> b.(host_impl)).
Lemma activate_eq impls m catalog s : reg_ok s →
  let bindings := (foldl (host_step impls (current_snapshot s)) ([], []) m.(resolved_components)).1 in
  let faults := (m.(resolved_components) ≫= (λ r, (host_component impls (current_snapshot s) r).2))
                ++ (m.(capability_bindings) ≫= capability_faults catalog) in
  host_activate impls m catalog s
  = (match faults with [] => Ok bindings | _ => Raise (AdmissionRefused faults) end, s).
Proof.
  intros Hok. unfold activate. unfold ebind at 1. rewrite (snapshot_now s Hok).
  destruct (activation_fold impls (current_snapshot s) m.(resolved_components)) as [<- _].
  destruct (foldl _ _ _) as [bs fs]. cbn [fst snd]. by destruct (fs ++ _).
Qed.

(** C26: Activation never substitutes: it succeeds exactly when every resolved component is
    retained and is a composite or loads with the recorded and the sealed source digest, and
    every capability is assembled with the admitted revision, shape and endpoint; it then binds
    exactly the resolved versions, as the walker assumes. *)
Theorem activation_refuses_substitution impls m catalog cs :
  forallb rlawful cs = true →
  let s := run_rcalls cs new_registry in
  let snap := current_snapshot s in
  let '(r, s') := host_activate impls m catalog s in
  let resolved c b := ∃ v, snapshot_get snap c.(res_component) c.(resolved_version) = Some v ∧
    bound_as impls v c.(implementation_digest) b in
  s' = s ∧ (snapshot None s).1 = Ok snap ∧
  (is_ok r = true ↔ Forall (λ c, ∃ b, resolved c b) m.(resolved_components) ∧
                    Forall (assembled catalog) m.(capability_bindings)) ∧
  ∀ bindings, r = Ok bindings →
    (∀ k, is_Some (Dict.get k bindings) → k ∈ res_key <$> m.(resolved_components)) ∧
    (∀ c, c ∈ m.(resolved_components) → ∃ b, Dict.get (res_key c) bindings = Some b ∧ resolved c b) ∧
    (* this is what the walker asks of the registry *)
    ∀ N (node : obj → N) (bound : string → Digest → BoundVersion N),
      (∀ k b, Dict.get k bindings = Some b → bound k.1 k.2 = as_bound node b) →
      activated bound snap m.(resolved_components).
Proof.
  intros Hl s snap. pose proof (history_ok cs Hl) as Hok. fold s in Hok.
  rewrite (activate_eq impls m catalog s Hok). fold snap.
  destruct (activation_fold impls snap m.(resolved_components)) as (_ & Hkeys & Hget).
  set (bindings := (foldl (host_step impls snap) ([], []) m.(resolved_components)).1) in *.
  set (fs := m.(resolved_components) ≫= (λ r, (host_component impls snap r).2)).
  set (gs := m.(capability_bindings) ≫= capability_faults catalog). cbv zeta.
  assert (fs = [] ↔ Forall (λ c, ∃ b v, snapshot_get snap c.(res_component) c.(resolved_version) = Some v ∧
    bound_as impls v c.(implementation_digest) b) m.(resolved_components)) as Hfs.
  { unfold fs. rewrite bind_nil, !Forall_forall. split; intros H c Hc; specialize (H c Hc).
    - apply component_faults_nil in H as (v & ? & _ & ?). by exists (host_bind impls v), v.
    - destruct H as (b & v & Hv & Hb). apply component_faults_nil. exists v. split; [done|].
      split; [unfold activate_component; by rewrite Hv|]. by eapply bound_as_bind. }
  assert (gs = [] ↔ Forall (assembled catalog) m.(capability_bindings)) as Hgs.
  { unfold gs. rewrite bind_nil. by setoid_rewrite capability_faults_nil. }
  split; [done|]. split; [by rewrite (snapshot_now s Hok)|]. split.
  - rewrite <-Hfs, <-Hgs, <-app_nil. destruct (fs ++ gs); done.
  - intros bs Hbs. assert (fs = [] ∧ bs = bindings) as [Hf ->].
    { destruct (fs ++ gs) eqn:E; [|done]. apply app_nil in E as [-> _]. by injection Hbs as <-. }
    assert (∀ c, c ∈ m.(resolved_components) → ∃ v, snapshot_get snap c.(res_component) c.(resolved_version) = Some v ∧
      Dict.get (res_key c) bindings = Some (host_bind impls v) ∧
      bound_as impls v c.(implementation_digest) (host_bind impls v)) as Hall.
    { unfold fs in Hf. rewrite bind_nil, Forall_forall in Hf. intros c Hc. specialize (Hf c Hc).
      apply component_faults_nil in Hf as (v & Hv & Hb & Ha). exists v. split_and!; [done|by apply Hget|done]. }
    split_and!.
    + intros k Hk. apply Hkeys in Hk as (c & ? & <-). by apply list_elem_of_fmap_2.
    + intros c Hc. destruct (Hall c Hc) as (v & ? & ? & ?). exists (host_bind impls v). eauto.
    + intros N node bound Hbound. apply Forall_forall. intros c Hc. destruct (Hall c Hc) as (v & Hv & Hg & Ha).
      pose proof (Hbound _ _ Hg) as Hb. unfold res_key in Hb. cbn [fst snd] in Hb. rewrite Hb. cbn [as_bound bound_stored composite].
      rewrite (ba_stored _ _ _ _ Ha). split; [done|]. by apply bind_composite with (sealed := c.(implementation_digest)).
Qed.
End host.

(** ** A host whose modules all load, and two components it registers *)
Module Hosted.
Definition import_module (m : string) : option string := Some m.
Definition getattr (o part : string) : option string := Some (o +:+ "." +:+ part).
Definition callable (o : string) : bool := true.
Definition getsource (o : string) : option string := Some o.
Definition unwrap (o : string) : string := o.
Definition adapter_revision (o : string) : option string := None.
Abbreviation on f := (f import_module getattr callable getsource unwrap adapter_revision) (only parsing).
Definition source_hash : Digest := Eval vm_compute in
  default "" (source_digest_for getsource unwrap adapter_revision "demo.nodes.start").
Definition contract : Digest := Eval vm_compute in component_contract Fixture.start.
Definition start : ComponentDef :=
  mkComponent "start" RoleNode (CPython (mkPythonRef "demo" "demo.nodes" "start" contract (Some source_hash)))
    (def_inputs Fixture.start) (def_outputs Fixture.start) (mkMetadata None None []) None.
Definition start_hash : Digest := Eval vm_compute in content_hash start.
Definition wrapper_graph : Graph :=
  mkGraph "wrapper" [mkNode "begin" (BRef (Fixture.ref "start"))] []
    [Fixture.port "seed" "demo/Seed"] [Fixture.port "draft" "demo/State"].
Definition wrapper : ComponentDef :=
  mkComponent "wrapper" RoleNode (CGraph wrapper_graph)
    [Fixture.port "seed" "demo/Seed"] [Fixture.port "draft" "demo/State"] (mkMetadata None None []) None.
Definition wrapper_hash : Digest := Eval vm_compute in content_hash wrapper.
Definition history : list rcall := [RVersion (mkStored start start_hash "t1"); RVersion (mkStored wrapper wrapper_hash "t2")].
Definition resolution (c : string) (h : Digest) (sealed : option Digest) : ComponentResolution :=
  mkResolution (mkScope ["demo"; c]) c None h contract sealed.
Definition manifest (sealed : Digest) : ExecutionManifest :=
  mkManifest 1 wrapper_graph "" [resolution "wrapper" wrapper_hash None; resolution "start" start_hash (Some sealed)]
    [] [] [] "" "" "".
Example activates :
  (λ r : result rexn _, match r with Ok b => Dict.keys b | Raise _ => [] end)
    (on activate [] (manifest source_hash) ∅ (run_rcalls history new_registry)).1
  = [("wrapper", wrapper_hash); ("start", start_hash)].
Proof. vm_compute. reflexivity. Qed.
Example substituted :
  is_ok (on activate [] (manifest contract) ∅ (run_rcalls history new_registry)).1 = false.
Proof. vm_compute. reflexivity. Qed.
End Hosted.
Lemma activation_refuses_substitution_witness :
  forallb rlawful Hosted.history = true ∧
  let s := run_rcalls Hosted.history new_registry in
  Forall (λ c, ∃ b v, snapshot_get (current_snapshot s) c.(res_component) c.(resolved_version) = Some v ∧
    bound_as Hosted.import_module Hosted.getattr Hosted.callable Hosted.getsource Hosted.unwrap Hosted.adapter_revision
      [] v c.(implementation_digest) b) (resolved_components (Hosted.manifest Hosted.source_hash)).
Proof.
  assert (forallb rlawful Hosted.history = true) as Hl by (vm_compute; reflexivity).
  split; [exact Hl|]. intros s.
  pose proof (activation_refuses_substitution Hosted.import_module Hosted.getattr Hosted.callable Hosted.getsource
    Hosted.unwrap Hosted.adapter_revision [] (Hosted.manifest Hosted.source_hash) ∅ Hosted.history Hl) as H.
  cbv zeta in H. fold s in H. pose proof Hosted.activates as Ha. fold s in Ha.
  destruct (activate _ _ _ _ _ _ _ _ _ s) as [r s']. cbn [fst] in Ha.
  destruct H as (_ & _ & H & _). destruct H as [H _].
  destruct r as [bs|e]; [|discriminate Ha]. exact (proj1 (H eq_refl)).
Defined.
