(* ===== verification/RegistrationLaws.v ===== *)
(** Histories of a whole component registry ([Registry]): registrations, planned
    and applied, promotions and rollbacks by any callers. Every registered
    definition is what its contract says, so admission never finds a lying
    boundary. *)

From S2P Require Import Prelude Identity Address Graph Component Capability Manifest Run Effect Journal EffectStore.
From S2P Require Import RegistryStore Admission Units Registry JournalSpec EffectSpec RegistrySpec RegistryLaws.
From S2P Require Import RollbackSpec ActivationLaws Fixture.

Section host.
Context {obj : Type} `{EqDecision obj}.
Context (import_module : string → option obj) (getattr : obj → string → option obj) (callable : obj → bool).
Context (getsource : obj → option string) (unwrap : obj → obj) (adapter_revision : obj → option string).
Abbreviation host_plan := (plan_registration import_module getattr callable getsource unwrap adapter_revision).
Abbreviation host_register := (register import_module getattr callable getsource unwrap adapter_revision).
Abbreviation digest_now := (source_digest_for getsource unwrap adapter_revision).

(** ** What registration checks *)
Definition coherent (d : ComponentDef) : Prop :=
  embedded_schema_faults d = [] ∧
  match d.(body) with
  | CGraph g => boundary_differs d g = false ∧ d.(capability_requirements) = None
  | CPython p =>
      p.(py_contract_hash) = component_contract d ∧ p.(py_module) ≠ "__main__" ∧
      contains "<locals>" p.(qualname) = false ∧
      (∀ reqs, d.(capability_requirements) = Some reqs →
         NoDup (req_alias <$> reqs) ∧ Forall (λ r, r.(req_alias) ≠ "" ∧ r.(req_kind) ≠ "") reqs) ∧
      ∃ loaded now, _load import_module getattr callable p.(py_module) p.(qualname) = Ok loaded ∧
        digest_now loaded = Some now ∧ p.(source_digest) = Some now
  end.
Lemma requirement_faults_nil d : requirement_faults d = [] →
  ∀ reqs, d.(capability_requirements) = Some reqs →
    NoDup (req_alias <$> reqs) ∧ Forall (λ r, r.(req_alias) ≠ "" ∧ r.(req_kind) ≠ "") reqs.
Proof.
  unfold requirement_faults. intros H reqs E. rewrite E in H. cbv zeta in H.
  apply app_eq_nil in H as [Hd He]. split.
  - destruct (sorted_set _) eqn:Es; [|done]. rewrite sorted_set_nil in Es.
    apply count_of_NoDup. intros a Ha Hc. apply (not_elem_of_nil a). rewrite <-Es.
    by apply list_elem_of_filter.
  - apply Forall_forall. intros r Hr. destruct (decide (req_alias r = "" ∨ req_kind r = "")) as [Hb|Hb]; [|naive_solver].
    exfalso. assert (EmptyRequirement d.(def_name) ∈ reqs ≫= λ r, if decide (req_alias r = "" ∨ req_kind r = "")
      then [EmptyRequirement d.(def_name)] else []) as Hin.
    { apply list_elem_of_bind. exists r. split; [|done]. rewrite decide_True by done. by left. }
    rewrite He in Hin. by apply elem_of_nil in Hin.
Qed.
Lemma drift_faults_nil d declared impl :
  drift_faults getsource unwrap adapter_revision d declared impl = [] →
  ∃ now, digest_now impl = Some now ∧ declared = Some now.
Proof.
  unfold drift_faults. destruct (digest_now impl) as [now|]; [|done].
  destruct declared as [d'|]; [|done]. case_decide as Hd; [done|]. intros _. exists now.
  split; [done|]. by subst.
Qed.
Lemma plan_checks d impl (s s' : registry) :
  (match d.(body) with
   | CGraph g => check_composite d g impl
   | CPython p => check_atomic import_module getattr callable getsource unwrap adapter_revision d p impl
   end) s = (Ok tt, s') → s' = s ∧ coherent d.
Proof.
  destruct (body d) as [p|g] eqn:Eb.
  - unfold check_atomic. destruct (decide (_ = "__main__")) as [|Hm]; [done|].
    destruct (_load _ _ _ _ _) as [loaded|] eqn:El; [|done].
    destruct (match impl with Some _ => _ | None => _ end); [done|]. unfold _validate_atomic_identity.
    destruct (_ ++ _) eqn:Ef; [|done]. intros [= <-]. split; [done|].
    apply app_eq_nil in Ef as [Hloc Ef]. apply app_eq_nil in Ef as [Hct Ef].
    apply app_eq_nil in Ef as [Hsc Ef]. apply app_eq_nil in Ef as [Hrq Hdr].
    apply drift_faults_nil in Hdr as (now & Hn & Hd). split; [by apply fmap_nil_inv in Hsc|]. rewrite Eb.
    split_and!; [by destruct (decide (_ ≠ _)) as [|Hc%dec_stable] in Hct|done|by destruct (contains _ _)| |].
    + by apply requirement_faults_nil.
    + by exists loaded, now.
  - unfold check_composite. destruct (decide (is_Some impl)); [done|].
    destruct (decide (is_Some (capability_requirements d))) as [|Hr]; [done|].
    destruct (embedded_schema_faults d) eqn:Es; [|done]. destruct (boundary_differs d g) eqn:Ed; [done|].
    intros [= <-]. split; [done|]. split; [done|]. rewrite Eb. split; [done|]. by apply eq_None_not_Some.
Qed.

(** ** Every call keeps the registry sound and coherent *)
Definition all_coherent (s : registry) : Prop := ∀ row, row ∈ s.(component_rows) → coherent row.(cr_definition).
Definition good_reg (s : registry) : Prop := reg_ok s ∧ all_coherent s.
(** Kept whatever the outcome; [P] holds of what is returned. *)
Definition keeps_good {A} (m : R A) (P : A → Prop) : Prop :=
  ∀ s r s', good_reg s → m s = (r, s') → good_reg s' ∧ ∀ a, r = Ok a → P a.
Lemma kg_ret {A} (a : A) (P : A → Prop) : P a → keeps_good (eret a) P.
Proof. by intros Ha s r s' Hs [= <- <-]; split; [|intros ? [= <-]]. Qed.
Lemma kg_raise {A} e (P : A → Prop) : keeps_good (raise e) P.
Proof. by intros s r s' Hs [= <- <-]. Qed.
Lemma kg_lift {A} (x : result rexn A) : keeps_good (lift x) (λ _, True).
Proof. by intros s r s' Hs [= <- <-]. Qed.
Lemma kg_bind {A B} (m : R A) (k : A → R B) P Q :
  keeps_good m P → (∀ a, P a → keeps_good (k a) Q) → keeps_good (ebind m k) Q.
Proof.
  intros Hm Hk s r s' Hs E. unfold ebind in E. destruct (m s) as [[a|e] s1] eqn:Em.
  - destruct (Hm s _ s1 Hs Em) as [Hs1 Ha]. exact (Hk a (Ha a eq_refl) s1 r s' Hs1 E).
  - injection E as <- <-. split; [by eapply Hm|done].
Qed.
Lemma kg_weaken {A} (m : R A) (P Q : A → Prop) : keeps_good m P → (∀ a, P a → Q a) → keeps_good m Q.
Proof. intros Hm Hq s r s' Hs E. destruct (Hm s r s' Hs E) as [? Hp]. split; [done|]. eauto. Qed.
Definition coherent_cut (s : RegistrySnapshot) : Prop :=
  ∀ c h v, snapshot_get s c h = Some v → coherent v.(definition).
Lemma current_coherent s : good_reg s → coherent_cut (current_snapshot s).
Proof.
  intros [Hok Hco] c h v Hv. rewrite (snapshot_get_current s Hok) in Hv.
  destruct (component_of s c h) as [row|] eqn:E; [|done]. injection Hv as <-.
  apply elem_of_component in E as [Hin _]. by apply Hco.
Qed.
Lemma kg_snapshot : keeps_good (RegistryStore.snapshot None) coherent_cut.
Proof.
  intros s r s' Hs E. rewrite (snapshot_now s (proj1 Hs)) in E. injection E as <- <-.
  split; [done|]. intros ? [= <-]. by apply current_coherent.
Qed.
Lemma kg_journal {A} (m : J A) : (∀ j r j', m j = (r, j') → rtc jstep j j') → keeps_good (on_journal m) (λ _, True).
Proof.
  intros Hm s r s' [Hok Hco] E. unfold on_journal in E. destruct (m (reg_journal s)) as [r0 j] eqn:Em.
  injection E as _ <-. split; [|done]. split; [|exact Hco]. apply journal_reg_ok; [done|by eapply Hm].
Qed.
Lemma kg_store_version v : coherent v.(definition) → keeps_good (store_version v) (λ _, True).
Proof.
  intros Hv s r s' [Hok Hco] E. split; [|done]. pose proof E as E'. rewrite (store_version_eq s Hok) in E'.
  split; [by destruct (store_version_step s v r s' Hok E) as [->|[_ Hs]]; [|eapply reg_ok_step]|].
  cbv zeta in E'. intros row Hrow. repeat case_match; injection E' as <- <-; try (by apply Hco).
  simpl in Hrow. apply elem_of_app in Hrow as [Hr|Hr]; [by apply Hco|].
  by apply list_elem_of_singleton in Hr as ->.
Qed.
Lemma kg_store_promotion p : keeps_good (store_promotion p) (λ _, True).
Proof.
  intros s r s' [Hok Hco] E. split; [|done].
  split; [by destruct (store_promotion_step s p r s' Hok E) as [->|[_ Hs]]; [|eapply reg_ok_step]|].
  by destruct (store_promotion_moves s p r s' Hok E) as [->|(row & _ & ->)].
Qed.
Lemma kg_promotion_for id : keeps_good (promotion_for_attestation id) (λ _, True).
Proof. intros s r s' Hs E. rewrite (promotion_for_ok s (proj1 Hs)) in E. by injection E as _ <-. Qed.

(** *** The calls *)
Lemma kg_checks d impl :
  keeps_good (match d.(body) with
   | CGraph g => check_composite d g impl
   | CPython p => check_atomic import_module getattr callable getsource unwrap adapter_revision d p impl
   end) (λ _, coherent d).
Proof.
  intros s r s' Hs E.
  assert (s' = s) as ->.
  { revert E. destruct (body d).
    - unfold check_atomic, _validate_atomic_identity. repeat case_match; by intros [= _ <-].
    - unfold check_composite. repeat case_match; by intros [= _ <-]. }
  split; [done|]. intros [] ->. by eapply plan_checks.
Qed.
Lemma versions_of_coherent s name v : coherent_cut s → v ∈ versions_of s name → coherent v.(definition).
Proof.
  intros Hs Hv. unfold versions_of in Hv. apply list_elem_of_omap in Hv as (h & _ & Hg). by eapply Hs.
Qed.
Lemma kg_plan d impl at_ : keeps_good (host_plan d impl at_) (λ p, coherent p.(planned).(definition)).
Proof.
  unfold plan_registration. eapply kg_bind; [apply kg_checks|intros ? Hd].
  eapply kg_bind; [apply kg_snapshot|intros snap Hsnap]. cbv zeta.
  destruct (filter _ (versions_of snap (def_name d))) as [|v l] eqn:E.
  - destruct (snapshot_get _ _ _) as [c|]; [|by apply kg_ret].
    destruct (same_definition _ _); [by apply kg_ret|apply kg_raise].
  - case_decide; [apply kg_raise|]. apply kg_ret. simpl.
    assert (v ∈ filter (λ v, same_definition v.(definition) d = true) (versions_of snap d.(def_name))) as Hv
      by (rewrite E; left).
    apply list_elem_of_filter in Hv as [_ Hv]. by eapply versions_of_coherent.
Qed.
Lemma kg_register impls d impl now : keeps_good (host_register impls d impl now) (λ _, True).
Proof.
  unfold register. eapply kg_bind; [apply kg_plan|intros p Hp].
  eapply kg_bind; [|intros; by apply kg_ret]. unfold ewhen.
  destruct (bool_decide _); [by apply kg_store_version|by apply (kg_ret _ (λ _, True))].
Qed.
Lemma kg_apply p : coherent p.(planned).(definition) → keeps_good (apply_registration p) (λ _, True).
Proof.
  intros Hp. unfold apply_registration. cbv zeta. eapply kg_bind; [apply kg_snapshot|intros snap _].
  destruct (snapshot_get _ _ _) as [v|].
  - destruct (same_definition _ _); [by apply kg_ret|apply kg_raise].
  - case_decide; [apply kg_raise|]. eapply kg_bind; [by apply kg_store_version|intros ? _].
    eapply kg_bind; [apply kg_snapshot|intros snap' _]. destruct (snapshot_get _ _ _); [|apply kg_raise].
    destruct (same_definition _ _); [by apply kg_ret|apply kg_raise].
Qed.
Lemma kg_load id : keeps_good (on_journal (load_attestation id)) (λ _, True).
Proof. apply kg_journal. intros j r j'. unfold load_attestation, ebind, get, lift. by intros [= _ <-]. Qed.
Lemma kg_mint d now : keeps_good (on_journal (mint_policy_attestation d now)) (λ _, True).
Proof. apply kg_journal. intros j r j' E. by eapply mint_policy_outcome. Qed.
Lemma kg_promote c v id actor run now : keeps_good (promote c v id actor run now) (λ _, True).
Proof.
  unfold promote. eapply kg_bind; [apply kg_snapshot|intros snap _].
  destruct (snapshot_get _ _ _); [|apply kg_raise].
  eapply kg_bind; [apply kg_promotion_for|intros prior _]. destruct prior as [prior|].
  { case_decide; [apply kg_raise|by apply kg_ret]. }
  eapply kg_bind; [apply kg_load|intros minted _]. destruct minted as [a|]; [|apply kg_raise].
  eapply kg_bind; [apply kg_lift|intros current _]. cbv zeta.
  destruct (_ ++ _); [apply kg_store_promotion|apply kg_raise].
Qed.
Lemma kg_promote_initial c v actor now : keeps_good (promote_initial c v actor now) (λ _, True).
Proof.
  unfold promote_initial. eapply kg_bind; [apply kg_snapshot|intros snap _].
  eapply kg_bind; [apply kg_lift|intros stable _]. case_decide; [by apply kg_ret|].
  destruct stable; [apply kg_raise|]. eapply kg_bind; [apply kg_mint|intros a _].
  eapply kg_bind; [apply kg_promote|intros p _]. by apply kg_ret.
Qed.
Lemma kg_rollback c actor expected now : keeps_good (rollback c actor expected now) (λ _, True).
Proof.
  unfold rollback. eapply (kg_bind _ _ (λ _, True)).
  { intros s r s' Hs E. rewrite (plan_rollback_eq s (proj1 Hs)) in E. by injection E as _ <-. }
  intros p _. eapply kg_bind; [apply kg_mint|intros a _]. apply kg_promote.
Qed.

(** ** Histories *)
Record host_state := mkHost {
  hs_registry : registry;
  hs_impls : impl_table obj;
  hs_plans : list PlannedRegistration;
}.
Definition new_host : host_state := mkHost new_registry [] [].
Inductive hcall :=
| HRegister (d : ComponentDef) (impl : option obj) (now : string)
| HPlan (d : ComponentDef) (impl : option obj) (now : string)
| HApply (p : nat)
| HPromote (c : string) (v : Digest) (id actor : string) (run : option RunId) (now : string)
| HPromoteInitial (c : string) (v : Digest) (actor now : string)
| HRollback (c actor : string) (expected : option Digest) (now : string)
| HJournal (c : jcall).
Definition with_registry (h : host_state) (s : registry) : host_state := mkHost s h.(hs_impls) h.(hs_plans).
Definition run_hcall (h : host_state) (c : hcall) : host_state :=
  let s := h.(hs_registry) in
  match c with
  | HRegister d impl now =>
      match host_register h.(hs_impls) d impl now s with
      | (Ok (_, impls), s') => mkHost s' impls h.(hs_plans)
      | (Raise _, s') => with_registry h s'
      end
  | HPlan d impl now =>
      match host_plan d impl now s with
      | (Ok p, s') => mkHost s' h.(hs_impls) (h.(hs_plans) ++ [p])
      | (Raise _, s') => with_registry h s'
      end
  | HApply i => match h.(hs_plans) !! i with Some p => with_registry h (apply_registration p s).2 | None => h end
  | HPromote c v id actor run now => with_registry h (promote c v id actor run now s).2
  | HPromoteInitial c v actor now => with_registry h (promote_initial c v actor now s).2
  | HRollback c actor expected now => with_registry h (rollback c actor expected now s).2
  | HJournal c => with_registry h (on_journal (run_jcall c) s).2
  end.
Definition hlawful (c : hcall) : bool := match c with HJournal c => lawful c | _ => true end.
Definition run_hcalls (cs : list hcall) (h : host_state) : host_state := foldl run_hcall h cs.
Definition good_host (h : host_state) : Prop :=
  good_reg h.(hs_registry) ∧ Forall (λ p, coherent p.(planned).(definition)) h.(hs_plans).
Lemma kg_state {A} (m : R A) P s : keeps_good m P → good_reg s → good_reg (m s).2.
Proof. intros Hm Hs. destruct (m s) as [r s'] eqn:E. by eapply Hm. Qed.
Lemma good_host_call h c : hlawful c = true → good_host h → good_host (run_hcall h c).
Proof.
  intros Hl [Hs Hp]. destruct c as [d impl now|d impl now|i|c v id actor run now|c v actor now|c actor expected now|c];
    simpl.
  - destruct (host_register _ d impl now _) as [[[x impls]|e] s'] eqn:E; (split; [by eapply kg_register|done]).
  - destruct (host_plan d impl now _) as [[p|e] s'] eqn:E; destruct (kg_plan d impl now _ _ _ Hs E) as [Hs' Hc];
      (split; [done|]); [|done]. apply Forall_app. split; [done|]. constructor; [by apply Hc|done].
  - destruct (hs_plans h !! i) as [p|] eqn:E; [|by split]. split; [|done].
    eapply kg_state; [apply kg_apply|done]. rewrite Forall_lookup in Hp. by eapply Hp.
  - split; [|done]. eapply kg_state; [apply kg_promote|done].
  - split; [|done]. eapply kg_state; [apply kg_promote_initial|done].
  - split; [|done]. eapply kg_state; [apply kg_rollback|done].
  - split; [|done]. eapply kg_state; [apply kg_journal|done]. intros j r j' E. by eapply jcall_steps.
Qed.
Lemma good_history cs : forallb hlawful cs = true → good_host (run_hcalls cs new_host).
Proof.
  assert (good_host new_host) as H0.
  { split; [split; [apply reg_ok_new|by intros ? ?%elem_of_nil]|constructor]. }
  revert H0. generalize new_host. induction cs as [|c cs IH]; intros h Hh; [done|].
  simpl. intros [Hc Hcs]%andb_true_iff. by apply IH; [apply good_host_call|].
Qed.

(** C27: Whatever registrations, planned registrations, promotions and rollbacks are made in
    whatever order, every registered version is well-typed: its schemas match, a composite
    declares exactly the boundary its graph exports, an atomic carries the contract hash of its
    ports and the digest of its code; so admission never finds a lying boundary. *)
Theorem registered_components_are_coherent cs :
  forallb hlawful cs = true →
  let s := (run_hcalls cs new_host).(hs_registry) in
  ∃ snap, RegistryStore.snapshot None s = (Ok snap, s) ∧
    ∀ c h v, snapshot_get snap c h = Some v →
      v.(definition).(def_name) = c ∧ v.(stored_hash) = h ∧ content_hash v.(definition) = h ∧
      coherent v.(definition) ∧
      ∀ where_ st, _boundary_lies v where_ st = (Ok false, st).
Proof.
  intros Hl s. destruct (good_history cs Hl) as [Hs _]. fold s in Hs. exists (current_snapshot s).
  split; [by apply snapshot_now, Hs|]. intros c h v Hv. pose proof (current_coherent s Hs c h v Hv) as Hc.
  rewrite (snapshot_get_current s (proj1 Hs)) in Hv. destruct (component_of s c h) as [row|] eqn:E; [|done].
  injection Hv as <-. apply elem_of_component in E as [Hin Hk]. injection Hk as <- <-.
  destruct (row_of s (proj1 Hs) row Hin) as [[Hn Hh] _]. split_and!; try done.
  intros where_ st. unfold _boundary_lies. destruct Hc as [Hsc Hb]. cbv zeta. cbn [definition stored_of] in *.
  destruct (body _) as [p|g]; [done|]. destruct Hb as [Hb _]. by rewrite Hsc, Hb.
Qed.
End host.
Definition hosted_calls : list (hcall (obj := string)) :=
  [HRegister Hosted.start None "t1"; HPlan Hosted.wrapper None "t2"; HApply 0;
   HPromoteInitial "start" Hosted.start_hash "operator" "t3"].
Lemma registered_components_are_coherent_witness :
  forallb hlawful hosted_calls = true ∧
  ∃ snap, RegistryStore.snapshot None (hs_registry (Hosted.on run_hcalls hosted_calls new_host))
            = (Ok snap, hs_registry (Hosted.on run_hcalls hosted_calls new_host)).
Proof.
  split; [vm_compute; reflexivity|].
  assert (forallb hlawful hosted_calls = true) as Hl by (vm_compute; reflexivity).
  destruct (registered_components_are_coherent Hosted.import_module Hosted.getattr Hosted.callable Hosted.getsource
    Hosted.unwrap Hosted.adapter_revision hosted_calls Hl) as (snap & Hs & _).
  exists snap. exact Hs.
Defined.
Example hosted_registers :
  let s := (Hosted.on run_hcalls hosted_calls new_host).(hs_registry) in
  row_key <$> s.(component_rows) = [("start", Hosted.start_hash); ("wrapper", Hosted.wrapper_hash)] ∧
  pointer s.(promotion_rows) "start" = Some Hosted.start_hash.
Proof. vm_compute. split; reflexivity. Qed.
