(* ===== verification/RdepsLaws.v ===== *)
(** Reverse dependencies ([ComponentRegistry.rdeps], [Registry.rdeps_in]): the
    search ends within its fuel and finds exactly the owners that name the
    component through any number of composites. *)

From S2P Require Import Prelude Identity Address Graph Component Capability Manifest Run Effect Journal EffectStore.
From S2P Require Import RegistryStore Registry JournalSpec EffectSpec RegistrySpec RegistryLaws Fixture.
From S2P Require Import ActivationLaws RegistrationLaws.
From Stdlib Require Import Sorted.

(** Some registered version of [owner] names [name]. *)
Definition names_it (s : RegistrySnapshot) (name owner : string) : Prop :=
  ∃ h v, snapshot_get s owner h = Some v ∧ name ∈ references v.(definition).
Lemma elem_of_dependents s name owner : owner ∈ dependents s name ↔ names_it s name owner.
Proof.
  unfold dependents, names_it, names, snapshot_get. rewrite list_elem_of_filter, Exists_exists, elem_of_py_sorted.
  setoid_rewrite elem_of_map_to_list'. destruct (Component.versions s !! owner) as [m|] eqn:E; simpl.
  - split; [intros [([h v] & ? & ?) _]; by exists h, v|]. intros (h & v & ? & ?).
    split; [by exists (h, v)|]. apply list_elem_of_fmap. exists (owner, m). split; [done|].
    by apply elem_of_map_to_list.
  - split; [|by intros (h & v & ? & _)]. intros [(hv & Hv & _) _]. by rewrite lookup_empty in Hv.
Qed.
Lemma dependents_registered s name : dependents s name ⊆ names s.
Proof. intros owner. unfold dependents. rewrite list_elem_of_filter. by intros [_ ?]. Qed.
Lemma names_NoDup s : NoDup (names s).
Proof. unfold names. apply NoDup_py_sorted. apply NoDup_fst_map_to_list. Qed.

(** ** The search *)
Section search.
Context (s : RegistrySnapshot) (name : string).
Abbreviation reaches := (tc (names_it s)).
(** Every name reached so far is reachable, and all but those on the frontier
    have had their owners added. *)
Record searched (seen frontier : list string) : Prop := {
  se_unique : NoDup seen;
  se_sound d : d ∈ seen → reaches name d;
  se_frontier d : d ∈ frontier → d = name ∨ d ∈ seen;
  se_closed d owner : d = name ∨ d ∈ seen → d ∉ frontier → names_it s d owner → owner ∈ seen;
}.
Lemma searched_length seen frontier : searched seen frontier → length seen ≤ length (names s).
Proof.
  intros H. apply submseteq_length, NoDup_submseteq; [apply H|]. intros d Hd.
  apply (se_sound _ _ H) in Hd. assert (∃ b, names_it s b d) as [b Hb] by (clear -Hd; induction Hd; eauto).
  by apply (dependents_registered s b), elem_of_dependents.
Qed.
Lemma searched_step seen current frontier :
  searched seen (current :: frontier) →
  let fresh := filter (λ d, d ∉ seen) (dependents s current) in
  searched (fresh ++ seen) (reverse fresh ++ frontier).
Proof.
  intros [Hu Hs Hf Hc] fresh.
  assert (∀ d, d ∈ fresh ↔ names_it s current d ∧ d ∉ seen) as Hfresh.
  { intros d. unfold fresh. rewrite list_elem_of_filter, elem_of_dependents. tauto. }
  assert (current = name ∨ reaches name current) as Hcur.
  { destruct (Hf current ltac:(left)) as [?|?]; [by left|right; by apply Hs]. }
  split.
  - apply NoDup_app. split_and!; [|by intros d [_ ?]%Hfresh|done].
    apply NoDup_filter, NoDup_filter, names_NoDup.
  - intros d [[Hd _]%Hfresh|Hd]%elem_of_app; [|by apply Hs].
    destruct Hcur as [->|Hcur]; [by apply tc_once|by eapply tc_r].
  - intros d [Hd|Hd]%elem_of_app; [right; apply elem_of_app; left; by rewrite elem_of_reverse in Hd|].
    destruct (Hf d ltac:(by right)) as [?|?]; [by left|right; apply elem_of_app; by right].
  - intros d owner Hd Hn Ho. apply elem_of_app. destruct (decide (owner ∈ seen)) as [|Hs']; [by right|left].
    apply Hfresh. split; [|done]. destruct (decide (d = current)) as [<-|Hdc]; [done|exfalso].
    rewrite elem_of_app, elem_of_reverse in Hn. apply Hs'. apply (Hc d); [|set_solver|done].
    destruct Hd as [?|[Hd|?]%elem_of_app]; [by left| |by right]. exfalso. apply Hn. by left.
Qed.
Lemma search_ends fuel seen frontier :
  searched seen frontier → length frontier + (length (names s) - length seen) ≤ fuel →
  ∃ found, rdeps_loop fuel s seen frontier = Some found ∧ searched found [].
Proof.
  revert seen frontier. induction fuel as [|fuel IH]; intros seen [|current frontier] H Hle.
  { by exists seen. } { simpl in Hle. lia. } { by exists seen. }
  cbn [rdeps_loop]. set (fresh := filter (λ d, d ∉ seen) (dependents s current)).
  pose proof (searched_step _ _ _ H) as Hs. fold fresh in Hs. apply IH; [exact Hs|].
  pose proof (searched_length _ _ Hs) as Hl. rewrite length_app in Hl.
  rewrite !length_app, length_reverse. simpl in Hle. lia.
Qed.
Lemma searched_new : searched [] [name].
Proof.
  split; [constructor|by intros d ?%elem_of_nil| |].
  - intros d ->%list_elem_of_singleton. by left.
  - intros d owner [->|Hd]; [|by apply elem_of_nil in Hd]. intros Hn. exfalso. apply Hn. left.
Qed.
Lemma searched_all found d : searched found [] → d ∈ found ↔ reaches name d.
Proof.
  intros [_ Hs _ Hc]. split; [apply Hs|]. intros Hr.
  assert (∀ x, (x = name ∨ x ∈ found) → reaches x d → d ∈ found) as Hx; [|apply (Hx name); [by left|done]].
  clear Hr. intros x Hx Hxd. induction Hxd as [x y Hxy|x y z Hxy _ IH].
  - apply (Hc x); [done|apply not_elem_of_nil|done].
  - apply IH. right. apply (Hc x); [done|apply not_elem_of_nil|done].
Qed.
End search.

(** The search for reverse dependencies ends within its fuel and returns, sorted and
    without repetition, exactly the components some registered version of which names the
    component directly or through other composites. *)
Theorem rdeps_exact s name :
  ∃ found, rdeps_in s name = Some found ∧ NoDup found ∧ StronglySorted (le_of String.leb) found ∧
    ∀ d, d ∈ found ↔ tc (names_it s) name d.
Proof.
  destruct (search_ends s name (S (length (names s))) [] [name] (searched_new s name)) as (found & E & Hf).
  { simpl. lia. }
  exists (py_sorted String.leb found). unfold rdeps_in. rewrite E. split; [done|].
  split; [apply NoDup_py_sorted, Hf|]. split; [apply py_sorted_sorted, _|].
  intros d. rewrite elem_of_py_sorted. by apply searched_all.
Qed.
Example wrapper_depends :
  rdeps_in (current_snapshot (run_rcalls Hosted.history new_registry)) "start" = Some ["wrapper"].
Proof. vm_compute. reflexivity. Qed.
