(* ===== verification/DriveLaws.v ===== *)
(** A run from its first attempt to its last reader: what an attempt that
    returned leaves behind. *)

From S2P Require Import Prelude Identity Address Graph Component Capability Manifest Message Fixture.
From S2P Require Import Run Effect Journal JournalSpec JournalLaws Units UnitsSpec Walk Boundary Invoke Drive WalkSpec.
From S2P Require Import BoundarySpec InvokeSpec WalkRuns WalkDurable.

(** ** Reads of a good store *)
Lemma mutation_row_good s run : good s → _run_mutation_row run s = (Ok (Dict.get run s.(runs)), s).
Proof.
  intros H. unfold _run_mutation_row, ebind, get. destruct (Dict.get run (runs s)) as [r|] eqn:E; [|done].
  pose proof (fence_good s run r H E) as Hf. unfold ebind, lift, eret.
  by destruct (validated_run_fence s run r).
Qed.
Section reads.
Context (s : store) (run : RunId) (Hgood : good s).
Lemma run_state_good : run_state run s = (Ok (run_status <$> Dict.get run s.(runs)), s).
Proof. unfold run_state, ebind. by rewrite mutation_row_good. Qed.
Context (mhash : Digest) (inputs : list (string * json)) (m : ExecutionManifest).
Context (Hc : created_from s run mhash inputs m).
Lemma run_inputs_created : run_inputs run s = (Ok (Some inputs), s).
Proof.
  unfold run_inputs, ebind. rewrite mutation_row_good by done. destruct Hc as [(r & -> & _ & <-) _]. done.
Qed.
Lemma load_manifest_created : parsed m = true → _load_manifest run s = (Ok m, s).
Proof.
  intros Hp. unfold _load_manifest, run_manifest_hash, ebind. rewrite mutation_row_good by done.
  destruct Hc as [(r & -> & <- & _) Hm]. simpl. unfold load_manifest_json, ebind, get, eret.
  by rewrite Hm, Hp.
Qed.
Lemma load_manifest_inv m' s' : _load_manifest run s = (Ok m', s') → s' = s ∧ m' = m ∧ parsed m = true.
Proof.
  unfold _load_manifest, run_manifest_hash, ebind. rewrite mutation_row_good by done.
  destruct Hc as [(r & -> & <- & _) Hm]. simpl. unfold load_manifest_json, ebind, get, eret. rewrite Hm.
  destruct (parsed m); [|done]. by intros [= -> ->].
Qed.
End reads.

(** ** The environment of an attempt *)
Class AttemptLaws {N} (env : nat → store → weather) (run : RunId) (owner : string)
    (invoke : RunLease → ExecutionManifest → EffectMode → CapabilityMode →
      _Instance N → ExecutionPath → list (string * json) → Digest → O (list (string * json)))
    (reconcile : RunLease → CapabilityBinding → CapabilityLease → disposition → O unit)
    (heartbeat_end : RunLease → O unit) : Prop := {
  al_env ep ex : EnvLaw (mkLease run owner ep ex) env;
  al_invoke ep ex m em cm : InvokeLaws (mkLease run owner ep ex) (invoke (mkLease run owner ep ex) m em cm);
  al_reconcile ep ex : ReconcileLaw (mkLease run owner ep ex) (reconcile (mkLease run owner ep ex));
  al_heartbeat ep ex : keeps (obs_out (mkLease run owner ep ex) nowhere) (heartbeat_end (mkLease run owner ep ex));
}.

(** ** Shutting down *)
Section shutdown.
Context (lease : RunLease) (heartbeat_end : RunLease → O unit).
Context (Hend : keeps (obs_out lease nowhere) (heartbeat_end lease)).
Abbreviation run := (lease.(lease_run)) (only parsing).

Lemma release_unheld s r s' :
  good s → release_run lease s = (r, s') →
  ∀ row, Dict.get run s'.(runs) = Some row → holds lease row = false.
Proof.
  intros Hg E row Hrow. revert E. unfold release_run, _txn, ebind. cbv zeta. rewrite mutation_row_good by done.
  destruct (Dict.get run (runs s)) as [row0|] eqn:E0; simpl.
  - destruct (holds lease row0) eqn:Eh; simpl; intros [= _ <-].
    + rewrite get_set_run in Hrow. by injection Hrow as <-.
    + congruence.
  - intros [= _ <-]. congruence.
Qed.
Lemma cancel_held s row :
  good s → Dict.get run s.(runs) = Some row → holds lease row = true →
  request_cancel run (Some lease) s = (Ok tt, set_run run (row_cancel row) s).
Proof.
  intros Hg Hrow Hh. unfold request_cancel. rewrite bool_decide_eq_false_2 by (by intros []).
  unfold _txn, ebind. rewrite mutation_row_good, Hrow by done. simpl. by rewrite Hh.
Qed.
Lemma release_held s row :
  good s → Dict.get run s.(runs) = Some row → holds lease row = true →
  release_run lease s = (Ok tt, set_run run (row_owner None row.(owner_epoch) None row) s).
Proof.
  intros Hg Hrow Hh. unfold release_run, _txn, ebind. cbv zeta. rewrite mutation_row_good, Hrow by done.
  simpl. by rewrite Hh.
Qed.
Lemma transition_held s row expected target kind p :
  good s → Dict.get run s.(runs) = Some row → holds lease row = true → row.(run_status) ∈ expected →
  active_leases s run = [] → kind ≠ METERING_EVENT →
  transition_run lease expected target kind p s
  = (Ok tt, add_event (mkEvent run (S row.(next_event_seq)) kind None p)
              (set_run run (row_status target (row_seq (S row.(next_event_seq)) row)) s)).
Proof.
  intros Hg Hrow Hh Hst Ha Hk. unfold transition_run, _allocate_seq, _txn. cbv zeta.
  unfold ebind at 1 2. rewrite mutation_row_good, Hrow by done. rewrite decide_False by (by intros []).
  rewrite Hh. simpl. unfold ebind, get, modify, eret.
  change (active_leases (set_run run (row_seq (S (next_event_seq row)) row) s) run) with (active_leases s run).
  rewrite Ha. rewrite decide_False by (by case_bool_decide; intros []).
  rewrite get_set_run. rewrite decide_False by (by intros []).
  unfold _insert_event. rewrite decide_False by done. unfold ebind, modify, eret. by rewrite set_run_twice.
Qed.

Lemma attempt_obs {A} P (m : O A) : keeps (obs_out lease P) m → keeps (obs_out lease P) (attempt m).
Proof. intros H o. specialize (H o). unfold attempt. by destruct (m o). Qed.
Lemma settle_obs failure mode : keeps (obs_out lease nowhere) (settle_run heartbeat_end lease failure mode).
Proof.
  assert (∀ A (a : A), keeps (E:=exn) (obs_out lease nowhere) (eret a)) as Hret by (intros; apply keeps_eret, _).
  assert (∀ A (m : O A) B (f : A → O B), keeps (obs_out lease nowhere) m →
    (∀ a, keeps (obs_out lease nowhere) (f a)) → keeps (obs_out lease nowhere) (ebind m f)) as Hbind
    by (intros; by apply keeps_bind; [apply _|..]).
  unfold settle_run. cbv zeta. apply Hbind; [by apply attempt_obs|intros r1].
  apply Hbind; [by intros o|intros lost]. apply Hbind.
  - destruct (_ && _); [|apply Hret]. apply Hbind; [|intros; apply Hret]. apply attempt_obs, keeps_journal.
    by apply (keeps_of_call _ _ _ (JCancel run (Some lease))).
  - intros [s2 intent]. destruct (_ && _); [|apply Hret]. apply Hbind; [|intros; apply Hret].
    apply attempt_obs, keeps_journal. by apply keeps_transition.
Qed.
(** What follows the release changes nothing. *)
Definition shut (s : shutdown) (failure : option exn) (released : result exn unit) : result exn unit :=
  let errors := match released with Raise (OwnershipLost _) | Ok _ => s.(sd_errors) | Raise e => s.(sd_errors) ++ [e] end in
  match s.(sd_loss), _cleanup_error errors, primary_of failure with
  | Some loss, _, _ => Raise loss
  | None, Some e, _ => Raise e
  | None, None, Some e => Raise e
  | None, None, None => Ok tt
  end.
Lemma settle_ok failure mode o : ∃ s o1, settle_run heartbeat_end lease failure mode o = (Ok s, o1).
Proof.
  unfold settle_run, ebind, attempt, eret. cbv zeta. destruct (heartbeat_end lease o) as [r1 o1].
  match goal with |- context [if ?b && ?c then _ else _] => destruct (b && c) end.
  - destruct (journal _ o1) as [r2 o2]. destruct r2.
    all: match goal with |- context [if ?b && ?c then _ else _] => destruct (b && c) end; [|by eauto].
    all: destruct (journal _ o2) as [r3 o3]; by eauto.
  - rewrite andb_false_r. simpl. by eauto.
Qed.
Lemma finish_shape failure mode o :
  ∃ s o1 r1 s1, settle_run heartbeat_end lease failure mode o = (Ok s, o1) ∧
    release_run lease o1.(o_store) = (r1, s1) ∧
    _finish_run heartbeat_end lease failure mode o = (shut s failure r1, set_store s1 o1).
Proof.
  destruct (settle_ok failure mode o) as (s & o1 & Es).
  destruct (release_run lease o1.(o_store)) as [r1 s1] eqn:Er. exists s, o1, r1, s1. split; [done|]. split; [done|].
  unfold _finish_run. cbv zeta. unfold ebind at 1. rewrite Es. unfold ebind, attempt, journal. rewrite Er.
  unfold shut. cbv zeta. destruct r1 as [[]|e]; [|destruct e]; simpl;
    destruct (sd_loss s); try done; destruct (_cleanup_error _); try done; by destruct (primary_of failure).
Qed.
Lemma finish_obs failure mode : keeps (obs_out lease nowhere) (_finish_run heartbeat_end lease failure mode).
Proof.
  intros o. destruct (finish_shape failure mode o) as (s & o1 & r1 & s1 & Es & Er & ->).
  pose proof (settle_obs failure mode o) as H. rewrite Es in H. etrans; [exact H|].
  pose proof (lawful_obs lease nowhere (JRelease lease) o1.(o_store) eq_refl eq_refl) as Hr.
  simpl in Hr. rewrite Er in Hr. exact Hr.
Qed.
Lemma finish_raises e mode o o' : _finish_run heartbeat_end lease (Some e) mode o ≠ (Ok tt, o').
Proof.
  destruct (finish_shape (Some e) mode o) as (s & o1 & r1 & s1 & _ & _ & ->). unfold shut. cbv zeta.
  destruct (sd_loss s); [done|]. destruct (_cleanup_error _); [done|]. by destruct e.
Qed.

Definition loss_ok (s : shutdown) : Prop := ∀ e, s.(sd_loss) = Some e → ∃ x, e = OwnershipLost x.
Lemma note_ok e s : loss_ok s → loss_ok (note e s).
Proof.
  intros H. unfold loss_ok. destruct e; simpl; try exact H. intros e' [= <-].
  destruct (sd_loss s) eqn:E; simpl; [by apply H|by eexists].
Qed.
Lemma note_loss e s : is_Some s.(sd_loss) → is_Some (note e s).(sd_loss).
Proof. by destruct e. Qed.
Lemma settle_loss failure mode o s o1 :
  settle_run heartbeat_end lease failure mode o = (Ok s, o1) →
  loss_ok s ∧ ((∃ x, primary_of failure = Some (OwnershipLost x)) ∨ (heartbeat_end lease o).2.(o_lost) = true →
               is_Some s.(sd_loss)).
Proof.
  set (P := λ s, loss_ok s ∧ ((∃ x, primary_of failure = Some (OwnershipLost x)) ∨
    (heartbeat_end lease o).2.(o_lost) = true → is_Some s.(sd_loss))).
  assert (∀ e s, P s → P (note e s)) as Hnote.
  { intros e s0 [H1 H2]. split; [by apply note_ok|]. intros H. apply note_loss. by apply H2. }
  assert (loss_ok (first_losses failure) ∧ ((∃ x, primary_of failure = Some (OwnershipLost x)) →
    is_Some (first_losses failure).(sd_loss))) as [Hok Hp].
  { unfold first_losses, loss_ok. split.
    - destruct (primary_of failure) as [[]|]; simpl; intros e' [=]; subst; by eexists.
    - intros [x ->]. by eexists. }
  change (settle_run heartbeat_end lease failure mode o = (Ok s, o1) → P s).
  unfold settle_run. cbv zeta. unfold ebind at 1, attempt at 1. destruct (heartbeat_end lease o) as [r1 oa] eqn:Eh.
  unfold ebind at 1.
  set (s1 := if o_lost oa then _ else _).
  assert (P s1) as H1.
  { unfold s1, P. split.
    - destruct r1; destruct (o_lost oa); by repeat apply note_ok.
    - simpl snd. intros H. destruct (o_lost oa).
      + destruct r1; by eexists.
      + destruct H as [H|H]; [|done]. destruct r1; [by apply Hp|by apply note_loss, Hp]. }
  clearbody s1. unfold ebind, attempt, eret. intros E.
  destruct (_ && negb (has_loss s1)) in E.
  - destruct (journal _ oa) as [r2 o2] in E. destruct r2 as [[]|e2]; simpl in E.
    + destruct (_ && _) in E; [|by injection E as <- _].
      destruct (journal _ o2) as [r3 o3] in E. injection E as <- _.
      destruct r3 as [|e3]; [done|]. destruct e3; first [by apply Hnote|done].
    + rewrite andb_false_r in E. simpl in E. injection E as <- _. by apply Hnote.
  - rewrite andb_false_r in E. simpl in E. by injection E as <- _.
Qed.

(** However an attempt ends, its shutdown never returns normally after a failure, raises
    ownership loss whenever one was known, and afterwards the run is not held by this attempt's
    lease. *)
Theorem shutdown_releases failure mode o r o' :
  good o.(o_store) →
  _finish_run heartbeat_end lease failure mode o = (r, o') →
  (∀ row, Dict.get run o'.(o_store).(runs) = Some row → holds lease row = false) ∧
  ((∃ x, primary_of failure = Some (OwnershipLost x)) ∨ (heartbeat_end lease o).2.(o_lost) = true →
    ∃ x, r = Raise (OwnershipLost x)) ∧
  (r = Ok tt → failure = None).
Proof.
  intros Hg E. destruct (finish_shape failure mode o) as (s & o1 & r1 & s1 & Es & Er & E').
  rewrite E in E'. injection E' as -> ->. split_and!.
  - intros row. eapply release_unheld; [|exact Er].
    pose proof (settle_obs failure mode o) as H. rewrite Es in H. by eapply good_steps; [apply H|].
  - intros H. destruct (settle_loss _ _ _ _ _ Es) as [Hok Hl]. destruct (Hl H) as [e He].
    destruct (Hok e He) as [x ->]. exists x. unfold shut. by rewrite He.
  - unfold shut. cbv zeta. destruct (sd_loss s); [done|]. destruct (_cleanup_error _); [done|].
    by destruct failure as [[]|].
Qed.

(** C17: An asyncio cancellation of an attempt that still holds its RUNNING run and has no
    active lease ends durably: the run is released and the cancellation raised; in cancel mode
    the intent is recorded and the run CANCELLED by exactly one event, in abandon mode the run
    stays RUNNING with its history untouched. *)
Theorem cancellation_is_durable o row mode :
  good o.(o_store) → o.(o_lost) = false → heartbeat_end lease o = (Ok tt, o) →
  Dict.get run o.(o_store).(runs) = Some row → holds lease row = true → row.(run_status) = RUNNING →
  active_leases o.(o_store) run = [] →
  ∃ o' row', _finish_run heartbeat_end lease (Some Cancelled) mode o = (Raise Cancelled, o') ∧
    Dict.get run o'.(o_store).(runs) = Some row' ∧ row'.(owner_id) = None ∧
    match mode with
    | CancelRun => row'.(run_status) = CANCELLED ∧ row'.(cancel_flag) = true ∧
        run_events o'.(o_store) run = run_events o.(o_store) run
          ++ [mkEvent run (S row.(next_event_seq)) "RunCancelled" None (Some (PMembers [("source", JStr "asyncio")]))]
    | AbandonRun => row'.(run_status) = RUNNING ∧ row'.(cancel_flag) = row.(cancel_flag) ∧
        run_events o'.(o_store) run = run_events o.(o_store) run
    end.
Proof.
  intros Hg Hlost Hhb Hrow Hh Hst Hact.
  assert (∀ s row', good s → Dict.get run s.(runs) = Some row' → holds lease row' = true →
    ∃ s1, release_run lease s = (Ok tt, s1) ∧ Dict.get run s1.(runs) = Some (row_owner None row'.(owner_epoch) None row') ∧
      run_events s1 run = run_events s run) as Hrel.
  { intros s row' Hs Hr' Hh'. eexists. split; [by apply release_held|]. split; [apply get_set_run|done]. }
  destruct o as [s lost tick]. simpl in *. subst lost. unfold _finish_run, settle_run. cbv zeta.
  unfold ebind, attempt. rewrite Hhb. unfold eret, journal. simpl. destruct mode; simpl.
  - rewrite (cancel_held s row) by done. simpl.
    set (s1 := set_run run (row_cancel row) s).
    assert (good s1) as Hg1 by (eapply good_step; [by apply step_cancel|done]).
    rewrite (transition_held s1 (row_cancel row)); [|done|apply get_set_run|done|simpl; rewrite Hst; left|done|done].
    set (row2 := row_status CANCELLED _). set (s2 := add_event _ _).
    assert (good s2) as Hg2.
    { eapply good_step; [|exact Hg1]. apply (step_write s1 lease (row_cancel row) CANCELLED "RunCancelled" None _ WNone);
        [apply get_set_run|done| |done]. simpl. rewrite Hst. right. left. }
    destruct (Hrel s2 row2) as (s3 & Er & Hg3 & Hev); [done|apply get_set_run|done|].
    simpl. rewrite Er. eexists _, _. split; [done|]. simpl. split; [exact Hg3|]. split_and!; try done.
    rewrite Hev. unfold s2, run_events. simpl. rewrite filter_app. f_equal. by rewrite filter_cons_True.
  - destruct (Hrel s row) as (s3 & Er & Hg3 & Hev); [done..|]. rewrite Er.
    eexists _, _. split; [done|]. split; [exact Hg3|]. by split_and!.
Qed.
End shutdown.

Section laws.
Context {N : Type}.
Context (env : nat → store → weather) (clock : nat → Z) (ttl : Z) (owner : string).
Context (snapshot : RegistrySnapshot) (activate : ExecutionManifest → result exn (string → Digest → BoundVersion N)).
Context (invoke : RunLease → ExecutionManifest → EffectMode → CapabilityMode →
  _Instance N → ExecutionPath → list (string * json) → Digest → O (list (string * json))).
Context (reconcile : RunLease → CapabilityBinding → CapabilityLease → disposition → O unit).
Context (is_leased : string → bool) (heartbeat_end : RunLease → O unit).
Context (run : RunId) `{!AttemptLaws env run owner invoke reconcile heartbeat_end}.
Context (Hactivate : ∀ m bound, activate m = Ok bound → activated bound snapshot m.(resolved_components)).
Abbreviation run_prepared_ := (run_prepared env clock ttl owner snapshot activate invoke reconcile is_leased
  heartbeat_end) (only parsing).

Lemma claim_mine n ex now s lease s' :
  claim_run run owner ttl n ex now s = (Ok lease, s') →
  ∃ ep exp, lease = mkLease run owner ep exp ∧ mine lease s' ∧ rtc jstep s s'.
Proof.
  intros E. assert (rtc jstep s s') as Hs.
  { eapply (jcall_steps (JClaim run owner ttl n ex now)); [|done]. simpl. unfold unit_of, ebind. by rewrite E. }
  apply claim_outcome in E as [[_ [? [=]]]|(row & l & [= <-] & Hg & _ & -> & ->)].
  eexists _, _. split; [done|]. split; [|done].
  eexists. split; [apply get_set_run|]. simpl. split; [done|]. by right.
Qed.

(** What an attempt that returned leaves. *)
Record returned (m : ExecutionManifest) (inputs : list (string * json)) (r : RunResult) (s' : store) : Prop := {
  rt_status : r.(rr_status) ∈ [SUCCEEDED; CANCELLED] →
    ∃ row, Dict.get run s'.(runs) = Some row ∧ row.(run_status) = r.(rr_status);
  rt_outputs : r.(rr_status) = SUCCEEDED → materialize_manifest snapshot m run inputs s' = (Ok r.(rr_outputs), s');
}.
Lemma finished_status s s' row :
  rtc jstep s s' → Dict.get run s.(runs) = Some row → row.(run_status) ∈ [SUCCEEDED; CANCELLED] →
  ∃ row', Dict.get run s'.(runs) = Some row' ∧ row'.(run_status) = row.(run_status).
Proof.
  intros Hs Hg Hst.
  assert (finished s run row.(run_status) (run_events s run) (checkpointed s run) row.(row_inputs)) as Hf
    by (by exists row).
  apply (finished_steps _ _ _ _ _ _ _ Hst Hs) in Hf as (row' & ? & ? & _). by exists row'.
Qed.
Lemma materialize_manifest_later m inputs s s' row outputs :
  good s → Dict.get run s.(runs) = Some row → row.(run_status) = SUCCEEDED → rtc jstep s s' →
  materialize_manifest snapshot m run inputs s = (Ok outputs, s) →
  materialize_manifest snapshot m run inputs s' = (Ok outputs, s').
Proof.
  intros Hg Hrow Hst Hs. unfold materialize_manifest, ebind, lift.
  destruct (_materialization_instances _ _) as [is_|]; [|done].
  by apply (materialize_later (mkLease run owner 0 0) m is_ inputs s s' row outputs).
Qed.
Lemma drive_returned m inputs em cm mode n ex cause o r o' :
  good o.(o_store) → Forall (λ l, l.(member_order) ≠ []) m.(resolved_loops) →
  Forall (λ nv : string * json, wire nv.2) inputs →
  _drive env clock ttl owner activate invoke reconcile is_leased heartbeat_end m run inputs em cm mode n ex cause o
  = (Ok r, o') →
  rtc jstep o.(o_store) o'.(o_store) ∧ returned m inputs r o'.(o_store).
Proof.
  intros Hg Hl Hi E. unfold _drive in E.
  apply ebind_ok in E as (bound & o0 & Eb & E). injection Eb as Eb <-.
  apply ebind_ok in E as (lease & o1 & Ec & E). unfold journal in Ec.
  destruct (claim_run _ _ _ _ _ _ _) as [c s1] eqn:Ecl. injection Ec as -> Ho1.
  apply claim_mine in Ecl as (ep & exp & -> & Hm & Hs1). set (lease := mkLease run owner ep exp) in *.
  pose proof (al_env ep exp) as Henv. pose proof (al_invoke ep exp m em cm) as Hinv.
  pose proof (al_reconcile ep exp) as Hrec. fold lease in Henv, Hinv, Hrec.
  assert (o1.(o_store) = s1) as Hso by (by rewrite <-Ho1). rewrite <-Hso in *. clear Ho1 Hso s1.
  apply ebind_ok in E as (rr & o2 & Ex & E). unfold attempt in Ex.
  destruct (_execute _ _ _ _ _ _ _ _ _ _ _) as [re w'] eqn:Ee.
  injection Ex as <- <-. destruct re as [result|e].
  2: { exfalso. apply ebind_ok in E as ([] & o3 & Ef & E). done. }
  apply ebind_ok in E as ([] & o3 & Ef & E). injection E as <- <-.
  assert (rtc jstep w'.(w_out).(o_store) o3.(o_store)) as Hs3.
  { pose proof (finish_obs lease heartbeat_end (al_heartbeat ep exp) None mode w'.(w_out)) as H. rewrite Ef in H. apply H. }
  pose proof (execute_steps lease env _ (reconcile lease) is_leased m bound inputs cm cause (at_start o1)) as [H2 _].
  rewrite Ee in H2. simpl in H2.
  assert (ready lease o1.(o_store)) as Hr1 by (split; [by eapply good_steps|done]).
  assert (good w'.(w_out).(o_store)) as Hg2 by (eapply good_steps; [apply H2|apply Hr1]).
  pose proof (execute_holding _ _ _ _ _ _ _ _ _ _ _ _ _ Ee) as (row & Hrow & Hst & _).
  split; [etrans; [exact Hs1|]; etrans; [apply H2|done]|]. split.
  - intros Hfin. rewrite <-Hst in Hfin |- *. by eapply finished_status.
  - intros Hsucc. pose proof (λ a b, execute_replays _ _ _ _ _ _ _ _ _ _ _ _ _ a b Hi Ee Hsucc) as Hrep.
    destruct (Hrep Hr1 Hl) as (is_ & His & Hmat).
    eapply materialize_manifest_later; [exact Hg2|exact Hrow|by rewrite Hst|exact Hs3|].
    unfold materialize_manifest, ebind, lift.
    rewrite (instances_materialized bound snapshot _ is_ (Hactivate _ _ Eb) His).
    by rewrite materialize_map.
Qed.

Lemma prepared_returned mhash inputs m mode n ex cause s lost tick r o' :
  good s → created_from s run mhash inputs m →
  Forall (λ l, l.(member_order) ≠ []) m.(resolved_loops) →
  Forall (λ nv : string * json, wire nv.2) inputs →
  run_prepared_ run mode n ex cause (mkOutside s lost tick) = (Ok r, o') →
  parsed m = true ∧ rtc jstep s o'.(o_store) ∧ (r.(rr_status) = SUCCEEDED → returned m inputs r o'.(o_store)).
Proof.
  intros Hg Hc Hl Hi E. unfold run_prepared in E.
  apply ebind_ok in E as (st & o1 & E1 & E). unfold journal in E1. simpl in E1.
  rewrite run_state_good in E1 by done. injection E1 as <- <-. unfold set_store in E. simpl in E.
  destruct (Dict.get run _) as [row|] eqn:Erow; [|done]. simpl in E.
  apply ebind_ok in E as (m' & o1 & E1 & E). unfold journal in E1. simpl in E1.
  destruct (_load_manifest run _) as [lm s1] eqn:El. injection E1 as -> <-.
  destruct (load_manifest_inv s run Hg mhash inputs m Hc _ _ El) as (-> & -> & Hp). split; [done|].
  apply ebind_ok in E as (i' & o1 & E1 & E). unfold journal in E1. simpl in E1.
  erewrite run_inputs_created in E1 by done. injection E1 as <- <-. cbv zeta in E.
  unfold set_store in E. simpl in E.
  destruct (bool_decide (run_status row = SUCCEEDED) && _) eqn:Es.
  - apply andb_true_iff in Es as [Es%bool_decide_eq_true _].
    apply ebind_ok in E as (outputs & o1 & E1 & E). injection E as <- <-. unfold journal in E1. simpl in E1.
    destruct (materialize_manifest _ _ _ _ s) as [mm s1] eqn:Em. injection E1 as -> <-. simpl.
    assert (s1 = s) as ->.
    { revert Em. unfold materialize_manifest, ebind, lift.
      destruct (_materialization_instances _ _) as [is_|]; [|done]. intros Em.
      pose proof (materialize_state (mkLease run owner 0 0) m is_ inputs s Hg) as H. simpl in H.
      by rewrite Em in H. }
    split; [done|]. intros _. split; [by intros _; exists row; split; [|exact Es]|].
    intros _. exact Em.
  - destruct (bool_decide (run_status row = CANCELLED) && _); [by injection E as <- <-|].
    apply ebind_ok in E as (origin & o1 & E1 & E). unfold journal in E1. simpl in E1.
    assert (o1 = mkOutside s lost tick) as ->.
    { revert E1. unfold run_origin, ebind. rewrite mutation_row_good by done. by intros [= _ <-]. }
    apply drive_returned in E as [Hs Hr]; [|done..]. done.
Qed.

(** C1: Execution refines replay: when an attempt returns SUCCEEDED with outputs, then in that
    store and in every store later calls lead to, materialize_run reads those very outputs back
    from the checkpoints alone, and running the run again returns them without executing
    anything. *)
Theorem succeeded_runs_replay cs mhash inputs m mode n ex cause o r o' ds :
  o.(o_store) = run_jcalls cs new_store → forallb lawful (cs ++ ds) = true →
  created_from o.(o_store) run mhash inputs m →
  Forall (λ l, l.(member_order) ≠ []) m.(resolved_loops) →
  Forall (λ nv : string * json, wire nv.2) inputs →
  run_prepared_ run mode n ex cause o = (Ok r, o') → r.(rr_status) = SUCCEEDED →
  let s := run_jcalls ds o'.(o_store) in
  materialize_run snapshot run s = (Ok r.(rr_outputs), s) ∧
  ∀ lost tick mode', run_prepared_ run mode' None None None (mkOutside s lost tick)
    = (Ok (mkResult SUCCEEDED r.(rr_outputs) [] [] []), mkOutside s lost tick).
Proof.
  intros Ho Hlaw Hc Hl Hi E Hsucc s. rewrite forallb_app, andb_true_iff in Hlaw. destruct Hlaw as [Hcs Hds].
  destruct o as [s0 lost0 tick0]. simpl in *.
  assert (good s0) as Hg.
  { rewrite Ho. eapply good_steps; [by apply jcalls_steps|apply good_new]. }
  eapply prepared_returned in E as (Hp & Hs1 & Hr); [|done..]. destruct (Hr Hsucc) as [Hst Hout].
  destruct Hst as (row & Hrow & Hrst); [rewrite Hsucc; left|]. rewrite Hsucc in Hrst.
  assert (good o'.(o_store)) as Hg1 by (by eapply good_steps).
  assert (rtc jstep o'.(o_store) s) as Hs2 by (by apply jcalls_steps).
  assert (good s) as Hg2 by (by eapply good_steps).
  assert (created_from s run mhash inputs m) as Hc2 by (eapply created_steps; [|exact Hc]; by etrans).
  assert (materialize_manifest snapshot m run inputs s = (Ok r.(rr_outputs), s)) as Hm
    by (eapply materialize_manifest_later; [exact Hg1|exact Hrow|exact Hrst|exact Hs2|by apply Hout]).
  split.
  - unfold materialize_run, ebind. erewrite load_manifest_created by done.
    erewrite run_inputs_created by done. exact Hm.
  - intros lost tick mode'. unfold run_prepared, ebind, journal. simpl. rewrite run_state_good by done. simpl.
    destruct (finished_status _ _ _ Hs2 Hrow) as (row2 & Hrow2 & Hst2); [rewrite Hrst; left|].
    rewrite Hrow2. simpl. erewrite load_manifest_created by done. simpl.
    erewrite run_inputs_created by done. simpl. rewrite bool_decide_eq_true_2 by congruence. simpl. by rewrite Hm.
Qed.
End laws.

(** ** A run of the fixture's graph, for the witnesses: two iterations of the
    loop, and a component that is handed a channel facade *)
Module DriveFixture.
Definition env (n : nat) (s : store) : weather := mkWeather s false false.
Definition clock (_ : nat) : Z := 0%Z.
Definition acquire (_ : unit) (b : CapabilityBinding) (p : ExecutionPath) : O (AcquiredCapability (Resource:=unit)) :=
  raise (ComponentError "RuntimeError" "nothing to lease").
Definition close (_ : unit) (_ : AcquiredCapability (Resource:=unit)) (d : disposition) : O disposition := eret d.
Definition idle {A} (_ : A) : O unit := eret tt.
Definition call (name : string) (ctx : NodeContext (Resource:=unit)) (inputs : list (string * json)) : O pyval :=
  eret (if decide (name = "start") then PDict [(PStr "draft", PStr "d")]
        else if decide (name = "ask")
        then PDict [(PStr "answer", PBool (bool_decide (Dict.keys ctx.(ctx_channels) = ["human"])))]
        else match Dict.get "state" inputs with
             | Some (JStr s) => PDict [(PStr "again", PBool (bool_decide (s = "d"))); (PStr "state", PStr (s +:+ "+"))]
             | _ => PNone
             end).
Definition desk : Channel :=
  mkChannel (λ _ _, raise (ComponentError "RuntimeError" "nobody is there")) (λ _, eret None) (λ _, eret None).
Definition invoke (lease : RunLease) (m : ExecutionManifest) (em : EffectMode) (mode : CapabilityMode) :=
  _invoke env lease clock 30 (λ _, "2025-01-01T00:00:00Z") (λ _, Some tt) Fixture.catalog
    (λ _, false) (λ _, false) (λ _, Some desk) (λ _, None) acquire idle close (λ _, idle) call m em mode.
Definition reconcile (_ : RunLease) (_ : CapabilityBinding) (_ : CapabilityLease) (_ : disposition) : O unit := eret tt.
Definition bound (name : string) (version : Digest) : BoundVersion string :=
  match snapshot_get Fixture.snapshot name version with
  | Some v => mkBound v (match v.(definition).(body) with CGraph _ => true | CPython _ => false end) (Some name)
  | None => mkBound (Fixture.stored Fixture.start Fixture.h1) false None
  end.
Definition activate (m : ExecutionManifest) : result exn (string → Digest → BoundVersion string) :=
  if forallb (λ r, bool_decide (is_Some (snapshot_get Fixture.snapshot r.(res_component) r.(resolved_version))))
       m.(resolved_components)
  then Ok bound else Raise (ComponentError "ActivationError" "").
Lemma activate_law m b : activate m = Ok b → activated b Fixture.snapshot m.(resolved_components).
Proof.
  unfold activate. destruct (forallb _ _) eqn:E; [|done]. intros [= <-].
  apply Forall_forall. intros r Hr%list_elem_of_In. rewrite forallb_forall in E.
  apply E, bool_decide_eq_true in Hr as [v Hv]. unfold bound. simpl. by rewrite Hv.
Qed.
#[global] Instance env_law lease : EnvLaw lease env.
Proof. intros n s. by exists []. Qed.
#[global] Instance attempt_laws run owner : AttemptLaws env run owner invoke reconcile idle.
Proof.
  assert (∀ lease A (a : A), keeps (E:=exn) (obs_out lease nowhere) (eret a)) as Hret
    by (intros; apply keeps_eret, _).
  split; intros ep ex.
  - apply _.
  - intros m em cm. apply invoke_lawful; [apply _|by split|].
    split; intros; try first [apply keeps_eret, _|apply keeps_raise, _].
    match goal with H : Some desk = Some _ |- _ => injection H as <- end.
    split; intros; simpl; first [apply keeps_eret, _|apply keeps_raise, _].
  - intros b row d. apply Hret.
  - apply Hret.
Qed.
Definition created : store := Eval vm_compute in run_jcalls [StoreFixture.create] new_store.
Definition run_once (o : outside) : result exn RunResult * outside :=
  run_prepared env clock 30 "a" Fixture.snapshot activate invoke reconcile (λ _, false) idle
    "r" CancelRun None None None o.
Definition finished_ : result exn RunResult * outside := Eval vm_compute in run_once (mkOutside created false 0).
End DriveFixture.

Lemma succeeded_runs_replay_witness :
  materialize_run Fixture.snapshot "r" DriveFixture.finished_.2.(o_store)
  = (Ok [("state", JStr "d++")], DriveFixture.finished_.2.(o_store)).
Proof.
  destruct (succeeded_runs_replay (N:=string) DriveFixture.env DriveFixture.clock 30 "a" Fixture.snapshot
    DriveFixture.activate DriveFixture.invoke DriveFixture.reconcile (λ _, false) DriveFixture.idle "r"
    DriveFixture.activate_law [StoreFixture.create] StoreFixture.manifest.(manifest_hash)
    StoreFixture.inputs StoreFixture.manifest CancelRun None None None (mkOutside DriveFixture.created false 0)
    (mkResult SUCCEEDED [("state", JStr "d++")] [] [] []) DriveFixture.finished_.2 []) as [E _].
  - vm_compute. reflexivity.
  - vm_compute. reflexivity.
  - split; [eexists; split; [|split]; vm_compute; reflexivity|vm_compute; reflexivity].
  - repeat constructor; done.
  - repeat constructor.
  - vm_compute. reflexivity.
  - reflexivity.
  - exact E.
Defined.

(** The heartbeat lost the run while a node was failing: the loss is what is raised. *)
Lemma shutdown_releases_witness :
  ∃ x, (_finish_run DriveFixture.idle StoreFixture.lease1 (Some (ComponentError "ValueError" "bad")) CancelRun
          (mkOutside StoreFixture.running true 0)).1 = Raise (OwnershipLost x).
Proof.
  destruct (_finish_run DriveFixture.idle StoreFixture.lease1 (Some (ComponentError "ValueError" "bad")) CancelRun
    (mkOutside StoreFixture.running true 0)) as [r o'] eqn:E.
  destruct (shutdown_releases StoreFixture.lease1 DriveFixture.idle
    (al_heartbeat (run:="r") (owner:="a") (heartbeat_end:=DriveFixture.idle) 1 30%Z)
    (Some (ComponentError "ValueError" "bad")) CancelRun (mkOutside StoreFixture.running true 0) r o')
    as (_ & H & _).
  - exact StoreFixture.running_good.
  - exact E.
  - apply H. right. reflexivity.
Defined.
Lemma cancellation_is_durable_witness :
  ∃ o' row', _finish_run DriveFixture.idle StoreFixture.lease1 (Some Cancelled) CancelRun
      (mkOutside StoreFixture.running false 0) = (Raise Cancelled, o') ∧
    Dict.get "r" o'.(o_store).(runs) = Some row' ∧ row'.(run_status) = CANCELLED.
Proof.
  destruct (Dict.get "r" StoreFixture.running.(runs)) as [row|] eqn:Er; [|vm_compute in Er; discriminate Er].
  destruct (cancellation_is_durable StoreFixture.lease1 DriveFixture.idle (mkOutside StoreFixture.running false 0)
    row CancelRun) as (o' & row' & E & Hg & _ & Hst & _).
  - exact StoreFixture.running_good.
  - reflexivity.
  - reflexivity.
  - exact Er.
  - vm_compute in Er. injection Er as <-. reflexivity.
  - vm_compute in Er. injection Er as <-. reflexivity.
  - vm_compute. reflexivity.
  - exists o', row'. split; [exact E|]. split; [exact Hg|exact Hst].
Defined.
