(* ===== verification/InvokeLaws.v ===== *)
(** An invocation and what it leases: nothing it acquired stays active, unless
    it says so. *)

From S2P Require Import Prelude Identity Address Graph Component Capability Manifest Message Fixture.
From S2P Require Import Run Effect Journal JournalSpec JournalLaws Units Walk Boundary Invoke WalkSpec BoundarySpec InvokeSpec.

(** The failures that hand the acquisitions over: to the run's next owner, or
    to whoever resolves the cleanup. *)
Definition hands_over (e : exn) : bool :=
  match e with OwnershipLost _ | CleanupFailure _ _ _ => true | _ => false end.
Definition handed_over {A} (r : result exn A) : bool :=
  match r with Ok _ => false | Raise e => hands_over e end.

Section closing.
Context {NodeImpl Resource : Type}.
Context (env : nat → store → weather) (lease : RunLease) `{!EnvLaw lease env}.
Context (clock : nat → Z) (ttl : Z) (utc_now : nat → string).
Context (injected : string → option Resource) (catalog : gmap string CapabilityDescriptor).
Context (is_leased is_relinquishing : Resource → bool) (as_channel : Resource → option Channel).
Context (effects : string → option EffectAdapter) `{!AdapterLaws lease effects}.
Context (acquire : Resource → CapabilityBinding → ExecutionPath → O (AcquiredCapability (Resource:=Resource))).
Context (materialize : AcquiredCapability (Resource:=Resource) → O unit).
Context (close : Resource → AcquiredCapability (Resource:=Resource) → disposition → O disposition).
Context (relinquish : Resource → AcquiredCapability (Resource:=Resource) → O unit).
Context (call : NodeImpl → NodeContext (Resource:=Resource) → list (string * json) → O pyval).
Context `{!ExternalLaws lease as_channel acquire materialize close relinquish call}.
Abbreviation invoke_ := (_invoke env lease clock ttl utc_now injected catalog is_leased is_relinquishing
  as_channel effects acquire materialize close relinquish call) (only parsing).
Abbreviation close_all_ := (close_all env lease clock ttl is_relinquishing close relinquish) (only parsing).
Abbreviation held := (list (Resource * AcquiredCapability (Resource:=Resource))) (only parsing).

Lemma closed_inactive id ex d s s' :
  transition_capability_lease lease id lease.(epoch) ex LeaseClosed d s = (Ok tt, s') → ¬ active lease s' id.
Proof.
  intros E (l & Hl & _ & Hst). pose proof E as E'.
  apply transition_rows in E' as [->|(stored & Hs & _ & Hmap & _)].
  - revert E. unfold transition_capability_lease, _txn, ebind, get. rewrite Hl.
    case_decide; [done|]. case_decide as Hd; [destruct Hd; congruence|].
    do 4 (case_decide; [done|]). destruct (_allocate_seq _ _ s) as [[n|] s1] eqn:Ea; [|done].
    apply allocate_inv in Ea as (row & Hg & _ & _ & -> & ->). unfold modify.
    destruct (_insert_event _ _ _ _ _ _) as [[ev|] s2] eqn:Ei; [|done].
    apply insert_event_inv in Ei as ->. unfold eret. intros [= Heq].
    apply (f_equal events) in Heq. simpl in Heq. apply (f_equal length) in Heq.
    rewrite length_app in Heq. simpl in Heq. lia.
  - rewrite Hmap, Hs in Hl. injection Hl as <-.
    destruct (lease_row_elem _ _ _ _ Hs) as [H1 H2]. rewrite decide_True in Hst by done. done.
Qed.
(** Every acquisition in the list is closed by the end. *)
Definition all_closed (acquired : held) (o o' : outside) : Prop :=
  mine lease o.(o_store) → current lease o'.(o_store) → ∀ id, id ∈ ids acquired → ¬ active lease o'.(o_store) id.
Lemma relinquish_ok acquired o :
  ∃ f o1, _relinquish_acquired env is_relinquishing relinquish acquired o = (Ok f, o1).
Proof.
  unfold _relinquish_acquired. destruct (filter _ acquired) as [|c cs]; [by eexists _, _|].
  assert (∀ l o, ∃ f o1, relinquish_all relinquish l o = (Ok f, o1)) as H.
  { induction l as [|[cap a] l IH]; intros o0; [by eexists _, _|]. simpl. unfold ebind, attempt, eret.
    destruct (relinquish cap a o0) as [r o1]. destruct (IH o1) as (f & o2 & ->). by eexists _, _. }
  destruct (H (c :: cs) o) as (f & o1 & E). unfold ebind. rewrite E. by eexists _, _.
Qed.
Lemma relinquish_then {A} (f : option exn → O A) acquired o r o' :
  (∀ x o1 r1 o2, f x o1 = (r1, o2) → handed_over r1 = true) →
  (let* x := _relinquish_acquired env is_relinquishing relinquish acquired in f x) o = (r, o') →
  handed_over r = true.
Proof. intros H. destruct (relinquish_ok acquired o) as (x & o1 & E). unfold ebind. rewrite E. apply H. Qed.
Ltac handed E := cbv beta iota in E; eapply relinquish_then; [|exact E]; by intros ? ? ? ? [= <- _].

(** A close or its row failed: custody is given up, and the failure is kept. *)
Ltac close_failed_at E IH :=
  cbv beta iota in E;
  let f := fresh "f" in let o3 := fresh "o" in let Ef := fresh "Ef" in let e2 := fresh "e" in
  match type of E with
  | ebind (_relinquish_acquired _ _ _ ?l) _ ?o = _ =>
      destruct (relinquish_ok l o) as (f & o3 & Ef)
  end;
  unfold ebind at 1 in E; rewrite Ef in E; unfold ebind at 1, attempt at 1 in E;
  destruct (affirm _ _ _ _ o3) as [[[]|e2] ?];
  [destruct (IH _ _ E) as [?|(_ & Hn & _)]; [done|by apply app_eq_nil in Hn as [_ ?]]
  |destruct e2; handed E].
Lemma close_all_closes watch d ne c acquired errors o r o' :
  close_all_ watch d ne c acquired errors o = (r, o') →
  handed_over r = true ∨ r = Ok tt ∧ errors = [] ∧ all_closed acquired o o'.
Proof.
  revert errors o. induction acquired as [|[cap a] rest IH]; intros errors o E.
  { simpl in E. destruct errors; injection E as <- <-; [right|by left]. split; [done|]. split; [done|].
    intros _ _ id. by intros ?%elem_of_nil. }
  pose proof (quiet_close_all env lease clock ttl is_relinquishing as_channel acquire materialize close relinquish call
    watch d ne c rest) as Hrest.
  cbn [close_all] in E. cbv zeta in E. unfold ebind at 1, attempt at 1 in E.
  pose proof (quiet_affirm lease clock ttl watch o) as H1.
  destruct (affirm lease clock ttl watch o) as [[u|e] o1]; simpl in H1.
  2: { left. destruct e; handed E. }
  unfold ebind at 1, close_one in E. unfold ebind at 1, attempt at 1 in E.
  pose proof (ext_close (call:=call) cap a d o1) as H2. destruct (close cap a d o1) as [[closure|e] o2]; simpl in H2.
  - unfold ebind at 1, attempt at 1, journal at 1 in E.
    destruct (transition_capability_lease _ _ _ _ _ _ (o_store o2)) as [rt s3] eqn:Et. cbn in E.
    destruct rt as [[]|e].
    + specialize (Hrest errors (set_store s3 o2)). rewrite E in Hrest. simpl in Hrest.
      destruct (IH _ _ E) as [?|(-> & -> & Hcl)]; [by left|]. right. split; [done|]. split; [done|].
      intros Hm Hc id [->|Hid]%elem_of_cons.
      * intros Ha. destruct Hrest as [Hs Hl].
        assert (rtc jstep o.(o_store) s3) as Hs3.
        { etrans; [apply H1|]. etrans; [apply H2|].
          by eapply (jcall_steps (JLeaseTransition lease _ _ _ _ _)). }
        destruct (Hl (mine_steps _ _ _ Hs3 Hm) Hc) as [_ Hla]. destruct (Hla _ Ha) as [Ha'|[]].
        by eapply closed_inactive.
      * eapply Hcl; [|done|done]. eapply mine_steps; [|exact Hm]. simpl.
        etrans; [apply H1|]. etrans; [apply H2|]. by eapply (jcall_steps (JLeaseTransition lease _ _ _ _ _)).
    + left. destruct e; first [handed E|close_failed_at E IH].
  - left. cbn in E. destruct e; first [handed E|close_failed_at E IH].
Qed.
Lemma closed_after acquired o o1 o' :
  all_closed acquired o o1 → rtc jstep o.(o_store) o1.(o_store) → quiet_out lease o1 o' → all_closed acquired o o'.
Proof.
  intros H Hs [Hs' Hq] Hm Hc id Hid Ha.
  destruct (Hq (mine_steps _ _ _ Hs Hm) Hc) as [_ Hqa]. destruct (Hqa id Ha) as [Ha'|[]].
  eapply H; [done| |done|done]. by eapply current_steps.
Qed.
Lemma close_closes watch acquired d ne pe c o r o' :
  _close_acquired env lease clock ttl is_relinquishing close relinquish watch acquired d ne pe c o = (r, o') →
  handed_over r = true ∨ all_closed acquired o o'.
Proof.
  unfold _close_acquired. destruct acquired as [|ca rest].
  { intros _. right. intros _ _ id. by intros ?%elem_of_nil. }
  set (acquired := ca :: rest). unfold _finish_cleanup, ebind at 1, attempt.
  pose proof (quiet_close_all env lease clock ttl is_relinquishing as_channel acquire materialize close relinquish call
    watch d ne c acquired (option_list pe) o) as Hq.
  destruct (close_all_ watch d ne c acquired (option_list pe) o) as [r1 o1] eqn:E1. simpl in Hq.
  unfold ebind. pose proof (quiet_suspend env lease o1) as Hs. destruct (suspend env o1) as [[b|e] o2] eqn:Es;
    [|by injection Es]. simpl in Hs.
  apply close_all_closes in E1 as [H1|(-> & _ & Hcl)].
  - intros E. left. destruct r1 as [|[]]; try done; by injection E as <- _.
  - intros E. right. assert (o' = o2) as -> by (by destruct b; injection E).
    eapply closed_after; [exact Hcl|apply Hq|exact Hs].
Qed.
Lemma way_out_closes mode acquired rb o r o' :
  way_out env lease clock ttl is_relinquishing close relinquish mode acquired rb o = (r, o') →
  handed_over r = true ∨ all_closed acquired o o'.
Proof.
  assert (∀ d ne pe c (k : O (list (string * json))) o1, (∀ o2, (k o2).2 = o2) →
    (_close_acquired env lease clock ttl is_relinquishing close relinquish true acquired d ne pe c;;; k) o1 = (r, o') →
    handed_over r = true ∨ all_closed acquired o1 o') as Hclose.
  { intros d ne pe c k o1 Hk E. unfold ebind in E.
    destruct (_close_acquired _ _ _ _ _ _ _ _ _ _ _ _ _ o1) as [[u|e] o2] eqn:Ec; apply close_closes in Ec.
    - destruct Ec as [[=]|Hc]. right. specialize (Hk o2). rewrite E in Hk. simpl in Hk. by subst.
    - injection E as <- <-. destruct Ec; [by left|by right]. }
  assert (∀ loss o1, (_relinquish_acquired env is_relinquishing relinquish acquired;;;
    raise (A:=list (string * json)) (OwnershipLost loss)) o1 = (r, o') → handed_over r = true) as Hlost.
  { intros loss o1 E. handed E. }
  unfold way_out. cbv zeta. intros E. destruct rb as [outputs|e]; [by apply Hclose in E|].
  destruct e; try (by apply Hclose in E); try (left; by apply Hlost in E);
    destruct (o_lost o); first [by apply Hclose in E|left; by apply Hlost in E].
Qed.

(** C5: An invocation leaves no lease behind: when it ends, by a result or by any failure other
    than ownership loss and a failed cleanup, and no newer attempt has claimed the run, every
    capability lease it acquired is no longer active. *)
Theorem no_acquisition_outlives_invocation m em mode i path inputs h o r o' id :
  good o.(o_store) → mine lease o.(o_store) →
  invoke_ m em mode i path inputs h o = (r, o') → current lease o'.(o_store) → handed_over r = false →
  active lease o'.(o_store) id → active lease o.(o_store) id.
Proof.
  intros Hg Hm E Hc Hr Ha.
  apply invoke_phases in E as [[_ [Hs Hq]]|(o1 & self & impl & rb & o2 & acquired & H1 & _ & H2 & E)].
  { destruct (Hq Hm Hc) as [_ Hqa]. by destruct (Hqa id Ha) as [?|[]]. }
  2-4: apply _.
  pose proof (quiet_way_out env lease clock ttl is_relinquishing as_channel acquire materialize close relinquish call
    mode acquired rb o2) as H3. rewrite E in H3. simpl in H3.
  apply way_out_closes in E as [E|Hcl]; [congruence|].
  destruct H1 as [Hs1 H1], H2 as [[Hs2 H2] _], H3 as [Hs3 H3]. simpl in *.
  assert (mine lease o1.(o_store)) as Hm1 by (by eapply mine_steps).
  assert (mine lease o2.(o_store)) as Hm2 by (by eapply mine_steps).
  assert (current lease o2.(o_store)) as Hc2 by (by eapply current_steps).
  assert (current lease o1.(o_store)) as Hc1 by (by eapply current_steps).
  destruct (H3 Hm2 Hc) as [_ H3a]. destruct (H3a id Ha) as [Ha2|[]].
  destruct (H2 Hm1 Hc2) as [_ H2a]. destruct (H2a id Ha2) as [Ha1|Hid].
  - destruct (H1 Hm Hc1) as [_ H1a]. by destruct (H1a id Ha1) as [?|[]].
  - exfalso. by eapply (Hcl Hm2 Hc id).
Qed.
Lemma declared_outputs_keys items declared outputs :
  declared_outputs items declared = Ok outputs → Dict.keys outputs = declared.
Proof.
  revert outputs. induction declared as [|name declared IH]; intros outputs; simpl; [by intros [= <-]|].
  destruct (raw_get name items); [|done]. destruct (json_value p); [|done].
  intros (rest & E & [= <-])%result_bind_ok. apply IH in E as <-. done.
Qed.
Lemma outputs_declared (i : _Instance NodeImpl) raw outputs :
  normalized_outputs i raw = Ok outputs → Dict.keys outputs = remove_dups (port_name <$> i.(in_definition).(def_outputs)).
Proof.
  unfold normalized_outputs. cbv zeta. destruct raw; try done. case_match; [done|]. apply declared_outputs_keys.
Qed.
Lemma invoke_declared m em mode i path inputs h o outputs o' :
  invoke_ m em mode i path inputs h o = (Ok outputs, o') →
  Dict.keys outputs = remove_dups (port_name <$> i.(in_definition).(def_outputs)).
Proof.
  intros E. apply invoke_phases in E as [[[e [=]] _]|(o1 & self & impl & rb & o2 & acquired & _ & E & _ & Ew)];
    [|apply _..].
  apply way_out_ok in Ew as ->. unfold invocation in E.
  apply ebind_ok in E as (ctx & [o3 a3] & _ & E). apply ebind_ok in E as (raw & [o4 a4] & _ & E).
  apply ebind_ok in E as (outputs1 & [o5 a5] & En & E). injection En as En _ _.
  apply ebind_ok in E as ([o6 a6] & [o7 a7] & _ & E). apply ebind_ok in E as ([] & [o8 a8] & _ & E).
  injection E as <- _ _. by apply outputs_declared in En.
Qed.
(** C6: What an invocation returns is durable first: its outputs are exactly the declared ones
    and equal the payloads of the checkpoint recorded at its path under its input hash and
    version; no other checkpoint changes, and every later store keeps it. *)
Theorem invocation_outputs_are_durable m em mode i path inputs h o outputs o' :
  good o.(o_store) → mine lease o.(o_store) → current lease o'.(o_store) →
  cks lease o.(o_store) path = None →
  invoke_ m em mode i path inputs h o = (Ok outputs, o') →
  (∃ c, cks lease o'.(o_store) path = Some c ∧ c.(cp_input_hash) = h ∧ c.(cp_version) = Some i.(in_version) ∧
     payloads c = outputs ∧ Dict.keys outputs = remove_dups (port_name <$> i.(in_definition).(def_outputs))) ∧
  (∀ p, p ≠ path → cks lease o'.(o_store) p = cks lease o.(o_store) p) ∧
  ∀ s, rtc jstep o'.(o_store) s → cks lease s path = cks lease o'.(o_store) path.
Proof.
  intros Hg Hm Hc Hn E. pose proof (invoke_lawful env lease clock ttl utc_now injected catalog is_leased
    is_relinquishing as_channel effects acquire materialize close relinquish call m em mode) as [Hobs Hdur].
  destruct (Hdur i path inputs h o outputs o' Hg Hm Hc Hn E) as (c & Hck & Hx & Hp).
  specialize (Hobs i path inputs h o). rewrite E in Hobs. simpl in Hobs. split_and!.
  - exists c. unfold contradicts in Hx. apply orb_false_iff in Hx as [H1 H2].
    apply negb_false_iff, bool_decide_eq_true in H1, H2. split_and!; try done.
    by eapply invoke_declared.
  - intros p Hne. eapply obs_same; [exact Hobs|done|done|by intros ->].
  - intros s Hs. rewrite Hck. by eapply checkpoint_steps.
Qed.
End closing.

(** A node that leases one sandbox, in the claimed run of [StoreFixture]. *)
Module LeaseFixture.
Definition env (n : nat) (s : store) : weather := mkWeather s false false.
Definition scope : ScopePath := mkScope ["demo"; "consult"].
Definition path : ExecutionPath := mkPath scope [].
Definition catalog : gmap string CapabilityDescriptor :=
  {[ "box" := mkDescriptor "box" "sandbox" "1" None None None true None ]}.
Definition bind_row (alias : string) : CapabilityBinding :=
  mkCapabilityBinding scope alias "box" "1" Fixture.grants None.
Definition manifest : ExecutionManifest :=
  mkManifest 1 Fixture.graph "" [] [] [bind_row SELF_BINDING; bind_row "sandbox"] [] "" "" "".
Definition node : _Instance string := mkInstance scope "ask" Fixture.h3 Fixture.ask (Some "ask").
Definition idle {A} (_ : A) : O unit := eret tt.
Definition acquire (_ : unit) (b : CapabilityBinding) (p : ExecutionPath) : O (AcquiredCapability (Resource:=unit)) :=
  eret (mkAcquired tt (lease_id_for "r" p b.(binding)) "box-1" true).
Definition close (_ : unit) (_ : AcquiredCapability (Resource:=unit)) (d : disposition) : O disposition := eret d.
Definition call (name : string) (ctx : NodeContext (Resource:=unit)) (inputs : list (string * json)) : O pyval :=
  eret (PDict [(PStr "answer", PBool (bool_decide (Dict.keys ctx.(ctx_capabilities) = ["sandbox"])))]).
Definition id : string := Eval vm_compute in lease_id_for "r" path "sandbox".
Definition invoke : O (list (string * json)) :=
  _invoke env StoreFixture.lease1 (λ _, 0%Z) 30 (λ _, "2025-01-01T00:00:00Z") (λ _, Some tt) catalog
    (λ _, true) (λ _, false) (λ _, None) (λ _, None) acquire idle close (λ _, idle) call manifest LiveEffects NormalCapabilities
    node path [] (digest_of "inputs" 1 JNull).
Definition before : outside := mkOutside StoreFixture.running false 0.
#[global] Instance env_law lease : EnvLaw lease env.
Proof. intros n s. by exists []. Qed.
#[global] Instance external_laws lease : ExternalLaws lease (λ _, None) acquire idle close (λ _, idle) call.
Proof. split; intros; try done; apply keeps_eret, _. Qed.
#[global] Instance adapter_laws lease : AdapterLaws lease (λ _, None).
Proof. by split. Qed.
Definition after : result exn (list (string * json)) * outside := Eval vm_compute in invoke before.
Lemma invoke_eq : invoke before = after.
Proof. vm_compute. reflexivity. Qed.
Lemma mine_before : mine StoreFixture.lease1 before.(o_store).
Proof.
  destruct (Dict.get "r" StoreFixture.running.(runs)) as [row|] eqn:Er; [|vm_compute in Er; discriminate Er].
  exists row. split; [exact Er|]. vm_compute in Er. injection Er as <-. split; [reflexivity|intros _; right; reflexivity].
Qed.
Lemma current_after : current StoreFixture.lease1 after.2.(o_store).
Proof. unfold current. vm_compute. lia. Qed.
End LeaseFixture.

Lemma no_acquisition_outlives_invocation_witness :
  (* it was leased, and the mode's disposition closed it *)
  cl_state <$> lease_row LeaseFixture.after.2.(o_store) LeaseFixture.id 1 = Some LeaseClosed ∧
  (active StoreFixture.lease1 LeaseFixture.after.2.(o_store) LeaseFixture.id →
   active StoreFixture.lease1 StoreFixture.running LeaseFixture.id).
Proof.
  split; [vm_compute; reflexivity|].
  apply (no_acquisition_outlives_invocation (NodeImpl:=string) LeaseFixture.env StoreFixture.lease1 (λ _, 0%Z) 30
    (λ _, "2025-01-01T00:00:00Z") (λ _, Some tt) LeaseFixture.catalog (λ _, true) (λ _, false) (λ _, None) (λ _, None)
    LeaseFixture.acquire LeaseFixture.idle LeaseFixture.close (λ _, LeaseFixture.idle) LeaseFixture.call
    LeaseFixture.manifest LiveEffects NormalCapabilities LeaseFixture.node LeaseFixture.path [] (digest_of "inputs" 1 JNull)
    LeaseFixture.before LeaseFixture.after.1 LeaseFixture.after.2 LeaseFixture.id).
  - exact StoreFixture.running_good.
  - exact LeaseFixture.mine_before.
  - exact LeaseFixture.invoke_eq.
  - exact LeaseFixture.current_after.
  - reflexivity.
Defined.
Lemma invocation_outputs_are_durable_witness :
  ∃ c, cks StoreFixture.lease1 LeaseFixture.after.2.(o_store) LeaseFixture.path = Some c ∧
    payloads c = [("answer", JBool true)].
Proof.
  destruct (invocation_outputs_are_durable (NodeImpl:=string) LeaseFixture.env StoreFixture.lease1 (λ _, 0%Z) 30
    (λ _, "2025-01-01T00:00:00Z") (λ _, Some tt) LeaseFixture.catalog (λ _, true) (λ _, false) (λ _, None) (λ _, None)
    LeaseFixture.acquire LeaseFixture.idle LeaseFixture.close (λ _, LeaseFixture.idle) LeaseFixture.call
    LeaseFixture.manifest LiveEffects NormalCapabilities LeaseFixture.node LeaseFixture.path [] (digest_of "inputs" 1 JNull)
    LeaseFixture.before [("answer", JBool true)] LeaseFixture.after.2) as [(c & Hc & _ & _ & Hp & _) _].
  - exact StoreFixture.running_good.
  - exact LeaseFixture.mine_before.
  - exact LeaseFixture.current_after.
  - vm_compute. reflexivity.
  - exact LeaseFixture.invoke_eq.
  - exists c. split; [exact Hc|exact Hp].
Defined.
