(* ===== verification/Control.v ===== *)
(** The durable control contracts ([src/constructicon/core/control.py]): scopes
    and the actors that hold them, typed refusals, command claims and records,
    the identities of a command, and the durable eras of a stored plan.

    Instants are integers (microseconds). [repr] is Python's [repr] of a string;
    refusals carry the text the source builds with it. *)

From S2P Require Import Prelude Identity Address Capability Message Run Effect.
From Stdlib Require Import Ascii.

(** ** Scopes *)
Definition IDEMPOTENCY_KEY_MAX_LENGTH : nat := 200.
Definition READ_SCOPE : string := "constructicon:read".
Definition OPERATE_SCOPE : string := "constructicon:operate".
Definition ADVISE_SCOPE : string := "constructicon:advise".
Definition APPROVE_SCOPE : string := "constructicon:approve".
Definition PROMOTE_SCOPE : string := "constructicon:promote".
Definition ADMIN_SCOPE : string := "constructicon:admin".
Definition CONTROL_SCOPES : list string :=
  [READ_SCOPE; OPERATE_SCOPE; ADVISE_SCOPE; APPROVE_SCOPE; PROMOTE_SCOPE; ADMIN_SCOPE].
Definition INTERACTION_SCOPES (i : ChannelInteraction) : string :=
  match i with Advice => ADVISE_SCOPE | Approval => APPROVE_SCOPE end.

Inductive auth_method := AuthStatic | AuthOauth.
#[export] Instance auth_method_eq_dec : EqDecision auth_method.
Proof. solve_decision. Defined.
(** [scopes] is a frozenset: the list of its members in some order. *)
Record AuthenticatedActor := mkActor {
  actor_id : string;
  actor_auth : auth_method;
  scopes : list string;
  display_name : option string;
  issuer : option string;
  subject : option string;
  client_id : option string;
}.
#[export] Instance AuthenticatedActor_eq_dec : EqDecision AuthenticatedActor.
Proof. solve_decision. Defined.
(** The unknown scopes are the [ValueError]. *)
Definition _scopes_are_known (value : list string) : result (list string) (list string) :=
  match sorted_set (filter (λ s, s ∉ CONTROL_SCOPES) value) with
  | [] => Ok value
  | unknown => Raise unknown
  end.
Definition _serialize_scopes (value : list string) : list string := py_sorted String.leb value.
Definition allows (a : AuthenticatedActor) (scope : string) : bool :=
  bool_decide (ADMIN_SCOPE ∈ a.(scopes)) || bool_decide (scope ∈ a.(scopes)).

(** ** Refusals *)
Inductive ControlCode :=
| AUTH_LOCAL_STATIC_REQUIRED | AUTH_REQUIRED_SCOPE | IDEMPOTENCY_CONFLICT | COMMAND_IN_PROGRESS
| COMMAND_UNKNOWN | CURSOR_INVALID | CURSOR_QUERY_MISMATCH | DETAIL_NOT_FOUND | DETAIL_NOT_IMMUTABLE
| DETAIL_DIGEST_MISMATCH | RUN_UNKNOWN | RUN_LIVE_OWNER | RUN_TERMINAL | RUN_NOT_RESUMABLE
| COUNTERFACTUAL_LOCK_MISMATCH | REGISTRY_STABLE_MOVED | REGISTRY_ROLLBACK_PROOF_USED
| REGISTRY_VERSION_UNKNOWN | APPROVAL_INVALID_SUBJECT | APPROVAL_RUN_MISMATCH | CHANNEL_MESSAGE_UNKNOWN
| CHANNEL_REQUEST_REQUIRED | CHANNEL_WRONG_INTERACTION | CHANNEL_ALREADY_REPLIED | REQUEST_INVALID
| COUNTERFACTUAL_OVERRIDE_INVALID.
Definition control_code_value (c : ControlCode) : string :=
  match c with
  | AUTH_LOCAL_STATIC_REQUIRED => "control.auth.local_static_required"
  | AUTH_REQUIRED_SCOPE => "control.auth.required_scope"
  | IDEMPOTENCY_CONFLICT => "control.idempotency.conflict"
  | COMMAND_IN_PROGRESS => "control.command.in_progress"
  | COMMAND_UNKNOWN => "control.command.unknown"
  | CURSOR_INVALID => "control.cursor.invalid"
  | CURSOR_QUERY_MISMATCH => "control.cursor.query_mismatch"
  | DETAIL_NOT_FOUND => "control.detail.not_found"
  | DETAIL_NOT_IMMUTABLE => "control.detail.not_immutable"
  | DETAIL_DIGEST_MISMATCH => "control.detail.digest_mismatch"
  | RUN_UNKNOWN => "control.run.unknown"
  | RUN_LIVE_OWNER => "control.run.live_owner"
  | RUN_TERMINAL => "control.run.terminal"
  | RUN_NOT_RESUMABLE => "control.run.not_resumable"
  | COUNTERFACTUAL_LOCK_MISMATCH => "control.counterfactual.lock_mismatch"
  | REGISTRY_STABLE_MOVED => "control.registry.stable_moved"
  | REGISTRY_ROLLBACK_PROOF_USED => "control.registry.rollback_proof_used"
  | REGISTRY_VERSION_UNKNOWN => "control.registry.version_unknown"
  | APPROVAL_INVALID_SUBJECT => "control.approval.invalid_subject"
  | APPROVAL_RUN_MISMATCH => "control.approval.run_mismatch"
  | CHANNEL_MESSAGE_UNKNOWN => "control.channel.message_unknown"
  | CHANNEL_REQUEST_REQUIRED => "control.channel.request_required"
  | CHANNEL_WRONG_INTERACTION => "control.channel.wrong_interaction"
  | CHANNEL_ALREADY_REPLIED => "control.channel.already_replied"
  | REQUEST_INVALID => "control.request.invalid"
  | COUNTERFACTUAL_OVERRIDE_INVALID => "control.counterfactual.override_invalid"
  end.
Definition control_codes : list ControlCode :=
  [AUTH_LOCAL_STATIC_REQUIRED; AUTH_REQUIRED_SCOPE; IDEMPOTENCY_CONFLICT; COMMAND_IN_PROGRESS;
   COMMAND_UNKNOWN; CURSOR_INVALID; CURSOR_QUERY_MISMATCH; DETAIL_NOT_FOUND; DETAIL_NOT_IMMUTABLE;
   DETAIL_DIGEST_MISMATCH; RUN_UNKNOWN; RUN_LIVE_OWNER; RUN_TERMINAL; RUN_NOT_RESUMABLE;
   COUNTERFACTUAL_LOCK_MISMATCH; REGISTRY_STABLE_MOVED; REGISTRY_ROLLBACK_PROOF_USED;
   REGISTRY_VERSION_UNKNOWN; APPROVAL_INVALID_SUBJECT; APPROVAL_RUN_MISMATCH; CHANNEL_MESSAGE_UNKNOWN;
   CHANNEL_REQUEST_REQUIRED; CHANNEL_WRONG_INTERACTION; CHANNEL_ALREADY_REPLIED; REQUEST_INVALID;
   COUNTERFACTUAL_OVERRIDE_INVALID].
Definition parse_code (s : string) : option ControlCode :=
  head (filter (λ c, control_code_value c = s) control_codes).
Lemma parse_code_value c : parse_code (control_code_value c) = Some c.
Proof. by destruct c. Qed.
Lemma control_code_value_inj c c' : control_code_value c = control_code_value c' → c = c'.
Proof. intros H. apply (f_equal parse_code) in H. rewrite !parse_code_value in H. by injection H. Qed.
#[export] Instance ControlCode_eq_dec : EqDecision ControlCode.
Proof.
  intros c c'. destruct (decide (control_code_value c = control_code_value c')) as [H|H]; [left|right].
  - by apply control_code_value_inj.
  - by intros ->.
Defined.
Record ControlFault := mkFault {
  fault_code : ControlCode;
  fault_message : string;
  fault_repair : string;
  fault_details : list (string * json);
}.
#[export] Instance ControlFault_eq_dec : EqDecision ControlFault.
Proof. solve_decision. Defined.
Record ControlRejected := mkRejected { faults : list ControlFault }.
#[export] Instance ControlRejected_eq_dec : EqDecision ControlRejected.
Proof. solve_decision. Defined.
Definition one_fault (code : ControlCode) (message repair : string) (details : list (string * json)) :
    ControlRejected := mkRejected [mkFault code message repair details].
#[export] Instance ControlFault_dump : Dump ControlFault := λ f,
  JObj [("code", JStr (control_code_value f.(fault_code))); ("message", JStr f.(fault_message));
        ("repair", JStr f.(fault_repair)); ("details", JObj f.(fault_details))].
#[export] Instance ControlRejected_dump : Dump ControlRejected := λ r,
  JObj [("schema_version", JInt 3); ("status", JStr "rejected"); ("faults", dump r.(faults))].

(** ** The doors *)
Section doors.
Context (repr : string → string).
Definition repr_list (l : list string) : string := "[" +:+ String.concat ", " (repr <$> l) +:+ "]".
Definition scope_refusal (a : AuthenticatedActor) (required : string) : option ControlRejected :=
  if allows a required then None else
  Some (one_fault AUTH_REQUIRED_SCOPE
          ("actor " +:+ repr a.(actor_id) +:+ " lacks required scope " +:+ repr required)
          ("authenticate with " +:+ required +:+ " or " +:+ ADMIN_SCOPE)
          [("required_scope", JStr required)]).
(** The set form: any one of several. *)
Definition scopes_refusal (a : AuthenticatedActor) (required : list string) : option ControlRejected :=
  if existsb (allows a) required then None else
  let names := sorted_set required in
  Some (one_fault AUTH_REQUIRED_SCOPE
          ("actor " +:+ repr a.(actor_id) +:+ " holds none of the required scopes " +:+ repr_list names)
          ("authenticate with one of " +:+ String.concat ", " names +:+ ", or " +:+ ADMIN_SCOPE)
          [("required_scopes", jstrs names)]).
End doors.
Definition channel_reach (a : AuthenticatedActor) : list ChannelInteraction :=
  filter (λ i, allows a (INTERACTION_SCOPES i) = true) [Advice; Approval].
Definition channel_authority_holder (request : ChannelMessage) (a : AuthenticatedActor) : bool :=
  allows a (INTERACTION_SCOPES request.(msg_interaction))
  && match request.(recipient) with
     | None => true
     | Some to => bool_decide (to = a.(actor_id))
     end.

(** ** Commands *)
Record CommandClaim := mkClaim {
  cc_command : string;
  cc_actor : string;
  cc_operation : string;
  cc_owner : string;
  cc_epoch : nat;
  cc_expires : Z;
}.
#[export] Instance CommandClaim_eq_dec : EqDecision CommandClaim.
Proof. solve_decision. Defined.
Inductive command_state := CommandPrepared | CommandCommitted | CommandRejected.
#[export] Instance command_state_eq_dec : EqDecision command_state.
Proof. solve_decision. Defined.
(** A JSON value is the dict, list or scalar it decodes to; two dicts are equal
    when their canonical texts are. *)
Record CommandRecord := mkCommand {
  cmd_id : string;
  cmd_actor : AuthenticatedActor;
  cmd_operation : string;
  cmd_key : string;
  cmd_request_hash : Digest;
  cmd_request : json;
  cmd_state : command_state;
  cmd_plan : option json;
  cmd_response : option json;
  cmd_owner : option string;
  cmd_epoch : nat;
  cmd_lease : option Z;
  cmd_created : Z;
  cmd_updated : Z;
  cmd_completed : option Z;
}.
#[export] Instance CommandRecord_eq_dec : EqDecision CommandRecord.
Proof. solve_decision. Defined.
Definition terminal (r : CommandRecord) : bool := negb (bool_decide (r.(cmd_state) = CommandPrepared)).
Definition command_visible_to (r : CommandRecord) (a : AuthenticatedActor) : bool :=
  bool_decide (r.(cmd_actor).(actor_id) = a.(actor_id)) || allows a ADMIN_SCOPE.

(** *** Identities *)
Definition command_id_for (actor operation key : string) : string :=
  "cmd-" +:+ String.substring 7 64 (digest_of "control-command" 1
    (JObj [("actor_id", JStr actor); ("operation", JStr operation); ("idempotency_key", JStr key)])).
Definition command_request_hash (request : json) : Digest := digest_of "control-request" 1 request.
Definition run_id_for_command (command : string) : RunId :=
  "run-" +:+ String.substring 7 32 (digest_of "run-from-command" 1 (JObj [("command_id", JStr command)])).
Definition approval_id_for_command (command : string) (subject : json) : string :=
  "approval-" +:+ String.substring 7 32 (digest_of "approval-from-command" 1
    (JObj [("command_id", JStr command); ("subject", subject)])).
#[global] Arguments command_id_for : simpl never.
#[global] Arguments command_request_hash : simpl never.
Inductive key_error := KeyNotCanonical | KeyTooLong.
(** [len(value)]: the bytes that start a code point. *)
Definition code_points (s : string) : nat :=
  length (filter (λ c, negb ((128 <=? nat_of_ascii c) && (nat_of_ascii c <? 192)) = true)
            (String.list_ascii_of_string s)).
Definition validate_idempotency_key (value : string) : result key_error string :=
  if negb (_canonical_identity value) then Raise KeyNotCanonical
  else if IDEMPOTENCY_KEY_MAX_LENGTH <? code_points value then Raise KeyTooLong
  else Ok value.

(** ** Plan eras *)
Definition REFUSAL_PLAN_KINDS : list string := ["admission_reject"; "control_reject"].
Definition is_object (j : json) : bool := match j with JObj _ => true | _ => false end.
Definition has_key (k : string) (j : json) : bool := bool_decide (is_Some (j_get k j)).
(** [mapping.get(key)], where a missing member and a null one are both [None]. *)
Definition get_none (k : string) (j : json) : bool :=
  match j_get k j with None | Some JNull => true | _ => false end.
Definition plan_records_a_refusal (plan : option json) : bool :=
  match plan with
  | Some (JObj _ as raw) =>
      if has_key "rejection" raw then true
      else match j_get "plan" raw with
           | Some (JObj _ as planned) =>
               match j_get "kind" planned with
               | Some (JStr kind) => bool_decide (kind ∈ REFUSAL_PLAN_KINDS)
               | _ => false
               end
           | _ => false
           end
  | _ => false
  end.
Definition _DOMAIN_PLAN_ERA_OPERATIONS : list string :=
  ["registry_promote_initial"; "registry_promote"; "registry_rollback"; "runs_cancel"].
Definition run_status_value (s : RunStatus) : string :=
  match s with
  | PENDING => "pending" | RUNNING => "running" | SUCCEEDED => "succeeded"
  | FAILED => "failed" | CANCELLED => "cancelled" | PARKED => "parked"
  end.
Definition _TERMINAL_STATUS_VALUES : list string := run_status_value <$> [SUCCEEDED; FAILED; CANCELLED; PARKED].
Definition kind_in (kinds : list string) (planned : json) : bool :=
  match j_get "kind" planned with Some (JStr kind) => bool_decide (kind ∈ kinds) | _ => false end.
Definition domain_plan_requires_historical_evidence (r : CommandRecord) : bool :=
  match r.(cmd_plan) with
  | None => false
  | Some raw =>
      if decide (r.(cmd_operation) ∉ _DOMAIN_PLAN_ERA_OPERATIONS) then false
      else if plan_records_a_refusal (Some raw) || negb (is_object raw) then false
      else if negb (has_key "schema_version" raw)
      then bool_decide (r.(cmd_operation) ∈ ["registry_promote"; "registry_rollback"])
      else match j_get "plan" raw with
           | Some (JObj _ as planned) =>
               if decide (r.(cmd_operation) = "runs_cancel") then
                 kind_in ["cancel"] planned
                 && bool_decide (j_get "outcome" planned = Some (JStr "already_terminal"))
                 && get_none "observed_event_seq" planned
                 && match j_get "observed_status" planned with
                    | Some (JStr s) => bool_decide (s ∈ _TERMINAL_STATUS_VALUES)
                    | _ => false
                    end
                 && bool_decide (j_get "response_status" planned = j_get "observed_status" planned)
               else kind_in ["initial_promotion"; "promotion"; "rollback"] planned
                    && get_none "terminal_rejection_policy" planned
           | _ => false
           end
  end.

(** *** Resume plans *)
Inductive resume_plan :=
| ResumeCommandPlan (run_id : RunId) (baseline_event_seq : N) (submitted_status : RunStatus) (exact : bool)
| LegacyResumeCommandPlan (run_id : RunId) (baseline_event_seq : option N).
Definition plan_run (p : resume_plan) : RunId :=
  match p with ResumeCommandPlan run _ _ _ | LegacyResumeCommandPlan run _ => run end.
Definition plan_baseline (p : resume_plan) : option N :=
  match p with ResumeCommandPlan _ b _ _ => Some b | LegacyResumeCommandPlan _ b => b end.
(** [model_dump]: the stored envelope of a typed plan, the bare legacy object. *)
#[export] Instance resume_plan_dump : Dump resume_plan := λ p,
  match p with
  | ResumeCommandPlan run b status exact =>
      JObj [("schema_version", JInt 1);
            ("plan", JObj ([("kind", JStr "resume"); ("policy", JStr "resume-v1"); ("run_id", JStr run);
                            ("baseline_event_seq", dump b); ("submitted_status", JStr (run_status_value status))]
                           ++ if exact then [("terminal_rejection_policy", JStr "exact-v1")] else []))]
  | LegacyResumeCommandPlan run b =>
      JObj (("run_id", JStr run) :: match b with Some b => [("baseline_event_seq", dump b)] | None => [] end)
  end.
Definition j_nat (j : json) : option N :=
  match j with JInt z => if (z <? 0)%Z then None else Some (Z.to_N z) | _ => None end.
Definition parse_run_status (s : string) : option RunStatus :=
  head (filter (λ x, run_status_value x = s) [PENDING; RUNNING; SUCCEEDED; FAILED; CANCELLED; PARKED]).
(** The optional [Literal[exact-v1]] of a plan. *)
Definition parse_policy (planned : json) : option bool :=
  match j_get "terminal_rejection_policy" planned with
  | None | Some JNull => Some false
  | Some (JStr "exact-v1") => Some true
  | _ => None
  end.
Definition parse_baseline (raw : json) : option (option N) :=
  match j_get "baseline_event_seq" raw with
  | None | Some JNull => Some None
  | Some b => Some <$> j_nat b
  end.
Definition decode_typed_resume (planned : json) : option resume_plan :=
  run ← j_get "run_id" planned ≫= j_str;
  b ← j_get "baseline_event_seq" planned ≫= j_nat;
  text ← j_get "submitted_status" planned ≫= j_str;
  status ← parse_run_status text;
  policy ← parse_policy planned;
  Some (ResumeCommandPlan run b status policy).
Definition decode_legacy_resume (raw : json) : option resume_plan :=
  run ← j_get "run_id" raw ≫= j_str;
  b ← parse_baseline raw;
  Some (LegacyResumeCommandPlan run b).
Definition decode_resume_plan (raw : json) : option resume_plan :=
  if has_key "schema_version" raw then j_get "plan" raw ≫= decode_typed_resume else decode_legacy_resume raw.
(** Not a resume, no object plan, invalid, not lossless, or another run. *)
Inductive resume_damage :=
| NotAResume | NoObjectPlan | InvalidAttemptPlan | AttemptPlanNotLossless | TargetsDifferentRuns
| HistoricalPlanEra | AttemptRejected | AttemptOtherRun | NoAttemptFence | NotAtItsFence
| NoLawfulBaseline | ContradictsBaseline.
Definition validated_resume_command_plan (r : CommandRecord) : result resume_damage resume_plan :=
  if decide (r.(cmd_operation) ≠ "runs_resume") then Raise NotAResume else
  match r.(cmd_plan) with
  | Some (JObj _ as raw) =>
      match decode_resume_plan raw with
      | None => Raise InvalidAttemptPlan
      | Some plan =>
          if decide (canonical_text raw ≠ canonical_text (dump plan)) then Raise AttemptPlanNotLossless
          else if negb (is_object r.(cmd_request)
                        && bool_decide (canonical_text r.(cmd_request)
                                        = canonical_text (JObj [("run_id", JStr (plan_run plan))])))
          then Raise TargetsDifferentRuns
          else Ok plan
      end
  | _ => Raise NoObjectPlan
  end.
Definition resume_domain_plan (r : CommandRecord) : result resume_damage (option resume_plan) :=
  match r.(cmd_plan) with
  | Some (JObj _ as raw) =>
      if decide (r.(cmd_operation) ≠ "runs_resume") then Ok None
      else if (if has_key "schema_version" raw
               then match j_get "plan" raw with
                    | Some (JObj _ as inner) => bool_decide (j_get "kind" inner = Some (JStr "resume"))
                    | _ => false
                    end
               else has_key "run_id" raw)
      then Some <$> validated_resume_command_plan r
      else Ok None
  | _ => Ok None
  end.
Definition resume_plan_requires_historical_evidence (r : CommandRecord) : result resume_damage bool :=
  match r.(cmd_plan) with
  | None => Ok false
  | Some raw =>
      if decide (r.(cmd_operation) ≠ "runs_resume") then Ok false
      else if negb (is_object raw && has_key "schema_version" raw) then Ok true
      else plan ← resume_domain_plan r;
           Ok (match plan with Some (ResumeCommandPlan _ _ _ exact) => negb exact | _ => false end)
  end.
(** The two guards of the plan write boundary. *)
Definition validated_new_resume_command_plan (r : CommandRecord) : result resume_damage (option resume_plan) :=
  historical ← resume_plan_requires_historical_evidence r;
  if (historical : bool) then Raise HistoricalPlanEra else
  plan ← resume_domain_plan r;
  Ok (match plan with Some (ResumeCommandPlan _ _ _ _) => plan | _ => None end).
Definition validated_new_domain_command_plan (r : CommandRecord) : bool :=
  negb (domain_plan_requires_historical_evidence r).

(** *** The fence of an attempt *)
Definition _RESUME_ATTEMPT_KIND_BY_STATUS : list (RunStatus * string) :=
  [(PENDING, "RunStarted"); (RUNNING, "RunReclaimed"); (FAILED, "RunResumed"); (PARKED, "RunResumed")].
Definition RESUMABLE_RUN_STATUSES : list RunStatus := Dict.keys _RESUME_ATTEMPT_KIND_BY_STATUS.
Definition resume_attempt_kind (s : RunStatus) : option string := Dict.get s _RESUME_ATTEMPT_KIND_BY_STATUS.
(** [None] is the [ValueError]. *)
Definition resume_status_at_fence (baseline : N) (kind : option string) : option RunStatus :=
  if decide (baseline = 0%N) then
    match kind with None => Some PENDING | Some _ => None end
  else match kind with
       | None => None
       | Some kind =>
           match Dict.get kind TERMINAL_EVENT_STATUSES with
           | Some s => if decide (s ∈ RESUMABLE_RUN_STATUSES) then Some s else None
           | None => Some RUNNING
           end
       end.
Definition validated_resume_status_at_fence (p : resume_plan) (kind : option string) : option RunStatus :=
  baseline ← plan_baseline p;
  status ← resume_status_at_fence baseline kind;
  match p with
  | ResumeCommandPlan _ _ submitted _ => if decide (submitted ≠ status) then None else Some status
  | LegacyResumeCommandPlan _ _ => Some status
  end.
Definition validated_resume_attempt_command (r : CommandRecord) (run : RunId) (event_seq : N)
    (event_kind : string) (baseline_kind : option string) : result resume_damage resume_plan :=
  if decide (r.(cmd_state) = CommandRejected) then Raise AttemptRejected else
  plan ← validated_resume_command_plan r;
  if decide (plan_run plan ≠ run) then Raise AttemptOtherRun else
  match plan_baseline plan with
  | None => Raise NoAttemptFence
  | Some baseline =>
      if decide (event_seq ≠ (baseline + 1)%N) then Raise NotAtItsFence else
      match validated_resume_status_at_fence plan baseline_kind with
      | None => Raise NoLawfulBaseline
      | Some status =>
          if decide (resume_attempt_kind status ≠ Some event_kind) then Raise ContradictsBaseline else Ok plan
      end
  end.
