(* ===== verification/Ledger.v ===== *)
(** The command ledger: the durable one
    ([src/constructicon/substrate/journal/_sqlite_control.py],
    [_sqlite_commands.py]) and its in-memory contract double
    ([src/constructicon/substrate/control.py]).

    A public method is one transaction. The seals beside a row and the
    witnesses of older eras, which no current writer makes, are not modelled.
    [owned] lists the domain facts the approval, channel, disposal and resume
    commands wrote, by the command that owns each: the commands modelled here
    write none. [now] is the reading of the clock. *)

From S2P Require Import Prelude Identity Address Run Effect Control.

(** ** Errors *)
Inductive ledger_damage :=
| CommandSelectors (command : string)
| CommandRowDamaged (command : string)
| UnknownCommand (command : string)
| ClaimContradicts (command : string)
| DifferentPlan (command : string)
| HistoricalDomainPlan (command : string)
| ResumePlanDamaged (command : string) (why : resume_damage)
| RejectedAfterFact (command fact : string)
| DifferentTerminal (command : string)
| NoImmutablePlan (command : string)
| TerminalWithoutPlan (command : string).
Inductive ledger_value :=
| InvalidKey (why : key_error)
| RequestHashMismatch
| PlannedWithNoPlan (command : string)
| TerminalWithNoResponse (command : string)
| LimitMustBePositive.
Inductive lexn :=
| LedgerDamaged (why : ledger_damage)
| CommandOwnershipLost (command owner : string) (epoch : nat)
| LedgerValue (why : ledger_value).

(** ** State *)
Record ledger := mkLedger {
  commands : list (string * CommandRecord);
  owned : list (string * string);
}.
Definition new_ledger : ledger := mkLedger [] [].
Definition L := eff ledger lexn.
Definition ledger_txn {A} (m : L A) : L A := λ s,
  match m s with (Ok a, s') => (Ok a, s') | (Raise e, _) => (Raise e, s) end.
Definition set_command (r : CommandRecord) (s : ledger) : ledger :=
  mkLedger (Dict.set r.(cmd_id) r s.(commands)) s.(owned).

Inductive claim_status := Claimed | Replayed | InProgress | Conflict.
#[export] Instance claim_status_eq_dec : EqDecision claim_status.
Proof. solve_decision. Defined.
Record CommandClaimResult := mkClaimResult {
  claim_outcome : claim_status;
  claimed : option CommandClaim;
  claim_record : option CommandRecord;
}.
#[export] Instance CommandClaimResult_eq_dec : EqDecision CommandClaimResult.
Proof. solve_decision. Defined.

(** ** What both ledgers share *)
Definition same_json (a b : json) : bool := bool_decide (canonical_text a = canonical_text b).
#[global] Arguments same_json : simpl never.
Definition derived_command_id (r : CommandRecord) : string :=
  command_id_for r.(cmd_actor).(actor_id) r.(cmd_operation) r.(cmd_key).
Section claim.
Context (actor : AuthenticatedActor) (operation key : string) (request_hash : Digest) (request : json).
Context (owner : string) (ttl now : Z).
Definition claim_id : string := command_id_for actor.(actor_id) operation key.
Definition fresh_claim (epoch : nat) : CommandClaim :=
  mkClaim claim_id actor.(actor_id) operation owner epoch (now + ttl).
Definition fresh_command : CommandRecord :=
  mkCommand claim_id actor operation key request_hash request CommandPrepared None None
    (Some owner) 1 (Some (now + ttl)%Z) now now None.
Definition names_another_request (r : CommandRecord) : bool :=
  negb (bool_decide (r.(cmd_actor).(actor_id) = actor.(actor_id))
        && bool_decide (r.(cmd_operation) = operation) && bool_decide (r.(cmd_key) = key)
        && bool_decide (r.(cmd_request_hash) = request_hash) && same_json r.(cmd_request) request).
Definition lease_live (r : CommandRecord) : bool :=
  match r.(cmd_lease) with Some at_ => bool_decide (now < at_)%Z | None => false end.
Definition reclaimed (r : CommandRecord) : CommandRecord :=
  mkCommand r.(cmd_id) r.(cmd_actor) r.(cmd_operation) r.(cmd_key) r.(cmd_request_hash) r.(cmd_request)
    r.(cmd_state) r.(cmd_plan) r.(cmd_response) (Some owner) (S r.(cmd_epoch)) (Some (now + ttl)%Z)
    r.(cmd_created) now r.(cmd_completed).
End claim.
Definition with_plan (plan : json) (now : Z) (r : CommandRecord) : CommandRecord :=
  mkCommand r.(cmd_id) r.(cmd_actor) r.(cmd_operation) r.(cmd_key) r.(cmd_request_hash) r.(cmd_request)
    r.(cmd_state) (Some plan) r.(cmd_response) r.(cmd_owner) r.(cmd_epoch) r.(cmd_lease)
    r.(cmd_created) now r.(cmd_completed).
Definition with_terminal (state : command_state) (response : json) (now : Z) (r : CommandRecord) : CommandRecord :=
  mkCommand r.(cmd_id) r.(cmd_actor) r.(cmd_operation) r.(cmd_key) r.(cmd_request_hash) r.(cmd_request)
    state r.(cmd_plan) (Some response) None r.(cmd_epoch) None r.(cmd_created) now (Some now).
(** Whether a claim is of this command, and whether it still owns it. *)
Definition claim_matches (c : CommandClaim) (r : CommandRecord) : bool :=
  bool_decide (r.(cmd_actor).(actor_id) = c.(cc_actor)) && bool_decide (r.(cmd_operation) = c.(cc_operation)).
Definition claim_owns (c : CommandClaim) (r : CommandRecord) : bool :=
  bool_decide (r.(cmd_state) = CommandPrepared) && bool_decide (r.(cmd_owner) = Some c.(cc_owner))
  && bool_decide (r.(cmd_epoch) = c.(cc_epoch)).
Definition lost (c : CommandClaim) : lexn := CommandOwnershipLost c.(cc_command) c.(cc_owner) c.(cc_epoch).
(** Stored responses compare by their bytes. *)
Definition same_response (r : CommandRecord) (response : json) : bool :=
  match r.(cmd_response) with Some stored => same_json stored response | None => false end.
(** The guards of the plan write boundary. *)
Definition plan_guards (r : CommandRecord) : result lexn () :=
  match validated_new_resume_command_plan r with
  | Raise why => Raise (LedgerDamaged (ResumePlanDamaged r.(cmd_id) why))
  | Ok _ => if validated_new_domain_command_plan r then Ok tt
            else Raise (LedgerDamaged (HistoricalDomainPlan r.(cmd_id)))
  end.

(** ** The durable ledger *)

(** Every redundant identity and the lifecycle columns of a row. *)
Definition command_row_ok (r : CommandRecord) : bool :=
  bool_decide (r.(cmd_id) = derived_command_id r)
  && bool_decide (r.(cmd_request_hash) = command_request_hash r.(cmd_request))
  && is_ok (validate_idempotency_key r.(cmd_key))
  && match r.(cmd_state) with
     | CommandPrepared =>
         bool_decide (r.(cmd_response) = None) && bool_decide (r.(cmd_completed) = None)
         && bool_decide (is_Some r.(cmd_owner)) && bool_decide (is_Some r.(cmd_lease))
     | _ =>
         bool_decide (is_Some r.(cmd_response)) && bool_decide (is_Some r.(cmd_plan))
         && bool_decide (is_Some r.(cmd_completed)) && bool_decide (r.(cmd_owner) = None)
         && bool_decide (r.(cmd_lease) = None)
     end.
(** Selected by the relational identity or by the one the row derives. *)
Definition command_selected (id : string) (kr : string * CommandRecord) : Prop :=
  kr.1 = id ∨ derived_command_id kr.2 = id.
#[export] Instance command_selected_dec id kr : Decision (command_selected id kr).
Proof. unfold command_selected. apply _. Defined.
Definition command_for_id (s : ledger) (id : string) : result lexn (option CommandRecord) :=
  match filter (command_selected id) s.(commands) with
  | [] => Ok None
  | [(_, r)] =>
      if negb (command_row_ok r) then Raise (LedgerDamaged (CommandRowDamaged id))
      else if decide (r.(cmd_id) ≠ id) then Raise (LedgerDamaged (CommandSelectors id))
      else Ok (Some r)
  | _ => Raise (LedgerDamaged (CommandSelectors id))
  end.
Definition command (id : string) : L (option CommandRecord) :=
  let* s := get in lift (command_for_id s id).

Definition claim_command (actor : AuthenticatedActor) (operation key : string) (request_hash : Digest)
    (request : json) (owner : string) (ttl now : Z) : L CommandClaimResult :=
  match validate_idempotency_key key with
  | Raise why => raise (LedgerValue (InvalidKey why))
  | Ok _ =>
      if decide (request_hash ≠ command_request_hash request) then raise (LedgerValue RequestHashMismatch)
      else ledger_txn (
        let* s := get in
        let* found := lift (command_for_id s (claim_id actor operation key)) in
        match found with
        | None =>
            modify (set_command (fresh_command actor operation key request_hash request owner ttl now));;;
            eret (mkClaimResult Claimed (Some (fresh_claim actor operation key owner ttl now 1)) None)
        | Some r =>
            if names_another_request actor operation key request_hash request r
            then eret (mkClaimResult Conflict None (Some r))
            else if terminal r then eret (mkClaimResult Replayed None (Some r))
            else if lease_live now r then eret (mkClaimResult InProgress None (Some r))
            else
              modify (set_command (reclaimed owner ttl now r));;;
              eret (mkClaimResult Claimed (Some (fresh_claim actor operation key owner ttl now (S r.(cmd_epoch))))
                      (Some r))
        end)
  end.

Definition _command_fenced (c : CommandClaim) : L CommandRecord :=
  let* s := get in
  let* found := lift (command_for_id s c.(cc_command)) in
  match found with
  | None => raise (LedgerDamaged (UnknownCommand c.(cc_command)))
  | Some r =>
      if negb (claim_matches c r) then raise (LedgerDamaged (ClaimContradicts c.(cc_command)))
      else if negb (claim_owns c r) then raise (lost c)
      else eret r
  end.
Definition store_command_plan (c : CommandClaim) (plan : json) (now : Z) : L unit :=
  if decide (plan = JNull) then raise (LedgerValue (PlannedWithNoPlan c.(cc_command))) else ledger_txn (
    let* r := _command_fenced c in
    match r.(cmd_plan) with
    | Some stored =>
        if same_json stored plan then eret tt else raise (LedgerDamaged (DifferentPlan c.(cc_command)))
    | None =>
        let planned := with_plan plan now r in
        modify (set_command planned);;;
        lift (plan_guards planned)
    end).

(** The fact, if any, that a rejection would contradict. *)
Definition _domain_fact_owned_by (s : ledger) (id : string) : option string := Dict.get id s.(owned).
Definition _terminal_command (c : CommandClaim) (response : json) (state : command_state) (now : Z) :
    L CommandRecord :=
  if decide (response = JNull) then raise (LedgerValue (TerminalWithNoResponse c.(cc_command))) else ledger_txn (
    let* s := get in
    let* found := lift (command_for_id s c.(cc_command)) in
    match found with
    | None => raise (LedgerDamaged (UnknownCommand c.(cc_command)))
    | Some existing =>
        match (if decide (state = CommandRejected) then _domain_fact_owned_by s existing.(cmd_id) else None) with
        | Some fact => raise (LedgerDamaged (RejectedAfterFact c.(cc_command) fact))
        | None =>
            if terminal existing then
              if bool_decide (existing.(cmd_state) = state) && same_response existing response
              then eret existing else raise (LedgerDamaged (DifferentTerminal c.(cc_command)))
            else
              let* fenced := _command_fenced c in
              match fenced.(cmd_plan) with
              | None => raise (LedgerDamaged (NoImmutablePlan c.(cc_command)))
              | Some _ =>
                  modify (set_command (with_terminal state response now fenced));;;
                  eret (with_terminal state response now fenced)
              end
        end
    end).
Definition complete_command (c : CommandClaim) (response : json) (now : Z) : L CommandRecord :=
  _terminal_command c response CommandCommitted now.
Definition reject_command (c : CommandClaim) (response : json) (now : Z) : L CommandRecord :=
  _terminal_command c response CommandRejected now.

(** ** Discovery in creation order *)
Section reads.
Context (isoformat : Z → string).
Definition command_key (r : CommandRecord) : string * string := (isoformat r.(cmd_created), r.(cmd_id)).
Definition key_leb : string * string → string * string → bool := pair_leb String.leb String.leb.
Definition in_cut (operation : string) (after : option (string * string)) (through : string * string)
    (r : CommandRecord) : bool :=
  bool_decide (r.(cmd_operation) = operation) && key_leb (command_key r) through
  && match after with
     | Some after => negb (key_leb (command_key r) after)
     | None => true
     end.
(** [ORDER BY created_at, command_id LIMIT ?] of the rows that pass. *)
Definition page (pass : CommandRecord → bool) (limit : N) (s : ledger) : result lexn (list CommandRecord) :=
  if decide (limit = 0%N) then Raise (LedgerValue LimitMustBePositive) else
  Ok (take (N.to_nat limit)
        (sorted_by key_leb command_key (filter (λ r, pass r = true) s.(commands).*2))).
Definition latest_command_key (operation : string) (s : ledger) : option (string * string) :=
  last (sorted_by key_leb id (command_key <$> filter (λ r, r.(cmd_operation) = operation) s.(commands).*2)).
Definition command_records (operation : string) (after : option (string * string)) (through : string * string)
    (limit : N) (s : ledger) : result lexn (list CommandRecord) :=
  page (in_cut operation after through) limit s.
Definition committed_commands (operation : string) (after : option (string * string))
    (through : string * string) (limit : N) (s : ledger) : result lexn (list CommandRecord) :=
  page (λ r, in_cut operation after through r && bool_decide (r.(cmd_state) = CommandCommitted)
             && bool_decide (is_Some r.(cmd_completed))) limit s.
End reads.

(** ** [InMemoryControlStore] *)
Module Double.
(** [_commands] is the dict, [_approval_id_by_command] the facts it knows of. *)
Record double := mkDouble { d_commands : list (string * CommandRecord); d_approvals : list (string * string) }.
Definition D := eff double lexn.
Definition put (r : CommandRecord) (s : double) : double :=
  mkDouble (Dict.set r.(cmd_id) r s.(d_commands)) s.(d_approvals).
(** The raise of [_detached_command] under a lock that has already written. *)
Definition _detached_command (r : CommandRecord) : result lexn CommandRecord :=
  if terminal r && bool_decide (r.(cmd_plan) = None)
  then Raise (LedgerDamaged (TerminalWithoutPlan r.(cmd_id))) else Ok r.
Definition claim_command (actor : AuthenticatedActor) (operation key : string) (request_hash : Digest)
    (request : json) (owner : string) (ttl now : Z) : D CommandClaimResult :=
  match validate_idempotency_key key with
  | Raise why => raise (LedgerValue (InvalidKey why))
  | Ok _ =>
      if decide (request_hash ≠ command_request_hash request) then raise (LedgerValue RequestHashMismatch) else
      let* s := get in
      match Dict.get (claim_id actor operation key) s.(d_commands) with
      | Some r =>
          let answer status := (let* r := lift (_detached_command r) in eret (mkClaimResult status None (Some r))) in
          if names_another_request actor operation key request_hash request r then answer Conflict
          else if terminal r then answer Replayed
          else if lease_live now r then answer InProgress
          else
            let updated := reclaimed owner ttl now r in
            modify (put updated);;;
            let* updated := lift (_detached_command updated) in
            eret (mkClaimResult Claimed (Some (fresh_claim actor operation key owner ttl now (S r.(cmd_epoch))))
                    (Some updated))
      | None =>
          let r := fresh_command actor operation key request_hash request owner ttl now in
          modify (put r);;;
          let* r := lift (_detached_command r) in
          eret (mkClaimResult Claimed (Some (fresh_claim actor operation key owner ttl now 1)) (Some r))
      end
  end.
Definition _fenced (c : CommandClaim) : D CommandRecord :=
  let* s := get in
  match Dict.get c.(cc_command) s.(d_commands) with
  | None => raise (LedgerDamaged (UnknownCommand c.(cc_command)))
  | Some r =>
      if negb (claim_matches c r) then raise (LedgerDamaged (ClaimContradicts c.(cc_command)))
      else if negb (claim_owns c r) then raise (lost c)
      else eret r
  end.
Definition store_command_plan (c : CommandClaim) (plan : json) (now : Z) : D unit :=
  if decide (plan = JNull) then raise (LedgerValue (PlannedWithNoPlan c.(cc_command))) else
  let* r := _fenced c in
  match r.(cmd_plan) with
  | None =>
      let planned := with_plan plan now r in
      lift (plan_guards planned);;;
      modify (put planned)
  | Some stored =>
      if same_json stored plan then eret tt else raise (LedgerDamaged (DifferentPlan c.(cc_command)))
  end.
Definition _terminal (c : CommandClaim) (response : json) (state : command_state) (now : Z) : D CommandRecord :=
  if decide (response = JNull) then raise (LedgerValue (TerminalWithNoResponse c.(cc_command))) else
  let* s := get in
  match Dict.get c.(cc_command) s.(d_commands) with
  | None => raise (LedgerDamaged (UnknownCommand c.(cc_command)))
  | Some r =>
      if decide (state = CommandRejected ∧ is_Some (Dict.get c.(cc_command) s.(d_approvals)))
      then raise (LedgerDamaged (RejectedAfterFact c.(cc_command) "an approval"))
      else if terminal r then
        if bool_decide (r.(cmd_state) = state) && same_response r response
        then lift (_detached_command r) else raise (LedgerDamaged (DifferentTerminal c.(cc_command)))
      else
        let* r := _fenced c in
        match r.(cmd_plan) with
        | None => raise (LedgerDamaged (NoImmutablePlan c.(cc_command)))
        | Some _ =>
            let updated := with_terminal state response now r in
            modify (put updated);;;
            lift (_detached_command updated)
        end
  end.
Definition complete_command (c : CommandClaim) (response : json) (now : Z) : D CommandRecord :=
  _terminal c response CommandCommitted now.
Definition reject_command (c : CommandClaim) (response : json) (now : Z) : D CommandRecord :=
  _terminal c response CommandRejected now.
Definition command (id : string) : D (option CommandRecord) :=
  let* s := get in
  match Dict.get id s.(d_commands) with
  | None => eret None
  | Some r => let* r := lift (_detached_command r) in eret (Some r)
  end.
End Double.
