(* ===== verification/LedgerSpec.v ===== *)
(** What every history of ledger calls keeps ([Ledger]): rows that are what
    their identities say, and records that only ever move forward. *)

From S2P Require Import Prelude Identity Address Run Effect JournalSpec EffectSpec Control Ledger.

(** ** The invariant *)
Record ledger_ok (s : ledger) : Prop := {
  lo_keys : NoDup (Dict.keys s.(commands));
  lo_rows kr : kr ∈ s.(commands) → kr.1 = kr.2.(cmd_id) ∧ command_row_ok kr.2 = true;
}.
Lemma ledger_ok_new : ledger_ok new_ledger.
Proof. split; [constructor|]. by intros kr ?%elem_of_nil. Qed.
Lemma row_identity r : command_row_ok r = true → r.(cmd_id) = derived_command_id r.
Proof. unfold command_row_ok. rewrite !andb_true_iff, !bool_decide_eq_true. tauto. Qed.
Lemma command_good s id : ledger_ok s → command_for_id s id = Ok (Dict.get id s.(commands)).
Proof.
  intros [Hk Hr]. unfold command_for_id.
  assert (∀ kr, kr ∈ s.(commands) → kr.1 = derived_command_id kr.2) as Hd.
  { intros kr Hkr. destruct (Hr kr Hkr) as [-> ?]. by apply row_identity. }
  assert (filter (command_selected id) s.(commands)
    = match Dict.get id s.(commands) with Some r => [(id, r)] | None => [] end) as ->.
  { rewrite <-(filter_selected derived_command_id) by done. by apply filter_iff_elem. }
  destruct (Dict.get id (commands s)) as [r|] eqn:E; [|done].
  apply Dict.get_elem, Hr in E as [Hid Hok]. simpl in *. rewrite Hok. cbn [negb].
  by rewrite decide_False by (intros Hn; by apply Hn).
Qed.
Lemma get_row s id r : ledger_ok s → Dict.get id s.(commands) = Some r → r.(cmd_id) = id ∧ command_row_ok r = true.
Proof. intros Hok H%Dict.get_elem. by destruct (lo_rows s Hok _ H). Qed.
Lemma set_command_ok s r : ledger_ok s → command_row_ok r = true → ledger_ok (set_command r s).
Proof.
  intros [Hk Hr] Hrow. split; [by apply Dict.NoDup_keys_set|].
  intros kr [->|Hin]%Dict.elem_of_set; [done|by apply Hr].
Qed.
Lemma get_set_command s r id :
  Dict.get id (commands (set_command r s)) = if decide (id = r.(cmd_id)) then Some r else Dict.get id s.(commands).
Proof. simpl. case_decide as H; [subst; apply Dict.get_set_eq|by apply Dict.get_set_ne]. Qed.

(** The rows each write makes. *)
Lemma fresh_row actor op key h req owner ttl now :
  is_ok (validate_idempotency_key key) = true → h = command_request_hash req →
  command_row_ok (fresh_command actor op key h req owner ttl now) = true.
Proof.
  intros Hk ->. unfold command_row_ok. cbn [fresh_command cmd_id cmd_request_hash cmd_request cmd_key cmd_state].
  rewrite Hk. by rewrite !bool_decide_eq_true_2 by done.
Qed.
Lemma prepared_row r : command_row_ok r = true → terminal r = false →
  r.(cmd_state) = CommandPrepared ∧ r.(cmd_response) = None ∧ is_Some r.(cmd_owner) ∧ is_Some r.(cmd_lease).
Proof.
  unfold command_row_ok, terminal. destruct (cmd_state r); [|done..].
  rewrite !andb_true_iff, !bool_decide_eq_true. tauto.
Qed.
Lemma terminal_row r : command_row_ok r = true → terminal r = true →
  is_Some r.(cmd_response) ∧ is_Some r.(cmd_plan) ∧ r.(cmd_owner) = None.
Proof.
  unfold command_row_ok, terminal. destruct (cmd_state r); [done|..];
    rewrite !andb_true_iff, !bool_decide_eq_true; tauto.
Qed.
Lemma reclaimed_row r owner ttl now : command_row_ok r = true → terminal r = false →
  command_row_ok (reclaimed owner ttl now r) = true.
Proof.
  unfold command_row_ok, terminal. destruct r as [? ? ? ? ? ? [| |]]; [|done..].
  simpl. rewrite !andb_true_iff, !bool_decide_eq_true. intros [((? & ?) & ?) [[[? ?] ?] ?]] _. by split_and!.
Qed.
Lemma planned_row r plan now : command_row_ok r = true → terminal r = false →
  command_row_ok (with_plan plan now r) = true.
Proof.
  unfold command_row_ok, terminal. destruct r as [? ? ? ? ? ? [| |]]; [|done..].
  done.
Qed.
Lemma finished_row r state response now : command_row_ok r = true → is_Some r.(cmd_plan) →
  state ≠ CommandPrepared → command_row_ok (with_terminal state response now r) = true.
Proof.
  unfold command_row_ok. destruct r. simpl. rewrite !andb_true_iff, !bool_decide_eq_true.
  intros [((? & ?) & ?) _] ? Hs. destruct state; [done|..];
    rewrite !andb_true_iff, !bool_decide_eq_true; split_and!; done || by eexists.
Qed.

(** ** The calls over a sound ledger *)
Section calls.
Context (s : ledger) (Hok : ledger_ok s).

Definition claim_answer actor op key h req owner ttl now : CommandClaimResult * ledger :=
  match Dict.get (claim_id actor op key) s.(commands) with
  | None => (mkClaimResult Claimed (Some (fresh_claim actor op key owner ttl now 1)) None,
             set_command (fresh_command actor op key h req owner ttl now) s)
  | Some r =>
      if names_another_request actor op key h req r then (mkClaimResult Conflict None (Some r), s)
      else if terminal r then (mkClaimResult Replayed None (Some r), s)
      else if lease_live now r then (mkClaimResult InProgress None (Some r), s)
      else (mkClaimResult Claimed (Some (fresh_claim actor op key owner ttl now (S r.(cmd_epoch)))) (Some r),
            set_command (reclaimed owner ttl now r) s)
  end.
Lemma claim_eq actor op key h req owner ttl now :
  claim_command actor op key h req owner ttl now s =
  match validate_idempotency_key key with
  | Raise why => (Raise (LedgerValue (InvalidKey why)), s)
  | Ok _ =>
      if decide (h ≠ command_request_hash req) then (Raise (LedgerValue RequestHashMismatch), s)
      else let '(a, s') := claim_answer actor op key h req owner ttl now in (Ok a, s')
  end.
Proof.
  unfold claim_command, claim_answer. destruct (validate_idempotency_key key) as [k|why]; [|done].
  case_decide; [done|]. unfold ledger_txn, ebind, get, lift, modify, eret.
  rewrite command_good by done. destruct (Dict.get _ _) as [r|]; [|done].
  by repeat case_match.
Qed.
Lemma fenced_eq c :
  _command_fenced c s =
  (match Dict.get c.(cc_command) s.(commands) with
   | None => Raise (LedgerDamaged (UnknownCommand c.(cc_command)))
   | Some r => if claim_matches c r then if claim_owns c r then Ok r else Raise (lost c)
               else Raise (LedgerDamaged (ClaimContradicts c.(cc_command)))
   end, s).
Proof.
  unfold _command_fenced, ebind, get, lift. rewrite command_good by done.
  destruct (Dict.get _ _) as [r|]; [|done]. by destruct (claim_matches c r), (claim_owns c r).
Qed.
(** The row a claim may write to. *)
Definition owned_row (c : CommandClaim) : option CommandRecord :=
  match Dict.get c.(cc_command) s.(commands) with
  | Some r => if claim_matches c r && claim_owns c r then Some r else None
  | None => None
  end.
Lemma owned_row_prepared c r : owned_row c = Some r →
  Dict.get c.(cc_command) s.(commands) = Some r ∧ terminal r = false ∧ r.(cmd_epoch) = c.(cc_epoch) ∧
  r.(cmd_owner) = Some c.(cc_owner).
Proof.
  unfold owned_row. destruct (Dict.get _ _) as [r'|]; [|done]. unfold claim_owns, terminal.
  destruct (claim_matches c r'); [|done]. cbn [andb]. destruct (_ && _) eqn:E; [|done]. intros [= <-].
  rewrite !andb_true_iff, !bool_decide_eq_true in E. destruct E as [[Hs Ho] He].
  split; [done|]. by rewrite bool_decide_eq_true_2.
Qed.
Lemma plan_eq c plan now : plan ≠ JNull →
  match owned_row c with
  | None => ∃ e, store_command_plan c plan now s = (Raise e, s)
  | Some r =>
      store_command_plan c plan now s =
      match r.(cmd_plan) with
      | Some stored => (if same_json stored plan then Ok tt else Raise (LedgerDamaged (DifferentPlan c.(cc_command))), s)
      | None => match plan_guards (with_plan plan now r) with
                | Ok _ => (Ok tt, set_command (with_plan plan now r) s)
                | Raise e => (Raise e, s)
                end
      end
  end.
Proof.
  intros Hp. unfold store_command_plan, owned_row. rewrite decide_False by done.
  unfold ledger_txn, ebind. rewrite fenced_eq. destruct (Dict.get _ _) as [r|]; [|by eexists].
  destruct (claim_matches c r); cbn [andb]; [|by eexists]. destruct (claim_owns c r); [|by eexists].
  unfold modify, lift. destruct (cmd_plan r) as [stored|]; [by destruct (same_json stored plan)|].
  unfold ledger_txn. by destruct (plan_guards _) as [[]|].
Qed.
Lemma terminal_eq c response state now : response ≠ JNull → state ≠ CommandPrepared →
  _terminal_command c response state now s =
  match Dict.get c.(cc_command) s.(commands) with
  | None => (Raise (LedgerDamaged (UnknownCommand c.(cc_command))), s)
  | Some r =>
      match (if decide (state = CommandRejected) then _domain_fact_owned_by s r.(cmd_id) else None) with
      | Some fact => (Raise (LedgerDamaged (RejectedAfterFact c.(cc_command) fact)), s)
      | None =>
          if terminal r then
            (if bool_decide (r.(cmd_state) = state) && same_response r response then Ok r
             else Raise (LedgerDamaged (DifferentTerminal c.(cc_command))), s)
          else if negb (claim_matches c r) then (Raise (LedgerDamaged (ClaimContradicts c.(cc_command))), s)
          else if negb (claim_owns c r) then (Raise (lost c), s)
          else match r.(cmd_plan) with
               | None => (Raise (LedgerDamaged (NoImmutablePlan c.(cc_command))), s)
               | Some _ => (Ok (with_terminal state response now r), set_command (with_terminal state response now r) s)
               end
      end
  end.
Proof.
  intros Hr Hs. unfold _terminal_command. rewrite decide_False by done.
  unfold ledger_txn. unfold ebind at 1, get at 1. unfold ebind at 1, lift at 1. rewrite command_good by done.
  destruct (Dict.get (cc_command c) (commands s)) as [r|] eqn:E; [|done].
  destruct (if decide _ then _ else _); [done|]. destruct (terminal r) eqn:Et; [by destruct (bool_decide _ && _)|].
  unfold ebind at 1. rewrite fenced_eq, E. destruct (claim_matches c r); [|done]. cbn [negb].
  destruct (claim_owns c r); [|done]. cbn [negb]. by destruct (cmd_plan r).
Qed.
End calls.

(** ** Records move forward *)
Record evolves (r r' : CommandRecord) : Prop := {
  ev_id : r'.(cmd_id) = r.(cmd_id);
  ev_actor : r'.(cmd_actor) = r.(cmd_actor);
  ev_operation : r'.(cmd_operation) = r.(cmd_operation);
  ev_key : r'.(cmd_key) = r.(cmd_key);
  ev_hash : r'.(cmd_request_hash) = r.(cmd_request_hash);
  ev_request : r'.(cmd_request) = r.(cmd_request);
  ev_created : r'.(cmd_created) = r.(cmd_created);
  ev_epoch : r.(cmd_epoch) ≤ r'.(cmd_epoch);
  ev_owner : r'.(cmd_epoch) = r.(cmd_epoch) → terminal r' = false → r'.(cmd_owner) = r.(cmd_owner);
  ev_plan p : r.(cmd_plan) = Some p → r'.(cmd_plan) = Some p;
  ev_terminal : terminal r = true → r' = r;
}.
#[export] Instance evolves_preorder : PreOrder evolves.
Proof.
  split; [by intros r; split|]. intros a b c H K. pose proof (ev_epoch _ _ H). pose proof (ev_epoch _ _ K).
  split; [etrans; [apply K|apply H]..|lia| | |].
  - intros He Ht. destruct (terminal b) eqn:Eb; [by rewrite (ev_terminal _ _ K Eb), Eb in Ht|].
    rewrite (ev_owner _ _ K ltac:(lia) Ht). apply (ev_owner _ _ H); [lia|done].
  - intros p Hp. by apply (ev_plan _ _ K), (ev_plan _ _ H).
  - intros Ha. pose proof (ev_terminal _ _ H Ha) as ->. by apply (ev_terminal _ _ K).
Qed.
Definition ledger_le (s s' : ledger) : Prop :=
  (∀ id r, Dict.get id s.(commands) = Some r → ∃ r', Dict.get id s'.(commands) = Some r' ∧ evolves r r') ∧
  ∀ id fact, Dict.get id s.(owned) = Some fact → Dict.get id s'.(owned) = Some fact.
#[export] Instance ledger_le_preorder : PreOrder ledger_le.
Proof.
  split; [intros s; split; [intros id r Hr; by exists r|done]|]. intros a b c [H Hf] [K Kf]. split; [|auto].
  intros id r (r1 & H1 & He1)%H. destruct (K _ _ H1) as (r2 & H2 & He2). exists r2. split; [done|by etrans].
Qed.

(** A lawful write to one row. *)
Inductive lstep (s : ledger) : ledger → Prop :=
| lstep_claim r : Dict.get r.(cmd_id) s.(commands) = None → command_row_ok r = true → terminal r = false →
    r.(cmd_plan) = None → r.(cmd_epoch) = 1 → lstep s (set_command r s)
| lstep_reclaim r owner ttl now : Dict.get r.(cmd_id) s.(commands) = Some r → terminal r = false →
    lease_live now r = false → lstep s (set_command (reclaimed owner ttl now r) s)
| lstep_plan r plan now : Dict.get r.(cmd_id) s.(commands) = Some r → terminal r = false →
    r.(cmd_plan) = None → plan_guards (with_plan plan now r) = Ok tt → lstep s (set_command (with_plan plan now r) s)
| lstep_terminal r state response now : Dict.get r.(cmd_id) s.(commands) = Some r → terminal r = false →
    is_Some r.(cmd_plan) → state ≠ CommandPrepared →
    (state = CommandRejected → Dict.get r.(cmd_id) s.(owned) = None) →
    lstep s (set_command (with_terminal state response now r) s)
| lstep_fact id fact r : Dict.get id s.(owned) = None → Dict.get id s.(commands) = Some r → terminal r = false →
    lstep s (mkLedger s.(commands) (s.(owned) ++ [(id, fact)])).
Lemma lstep_ok s s' : lstep s s' → ledger_ok s → ledger_ok s'.
Proof.
  destruct 1 as [r Hn Hr|r o t n Hr Ht Hl|r p n Hr Ht Hp|r st re n Hr Ht Hp Hs|id f x Hf Hx Ht]; intros Hok;
    try (apply set_command_ok; [done|]); try (apply get_row in Hr as [_ Hr]; [|done]).
  - done.
  - by apply reclaimed_row.
  - by apply planned_row.
  - by apply finished_row.
  - by destruct Hok.
Qed.
Lemma set_command_le s r r' : Dict.get r.(cmd_id) s.(commands) = Some r → evolves r r' →
  ledger_le s (set_command r' s).
Proof.
  intros Hr He. split; [|done]. intros id x Hx. rewrite get_set_command, (ev_id _ _ He). case_decide as H.
  - subst. rewrite Hr in Hx. injection Hx as <-. by exists r'.
  - by exists x.
Qed.
Lemma reclaimed_evolves r o t n : terminal r = false → evolves r (reclaimed o t n r).
Proof. intros Ht. split; try done; simpl; [lia|lia|]. by rewrite Ht. Qed.
Lemma planned_evolves r p n : terminal r = false → r.(cmd_plan) = None → evolves r (with_plan p n r).
Proof. intros Ht Hp. split; try done; simpl; [congruence|]. by rewrite Ht. Qed.
Lemma finished_evolves r st re n : terminal r = false → st ≠ CommandPrepared → evolves r (with_terminal st re n r).
Proof. intros Ht Hs. split; try done; simpl; [|by rewrite Ht]. unfold terminal. simpl. by destruct st. Qed.
Lemma lstep_le s s' : lstep s s' → ledger_le s s'.
Proof.
  destruct 1 as [r Hn Hr|r o t n Hr Ht Hl|r p n Hr Ht Hp|r st re n Hr Ht Hp Hs|id f x Hf Hx Ht].
  - split; [|done]. intros id x Hx. rewrite get_set_command. case_decide; [subst; congruence|by exists x].
  - by eapply set_command_le, reclaimed_evolves.
  - by eapply set_command_le, planned_evolves.
  - by eapply set_command_le, finished_evolves.
  - split; [intros i r Hr; by exists r|]. intros i g Hg. by apply Dict.get_app_l.
Qed.
Lemma lsteps_ok s s' : rtc lstep s s' → ledger_ok s → ledger_ok s'.
Proof. induction 1; eauto using lstep_ok. Qed.
Lemma lsteps_le s s' : rtc lstep s s' → ledger_le s s'.
Proof. induction 1 as [|s s1 s2 H _ IH]; [done|]. etrans; [by apply lstep_le|done]. Qed.

(** A rejection says that nothing was written. *)
Definition refusals_clean (s : ledger) : Prop :=
  ∀ id r, Dict.get id s.(commands) = Some r → r.(cmd_state) = CommandRejected → Dict.get id s.(owned) = None.
Lemma lstep_clean s s' : lstep s s' → ledger_ok s → refusals_clean s → refusals_clean s'.
Proof.
  intros Hstep Hok Hc id x. destruct Hstep as [r Hn Hr Ht|r o t n Hr Ht Hl|r p n Hr Ht Hp|r st re n Hr Ht Hp Hs Hf|i f y Hf Hy Ht].
  5: { simpl. intros Hx Hrej. destruct (decide (id = i)) as [->|Hne].
       - rewrite Hy in Hx. injection Hx as ->. unfold terminal in Ht. by rewrite Hrej in Ht.
       - rewrite <-Dict.set_fresh by (by apply Dict.get_None). rewrite Dict.get_set_ne by done. by apply (Hc id x). }
  all: rewrite get_set_command; case_decide as Hid; [|by apply Hc]; intros [= <-]; simpl; subst;
    try (intros Hrej; unfold terminal in Ht; rewrite Hrej in Ht; done).
  intros ->. by apply Hf.
Qed.
Definition ledger_good (s : ledger) : Prop := ledger_ok s ∧ refusals_clean s.
Lemma ledger_good_new : ledger_good new_ledger.
Proof. split; [apply ledger_ok_new|done]. Qed.
Lemma lsteps_good s s' : rtc lstep s s' → ledger_good s → ledger_good s'.
Proof.
  induction 1 as [|s s1 s2 H _ IH]; [done|]. intros [Hok Hc]. apply IH. split; [by eapply lstep_ok|by eapply lstep_clean].
Qed.

(** ** Histories *)

(** A domain fact is written under the fence of the command that plans it. *)
Definition record_fact (c : CommandClaim) (fact : string) : L unit := ledger_txn (
  let* r := _command_fenced c in
  let* s := get in
  match Dict.get r.(cmd_id) s.(owned) with
  | Some _ => eret tt
  | None => modify (λ s, mkLedger s.(commands) (s.(owned) ++ [(r.(cmd_id), fact)]))
  end).
Inductive lcall :=
| LClaim (actor : AuthenticatedActor) (operation key : string) (request_hash : Digest) (request : json)
    (owner : string) (ttl now : Z)
| LPlan (c : CommandClaim) (plan : json) (now : Z)
| LComplete (c : CommandClaim) (response : json) (now : Z)
| LReject (c : CommandClaim) (response : json) (now : Z)
| LFact (c : CommandClaim) (fact : string).
Inductive lanswer := AnswerClaim (r : CommandClaimResult) | AnswerRecord (r : CommandRecord) | AnswerUnit.
Definition run_lcall (c : lcall) : L lanswer :=
  match c with
  | LClaim actor op key h req owner ttl now =>
      let* r := claim_command actor op key h req owner ttl now in eret (AnswerClaim r)
  | LPlan c plan now => store_command_plan c plan now;;; eret AnswerUnit
  | LComplete c response now => let* r := complete_command c response now in eret (AnswerRecord r)
  | LReject c response now => let* r := reject_command c response now in eret (AnswerRecord r)
  | LFact c fact => record_fact c fact;;; eret AnswerUnit
  end.
Definition run_lcalls (cs : list lcall) (s : ledger) : ledger := foldl (λ s c, (run_lcall c s).2) s cs.

Section step.
Context (s : ledger) (Hok : ledger_ok s).
Lemma claim_step actor op key h req owner ttl now r s' :
  claim_command actor op key h req owner ttl now s = (r, s') → s' = s ∨ lstep s s'.
Proof.
  rewrite (claim_eq s Hok). destruct (validate_idempotency_key key) as [k|why] eqn:Ek; [|intros [= _ <-]; by left].
  case_decide as Hh; [intros [= _ <-]; by left|]. unfold claim_answer.
  destruct (Dict.get _ _) as [x|] eqn:Ex.
  - destruct (names_another_request _ _ _ _ _ _); [intros [= _ <-]; by left|].
    destruct (terminal x) eqn:Et; [intros [= _ <-]; by left|].
    destruct (lease_live now x) eqn:El; [intros [= _ <-]; by left|]. intros [= _ <-]. right.
    apply get_row in Ex as Hx; [|done]. destruct Hx as [Hid _].
    apply lstep_reclaim; [by rewrite Hid|done..].
  - intros [= _ <-]. right. apply lstep_claim; try done. apply fresh_row; [by rewrite Ek|done].
Qed.
Lemma plan_step c plan now r s' : store_command_plan c plan now s = (r, s') → s' = s ∨ lstep s s'.
Proof.
  intros E. destruct (decide (plan = JNull)) as [->|Hp].
  { unfold store_command_plan in E. rewrite decide_True in E by done. injection E as _ <-. by left. }
  pose proof (plan_eq s Hok c plan now Hp) as H. destruct (owned_row s c) as [x|] eqn:Ex.
  2: { destruct H as [e H]. rewrite H in E. injection E as _ <-. by left. }
  rewrite H in E. apply owned_row_prepared in Ex as (Hx & Ht & _). apply get_row in Hx as Hr; [|done].
  destruct Hr as [Hid _]. destruct (cmd_plan x) eqn:Ep; [injection E as _ <-; by left|].
  destruct (plan_guards _) as [[]|e] eqn:Eg; injection E as _ <-; [right|by left].
  apply lstep_plan; [by rewrite Hid|done..].
Qed.
Lemma terminal_step c response state now r s' : state ≠ CommandPrepared →
  _terminal_command c response state now s = (r, s') → s' = s ∨ lstep s s'.
Proof.
  intros Hs E. destruct (decide (response = JNull)) as [->|Hr].
  { unfold _terminal_command in E. rewrite decide_True in E by done. injection E as _ <-. by left. }
  rewrite (terminal_eq s Hok) in E by done.
  destruct (Dict.get _ _) as [x|] eqn:Ex; [|injection E as _ <-; by left].
  apply get_row in Ex as Hx; [|done]. destruct Hx as [Hid _].
  destruct (if decide (state = CommandRejected) then _ else _) eqn:Ef; [injection E as _ <-; by left|].
  destruct (terminal x) eqn:Et; [injection E as _ <-; by left|].
  destruct (negb (claim_matches c x)); [injection E as _ <-; by left|].
  destruct (negb (claim_owns c x)); [injection E as _ <-; by left|].
  destruct (cmd_plan x) eqn:Ep; [|injection E as _ <-; by left]. injection E as _ <-. right.
  apply lstep_terminal; [by rewrite Hid|done|by eexists|done|]. intros Hrej. by rewrite decide_True in Ef.
Qed.
Lemma fact_eq c fact :
  match owned_row s c with
  | None => ∃ e, record_fact c fact s = (Raise e, s)
  | Some r => record_fact c fact s =
      (Ok tt, match Dict.get c.(cc_command) s.(owned) with
              | Some _ => s
              | None => mkLedger s.(commands) (s.(owned) ++ [(c.(cc_command), fact)])
              end)
  end.
Proof.
  pose proof (fenced_eq s Hok c) as Hf. unfold owned_row.
  destruct (Dict.get (cc_command c) (commands s)) as [r|] eqn:E.
  2: { eexists. unfold record_fact, ledger_txn, ebind. by rewrite Hf. }
  apply get_row in E as [Hid _]; [|done].
  destruct (claim_matches c r); cbn [andb]; [|eexists; unfold record_fact, ledger_txn, ebind; by rewrite Hf].
  destruct (claim_owns c r); [|eexists; unfold record_fact, ledger_txn, ebind; by rewrite Hf].
  unfold record_fact, ledger_txn, ebind. rewrite Hf. unfold get. rewrite Hid. by destruct (Dict.get _ _).
Qed.
Lemma fact_step c fact r s' : record_fact c fact s = (r, s') → s' = s ∨ lstep s s'.
Proof.
  intros E. pose proof (fact_eq c fact) as H. destruct (owned_row s c) as [x|] eqn:Ex.
  - rewrite E in H. injection H as _ ->. destruct (Dict.get _ _) eqn:Ef; [by left|right].
    apply owned_row_prepared in Ex as (Hx & Ht & _). by apply lstep_fact with x.
  - destruct H as [e H]. rewrite H in E. injection E as _ <-. by left.
Qed.
End step.
Lemma ebind_state {S E A B} (m : eff S E A) (f : A → B) s :
  (ebind m (λ x, eret (f x)) s).2 = (m s).2.
Proof. unfold ebind, eret. by destruct (m s) as [[]]. Qed.
Lemma lcall_step c s : ledger_ok s → (run_lcall c s).2 = s ∨ lstep s (run_lcall c s).2.
Proof.
  intros Hok. destruct c as [a op k h req o t n|c p n|c p n|c p n|c f]; simpl.
  - rewrite (ebind_state _ AnswerClaim). destruct (claim_command _ _ _ _ _ _ _ _ _) as [r s'] eqn:E.
    simpl. by eapply claim_step.
  - rewrite (ebind_state _ (λ _, AnswerUnit)). destruct (store_command_plan _ _ _ _) as [r s'] eqn:E.
    simpl. by eapply plan_step.
  - rewrite (ebind_state _ AnswerRecord). destruct (complete_command _ _ _ _) as [r s'] eqn:E.
    simpl. by eapply terminal_step in E.
  - rewrite (ebind_state _ AnswerRecord). destruct (reject_command _ _ _ _) as [r s'] eqn:E.
    simpl. by eapply terminal_step in E.
  - rewrite (ebind_state _ (λ _, AnswerUnit)). destruct (record_fact _ _ _) as [r s'] eqn:E.
    simpl. by eapply fact_step.
Qed.
Lemma lcalls_steps cs s : ledger_ok s → rtc lstep s (run_lcalls cs s).
Proof.
  revert s. induction cs as [|c cs IH]; intros s Hok; [done|]. simpl.
  destruct (lcall_step c s Hok) as [->|H]; [by apply IH|].
  eapply rtc_l; [exact H|]. apply IH. by eapply lstep_ok.
Qed.
Lemma run_lcalls_app cs cs' s : run_lcalls (cs ++ cs') s = run_lcalls cs' (run_lcalls cs s).
Proof. apply foldl_app. Qed.
Lemma lhistory_good cs : ledger_good (run_lcalls cs new_ledger).
Proof. eapply lsteps_good; [apply lcalls_steps, ledger_ok_new|apply ledger_good_new]. Qed.
