(* ===== verification/LedgerLaws.v ===== *)
(** The laws of the command ledger ([Ledger]): a command is decided once, a
    live claim is exclusive and a superseded one is powerless, and the in-memory
    store is a faithful double of the durable one. *)

From S2P Require Import Prelude Identity Address Run Effect JournalSpec Control Ledger LedgerSpec.

(** ** A ledger on which the theorems are exercised *)
Module Commanded.
Definition operator : AuthenticatedActor :=
  mkActor "static:operator" AuthStatic [OPERATE_SCOPE; PROMOTE_SCOPE] None None None None.
Definition request : json := JObj [("component", JStr "start")].
Definition hash : Digest := Eval vm_compute in command_request_hash request.
Definition first_id : string := Eval vm_compute in command_id_for "static:operator" "registry_rollback" "key-1".
Definition claim (owner : string) (now : Z) : lcall :=
  LClaim operator "registry_rollback" "key-1" hash request owner 30 now.
Definition token (owner : string) (epoch : nat) (expires : Z) : CommandClaim :=
  mkClaim first_id "static:operator" "registry_rollback" owner epoch expires.
Definition plan : json :=
  JObj [("schema_version", JInt 1);
        ("plan", JObj [("kind", JStr "rollback"); ("terminal_rejection_policy", JStr "exact-v1")])].
Definition response : json := JObj [("status", JStr "rolled_back")].
(** One worker plans and dies; another reclaims and finishes. *)
Definition planned : list lcall := [claim "a" 0; LPlan (token "a" 1 30) plan 1].
Definition finished : list lcall := [claim "b" 40; LComplete (token "b" 2 70) response 41].
Example planned_as_claimed :
  Dict.get first_id (run_lcalls planned new_ledger).(commands)
  = Some (with_plan plan 1 (fresh_command operator "registry_rollback" "key-1" hash request "a" 30 0)).
Proof. vm_compute. reflexivity. Qed.
Example finished_as_answered :
  Dict.get first_id (run_lcalls (planned ++ finished) new_ledger).(commands)
  = Some (with_terminal CommandCommitted response 41 (reclaimed "b" 30 40
      (with_plan plan 1 (fresh_command operator "registry_rollback" "key-1" hash request "a" 30 0)))).
Proof. vm_compute. reflexivity. Qed.
End Commanded.

(** ** Decided once *)
Definition read (id : string) (s : ledger) : option CommandRecord :=
  match (command id s).1 with Ok r => r | Raise _ => None end.
Lemma read_good id s : ledger_ok s → (command id s).1 = Ok (Dict.get id s.(commands)) ∧ read id s = Dict.get id s.(commands).
Proof. intros Hok. unfold read, command, ebind, get, lift. by rewrite (command_good s id Hok). Qed.

(** C30: A command is decided once: in every history of the durable ledger a record read under
    an identity derives that identity from its actor, operation and key and its hash from its
    request, a terminal one carries its plan and its answer, a rejected one has none of the
    domain facts the ledger consults (approvals, channel and resume facts, capability
    disposals) recorded under it, and whatever is called later the record keeps its request,
    its plan once it has one, and everything once it is terminal, while its epoch never
    decreases. Pointer moves are not such facts: see late_move_refused. *)
Theorem commands_are_decided_once cs later id r :
  let s := run_lcalls cs new_ledger in
  let s' := run_lcalls (cs ++ later) new_ledger in
  read id s = Some r →
  (* every redundant identity of the row holds, and a rejection has no domain fact
     recorded under it *)
  r.(cmd_id) = id ∧ derived_command_id r = id ∧ r.(cmd_request_hash) = command_request_hash r.(cmd_request) ∧
  (terminal r = true → is_Some r.(cmd_plan) ∧ is_Some r.(cmd_response)) ∧
  (r.(cmd_state) = CommandRejected → Dict.get id s.(owned) = None) ∧
  (* and whatever anyone calls later, it only moves forward *)
  ∃ r', read id s' = Some r' ∧
    r'.(cmd_actor) = r.(cmd_actor) ∧ r'.(cmd_operation) = r.(cmd_operation) ∧ r'.(cmd_key) = r.(cmd_key) ∧
    r'.(cmd_request) = r.(cmd_request) ∧ r'.(cmd_created) = r.(cmd_created) ∧
    r.(cmd_epoch) ≤ r'.(cmd_epoch) ∧
    (∀ p, r.(cmd_plan) = Some p → r'.(cmd_plan) = Some p) ∧
    (terminal r = true → r' = r).
Proof.
  intros s s' Hr. pose proof (lhistory_good cs) as [Hok Hcl]. fold s in Hok, Hcl.
  rewrite (proj2 (read_good id s Hok)) in Hr. destruct (get_row s id r Hok Hr) as [Hid Hrow].
  pose proof (row_identity r Hrow) as Hd.
  assert (rtc lstep s s') as Hsteps by (unfold s'; rewrite run_lcalls_app; by apply lcalls_steps).
  destruct (lsteps_le _ _ Hsteps) as [Hle _]. destruct (Hle id r Hr) as (r' & Hr' & He).
  split; [done|]. split; [congruence|]. split.
  { unfold command_row_ok in Hrow. rewrite !andb_true_iff, !bool_decide_eq_true in Hrow. tauto. }
  split; [by intros Ht; destruct (terminal_row r Hrow Ht) as (? & ? & _)|]. split; [by apply Hcl|].
  exists r'. rewrite (proj2 (read_good id s' (lsteps_ok _ _ Hsteps Hok))). destruct He. by split_and!.
Qed.
Lemma commands_are_decided_once_witness :
  let s' := run_lcalls (Commanded.planned ++ Commanded.finished) new_ledger in
  ∃ r', read Commanded.first_id s' = Some r' ∧ r'.(cmd_plan) = Some Commanded.plan.
Proof.
  pose proof (commands_are_decided_once Commanded.planned Commanded.finished Commanded.first_id) as H.
  cbv zeta in H. unfold read at 1 in H. pose proof Commanded.planned_as_claimed as Hp.
  pose proof (proj1 (read_good Commanded.first_id _ (proj1 (lhistory_good Commanded.planned)))) as Hc.
  rewrite Hc, Hp in H.
  destruct (H _ eq_refl) as (_ & _ & _ & _ & _ & r' & Hr' & _ & _ & _ & _ & _ & _ & Hplan & _).
  exists r'. split; [exact Hr'|]. exact (Hplan Commanded.plan eq_refl).
Defined.

(** ** Claims fence *)
Lemma not_owned_silent s c : ledger_ok s → owned_row s c = None →
  (∀ plan now, is_ok (store_command_plan c plan now s).1 = false ∧ (store_command_plan c plan now s).2 = s) ∧
  (∀ state response now, state ≠ CommandPrepared →
     (_terminal_command c response state now s).2 = s ∧
     ∀ r, (_terminal_command c response state now s).1 = Ok r →
       Dict.get c.(cc_command) s.(commands) = Some r ∧ r.(cmd_state) = state ∧ same_response r response = true).
Proof.
  intros Hok Hn. split.
  - intros plan now. destruct (decide (plan = JNull)) as [->|Hp].
    { unfold store_command_plan. by rewrite decide_True. }
    pose proof (plan_eq s Hok c plan now Hp) as H. rewrite Hn in H. by destruct H as [e ->].
  - intros state response now Hs. destruct (decide (response = JNull)) as [->|Hr].
    { unfold _terminal_command. by rewrite decide_True. }
    rewrite (terminal_eq s Hok) by done. unfold owned_row in Hn.
    destruct (Dict.get (cc_command c) (commands s)) as [x|]; [|done].
    destruct (if decide (state = CommandRejected) then _ else _); [done|].
    destruct (terminal x); [|destruct (claim_matches c x), (claim_owns c x); done].
    destruct (bool_decide (cmd_state x = state)) eqn:Es; [|done].
    destruct (same_response x response) eqn:Ex; [|done]. split; [done|]. intros r [= <-].
    by apply bool_decide_eq_true in Es.
Qed.

Lemma superseded_not_owned s c r : Dict.get c.(cc_command) s.(commands) = Some r →
  c.(cc_epoch) < r.(cmd_epoch) → owned_row s c = None.
Proof.
  intros Hr He. unfold owned_row. rewrite Hr. unfold claim_owns.
  rewrite (bool_decide_eq_false_2 (cmd_epoch r = cc_epoch c)) by lia. by rewrite !andb_false_r.
Qed.

(** C31: Command claims are exclusive and fence: while the lease of a granted claim is live
    nobody else is granted the command and it keeps it, and once another claim of the command
    is granted, after any further calls the superseded claim stores no plan and records no
    answer; it can at most be told the very answer already recorded. *)
Theorem superseded_claims_write_nothing cs later c actor op key h req owner ttl now :
  let s := run_lcalls cs new_ledger in
  let rival := LClaim actor op key h req owner ttl now in
  let s2 := run_lcalls (cs ++ rival :: later) new_ledger in
  c.(cc_command) = claim_id actor op key →
  is_Some (owned_row s c) →
  ∀ a, (claim_command actor op key h req owner ttl now s).1 = Ok a →
  (* while its lease is live nobody else is granted the command, and it keeps it *)
  (∀ r, read c.(cc_command) s = Some r → lease_live now r = true →
     a.(claim_outcome) ∈ [Conflict; InProgress] ∧
     owned_row (run_lcalls (cs ++ [rival]) new_ledger) c = owned_row s c) ∧
  (* once another claim is granted this one writes nothing, ever *)
  (a.(claim_outcome) = Claimed →
     (∀ plan now, is_ok (store_command_plan c plan now s2).1 = false ∧ (store_command_plan c plan now s2).2 = s2) ∧
     (∀ response now, (complete_command c response now s2).2 = s2 ∧ (reject_command c response now s2).2 = s2) ∧
     ∀ response now r, (complete_command c response now s2).1 = Ok r ∨ (reject_command c response now s2).1 = Ok r →
       read c.(cc_command) s2 = Some r ∧ terminal r = true ∧ same_response r response = true).
Proof.
  intros s rival s2 Hid [x Hx] a Ha. pose proof (lhistory_good cs) as [Hok _]. fold s in Hok.
  pose proof (owned_row_prepared s c x Hx) as (Hr & Ht & He & _).
  rewrite (claim_eq s Hok) in Ha. unfold claim_answer in Ha. rewrite <-Hid, Hr, Ht in Ha.
  assert (run_lcalls (cs ++ [rival]) new_ledger = (claim_command actor op key h req owner ttl now s).2) as Hs1.
  { rewrite run_lcalls_app. fold s. simpl. by rewrite (ebind_state _ AnswerClaim). }
  rewrite (claim_eq s Hok) in Hs1. unfold claim_answer in Hs1. rewrite <-Hid, Hr, Ht in Hs1.
  destruct (validate_idempotency_key key) as [k|]; [|done]. case_decide; [done|].
  rewrite (proj2 (read_good _ s Hok)), Hr. destruct (names_another_request _ _ _ _ _ x).
  { injection Ha as <-. split; [|done]. intros ? _ _. split; [set_solver|]. by rewrite Hs1. }
  destruct (lease_live now x) eqn:El.
  { injection Ha as <-. split; [|done]. intros ? _ _. split; [set_solver|]. by rewrite Hs1. }
  injection Ha as <-. split; [intros ? [= <-]; congruence|]. intros _.
  assert (rtc lstep (run_lcalls (cs ++ [rival]) new_ledger) s2) as Hsteps.
  { unfold s2. change (cs ++ rival :: later) with (cs ++ [rival] ++ later).
    rewrite (app_assoc cs [rival] later), (run_lcalls_app (cs ++ [rival])).
    apply lcalls_steps, lhistory_good. }
  pose proof (lhistory_good (cs ++ rival :: later)) as [Hok2 _]. fold s2 in Hok2.
  destruct (lsteps_le _ _ Hsteps) as [Hle _]. rewrite Hs1 in Hle.
  destruct (get_row s _ _ Hok Hr) as [Hidx _].
  destruct (Hle (cc_command c) (reclaimed owner ttl now x)) as (r2 & Hr2 & Hev).
  { cbn [snd]. rewrite get_set_command. by rewrite decide_True. }
  assert (owned_row s2 c = None) as Hn.
  { eapply superseded_not_owned; [exact Hr2|]. pose proof (ev_epoch _ _ Hev). simpl in *. lia. }
  destruct (not_owned_silent s2 c Hok2 Hn) as [Hp Hq]. split; [exact Hp|]. split.
  - intros response n. split; by apply Hq.
  - intros response n r. rewrite (proj2 (read_good _ s2 Hok2)).
    intros [Hc|Hc]; (apply Hq in Hc as (Hg & Hst & Hsr); [|done]); split_and!; try done; unfold terminal; by rewrite Hst.
Qed.
Lemma superseded_claims_write_nothing_witness :
  let s2 := run_lcalls (Commanded.planned ++ [Commanded.claim "b" 40]) new_ledger in
  (complete_command (Commanded.token "a" 1 30) Commanded.response 42 s2).2 = s2.
Proof.
  assert (is_Some (owned_row (run_lcalls Commanded.planned new_ledger) (Commanded.token "a" 1 30))) as Ho.
  { unfold owned_row. change (cc_command (Commanded.token "a" 1 30)) with Commanded.first_id.
    rewrite Commanded.planned_as_claimed. exists (with_plan Commanded.plan 1 (fresh_command Commanded.operator
      "registry_rollback" "key-1" Commanded.hash Commanded.request "a" 30 0)). reflexivity. }
  pose proof (superseded_claims_write_nothing Commanded.planned [] (Commanded.token "a" 1 30) Commanded.operator
    "registry_rollback" "key-1" Commanded.hash Commanded.request "b" 30 40
    ltac:(vm_compute; reflexivity) Ho) as H.
  assert (∃ a, (claim_command Commanded.operator "registry_rollback" "key-1" Commanded.hash Commanded.request "b" 30 40
    (run_lcalls Commanded.planned new_ledger)).1 = Ok a ∧ a.(claim_outcome) = Claimed) as (a & Ha & Hc).
  { eexists. split; vm_compute; reflexivity. }
  destruct (H a Ha) as [_ Hn]. destruct (Hn Hc) as (_ & Hw & _).
  exact (proj1 (Hw Commanded.response 42%Z)).
Defined.

(** ** The in-memory double *)
Section double.
Import Double.
(** What the double and the durable ledger hold in common: the same rows, and
    the approvals as the facts a rejection would contradict. *)
Record mirrors (d : double) (s : ledger) : Prop := {
  mi_rows : d.(d_commands) = s.(commands);
  mi_facts : d.(d_approvals) = s.(owned);
  mi_kinds : ∀ id fact, Dict.get id s.(owned) = Some fact → fact = "an approval";
}.
Definition record_approval (c : CommandClaim) : D unit :=
  let* r := _fenced c in
  let* s := get in
  match Dict.get r.(cmd_id) s.(d_approvals) with
  | Some _ => eret tt
  | None => modify (λ s, mkDouble s.(d_commands) (s.(d_approvals) ++ [(r.(cmd_id), "an approval")]))
  end.
Definition run_dcall (c : lcall) : D lanswer :=
  match c with
  | LClaim actor op key h req owner ttl now =>
      let* r := Double.claim_command actor op key h req owner ttl now in eret (AnswerClaim r)
  | LPlan c plan now => Double.store_command_plan c plan now;;; eret AnswerUnit
  | LComplete c response now => let* r := Double.complete_command c response now in eret (AnswerRecord r)
  | LReject c response now => let* r := Double.reject_command c response now in eret (AnswerRecord r)
  | LFact c _ => record_approval c;;; eret AnswerUnit
  end.
Definition run_dcalls (cs : list lcall) (d : double) : double := foldl (λ d c, (run_dcall c d).2) d cs.
Definition approvals_only (c : lcall) : bool :=
  match c with LFact _ fact => bool_decide (fact = "an approval") | _ => true end.
(** The durable ledger hands back the record a reclaim found, the double the one
    it leaves: the callers of a granted claim read neither. *)
Definition seen (a : result lexn lanswer) : result lexn lanswer :=
  match a with
  | Ok (AnswerClaim r) =>
      if decide (r.(claim_outcome) = Claimed) then Ok (AnswerClaim (mkClaimResult Claimed r.(claimed) None)) else a
  | _ => a
  end.
Lemma detached_row r : command_row_ok r = true → _detached_command r = Ok r.
Proof.
  intros Hr. unfold _detached_command. destruct (terminal r) eqn:Et; [|done].
  destruct (terminal_row r Hr Et) as (_ & [p ->] & _). done.
Qed.
Lemma put_mirrors d s r : mirrors d s → mirrors (put r d) (set_command r s).
Proof. intros [Hr Hf Hk]. split; [|done..]. simpl. by rewrite Hr. Qed.
Lemma double_fenced d s c : mirrors d s → ledger_ok s → (_fenced c d).1 = (_command_fenced c s).1 ∧ (_fenced c d).2 = d.
Proof.
  intros [Hr _ _] Hok. rewrite (fenced_eq s Hok). unfold _fenced, ebind, get. rewrite Hr.
  destruct (Dict.get _ _) as [r|]; [|done]. by destruct (claim_matches c r), (claim_owns c r).
Qed.
Lemma fenced_row s c r : ledger_ok s → (_command_fenced c s).1 = Ok r → owned_row s c = Some r.
Proof.
  intros Hok. rewrite (fenced_eq s Hok). unfold owned_row. destruct (Dict.get _ _) as [x|]; [|done]. cbn [fst].
  destruct (claim_matches c x); [|done]. by destruct (claim_owns c x); [intros [= ->]|].
Qed.

Lemma double_claim d s actor op key h req owner ttl now : mirrors d s → ledger_ok s →
  let a := run_dcall (LClaim actor op key h req owner ttl now) d in
  let b := run_lcall (LClaim actor op key h req owner ttl now) s in
  seen a.1 = seen b.1 ∧ mirrors a.2 b.2.
Proof.
  intros Hm Hok. pose proof Hm as [Hr _ _]. cbn [run_dcall run_lcall].
  unfold ebind. rewrite (claim_eq s Hok). unfold Double.claim_command, claim_answer.
  destruct (validate_idempotency_key key) as [k|] eqn:Ek; [|done]. case_decide as Hh; [done|].
  unfold ebind, get. rewrite Hr. destruct (Dict.get _ _) as [r|] eqn:E.
  - apply get_row in E as [_ Hrow]; [|done]. pose proof (detached_row r Hrow) as Hd. unfold lift, modify, eret.
    destruct (names_another_request _ _ _ _ _ r); [by rewrite Hd|].
    destruct (terminal r) eqn:Et; [by rewrite Hd|]. destruct (lease_live now r); [by rewrite Hd|].
    rewrite (detached_row (reclaimed owner ttl now r)) by (by apply reclaimed_row).
    split; [done|by apply put_mirrors].
  - unfold modify, lift, eret.
    rewrite detached_row by (apply fresh_row; [by rewrite Ek|done]). split; [done|by apply put_mirrors].
Qed.
Lemma double_plan d s c plan now : mirrors d s → ledger_ok s →
  let a := run_dcall (LPlan c plan now) d in let b := run_lcall (LPlan c plan now) s in
  seen a.1 = seen b.1 ∧ mirrors a.2 b.2.
Proof.
  intros Hm Hok. cbn [run_dcall run_lcall]. destruct (decide (plan = JNull)) as [->|Hp].
  { unfold Double.store_command_plan, Ledger.store_command_plan, ebind. by rewrite !decide_True. }
  unfold Double.store_command_plan, Ledger.store_command_plan. rewrite !decide_False by done.
  destruct (double_fenced d s c Hm Hok) as [H1 H2]. pose proof (fenced_row s c) as Hrow.
  unfold ledger_txn, ebind. destruct (_fenced c d) as [r1 d1]. simpl in H1, H2. subst r1 d1.
  destruct (_command_fenced c s) as [r1 s1] eqn:Ef. rewrite (fenced_eq s Hok) in Ef. injection Ef as Ef <-.
  destruct r1 as [r|e]; [|done]. cbn [fst]. destruct (cmd_plan r) as [stored|]; [by destruct (same_json stored plan)|].
  unfold lift, modify, eret. destruct (plan_guards _); [|done]. split; [done|by apply put_mirrors].
Qed.
Lemma double_terminal d s c response state now : mirrors d s → ledger_ok s → state ≠ CommandPrepared →
  let a := _terminal c response state now d in let b := _terminal_command c response state now s in
  a.1 = b.1 ∧ mirrors a.2 b.2.
Proof.
  intros Hm Hok Hs. pose proof Hm as [Hr Hf Hk]. destruct (decide (response = JNull)) as [->|Hn].
  { unfold _terminal, _terminal_command. by rewrite !decide_True. }
  rewrite (terminal_eq s Hok) by done. intros a. destruct a as [ra d'] eqn:Ea. unfold a in Ea. clear a.
  unfold _terminal in Ea. rewrite decide_False in Ea by done.
  unfold ebind at 1, get at 1 in Ea. rewrite Hr, Hf in Ea.
  destruct (Dict.get (cc_command c) (commands s)) as [r|] eqn:E; [|by injection Ea as <- <-].
  destruct (get_row s _ _ Hok E) as [Hid Hrow]. unfold _domain_fact_owned_by. rewrite Hid.
  destruct (decide (state = CommandRejected ∧ _)) as [[Hst [fact Hfact]]|Hno] in Ea.
  { rewrite decide_True by done. rewrite Hfact. injection Ea as <- <-. by rewrite (Hk _ _ Hfact). }
  assert ((if decide (state = CommandRejected) then Dict.get (cc_command c) (owned s) else None) = None) as ->.
  { destruct (decide (state = CommandRejected)) as [Hst|]; [|done].
    apply eq_None_not_Some. intros Hf'. apply Hno. by split. }
  destruct (terminal r) eqn:Et.
  - destruct (_ && _); [|by injection Ea as <- <-]. unfold lift in Ea.
    rewrite detached_row in Ea by done. by injection Ea as <- <-.
  - destruct (double_fenced d s c Hm Hok) as [H1 H2]. rewrite (fenced_eq s Hok), E in H1.
    unfold ebind in Ea. destruct (_fenced c d) as [r1 d1]. simpl in H1, H2. subst r1 d1.
    destruct (claim_matches c r); [|by injection Ea as <- <-]. cbn [negb].
    destruct (claim_owns c r); [|by injection Ea as <- <-]. cbn [negb].
    destruct (cmd_plan r) as [p|] eqn:Ep; [|by injection Ea as <- <-]. unfold modify, lift in Ea.
    rewrite detached_row in Ea by (apply finished_row; [done|by eexists|done]). injection Ea as <- <-.
    split; [done|by apply put_mirrors].
Qed.
Lemma double_call d s c : mirrors d s → ledger_ok s → approvals_only c = true →
  seen (run_dcall c d).1 = seen (run_lcall c s).1 ∧ mirrors (run_dcall c d).2 (run_lcall c s).2.
Proof.
  intros Hm Hok Ha. destruct c as [a op k h req o t n|c p n|c p n|c p n|c f].
  - by apply double_claim.
  - by apply double_plan.
  - cbn [run_dcall run_lcall]. unfold Double.complete_command, Ledger.complete_command.
    destruct (double_terminal d s c p CommandCommitted n Hm Hok) as [H1 H2]; [done|].
    unfold ebind. destruct (_terminal _ _ _ _ _) as [r1 d1], (_terminal_command _ _ _ _ _) as [r2 s2].
    simpl in H1, H2. subst r2. by destruct r1.
  - cbn [run_dcall run_lcall]. unfold Double.reject_command, Ledger.reject_command.
    destruct (double_terminal d s c p CommandRejected n Hm Hok) as [H1 H2]; [done|].
    unfold ebind. destruct (_terminal _ _ _ _ _) as [r1 d1], (_terminal_command _ _ _ _ _) as [r2 s2].
    simpl in H1, H2. subst r2. by destruct r1.
  - apply bool_decide_eq_true in Ha as ->. cbn [run_dcall run_lcall]. unfold record_approval, record_fact.
    destruct (double_fenced d s c Hm Hok) as [H1 H2]. unfold ledger_txn, ebind.
    destruct (_fenced c d) as [r1 d1]. simpl in H1, H2. subst r1 d1.
    destruct (_command_fenced c s) as [r1 s1] eqn:Ef. rewrite (fenced_eq s Hok) in Ef. injection Ef as Ef <-.
    destruct r1 as [r|e]; [|done]. pose proof Hm as [Hr Hf Hk]. unfold get. simpl. rewrite Hf.
    destruct (Dict.get (cmd_id r) (owned s)) as [fact|] eqn:E; [done|]. split; [done|]. simpl.
    split; simpl; [done|by rewrite Hf|]. intros id fact. rewrite <-Dict.set_fresh by (by apply Dict.get_None).
    rewrite Dict.get_set. case_decide; [by intros [= <-]|by apply Hk].
Qed.
End double.

(** C32: The in-memory control store is a faithful double of the durable ledger: after any
    calls, approvals being the facts written, every next call returns the same answer or raises
    the same exception (up to the record a granted claim carries) and both hold the same
    records. *)
Theorem memory_ledger_refines cs c :
  forallb approvals_only (cs ++ [c]) = true →
  let s := run_lcalls cs new_ledger in
  let d := run_dcalls cs (Double.mkDouble [] []) in
  seen (run_dcall c d).1 = seen (run_lcall c s).1 ∧
  Double.d_commands (run_dcall c d).2 = (run_lcall c s).2.(commands) ∧
  ∀ id, (Double.command id (run_dcall c d).2).1 = (command id (run_lcall c s).2).1.
Proof.
  intros Hall s d. rewrite forallb_app in Hall. cbn [forallb] in Hall.
  rewrite andb_true_r, andb_true_iff in Hall. destruct Hall as [Hcs Hc].
  assert (mirrors d s ∧ ledger_ok s) as [Hm Hok].
  { unfold s, d. clear Hc c s d. assert (mirrors (Double.mkDouble [] []) new_ledger) as H0 by done.
    revert H0. generalize (Double.mkDouble [] []), new_ledger, ledger_ok_new. revert Hcs.
    induction cs as [|c cs IH]; intros Hcs d s Hok Hm; [done|]. simpl in *.
    apply andb_true_iff in Hcs as [Hc Hcs]. apply IH; [done| |by apply double_call].
    destruct (lcall_step c s Hok) as [->|H]; [done|by eapply lstep_ok]. }
  destruct (double_call d s c Hm Hok Hc) as [Ha Hm']. split; [done|]. split; [apply Hm'|]. intros id.
  assert (ledger_ok (run_lcall c s).2) as Hok' by (destruct (lcall_step c s Hok) as [->|H]; [done|by eapply lstep_ok]).
  rewrite (proj1 (read_good id _ Hok')). unfold Double.command, ebind, get, lift, eret.
  rewrite (mi_rows _ _ Hm'). destruct (Dict.get id _) as [r|] eqn:E; [|done].
  apply get_row in E as [_ Hr]; [|done]. by rewrite detached_row.
Qed.
Lemma memory_ledger_refines_witness :
  let d := run_dcalls (Commanded.planned ++ [Commanded.claim "b" 40]) (Double.mkDouble [] []) in
  let c := LComplete (Commanded.token "b" 2 70) Commanded.response 41 in
  Double.d_commands (run_dcall c d).2
  = (run_lcall c (run_lcalls (Commanded.planned ++ [Commanded.claim "b" 40]) new_ledger)).2.(commands).
Proof.
  exact (proj1 (proj2 (memory_ledger_refines (Commanded.planned ++ [Commanded.claim "b" 40])
    (LComplete (Commanded.token "b" 2 70) Commanded.response 41) eq_refl))).
Defined.
