(* ===== verification/Detail.v ===== *)
(** Immutable detail references ([src/constructicon/api/detail.py]): the URI
    vocabulary, how an address is taken apart again, and the digest-bound
    reference of a component version.

    A string is the UTF-8 bytes of its text, so percent-encoding works byte by
    byte; [unquote] leaves alone what Python would decode to a replacement
    character. The part of [urlparse] used is the split of an address without
    control characters. *)

From S2P Require Import Prelude Identity Address Component Run Effect Journal EffectStore RegistryStore Registry.
From Stdlib Require Import Ascii.

(** ** Percent-encoding *)

(** What [quote(text, safe="")] keeps: letters, digits and [_.-~]. *)
Definition unreserved (c : ascii) : bool :=
  let n := nat_of_ascii c in
  ((48 <=? n) && (n <=? 57)) || ((65 <=? n) && (n <=? 90)) || ((97 <=? n) && (n <=? 122))
  || bool_decide (c ∈ ["_"%char; "."%char; "-"%char; "~"%char]).
Definition hex_digit (n : nat) : ascii := ascii_of_nat (if n <? 10 then 48 + n else 55 + n).
Fixpoint quote (s : string) : string :=
  match s with
  | "" => ""
  | String c s =>
      if unreserved c then String c (quote s)
      else String "%" (String (hex_digit (nat_of_ascii c / 16))
             (String (hex_digit (nat_of_ascii c mod 16)) (quote s)))
  end.
Definition hex_value (c : ascii) : option nat :=
  let n := nat_of_ascii c in
  if (48 <=? n) && (n <=? 57) then Some (n - 48)
  else if (65 <=? n) && (n <=? 70) then Some (n - 55)
  else if (97 <=? n) && (n <=? 102) then Some (n - 87)
  else None.
Fixpoint unquote (s : string) : string :=
  match s with
  | "" => ""
  | String c s' =>
      match s' with
      | String a (String b rest) =>
          match hex_value a, hex_value b with
          | Some h, Some l =>
              if decide (c = "%"%char) then String (ascii_of_nat (16 * h + l)) (unquote rest)
              else String c (unquote s')
          | _, _ => String c (unquote s')
          end
      | _ => String c (unquote s')
      end
  end.

(** ** Taking an address apart *)

(** [text.split(sep)] for one character. *)
Fixpoint split_on (sep : ascii) (s : string) : list string :=
  match s with
  | "" => [""]
  | String c s =>
      if decide (c = sep) then "" :: split_on sep s
      else match split_on sep s with
           | part :: parts => String c part :: parts
           | [] => [String c ""]
           end
  end.
(** The longest prefix without one of [stops], and the rest. *)
Fixpoint break_at (stops : list ascii) (s : string) : string * string :=
  match s with
  | "" => ("", "")
  | String c rest =>
      if decide (c ∈ stops) then ("", s)
      else let '(before, after) := break_at stops rest in (String c before, after)
  end.
(** [urlparse(uri)]: its scheme, netloc and path; a query and a fragment are
    dropped. *)
Definition urlparse (uri : string) : string * string * string :=
  match break_at [":"%char] uri with
  | (scheme, String _ (String "/" (String "/" rest))) =>
      let '(netloc, rest) := break_at ["/"%char; "?"%char; "#"%char] rest in
      (scheme, netloc, (break_at ["?"%char; "#"%char] rest).1)
  | (scheme, String _ rest) => (scheme, "", (break_at ["?"%char; "#"%char] rest).1)
  | (all, _) => ("", "", (break_at ["?"%char; "#"%char] all).1)
  end.
(** [[unquote(part) for part in parsed.path.split("/") if part]] *)
Definition path_parts (path : string) : list string :=
  unquote <$> filter (λ part, part ≠ "") (split_on "/" path).
Definition parsed (uri : string) : string * string * list string :=
  let '(scheme, netloc, path) := urlparse uri in (scheme, netloc, path_parts path).

(** ** [DetailAddress] *)
Definition decimal (n : N) : string := String.string_of_list_ascii (render_int (Z.of_N n)).
Module DetailAddress.
Definition manifest (run : RunId) : string := "constructicon://runs/" +:+ quote run +:+ "/manifest".
Definition result (run : RunId) (terminal_seq : option N) : string :=
  let base := "constructicon://runs/" +:+ quote run +:+ "/result" in
  match terminal_seq with None => base | Some seq_ => base +:+ "/" +:+ decimal seq_ end.
Definition event (run : RunId) (seq_ : N) : string :=
  "constructicon://runs/" +:+ quote run +:+ "/events/" +:+ decimal seq_.
Definition accounting (run : RunId) (through : N) : string :=
  "constructicon://runs/" +:+ quote run +:+ "/accounting/" +:+ decimal through.
Definition metering (run : RunId) (through after : N) : string :=
  "constructicon://runs/" +:+ quote run +:+ "/metering/" +:+ decimal through +:+ "/" +:+ decimal after.
Definition command (id : string) : string := "constructicon://commands/" +:+ quote id.
Definition approval (id : string) : string := "constructicon://approvals/" +:+ quote id.
Definition attestation (id : string) : string := "constructicon://attestations/" +:+ quote id.
Definition component (name : string) (version : Digest) : string :=
  "constructicon://components/" +:+ quote name +:+ "/" +:+ quote version.
Definition channel_message (id : Digest) : string := "constructicon://channels/messages/" +:+ quote id.
End DetailAddress.

(** ** References *)
Record DetailRef := mkDetail { detail_uri : string; detail_digest : Digest }.
#[export] Instance DetailRef_eq_dec : EqDecision DetailRef.
Proof. solve_decision. Defined.
#[export] Instance DetailRef_dump : Dump DetailRef := λ r,
  JObj [("uri", JStr r.(detail_uri)); ("media_type", JStr "application/json"); ("digest", JStr r.(detail_digest))].
#[export] Instance StoredVersion_dump : Dump StoredVersion := λ v,
  JObj [("definition", dump v.(definition)); ("content_hash", JStr v.(stored_hash));
        ("registered_at", JStr v.(registered_at))].
(** The classes an exception of the registry belongs to. *)
Definition is_contract_violation (e : rexn) : bool :=
  match e with JournalRaised (ContractViolation _) => true | _ => false end.
Definition is_value_error (e : rexn) : bool :=
  match e with BadDigest _ | InvalidRegistryRevision _ | JournalRaised (ValueError _) => true | _ => false end.
(** The component family of [_resolve]; [None] is a refusal. *)
Definition resolve_component (uri : string) : R (option json) :=
  match parsed uri with
  | ("constructicon", "components", [name; text]) =>
      catch (
        let* version := lift (to_digest (Some <$> Digest_well_formed text)) in
        let* s := snapshot None in
        eret (dump <$> snapshot_get s name (default text version)))
      (λ e, if is_value_error e || is_contract_violation e then eret None else raise e)
  | _ => eret None
  end.
(** [reference] of the address of a component, which is canonical as it is. *)
Definition component_reference (name : string) (version : Digest) : R (option DetailRef) :=
  let uri := DetailAddress.component name version in
  let* resolved := resolve_component uri in
  eret ((λ j, mkDetail uri (digest_of "detail" 1 j)) <$> resolved).
