(* ===== verification/DetailLaws.v ===== *)
(** Detail addresses ([Detail]) name what they address: each is taken apart into
    the very identities it was made of, and no two details share one. *)

From S2P Require Import Prelude Identity Address Component Run Effect Journal EffectStore RegistryStore Registry Detail.
From Stdlib Require Import Ascii DecimalString.

(** ** Percent-encoding *)
Definition reserved_marks : list ascii := ["/"%char; "?"%char; "#"%char; ":"%char; "%"%char].
Fixpoint free_of (marks : list ascii) (s : string) : bool :=
  match s with
  | "" => true
  | String c s => negb (bool_decide (c ∈ marks)) && free_of marks s
  end.
(** The facts about single bytes, checked one by one. *)
Definition byte_law (c : ascii) : bool :=
  let hi := hex_digit (nat_of_ascii c / 16) in
  let lo := hex_digit (nat_of_ascii c mod 16) in
  bool_decide (hex_value hi = Some (nat_of_ascii c / 16)%nat) && bool_decide (hex_value lo = Some (nat_of_ascii c mod 16))
  && bool_decide (ascii_of_nat (16 * (nat_of_ascii c / 16) + (nat_of_ascii c mod 16)) = c)
  && negb (bool_decide (hi ∈ reserved_marks)) && negb (bool_decide (lo ∈ reserved_marks))
  && (negb (unreserved c) || negb (bool_decide (c ∈ reserved_marks))).
Lemma byte_laws c : byte_law c = true.
Proof. destruct c as [[] [] [] [] [] [] [] []]; vm_compute; reflexivity. Qed.
Lemma byte_facts c :
  let hi := hex_digit (nat_of_ascii c / 16) in let lo := hex_digit (nat_of_ascii c mod 16) in
  hex_value hi = Some (nat_of_ascii c / 16) ∧ hex_value lo = Some (nat_of_ascii c mod 16) ∧
  ascii_of_nat (16 * (nat_of_ascii c / 16) + (nat_of_ascii c mod 16)) = c ∧
  (hi ∉ reserved_marks) ∧ (lo ∉ reserved_marks) ∧ (unreserved c = true → c ∉ reserved_marks).
Proof.
  intros hi lo. pose proof (byte_laws c) as H. unfold byte_law in H. cbv zeta in H. fold hi lo in H.
  rewrite !andb_true_iff, !negb_true_iff, !bool_decide_eq_true, !bool_decide_eq_false in H.
  destruct H as [[[[[H1 H2] H3] H4] H5] H6]. split_and!; try done. intros Hu. rewrite Hu in H6.
  by rewrite orb_false_l, negb_true_iff, bool_decide_eq_false in H6.
Qed.
#[local] Opaque hex_digit hex_value Nat.div Nat.modulo ascii_of_nat nat_of_ascii unreserved.

Lemma unquote_plain c s : c ≠ "%"%char → unquote (String c s) = String c (unquote s).
Proof.
  intros Hc. cbn [unquote]. destruct s as [|a [|b rest]]; try done.
  destruct (hex_value a), (hex_value b); try done. by rewrite decide_False.
Qed.
Lemma unquote_quote s : unquote (quote s) = s.
Proof.
  induction s as [|c s IH]; [done|]. cbn [quote]. destruct (byte_facts c) as (Hh & Hl & Hc & _ & _ & Hu).
  destruct (unreserved c).
  - rewrite unquote_plain; [by rewrite IH|]. intros ->. apply Hu; [done|]. unfold reserved_marks. set_solver.
  - cbn [unquote]. rewrite Hh, Hl, decide_True by done. by rewrite Hc, IH.
Qed.
Definition separators : list ascii := ["/"%char; "?"%char; "#"%char; ":"%char].
Lemma quote_free s : free_of separators (quote s) = true.
Proof.
  assert (∀ c, c ∉ reserved_marks → c ∉ separators) as Hsub by (unfold reserved_marks, separators; set_solver).
  induction s as [|c s IH]; [done|]. cbn [quote]. destruct (byte_facts c) as (_ & _ & _ & Hh & Hl & Hu).
  destruct (unreserved c); cbn [free_of]; rewrite ?IH.
  - by rewrite bool_decide_eq_false_2 by (by apply Hsub, Hu).
  - rewrite !bool_decide_eq_false_2; [done|by apply Hsub|by apply Hsub|unfold separators; set_solver].
Qed.
Lemma quote_empty s : quote s = "" → s = "".
Proof. destruct s as [|c s]; [done|]. cbn [quote]. by destruct (unreserved c). Qed.

(** ** Numbers *)
Lemma digits_free d : free_of separators (NilEmpty.string_of_uint d) = true.
Proof. induction d; simpl; try done; by rewrite IHd. Qed.
Lemma digits_plain d : unquote (NilEmpty.string_of_uint d) = NilEmpty.string_of_uint d.
Proof. induction d; try done; cbn [NilEmpty.string_of_uint]; by rewrite unquote_plain, IHd by done. Qed.
Lemma decimal_digits n : ∃ d, decimal n = NilEmpty.string_of_uint d.
Proof.
  unfold decimal, render_int. rewrite String.string_of_list_ascii_of_string.
  exists (N.to_uint n). by destruct n.
Qed.
Lemma decimal_free n : free_of separators (decimal n) = true.
Proof. destruct (decimal_digits n) as [d ->]. apply digits_free. Qed.
Lemma decimal_plain n : unquote (decimal n) = decimal n.
Proof. destruct (decimal_digits n) as [d ->]. apply digits_plain. Qed.
Lemma decimal_inj n m : decimal n = decimal m → n = m.
Proof. unfold decimal. by intros H%string_of_list_ascii_inj%render_int_inj%N2Z.inj. Qed.
Lemma decimal_nonempty n : decimal n ≠ "".
Proof.
  intros H. destruct n as [|p]; [done|].
  destruct (decimal_digits (N.pos p)) as [d Hd]. exfalso.
  unfold decimal, render_int in H. rewrite String.string_of_list_ascii_of_string in H. simpl in H.
  pose proof (DecimalPos.Unsigned.to_uint_nonnil p) as Hn. by destruct (Pos.to_uint p).
Qed.

(** ** Paths *)
Lemma split_part a b : free_of separators a = true → split_on "/" (a +:+ String "/" b) = a :: split_on "/" b.
Proof.
  induction a as [|c a IH]; [done|]. simpl. rewrite andb_true_iff, negb_true_iff, bool_decide_eq_false.
  intros [Hc Ha]. rewrite decide_False by (intros ->; apply Hc; unfold separators; set_solver).
  by rewrite (IH Ha).
Qed.
Lemma split_last a : free_of separators a = true → split_on "/" a = [a].
Proof.
  induction a as [|c a IH]; [done|]. simpl. rewrite andb_true_iff, negb_true_iff, bool_decide_eq_false.
  intros [Hc Ha]. rewrite decide_False by (intros ->; apply Hc; unfold separators; set_solver).
  by rewrite (IH Ha).
Qed.
Lemma string_app_nil a : a +:+ "" = a.
Proof. induction a as [|c a IH]; [done|]. exact (f_equal (String c) IH). Qed.
Fixpoint rooted (segs : list string) : string :=
  match segs with [] => "" | seg :: segs => String "/" (seg +:+ rooted segs) end.
Lemma split_rooted seg segs : Forall (λ s, free_of separators s = true) (seg :: segs) →
  split_on "/" (rooted (seg :: segs)) = "" :: seg :: segs.
Proof.
  intros H. cbn [rooted split_on]. rewrite decide_True by done. f_equal. revert seg H.
  induction segs as [|seg' segs IH]; intros seg [Hs Hss]%Forall_cons.
  - cbn [rooted]. rewrite string_app_nil.
    by apply split_last.
  - cbn [rooted]. rewrite split_part by done. f_equal. by apply IH.
Qed.
Lemma break_stop stops a c b : (∀ k, k ∈ stops → k ∈ separators) → c ∈ stops → free_of separators a = true →
  break_at stops (a +:+ String c b) = (a, String c b).
Proof.
  intros Hs Hc. induction a as [|k a IH]; simpl.
  - by rewrite decide_True.
  - rewrite andb_true_iff, negb_true_iff, bool_decide_eq_false. intros [Hk Ha].
    rewrite decide_False by (intros ?%Hs; done). by rewrite (IH Ha).
Qed.
Lemma break_none stops a : (∀ k, k ∈ stops → k ∈ separators ∧ k ≠ "/"%char) →
  (∀ k, k ∈ String.list_ascii_of_string a → k = "/"%char ∨ k ∉ separators) → break_at stops a = (a, "").
Proof.
  intros Hs. induction a as [|k a IH]; [done|]. simpl. intros Ha. rewrite decide_False.
  - rewrite IH; [done|]. intros k' Hk'. apply Ha. by right.
  - intros [Hk Hne]%Hs. destruct (Ha k) as [?|?]; [left|done|done].
Qed.
Lemma free_chars a k : free_of separators a = true → k ∈ String.list_ascii_of_string a → k ∉ separators.
Proof.
  induction a as [|c a IH]; simpl; [by intros _ ?%elem_of_nil|].
  rewrite andb_true_iff, negb_true_iff, bool_decide_eq_false. intros [Hc Ha] [->|Hk]%elem_of_cons; [done|by apply IH].
Qed.
Lemma rooted_chars segs k : Forall (λ s, free_of separators s = true) segs →
  k ∈ String.list_ascii_of_string (rooted segs) → k = "/"%char ∨ k ∉ separators.
Proof.
  induction 1 as [|s segs Hs _ IH]; simpl; [by intros ?%elem_of_nil|].
  intros [->|Hk]%elem_of_cons; [by left|]. rewrite list_ascii_app in Hk.
  apply elem_of_app in Hk as [Hk|Hk]; [right; by eapply free_chars|by apply IH].
Qed.
Definition address (family : string) (segs : list string) : string :=
  "constructicon://" +:+ family +:+ rooted segs.
Lemma address_parsed family seg segs :
  free_of separators family = true → Forall (λ s, free_of separators s = true) (seg :: segs) →
  parsed (address family (seg :: segs)) = ("constructicon", family, unquote <$> filter (λ s, s ≠ "") (seg :: segs)).
Proof.
  intros Hf Hs. unfold parsed, urlparse, address.
  change ("constructicon://" +:+ family +:+ rooted (seg :: segs))
    with ("constructicon" +:+ String ":" (String "/" (String "/" (family +:+ rooted (seg :: segs))))).
  rewrite (break_stop [":"%char]); [|unfold separators; set_solver|set_solver|done].
  assert (rooted (seg :: segs) = String "/" (seg +:+ rooted segs)) as E by done. rewrite E.
  rewrite (break_stop ["/"%char; "?"%char; "#"%char]); [|unfold separators; set_solver|set_solver|done].
  rewrite <-E. rewrite break_none.
  - cbn [fst]. unfold path_parts. rewrite split_rooted by done. rewrite filter_cons_False by (intros Hn; by apply Hn).
    done.
  - unfold separators. set_solver.
  - intros k. by apply rooted_chars.
Qed.

(** ** Every detail *)
Inductive detail :=
| DManifest (run : RunId) | DResult (run : RunId) (terminal : option N) | DEvent (run : RunId) (seq_ : N)
| DAccounting (run : RunId) (through : N) | DMetering (run : RunId) (through after : N)
| DCommand (id : string) | DApproval (id : string) | DAttestation (id : string)
| DComponent (name : string) (version : Digest) | DMessage (id : Digest).
Definition uri_of (d : detail) : string :=
  match d with
  | DManifest run => DetailAddress.manifest run
  | DResult run n => DetailAddress.result run n
  | DEvent run n => DetailAddress.event run n
  | DAccounting run n => DetailAddress.accounting run n
  | DMetering run n m => DetailAddress.metering run n m
  | DCommand id => DetailAddress.command id
  | DApproval id => DetailAddress.approval id
  | DAttestation id => DetailAddress.attestation id
  | DComponent name v => DetailAddress.component name v
  | DMessage id => DetailAddress.channel_message id
  end.
(** What [_resolve] dispatches on: the family and the identities. *)
Definition family_of (d : detail) : string :=
  match d with
  | DManifest _ | DResult _ _ | DEvent _ _ | DAccounting _ _ | DMetering _ _ _ => "runs"
  | DCommand _ => "commands" | DApproval _ => "approvals" | DAttestation _ => "attestations"
  | DComponent _ _ => "components" | DMessage _ => "channels"
  end.
Definition identities (d : detail) : list string :=
  match d with
  | DManifest run => [run; "manifest"]
  | DResult run None => [run; "result"]
  | DResult run (Some n) => [run; "result"; decimal n]
  | DEvent run n => [run; "events"; decimal n]
  | DAccounting run n => [run; "accounting"; decimal n]
  | DMetering run n m => [run; "metering"; decimal n; decimal m]
  | DCommand id | DApproval id | DAttestation id => [id]
  | DComponent name v => [name; v]
  | DMessage id => ["messages"; id]
  end.
Lemma identities_inj d d' : family_of d = family_of d' → identities d = identities d' → d = d'.
Proof.
  destruct d as [|? []| | | | | | | |], d' as [|? []| | | | | | | |]; simpl; try discriminate;
    intros _ [=]; subst; repeat match goal with H : decimal _ = decimal _ |- _ => apply decimal_inj in H as -> end;
    done.
Qed.
(** The segments of an address before they are unquoted. *)
Definition quoted (d : detail) : list string :=
  match d with
  | DManifest run => [quote run; "manifest"]
  | DResult run None => [quote run; "result"]
  | DResult run (Some n) => [quote run; "result"; decimal n]
  | DEvent run n => [quote run; "events"; decimal n]
  | DAccounting run n => [quote run; "accounting"; decimal n]
  | DMetering run n m => [quote run; "metering"; decimal n; decimal m]
  | DCommand id | DApproval id | DAttestation id => [quote id]
  | DComponent name v => [quote name; quote v]
  | DMessage id => ["messages"; quote id]
  end.
Lemma string_app_assoc a b c : (a +:+ b) +:+ c = a +:+ (b +:+ c).
Proof. induction a as [|k a IH]; [done|]. exact (f_equal (String k) IH). Qed.
Lemma uri_address d : uri_of d = address (family_of d) (quoted d).
Proof.
  destruct d as [run|run [n|]|run n|run n|run n m|id|id|id|name v|id]; unfold address; cbn [uri_of family_of quoted rooted];
    unfold DetailAddress.manifest, DetailAddress.result, DetailAddress.event, DetailAddress.accounting,
      DetailAddress.metering, DetailAddress.command, DetailAddress.approval, DetailAddress.attestation,
      DetailAddress.component, DetailAddress.channel_message; cbv zeta;
    rewrite ?string_app_nil, ?string_app_assoc; reflexivity.
Qed.
Lemma quoted_free d : Forall (λ s, free_of separators s = true) (quoted d).
Proof.
  destruct d as [|? []| | | | | | | |]; repeat constructor; apply quote_free || apply decimal_free.
Qed.
Lemma family_free d : free_of separators (family_of d) = true.
Proof. by destruct d. Qed.
Lemma quoted_identities d : unquote <$> quoted d = identities d.
Proof.
  destruct d as [|? []| | | | | | | |]; cbn [quoted identities fmap list_fmap];
    by rewrite ?unquote_quote, ?decimal_plain.
Qed.
Lemma filter_identities d :
  unquote <$> filter (λ s, s ≠ "") (quoted d) = filter (λ s, s ≠ "") (identities d).
Proof.
  rewrite <-quoted_identities. assert (∀ s, s ∈ quoted d → unquote s = "" → s = "") as H.
  { intros s Hs. destruct d as [|? []| | | | | | | |]; set_unfold in Hs;
      repeat match goal with H : _ ∨ _ |- _ => destruct H end; subst; rewrite ?unquote_quote, ?decimal_plain; try done;
      by intros ->. }
  induction (quoted d) as [|s l IH]; [done|]. rewrite filter_cons, fmap_cons, filter_cons.
  assert (unquote <$> filter (λ s, s ≠ "") l = filter (λ s, s ≠ "") (unquote <$> l)) as IH'
    by (apply IH; intros; apply H; [by right|done]).
  destruct (decide (s ≠ "")) as [Hs|Hs]; destruct (decide (unquote s ≠ "")) as [Hu|Hu]; cbn; rewrite ?IH'; try done.
  - exfalso. apply Hs, H; [left|]. by apply dec_stable in Hu.
  - exfalso. apply dec_stable in Hs as ->. by apply Hu.
Qed.

Lemma uri_parsed d :
  parsed (uri_of d) = ("constructicon", family_of d, filter (λ s, s ≠ "") (identities d)).
Proof.
  pose proof (quoted_free d) as Hq. rewrite <-filter_identities, uri_address.
  destruct (quoted d) as [|seg segs] eqn:E; [by destruct d as [|? []| | | | | | | |]|].
  by apply address_parsed; [apply family_free|].
Qed.

(** C16: Detail addresses are exact: every address of the vocabulary parses back into its
    family and its identities, whatever characters they hold, and no two details share an
    address, as long as no identity is blank; the address of a component named with the empty
    string has lost its name. *)
Theorem detail_addresses_are_exact d :
  (* an address is read back as its family and its identities, blank ones apart *)
  parsed (uri_of d) = ("constructicon", family_of d, filter (λ s, s ≠ "") (identities d)) ∧
  (* so what is not blank is read back exactly, *)
  (Forall (λ s, s ≠ "") (identities d) →
     parsed (uri_of d) = ("constructicon", family_of d, identities d) ∧
     (* and is the only detail of its address *)
     ∀ d', Forall (λ s, s ≠ "") (identities d') → uri_of d' = uri_of d → d' = d) ∧
  (* but a component named with the empty string has no address of its own *)
  ∀ v, d = DComponent "" v → v ≠ "" → parsed (uri_of d) = ("constructicon", "components", [v]).
Proof.
  pose proof uri_parsed as H.
  assert (∀ d, Forall (λ s, s ≠ "") (identities d) →
    parsed (uri_of d) = ("constructicon", family_of d, identities d)) as H'.
  { intros d0 Hd. by rewrite H, filter_all. }
  split; [apply H|]. split.
  - intros Hd. split; [by apply H'|]. intros d' Hd' Hu. apply (f_equal parsed) in Hu.
    rewrite !H' in Hu by done. injection Hu as Hf Hi. by apply identities_inj.
  - intros v -> Hv. rewrite H. cbn [family_of identities]. rewrite filter_cons_False by (intros Hn; by apply Hn).
    by rewrite filter_cons_True, filter_nil.
Qed.
Lemma detail_addresses_are_exact_witness :
  parsed (DetailAddress.component "a/b:c" "sha256:00") = ("constructicon", "components", ["a/b:c"; "sha256:00"]).
Proof.
  apply (detail_addresses_are_exact (DComponent "a/b:c" "sha256:00")). repeat constructor; discriminate.
Defined.
