(* ===== verification/Plans.v ===== *)
(** The plans and answers of the registry's promotion commands
    ([src/constructicon/api/_control_commands.py], with the answer models of
    [core/control.py]): what is stored, and how it is read back.

    A stored value is read by a model's validation and then must lose nothing:
    rendered again, it is the same canonical JSON. Validation is only modelled
    as far as that law does not already decide it. How values of the eras before
    the typed envelope are read, which takes the stores, is in [Commands]. *)

From S2P Require Import Prelude Identity Address Component Run Effect Control Ledger Detail.

(** ** Plans *)

(** [exact] is the [terminal_rejection_policy] marker, ["exact-v1"] or absent. *)
Inductive command_plan :=
| InitialPromotionPlan (exact : bool) (component : string) (target : Digest) (draft : AttestationDraft)
    (attestation : string)
| PromotionPlan (exact : bool) (component : string) (baseline : option Digest) (target : Digest)
    (attestation : string)
| RollbackPlan (exact : bool) (component : string) (baseline target : Digest) (draft : AttestationDraft)
    (attestation : string)
| ControlRejectPlan (command operation : string) (request_hash : Digest) (response : ControlRejected).
#[export] Instance command_plan_eq_dec : EqDecision command_plan.
Proof. solve_decision. Defined.
Definition plan_kind (p : command_plan) : string :=
  match p with
  | InitialPromotionPlan _ _ _ _ _ => "initial_promotion"
  | PromotionPlan _ _ _ _ _ => "promotion"
  | RollbackPlan _ _ _ _ _ _ => "rollback"
  | ControlRejectPlan _ _ _ _ => "control_reject"
  end.
(** [_serialize] leaves an absent marker out. *)
Definition policy_member (exact : bool) : list (string * json) :=
  if exact then [("terminal_rejection_policy", JStr "exact-v1")] else [].
#[export] Instance command_plan_dump : Dump command_plan := λ p, JObj (
  match p with
  | InitialPromotionPlan exact c target draft id =>
      policy_member exact ++ [("kind", JStr "initial_promotion"); ("component", JStr c); ("baseline", JNull);
        ("target", JStr target); ("draft", dump draft); ("attestation_id", JStr id)]
  | PromotionPlan exact c baseline target id =>
      policy_member exact ++ [("kind", JStr "promotion"); ("component", JStr c); ("baseline", dump baseline);
        ("target", JStr target); ("attestation_id", JStr id)]
  | RollbackPlan exact c baseline target draft id =>
      policy_member exact ++ [("kind", JStr "rollback"); ("component", JStr c); ("baseline", JStr baseline);
        ("target", JStr target); ("draft", dump draft); ("attestation_id", JStr id)]
  | ControlRejectPlan id op hash response =>
      [("kind", JStr "control_reject"); ("command_id", JStr id); ("operation", JStr op);
       ("request_hash", JStr hash); ("response", dump response)]
  end).
(** [_StoredPlan(plan=value).model_dump(mode="json")] *)
Definition _StoredPlan (p : command_plan) : json := JObj [("schema_version", JInt 1); ("plan", dump p)].

(** The promotion a domain plan is for. *)
Record edge := mkEdge { edge_component : string; edge_from : option Digest; edge_to : Digest; edge_proof : string }.
Definition plan_edge (p : command_plan) : option edge :=
  match p with
  | InitialPromotionPlan _ c target _ id => Some (mkEdge c None target id)
  | PromotionPlan _ c baseline target id => Some (mkEdge c baseline target id)
  | RollbackPlan _ c baseline target _ id => Some (mkEdge c (Some baseline) target id)
  | ControlRejectPlan _ _ _ _ => None
  end.

(** ** Reading a plan back *)
Definition parse_digest (j : json) : option Digest :=
  s ← j_str j; if is_ok (Digest_well_formed s) then Some s else None.
Definition parse_opt_digest (j : json) : option (option Digest) :=
  match j with JNull => Some None | _ => Some <$> parse_digest j end.
Definition parse_exact (j : json) : option bool :=
  match j_get "terminal_rejection_policy" j with
  | None => Some false
  | Some (JStr s) => if decide (s = "exact-v1") then Some true else None
  | Some _ => None
  end.
Definition parse_check_status (j : json) : option CheckStatus :=
  s ← j_str j;
  head (filter (λ c, check_status_value c = s)
    [CheckPassed; CheckFailed; CheckConflict; CheckTimeout; CheckCancelled; InfrastructureError]).
Definition parse_check (j : json) : option CheckResult :=
  name ← j_get "name" j ≫= j_str;
  status ← j_get "status" j ≫= parse_check_status;
  detail ← j_get "detail" j ≫= j_str;
  match j_get "elapsed_s" j with
  | Some (JFloat elapsed) => Some (mkCheck name status detail elapsed)
  | _ => None
  end.
(** A draft of a promotion plan: a draft on another subject, under another
    action or with evidence is refused here, and by [_validate_command_plan] in
    the code, with the same exception. *)
Definition parse_draft (j : json) : option AttestationDraft :=
  subject ← j_get "subject" j;
  component ← j_get "component" subject ≫= j_str;
  version ← j_get "version" subject ≫= parse_digest;
  baseline ← j_get "baseline_version" subject ≫= parse_opt_digest;
  checks ← j_get "checks" j ≫= j_arr parse_check;
  check_set ← j_get "check_set_hash" j ≫= parse_digest;
  manifest ← j_get "manifest_hash" j ≫= parse_digest;
  workspace ← j_get "workspace_id" j ≫= j_opt_str;
  Some (mkDraft ActionPromote (SubjectComponent (mkComponentProof component version baseline)) checks check_set []
          manifest workspace).
Definition parse_fault (j : json) : option ControlFault :=
  code ← j_get "code" j ≫= j_str;
  code ← parse_code code;
  message ← j_get "message" j ≫= j_str;
  repair ← j_get "repair" j ≫= j_str;
  match j_get "details" j with
  | Some (JObj details) => Some (mkFault code message repair details)
  | _ => None
  end.
Definition parse_rejected (j : json) : option ControlRejected :=
  faults ← j_get "faults" j ≫= j_arr parse_fault; Some (mkRejected faults).
Definition parse_kind (j : json) : option command_plan :=
  exact ← parse_exact j;
  kind ← j_get "kind" j ≫= j_str;
  if decide (kind = "control_reject") then
    id ← j_get "command_id" j ≫= j_str;
    op ← j_get "operation" j ≫= j_str;
    hash ← j_get "request_hash" j ≫= parse_digest;
    response ← j_get "response" j ≫= parse_rejected;
    Some (ControlRejectPlan id op hash response)
  else
    component ← j_get "component" j ≫= j_str;
    baseline ← j_get "baseline" j ≫= parse_opt_digest;
    target ← j_get "target" j ≫= parse_digest;
    id ← j_get "attestation_id" j ≫= j_str;
    if decide (kind = "promotion") then Some (PromotionPlan exact component baseline target id) else
    draft ← j_get "draft" j ≫= parse_draft;
    if decide (kind = "initial_promotion") then Some (InitialPromotionPlan exact component target draft id) else
    if decide (kind = "rollback") then
      b ← baseline; Some (RollbackPlan exact component b target draft id)
    else None.

Inductive plan_fault := LegacyPlan | NotAnObject | InvalidTypedPlan | PlanNotLossless | PlanOfOtherOperation
| FieldNotObject (key : string) | FieldNotString (key : string) | InvalidLegacyPlan | UnsupportedLegacyPlan.
Definition expected_kinds (operation : string) : list string :=
  match Dict.get operation
    [("registry_promote_initial", "initial_promotion"); ("registry_promote", "promotion");
     ("registry_rollback", "rollback")] with
  | Some kind => [kind; "control_reject"]
  | None => []
  end.
Definition _parse_stored_plan (operation : string) (raw : json) : result plan_fault command_plan :=
  if negb (is_object raw && has_key "schema_version" raw) then Raise LegacyPlan else
  match j_get "plan" raw ≫= parse_kind with
  | None => Raise InvalidTypedPlan
  | Some plan =>
      if negb (same_json raw (_StoredPlan plan)) then Raise PlanNotLossless
      else if decide (plan_kind plan ∉ expected_kinds operation) then Raise PlanOfOtherOperation
      else Ok plan
  end.
(** The fields of a plan written before the envelope. *)
Definition _object (raw : json) (key : string) : result plan_fault json :=
  match j_get key raw with Some (JObj m) => Ok (JObj m) | _ => Raise (FieldNotObject key) end.
Definition _string (raw : json) (key : string) : result plan_fault string :=
  match j_get key raw with Some (JStr s) => Ok s | _ => Raise (FieldNotString key) end.
Definition legacy_digest (s : string) : result plan_fault Digest :=
  match Digest_well_formed s with Ok d => Ok d | Raise _ => Raise InvalidLegacyPlan end.
Definition _optional_digest (value : option json) : result plan_fault (option Digest) :=
  match value with Some (JStr s) => Some <$> legacy_digest s | _ => Ok None end.

(** ** Answers *)
Record CommandMeta := mkMeta { meta_command : string; replayed : bool }.
#[export] Instance CommandMeta_eq_dec : EqDecision CommandMeta.
Proof. solve_decision. Defined.
#[export] Instance CommandMeta_dump : Dump CommandMeta := λ m,
  JObj [("command_id", JStr m.(meta_command)); ("replayed", JBool m.(replayed))].
Inductive promotion_status := Promoted | RolledBack.
#[export] Instance promotion_status_eq_dec : EqDecision promotion_status.
Proof. solve_decision. Defined.
Definition promotion_status_value (s : promotion_status) : string :=
  match s with Promoted => "promoted" | RolledBack => "rolled_back" end.
Record PromotionCommandResult := mkPromotionResult {
  res_status : promotion_status;
  res_of : string;
  res_from : option Digest;
  res_to : Digest;
  res_command : CommandMeta;
  res_detail : DetailRef;
}.
#[export] Instance PromotionCommandResult_eq_dec : EqDecision PromotionCommandResult.
Proof. solve_decision. Defined.
#[export] Instance PromotionCommandResult_dump : Dump PromotionCommandResult := λ r,
  JObj [("schema_version", JInt 3); ("status", JStr (promotion_status_value r.(res_status)));
        ("component", JStr r.(res_of)); ("from_version", dump r.(res_from)); ("to_version", JStr r.(res_to));
        ("command", dump r.(res_command)); ("detail", dump r.(res_detail))].
Inductive response := Moved (r : PromotionCommandResult) | Refused (r : ControlRejected).
#[export] Instance response_eq_dec : EqDecision response.
Proof. solve_decision. Defined.
#[export] Instance response_dump : Dump response := λ r,
  match r with Moved r => dump r | Refused r => dump r end.
Definition is_rejection (r : response) : bool := match r with Refused _ => true | Moved _ => false end.
Definition _mark_replayed (r : response) : response :=
  match r with
  | Moved m => Moved (mkPromotionResult m.(res_status) m.(res_of) m.(res_from) m.(res_to)
                        (mkMeta m.(res_command).(meta_command) true) m.(res_detail))
  | Refused r => Refused r
  end.

Definition parse_status (j : json) : option promotion_status :=
  s ← j_str j; head (filter (λ p, promotion_status_value p = s) [Promoted; RolledBack]).
Definition parse_meta (j : json) : option CommandMeta :=
  id ← j_get "command_id" j ≫= j_str;
  match j_get "replayed" j with Some (JBool b) => Some (mkMeta id b) | _ => None end.
Definition parse_detail (j : json) : option DetailRef :=
  uri ← j_get "uri" j ≫= j_str; d ← j_get "digest" j ≫= parse_digest; Some (mkDetail uri d).
Definition parse_moved (j : json) : option PromotionCommandResult :=
  status ← j_get "status" j ≫= parse_status;
  component ← j_get "component" j ≫= j_str;
  before ← j_get "from_version" j ≫= parse_opt_digest;
  after ← j_get "to_version" j ≫= parse_digest;
  command ← j_get "command" j ≫= parse_meta;
  detail ← j_get "detail" j ≫= parse_detail;
  Some (mkPromotionResult status component before after command detail).
(** The models an answer is read as, and those of a promotion command in the
    order they are tried. *)
Inductive answer_model := AsPromotionCommandResult | AsControlRejected.
Definition response_types : list answer_model := [AsPromotionCommandResult; AsControlRejected].
Definition model_validate (m : answer_model) (value : json) : option response :=
  match m with
  | AsPromotionCommandResult => Moved <$> parse_moved value
  | AsControlRejected => Refused <$> parse_rejected value
  end.
Definition lossless_as (value : json) (m : answer_model) : option response :=
  r ← model_validate m value; if same_json value (dump r) then Some r else None.
(** The first loop of [_decode_response]: answers in the current schema. *)
Definition decode_current (value : json) (models : list answer_model) : option response :=
  head (omap (lossless_as value) models).
(** [value.get("schema_version") in {1, 2}]: equality is Python's, and what
    cannot be hashed raises a [TypeError], here [None]. *)
Definition legacy_version (value : json) : option bool :=
  match j_get "schema_version" value with
  | None | Some JNull | Some (JStr _) => Some false
  | Some (JBool b) => Some b
  | Some (JInt z) => Some (bool_decide (z = 1%Z ∨ z = 2%Z))
  | Some (JFloat r) => Some (bool_decide (r = "1.0" ∨ r = "2.0"))
  | Some (JArr _) | Some (JObj _) => None
  end.

(** ** The one refusal a domain plan may end in *)
Section wording.
Context (repr : string → string).
Definition _canonical_domain_rejection (e : edge) : ControlRejected :=
  one_fault REGISTRY_STABLE_MOVED
    ("stable changed before the planned edge for " +:+ repr e.(edge_component) +:+ " could commit")
    "inspect the current stable version and submit a fresh command key"
    [("component", JStr e.(edge_component)); ("planned_from", dump e.(edge_from)); ("planned_to", JStr e.(edge_to))].
End wording.
