(* ===== verification/PlanLaws.v ===== *)
(** The laws of stored plans and answers ([Plans]): what is written is read back
    as it was, and whatever is read back is what was written. *)

From S2P Require Import Prelude Identity Address Component Run Effect Control Ledger Detail Plans.

Definition well_formed (d : Digest) : Prop := is_ok (Digest_well_formed d) = true.
Definition opt_well_formed (d : option Digest) : Prop := ∀ h, d = Some h → well_formed h.
(** A draft of a promotion plan. *)
Definition promotion_draft (d : AttestationDraft) : Prop :=
  d.(dr_action) = ActionPromote ∧ d.(dr_evidence) = [] ∧
  (∃ s, d.(dr_subject) = SubjectComponent s ∧ well_formed s.(proof_version) ∧ opt_well_formed s.(baseline_version)) ∧
  well_formed d.(dr_check_set) ∧ well_formed d.(dr_manifest).
Definition plan_ok (p : command_plan) : Prop :=
  match p with
  | InitialPromotionPlan _ _ target draft _ => well_formed target ∧ promotion_draft draft
  | PromotionPlan _ _ baseline target _ => opt_well_formed baseline ∧ well_formed target
  | RollbackPlan _ _ baseline target draft _ => well_formed baseline ∧ well_formed target ∧ promotion_draft draft
  | ControlRejectPlan _ _ hash _ => well_formed hash
  end.
Definition answer_ok (a : response) : Prop :=
  match a with
  | Moved m => opt_well_formed m.(res_from) ∧ well_formed m.(res_to) ∧ well_formed m.(res_detail).(detail_digest)
  | Refused _ => True
  end.
Lemma digest_ok domain n j : well_formed (digest_of domain n j).
Proof. unfold well_formed. by rewrite digest_of_well_formed. Qed.

(** ** Members *)
Lemma same_json_refl j : same_json j j = true.
Proof. unfold same_json. by apply bool_decide_eq_true. Qed.
Lemma same_json_trans a b c : same_json a b = true → same_json b c = true → same_json a c = true.
Proof. unfold same_json. rewrite !bool_decide_eq_true. congruence. Qed.
Lemma same_json_sym a b : same_json a b = true → same_json b a = true.
Proof. unfold same_json. by rewrite !bool_decide_eq_true. Qed.
Lemma parse_digest_ok d : well_formed d → parse_digest (JStr d) = Some d.
Proof. intros H. unfold parse_digest. simpl. by rewrite H. Qed.
Lemma parse_opt_digest_ok d : opt_well_formed d → parse_opt_digest (dump d) = Some d.
Proof.
  intros H. destruct d as [d|]; [|done]. change (Some <$> parse_digest (JStr d) = Some (Some d)).
  by rewrite (parse_digest_ok d (H d eq_refl)).
Qed.
Lemma parse_digest_inv j d : parse_digest j = Some d → well_formed d.
Proof. unfold parse_digest. destruct j; try done. simpl. destruct (is_ok _) eqn:E; [|done]. by intros [= <-]. Qed.
Lemma parse_opt_digest_inv j d : parse_opt_digest j = Some d → opt_well_formed d.
Proof.
  unfold parse_opt_digest. intros H h ->. destruct j; try done.
  all: apply fmap_Some in H as (x & Hx & [= ->]); by eapply parse_digest_inv.
Qed.
Lemma j_arr_dump {A} `{Dump A} (parse : json → option A) (l : list A) :
  (∀ a, parse (dump a) = Some a) → j_arr parse (dump l) = Some l.
Proof.
  intros Hp. unfold j_arr, dump, list_dump. apply mapM_Some_2. rewrite Forall2_fmap_l.
  apply Forall_Forall2_diag, Forall_forall. auto.
Qed.
Lemma parse_check_ok c : parse_check (dump c) = Some c.
Proof. destruct c as [n s d e]. by destruct s. Qed.
Lemma parse_fault_ok f : parse_fault (dump f) = Some f.
Proof. destruct f as [code m r d]. by destruct code. Qed.
Lemma parse_rejected_ok r : parse_rejected (dump r) = Some r.
Proof.
  destruct r as [l]. change (parse_rejected (dump (mkRejected l))) with (mkRejected <$> j_arr parse_fault (dump l)).
  by rewrite (j_arr_dump parse_fault l parse_fault_ok).
Qed.
Lemma parse_draft_ok d : promotion_draft d → parse_draft (dump d) = Some d.
Proof.
  destruct d as [action subject checks set_ evidence manifest workspace].
  intros (Ha & He & (s & Hs & Hv & Hb) & Hc & Hm). cbn in Ha, He, Hs, Hc, Hm. subst.
  destruct s as [c v b]. etrans.
  { change (parse_draft _) with (
      version ← parse_digest (JStr v);
      baseline ← parse_opt_digest (dump b);
      checks ← j_arr parse_check (dump checks);
      check_set ← parse_digest (JStr set_);
      manifest ← parse_digest (JStr manifest);
      workspace ← j_opt_str (dump workspace);
      Some (mkDraft ActionPromote (SubjectComponent (mkComponentProof c version baseline)) checks check_set []
              manifest workspace)).
    by rewrite (parse_digest_ok v Hv), (parse_opt_digest_ok b Hb), (j_arr_dump parse_check checks parse_check_ok),
      (parse_digest_ok set_ Hc), (parse_digest_ok manifest Hm). }
  by destruct workspace.
Qed.
Lemma parse_draft_inv j d : parse_draft j = Some d → promotion_draft d.
Proof.
  unfold parse_draft. intros H. repeat (apply bind_Some in H as (? & ? & H)). injection H as <-.
  repeat match goal with H : _ ≫= _ = Some _ |- _ => apply bind_Some in H as (? & ? & H) end.
  split_and!; [done|done| |by eapply parse_digest_inv..].
  eexists. split; [done|]. split; [by eapply parse_digest_inv|by eapply parse_opt_digest_inv].
Qed.

(** ** Plans *)
Lemma parse_kind_ok p : plan_ok p → parse_kind (dump p) = Some p.
Proof.
  destruct p as [exact c t d id|exact c b t id|exact c b t d id|id op h r]; cbn [plan_ok]; intros Hp.
  - destruct Hp as [Ht Hd]. etrans.
    { assert (parse_kind (dump (InitialPromotionPlan exact c t d id)) = (
        target ← parse_digest (JStr t); draft ← parse_draft (dump d);
        Some (InitialPromotionPlan exact c target draft id))) as H by (by destruct exact). exact H. }
    by rewrite (parse_digest_ok t Ht), (parse_draft_ok d Hd).
  - destruct Hp as [Hb Ht]. etrans.
    { assert (parse_kind (dump (PromotionPlan exact c b t id)) = (
        baseline ← parse_opt_digest (dump b); target ← parse_digest (JStr t);
        Some (PromotionPlan exact c baseline target id))) as H by (by destruct exact). exact H. }
    by rewrite (parse_opt_digest_ok b Hb), (parse_digest_ok t Ht).
  - destruct Hp as (Hb & Ht & Hd). etrans.
    { assert (parse_kind (dump (RollbackPlan exact c b t d id)) = (
        baseline ← parse_opt_digest (JStr b); target ← parse_digest (JStr t); draft ← parse_draft (dump d);
        b ← baseline; Some (RollbackPlan exact c b target draft id))) as H by (by destruct exact). exact H. }
    change (parse_opt_digest (JStr b)) with (Some <$> parse_digest (JStr b)).
    by rewrite (parse_digest_ok b Hb), (parse_digest_ok t Ht), (parse_draft_ok d Hd).
  - etrans.
    { change (parse_kind _) with (hash ← parse_digest (JStr h); response ← parse_rejected (dump r);
        Some (ControlRejectPlan id op hash response)). exact eq_refl. }
    by rewrite (parse_digest_ok h Hp), parse_rejected_ok.
Qed.
Lemma parse_kind_inv j p : parse_kind j = Some p → plan_ok p.
Proof.
  unfold parse_kind. intros H. apply bind_Some in H as (exact & _ & H). apply bind_Some in H as (kind & _ & H).
  case_decide.
  - repeat (apply bind_Some in H as (? & ? & H)). injection H as <-.
    repeat match goal with H : _ ≫= _ = Some _ |- _ => apply bind_Some in H as (? & ? & H) end.
    by eapply parse_digest_inv.
  - do 4 (apply bind_Some in H as (? & ? & H)).
    repeat match goal with H : _ ≫= parse_digest = _ |- _ => apply bind_Some in H as (? & _ & H); apply parse_digest_inv in H
      | H : _ ≫= parse_opt_digest = _ |- _ => apply bind_Some in H as (? & _ & H); apply parse_opt_digest_inv in H end.
    case_decide; [by injection H as <-|]. apply bind_Some in H as (d & Hd & H).
    apply bind_Some in Hd as (? & _ & Hd%parse_draft_inv).
    case_decide; [by injection H as <-|]. case_decide; [|done].
    apply bind_Some in H as (b & -> & H). injection H as <-. split_and!; [auto|done|done].
Qed.
Lemma stored_plan_member p : j_get "plan" (_StoredPlan p) ≫= parse_kind = parse_kind (dump p).
Proof. done. Qed.
Lemma parse_stored op p : plan_ok p → plan_kind p ∈ expected_kinds op → _parse_stored_plan op (_StoredPlan p) = Ok p.
Proof.
  intros Hp Hk. unfold _parse_stored_plan. rewrite stored_plan_member, (parse_kind_ok p Hp), same_json_refl.
  change (negb _) with false. cbn [negb]. by rewrite decide_False by (intros Hn; by apply Hn).
Qed.
Lemma parse_stored_typed op raw p : _parse_stored_plan op raw = Ok p → is_object raw && has_key "schema_version" raw = true.
Proof. unfold _parse_stored_plan. by destruct (_ && _). Qed.
Lemma parse_stored_inv op raw p : _parse_stored_plan op raw = Ok p →
  plan_ok p ∧ plan_kind p ∈ expected_kinds op ∧ same_json raw (_StoredPlan p) = true.
Proof.
  intros H. unfold _parse_stored_plan in H. destruct (negb _); [done|].
  destruct (_ ≫= _) as [q|] eqn:E; [|done]. destruct (same_json raw _) eqn:Es; [|done]. cbn [negb] in H.
  case_decide as Hk; [done|]. injection H as ->. apply bind_Some in E as (? & _ & E%parse_kind_inv).
  done.
Qed.

(** ** Answers *)
Lemma parse_moved_ok m : answer_ok (Moved m) → parse_moved (dump m) = Some m.
Proof.
  destruct m as [st c b t [id rep] [uri dg]]. intros (Hb & Ht & Hd). cbn in Hb, Ht, Hd. etrans.
  { assert (parse_moved (dump (mkPromotionResult st c b t (mkMeta id rep) (mkDetail uri dg))) = (
      before ← parse_opt_digest (dump b); after ← parse_digest (JStr t);
      detail ← (dg ← parse_digest (JStr dg); Some (mkDetail uri dg));
      Some (mkPromotionResult st c before after (mkMeta id rep) detail))) as H by (by destruct st).
    exact H. }
  by rewrite (parse_opt_digest_ok b Hb), (parse_digest_ok t Ht), (parse_digest_ok dg Hd).
Qed.
Lemma parse_moved_inv j m : parse_moved j = Some m → answer_ok (Moved m).
Proof.
  unfold parse_moved. intros H. repeat (apply bind_Some in H as (? & ? & H)). injection H as <-.
  repeat match goal with H : _ ≫= _ = Some _ |- _ => apply bind_Some in H as (? & ? & H) end.
  split_and!; [by eapply parse_opt_digest_inv|by eapply parse_digest_inv|].
  match goal with H : parse_detail _ = Some _ |- _ => unfold parse_detail in H;
    apply bind_Some in H as (? & _ & H); apply bind_Some in H as (? & Hd & [= <-]) end.
  cbn. apply bind_Some in Hd as (? & _ & Hd). by eapply parse_digest_inv.
Qed.
Lemma lossless_ok a m : answer_ok a → model_validate m (dump a) = Some a → lossless_as (dump a) m = Some a.
Proof. intros Ha Hm. unfold lossless_as. rewrite Hm. cbn [mbind option_bind]. by rewrite same_json_refl. Qed.
Lemma lossless_inv j m a : lossless_as j m = Some a →
  answer_ok a ∧ same_json j (dump a) = true ∧ model_validate m j = Some a.
Proof.
  intros (r & Hr & H)%bind_Some. destruct (same_json _ _) eqn:Es; [|done]. injection H as ->. split_and!; [|done|done].
  destruct m; apply fmap_Some in Hr as (x & Hx & ->); [by eapply parse_moved_inv|done].
Qed.
Lemma decode_ok a : answer_ok a → decode_current (dump a) response_types = Some a.
Proof.
  intros Ha. unfold decode_current. destruct a as [m|r].
  - assert (lossless_as (dump (Moved m)) AsPromotionCommandResult = Some (Moved m)) as H.
    { apply lossless_ok; [done|]. cbn [model_validate]. change (dump (Moved m)) with (dump m). by rewrite (parse_moved_ok m Ha). }
    unfold response_types. cbn [omap list_omap]. by rewrite H.
  - assert (lossless_as (dump (Refused r)) AsControlRejected = Some (Refused r)) as H.
    { apply lossless_ok; [done|]. cbn [model_validate]. change (dump (Refused r)) with (dump r). by rewrite parse_rejected_ok. }
    assert (lossless_as (dump (Refused r)) AsPromotionCommandResult = None) as H' by done.
    unfold response_types. cbn [omap list_omap]. by rewrite H', H.
Qed.
Lemma decode_inv j models a : decode_current j models = Some a → answer_ok a ∧ same_json j (dump a) = true.
Proof.
  intros H. apply head_Some_elem_of, list_elem_of_omap in H as (m & _ & H%lossless_inv). naive_solver.
Qed.
