(* ===== verification/Commands.v ===== *)
(** The recoverable registry commands
    ([src/constructicon/api/_control_commands.py]): authorize, claim, plan, apply
    once, record, and replay after loss.

    The executor runs over a plane, the command ledger and the registry of one
    database, beside other workers: before its n-th store call the rest of the
    world makes the move [env n], and [dies n] kills the process there. A method
    of the registry is one step, with its own reads and its compare-and-swap.
    Plans and answers of the eras before the typed envelope are read as the code
    reads them; the migration's witnesses of such plans are never found, so a
    refusal under one is damage. *)

From S2P Require Import Prelude Identity Address Component Run Effect Journal EffectStore RegistryStore Registry.
From S2P Require Import Control Ledger Detail Plans.

(** ** The plane and its steps *)
Record plane := mkPlane { pl_registry : registry; pl_ledger : ledger }.
Record world := mkWorld { the_plane : plane; step_no : nat }.
(** [JournalDamaged] raised by the executor itself. *)
Inductive control_damage :=
| ClaimDisappeared (command : string)
| PlanDamaged (command : string) (why : plan_fault)
| NoStoredPlan (command : string)
| RequestNotObject
| RejectionContradictsIdentity
| PlanContradictsRequest
| TargetNotRetained
| PolicyIdentityInvalid
| NoExactAuthority
| RejectionContradictsPlan (command : string)
| UnlawfulRejection (operation : string)
| NoEraEvidence (operation : string)
| TerminalWithoutResponse
| ClaimWithoutFence
| UnknownResponse
| LifecycleContradictsResponse
| TerminalUnplanned
| InvalidResponseMeta
| ResponseContradictsReceipt
| WrongPlanFamily (operation : string)
| ReceiptContradictsEdge (attestation : string)
| ReceiptWithoutAuthority (attestation : string)
| AttestationContradictsPlan (attestation : string)
| OtherPolicyIdentity
| DetailMissing (uri : string).
Inductive cexn :=
| Died
| FromLedger (e : lexn)
| FromRegistry (e : rexn)
| ControlDamaged (why : control_damage)
(** [TypeError]: a schema version that cannot be hashed *)
| UnhashableVersion.
Definition C := eff world cexn.

(** [AdmissionError] *)
Definition is_admission_error (e : rexn) : bool :=
  match e with AdmissionRefused _ | RollbackProofConsumed _ => true | _ => false end.
Definition is_registry_error (e : rexn) : bool :=
  match e with
  | CompositeWithImplementation _ | CompositeWithRequirements _ | BoundaryNotExported _ | MainModule _
  | NotColdImportable _ _ | ImplementationNotTarget _ | NoSuchVersion _ _ | NothingStable _ | NothingEarlier _
  | NoRetainedTarget _ _ => true
  | _ => false
  end.
(** [except ... as exc] of the registry's exceptions. *)
Definition except {A} (caught : rexn → bool) (m : C A) (handler : rexn → C A) : C A :=
  catch m (λ e, match e with
                | FromRegistry exc => if caught exc then handler exc else raise e
                | _ => raise e
                end).

Section executor.
Context (env : nat → plane → plane) (dies : nat → bool) (now : nat → Z) (stamp : nat → string).
Context (owner_id : string) (ttl : Z).
(** Python's [repr] of a string and [str] of an exception. *)
Context (repr : string → string) (str_exc : rexn → string).

Definition step {A} (m : nat → plane → result cexn A * plane) : C A := λ w,
  if dies w.(step_no) then (Raise Died, w)
  else let '(r, p) := m w.(step_no) (env w.(step_no) w.(the_plane)) in (r, mkWorld p (S w.(step_no))).
Definition on_ledger {A} (m : Z → L A) : C A := step (λ n p,
  let '(r, l) := m (now n) p.(pl_ledger) in
  (match r with Ok a => Ok a | Raise e => Raise (FromLedger e) end, mkPlane p.(pl_registry) l)).
Definition on_registry {A} (m : string → R A) : C A := step (λ n p,
  let '(r, s) := m (stamp n) p.(pl_registry) in
  (match r with Ok a => Ok a | Raise e => Raise (FromRegistry e) end, mkPlane s p.(pl_ledger))).
Definition damage {A} (why : control_damage) : C A := raise (ControlDamaged why).

Definition promotion_for (id : string) : C (option PromotionRecord) :=
  on_registry (λ _, promotion_for_attestation id).
Definition attestation_for (id : string) : C (option Attestation) :=
  on_registry (λ _, on_journal (load_attestation id)).
Definition stable_version_of (component : string) : C (option Digest) :=
  on_registry (λ _, current_stable_version component).
Definition required_reference (component : string) (version : Digest) : C DetailRef :=
  let* reference := on_registry (λ _, component_reference component version) in
  match reference with
  | Some d => eret d
  | None => damage (DetailMissing (DetailAddress.component component version))
  end.

(** ** Plans *)
Definition _command_record (c : CommandClaim) : C CommandRecord :=
  let* found := on_ledger (λ _, command c.(cc_command)) in
  match found with Some r => eret r | None => damage (ClaimDisappeared c.(cc_command)) end.
(** Answers of the first two schemas are read as today's. *)
Definition _normalize_legacy_response (value : json) (model : answer_model) : C (option json) :=
  match value with
  | JObj members =>
      match legacy_version value with
      | None => raise UnhashableVersion
      | Some false => eret None
      | Some true =>
          let upgraded := Dict.set "schema_version" (JInt 3) members in
          match model with
          | AsControlRejected => eret (Some (JObj upgraded))
          | AsPromotionCommandResult =>
              match j_get "component" (JObj upgraded), j_get "to_version" (JObj upgraded) with
              | Some (JStr component), Some (JStr to_version) =>
                  match Digest_well_formed to_version with
                  | Raise _ => eret None
                  | Ok version =>
                      let* detail := required_reference component version in
                      eret (Some (JObj (Dict.set "detail" (dump detail) upgraded)))
                  end
              | _, _ => eret None
              end
          end
      end
  | _ => eret None
  end.
Fixpoint decode_upgraded (value : json) (models : list answer_model) : C response :=
  match models with
  | [] => damage UnknownResponse
  | model :: rest =>
      let* upgraded := _normalize_legacy_response value model in
      match upgraded ≫= λ u, lossless_as u model with
      | Some decoded => eret decoded
      | None => decode_upgraded value rest
      end
  end.
Definition _decode_response (value : json) (models : list answer_model) : C response :=
  match decode_current value models with
  | Some decoded => eret decoded
  | None => decode_upgraded value models
  end.
(** [except (TypeError, ValueError, ValidationError)] *)
Definition except_invalid {A} (m handler : C A) : C A :=
  catch m (λ e, match e with
                | UnhashableVersion => handler
                | FromRegistry exc => if is_value_error exc then handler else raise e
                | _ => raise e
                end).
(** For the operations of the promotion commands. *)
Definition _load_stored_plan (c : CommandClaim) (raw : json) : C command_plan :=
  let damaged {A} why : C A := damage (PlanDamaged c.(cc_command) why) in
  let checked {A} (r : result plan_fault A) : C A := match r with Ok a => eret a | Raise why => damaged why end in
  if is_object raw && has_key "schema_version" raw then checked (_parse_stored_plan c.(cc_operation) raw)
  else if negb (is_object raw) then damaged NotAnObject
  else
    let* record := _command_record c in
    except_invalid (
      if has_key "rejection" raw then
        let* rejected := checked (_object raw "rejection") in
        let* response := _decode_response rejected [AsControlRejected] in
        match response with
        | Refused r => eret (ControlRejectPlan c.(cc_command) c.(cc_operation) record.(cmd_request_hash) r)
        | Moved _ => (* not one of the models *) damage UnknownResponse
        end
      else if decide (c.(cc_operation) = "registry_promote") then
        let* component := checked (_string raw "component") in
        let* baseline := checked (_optional_digest (j_get "baseline" raw)) in
        let* target := checked (_string raw "version" ≫= legacy_digest) in
        let* id := checked (_string raw "attestation_id") in
        eret (PromotionPlan false component baseline target id)
      else if decide (c.(cc_operation) = "registry_rollback") then
        let* component := checked (_string raw "component") in
        let* baseline := checked (_string raw "expected_stable" ≫= legacy_digest) in
        let* target := checked (_string raw "target" ≫= legacy_digest) in
        let* planned := on_registry (λ _, plan_rollback_edge component baseline target) in
        eret (RollbackPlan false component baseline target planned.(pp_draft) planned.(pp_attestation))
      else damaged UnsupportedLegacyPlan)
      (damaged InvalidLegacyPlan).
Definition requests (request : json) (k v : string) : bool := bool_decide (j_get k request = Some (JStr v)).
Definition check_policy (draft : AttestationDraft) (id : string) (expected : PlannedPolicyPromotion) : C unit :=
  if negb (same_json (dump draft) (dump expected.(pp_draft))) || bool_decide (id ≠ expected.(pp_attestation))
  then damage PolicyIdentityInvalid else eret tt.
(** What a passing promotion proof of this edge says. *)
Definition authorizes (a : Attestation) (component : string) (target : Digest) (baseline : option Digest) : bool :=
  bool_decide (a.(att_draft).(dr_action) = ActionPromote)
  && match a.(att_draft).(dr_subject) with
     | SubjectComponent s =>
         bool_decide (s.(proof_component) = component) && bool_decide (s.(proof_version) = target)
         && bool_decide (s.(baseline_version) = baseline)
     | _ => false
     end
  && attestation_ok a.
Definition _validate_command_plan (c : CommandClaim) (plan : command_plan) : C unit :=
  let* record := _command_record c in
  let request := record.(cmd_request) in
  if negb (is_object request) then damage RequestNotObject else
  match plan with
  | ControlRejectPlan id op hash _ =>
      if bool_decide (id ≠ c.(cc_command)) || bool_decide (hash ≠ record.(cmd_request_hash))
         || bool_decide (op ≠ c.(cc_operation))
      then damage RejectionContradictsIdentity else eret tt
  | InitialPromotionPlan _ component target draft id =>
      if negb (requests request "component" component && requests request "version" target)
      then damage PlanContradictsRequest else
      let* expected := except (λ e, is_admission_error e || is_registry_error e)
        (on_registry (λ _, plan_initial_promotion component target)) (λ _, damage TargetNotRetained) in
      check_policy draft id expected
  | PromotionPlan _ component baseline target id =>
      if negb (requests request "component" component && requests request "version" target
               && requests request "attestation_id" id)
      then damage PlanContradictsRequest else
      let* a := attestation_for id in
      match a with
      | Some a => if authorizes a component target baseline then eret tt else damage NoExactAuthority
      | None => damage NoExactAuthority
      end
  | RollbackPlan _ component baseline target draft id =>
      if negb (requests request "component" component && requests request "expected_stable" baseline)
      then damage PlanContradictsRequest else
      let* expected := except is_registry_error
        (on_registry (λ _, plan_rollback_edge component baseline target)) (λ _, damage TargetNotRetained) in
      check_policy draft id expected
  end.

(** *** [_CommandSession] *)
Definition session_plan (c : CommandClaim) (value : command_plan) : C command_plan :=
  let* record := _command_record c in
  match record.(cmd_plan) with
  | None =>
      _validate_command_plan c value;;;
      on_ledger (λ now, store_command_plan c (_StoredPlan value) now);;;
      eret value
  | Some raw =>
      let* plan := _load_stored_plan c raw in
      _validate_command_plan c plan;;;
      eret plan
  end.
Definition session_load (c : CommandClaim) : C command_plan :=
  let* record := _command_record c in
  match record.(cmd_plan) with
  | None => damage (NoStoredPlan c.(cc_command))
  | Some raw =>
      let* plan := _load_stored_plan c raw in
      _validate_command_plan c plan;;;
      eret plan
  end.
Definition session_complete (c : CommandClaim) (r : response) : C unit :=
  let* _ := on_ledger (λ now, complete_command c (dump r) now) in eret tt.
Definition session_reject (c : CommandClaim) (r : ControlRejected) : C unit :=
  let* _ := on_ledger (λ now, reject_command c (dump r) now) in eret tt.

(** *** Refusals *)
Definition plan_operation (p : command_plan) : string :=
  match p with
  | InitialPromotionPlan _ _ _ _ _ => "registry_promote_initial"
  | PromotionPlan _ _ _ _ _ => "registry_promote"
  | RollbackPlan _ _ _ _ _ _ => "registry_rollback"
  | ControlRejectPlan _ op _ _ => op
  end.
Definition plan_exact (p : command_plan) : bool :=
  match p with
  | InitialPromotionPlan exact _ _ _ _ | PromotionPlan exact _ _ _ _ | RollbackPlan exact _ _ _ _ _ => exact
  | ControlRejectPlan _ _ _ _ => true
  end.
Definition _validate_terminal_rejection (record : CommandRecord) (plan : command_plan) (r : ControlRejected) : C unit :=
  match plan, plan_edge plan with
  | ControlRejectPlan id _ _ planned, _ =>
      if same_json (dump r) (dump planned) then eret tt else damage (RejectionContradictsPlan id)
  | _, Some e =>
      if decide (length r.(faults) ≠ 1) then damage (UnlawfulRejection record.(cmd_operation))
      else if decide (record.(cmd_operation) ≠ plan_operation plan) then damage (UnlawfulRejection record.(cmd_operation))
      else if negb (plan_exact plan) then damage (NoEraEvidence record.(cmd_operation))
      else if same_json (dump r) (dump (_canonical_domain_rejection repr e)) then eret tt
      else damage (RejectionContradictsPlan record.(cmd_id))
  | _, None => damage (UnlawfulRejection record.(cmd_operation))
  end.
Definition _terminal_rejection (c : CommandClaim) (r : ControlRejected) : C response :=
  let* record := _command_record c in
  let* plan :=
    match record.(cmd_plan) with
    | None => session_plan c (ControlRejectPlan c.(cc_command) c.(cc_operation) record.(cmd_request_hash) r)
    | Some raw =>
        let* plan := _load_stored_plan c raw in
        _validate_command_plan c plan;;;
        match plan with
        | ControlRejectPlan _ _ _ planned =>
            if same_json (dump planned) (dump r) then eret plan
            else damage (RejectionContradictsPlan c.(cc_command))
        | _ => eret plan
        end
    end in
  _validate_terminal_rejection record plan r;;;
  session_reject c r;;;
  eret (Refused r).
Definition _terminal_control_fault (c : CommandClaim) (code : ControlCode) (message repair : string) : C response :=
  _terminal_rejection c (one_fault code message repair []).

(** *** Receipts *)
Definition _validate_promotion_receipt (receipt : PromotionRecord) (e : edge) (draft : AttestationDraft) : C unit :=
  let id := e.(edge_proof) in
  if bool_decide (receipt.(promoted) ≠ e.(edge_component)) || bool_decide (receipt.(promo_channel) ≠ Stable)
     || bool_decide (receipt.(from_version) ≠ e.(edge_from)) || bool_decide (receipt.(to_version) ≠ e.(edge_to))
     || bool_decide (receipt.(Component.attestation_id) ≠ id) || bool_decide (receipt.(Component.source_run) ≠ None)
  then damage (ReceiptContradictsEdge id) else
  let* a := attestation_for id in
  match a with
  | None => damage (ReceiptWithoutAuthority id)
  | Some a =>
      let d := a.(att_draft) in
      if bool_decide (d.(dr_action) ≠ draft.(dr_action)) || bool_decide (d.(dr_subject) ≠ draft.(dr_subject))
         || negb (same_json (dump d.(dr_checks)) (dump draft.(dr_checks)))
         || bool_decide (d.(dr_check_set) ≠ draft.(dr_check_set)) || bool_decide (d.(dr_evidence) ≠ draft.(dr_evidence))
         || bool_decide (d.(dr_manifest) ≠ draft.(dr_manifest)) || bool_decide (d.(dr_workspace) ≠ draft.(dr_workspace))
         || bool_decide (a.(created_by_run) ≠ None)
      then damage (AttestationContradictsPlan id) else eret tt
  end.
Definition _validate_evaluated_promotion_receipt (receipt : PromotionRecord) (e : edge) : C unit :=
  let id := e.(edge_proof) in
  let* a := attestation_for id in
  match a with
  | None => damage (ReceiptWithoutAuthority id)
  | Some a =>
      if bool_decide (receipt.(promoted) ≠ e.(edge_component)) || bool_decide (receipt.(promo_channel) ≠ Stable)
         || bool_decide (receipt.(from_version) ≠ e.(edge_from)) || bool_decide (receipt.(to_version) ≠ e.(edge_to))
         || bool_decide (receipt.(Component.attestation_id) ≠ id)
         || bool_decide (receipt.(Component.source_run) ≠ a.(created_by_run))
         || negb (authorizes a e.(edge_component) e.(edge_to) e.(edge_from))
      then damage (ReceiptContradictsEdge id) else eret tt
  end.

(** *** Replay *)
Definition _claim_for_record (r : CommandRecord) : CommandClaim :=
  mkClaim r.(cmd_id) r.(cmd_actor).(actor_id) r.(cmd_operation) (default "replay:terminal" r.(cmd_owner))
    (max 1 r.(cmd_epoch)) r.(cmd_updated).
Definition response_status (plan : command_plan) : promotion_status :=
  match plan with RollbackPlan _ _ _ _ _ _ => RolledBack | _ => Promoted end.
Definition validate_receipt (plan : command_plan) (e : edge) (receipt : PromotionRecord) : C unit :=
  match plan with
  | InitialPromotionPlan _ _ _ draft _ | RollbackPlan _ _ _ _ draft _ => _validate_promotion_receipt receipt e draft
  | _ => _validate_evaluated_promotion_receipt receipt e
  end.
Definition _validate_terminal_response (record : CommandRecord) (r : response) : C unit :=
  if negb (Bool.eqb (bool_decide (record.(cmd_state) = CommandRejected)) (is_rejection r))
  then damage LifecycleContradictsResponse else
  match record.(cmd_plan) with
  | None => damage TerminalUnplanned
  | Some raw =>
      let c := _claim_for_record record in
      let* plan := _load_stored_plan c raw in
      _validate_command_plan c plan;;;
      match r with
      | Refused r => _validate_terminal_rejection record plan r
      | Moved m =>
          if bool_decide (m.(res_command).(meta_command) ≠ record.(cmd_id)) || m.(res_command).(replayed)
          then damage InvalidResponseMeta else
          match plan_edge plan with
          | None => damage (WrongPlanFamily record.(cmd_operation))
          | Some e =>
              let* receipt := promotion_for e.(edge_proof) in
              match receipt with
              | None => damage ResponseContradictsReceipt
              | Some receipt =>
                  if bool_decide (m.(res_status) ≠ response_status plan)
                     || bool_decide (m.(res_of) ≠ e.(edge_component))
                     || bool_decide (m.(res_from) ≠ e.(edge_from)) || bool_decide (m.(res_to) ≠ e.(edge_to))
                     || bool_decide (receipt.(promoted) ≠ e.(edge_component))
                     || bool_decide (receipt.(from_version) ≠ e.(edge_from))
                     || bool_decide (receipt.(to_version) ≠ e.(edge_to))
                     || bool_decide (receipt.(Component.attestation_id) ≠ e.(edge_proof))
                  then damage ResponseContradictsReceipt else
                  let* detail := required_reference e.(edge_component) e.(edge_to) in
                  if decide (m.(res_detail) ≠ detail) then damage ResponseContradictsReceipt
                  else validate_receipt plan e receipt
              end
          end
      end
  end.

(** *** Claiming *)
Inductive begun := Begun (c : CommandClaim) | Answered (r : response).
Definition key_message (why : key_error) : string :=
  match why with
  | KeyNotCanonical => "idempotency_key must be non-empty and canonical"
  | KeyTooLong => "idempotency_key exceeds 200 characters"
  end.
Definition named (r : option CommandRecord) : list (string * json) :=
  [("command_id", match r with Some r => JStr r.(cmd_id) | None => JNull end)].
Definition _begin_command (actor : AuthenticatedActor) (required_scope operation key : string) (request : json) :
    C begun :=
  match scope_refusal repr actor required_scope with
  | Some denied => eret (Answered (Refused denied))
  | None =>
      match validate_idempotency_key key with
      | Raise why =>
          eret (Answered (Refused (one_fault REQUEST_INVALID (key_message why)
            "submit canonical JSON and a non-empty bounded idempotency key" [])))
      | Ok key =>
          let* result := on_ledger (λ now,
            claim_command actor operation key (command_request_hash request) request owner_id ttl now) in
          match result.(claim_outcome) with
          | Conflict =>
              eret (Answered (Refused (one_fault IDEMPOTENCY_CONFLICT
                "this actor, operation, and idempotency key already name another request"
                "reuse the original arguments or choose a new idempotency key" (named result.(claim_record)))))
          | InProgress =>
              eret (Answered (Refused (one_fault COMMAND_IN_PROGRESS
                "the identical command is still owned by a live control worker"
                "poll commands_status and retry after its short claim expires" (named result.(claim_record)))))
          | Replayed =>
              match result.(claim_record) with
              | Some record =>
                  match record.(cmd_response) with
                  | None => damage TerminalWithoutResponse
                  | Some raw =>
                      let* decoded := _decode_response raw response_types in
                      _validate_terminal_response record decoded;;;
                      eret (Answered (_mark_replayed decoded))
                  end
              | None => damage TerminalWithoutResponse
              end
          | Claimed =>
              match result.(claimed) with
              | Some c => eret (Begun c)
              | None => damage ClaimWithoutFence
              end
          end
      end
  end.

(** ** The commands *)
Definition str_opt (d : option Digest) : string := default "None" d.
Definition _plan_promotion (component : string) (version : Digest) (id : string) :
    C (option Digest + ControlRejected) :=
  let* s := on_registry (λ _, snapshot None) in
  match snapshot_get s component version with
  | None => eret (inr (one_fault REGISTRY_VERSION_UNKNOWN
              ("component " +:+ repr component +:+ " has no retained version " +:+ version)
              "choose a version returned by registry_versions" []))
  | Some _ =>
      let* a := attestation_for id in
      match a with
      | None => eret (inr (one_fault REQUEST_INVALID ("attestation " +:+ repr id +:+ " is not journal-minted")
                  "use an attestation id returned by deterministic evaluation" []))
      | Some a =>
          let unauthorized := eret (inr (one_fault REQUEST_INVALID
            "attestation does not authorize this exact passing promotion"
            "submit the exact component/version bound by a passing promotion attestation" [])) in
          match a.(att_draft).(dr_subject) with
          | SubjectComponent subject =>
              if bool_decide (a.(att_draft).(dr_action) ≠ ActionPromote)
                 || bool_decide (subject.(proof_component) ≠ component)
                 || bool_decide (subject.(proof_version) ≠ version) || negb (attestation_ok a)
              then unauthorized else
              match stable_version s component with
              | Raise e => raise (FromRegistry (BadDigest e))
              | Ok current =>
                  if decide (subject.(baseline_version) ≠ current) then
                    eret (inr (one_fault REGISTRY_STABLE_MOVED
                      ("attestation baseline " +:+ str_opt subject.(baseline_version) +:+ " differs from stable "
                       +:+ str_opt current) "re-evaluate against the current stable version" []))
                  else eret (inl current)
              end
          | _ => unauthorized
          end
      end
  end.
Definition _promote_version (e : edge) (actor_id : string) : C PromotionRecord :=
  on_registry (λ at_, promote e.(edge_component) e.(edge_to) e.(edge_proof) actor_id None at_).
Definition promotion_refused (e : rexn) : bool := is_admission_error e || is_contract_violation e.
Definition _apply_policy_promotion (e : edge) (draft : AttestationDraft) (actor_id : string) :
    C (PromotionRecord + ControlRejected) :=
  let settled receipt := (_validate_promotion_receipt receipt e draft;;; eret (inl receipt)) in
  let* prior := promotion_for e.(edge_proof) in
  match prior with
  | Some prior => settled prior
  | None =>
      let* minted := on_registry (λ at_, on_journal (mint_policy_attestation draft at_)) in
      if decide (minted.(attestation_id) ≠ e.(edge_proof)) then damage OtherPolicyIdentity else
      let* prior := promotion_for e.(edge_proof) in
      match prior with
      | Some prior => settled prior
      | None =>
          let* current := stable_version_of e.(edge_component) in
          if decide (current ≠ e.(edge_from)) then
            let* prior := promotion_for e.(edge_proof) in
            match prior with
            | Some prior => settled prior
            | None => eret (inr (_canonical_domain_rejection repr e))
            end
          else
            let* receipt := except promotion_refused
              (let* receipt := _promote_version e actor_id in eret (inl receipt))
              (λ _, let* prior := promotion_for e.(edge_proof) in
                    match prior with
                    | None => eret (inr (_canonical_domain_rejection repr e))
                    | Some prior => eret (inl prior)
                    end) in
            match receipt with
            | inl receipt => settled receipt
            | inr rejection => eret (inr rejection)
            end
      end
  end.
(** The answer of a command that moved the pointer. *)
Definition promotion_answer (c : CommandClaim) (status : promotion_status) (component : string)
    (record : PromotionRecord) : C response :=
  let* detail := required_reference component record.(to_version) in
  let answer := Moved (mkPromotionResult status component record.(from_version) record.(to_version)
                         (mkMeta c.(cc_command) false) detail) in
  session_complete c answer;;;
  eret answer.

Definition registry_promote_initial (actor : AuthenticatedActor) (component : string) (version : Digest) (key : string) :
    C response :=
  let* begun := _begin_command actor ADMIN_SCOPE "registry_promote_initial" key
    (JObj [("component", JStr component); ("version", JStr version)]) in
  match begun with
  | Answered r => eret r
  | Begun c =>
      let* record := _command_record c in
      let* early :=
        match record.(cmd_plan) with
        | Some _ => eret None
        | None =>
            let* planned := except (λ e, promotion_refused e || is_registry_error e || is_value_error e)
              (let* p := on_registry (λ _, plan_initial_promotion component version) in eret (inl p))
              (λ exc, let* r := _terminal_control_fault c REGISTRY_VERSION_UNKNOWN (str_exc exc)
                        "register the exact target version before initial promotion" in eret (inr r)) in
            match planned with
            | inr r => eret (Some r)
            | inl planned =>
                let* prior := promotion_for planned.(pp_attestation) in
                let* stable := stable_version_of component in
                match prior, stable with
                | None, Some stable =>
                    let* r := _terminal_control_fault c REGISTRY_STABLE_MOVED
                      ("component " +:+ repr component +:+ " is already stable at " +:+ stable)
                      "use evaluated promotion for an established stable pointer" in
                    eret (Some r)
                | _, _ =>
                    let* _ := session_plan c
                      (InitialPromotionPlan true component version planned.(pp_draft) planned.(pp_attestation)) in
                    eret None
                end
            end
        end in
      match early with
      | Some r => eret r
      | None =>
          let* plan := session_load c in
          match plan with
          | ControlRejectPlan _ _ _ r => _terminal_rejection c r
          | InitialPromotionPlan _ planned target draft id =>
              let* applied := _apply_policy_promotion (mkEdge planned None target id) draft actor.(actor_id) in
              match applied with
              | inr r => _terminal_rejection c r
              | inl record => promotion_answer c Promoted record.(promoted) record
              end
          | _ => damage (WrongPlanFamily c.(cc_operation))
          end
      end
  end.

Definition registry_promote (actor : AuthenticatedActor) (component : string) (version : Digest) (id key : string) :
    C response :=
  let* begun := _begin_command actor PROMOTE_SCOPE "registry_promote" key
    (JObj [("component", JStr component); ("version", JStr version); ("attestation_id", JStr id)]) in
  match begun with
  | Answered r => eret r
  | Begun c =>
      let* record := _command_record c in
      let* early :=
        match record.(cmd_plan) with
        | Some _ => eret None
        | None =>
            let* planned := _plan_promotion component version id in
            match planned with
            | inr r => let* r := _terminal_rejection c r in eret (Some r)
            | inl baseline =>
                let* _ := session_plan c (PromotionPlan true component baseline version id) in eret None
            end
        end in
      match early with
      | Some r => eret r
      | None =>
          let* plan := session_load c in
          match plan with
          | ControlRejectPlan _ _ _ r => _terminal_rejection c r
          | PromotionPlan _ planned baseline target proof =>
              let e := mkEdge planned baseline target proof in
              let* prior := promotion_for proof in
              let* settled :=
                match prior with
                | Some prior => _validate_evaluated_promotion_receipt prior e;;; eret (inl prior)
                | None =>
                    let* current := stable_version_of planned in
                    if decide (current = Some target) then eret (inr (_canonical_domain_rejection repr e))
                    else if decide (current ≠ baseline) then eret (inr (_canonical_domain_rejection repr e))
                    else
                      let* receipt := except promotion_refused
                        (let* receipt := _promote_version e actor.(actor_id) in eret (inl receipt))
                        (λ _, let* prior := promotion_for proof in
                              match prior with
                              | None => eret (inr (_canonical_domain_rejection repr e))
                              | Some prior => eret (inl prior)
                              end) in
                      match receipt with
                      | inl receipt => _validate_evaluated_promotion_receipt receipt e;;; eret (inl receipt)
                      | inr r => eret (inr r)
                      end
                end in
              match settled with
              | inr r => _terminal_rejection c r
              | inl record => promotion_answer c Promoted planned record
              end
          | _ => damage (WrongPlanFamily c.(cc_operation))
          end
      end
  end.

Definition registry_rollback (actor : AuthenticatedActor) (component : string) (expected_stable : Digest) (key : string) :
    C response :=
  let* begun := _begin_command actor PROMOTE_SCOPE "registry_rollback" key
    (JObj [("component", JStr component); ("expected_stable", JStr expected_stable)]) in
  match begun with
  | Answered r => eret r
  | Begun c =>
      let* record := _command_record c in
      let* early :=
        match record.(cmd_plan) with
        | Some _ => eret None
        | None =>
            let* planned := except promotion_refused
              (let* p := on_registry (λ _, plan_rollback component (Some expected_stable)) in eret (inl p))
              (λ exc,
                let* r :=
                  match exc with
                  | RollbackProofConsumed _ =>
                      _terminal_control_fault c REGISTRY_ROLLBACK_PROOF_USED (str_exc exc)
                        "inspect promotion history; this proof cannot authorize another move"
                  | _ =>
                      _terminal_control_fault c REGISTRY_STABLE_MOVED (str_exc exc)
                        "inspect registry state and retry with a new key"
                  end in
                eret (inr r)) in
            match planned with
            | inr r => eret (Some r)
            | inl planned =>
                let* _ := session_plan c (RollbackPlan true component expected_stable planned.(pp_target)
                  planned.(pp_draft) planned.(pp_attestation)) in
                eret None
            end
        end in
      match early with
      | Some r => eret r
      | None =>
          let* plan := session_load c in
          match plan with
          | ControlRejectPlan _ _ _ r => _terminal_rejection c r
          | RollbackPlan _ planned baseline target draft id =>
              let* applied := _apply_policy_promotion (mkEdge planned (Some baseline) target id) draft actor.(actor_id) in
              match applied with
              | inr r => _terminal_rejection c r
              | inl record => promotion_answer c RolledBack planned record
              end
          | _ => damage (WrongPlanFamily c.(cc_operation))
          end
      end
  end.
End executor.
