(* ===== verification/CommandSpec.v ===== *)
(** What the registry commands keep of the plane they run on ([Commands]): the
    invariant of the ledger's rows over the registry, the moves the rest of the
    world may make, and the rules by which a command is proved. *)

From S2P Require Import Prelude Identity Address Component Manifest Run Effect Journal EffectStore.
From S2P Require Import RegistryStore Registry JournalSpec EffectSpec RegistrySpec RegistryLaws RollbackSpec.
From S2P Require Import Control Ledger LedgerSpec Detail DetailLaws Plans PlanLaws Commands.

(** ** Orders: what an actor asks for *)
Inductive order :=
| PromoteInitial (component : string) (version : Digest)
| Promote (component : string) (version : Digest) (proof : string)
| Rollback (component : string) (expected : Digest).
Definition order_operation (o : order) : string :=
  match o with
  | PromoteInitial _ _ => "registry_promote_initial"
  | Promote _ _ _ => "registry_promote"
  | Rollback _ _ => "registry_rollback"
  end.
Definition order_request (o : order) : json :=
  match o with
  | PromoteInitial component version => JObj [("component", JStr component); ("version", JStr version)]
  | Promote component version proof =>
      JObj [("component", JStr component); ("version", JStr version); ("attestation_id", JStr proof)]
  | Rollback component expected => JObj [("component", JStr component); ("expected_stable", JStr expected)]
  end.
Definition order_component (o : order) : string :=
  match o with PromoteInitial c _ | Promote c _ _ | Rollback c _ => c end.
Definition order_scope (o : order) : string :=
  match o with PromoteInitial _ _ => ADMIN_SCOPE | _ => PROMOTE_SCOPE end.
Definition promotion_operations : list string :=
  ["registry_promote_initial"; "registry_promote"; "registry_rollback"].
Lemma order_operation_elem o : order_operation o ∈ promotion_operations.
Proof. destruct o; set_solver. Qed.
Lemma order_request_wf o : wf_json (order_request o).
Proof. destruct o; apply wf_json_fields; repeat constructor; set_solver. Qed.
Lemma order_request_inj o o' : order_operation o = order_operation o' →
  same_json (order_request o) (order_request o') = true → o = o'.
Proof.
  unfold same_json. rewrite bool_decide_eq_true. intros Ho H.
  apply canonical_text_inj in H; [|apply order_request_wf..].
  destruct o, o'; try discriminate Ho; vm_compute in H; congruence.
Qed.

(** ** What a row of the ledger says of the registry *)
Definition component_detail (row : component_row) : DetailRef :=
  mkDetail (DetailAddress.component row.(cr_name) row.(cr_hash)) (digest_of "detail" 1 (dump (stored_of row))).
Definition policy_is (p : PlannedPolicyPromotion) (draft : AttestationDraft) (id : string) : Prop :=
  p.(pp_draft) = draft ∧ p.(pp_attestation) = id.
(** The plan is of this order, and what it relies on is retained. *)
Definition plan_true (s : registry) (r : CommandRecord) (o : order) (p : command_plan) : Prop :=
  match p, o with
  | ControlRejectPlan id op hash _, _ => id = r.(cmd_id) ∧ op = r.(cmd_operation) ∧ hash = r.(cmd_request_hash)
  | InitialPromotionPlan exact c target draft id, PromoteInitial component version =>
      exact = true ∧ c = component ∧ target = version ∧ has_version s c target ∧
      policy_is (policy_plan c target None BOOTSTRAP BOOTSTRAP_DETAIL) draft id
  | PromotionPlan exact c baseline target id, Promote component version proof =>
      exact = true ∧ c = component ∧ target = version ∧ id = proof ∧ has_version s c target ∧
      (∀ d, baseline = Some d → has_version s c d) ∧
      ∃ a, Dict.get id s.(reg_journal).(attested) = Some a ∧ authorizes a c target baseline = true
  | RollbackPlan exact c baseline target draft id, Rollback component expected =>
      exact = true ∧ c = component ∧ baseline = expected ∧ has_version s c target ∧ has_version s c baseline ∧
      policy_is (policy_plan c target (Some baseline) "rollback" (rollback_detail baseline target)) draft id
  | _, _ => False
  end.
(** What the proof of a planned policy move is compared by. *)
Definition draft_agrees (d draft : AttestationDraft) : Prop :=
  d.(dr_action) = draft.(dr_action) ∧ d.(dr_subject) = draft.(dr_subject) ∧
  same_json (dump d.(dr_checks)) (dump draft.(dr_checks)) = true ∧ d.(dr_check_set) = draft.(dr_check_set) ∧
  d.(dr_evidence) = draft.(dr_evidence) ∧ d.(dr_manifest) = draft.(dr_manifest) ∧
  d.(dr_workspace) = draft.(dr_workspace).
(** The receipt of an edge, and the proof it spends. *)
Definition receipt_true (s : registry) (p : command_plan) (e : edge) (q : PromotionRecord) : Prop :=
  q.(promoted) = e.(edge_component) ∧ q.(from_version) = e.(edge_from) ∧ q.(to_version) = e.(edge_to) ∧
  q.(Component.attestation_id) = e.(edge_proof) ∧
  ∃ a, Dict.get e.(edge_proof) s.(reg_journal).(attested) = Some a ∧ q.(source_run) = a.(created_by_run) ∧
    match p with
    | InitialPromotionPlan _ _ _ draft _ | RollbackPlan _ _ _ _ draft _ =>
        draft_agrees a.(att_draft) draft ∧ a.(created_by_run) = None
    | _ => authorizes a e.(edge_component) e.(edge_to) e.(edge_from) = true
    end.
Definition moved_true (s : registry) (command : string) (p : command_plan) (m : PromotionCommandResult) : Prop :=
  ∃ e row c, plan_edge p = Some e ∧ move_of s e.(edge_proof) = Some row ∧ receipt_true s p e row.(pr_record) ∧
    component_of s e.(edge_component) e.(edge_to) = Some c ∧ e.(edge_component) ≠ "" ∧
    m = mkPromotionResult (response_status p) e.(edge_component) e.(edge_from) e.(edge_to)
          (mkMeta command false) (component_detail c).
Section repr.
Context (repr : string → string).
Definition refusal_of (p : command_plan) (x : ControlRejected) : Prop :=
  match p with
  | ControlRejectPlan _ _ _ planned => same_json (dump x) (dump planned) = true
  | _ => ∃ e, plan_edge p = Some e ∧ length x.(faults) = 1 ∧
           same_json (dump x) (dump (_canonical_domain_rejection repr e)) = true
  end.
Definition answer_true (s : registry) (r : CommandRecord) (p : command_plan) (a : response) : Prop :=
  match a with
  | Refused x => r.(cmd_state) = CommandRejected ∧ refusal_of p x
  | Moved m => r.(cmd_state) = CommandCommitted ∧ moved_true s r.(cmd_id) p m
  end.
Definition row_of_order (s : registry) (r : CommandRecord) (o : order) : Prop :=
  r.(cmd_operation) = order_operation o ∧ r.(cmd_request) = order_request o ∧
  ∀ raw, r.(cmd_plan) = Some raw →
    ∃ p, _parse_stored_plan r.(cmd_operation) raw = Ok p ∧ plan_true s r o p ∧
      ∀ stored, r.(cmd_response) = Some stored →
        ∃ a, decode_current stored response_types = Some a ∧ answer_true s r p a.
Definition row_true (s : registry) (r : CommandRecord) : Prop :=
  r.(cmd_operation) ∈ promotion_operations → ∃ o, row_of_order s r o.
Record plane_good (p : plane) : Prop := {
  pg_registry : reg_ok p.(pl_registry);
  pg_ledger : ledger_good p.(pl_ledger);
  pg_rows id r : Dict.get id p.(pl_ledger).(commands) = Some r → row_true p.(pl_registry) r;
  (* these commands write no domain fact *)
  pg_facts id fact : Dict.get id p.(pl_ledger).(owned) = Some fact →
    ∃ r, Dict.get id p.(pl_ledger).(commands) = Some r ∧ r.(cmd_operation) ∉ promotion_operations;
}.
End repr.
Lemma plane_good_new repr : plane_good repr (mkPlane new_registry new_ledger).
Proof. split; [apply reg_ok_new|apply ledger_good_new|done..]. Qed.

(** ** What only grows *)
Definition plane_le (p p' : plane) : Prop :=
  rtc rstep p.(pl_registry) p'.(pl_registry) ∧ rtc lstep p.(pl_ledger) p'.(pl_ledger).
#[export] Instance plane_le_preorder : PreOrder plane_le.
Proof. split; [by intros p|]. intros a b c [H K] [H' K']. split; by etrans. Qed.
Lemma has_version_le s s' c h : rtc rstep s s' → has_version s c h → has_version s' c h.
Proof.
  intros [Hc _]%grown (row & Hin & Hk). exists row. split; [|done]. destruct Hc as [k ->]. by apply elem_of_app; left.
Qed.
Lemma attested_le s s' id a : rtc rstep s s' → Dict.get id s.(reg_journal).(attested) = Some a →
  Dict.get id s'.(reg_journal).(attested) = Some a.
Proof.
  induction 1 as [|s s1 s2 Hs _ IH]; [done|]. intros Ha. apply IH.
  destruct Hs; [by eapply proofs_step|done..].
Qed.
Lemma filter_head_le {A} (P : A → Prop) `{∀ x, Decision (P x)} l k x :
  l `prefix_of` k → head (filter P l) = Some x → head (filter P k) = Some x.
Proof. intros [m ->]. rewrite filter_app. by destruct (filter P l). Qed.
Lemma component_of_le s s' c h row : rtc rstep s s' → component_of s c h = Some row → component_of s' c h = Some row.
Proof. intros [Hc _]%grown. by apply filter_head_le. Qed.
Lemma move_of_le s s' id row : rtc rstep s s' → move_of s id = Some row → move_of s' id = Some row.
Proof. intros [_ Hp]%grown. by apply filter_head_le. Qed.
Lemma plan_true_le s s' r o p : rtc rstep s s' → plan_true s r o p → plan_true s' r o p.
Proof.
  intros Hs. destruct p, o; try done; cbn [plan_true].
  - naive_solver eauto using has_version_le.
  - intros (? & ? & ? & ? & ? & Hb & a & Ha & ?). split_and!; try done; [by eapply has_version_le| |].
    + intros d Hd. by eapply has_version_le, Hb.
    + exists a. split; [by eapply attested_le|done].
  - naive_solver eauto using has_version_le.
Qed.
Lemma receipt_true_le s s' p e q : rtc rstep s s' → receipt_true s p e q → receipt_true s' p e q.
Proof.
  intros Hs (? & ? & ? & ? & a & Ha & ?). split_and!; try done. exists a. split; [by eapply attested_le|done].
Qed.
Lemma moved_true_le s s' id p m : rtc rstep s s' → moved_true s id p m → moved_true s' id p m.
Proof.
  intros Hs (e & row & c & ? & ? & ? & ? & ? & ?). exists e, row, c.
  split_and!; try done; [by eapply move_of_le|by eapply receipt_true_le|by eapply component_of_le].
Qed.
Lemma row_true_le repr s s' r : rtc rstep s s' → row_true repr s r → row_true repr s' r.
Proof.
  intros Hs H Hop. destruct (H Hop) as (o & Ho & Hq & Hp). exists o. split_and!; [done..|].
  intros raw Hraw. destruct (Hp raw Hraw) as (p & Hl & Ht & Ha). exists p.
  split_and!; [done|by eapply plan_true_le|]. intros stored Hst. destruct (Ha stored Hst) as (a & Hd & Hat).
  exists a. split; [done|]. destruct a as [m|x]; [|done]. destruct Hat as [? ?]. split; [done|by eapply moved_true_le].
Qed.

(** ** The rest of the world *)

(** The rows this executor owns: nobody else holds its token, so they stay as
    they are until another claim of the command takes them over. *)
Definition owned_by (owner_id : string) (p : plane) (id : string) (r : CommandRecord) : Prop :=
  Dict.get id p.(pl_ledger).(commands) = Some r ∧ terminal r = false ∧ r.(cmd_owner) = Some owner_id.
Definition fenced_off (owner_id : string) (p p' : plane) : Prop :=
  ∀ id r, owned_by owner_id p id r →
    ∃ r', Dict.get id p'.(pl_ledger).(commands) = Some r' ∧ (r' = r ∨ r.(cmd_epoch) < r'.(cmd_epoch)).
Definition undisturbed (owner_id : string) (p p' : plane) : Prop :=
  ∀ id r, owned_by owner_id p id r → Dict.get id p'.(pl_ledger).(commands) = Some r.
Lemma fenced_off_refl owner_id p p' : p'.(pl_ledger) = p.(pl_ledger) → fenced_off owner_id p p'.
Proof. intros Hl id r (Hr & _). exists r. rewrite Hl. split; [done|by left]. Qed.
Lemma fenced_off_trans owner_id a b c : plane_le b c → fenced_off owner_id a b → fenced_off owner_id b c →
  fenced_off owner_id a c.
Proof.
  intros [_ Hle] H K id r Hr. destruct (H id r Hr) as (r1 & H1 & [->|Hlt]).
  - apply K. by destruct Hr.
  - destruct (lsteps_le _ _ Hle) as [Hl _]. destruct (Hl _ _ H1) as (r2 & H2 & He).
    exists r2. split; [done|right]. pose proof (ev_epoch _ _ He). lia.
Qed.
(** [shield]: the world lets our claims be. [others]: workers it may not write for. *)
Record lawful (repr : string → string) (owner_id : string) (others : string → Prop) (shield : Prop) (p p' : plane) : Prop := {
  lw_good : plane_good repr p';
  lw_le : plane_le p p';
  lw_fenced : fenced_off owner_id p p';
  lw_others owner : others owner → fenced_off owner p p';
  lw_shield : shield → undisturbed owner_id p p';
}.
Lemma lawful_refl repr owner_id others shield p : plane_good repr p → lawful repr owner_id others shield p p.
Proof.
  intros Hp. split; [done|reflexivity|by apply fenced_off_refl|by intros ? _; apply fenced_off_refl|].
  by intros _ id r (Hr & _).
Qed.
#[export] Instance lawful_trans repr owner_id others shield : Transitive (lawful repr owner_id others shield).
Proof.
  intros a b c H K. split; [apply K|by etrans; [apply H|apply K]| | |].
  - eapply fenced_off_trans; [apply K|apply H|apply K].
  - intros owner Ho. eapply fenced_off_trans; [apply K|by apply H|by apply K].
  - intros Hs id r Hr. apply (lw_shield _ _ _ _ _ _ K Hs). destruct Hr as (Hr & Ht & Ho).
    split_and!; [|done|done]. by apply (lw_shield _ _ _ _ _ _ H Hs).
Qed.
(** What a command may do to the plane: any lawful step, *)
Definition moves_on (repr : string → string) (p p' : plane) : Prop := plane_good repr p' ∧ plane_le p p'.
#[export] Instance moves_on_trans repr : Transitive (moves_on repr).
Proof. intros a b c [_ H] [? K]. split; [done|by etrans]. Qed.
Lemma lawful_moves repr owner_id others shield p p' : lawful repr owner_id others shield p p' → moves_on repr p p'.
Proof. intros H. split; apply H. Qed.
(** and none for the others. *)
Record writes (repr : string → string) (others : string → Prop) (p p' : plane) : Prop := {
  wr_moves : moves_on repr p p';
  wr_others owner : others owner → fenced_off owner p p';
}.
#[export] Instance writes_trans repr others : Transitive (writes repr others).
Proof.
  intros a b c H K. split; [by etrans; [apply H|apply K]|]. intros owner Ho.
  eapply fenced_off_trans; [apply K|by apply H|by apply K].
Qed.
Lemma lawful_writes repr owner_id others shield p p' : lawful repr owner_id others shield p p' → writes repr others p p'.
Proof. intros H. split; [by eapply lawful_moves|apply H]. Qed.

(** ** Proving a command *)
Section wp.
Context (env : nat → plane → plane) (dies : nat → bool) (now : nat → Z) (stamp : nat → string).
Context (repr : string → string) (shield mortal : Prop).
(** [rely]: the moves of the world. *)
Context (rely : plane → plane → Prop) (rely_refl : ∀ p, plane_good repr p → rely p p).
Context (rely_good : ∀ p p', rely p p' → plane_good repr p').
Context (env_rely : ∀ n p, plane_good repr p → rely p (env n p)).
Context (dies_mortal : ∀ n, dies n = true → mortal).
(** Errors that are not the fault of the order: the process died, or another
    worker took the claim over. [stuck] are the others. *)
Context (stuck : cexn → plane → Prop).
Definition expected_error (e : cexn) (p : plane) : Prop := (e = Died ∧ mortal) ∨ ¬ shield ∨ stuck e p.
Definition post {A} (P : A → plane → Prop) (r : result cexn A) (p : plane) : Prop :=
  match r with Ok a => P a p | Raise e => expected_error e p end.

(** [R] is how far the computation may move the plane. *)
Context (R : plane → plane → Prop) `{!Transitive R} (R_rely : ∀ p p', rely p p' → R p p').
Definition wp {A} (m : C A) (Q : result cexn A → plane → Prop) (p : plane) : Prop :=
  ∀ n, let '(r, w) := m (mkWorld p n) in R p w.(the_plane) ∧ Q r w.(the_plane).
Definition spec {A} (m : C A) (P : A → plane → Prop) (p : plane) : Prop := wp m (post P) p.

Lemma wp_mono {A} (m : C A) (Q Q' : result cexn A → plane → Prop) p :
  wp m Q p → (∀ r p', R p p' → Q r p' → Q' r p') → wp m Q' p.
Proof. intros H HQ n. specialize (H n). destruct (m _) as [r w]. destruct H as (? & ?). split; auto. Qed.
Lemma wp_bind {A B} (m : C A) (f : A → C B) (Q : result cexn B → plane → Prop) p :
  wp m (λ r p', match r with Ok a => wp (f a) Q p' | Raise e => Q (Raise e) p' end) p → wp (ebind m f) Q p.
Proof.
  intros H n. specialize (H n). unfold ebind. destruct (m _) as [[a|e] [p1 n1]]; [|done]. cbn [the_plane] in H.
  destruct H as (HR & H). specialize (H n1). destruct (f a _) as [r w]. destruct H as (? & ?).
  split; [by etrans|done].
Qed.
Lemma wp_except {A} (caught : rexn → bool) (m : C A) (handler : rexn → C A) (Q : result cexn A → plane → Prop) p :
  wp m (λ r p', match r with
                | Raise (FromRegistry e) => if caught e then wp (handler e) Q p' else Q (Raise (FromRegistry e)) p'
                | _ => Q r p'
                end) p → wp (except caught m handler) Q p.
Proof.
  intros H n. specialize (H n). unfold except, catch. destruct (m _) as [[a|e] [p1 n1]]; [done|]. cbn [the_plane] in H.
  destruct H as (HR & H). destruct e as [|e|e|e|]; try done. destruct (caught e); [|done].
  specialize (H n1). destruct (handler e _) as [r w]. destruct H as (? & ?). split; [by etrans|done].
Qed.
(** One call of a store, after a move of the world. *)
Lemma wp_step {A} (m : nat → plane → result cexn A * plane) (Q : result cexn A → plane → Prop) p :
  plane_good repr p → (mortal → Q (Raise Died) p) →
  (∀ n p', rely p p' → let '(r, p'') := m n p' in R p' p'' ∧ Q r p'') →
  wp (step env dies m) Q p.
Proof.
  intros Hp Hd Hm n. unfold step. cbn [step_no the_plane]. destruct (dies n) eqn:En.
  { split; [by apply R_rely, rely_refl|eauto]. }
  pose proof (env_rely n p Hp) as Hl. specialize (Hm n _ Hl). destruct (m n _) as [r p''].
  destruct Hm as (? & ?). split; [|done]. cbn [the_plane]. by etrans; [apply R_rely, Hl|].
Qed.

(** *** The rules for [spec] *)
Lemma spec_ret {A} (a : A) P p : plane_good repr p → P a p → spec (eret a) P p.
Proof. intros Hp HP n. split; [by apply R_rely, rely_refl|done]. Qed.
Lemma spec_mono {A} (m : C A) (P P' : A → plane → Prop) p :
  spec m P p → (∀ a p', R p p' → P a p' → P' a p') → spec m P' p.
Proof. intros H HP. eapply wp_mono; [exact H|]. intros [a|e] p' HR HQ; [by apply HP|done]. Qed.
Lemma spec_bind {A B} (m : C A) (f : A → C B) P P' p :
  spec m P p → (∀ a p', R p p' → P a p' → spec (f a) P' p') → spec (ebind m f) P' p.
Proof.
  intros H Hf. apply wp_bind. eapply wp_mono; [exact H|]. intros [a|e] p' HR HQ; [by apply Hf|exact HQ].
Qed.
Lemma spec_damage {A} why (P : A → plane → Prop) p :
  plane_good repr p → expected_error (ControlDamaged why) p → spec (damage why) P p.
Proof. intros Hp HQ n. split; [by apply R_rely, rely_refl|done]. Qed.
Lemma expected_died p : mortal → expected_error Died p.
Proof. intros H. by left. Qed.

(** A call of the registry that reads: its answer is a function of the registry. *)
Lemma wp_registry {A} (m : string → RegistryStore.R A) (Q : result cexn A → plane → Prop) (r : registry → result rexn A) p :
  plane_good repr p → (∀ at_ s, reg_ok s → m at_ s = (r s, s)) → (mortal → Q (Raise Died) p) →
  (∀ p', rely p p' →
     Q (match r p'.(pl_registry) with Ok a => Ok a | Raise e => Raise (FromRegistry e) end) p') →
  wp (on_registry env dies stamp m) Q p.
Proof.
  intros Hp Hm Hd HQ. apply wp_step; [done|done|]. intros n p' Hl. rewrite Hm by apply (pg_registry _ _ (rely_good _ _ Hl)).
  specialize (HQ p' Hl). destruct p' as [s l]. split; [|done]. by eapply R_rely, rely_refl, rely_good.
Qed.
Lemma spec_registry {A} (m : string → RegistryStore.R A) (P : A → plane → Prop) (a : registry → A) p :
  plane_good repr p → (∀ at_ s, reg_ok s → m at_ s = (Ok (a s), s)) →
  (∀ p', rely p p' → P (a p'.(pl_registry)) p') →
  spec (on_registry env dies stamp m) P p.
Proof.
  intros Hp Hm HP. apply (wp_registry m _ (λ s, Ok (a s))); [done|exact Hm|apply expected_died|exact HP].
Qed.
Lemma spec_ledger {A} (m : Z → Ledger.L A) (P : A → plane → Prop) (a : ledger → A) p :
  plane_good repr p → (∀ at_ s, ledger_ok s → m at_ s = (Ok (a s), s)) →
  (∀ p', rely p p' → P (a p'.(pl_ledger)) p') →
  spec (on_ledger env dies now m) P p.
Proof.
  intros Hp Hm HP. apply wp_step; [done|apply expected_died|]. intros n p' Hl.
  rewrite Hm by apply (pg_ledger _ _ (rely_good _ _ Hl)).
  specialize (HP p' Hl). destruct p' as [s l]. split; [|done]. by eapply R_rely, rely_refl, rely_good.
Qed.
End wp.
