(* ===== verification/CommandSteps.v ===== *)
(** The calls of a registry command over a good plane ([CommandSpec]): what each
    store call reads or writes, and what the checks between them establish. *)

From S2P Require Import Prelude Identity Address Component Manifest Run Effect Journal EffectStore.
From S2P Require Import RegistryStore Registry JournalSpec EffectSpec RegistrySpec RegistryLaws RollbackSpec.
From S2P Require Import Control Ledger LedgerSpec Detail DetailLaws Plans PlanLaws Commands CommandSpec.

(** ** The reads of a sound registry *)
Section reads.
Context (s : registry) (Hok : reg_ok s).
Lemma same_registry : mkRegistry s.(reg_journal) s.(component_rows) s.(promotion_rows) = s.
Proof. by destruct s. Qed.
Lemma load_ok id : on_journal (load_attestation id) s = (Ok (Dict.get id s.(reg_journal).(attested)), s).
Proof.
  unfold on_journal, load_attestation, ebind, get, lift. cbn [fst].
  rewrite (stored_attestation_good _ _ (ro_facts _ Hok)). cbn. by rewrite same_registry.
Qed.
Lemma stable_ok c : current_stable_version c s = (Ok (pointer s.(promotion_rows) c), s).
Proof. unfold current_stable_version, ebind. rewrite (snapshot_now s Hok). apply (stable_now s Hok). Qed.
Lemma initial_plan_ok c v : plan_initial_promotion c v s =
  (match component_of s c v with
   | Some _ => Ok (policy_plan c v None BOOTSTRAP BOOTSTRAP_DETAIL)
   | None => Raise (NoSuchVersion c v)
   end, s).
Proof.
  unfold plan_initial_promotion, ebind. rewrite (snapshot_now s Hok), (snapshot_get_current s Hok).
  by destruct (component_of s c v).
Qed.
Lemma rollback_edge_ok c b t : plan_rollback_edge c b t s =
  (match component_of s c t with
   | Some _ => Ok (policy_plan c t (Some b) "rollback" (rollback_detail b t))
   | None => Raise (NoRetainedTarget c t)
   end, s).
Proof.
  unfold plan_rollback_edge, ebind. rewrite (snapshot_now s Hok), (snapshot_get_current s Hok).
  by destruct (component_of s c t).
Qed.
Lemma component_parsed c v :
  parsed (DetailAddress.component c v) = ("constructicon", "components", filter (λ s, s ≠ "") [c; v]).
Proof. apply (uri_parsed (DComponent c v)). Qed.
Lemma component_of_key c v row : component_of s c v = Some row → row.(cr_name) = c ∧ row.(cr_hash) = v.
Proof. intros H. apply elem_of_component in H as [_ [= -> ->]]. done. Qed.
Lemma reference_ok c v :
  component_reference c v s = (Ok (if decide (c = "") then None else component_detail <$> component_of s c v), s).
Proof.
  unfold component_reference, ebind, resolve_component. rewrite component_parsed.
  rewrite !filter_cons, filter_nil. destruct (decide (c = "")) as [->|Hc].
  { rewrite decide_False by (intros Hn; by apply Hn). by case_decide. }
  rewrite decide_True by done. destruct (decide (v = "")) as [->|Hv].
  { rewrite decide_False by (intros Hn; by apply Hn).
    destruct (component_of s c "") as [row|] eqn:E; [|done].
    assert (has_version s c "") as H%(version_digest s Hok) by (apply (has_version_iff s); by eexists). done. }
  rewrite decide_True by done. unfold catch, ebind, lift.
  destruct (is_ok (Digest_well_formed v)) eqn:Ev.
  - rewrite (well_formed_value v Ev). cbn [fmap result_fmap to_digest].
    rewrite (snapshot_now s Hok), (snapshot_get_current s Hok). cbn [default from_option id].
    destruct (component_of s c v) as [row|] eqn:E; [|done]. destruct (component_of_key c v row E) as [<- <-]. done.
  - assert (component_of s c v = None) as ->.
    { destruct (component_of s c v) as [row|] eqn:E; [|done].
      assert (has_version s c v) as H%(version_digest s Hok) by (apply (has_version_iff s); by eexists). congruence. }
    by destruct (Digest_well_formed v).
Qed.
End reads.

(** ** Plans that hold of a registry *)
Lemma policy_draft_is c v b policy detail : policy_draft (policy_plan c v b policy detail).(pp_draft).
Proof. split; [done|by eexists]. Qed.
Lemma policy_promotion_draft s c v b policy detail : reg_ok s → has_version s c v →
  (∀ d, b = Some d → has_version s c d) → promotion_draft (policy_plan c v b policy detail).(pp_draft).
Proof.
  intros Hok Hv Hb. split_and!; [done|done| |apply digest_ok..]. eexists. split; [done|]. split.
  - by apply (version_digest s Hok c).
  - intros d Hd. by eapply (version_digest s Hok c), Hb.
Qed.
Lemma plan_true_ok s r o p : reg_ok s → command_row_ok r = true → plan_true s r o p → plan_ok p.
Proof.
  intros Hok Hr. pose proof (version_digest s Hok) as Hv. destruct p as [e c t d id|e c b t id|e c b t d id|id op h x], o; try done; cbn [plan_true plan_ok].
  all: try (intros (_ & _ & ->); unfold command_row_ok in Hr; rewrite !andb_true_iff, !bool_decide_eq_true in Hr;
            destruct Hr as [[[_ Hh] _] _]; rewrite Hh; apply digest_ok).
  - intros (_ & _ & _ & Ht & <- & _). split; [by eapply Hv|]. by apply (policy_promotion_draft s).
  - intros (_ & _ & _ & _ & Ht & Hb & _). split; [intros ? ->; by eapply Hv, Hb|by eapply Hv].
  - intros (_ & _ & _ & Ht & Hb & <- & _). split_and!; [by eapply Hv..|].
    apply (policy_promotion_draft s); [done..|]. by intros ? [= <-].
Qed.
Lemma plan_true_kind s r o p : plan_true s r o p → plan_kind p ∈ expected_kinds (order_operation o).
Proof. destruct p, o; try done; intros _; vm_compute; set_solver. Qed.
Lemma plan_true_load s r o p : reg_ok s → command_row_ok r = true → plan_true s r o p →
  _parse_stored_plan (order_operation o) (_StoredPlan p) = Ok p.
Proof. intros Hok Hr Hp. by eapply parse_stored; [eapply plan_true_ok|eapply plan_true_kind]. Qed.
(** A plan of these commands passes the guards of the write boundary. *)
Lemma plan_true_guards s r o p now : r.(cmd_operation) = order_operation o → plan_true s r o p →
  plan_guards (with_plan (_StoredPlan p) now r) = Ok tt.
Proof.
  intros Ho Hp. unfold plan_guards, validated_new_resume_command_plan, validated_new_domain_command_plan,
    resume_plan_requires_historical_evidence, resume_domain_plan, domain_plan_requires_historical_evidence.
  cbn [with_plan cmd_plan cmd_operation]. rewrite Ho.
  destruct p as [e c t d id|e c b t id|e c b t d id|id op h x], o; try done; cbn [plan_true] in Hp.
  all: try (by destruct Hp as [-> _]). all: done.
Qed.

(** ** Receipts *)
Definition plan_draft (p : command_plan) : option AttestationDraft :=
  match p with
  | InitialPromotionPlan _ _ _ draft _ | RollbackPlan _ _ _ _ draft _ => Some draft
  | _ => None
  end.
(** A policy proof of this plan could be minted: no other attestation holds its identity. *)
Definition plan_mintable (j : store) (p : command_plan) : Prop :=
  match plan_draft p with Some d => mintable j d | None => True end.
Lemma mintable_dec j d : mintable j d ∨ ¬ mintable j d.
Proof.
  unfold mintable. destruct (Dict.get (attestation_id_for d) j.(attested)) as [a|]; [|by left].
  destruct (decide (a.(att_draft) = d ∧ a.(created_by_run) = None)); [left|right]; naive_solver.
Qed.
Lemma mintable_le s s' d : rtc rstep s s' → ¬ mintable s.(reg_journal) d → ¬ mintable s'.(reg_journal) d.
Proof. intros Hs Hn Hm. apply Hn. intros a Ha. by eapply Hm, attested_le. Qed.
Lemma no_faults a c v b run : promotion_attestation_faults a c v b run = [] →
  authorizes a c v b = true ∧ a.(created_by_run) = run.
Proof.
  unfold promotion_attestation_faults, authorizes.
  destruct (bool_decide_reflect (dr_action (att_draft a) ≠ ActionPromote)) as [|Ha]; [done|]. apply dec_stable in Ha.
  destruct (dr_subject (att_draft a)) as [|sub|]; [done| |done]. cbn [app].
  destruct (bool_decide_reflect (proof_component sub ≠ c)) as [|?%dec_stable]; [done|].
  destruct (bool_decide_reflect (proof_version sub ≠ v)) as [|?%dec_stable]; [done|].
  destruct (bool_decide_reflect (baseline_version sub ≠ b)) as [|?%dec_stable]; [done|]. cbn [app].
  destruct (attestation_ok a); [|done]. cbn [negb app].
  destruct (bool_decide_reflect (created_by_run a ≠ run)) as [|?%dec_stable]; [done|]. intros _.
  by rewrite !bool_decide_eq_true_2.
Qed.
Lemma authorizes_edge a c v b c' v' b' : authorizes a c v b = true → authorizes a c' v' b' = true →
  c = c' ∧ v = v' ∧ b = b'.
Proof.
  unfold authorizes. destruct (dr_subject _); rewrite !andb_true_iff, ?bool_decide_eq_true; try naive_solver.
Qed.
Lemma authorizes_inv a c v b : authorizes a c v b = true →
  a.(att_draft).(dr_action) = ActionPromote ∧ attestation_ok a = true ∧
  a.(att_draft).(dr_subject) = SubjectComponent (mkComponentProof c v b).
Proof.
  unfold authorizes. destruct (dr_subject _) as [|[c' v' b']|];
    rewrite !andb_true_iff, ?bool_decide_eq_true; naive_solver.
Qed.
Lemma faults_none a c v b : authorizes a c v b = true →
  promotion_attestation_faults a c v b a.(created_by_run) = [].
Proof.
  intros (Ha & Hk & Hs)%authorizes_inv. unfold promotion_attestation_faults. rewrite Ha, Hk, Hs. cbn.
  by rewrite !bool_decide_eq_false_2 by (intros Hn; by apply Hn).
Qed.
Lemma policy_authorizes a c v b policy detail : a.(att_draft) = (policy_plan c v b policy detail).(pp_draft) →
  authorizes a c v b = true.
Proof.
  unfold authorizes, attestation_ok. intros ->.
  cbn [policy_plan _policy_attestation_draft pp_draft dr_action dr_subject dr_checks proof_component proof_version baseline_version].
  by rewrite !(bool_decide_eq_true_2 (_ = _)) by done.
Qed.
Lemma draft_agrees_refl d : draft_agrees d d.
Proof. split_and!; try done. apply same_json_refl. Qed.
Section receipts.
Context (s : registry) (Hok : reg_ok s).
(** The move that spent the proof of a plan is the receipt of its edge. *)
Lemma move_receipt r o p e row : plan_true s r o p → plan_edge p = Some e → plan_mintable s.(reg_journal) p →
  move_of s e.(edge_proof) = Some row → receipt_true s p e row.(pr_record).
Proof.
  intros Hp He Hm Hrow. apply move_of_elem in Hrow as [Hin Hid].
  destruct (ro_auth s Hok row Hin) as (a & Ha & [Hf Hrun]%no_faults). rewrite Hid in Ha.
  assert (authorizes a e.(edge_component) e.(edge_to) e.(edge_from) = true ∧
    ∀ d, plan_draft p = Some d → a.(att_draft) = d ∧ a.(created_by_run) = None) as [Hau Hd].
  { unfold plan_mintable in Hm.
    destruct p as [x c t d id|x c b t id|x c b t d id|id op h y]; [| | |done]; injection He as <-;
      destruct o; try done; cbn [plan_true edge_component edge_to edge_from edge_proof plan_draft] in *.
    - destruct Hp as (_ & _ & _ & _ & <- & Hi). cbn in Hi. rewrite <-Hi in Ha. destruct (Hm a Ha) as [Had Hc].
      split; [by eapply policy_authorizes|by intros ? [= <-]].
    - destruct Hp as (_ & _ & _ & _ & _ & _ & a' & Ha' & Hau). split; [|done]. by simplify_eq.
    - destruct Hp as (_ & _ & _ & _ & _ & <- & Hi). cbn in Hi. rewrite <-Hi in Ha. destruct (Hm a Ha) as [Had Hc].
      split; [by eapply policy_authorizes|by intros ? [= <-]]. }
  destruct (authorizes_edge _ _ _ _ _ _ _ Hau Hf) as (Hc & Ht & Hb).
  split_and!; [done..|]. exists a. split_and!; [done|done|].
  destruct p; try (destruct (Hd _ eq_refl) as [-> ->]; split; [by apply draft_agrees_refl|done]); done.
Qed.
Lemma promote_outcome c v id actor at_ r s' : has_version s c v → promote c v id actor None at_ s = (r, s') →
  (∃ faults, r = Raise (AdmissionRefused faults) ∧ s' = s) ∨
  ∃ row, r = Ok row.(pr_record) ∧ move_of s' id = Some row ∧ rtc rstep s s'.
Proof.
  intros Hv. unfold promote. unfold ebind at 1. rewrite (snapshot_now s Hok).
  destruct (version_get s Hok c v Hv) as [st ->]. unfold ebind at 1. rewrite (promotion_for_ok s Hok).
  destruct (move_of s id) as [row|] eqn:Em; cbn [fmap option_fmap option_map].
  { case_decide; intros [= <- <-]; [left; by eexists|right]. exists row. by split_and!. }
  unfold ebind at 1. rewrite (load_ok s Hok). destruct (Dict.get id _) as [a|] eqn:Ea.
  2: { intros [= <- <-]. left. by eexists. }
  unfold ebind at 1. rewrite (stable_now s Hok). rewrite app_nil_r.
  destruct (promotion_attestation_faults a c v (pointer (promotion_rows s) c) (created_by_run a)) as [|f fs] eqn:Ef.
  2: { intros [= <- <-]. left. by eexists. }
  cbn [fmap list_fmap]. set (q := mkPromotion _ _ _ _ _ _ _ _). intros E.
  assert (¬ spent s q.(Component.attestation_id)) as Hns.
  { intros (row & Hin & Hid). pose proof (spent_move s row Hok Hin) as Hm. rewrite Hid in Hm. cbn in Hm. congruence. }
  assert (movable s q) as Hm.
  { split_and!; [|done| |done].
    - apply (proved_iff s q Hok). exists a. by split.
    - intros d Hd. by apply (pointer_version s Hok). }
  rewrite (move_succeeds s q Hok Hns Hm) in E. injection E as <- <-. right. exists (new_promotion s q).
  split; [done|]. split.
  - unfold move_of in *. cbn [add_promotion promotion_rows]. rewrite filter_app.
    destruct (filter _ s.(promotion_rows)); [|done]. by rewrite filter_cons_True.
  - apply rtc_once. destruct (store_promotion_step s q _ _ Hok (move_succeeds s q Hok Hns Hm)) as [He|[_ H]]; [|done].
    exfalso. apply (f_equal (λ s, length s.(promotion_rows))) in He. cbn [add_promotion promotion_rows] in He.
    rewrite length_app in He. cbn in He. lia.
Qed.
End receipts.

(** ** The row of a claim *)
Definition planned_as (r : CommandRecord) (p : command_plan) : Prop :=
  ∃ raw, r.(cmd_plan) = Some raw ∧ _parse_stored_plan r.(cmd_operation) raw = Ok p.
Lemma planned_as_evolves r r' p : evolves r r' → planned_as r p → planned_as r' p.
Proof.
  intros He (raw & Hp & Hl). exists raw. split; [by apply (ev_plan _ _ He)|]. by rewrite (ev_operation _ _ He).
Qed.
Lemma planned_as_fun r p q : planned_as r p → planned_as r q → p = q.
Proof. intros (a & Ha & Hp) (b & Hb & Hq). simplify_eq. rewrite Hp in Hq. by injection Hq. Qed.
Lemma plan_true_evolves s r r' o p : evolves r r' → plan_true s r o p → plan_true s r' o p.
Proof.
  intros He. destruct p, o; try done; cbn [plan_true];
    by rewrite (ev_id _ _ He), (ev_operation _ _ He), (ev_hash _ _ He).
Qed.
Lemma claim_owns_inv c r : claim_owns c r = true ↔
  terminal r = false ∧ r.(cmd_owner) = Some c.(cc_owner) ∧ r.(cmd_epoch) = c.(cc_epoch).
Proof.
  unfold claim_owns, terminal. rewrite !andb_true_iff, !bool_decide_eq_true, negb_false_iff, bool_decide_eq_true. tauto.
Qed.
Section rows.
Context (repr : string → string) (owner_id key : string) (others : string → Prop) (shield : Prop) (o : order).
Record row_at (c : CommandClaim) (p : plane) (r : CommandRecord) : Prop := {
  ra_get : Dict.get c.(cc_command) p.(pl_ledger).(commands) = Some r;
  ra_operation : r.(cmd_operation) = c.(cc_operation);
  ra_order : row_of_order repr p.(pl_registry) r o;
}.
Lemma row_at_good c p r : plane_good repr p → Dict.get c.(cc_command) p.(pl_ledger).(commands) = Some r →
  r.(cmd_operation) = c.(cc_operation) → r.(cmd_operation) = order_operation o → r.(cmd_request) = order_request o →
  row_at c p r.
Proof.
  intros Hp Hr Hc Ho Hq. split; [done..|]. destruct (pg_rows _ _ Hp _ _ Hr) as (o' & Ho' & Hq' & Hplan).
  { rewrite Ho. apply order_operation_elem. }
  assert (o = o') as <-; [|done]. apply order_request_inj; [congruence|]. rewrite <-Hq, Hq'. apply same_json_refl.
Qed.
Lemma row_at_moves c p p' r : moves_on repr p p' → row_at c p r → ∃ r', row_at c p' r' ∧ evolves r r'.
Proof.
  intros [Hp' [_ Hl]] [Hr Hc (Ho & Hq & _)]. destruct (lsteps_le _ _ Hl) as [Hle _].
  destruct (Hle _ _ Hr) as (r' & Hr' & He). exists r'. split; [|done].
  apply row_at_good; [done|done|rewrite (ev_operation _ _ He); congruence..|rewrite (ev_request _ _ He); congruence].
Qed.
Lemma planned_true c p r plan : row_at c p r → planned_as r plan → plan_true p.(pl_registry) r o plan.
Proof.
  intros [_ _ (_ & _ & H)] (raw & Hraw & Hl). destruct (H raw Hraw) as (q & Hq & Ht & _). rewrite Hl in Hq.
  by injection Hq as ->.
Qed.
(** The claim this executor was granted. *)
Record holds (c : CommandClaim) (p : plane) (r : CommandRecord) : Prop := {
  ho_row : row_at c p r;
  ho_actor : r.(cmd_actor).(actor_id) = c.(cc_actor);
  ho_key : r.(cmd_key) = key;
  ho_owner : c.(cc_owner) = owner_id;
  ho_epoch : c.(cc_epoch) ≤ r.(cmd_epoch);
  ho_shield : shield → claim_owns c r = true;
}.
(** A row that a lawful world leaves ours is the row as it was. *)
Lemma still_ours c p p' r r' : lawful repr owner_id others shield p p' → holds c p r →
  Dict.get c.(cc_command) p'.(pl_ledger).(commands) = Some r' → claim_owns c r' = true → r' = r.
Proof.
  intros Hl [[Hr _ _] _ _ Ho He _] Hr' (Ht' & Ho' & He')%claim_owns_inv.
  destruct (lsteps_le _ _ (proj2 (lw_le _ _ _ _ _ _ Hl))) as [Hle _].
  destruct (Hle _ _ Hr) as (r1 & H1 & Hev). simplify_eq. pose proof (ev_epoch _ _ Hev).
  destruct (terminal r) eqn:Ht; [by rewrite (ev_terminal _ _ Hev Ht), Ht in Ht'|].
  assert (r'.(cmd_epoch) = r.(cmd_epoch)) as Heq by lia.
  pose proof (ev_owner _ _ Hev Heq Ht') as Hown. rewrite Ho' in Hown.
  destruct (lw_fenced _ _ _ _ _ _ Hl (cc_command c) r) as (r2 & H2 & [->|Hlt]); [by split_and!|by simplify_eq|].
  simplify_eq. lia.
Qed.
Lemma holds_lawful c p p' r : lawful repr owner_id others shield p p' → holds c p r → ∃ r', holds c p' r' ∧ evolves r r'.
Proof.
  intros Hl Hh. pose proof Hh as [Hrow Ha Hk Ho He Hs].
  destruct (row_at_moves c p p' r (lawful_moves _ _ _ _ _ _ Hl) Hrow) as (r' & Hrow' & Hev).
  exists r'. split; [|done]. split; [done|by rewrite (ev_actor _ _ Hev)|by rewrite (ev_key _ _ Hev)|done|pose proof (ev_epoch _ _ Hev); lia|].
  intros Hsh. destruct (proj1 (claim_owns_inv c r) (Hs Hsh)) as (Ht & Hown & _).
  assert (Dict.get (cc_command c) p'.(pl_ledger).(commands) = Some r) as Hr.
  { apply (lw_shield _ _ _ _ _ _ Hl Hsh). split_and!; [apply Hrow|done|by rewrite Hown, Ho]. }
  assert (r' = r) as -> by (destruct Hrow'; congruence). by apply Hs.
Qed.
(** A write to the registry alone is lawful. *)
Lemma registry_lawful p s' : plane_good repr p → rtc rstep p.(pl_registry) s' →
  lawful repr owner_id others shield p (mkPlane s' p.(pl_ledger)).
Proof.
  intros Hp Hs. split.
  - split; cbn; [eapply reg_ok_steps; [done|apply Hp]|apply Hp| |apply (pg_facts _ _ Hp)].
    intros id r Hr. eapply row_true_le; [done|by apply (pg_rows _ _ Hp id)].
  - by split.
  - by apply fenced_off_refl.
  - by intros ? _; apply fenced_off_refl.
  - by intros _ id r (Hr & _).
Qed.
End rows.

(** ** The errors an order can meet on its own *)

(** A component whose empty name has no address; a policy proof whose identity
    another attestation holds; nothing to roll back to, which the rollback does
    not turn into an answer. *)
Definition exceptional (o : order) (e : cexn) (p : plane) : Prop :=
  (order_component o = "" ∧ ∃ uri, e = ControlDamaged (DetailMissing uri)) ∨
  (∃ c v b policy detail, ¬ mintable p.(pl_registry).(reg_journal) (policy_plan c v b policy detail).(pp_draft)) ∨
  ((∃ c b, o = Rollback c b) ∧ ∃ c, e = FromRegistry (NothingEarlier c)).
Lemma not_mintable shield mortal o r plan p : plan_true p.(pl_registry) r o plan → ¬ plan_mintable p.(pl_registry).(reg_journal) plan →
  ∀ e, expected_error shield mortal (exceptional o) e p.
Proof.
  unfold plan_mintable. intros Ht Hm e. right. right. right. left.
  remember o as q eqn:Eq in Ht.
  destruct plan as [x k t d id|x k b t id|x k b t d id|id op h y]; try (by destruct Hm); destruct q; try done;
    cbn [plan_true plan_draft] in *; [destruct Ht as (_ & _ & _ & _ & <- & _)|destruct Ht as (_ & _ & _ & _ & _ & <- & _)];
    by do 5 eexists.
Qed.
Lemma plan_mintable_dec j plan : plan_mintable j plan ∨ ¬ plan_mintable j plan.
Proof. unfold plan_mintable. destruct (plan_draft plan); [apply mintable_dec|by left]. Qed.
Lemma receipt_or_fail repr shield mortal o c p p' r plan e row : moves_on repr p p' → row_at repr o c p r →
  plan_true p.(pl_registry) r o plan → plan_edge plan = Some e → move_of p.(pl_registry) e.(edge_proof) = Some row →
  receipt_true p'.(pl_registry) plan e row.(pr_record) ∨
  ∀ x, expected_error shield mortal (exceptional o) x p'.
Proof.
  intros Hm Hr Ht He Hrow. destruct Hm as [Hg [Hs _]]. pose proof (plan_true_le _ _ _ _ _ Hs Ht) as Ht'.
  destruct (plan_mintable_dec p'.(pl_registry).(reg_journal) plan) as [Hm|Hm].
  - left. eapply move_receipt; [apply Hg|done..|by eapply move_of_le].
  - right. by eapply not_mintable.
Qed.
