(* ===== verification/CommandReads.v ===== *)
(** The steps of a registry command that only read the plane ([CommandSpec],
    [CommandSteps]): they hold under any world that keeps the plane good, and
    establish what the plan, the receipt and a replayed answer claim. *)

From S2P Require Import Prelude Identity Address Component Manifest Run Effect Journal EffectStore.
From S2P Require Import RegistryStore Registry JournalSpec EffectSpec RegistrySpec RegistryLaws RollbackSpec.
From S2P Require Import Control Ledger LedgerSpec Detail DetailLaws Plans PlanLaws Commands CommandSpec CommandSteps.

Section reads.
Context (env : nat → plane → plane) (dies : nat → bool) (now : nat → Z) (stamp : nat → string).
Context (repr : string → string) (shield mortal : Prop).
Context (rely : plane → plane → Prop) (rely_refl : ∀ p, plane_good repr p → rely p p).
Context (rely_moves : ∀ p p', rely p p' → moves_on repr p p').
Context (env_rely : ∀ n p, plane_good repr p → rely p (env n p)).
Context (dies_mortal : ∀ n, dies n = true → mortal).
Context (stuck : cexn → plane → Prop) (o : order) (R : plane → plane → Prop) `{!Transitive R} (R_rely : ∀ p p', rely p p' → R p p').
Context (R_moves : ∀ p p', R p p' → moves_on repr p p').
Abbreviation spec := (spec shield mortal stuck R).
Abbreviation failing := (expected_error shield mortal stuck).

Lemma rely_good p p' : rely p p' → plane_good repr p'.
Proof. by intros [? _]%rely_moves. Qed.
Lemma R_good p p' : R p p' → plane_good repr p'.
Proof. by intros [? _]%R_moves. Qed.
Lemma ret {A} (a : A) P p : plane_good repr p → P a p → spec (eret a) P p.
Proof. by apply (spec_ret repr shield mortal rely rely_refl stuck R R_rely). Qed.
Lemma damaged {A} why (P : A → plane → Prop) p : plane_good repr p → failing (ControlDamaged why) p →
  spec (damage why) P p.
Proof. by apply (spec_damage repr shield mortal rely rely_refl stuck R R_rely). Qed.
Lemma read_registry {A} (m : string → RegistryStore.R A) (P : A → plane → Prop) (a : registry → A) p :
  plane_good repr p → (∀ at_ s, reg_ok s → m at_ s = (Ok (a s), s)) →
  (∀ p', rely p p' → P (a p'.(pl_registry)) p') → spec (on_registry env dies stamp m) P p.
Proof.
  apply (spec_registry env dies stamp repr shield mortal rely rely_refl rely_good env_rely dies_mortal stuck R R_rely).
Qed.
Lemma read_registry_or {A B} (caught : rexn → bool) (m : string → RegistryStore.R A) (g : A → C B) (handler : rexn → C B)
    (P : B → plane → Prop) (r : registry → result rexn A) p :
  plane_good repr p → (∀ at_ s, reg_ok s → m at_ s = (r s, s)) →
  (∀ p', rely p p' → match r p'.(pl_registry) with
                     | Ok a => ∃ b, g a = eret b ∧ P b p'
                     | Raise e => if caught e then spec (handler e) P p' else failing (FromRegistry e) p'
                     end) →
  spec (except caught (let* a := on_registry env dies stamp m in g a) handler) P p.
Proof.
  intros Hp Hm H. apply wp_except; [done|]. apply wp_bind; [done|].
  apply (wp_registry env dies stamp repr mortal rely rely_refl rely_good env_rely dies_mortal R R_rely m _ r);
    [done|exact Hm|by left|].
  intros p' Hl. specialize (H p' Hl). destruct (r _) as [a|e]; [|exact H]. destruct H as (b & -> & Hb).
  intros n. split; [|done]. by eapply R_rely, rely_refl, rely_good.
Qed.
Lemma read_registry_except {A} (caught : rexn → bool) (m : string → RegistryStore.R A) (handler : rexn → C A)
    (P : A → plane → Prop) (r : registry → result rexn A) p :
  plane_good repr p → (∀ at_ s, reg_ok s → m at_ s = (r s, s)) →
  (∀ p', rely p p' → match r p'.(pl_registry) with
                     | Ok a => P a p'
                     | Raise e => if caught e then spec (handler e) P p' else failing (FromRegistry e) p'
                     end) →
  spec (except caught (on_registry env dies stamp m) handler) P p.
Proof.
  intros Hp Hm H. apply wp_except; [done|].
  apply (wp_registry env dies stamp repr mortal rely rely_refl rely_good env_rely dies_mortal R R_rely m _ r);
    [done|exact Hm|by left|].
  intros p' Hl. specialize (H p' Hl). by destruct (r _) as [a|e].
Qed.
Lemma record_spec c p r : plane_good repr p → row_at repr o c p r →
  spec (_command_record env dies now c) (λ r' p', row_at repr o c p' r' ∧ evolves r r') p.
Proof.
  intros Hp Hr. unfold _command_record. eapply spec_bind; [done| |].
  - apply (spec_ledger env dies now repr shield mortal rely rely_refl rely_good env_rely dies_mortal stuck R R_rely)
      with (a := λ l, Dict.get c.(cc_command) l.(commands))
      (P := λ f p', ∃ r', f = Some r' ∧ row_at repr o c p' r' ∧ evolves r r'); [done|..].
    + intros _ s Hs. unfold command, ebind, get, lift. by rewrite (command_good s _ Hs).
    + intros p' Hl. destruct (row_at_moves repr o c p p' r (rely_moves _ _ Hl) Hr) as (r' & Hr' & He). exists r'. split_and!; [apply Hr'|done|done].
  - intros f p' HR (r' & -> & Hr' & He). apply ret; [by eapply R_good|done].
Qed.
Lemma promotion_for_spec id p : plane_good repr p →
  spec (promotion_for env dies stamp id) (λ q p', q = pr_record <$> move_of p'.(pl_registry) id) p.
Proof. intros Hp. eapply read_registry; [done|intros _ s Hs; by apply (promotion_for_ok s Hs)|done]. Qed.
Lemma attestation_for_spec id p : plane_good repr p →
  spec (attestation_for env dies stamp id)
    (λ a p', a = Dict.get id p'.(pl_registry).(reg_journal).(attested)) p.
Proof. intros Hp. eapply read_registry; [done|intros _ s Hs; by apply (load_ok s Hs)|done]. Qed.
Lemma stable_spec component p : plane_good repr p →
  spec (stable_version_of env dies stamp component)
    (λ v p', v = pointer p'.(pl_registry).(promotion_rows) component) p.
Proof. intros Hp. eapply read_registry; [done|intros _ s Hs; by apply (stable_ok s Hs)|done]. Qed.
(** A call whose answer decides how to go on. *)
Lemma bind_registry {A B} (m : string → RegistryStore.R A) (f : A → C B) P (a : registry → A) p :
  plane_good repr p → (∀ at_ s, reg_ok s → m at_ s = (Ok (a s), s)) →
  (∀ p', rely p p' → spec (f (a p'.(pl_registry))) P p') → spec (let* x := on_registry env dies stamp m in f x) P p.
Proof.
  intros Hp Hm Hf. eapply spec_bind; [done| |].
  - apply (read_registry m (λ x p', spec (f x) P p') a); done.
  - by intros x p' _ H.
Qed.
Lemma check_policy_spec draft id expected p : plane_good repr p → policy_is expected draft id →
  spec (check_policy draft id expected) (λ _ _, True) p.
Proof.
  intros Hp [<- <-]. unfold check_policy. rewrite same_json_refl, bool_decide_eq_false_2 by (intros Hn; by apply Hn).
  by apply ret.
Qed.
Lemma requested r : r.(cmd_request) = order_request o → is_object r.(cmd_request) = true ∧
  match o with
  | PromoteInitial component version =>
      requests r.(cmd_request) "component" component = true ∧ requests r.(cmd_request) "version" version = true
  | Promote component version proof =>
      requests r.(cmd_request) "component" component = true ∧ requests r.(cmd_request) "version" version = true ∧
      requests r.(cmd_request) "attestation_id" proof = true
  | Rollback component expected =>
      requests r.(cmd_request) "component" component = true ∧ requests r.(cmd_request) "expected_stable" expected = true
  end.
Proof. intros ->. by destruct o; split_and!; try done; apply bool_decide_eq_true_2. Qed.
(** What a row's plan claims holds now, so it is accepted. *)
Lemma validate_spec c p r plan : plane_good repr p → row_at repr o c p r → plan_true p.(pl_registry) r o plan →
  spec (_validate_command_plan env dies now stamp c plan) (λ _ _, True) p.
Proof.
  intros Hp Hr Ht. unfold _validate_command_plan. eapply spec_bind; [done|by apply record_spec|].
  intros r' p1 HR [Hr' He]. pose proof (R_good _ _ HR) as Hg. destruct (R_moves _ _ HR) as [_ [Hs _]].
  pose proof (plan_true_evolves _ _ _ _ _ He (plan_true_le _ _ _ _ _ Hs Ht)) as Ht'.
  destruct (requested r' (proj1 (proj2 (ra_order _ _ _ _ _ Hr')))) as [-> Hq]. cbn [negb].
  destruct Hr' as [Hget Hop _]. destruct (get_row _ _ _ (proj1 (pg_ledger _ _ Hg)) Hget) as [Hrid _].
  remember o as q eqn:Eq in Ht', Hq. clear Ht.
  destruct plan as [x k t d id|x k b t id|x k b t d id|id op h y]; destruct q as [k' v'|k' v' id'|k' b'];
    try done; cbn [plan_true] in Ht'.
  1: { destruct Ht' as (-> & -> & -> & Hv & Hpol). destruct Hq as [-> ->]. cbn [andb negb].
    eapply spec_bind with (P := λ e _, policy_is e d id); [done| |].
    - eapply read_registry_except; [done|intros _ s Hok; by apply (initial_plan_ok s Hok)|].
      intros p2 [Hg2 [Hs2 _]]%rely_moves.
      destruct (proj1 (has_version_iff _ _ _) (has_version_le _ _ _ _ Hs2 Hv)) as [row ->]. done.
    - intros e p2 HR2 He2. apply check_policy_spec; [by eapply R_good|done]. }
  1: { destruct Ht' as (-> & -> & -> & -> & Hv & Hb & a & Ha & Hau). destruct Hq as (-> & -> & ->). cbn [andb negb].
    eapply spec_bind; [done|by apply attestation_for_spec|]. intros a' p2 HR2 ->.
    destruct (R_moves _ _ HR2) as [Hg2 [Hs2 _]]. rewrite (attested_le _ _ _ _ Hs2 Ha), Hau. by apply ret. }
  1: { destruct Ht' as (-> & -> & -> & Hv & Hb & Hpol). destruct Hq as [-> ->]. cbn [andb negb].
    eapply spec_bind with (P := λ e _, policy_is e d id); [done| |].
    - eapply read_registry_except; [done|intros _ s Hok; by apply (rollback_edge_ok s Hok)|].
      intros p2 [Hg2 [Hs2 _]]%rely_moves.
      destruct (proj1 (has_version_iff _ _ _) (has_version_le _ _ _ _ Hs2 Hv)) as [row ->]. done.
    - intros e p2 HR2 He2. apply check_policy_spec; [by eapply R_good|done]. }
  all: destruct Ht' as (-> & -> & ->); rewrite Hrid, Hop, !bool_decide_eq_false_2 by (intros Hn; by apply Hn);
    by apply ret.
Qed.
(** What is stored in the typed envelope, and answers of the current schema, are
    read without asking the stores. *)
Lemma load_typed c raw plan : _parse_stored_plan c.(cc_operation) raw = Ok plan →
  _load_stored_plan env dies now stamp c raw = eret plan.
Proof. intros H. unfold _load_stored_plan. by rewrite (parse_stored_typed _ _ _ H), H. Qed.
Lemma decode_typed raw models a : decode_current raw models = Some a →
  _decode_response env dies stamp raw models = eret a.
Proof. intros H. unfold _decode_response. by rewrite H. Qed.
Lemma load_spec c p r plan : plane_good repr p → row_at repr o c p r → planned_as r plan →
  ∃ raw, r.(cmd_plan) = Some raw ∧ _load_stored_plan env dies now stamp c raw = eret plan.
Proof.
  intros Hp [_ Hop _] (raw & Hraw & Hl). exists raw. split; [done|]. rewrite Hop in Hl. by apply load_typed.
Qed.
Lemma reference_spec c v row p : plane_good repr p → component_of p.(pl_registry) c v = Some row →
  (c = "" → ∀ uri p', failing (ControlDamaged (DetailMissing uri)) p') →
  spec (required_reference env dies stamp c v) (λ d _, c ≠ "" ∧ d = component_detail row) p.
Proof.
  intros Hp Hrow Hc. unfold required_reference. eapply bind_registry; [done|intros _ s Hok; by apply (reference_ok s Hok)|].
  intros p' [Hg [Hs _]]%rely_moves. rewrite (component_of_le _ _ _ _ _ Hs Hrow).
  case_decide as Hb; [|by apply ret]. apply damaged; [done|auto].
Qed.

(** *** Receipts *)
Lemma decide_agree {A} `{EqDecision A} (x y : A) (d : Decision (x ≠ y)) : @bool_decide _ d = false ↔ x = y.
Proof. rewrite bool_decide_eq_false. split; [by intros ?%dec_stable|by intros -> Hn]. Qed.
Lemma receipt_tests q e source (d : Decision (q.(Component.source_run) ≠ source)) :
  bool_decide (q.(promoted) ≠ e.(edge_component)) || bool_decide (q.(promo_channel) ≠ Stable)
  || bool_decide (q.(from_version) ≠ e.(edge_from)) || bool_decide (q.(to_version) ≠ e.(edge_to))
  || bool_decide (q.(Component.attestation_id) ≠ e.(edge_proof)) || @bool_decide _ d = false ↔
  q.(promoted) = e.(edge_component) ∧ q.(from_version) = e.(edge_from) ∧ q.(to_version) = e.(edge_to) ∧
  q.(Component.attestation_id) = e.(edge_proof) ∧ q.(source_run) = source.
Proof. rewrite !orb_false_iff, !decide_agree. destruct (promo_channel q). tauto. Qed.
Lemma draft_tests d draft run :
  bool_decide (d.(dr_action) ≠ draft.(dr_action)) || bool_decide (d.(dr_subject) ≠ draft.(dr_subject))
  || negb (same_json (dump d.(dr_checks)) (dump draft.(dr_checks)))
  || bool_decide (d.(dr_check_set) ≠ draft.(dr_check_set)) || bool_decide (d.(dr_evidence) ≠ draft.(dr_evidence))
  || bool_decide (d.(dr_manifest) ≠ draft.(dr_manifest)) || bool_decide (d.(dr_workspace) ≠ draft.(dr_workspace))
  || bool_decide (run ≠ @None RunId) = false ↔ draft_agrees d draft ∧ run = None.
Proof. unfold draft_agrees. rewrite !orb_false_iff, !decide_agree, negb_false_iff. tauto. Qed.
(** The receipt that spent a plan's proof is accepted, and says what the plan says. *)
Lemma policy_receipt_spec p plan e draft q : plane_good repr p → plan_edge plan = Some e → plan_draft plan = Some draft →
  (∀ p', moves_on repr p p' → receipt_true p'.(pl_registry) plan e q ∨ ∀ x, failing x p') →
  spec (_validate_promotion_receipt env dies stamp q e draft) (λ _ p', receipt_true p'.(pl_registry) plan e q) p.
Proof.
  intros Hp He Hd Hor. unfold _validate_promotion_receipt.
  assert (∀ s, receipt_true s plan e q ↔ (q.(promoted) = e.(edge_component) ∧ q.(from_version) = e.(edge_from) ∧
    q.(to_version) = e.(edge_to) ∧ q.(Component.attestation_id) = e.(edge_proof) ∧ q.(source_run) = None) ∧
    ∃ a, Dict.get e.(edge_proof) s.(reg_journal).(attested) = Some a ∧
      draft_agrees a.(att_draft) draft ∧ a.(created_by_run) = None) as Hiff.
  { intros s. unfold receipt_true. destruct plan; try discriminate Hd; injection Hd as ->; split.
    1, 3: intros (? & ? & ? & ? & a & Ha & Hs & Hda & Hc); rewrite Hc in Hs; split; [by split_and!|by exists a].
    all: intros [(? & ? & ? & ? & ?) (a & Ha & Hda & Hc)]; split_and!; [done..|]; exists a;
      split; [done|split; [congruence|by split]]. }
  destruct (_ || _) eqn:E1.
  { apply damaged; [done|]. destruct (Hor p) as [H|H]; [by split|exfalso|by apply H].
    apply Hiff in H as [H _]. apply (receipt_tests q e None _) in H. congruence. }
  apply receipt_tests in E1. eapply spec_bind; [done|by apply attestation_for_spec|].
  intros a' p1 HR ->. pose proof (R_moves _ _ HR) as Hm. pose proof (R_good _ _ HR) as Hg. specialize (Hor p1 Hm).
  destruct (Dict.get _ _) as [a|] eqn:Ea.
  2: { apply damaged; [done|]. destruct Hor as [H|H]; [exfalso|by apply H].
       apply Hiff in H as [_ (a & Ha & _)]. congruence. }
  cbv zeta. destruct (_ || _) eqn:E2.
  { apply damaged; [done|]. destruct Hor as [H|H]; [exfalso|by apply H].
    apply Hiff in H as [_ (a' & Ha & H)]. simplify_eq. apply draft_tests in H. congruence. }
  apply draft_tests in E2. apply ret; [done|]. apply Hiff. split; [done|by exists a].
Qed.
Lemma evaluated_receipt_spec p x k b t id q : let plan := PromotionPlan x k b t id in let e := mkEdge k b t id in
  plane_good repr p → (∀ p', moves_on repr p p' → receipt_true p'.(pl_registry) plan e q ∨ ∀ x, failing x p') →
  spec (_validate_evaluated_promotion_receipt env dies stamp q e) (λ _ p', receipt_true p'.(pl_registry) plan e q) p.
Proof.
  intros plan e Hp Hor. unfold _validate_evaluated_promotion_receipt.
  eapply spec_bind; [done|by apply attestation_for_spec|].
  intros a' p1 HR ->. pose proof (R_moves _ _ HR) as Hm. pose proof (R_good _ _ HR) as Hg. specialize (Hor p1 Hm).
  destruct (Dict.get _ _) as [a|] eqn:Ea.
  2: { apply damaged; [done|]. destruct Hor as [H|H]; [exfalso|by apply H].
       destruct H as (_ & _ & _ & _ & a & Ha & _). congruence. }
  cbv zeta. destruct (_ || negb _) eqn:E2.
  { apply damaged; [done|]. destruct Hor as [H|H]; [exfalso|by apply H].
    destruct H as (H1 & H2 & H3 & H4 & a' & Ha & H5 & H6). assert (a' = a) as -> by congruence. apply orb_true_iff in E2 as [E2|E2].
    - apply not_false_iff_true in E2. by apply E2, receipt_tests.
    - by rewrite H6 in E2. }
  apply orb_false_iff in E2 as [(?&?&?&?&?)%receipt_tests E2%negb_false_iff]. apply ret; [done|].
  split_and!; try done. by exists a.
Qed.
Lemma receipt_spec p plan e q : plane_good repr p → plan_edge plan = Some e →
  (∀ p', moves_on repr p p' → receipt_true p'.(pl_registry) plan e q ∨ ∀ x, failing x p') →
  spec (validate_receipt env dies stamp plan e q) (λ _ p', receipt_true p'.(pl_registry) plan e q) p.
Proof.
  intros Hp He Hor. destruct plan; try discriminate He; cbn [validate_receipt].
  - by apply policy_receipt_spec.
  - injection He as <-. by apply evaluated_receipt_spec.
  - by apply policy_receipt_spec.
Qed.

(** *** Refusals and replays *)
Lemma plan_true_family s r plan e : plan_true s r o plan → plan_edge plan = Some e →
  plan_operation plan = order_operation o ∧ plan_exact plan = true.
Proof. remember o as q. destruct plan; try done; destruct q; try done; cbn [plan_true]; by intros [-> _]. Qed.
Lemma refusal_outcome r s r' plan x : r.(cmd_operation) = order_operation o → plan_true s r' o plan →
  (refusal_of repr plan x ∧ _validate_terminal_rejection repr r plan x = eret tt) ∨
  (¬ refusal_of repr plan x ∧ ∃ why, _validate_terminal_rejection repr r plan x = damage why).
Proof.
  intros Hop Ht. destruct (plan_edge plan) as [e|] eqn:He.
  - destruct (plan_true_family _ _ _ _ Ht He) as [Hf Hx].
    assert (refusal_of repr plan x ↔ length x.(faults) = 1 ∧
      same_json (dump x) (dump (_canonical_domain_rejection repr e)) = true) as ->.
    { destruct plan; try discriminate He; injection He as <-; (split; [by intros (? & [= <-] & ?)|by eexists]). }
    assert (_validate_terminal_rejection repr r plan x =
      if decide (length x.(faults) ≠ 1) then damage (UnlawfulRejection r.(cmd_operation))
      else if decide (r.(cmd_operation) ≠ plan_operation plan) then damage (UnlawfulRejection r.(cmd_operation))
      else if negb (plan_exact plan) then damage (NoEraEvidence r.(cmd_operation))
      else if same_json (dump x) (dump (_canonical_domain_rejection repr e)) then eret tt
      else damage (RejectionContradictsPlan r.(cmd_id))) as ->.
    { destruct plan; try discriminate He; by injection He as <-. }
    case_decide as Hl; [right; split; [by intros [? _]|by eexists]|].
    rewrite decide_False by (rewrite Hf; intros Hn; by apply Hn). rewrite Hx. cbn [negb].
    destruct (same_json _ _); [by left|right]. split; [by intros [_ ?]|by eexists].
  - destruct plan; try discriminate He. cbn. destruct (same_json _ _); [by left|right]. split; [done|by eexists].
Qed.
(** A recorded answer is found true again. *)
Lemma replay_spec p r plan a : plane_good repr p → row_at repr o (_claim_for_record r) p r → planned_as r plan →
  answer_true repr p.(pl_registry) r plan a →
  spec (_validate_terminal_response env dies now stamp repr r a) (λ _ _, True) p.
Proof.
  intros Hp Hr Hplan Ha. unfold _validate_terminal_response.
  assert (Bool.eqb (bool_decide (cmd_state r = CommandRejected)) (is_rejection a) = true) as ->.
  { destruct a; by destruct Ha as [-> _]. }
  cbn [negb]. destruct (load_spec _ _ _ _ Hp Hr Hplan) as (raw & -> & ->).
  pose proof (planned_true _ _ _ _ _ _ Hr Hplan) as Ht.
  change (ebind (eret plan) ?f) with (f plan). cbv beta.
  eapply spec_bind; [done|by eapply validate_spec|]. intros _ p1 HR1 _.
  pose proof (R_moves _ _ HR1) as [Hg1 [Hs1 _]].
  destruct a as [m|x]; destruct Ha as [Hst Ha].
  2: { destruct (refusal_outcome r _ r plan x (proj1 (ra_order _ _ _ _ _ Hr)) Ht) as [[_ ->]|[Hn _]]; [by apply ret|done]. }
  destruct Ha as (e & row & k & He & Hrow & Hrec & Hk & Hb & ->). cbn [res_command meta_command replayed res_status res_of res_from res_to res_detail].
  rewrite bool_decide_eq_false_2 by (intros Hn; by apply Hn). cbn [orb]. rewrite He.
  eapply spec_bind; [done|by apply promotion_for_spec|]. intros q p2 HR2 ->.
  pose proof (R_moves _ _ HR2) as Hm2. destruct Hm2 as [Hg2 [Hs2 _]].
  pose proof (move_of_le _ _ _ _ Hs2 (move_of_le _ _ _ _ Hs1 Hrow)) as Hrow2. rewrite Hrow2. cbn [fmap option_fmap option_map].
  pose proof Hrec as (H1 & H2 & H3 & H4 & _).
  assert (_ || _ = false) as ->.
  { rewrite !orb_false_iff. split_and!; by apply decide_agree. }
  eapply spec_bind; [done| |].
  { eapply reference_spec; [done| |by intros ?].
    exact (component_of_le _ _ _ _ _ Hs2 (component_of_le _ _ _ _ _ Hs1 Hk)). }
  intros d p3 HR3 [_ ->]. rewrite decide_False by (intros Hn; by apply Hn).
  destruct (R_moves _ _ HR3) as [Hg3 [Hs3 Hl3]].
  eapply spec_mono; [eapply receipt_spec; [done|done|]|done]. intros p' [_ [Hs' _]]. left.
  eapply receipt_true_le; [exact Hs'|]. eapply receipt_true_le; [exact Hs3|].
  eapply receipt_true_le; [exact Hs2|]. by eapply receipt_true_le.
Qed.
End reads.
