(* ===== verification/StoredLaws.v ===== *)
(** What stored plans and answers are read back as ([Plans], [Commands]): what
    is written today is read back as it was; whatever is read is what was
    written, or the code's reading of an earlier era of it. *)

From S2P Require Import Prelude Identity Address Component Run Effect Journal EffectStore RegistryStore Registry.
From S2P Require Import Control Ledger LedgerSpec Detail DetailLaws Plans PlanLaws Commands CommandSpec CommandSteps CommandReads.

(** ** The earlier eras *)

(** An answer of the first two schemas is the third's under another number; one
    that moved the pointer also lacks the reference to its component. *)
Definition upgraded_from (s : registry) (raw : json) (a : response) : Prop :=
  legacy_version raw = Some true ∧ ∃ members, raw = JObj members ∧
  let u := Dict.set "schema_version" (JInt 3) members in
  match a with
  | Refused x => same_json (JObj u) (dump x) = true
  | Moved m =>
      same_json (JObj (Dict.set "detail" (dump m.(res_detail)) u)) (dump m) = true ∧
      ∃ s0, component_reference m.(res_of) m.(res_to) s0 = (Ok (Some m.(res_detail)), s)
  end.
(** A plan without an envelope names its fields itself; what it does not hold is
    taken from the command's row, or planned again. *)
Definition legacy_plan (c : CommandClaim) (raw : json) (w : world) (p : command_plan) : Prop :=
  has_key "schema_version" raw = false ∧
  match p with
  | ControlRejectPlan id op hash x =>
      id = c.(cc_command) ∧ op = c.(cc_operation) ∧
      (∃ r, command_for_id w.(the_plane).(pl_ledger) id = Ok (Some r) ∧ hash = r.(cmd_request_hash)) ∧
      ∃ v, j_get "rejection" raw = Some v ∧
        (same_json v (dump x) = true ∨ upgraded_from w.(the_plane).(pl_registry) v (Refused x))
  | PromotionPlan exact component baseline target id =>
      c.(cc_operation) = "registry_promote" ∧ exact = false ∧
      j_get "component" raw = Some (JStr component) ∧ j_get "version" raw = Some (JStr target) ∧
      j_get "attestation_id" raw = Some (JStr id) ∧
      baseline = match j_get "baseline" raw with Some (JStr d) => Some d | _ => None end
  | RollbackPlan exact component baseline target draft id =>
      c.(cc_operation) = "registry_rollback" ∧ exact = false ∧
      j_get "component" raw = Some (JStr component) ∧ j_get "expected_stable" raw = Some (JStr baseline) ∧
      j_get "target" raw = Some (JStr target) ∧
      ∃ planned s0, plan_rollback_edge component baseline target s0 = (Ok planned, w.(the_plane).(pl_registry)) ∧
        policy_is planned draft id
  | InitialPromotionPlan _ _ _ _ _ => False
  end.

(** ** Fields *)
Lemma legacy_digest_inv s d : legacy_digest s = Ok d → d = s ∧ well_formed d.
Proof.
  unfold legacy_digest, well_formed. destruct (Digest_well_formed s) as [h|e] eqn:E; [|done]. intros [= <-].
  assert (h = s) as -> by (unfold Digest_well_formed in E; repeat case_match; congruence). by rewrite E.
Qed.
Lemma digest_reads d : well_formed d → Digest_well_formed d = Ok d.
Proof. unfold well_formed, Digest_well_formed. by repeat case_match. Qed.
Lemma string_inv raw k s : _string raw k = Ok s → j_get k raw = Some (JStr s).
Proof. unfold _string. repeat case_match; naive_solver. Qed.
Lemma string_digest_inv raw k d : _string raw k ≫= legacy_digest = Ok d → j_get k raw = Some (JStr d) ∧ well_formed d.
Proof.
  destruct (_string raw k) as [s|] eqn:E; [|done]. apply string_inv in E. cbn. intros [-> H]%legacy_digest_inv. done.
Qed.
Lemma optional_digest_inv v b : _optional_digest v = Ok b →
  b = match v with Some (JStr d) => Some d | _ => None end ∧ opt_well_formed b.
Proof.
  unfold _optional_digest. destruct v as [[]|]; try by intros [= <-]; split; [|intros ?].
  destruct (legacy_digest s) as [d|] eqn:E; [|done]. intros [= <-]. apply legacy_digest_inv in E as [-> Hd].
  split; [done|]. by intros ? [= <-].
Qed.
Lemma policy_draft_ok component target baseline policy detail : well_formed target → opt_well_formed baseline →
  promotion_draft (policy_plan component target baseline policy detail).(pp_draft).
Proof.
  intros Ht Hb. unfold policy_plan. cbn [pp_draft]. unfold _policy_attestation_draft, promotion_draft.
  cbn [dr_action dr_evidence dr_subject dr_check_set dr_manifest]. split_and!; [done..| |apply digest_ok|apply digest_ok].
  eexists. split; [done|]. by split.
Qed.

(** ** Readings *)
Section readings.
Context (env : nat → plane → plane) (dies : nat → bool) (now : nat → Z) (stamp : nat → string).
Lemma on_registry_ok {A} (m : string → R A) w a w' : on_registry env dies stamp m w = (Ok a, w') →
  ∃ at_ s0, m at_ s0 = (Ok a, w'.(the_plane).(pl_registry)).
Proof.
  unfold on_registry, step. destruct (dies _); [done|]. set (at_ := stamp _). set (s0 := pl_registry _).
  destruct (m at_ s0) as [[x|e] s1] eqn:E; [|done]. intros [= <- <-]. by exists at_, s0.
Qed.
Lemma command_record_ok c w r w' : _command_record env dies now c w = (Ok r, w') →
  command_for_id w'.(the_plane).(pl_ledger) c.(cc_command) = Ok (Some r) ∧ well_formed r.(cmd_request_hash).
Proof.
  unfold _command_record. intros (found & w1 & E & H)%ebind_ok. destruct found as [r'|]; [|done]. injection H as -> ->.
  revert E. unfold on_ledger, step. destruct (dies _); [done|]. set (l := pl_ledger _).
  unfold command, ebind, get, lift. destruct (command_for_id l _) as [f|e] eqn:Ec; [|done]. intros [= -> <-].
  split; [exact Ec|]. unfold command_for_id in Ec. repeat case_match; simplify_eq.
  match goal with H : negb _ = false |- _ => apply negb_false_iff in H; unfold command_row_ok in H;
    rewrite !andb_true_iff, !bool_decide_eq_true in H; destruct H as [[[_ Hh] _] _] end.
  rewrite Hh. apply digest_ok.
Qed.
Lemma reference_read component version w d w' : required_reference env dies stamp component version w = (Ok d, w') →
  ∃ s0, component_reference component version s0 = (Ok (Some d), w'.(the_plane).(pl_registry)).
Proof.
  unfold required_reference. intros (reference & w1 & E & H)%ebind_ok. destruct reference as [d'|]; [|done].
  injection H as -> ->. by apply on_registry_ok in E as (_ & s0 & E); exists s0.
Qed.
End readings.

(** ** Answers *)
Lemma parse_detail_dump d d' : parse_detail (dump d) = Some d' → d' = d.
Proof.
  destruct d as [uri h]. unfold parse_detail. intros (u & Hu & H)%bind_Some. injection Hu as <-.
  apply bind_Some in H as (h' & Hh & [= <-]). change (parse_digest (JStr h) = Some h') in Hh.
  unfold parse_digest in Hh. cbn [j_str mbind option_bind] in Hh. by destruct (is_ok _); [injection Hh as <-|].
Qed.
Lemma parse_moved_fields j m : parse_moved j = Some m →
  j_get "component" j ≫= j_str = Some m.(res_of) ∧ j_get "to_version" j ≫= parse_digest = Some m.(res_to) ∧
  j_get "detail" j ≫= parse_detail = Some m.(res_detail).
Proof. unfold parse_moved. intros H. repeat (apply bind_Some in H as (? & ? & H)). by injection H as <-. Qed.
Section readings.
Context (env : nat → plane → plane) (dies : nat → bool) (now : nat → Z) (stamp : nat → string).
Abbreviation normalize := (_normalize_legacy_response env dies stamp).
Abbreviation decode := (_decode_response env dies stamp).
Abbreviation load := (_load_stored_plan env dies now stamp).

Lemma normalize_reads value model w u w' a : normalize value model w = (Ok (Some u), w') → lossless_as u model = Some a →
  answer_ok a ∧ upgraded_from w'.(the_plane).(pl_registry) value a.
Proof.
  intros E (Hok & Hs & Hv)%lossless_inv. split; [done|]. unfold _normalize_legacy_response in E.
  destruct value as [| | | | | |members]; try done. destruct (legacy_version _) as [[|]|] eqn:El; try done.
  split; [done|]. exists members. split; [done|]. cbv zeta in E |- *.
  set (up := Dict.set "schema_version" (JInt 3) members) in *. destruct model.
  2: { injection E as <- <-. apply fmap_Some in Hv as (x & _ & ->). exact Hs. }
  apply fmap_Some in Hv as (m & Hm & ->). destruct (j_get "component" (JObj up)) as [[| | | |name| |]|] eqn:Ec; try done.
  destruct (j_get "to_version" (JObj up)) as [[| | | |text| |]|] eqn:Et; try done.
  destruct (legacy_digest text) as [version|] eqn:Ed; unfold legacy_digest in Ed;
    destruct (Digest_well_formed text) as [v|bad] eqn:Ev; try done. injection Ed as ->.
  apply ebind_ok in E as (d & w1 & E & H). injection H as <- <-. apply reference_read in E as (s0 & E).
  destruct (parse_moved_fields _ _ Hm) as (Hc & Hto & Hd). cbn [j_get] in Hc, Hto, Hd, Ec, Et.
  rewrite Dict.get_set_eq in Hd. rewrite Dict.get_set_ne, Ec in Hc by done. rewrite Dict.get_set_ne, Et in Hto by done.
  apply parse_detail_dump in Hd. injection Hc as <-. cbn [mbind option_bind] in Hto.
  assert (version = text) as -> by (destruct (legacy_digest_inv text version); [unfold legacy_digest; by rewrite Ev|done]).
  unfold parse_digest in Hto. cbn [j_str mbind option_bind] in Hto. rewrite Ev in Hto. injection Hto as <-. rewrite Hd.
  split; [exact Hs|by exists s0].
Qed.
Lemma upgraded_reads value models w a w' : decode_upgraded env dies stamp value models w = (Ok a, w') →
  answer_ok a ∧ upgraded_from w'.(the_plane).(pl_registry) value a.
Proof.
  revert w. induction models as [|model models IH]; intros w; [done|]. cbn [decode_upgraded].
  intros (u & w1 & E & H)%ebind_ok. destruct u as [u|]; cbn [mbind option_bind] in H; [|by eapply IH].
  destruct (lossless_as u model) as [b|] eqn:Eb; [|by eapply IH]. injection H as <- <-. by eapply normalize_reads.
Qed.
(** An answer is read as itself, or as its upgrade. *)
Lemma decode_reads value models w a w' : decode value models w = (Ok a, w') →
  answer_ok a ∧ ((same_json value (dump a) = true ∧ w' = w) ∨ upgraded_from w'.(the_plane).(pl_registry) value a).
Proof.
  unfold _decode_response. destruct (decode_current value models) as [b|] eqn:E.
  - intros [= <- <-]. apply decode_inv in E as [? ?]. auto.
  - intros [? ?]%upgraded_reads. auto.
Qed.
Lemma decode_rejected_still value w a w' : decode value [AsControlRejected] w = (Ok a, w') → w' = w.
Proof.
  unfold _decode_response. destruct (decode_current _ _); [by intros [= _ <-]|]. cbn [decode_upgraded].
  intros (u & w1 & E & H)%ebind_ok. assert (w1 = w) as ->.
  { unfold _normalize_legacy_response in E. destruct value; try (by injection E).
    destruct (legacy_version _) as [[|]|]; [by injection E..|done]. }
  destruct (u ≫= _); [by injection H as _ <-|done].
Qed.

(** ** Plans *)
Lemma except_invalid_ok {A} (m h : C A) w a w' : (∀ w x w', h w ≠ (Ok x, w')) →
  except_invalid m h w = (Ok a, w') → m w = (Ok a, w').
Proof.
  intros Hh. unfold except_invalid, catch. destruct (m w) as [[b|e] w1]; [done|].
  repeat case_match; try done; by intros ?%Hh.
Qed.
Lemma lifted_ok {A} (r : result plan_fault A) id w a w' :
  (match r with Ok a => eret a | Raise why => damage (PlanDamaged id why) end : C A) w = (Ok a, w') → r = Ok a ∧ w' = w.
Proof. destruct r; [|done]. by intros [= <- <-]. Qed.
Lemma legacy_reads c raw w p w' : is_object raw = true → has_key "schema_version" raw = false → load c raw w = (Ok p, w') →
  plan_ok p ∧ legacy_plan c raw w' p.
Proof.
  intros Ho Hn E. unfold _load_stored_plan in E. rewrite Ho, Hn in E. cbn [andb negb] in E.
  apply ebind_ok in E as (r & w1 & Er & E). apply command_record_ok in Er as [Hr Hwf].
  apply except_invalid_ok in E; [|done]. unfold legacy_plan.
  destruct (has_key "rejection" raw).
  { apply ebind_ok in E as (v & w2 & [Hv ->]%lifted_ok & E). apply ebind_ok in E as (x & w3 & Ex & E).
    pose proof (decode_rejected_still _ _ _ _ Ex) as ->. apply decode_reads in Ex as [_ Hx].
    destruct x as [|x]; [done|]. injection E as <- <-. split; [exact Hwf|]. split_and!; [done|done|done|by exists r|].
    exists v. split; [unfold _object in Hv; repeat case_match; naive_solver|]. naive_solver. }
  case_decide as Hop.
  { repeat (apply ebind_ok in E as (? & ? & [? ->]%lifted_ok & E)). injection E as <- <-.
    repeat match goal with
    | H : _ ≫= legacy_digest = Ok _ |- _ => apply string_digest_inv in H as [? ?]
    | H : _string _ _ = Ok _ |- _ => apply string_inv in H
    | H : _optional_digest _ = Ok _ |- _ => apply optional_digest_inv in H as [? ?]
    end.
    split; [by split|by split_and!]. }
  case_decide as Hop'; [|done].
  apply ebind_ok in E as (component & w2 & [Hc ->]%lifted_ok & E). apply string_inv in Hc.
  apply ebind_ok in E as (baseline & w2 & [[Hb Hwb]%string_digest_inv ->]%lifted_ok & E).
  apply ebind_ok in E as (target & w2 & [[Ht Hwt]%string_digest_inv ->]%lifted_ok & E).
  apply ebind_ok in E as (planned & w2 & (_ & s0 & Hp)%on_registry_ok & E). injection E as <- <-.
  split.
  - split_and!; [done|done|]. unfold plan_rollback_edge in Hp. apply ebind_ok in Hp as (snap & s1 & _ & Hp).
    destruct (snapshot_get _ _ _); [|done]. injection Hp as <- _. apply policy_draft_ok; [done|]. by intros ? [= <-].
  - split_and!; [done..|]. by exists planned, s0.
Qed.
End readings.

(** C15: Stored plans and answers round-trip: a well-formed plan of an operation is loaded back
    exactly as stored and an answer decodes to itself, without asking the stores; and whatever
    loads or decodes is a well-formed plan or answer that either renders to the stored value's
    canonical JSON, or is the code's reading of an earlier era: a plan without an envelope,
    named by its fields and marked as not exact, or an answer of the first two schemas under
    today's number, a promotion's completed by the reference to its component. *)
Theorem stored_plans_round_trip env dies now stamp c p a w :
  let load := _load_stored_plan env dies now stamp c in
  let decode raw := _decode_response env dies stamp raw response_types in
  (* a plan of the operation is read back as it was stored, *)
  (plan_ok p → plan_kind p ∈ expected_kinds c.(cc_operation) → load (_StoredPlan p) w = (Ok p, w)) ∧
  (* whatever is read as a plan is, to the byte of its canonical JSON, one of the
     operation, or an earlier era's, which says so and names its fields, *)
  (∀ raw w', load raw w = (Ok p, w') → plan_ok p ∧
     (plan_kind p ∈ expected_kinds c.(cc_operation) ∧ same_json raw (_StoredPlan p) = true ∧ w' = w ∨
      legacy_plan c raw w' p)) ∧
  (* and so with answers *)
  (answer_ok a → decode (dump a) w = (Ok a, w)) ∧
  ∀ raw w', decode raw w = (Ok a, w') → answer_ok a ∧
    (same_json raw (dump a) = true ∧ w' = w ∨ upgraded_from w'.(the_plane).(pl_registry) raw a).
Proof.
  cbv zeta. split_and!.
  - intros Hp Hk. by rewrite (load_typed env dies now stamp c _ p (parse_stored _ _ Hp Hk)).
  - intros raw w' E. destruct (is_object raw) eqn:Ho; [|unfold _load_stored_plan in E; by rewrite Ho in E].
    destruct (has_key "schema_version" raw) eqn:Hk; [|split; [|right]; by eapply legacy_reads].
    unfold _load_stored_plan in E. rewrite Ho, Hk in E. apply lifted_ok in E as [E ->].
    apply parse_stored_inv in E as (? & ? & ?). auto.
  - intros Ha. by rewrite (decode_typed env dies stamp _ _ _ (decode_ok a Ha)).
  - intros raw w'. apply decode_reads.
Qed.

(** ** The earlier eras are read *)
Section eras.
Context (now : nat → Z) (stamp : nat → string).
Abbreviation load := (_load_stored_plan (λ _ p, p) (λ _, false) now stamp).
Abbreviation decode raw := (_decode_response (λ _ p, p) (λ _, false) stamp raw response_types).
(** A promotion as the first and the second schema wrote it. *)
Definition old_moved (version : Z) (m : PromotionCommandResult) : json :=
  JObj [("schema_version", JInt version); ("status", JStr (promotion_status_value m.(res_status)));
        ("component", JStr m.(res_of)); ("from_version", dump m.(res_from)); ("to_version", JStr m.(res_to));
        ("command", dump m.(res_command))].
Lemma old_answers_are_read version m p n : (version = 1 ∨ version = 2)%Z → answer_ok (Moved m) →
  component_reference m.(res_of) m.(res_to) p.(pl_registry) = (Ok (Some m.(res_detail)), p.(pl_registry)) →
  decode (old_moved version m) (mkWorld p n) = (Ok (Moved m), mkWorld p (S n)).
Proof.
  intros Hv Ha Hd. pose proof Ha as (_ & Hwf & _). unfold _decode_response.
  assert (parse_moved (old_moved version m) = None) as Hnone.
  { unfold parse_moved. destruct (_ ≫= parse_status); [|done]. destruct (_ ≫= j_str); [|done].
    destruct (_ ≫= parse_opt_digest); [|done]. destruct (_ ≫= parse_digest); [|done].
    by destruct (_ ≫= parse_meta). }
  assert (decode_current (old_moved version m) response_types = None) as ->.
  { unfold decode_current, response_types. cbn [omap list_omap]. unfold lossless_as at 1. cbn [model_validate].
    rewrite Hnone. done. }
  assert (_normalize_legacy_response (λ _ p, p) (λ _, false) stamp (old_moved version m) AsPromotionCommandResult
    (mkWorld p n) = (Ok (Some (dump m)), mkWorld p (S n))) as Hn.
  { assert (legacy_version (old_moved version m) = Some true) as Hl by (by destruct Hv as [->| ->]).
    change (_normalize_legacy_response (λ _ p, p) (λ _, false) stamp (old_moved version m) AsPromotionCommandResult) with
      (match legacy_version (old_moved version m) with
       | None => raise UnhashableVersion
       | Some false => eret None
       | Some true =>
           match Digest_well_formed m.(res_to) with
           | Raise _ => eret None
           | Ok to_version =>
               let* d := required_reference (λ _ p, p) (λ _, false) stamp m.(res_of) to_version in
               eret (Some (JObj [("schema_version", JInt 3); ("status", JStr (promotion_status_value m.(res_status)));
                 ("component", JStr m.(res_of)); ("from_version", dump m.(res_from)); ("to_version", JStr m.(res_to));
                 ("command", dump m.(res_command)); ("detail", dump d)]))
           end
       end : C (option json)).
    rewrite Hl, (digest_reads _ Hwf). unfold required_reference. apply ebind_ok. exists m.(res_detail), (mkWorld p (S n)).
    split; [|done]. apply ebind_ok. exists (Some m.(res_detail)), (mkWorld p (S n)). split; [|done].
    unfold on_registry, step. cbn [step_no the_plane]. rewrite Hd. by destruct p. }
  unfold response_types. cbn [decode_upgraded]. apply ebind_ok. exists (Some (dump m)), (mkWorld p (S n)). split; [done|].
  cbn [mbind option_bind]. change (dump m) with (dump (Moved m)). rewrite (lossless_ok (Moved m) AsPromotionCommandResult Ha); [done|].
  cbn [model_validate]. change (dump (Moved m)) with (dump m). by rewrite (parse_moved_ok m Ha).
Qed.
(** A domain plan as it was written before the envelope. *)
Definition old_promotion (component : string) (baseline : option Digest) (target : Digest) (id : string) : json :=
  JObj [("attestation_id", JStr id); ("baseline", dump baseline); ("component", JStr component); ("version", JStr target)].
Lemma old_plans_are_read c component baseline target id r p n :
  opt_well_formed baseline → well_formed target → ledger_ok p.(pl_ledger) → c.(cc_operation) = "registry_promote" →
  Dict.get c.(cc_command) p.(pl_ledger).(commands) = Some r →
  load c (old_promotion component baseline target id) (mkWorld p n)
  = (Ok (PromotionPlan false component baseline target id), mkWorld p (S n)).
Proof.
  intros Hb Ht Hl Hop Hr. unfold _load_stored_plan.
  change (is_object _ && has_key "schema_version" _) with false. change (negb (is_object _)) with false. cbn [negb].
  apply ebind_ok. exists r, (mkWorld p (S n)). split.
  { unfold _command_record. apply ebind_ok. exists (Some r), (mkWorld p (S n)). split; [|done].
    unfold on_ledger, step, command, ebind, get, lift. cbn [step_no the_plane]. rewrite (command_good _ _ Hl), Hr. by destruct p. }
  unfold except_invalid, catch. change (has_key "rejection" _) with false. cbn match. rewrite decide_True by done.
  assert (legacy_digest target = Ok target) as Et by (unfold legacy_digest; by rewrite (digest_reads _ Ht)).
  assert (_optional_digest (j_get "baseline" (old_promotion component baseline target id)) = Ok baseline) as ->.
  { destruct baseline as [b|]; [|done]. change (Some <$> legacy_digest b = Ok (Some b)).
    unfold legacy_digest. by rewrite (digest_reads b (Hb b eq_refl)). }
  change (_string (old_promotion component baseline target id) "version" ≫= legacy_digest) with (legacy_digest target).
  by rewrite Et.
Qed.
End eras.

(** A rejection as the first schema wrote it. *)
Definition first_rejection : json :=
  match dump (mkRejected []) with JObj m => JObj (Dict.set "schema_version" (JInt 1) m) | j => j end.
Lemma stored_plans_round_trip_witness :
  let h := digest_of "d" 1 JNull in
  let c := mkClaim "command-1" "op" "registry_promote" "a" 1 0 in
  let w := mkWorld (mkPlane new_registry new_ledger) 0 in
  _load_stored_plan (λ _ p, p) (λ _, false) (λ _, 0%Z) (λ _, "t") c (_StoredPlan (PromotionPlan true "start" None h "att-1")) w
  = (Ok (PromotionPlan true "start" None h "att-1"), w) ∧
  upgraded_from new_registry first_rejection (Refused (mkRejected [])).
Proof.
  intros h c w.
  destruct (stored_plans_round_trip (λ _ p, p) (λ _, false) (λ _, 0%Z) (λ _, "t") c (PromotionPlan true "start" None h "att-1")
    (Refused (mkRejected [])) w) as (H1 & _ & _ & H4).
  split.
  - apply H1; [split; [intros d Hd; discriminate Hd|apply digest_ok]|vm_compute; left].
  - destruct (H4 first_rejection w) as [_ [[Hs _]|Hu]]; [vm_compute; reflexivity|vm_compute in Hs; discriminate Hs|exact Hu].
Defined.
