(* ===== verification/CommandWrites.v ===== *)
(** The steps of a registry command that write ([CommandSpec]): taking the
    claim, storing the plan, minting and spending the policy proof, recording
    the answer. *)

From S2P Require Import Prelude Identity Address Component Manifest Run Effect Journal EffectStore.
From S2P Require Import RegistryStore Registry JournalSpec EffectSpec RegistrySpec RegistryLaws RollbackSpec.
From S2P Require Import Control Ledger LedgerSpec Detail DetailLaws Plans PlanLaws Commands CommandSpec CommandSteps.
From S2P Require Import CommandReads.

(** ** Writes to the ledger keep the plane good *)
Lemma ledger_write repr others p r : plane_good repr p → lstep p.(pl_ledger) (set_command r p.(pl_ledger)) →
  row_true repr p.(pl_registry) r →
  (∀ r0, Dict.get r.(cmd_id) p.(pl_ledger).(commands) = Some r0 → r0.(cmd_operation) = r.(cmd_operation) ∧
     (r0.(cmd_epoch) < r.(cmd_epoch) ∨ ∀ owner, r0.(cmd_owner) = Some owner → ¬ others owner)) →
  writes repr others p (mkPlane p.(pl_registry) (set_command r p.(pl_ledger))).
Proof.
  intros Hp Hs Hr Hop. split; [split; [|by split; [reflexivity|apply rtc_once]]|].
  - split; cbn [pl_registry pl_ledger]; [apply Hp|by eapply lsteps_good; [apply rtc_once|apply Hp]| |].
    + intros id x. rewrite get_set_command. case_decide; [by intros [= <-]|apply (pg_rows _ _ Hp)].
    + intros id fact Hf. destruct (pg_facts _ _ Hp id fact Hf) as (r0 & H0 & Hn). rewrite get_set_command.
      case_decide as Hid; [|by exists r0]. subst. exists r. split; [done|]. by destruct (Hop r0 H0) as [<- _].
  - intros owner Ho id r0 (H0 & Ht & Hown). cbn [pl_ledger]. rewrite get_set_command.
    case_decide as Hid; [|exists r0; split; [done|by left]]. subst. exists r. split; [done|].
    destruct (Hop r0 H0) as [_ [Hlt|Hno]]; [by right|]. by destruct (Hno owner Hown).
Qed.
Lemma moved_answer_ok s r o id p m : reg_ok s → plan_true s r o p → moved_true s id p m → answer_ok (Moved m).
Proof.
  intros Hok Ht (e & row & k & He & _ & _ & Hk & _ & ->). cbn [answer_ok res_from res_to res_detail].
  assert (has_version s e.(edge_component) e.(edge_to)) as Hv by (apply (has_version_iff s); by eexists).
  split_and!; [|by apply (version_digest s Hok e.(edge_component))|apply digest_ok].
  intros h Hh. apply (version_digest s Hok e.(edge_component)).
  destruct p; try discriminate He; injection He as <-; cbn [edge_component edge_from] in *; try discriminate Hh.
  all: destruct o; try done; cbn [plan_true] in Ht; naive_solver.
Qed.

Section writes.
Context (env : nat → plane → plane) (dies : nat → bool) (now : nat → Z) (stamp : nat → string).
Context (owner_id key : string) (others : string → Prop) (repr : string → string) (shield mortal : Prop).
Context (others_other : ¬ others owner_id).
Context (env_lawful : ∀ n p, plane_good repr p → lawful repr owner_id others shield p (env n p)).
Context (dies_mortal : ∀ n, dies n = true → mortal).
Context (o : order).
Abbreviation lawful := (lawful repr owner_id others shield).
Abbreviation holds := (holds repr owner_id key shield o).
Abbreviation failing := (expected_error shield mortal (exceptional o)).
Abbreviation quiet := (spec shield mortal (exceptional o) lawful).
Abbreviation doing := (spec shield mortal (exceptional o) (writes repr others)).

Lemma lawful_good p p' : lawful p p' → plane_good repr p'.
Proof. apply lw_good. Qed.
Lemma quiet_doing {A} (m : C A) P p : quiet m P p → doing m (λ a p', P a p' ∧ lawful p p') p.
Proof.
  intros H n. specialize (H n). destruct (m _) as [r w]. destruct H as [HR HP].
  split; [by eapply lawful_writes|]. by destruct r.
Qed.
Lemma doing_ret {A} (a : A) P p : plane_good repr p → P a p → doing (eret a) P p.
Proof.
  apply (spec_ret repr shield mortal lawful (lawful_refl repr owner_id others shield)). intros p1 p2. by apply lawful_writes.
Qed.
Lemma quiet_ret {A} (a : A) P p : plane_good repr p → P a p → quiet (eret a) P p.
Proof. by apply (spec_ret repr shield mortal lawful (lawful_refl repr owner_id others shield)). Qed.
Lemma quiet_damage {A} why (P : A → plane → Prop) p : plane_good repr p → failing (ControlDamaged why) p →
  quiet (damage why) P p.
Proof. by apply (spec_damage repr shield mortal lawful (lawful_refl repr owner_id others shield)). Qed.
Lemma bind_quiet {A B} (m : C A) (f : A → C B) P P' p :
  quiet m P p → (∀ a p', lawful p p' → P a p' → doing (f a) P' p') → doing (ebind m f) P' p.
Proof.
  intros Hm Hf. eapply spec_bind; [apply _|by apply quiet_doing|]. intros a p' _ [HP Hl]. by apply Hf.
Qed.
Lemma unless_shielded e p : (shield → False) → failing e p.
Proof. intros H. right. by left. Qed.

(** The hypotheses of the lemmas on reads. *)
Ltac world := first
  [ exact env_lawful | exact dies_mortal | exact (lawful_refl repr owner_id others shield)
  | exact (lawful_moves repr owner_id others shield) | exact (lawful_trans repr owner_id others shield)
  | exact (writes_trans repr others) | exact (wr_moves repr others) | exact (lawful_writes repr owner_id others shield)
  | solve [let H := fresh in intros ? ? H; exact H] ].

(** *** The row of the claim *)
Lemma undisturbed_row c p p' r : shield → lawful p p' → holds c p r →
  Dict.get c.(cc_command) p'.(pl_ledger).(commands) = Some r.
Proof.
  intros Hs Hl Hh. destruct (proj1 (claim_owns_inv c r) (ho_shield _ _ _ _ _ _ _ _ Hh Hs)) as (Ht & Hown & _).
  apply (lw_shield _ _ _ _ _ _ Hl Hs). split_and!; [apply Hh|done|]. rewrite Hown. f_equal. apply Hh.
Qed.
Lemma record_holds c p r : plane_good repr p → holds c p r →
  quiet (_command_record env dies now c) (λ r' p', holds c p' r' ∧ evolves r r' ∧ (shield → r' = r)) p.
Proof.
  intros Hp Hh. eapply spec_mono; [eapply record_spec with (rely := lawful); try world; [done|apply Hh]|].
  intros r' p' Hl [Hr' He].  destruct (holds_lawful _ _ _ _ _ _ _ _ _ _ Hl Hh) as (r1 & H1 & _).
  assert (r1 = r') as -> by (destruct (ho_row _ _ _ _ _ _ _ _ H1), Hr'; congruence).
  split_and!; [done|done|]. intros Hs. pose proof (undisturbed_row _ _ _ _ Hs Hl Hh). destruct Hr'; congruence.
Qed.
Lemma validate_holds c p r plan : plane_good repr p → holds c p r → plan_true p.(pl_registry) r o plan →
  quiet (_validate_command_plan env dies now stamp c plan) (λ _ _, True) p.
Proof. intros Hp Hh Ht. eapply validate_spec with (rely := lawful); try world; [done|apply Hh|done]. Qed.
Lemma holds_le c p p' r : lawful p p' → holds c p r → ∃ r', holds c p' r' ∧ evolves r r' ∧ (shield → r' = r).
Proof.
  intros Hl Hh. destruct (holds_lawful _ _ _ _ _ _ _ _ _ _ Hl Hh) as (r' & Hh' & He). exists r'. split_and!; [done|done|].
  intros Hs. pose proof (undisturbed_row _ _ _ _ Hs Hl Hh). destruct (ho_row _ _ _ _ _ _ _ _ Hh'). congruence.
Qed.
Lemma holds_plan c p r plan : holds c p r → planned_as r plan → plan_true p.(pl_registry) r o plan.
Proof. intros Hh. eapply planned_true, Hh. Qed.

(** A call of the ledger: it writes, or it raises and writes nothing. *)
Lemma ledger_call {A} (m : Z → Ledger.L A) (P : A → plane → Prop) p : plane_good repr p →
  (∀ k p1, lawful p p1 → let n := now k in
     (∃ e, m n p1.(pl_ledger) = (Raise e, p1.(pl_ledger)) ∧ failing (FromLedger e) p1) ∨
     ∃ a l, m n p1.(pl_ledger) = (Ok a, l) ∧ writes repr others p1 (mkPlane p1.(pl_registry) l) ∧
       P a (mkPlane p1.(pl_registry) l)) →
  doing (on_ledger env dies now m) P p.
Proof.
  intros Hp Hm. eapply wp_step with (rely := lawful); try world; [done|by left|].
  intros n p1 Hl. destruct (Hm n p1 Hl) as [(e & -> & He)|(a & l & -> & Hmv & HP)]; [|done].
  destruct p1 as [s l]. split; [|done]. by apply (lawful_writes repr owner_id others shield), lawful_refl, Hl.
Qed.
Lemma writes_refl p : plane_good repr p → writes repr others p p.
Proof. intros Hp. by apply (lawful_writes repr owner_id others shield), lawful_refl. Qed.

(** *** Storing the plan *)
Lemma write_holds c p r r' : plane_good repr p → holds c p r → lstep p.(pl_ledger) (set_command r' p.(pl_ledger)) →
  r'.(cmd_operation) = r.(cmd_operation) → r'.(cmd_request) = r.(cmd_request) → r'.(cmd_id) = r.(cmd_id) →
  claim_owns c r = true → row_true repr p.(pl_registry) r' →
  let p' := mkPlane p.(pl_registry) (set_command r' p.(pl_ledger)) in
  writes repr others p p' ∧ row_at repr o c p' r'.
Proof.
  intros Hp Hh Hs Hop Hq Hid (_ & Hown & _)%claim_owns_inv Hr p'. destruct (ho_row _ _ _ _ _ _ _ _ Hh) as [Hget Hc (Ho & Hreq & _)].
  destruct (get_row _ _ _ (proj1 (pg_ledger _ _ Hp)) Hget) as [Hrid _].
  assert (writes repr others p p') as Hm.
  { apply ledger_write; [done..|]. rewrite Hid, Hrid, Hget. intros ? [= <-]. split; [done|right].
    rewrite Hown, (ho_owner _ _ _ _ _ _ _ _ Hh). by intros ? [= <-]. }
  split; [done|]. apply row_at_good; [apply Hm| |congruence..].
  cbn [p' pl_ledger]. rewrite get_set_command, decide_True by congruence. done.
Qed.
Lemma store_spec c p r p' value : holds c p r → r.(cmd_plan) = None → lawful p p' →
  plan_true p'.(pl_registry) r o value →
  doing (on_ledger env dies now (store_command_plan c (_StoredPlan value)))
    (λ _ p2, ∃ r', holds c p2 r' ∧ evolves r r' ∧ planned_as r' value) p'.
Proof.
  intros Hh Hn Hl Ht. apply ledger_call; [apply Hl|]. intros k p1 Hl1 n.
  pose proof (lw_good _ _ _ _ _ _ Hl1) as Hg1. pose proof (proj1 (pg_ledger _ _ Hg1)) as Hlok.
  assert (lawful p p1) as Hl2 by (by etrans). destruct (holds_le _ _ _ _ Hl2 Hh) as (r1 & Hh1 & He1 & _).
  pose proof (ra_get _ _ _ _ _ (ho_row _ _ _ _ _ _ _ _ Hh1)) as Hget.
  pose proof (plan_eq p1.(pl_ledger) Hlok c (_StoredPlan value) n ltac:(done)) as Hplan.
  unfold owned_row in Hplan. rewrite Hget in Hplan.
  destruct (claim_matches c r1 && claim_owns c r1) eqn:Eo.
  2: { left. destruct Hplan as [e He]. exists e. split; [done|]. apply unless_shielded. intros Hs.
       rewrite (ho_shield _ _ _ _ _ _ _ _ Hh1 Hs), andb_true_r in Eo.
       unfold claim_matches in Eo. destruct Hh1 as [[_ Hop _] Ha _ _ _ _]. by rewrite !bool_decide_eq_true_2 in Eo. }
  apply andb_true_iff in Eo as [_ Eo].
  pose proof (still_ours _ _ _ _ _ _ _ _ _ _ _ Hl2 Hh Hget Eo) as ->. rewrite Hn in Hplan.
  pose proof (ra_order _ _ _ _ _ (ho_row _ _ _ _ _ _ _ _ Hh1)) as (Hop & Hq & _).
  pose proof (plan_true_le _ _ _ _ _ (proj1 (lw_le _ _ _ _ _ _ Hl1)) Ht) as Ht1.
  rewrite (plan_true_guards _ _ _ _ n Hop Ht1) in Hplan. right. do 2 eexists. split; [exact Hplan|].
  destruct (get_row _ _ _ Hlok Hget) as [Hid Hrow]. destruct (proj1 (claim_owns_inv c r) Eo) as (Hterm & Hown & Hep).
  set (r' := with_plan _ _ _).
  assert (_parse_stored_plan r'.(cmd_operation) (_StoredPlan value) = Ok value) as Hload.
  { cbn [r' with_plan cmd_operation]. rewrite Hop. eapply plan_true_load; [apply Hg1|exact Hrow|exact Ht1]. }
  destruct (write_holds c p1 r r') as [Hm Hr']; try done.
  - apply lstep_plan; [by rewrite Hid|done..|]. by eapply plan_true_guards.
  - intros _. exists o. split_and!; [done..|]. intros raw [= <-]. exists value. split_and!; [exact Hload|done|].
    destruct (prepared_row r Hrow Hterm) as (_ & Hresp & _). intros stored Hst. cbn in Hst. congruence.
  - split; [exact Hm|]. exists r'. split.
    + split; [exact Hr'|apply Hh1..|]. intros _. by apply claim_owns_inv.
    + split; [by apply planned_evolves|]. by eexists.
Qed.
Lemma load_holds c p r plan : holds c p r → planned_as r plan →
  ∃ raw, r.(cmd_plan) = Some raw ∧ _load_stored_plan env dies now stamp c raw = eret plan.
Proof.
  intros Hh (raw & Hraw & Hl). exists raw. split; [done|]. apply load_typed.
  by rewrite <-(ra_operation _ _ _ _ _ (ho_row _ _ _ _ _ _ _ _ Hh)).
Qed.
Lemma holds_planned c p r raw : holds c p r → r.(cmd_plan) = Some raw → ∃ plan, planned_as r plan.
Proof.
  intros Hh Hraw. destruct (ra_order _ _ _ _ _ (ho_row _ _ _ _ _ _ _ _ Hh)) as (_ & _ & H).
  destruct (H raw Hraw) as (plan & Hl & _). by exists plan, raw.
Qed.
(** The immutable plan of the command: the one offered, unless one is stored. *)
Lemma session_plan_spec c p r value : plane_good repr p → holds c p r → plan_true p.(pl_registry) r o value →
  doing (session_plan env dies now stamp c value)
    (λ v p', ∃ r', holds c p' r' ∧ evolves r r' ∧ planned_as r' v ∧ (shield → r.(cmd_plan) = None → v = value)) p.
Proof.
  intros Hp Hh Ht. unfold session_plan. eapply bind_quiet; [by apply record_holds|].
  intros r1 p1 Hl1 (Hh1 & He1 & Hs1). pose proof (lw_good _ _ _ _ _ _ Hl1) as Hg1.
  destruct (cmd_plan r1) as [raw|] eqn:Eraw.
  - destruct (holds_planned _ _ _ _ Hh1 Eraw) as (plan & Hplan).
    destruct (load_holds _ _ _ _ Hh1 Hplan) as (raw' & Hraw' & Hload). simplify_eq. rewrite Hload.
    change (ebind (eret plan) ?f) with (f plan). cbv beta.
    eapply bind_quiet; [eapply validate_holds; [done..|by eapply holds_plan]|].
    intros _ p2 Hl2 _. apply doing_ret; [apply Hl2|].
    destruct (holds_le _ _ _ _ Hl2 Hh1) as (r2 & Hh2 & He2 & _). exists r2.
    split_and!; [done|by etrans|by eapply planned_as_evolves|]. intros Hs Hn. rewrite (Hs1 Hs) in Eraw. congruence.
  - pose proof (plan_true_evolves _ _ _ _ _ He1 (plan_true_le _ _ _ _ _ (proj1 (lw_le _ _ _ _ _ _ Hl1)) Ht)) as Ht1.
    eapply bind_quiet; [by eapply validate_holds|]. intros _ p2 Hl2 _.
    eapply spec_bind; [apply _| |].
    { eapply store_spec; [exact Hh1|done|exact Hl2|]. eapply plan_true_le; [apply (lw_le _ _ _ _ _ _ Hl2)|done]. }
    intros _ p3 [[Hg3 _] _] (r3 & Hh3 & He3 & Hp3). apply doing_ret; [done|]. exists r3.
    split_and!; [done|by etrans|done|done].
Qed.
Lemma session_load_spec c p r plan : plane_good repr p → holds c p r → planned_as r plan →
  quiet (session_load env dies now stamp c) (λ v _, v = plan) p.
Proof.
  intros Hp Hh Hplan. unfold session_load. eapply spec_bind; [apply _|by apply record_holds|].
  intros r1 p1 Hl1 (Hh1 & He1 & _). pose proof (lw_good _ _ _ _ _ _ Hl1) as Hg1.
  pose proof (planned_as_evolves _ _ _ He1 Hplan) as Hplan1.
  destruct (load_holds _ _ _ _ Hh1 Hplan1) as (raw & -> & ->).
  change (ebind (eret plan) ?f) with (f plan). cbv beta.
  eapply spec_bind; [apply _|eapply validate_holds; [done..|by eapply holds_plan]|].
  intros _ p2 Hl2 _. apply quiet_ret; [apply Hl2|done].
Qed.

(** *** Recording the answer *)
Definition answer_state (a : response) : command_state := if is_rejection a then CommandRejected else CommandCommitted.
(** The ledger answers [a] under the command [id]. *)
Definition records (id actor : string) (a : response) (p : plane) : Prop :=
  ∃ r plan stored, Dict.get id p.(pl_ledger).(commands) = Some r ∧ r.(cmd_actor).(actor_id) = actor ∧ r.(cmd_key) = key ∧
    row_of_order repr p.(pl_registry) r o ∧ planned_as r plan ∧ answer_true repr p.(pl_registry) r plan a ∧
    r.(cmd_response) = Some stored ∧ same_json stored (dump a) = true.
Lemma answer_true_state s r plan a : answer_true repr s r plan a → r.(cmd_state) = answer_state a.
Proof. destruct a; by intros [? _]. Qed.
Lemma finish_spec c p r plan a : plane_good repr p → holds c p r → planned_as r plan →
  match a with
  | Moved m => moved_true p.(pl_registry) c.(cc_command) plan m
  | Refused x => refusal_of repr plan x
  end →
  doing (on_ledger env dies now (_terminal_command c (dump a) (answer_state a)))
    (λ _ p', records c.(cc_command) c.(cc_actor) a p') p.
Proof.
  intros Hp Hh Hplan Ha. apply ledger_call; [done|]. intros k p1 Hl1 n.
  pose proof (lw_good _ _ _ _ _ _ Hl1) as Hg1. pose proof (proj1 (pg_ledger _ _ Hg1)) as Hlok.
  destruct (holds_le _ _ _ _ Hl1 Hh) as (r1 & Hh1 & He1 & _).
  pose proof (planned_as_evolves _ _ _ He1 Hplan) as Hplan1.
  pose proof (ho_row _ _ _ _ _ _ _ _ Hh1) as [Hget Hc Hord].
  destruct (get_row _ _ _ Hlok Hget) as [Hid Hrow].
  assert (∀ st s, (∀ m, a = Moved m → moved_true s c.(cc_command) plan m) → st = answer_state a →
    ∀ r2, r2.(cmd_state) = st → r2.(cmd_id) = c.(cc_command) → answer_true repr s r2 plan a) as Hat.
  { intros st s Hm -> r2 Hst Hid2. destruct a as [m|x]; (split; [exact Hst|]); [rewrite Hid2; by apply Hm|done]. }
  assert (∀ m, a = Moved m → moved_true p1.(pl_registry) c.(cc_command) plan m) as Hmv.
  { intros m ->. eapply moved_true_le; [apply (lw_le _ _ _ _ _ _ Hl1)|done]. }
  rewrite (terminal_eq p1.(pl_ledger) Hlok) by (by destruct a). rewrite Hget.
  assert ((if decide (answer_state a = CommandRejected) then _domain_fact_owned_by (pl_ledger p1) (cmd_id r1) else None) = None) as ->.
  { case_decide; [|done]. unfold _domain_fact_owned_by. destruct (Dict.get (cmd_id r1) _) as [fact|] eqn:Ef; [|done].
    rewrite Hid in Ef. destruct (pg_facts _ _ Hg1 _ _ Ef) as (r0 & H0 & Hn). simplify_eq.
    destruct Hn. rewrite (proj1 Hord). apply order_operation_elem. }
  destruct (terminal r1) eqn:Eterm.
  - destruct (bool_decide (cmd_state r1 = answer_state a) && same_response r1 (dump a)) eqn:E.
    + right. do 2 eexists. split; [done|]. assert (mkPlane (pl_registry p1) (pl_ledger p1) = p1) as -> by (by destruct p1).
      split; [by apply writes_refl|]. apply andb_true_iff in E as [Est%bool_decide_eq_true Eresp].
      unfold same_response in Eresp. destruct (cmd_response r1) as [stored|] eqn:Es; [|done].
      exists r1, plan, stored. split_and!; [done|apply Hh1|apply Hh1|done|done|by eapply Hat|done|done].
    + left. eexists. split; [done|]. apply unless_shielded. intros Hs.
      destruct (proj1 (claim_owns_inv _ _) (ho_shield _ _ _ _ _ _ _ _ Hh1 Hs)) as (Hterm & _). congruence.
  - assert (claim_matches c r1 = true) as ->.
    { unfold claim_matches. destruct Hh1 as [_ Hact _ _ _ _]. by rewrite !bool_decide_eq_true_2. }
    cbn [negb]. destruct (claim_owns c r1) eqn:Eo; cbn [negb].
    2: { left. eexists. split; [done|]. apply unless_shielded. intros Hs.
         rewrite (ho_shield _ _ _ _ _ _ _ _ Hh1 Hs) in Eo. done. }
    destruct Hplan1 as (raw & Hraw & Hload). rewrite Hraw. right. do 2 eexists. split; [done|].
    set (r' := with_terminal _ _ _ _).
    assert (answer_true repr p1.(pl_registry) r' plan a) as Har by (by eapply Hat).
    assert (answer_ok a) as Haok.
    { destruct a as [m|x]; [|done]. destruct Har as [_ Har].
      eapply moved_answer_ok; [apply Hg1|by eapply holds_plan; [exact Hh1|exists raw]|exact Har]. }
    assert (plan_true p1.(pl_registry) r1 o plan) as Ht1 by (eapply holds_plan; [exact Hh1|by exists raw]).
    destruct (write_holds c p1 r1 r') as [Hm Hr']; try done.
    + apply lstep_terminal; [by rewrite Hid|done|by eexists|by destruct a|].
      intros _. rewrite Hid. destruct (Dict.get _ (owned _)) as [fact|] eqn:Ef; [|done].
      destruct (pg_facts _ _ Hg1 _ _ Ef) as (r0 & H0 & Hn). simplify_eq.
      destruct Hn. rewrite (proj1 Hord). apply order_operation_elem.
    + intros _. exists o. destruct Hord as (Ho & Hq & _). split_and!; [done..|]. intros raw' Hraw'.
      cbn in Hraw'. simplify_eq. exists plan. split_and!; [done|done|]. intros stored [= <-]. exists a.
      split; [by apply decode_ok|done].
    + split; [exact Hm|]. exists r', plan, (dump a).
      split_and!; [apply Hr'|apply Hh1|apply (ho_key _ _ _ _ _ _ _ _ Hh1)|apply Hr'|by exists raw|done|done|apply same_json_refl].
Qed.
Lemma reject_spec c p r plan x : plane_good repr p → holds c p r → planned_as r plan → refusal_of repr plan x →
  doing (session_reject env dies now c x;;; eret (Refused x))
    (λ a p', a = Refused x ∧ records c.(cc_command) c.(cc_actor) a p') p.
Proof.
  intros Hp Hh Hplan Hx. unfold session_reject. eapply spec_bind; [apply _| |].
  { eapply spec_bind; [apply _|by apply (finish_spec c p r plan (Refused x))|].
    intros _ p1 [[Hg1 _] _] Hrec. by apply (doing_ret tt (λ _ p', records c.(cc_command) c.(cc_actor) (Refused x) p')). }
  intros _ p1 [[Hg1 _] _] Hrec. by apply doing_ret.
Qed.
(** The refusal under the stored plan: [record] is the row read before it. *)
Lemma refuse_spec c p record r plan x : plane_good repr p → holds c p r → planned_as r plan →
  record.(cmd_operation) = r.(cmd_operation) → (shield → refusal_of repr plan x) →
  doing (_validate_terminal_rejection repr record plan x;;; session_reject env dies now c x;;; eret (Refused x))
    (λ a p', a = Refused x ∧ records c.(cc_command) c.(cc_actor) a p') p.
Proof.
  intros Hp Hh Hplan Hop Hx.
  pose proof (ra_order _ _ _ _ _ (ho_row _ _ _ _ _ _ _ _ Hh)) as (Ho & _).
  pose proof (holds_plan _ _ _ _ Hh Hplan) as Ht.
  destruct (refusal_outcome repr o record p.(pl_registry) r plan x) as [[Hr ->]|[Hn [why ->]]]; [congruence|done| |].
  - change (ebind (eret tt) ?f) with (f tt). cbv beta. by eapply reject_spec.
  - change (ebind (damage why) ?f) with (damage (A:=response) why).
    apply (spec_damage repr shield mortal lawful (lawful_refl repr owner_id others shield)); [|done|].
    + intros ? ?. apply lawful_writes.
    + apply unless_shielded. auto.
Qed.
Lemma terminal_rejection_spec c p r x : plane_good repr p → holds c p r →
  (shield → ∀ plan, planned_as r plan → refusal_of repr plan x) →
  doing (_terminal_rejection env dies now stamp repr c x)
    (λ a p', a = Refused x ∧ records c.(cc_command) c.(cc_actor) a p') p.
Proof.
  intros Hp Hh Hx. unfold _terminal_rejection. eapply bind_quiet; [by apply record_holds|].
  intros r1 p1 Hl1 (Hh1 & He1 & Hs1). pose proof (lw_good _ _ _ _ _ _ Hl1) as Hg1.
  eapply spec_bind with (P := λ plan p2, ∃ r2, holds c p2 r2 ∧ evolves r1 r2 ∧ planned_as r2 plan ∧
    (shield → refusal_of repr plan x)); [apply _| |].
  2: { intros plan p2 [[Hg2 _] _] (r2 & Hh2 & He2 & Hp2 & Hr2). eapply refuse_spec; [done..|symmetry; apply He2|done]. }
  destruct (cmd_plan r1) as [raw|] eqn:Eraw.
  - destruct (holds_planned _ _ _ _ Hh1 Eraw) as (plan & Hplan).
    destruct (load_holds _ _ _ _ Hh1 Hplan) as (raw' & Hraw' & Hload). simplify_eq. rewrite Hload.
    change (ebind (eret plan) ?f) with (f plan). cbv beta.
    eapply bind_quiet; [eapply validate_holds; [done..|by eapply holds_plan]|].
    intros _ p2 Hl2 _. destruct (holds_le _ _ _ _ Hl2 Hh1) as (r2 & Hh2 & He2 & _).
    assert (shield → refusal_of repr plan x) as Hr.
    { intros Hs. apply (Hx Hs). rewrite <-(Hs1 Hs). done. }
    assert (doing (eret plan) (λ plan p3, ∃ r2, holds c p3 r2 ∧ evolves r1 r2 ∧ planned_as r2 plan ∧
      (shield → refusal_of repr plan x)) p2) as Hret.
    { apply doing_ret; [apply Hl2|]. exists r2. split_and!; [done|done|by eapply planned_as_evolves|done]. }
    destruct plan as [z k t d id|z k b t id|z k b t d id|id op h y]; [exact Hret..|].
    destruct (same_json (dump y) (dump x)) eqn:Es; [exact Hret|].
    apply (spec_damage repr shield mortal lawful (lawful_refl repr owner_id others shield)); [intros ? ?; apply lawful_writes|apply Hl2|].
    apply unless_shielded. intros Hs. specialize (Hr Hs). cbn [refusal_of] in Hr. apply same_json_sym in Hr. congruence.
  - pose proof (ho_row _ _ _ _ _ _ _ _ Hh1) as [Hget Hop Hord].
    destruct (get_row _ _ _ (proj1 (pg_ledger _ _ Hg1)) Hget) as [Hid _].
    eapply spec_mono; [eapply session_plan_spec; [done|exact Hh1|]|].
    + destruct o; done.
    + intros v p2 _ (r2 & Hh2 & He2 & Hp2 & Hv). exists r2. split_and!; [done..|].
      intros Hs. rewrite (Hv Hs Eraw). apply same_json_refl.
Qed.

(** *** Spending the proof *)
Lemma promotion_for_quiet id p : plane_good repr p →
  quiet (promotion_for env dies stamp id) (λ q p', q = pr_record <$> move_of p'.(pl_registry) id) p.
Proof. intros Hp. eapply promotion_for_spec with (rely := lawful); try world. done. Qed.
Lemma stable_quiet k p : plane_good repr p →
  quiet (stable_version_of env dies stamp k) (λ v p', v = pointer p'.(pl_registry).(promotion_rows) k) p.
Proof. intros Hp. eapply stable_spec with (rely := lawful); try world. done. Qed.
(** The pointer moves under the proof of the edge, or the refusal is handled. *)
Lemma promote_spec {A} (g : PromotionRecord → A) (handler : rexn → C A) e actor P p : plane_good repr p →
  has_version p.(pl_registry) e.(edge_component) e.(edge_to) →
  (∀ p' row, lawful p p' → move_of p'.(pl_registry) e.(edge_proof) = Some row → P (g row.(pr_record)) p') →
  (∀ x p', lawful p p' → quiet (handler x) P p') →
  quiet (except promotion_refused (let* receipt := _promote_version env dies stamp e actor in eret (g receipt)) handler) P p.
Proof.
  intros Hp Hv Hg Hh. apply wp_except; [apply _|]. apply wp_bind; [apply _|].
  eapply wp_step with (rely := lawful); try world; [done|by left|].
  intros n p1 Hl1. pose proof (lw_good _ _ _ _ _ _ Hl1) as Hg1.
  pose proof (has_version_le _ _ _ _ (proj1 (lw_le _ _ _ _ _ _ Hl1)) Hv) as Hv1.
  destruct (promote _ _ _ _ _ _ _) as [r s'] eqn:E.
  destruct (promote_outcome p1.(pl_registry) (pg_registry _ _ Hg1) _ _ _ _ _ _ _ Hv1 E)
    as [(fs & -> & ->)|(row & -> & Hrow & Hs)].
  - assert (mkPlane (pl_registry p1) (pl_ledger p1) = p1) as -> by (by destruct p1).
    split; [by apply lawful_refl|]. cbn. by apply Hh.
  - pose proof (registry_lawful repr owner_id others shield p1 s' Hg1 Hs) as Hl2. split; [exact Hl2|].
    apply quiet_ret; [apply Hl2|]. apply Hg; [by etrans|exact Hrow].
Qed.
Definition applied_as (plan : command_plan) (e : edge) (res : PromotionRecord + ControlRejected) (p : plane) : Prop :=
  match res with
  | inl q => ∃ row, move_of p.(pl_registry) e.(edge_proof) = Some row ∧ q = row.(pr_record) ∧
               receipt_true p.(pl_registry) plan e q
  | inr x => x = _canonical_domain_rejection repr e
  end.
Section apply_policy.
Context (c : CommandClaim) (plan : command_plan) (e : edge) (draft : AttestationDraft).
Context (Hedge : plan_edge plan = Some e) (Hdraft : plan_draft plan = Some draft).
Lemma settled_spec p r row : plane_good repr p → row_at repr o c p r → planned_as r plan →
  move_of p.(pl_registry) e.(edge_proof) = Some row →
  quiet (_validate_promotion_receipt env dies stamp row.(pr_record) e draft;;; eret (inl row.(pr_record)))
    (applied_as plan e) p.
Proof.
  intros Hp Hr Hplan Hrow. eapply spec_bind; [apply _| |].
  - eapply policy_receipt_spec with (rely := lawful) (plan := plan); try world; [done..|].
    intros p' Hm. eapply receipt_or_fail; [done|exact Hr|by eapply planned_true|done|done].
  - intros ? p1 Hl1 Hrec. apply quiet_ret; [apply Hl1|]. exists row. split_and!; [|done|done].
    eapply move_of_le; [apply (lw_le _ _ _ _ _ _ Hl1)|done].
Qed.
Lemma mint_spec p r (P : Attestation → plane → Prop) : plane_good repr p → row_at repr o c p r → planned_as r plan →
  (∀ a p', lawful p p' → a.(attestation_id) = e.(edge_proof) → P a p') →
  quiet (on_registry env dies stamp (λ at_, on_journal (mint_policy_attestation draft at_))) P p.
Proof.
  intros Hp Hr Hplan HP. eapply wp_step with (rely := lawful); try world; [done|by left|].
  intros n p1 Hl1. pose proof (lw_good _ _ _ _ _ _ Hl1) as Hg1.
  destruct (row_at_moves _ _ _ _ _ _ (lawful_moves _ _ _ _ _ _ Hl1) Hr) as (r1 & Hr1 & He1).
  pose proof (planned_true _ _ _ _ _ _ Hr1 (planned_as_evolves _ _ _ He1 Hplan)) as Ht.
  assert (policy_draft draft ∧ attestation_id_for draft = e.(edge_proof)) as [Hpd Hid].
  { destruct plan as [x k t d id|x k b t id|x k b t d id|id op h y]; try discriminate Hdraft;
      injection Hdraft as ->; injection Hedge as <-; destruct o; try done; cbn [plan_true edge_proof] in *.
    - destruct Ht as (_ & _ & _ & _ & <- & <-). split; [apply policy_draft_is|done].
    - destruct Ht as (_ & _ & _ & _ & _ & <- & <-). split; [apply policy_draft_is|done]. }
  unfold on_journal. pose proof (pg_registry _ _ Hg1) as Hok1.
  destruct (mint_policy_attestation draft (stamp n) _) as [[a|x] j] eqn:Emint.
  all: assert (rtc rstep (pl_registry p1) (mkRegistry j (component_rows (pl_registry p1)) (promotion_rows (pl_registry p1)))) as Hs
    by (apply mint_policy_outcome in Emint; destruct (pl_registry p1); by apply journal_steps).
  all: pose proof (registry_lawful repr owner_id others shield p1 _ Hg1 Hs) as Hl2; split; [exact Hl2|].
  - destruct (mint_policy_inv _ _ _ _ _ (ro_facts _ Hok1) Hpd Emint) as (_ & Ha & _). cbn.
    apply HP; [by etrans|]. by rewrite Ha.
  - pose proof (mint_policy_ok _ _ (stamp n) (ro_facts _ Hok1) Hpd) as Hno. rewrite Emint in Hno.
    assert (plan_mintable j plan → False) as Hn.
    { unfold plan_mintable. rewrite Hdraft. intros Hm.
      destruct (mintable_dec (reg_journal (pl_registry p1)) draft) as [Hm1|Hm1]; [by specialize (Hno Hm1)|].
      by apply (mintable_le _ _ _ Hs Hm1). }
    eapply (not_mintable _ _ o r1 plan); [|exact Hn]. eapply plan_true_le; [exact Hs|exact Ht].
Qed.
Lemma apply_spec p r actor : plane_good repr p → row_at repr o c p r → planned_as r plan →
  has_version p.(pl_registry) e.(edge_component) e.(edge_to) →
  quiet (_apply_policy_promotion env dies stamp repr e draft actor) (applied_as plan e) p.
Proof.
  intros Hp Hr Hplan Hv. unfold _apply_policy_promotion. cbv zeta.
  assert (∀ p', lawful p p' → plane_good repr p' ∧ (∃ r', row_at repr o c p' r' ∧ planned_as r' plan) ∧
    has_version p'.(pl_registry) e.(edge_component) e.(edge_to)) as Hnow.
  { intros p' Hl. destruct (row_at_moves _ _ _ _ _ _ (lawful_moves _ _ _ _ _ _ Hl) Hr) as (r' & Hr' & He').
    split_and!; [apply Hl|by exists r'; eauto using planned_as_evolves|].
    eapply has_version_le; [apply (lw_le _ _ _ _ _ _ Hl)|done]. }
  assert (∀ p' row, lawful p p' → move_of p'.(pl_registry) e.(edge_proof) = Some row →
    quiet (_validate_promotion_receipt env dies stamp row.(pr_record) e draft;;; eret (inl row.(pr_record)))
      (applied_as plan e) p') as Hsettled.
  { intros p' row Hl Hrow. destruct (Hnow p' Hl) as (Hg & (r' & Hr' & Hplan') & _). by eapply settled_spec. }
  assert (∀ p', lawful p p' → quiet (eret (inr (_canonical_domain_rejection repr e))) (applied_as plan e) p') as Hrefused.
  { intros p' Hl. apply quiet_ret; [apply Hl|done]. }
  eapply spec_bind; [apply _|by apply promotion_for_quiet|]. intros q p1 Hl1 ->.
  destruct (move_of _ _) as [row|] eqn:Erow; cbn [fmap option_fmap option_map]; [by apply Hsettled|].
  destruct (Hnow p1 Hl1) as (Hg1 & (r1 & Hr1 & Hplan1) & _).
  eapply spec_bind; [apply _|eapply (mint_spec p1 r1 (λ a _, a.(attestation_id) = e.(edge_proof))); done|].
  intros a p2 Hl2 Ha. assert (lawful p p2) as Hl02 by (by etrans).
  rewrite decide_False by (intros Hn; by apply Hn).
  eapply spec_bind; [apply _|by apply promotion_for_quiet, Hl2|]. intros q p3 Hl3 ->.
  assert (lawful p p3) as Hl03 by (by etrans).
  destruct (move_of (pl_registry p3) _) as [row|] eqn:Erow3; cbn [fmap option_fmap option_map]; [by apply Hsettled|].
  eapply spec_bind; [apply _|by apply stable_quiet, Hl3|]. intros v p4 Hl4 ->.
  assert (lawful p p4) as Hl04 by (by etrans). case_decide as Hv4.
  - eapply spec_bind; [apply _|by apply promotion_for_quiet, Hl4|]. intros q p5 Hl5 ->.
    assert (lawful p p5) as Hl05 by (by etrans).
    destruct (move_of (pl_registry p5) _) as [row|] eqn:Erow5; cbn [fmap option_fmap option_map]; [by apply Hsettled|].
    by apply Hrefused.
  - eapply spec_bind with (P := λ res p', match res with
      | inl q => ∃ row, move_of p'.(pl_registry) e.(edge_proof) = Some row ∧ q = row.(pr_record)
      | inr x => x = _canonical_domain_rejection repr e
      end); [apply _| |].
    + apply promote_spec; [apply Hl4|by apply Hnow|by eauto|].
      intros x p5 Hl5. eapply spec_bind; [apply _|by apply promotion_for_quiet, Hl5|]. intros q p6 Hl6 ->.
      destruct (move_of (pl_registry p6) _) as [row|] eqn:Erow6; cbn [fmap option_fmap option_map];
        (apply quiet_ret; [apply Hl6|by eauto]).
    + intros [q|x] p5 Hl5; [intros (row & Hrow & ->)|intros ->]; [apply Hsettled; [by etrans|done]|].
      apply Hrefused. by etrans.
Qed.
End apply_policy.

(** *** The answer of a command that moved the pointer *)
Lemma plan_edge_facts s r plan e : plan_true s r o plan → plan_edge plan = Some e →
  has_version s e.(edge_component) e.(edge_to) ∧ e.(edge_component) = order_component o.
Proof.
  destruct plan as [x k t d id|x k b t id|x k b t d id|id op h y]; intros Ht He; try discriminate He;
    injection He as <-; destruct o; try done; cbn [plan_true edge_component edge_to order_component] in *; naive_solver.
Qed.
Lemma answer_spec c p r plan e q row : plane_good repr p → holds c p r → planned_as r plan → plan_edge plan = Some e →
  move_of p.(pl_registry) e.(edge_proof) = Some row → q = row.(pr_record) → receipt_true p.(pl_registry) plan e q →
  doing (promotion_answer env dies now stamp c (response_status plan) e.(edge_component) q)
    (λ a p', records c.(cc_command) c.(cc_actor) a p') p.
Proof.
  intros Hp Hh Hplan He Hrow -> Hrec. unfold promotion_answer.
  destruct (plan_edge_facts _ _ _ _ (holds_plan _ _ _ _ Hh Hplan) He) as [Hv Hcomp].
  pose proof Hrec as (_ & Hfrom & Hto & _). rewrite Hfrom, Hto.
  destruct (proj1 (has_version_iff _ _ _) Hv) as [k Hk].
  eapply bind_quiet.
  { eapply reference_spec with (rely := lawful); try world; [done|exact Hk|].
    intros Hb uri p'. right. right. left. split; [by rewrite <-Hcomp|by eexists]. }
  intros d p1 Hl1 [Hb ->]. pose proof (lw_le _ _ _ _ _ _ Hl1) as [Hs1 _].
  destruct (holds_le _ _ _ _ Hl1 Hh) as (r1 & Hh1 & He1 & _). cbv zeta.
  set (m := mkPromotionResult _ _ _ _ _ _).
  eapply spec_bind; [apply _| |].
  - unfold session_complete. eapply spec_bind with (P := λ _, records c.(cc_command) c.(cc_actor) (Moved m)); [apply _| |].
    + eapply (finish_spec c p1 r1 plan (Moved m)); [apply Hl1|done|by eapply planned_as_evolves|].
      exists e, row, k. split_and!; [done|by eapply move_of_le|by eapply receipt_true_le|by eapply component_of_le|done|done].
    + intros ? p2 [[Hg2 _] _] Hx. by apply (doing_ret tt (λ _, records c.(cc_command) c.(cc_actor) (Moved m))).
  - intros ? p2 [[Hg2 _] _] Hx. by apply doing_ret.
Qed.
End writes.
