(* ===== verification/CommandRuns.v ===== *)
(** The registry commands in any world ([Commands]): each runs from a claim to a
    recorded answer over the steps of [CommandReads] and [CommandWrites], under
    whatever the other workers do that is lawful. *)

From S2P Require Import Prelude Identity Address Component Manifest Run Effect Journal EffectStore.
From S2P Require Import RegistryStore Registry JournalSpec EffectSpec RegistrySpec RegistryLaws RollbackSpec.
From S2P Require Import Control Ledger LedgerSpec Detail DetailLaws Plans PlanLaws Commands CommandSpec CommandSteps.
From S2P Require Import CommandReads CommandWrites.

Definition refused_with (code : ControlCode) (x : ControlRejected) : Prop := fault_code <$> x.(faults) = [code].

Section laws.
Context (env : nat → plane → plane) (dies : nat → bool) (now : nat → Z) (stamp : nat → string).
Context (owner_id : string) (ttl : Z) (repr : string → string) (str_exc : rexn → string).
Context (actor : AuthenticatedActor) (key : string).
Definition run_order (o : order) : C response :=
  match o with
  | PromoteInitial component version =>
      registry_promote_initial env dies now stamp owner_id ttl repr str_exc actor component version key
  | Promote component version proof =>
      registry_promote env dies now stamp owner_id ttl repr actor component version proof key
  | Rollback component expected =>
      registry_rollback env dies now stamp owner_id ttl repr str_exc actor component expected key
  end.

(** ** Answers *)
Definition order_id (o : order) : string := claim_id actor (order_operation o) key.
(** The refusals at the door: the executor asked the stores for nothing, or for
    the claim only, and left the plane as the rest of the world had it. *)
Inductive turned_away (o : order) (p : plane) (n : nat) (x : ControlRejected) : world → Prop :=
| away_scope : allows actor (order_scope o) = false → refused_with AUTH_REQUIRED_SCOPE x →
    turned_away o p n x (mkWorld p n)
| away_key why : validate_idempotency_key key = Raise why → refused_with REQUEST_INVALID x →
    turned_away o p n x (mkWorld p n)
| away_conflict r : Dict.get (order_id o) (env n p).(pl_ledger).(commands) = Some r →
    names_another_request actor (order_operation o) key (command_request_hash (order_request o)) (order_request o) r = true →
    refused_with IDEMPOTENCY_CONFLICT x → turned_away o p n x (mkWorld (env n p) (S n))
| away_busy r : Dict.get (order_id o) (env n p).(pl_ledger).(commands) = Some r → terminal r = false →
    lease_live (now n) r = true → refused_with COMMAND_IN_PROGRESS x → turned_away o p n x (mkWorld (env n p) (S n)).
(** The plane in which the executor found nothing to do is the one it left. *)
Lemma turned_away_unmoved o p n x w : turned_away o p n x w → w = mkWorld p n ∨ w = mkWorld (env n p) (S n).
Proof. destruct 1; auto. Qed.
Definition recorded (o : order) (a : response) (p : plane) : Prop :=
  records key repr o (order_id o) actor.(actor_id) a p.
(** The answer of a command that was claimed, now or before. *)
Definition finished (o : order) (a : response) (p : plane) : Prop :=
  ∃ b, recorded o b p ∧ (a = b ∨ a = _mark_replayed b).
Definition answered (o : order) (p : plane) (n : nat) (a : response) (w : world) : Prop :=
  (∃ x, a = Refused x ∧ turned_away o p n x w) ∨ finished o a w.(the_plane).

Context (others : string → Prop) (others_other : ¬ others owner_id) (shield mortal : Prop) (o : order).
Context (env_lawful : ∀ n p, plane_good repr p → lawful repr owner_id others shield p (env n p)).
Context (dies_mortal : ∀ n, dies n = true → mortal).
Abbreviation lawful := (lawful repr owner_id others shield).
Abbreviation holds := (holds repr owner_id key shield o).
Abbreviation failing := (expected_error shield mortal (exceptional o)).
Abbreviation quiet := (spec shield mortal (exceptional o) lawful).
Abbreviation doing := (spec shield mortal (exceptional o) (writes repr others)).
Ltac world := first
  [ exact env_lawful | exact dies_mortal | exact (lawful_refl repr owner_id others shield)
  | exact (lawful_moves repr owner_id others shield) | exact (lawful_trans repr owner_id others shield)
  | exact (writes_trans repr others) | exact (wr_moves repr others) | exact (lawful_writes repr owner_id others shield) | solve [let H := fresh in intros ? ? H; exact H] ].

(** ** Claiming *)
Definition mine (c : CommandClaim) : Prop := c.(cc_command) = order_id o ∧ c.(cc_actor) = actor.(actor_id).
Definition claim_true (a : CommandClaimResult) (p : plane) : Prop :=
  match a.(claim_outcome) with
  | Claimed => ∃ c r, a.(claimed) = Some c ∧ mine c ∧ holds c p r
  | Replayed => ∃ r, a.(claim_record) = Some r ∧ Dict.get (order_id o) p.(pl_ledger).(commands) = Some r ∧
      terminal r = true ∧ r.(cmd_actor).(actor_id) = actor.(actor_id) ∧ r.(cmd_key) = key ∧
      row_at repr o (_claim_for_record r) p r
  | Conflict | InProgress => True
  end.
Lemma same_order r p : plane_good repr p → Dict.get (order_id o) p.(pl_ledger).(commands) = Some r →
  names_another_request actor (order_operation o) key (command_request_hash (order_request o)) (order_request o) r = false →
  r.(cmd_actor).(actor_id) = actor.(actor_id) ∧ r.(cmd_key) = key ∧ r.(cmd_operation) = order_operation o ∧
  r.(cmd_request) = order_request o.
Proof.
  intros Hp Hr Hn. unfold names_another_request in Hn. rewrite negb_false_iff, !andb_true_iff, !bool_decide_eq_true in Hn.
  destruct Hn as [[[[Ha Ho] Hk] _] Hq]. split_and!; [done|done|done|].
  destruct (pg_rows _ _ Hp _ _ Hr) as (o' & Ho' & Hq' & _); [rewrite Ho; apply order_operation_elem|].
  rewrite Hq' in Hq |- *. f_equal. apply order_request_inj; [congruence|done].
Qed.
Lemma claim_spec p : plane_good repr p → is_ok (validate_idempotency_key key) = true →
  doing (on_ledger env dies now (claim_command actor (order_operation o) key
           (command_request_hash (order_request o)) (order_request o) owner_id ttl)) claim_true p.
Proof.
  intros Hp Hkey. apply (ledger_call env dies now owner_id others); try world; [done|]. intros k p1 Hl1 n.
  pose proof (lw_good _ _ _ _ _ _ Hl1) as Hg1. pose proof (proj1 (pg_ledger _ _ Hg1)) as Hlok. right.
  rewrite (claim_eq p1.(pl_ledger) Hlok). destruct (validate_idempotency_key key) as [key0|] eqn:Ek; [|done].
  rewrite decide_False by (intros Hn; by apply Hn). unfold claim_answer. fold (order_id o).
  assert (mkPlane (pl_registry p1) (pl_ledger p1) = p1) as Hsame by (by destruct p1).
  destruct (Dict.get (order_id o) _) as [r|] eqn:Er.
  2: { do 2 eexists. split; [done|]. set (r := fresh_command _ _ _ _ _ _ _ _).
    assert (writes repr others p1 (mkPlane (pl_registry p1) (set_command r (pl_ledger p1)))) as Hm.
    { apply ledger_write; [done| | |intros r0 H0; change (cmd_id r) with (order_id o) in H0; congruence].
      - apply lstep_claim; [exact Er| |done..]. apply fresh_row; [by rewrite Ek|done].
      - intros _. exists o. by split_and!. }
    split; [exact Hm|]. exists (fresh_claim actor (order_operation o) key owner_id ttl n 1), r.
    split; [done|]. split; [done|]. split; [|done..|].
    - apply row_at_good; [apply Hm| |done..]. cbn [pl_ledger]. by rewrite get_set_command, decide_True.
    - intros _. by apply claim_owns_inv. }
  destruct (get_row _ _ _ Hlok Er) as [Hid Hrow].
  destruct (names_another_request _ _ _ _ _ r) eqn:En.
  { do 2 eexists. split; [done|]. rewrite Hsame. split; [by apply (writes_refl owner_id others repr shield)|done]. }
  destruct (same_order r p1 Hg1 Er En) as (Ha & Hk & Ho & Hq).
  destruct (terminal r) eqn:Et.
  { do 2 eexists. split; [done|]. rewrite Hsame. split; [by apply (writes_refl owner_id others repr shield)|]. exists r. split_and!; [done..|].
    apply row_at_good; [done| |done..]. cbn. by rewrite Hid. }
  destruct (lease_live n r) eqn:El.
  { do 2 eexists. split; [done|]. rewrite Hsame. split; [by apply (writes_refl owner_id others repr shield)|]. done. }
  do 2 eexists. split; [done|]. set (r' := reclaimed _ _ _ _).
  assert (writes repr others p1 (mkPlane (pl_registry p1) (set_command r' (pl_ledger p1)))) as Hm.
  { apply ledger_write; [done| | |intros r0 H0; change (cmd_id r') with (cmd_id r) in H0; rewrite Hid, Er in H0; injection H0 as <-;
      split; [done|left; cbn; lia]].
    - apply lstep_reclaim; [by rewrite Hid|done..].
    - exact (pg_rows _ _ Hg1 _ _ Er). }
  split; [exact Hm|]. exists (fresh_claim actor (order_operation o) key owner_id ttl n (S (cmd_epoch r))), r'.
  split; [done|]. split; [done|]. split; [|done..|].
  - apply row_at_good; [apply Hm| |done..]. cbn [pl_ledger]. rewrite get_set_command, decide_True; [done|].
    change (cmd_id r') with (cmd_id r). by rewrite Hid.
  - intros _. apply claim_owns_inv. by split_and!.
Qed.
(** A recorded answer stays recorded, whatever happens to the plane. *)
Lemma recorded_moves a p p' : moves_on repr p p' → recorded o a p → recorded o a p'.
Proof.
  intros Hm (r & plan & stored & Hr & Ha & Hk & Hord & Hplan & Hat & Hst & Hs).
  destruct Hm as [Hg [Hs1 Hs2]]. destruct (lsteps_le _ _ Hs2) as [Hle _]. destruct (Hle _ _ Hr) as (r' & Hr' & He).
  assert (terminal r = true) as Ht.
  { unfold terminal. rewrite (answer_true_state _ _ _ _ _ Hat). by destruct a. }
  pose proof (ev_terminal _ _ He Ht) as ->. exists r, plan, stored. split_and!; try done.
  - destruct Hord as (Ho & Hq & _).
    destruct (pg_rows _ _ Hg _ _ Hr') as (o' & Ho' & Hq' & H); [rewrite Ho; apply order_operation_elem|].
    assert (o = o') as <-; [|by split_and!]. apply order_request_inj; [congruence|]. rewrite <-Hq, Hq'. apply same_json_refl.
  - destruct a as [m|x]; destruct Hat as [Hst' Hat]; (split; [done|]); [by eapply moved_true_le|done].
Qed.
Lemma doing_ret' {A} (a : A) P p : plane_good repr p → P a p → doing (eret a) P p.
Proof. by apply (doing_ret owner_id others repr shield mortal o). Qed.
(** A claim that is not granted leaves the ledger as it was. *)
Lemma claim_refused k l a l' : ledger_ok l →
  claim_command actor (order_operation o) key (command_request_hash (order_request o)) (order_request o) owner_id ttl k l
  = (Ok a, l') →
  match a.(claim_outcome) with
  | Conflict => l' = l ∧ ∃ r, Dict.get (order_id o) l.(commands) = Some r ∧
      names_another_request actor (order_operation o) key (command_request_hash (order_request o)) (order_request o) r = true
  | InProgress => l' = l ∧ ∃ r, Dict.get (order_id o) l.(commands) = Some r ∧ terminal r = false ∧ lease_live k r = true
  | _ => True
  end.
Proof.
  intros Hl E. rewrite (claim_eq l Hl) in E. destruct (validate_idempotency_key key); [|done].
  rewrite decide_False in E by (intros Hn; by apply Hn). revert E. unfold claim_answer. fold (order_id o).
  destruct (Dict.get _ _) as [r|]; [|by intros [= <- <-]].
  destruct (names_another_request _ _ _ _ _ r) eqn:En; [intros [= <- <-]; split; [done|by exists r]|].
  destruct (terminal r) eqn:Et; [by intros [= <- <-]|].
  destruct (lease_live k r) eqn:El; [intros [= <- <-]; split; [done|by exists r]|by intros [= <- <-]].
Qed.
(** What a command starts from: its claim, or the answer. *)
Definition begun_as (p : plane) (n : nat) (b : begun) (w : world) : Prop :=
  match b with Begun c => mine c ∧ ∃ r, holds c w.(the_plane) r | Answered a => answered o p n a w end.
Definition ends {A} (m : C A) (P : plane → nat → A → world → Prop) (p : plane) : Prop :=
  ∀ n, let '(r, w) := m (mkWorld p n) in
    writes repr others p w.(the_plane) ∧
    match r with Ok a => P p n a w | Raise e => failing e w.(the_plane) end.
Lemma begin_ends p : plane_good repr p →
  ends (_begin_command env dies now stamp owner_id ttl repr actor (order_scope o) (order_operation o) key (order_request o))
    begun_as p.
Proof.
  intros Hp n. unfold _begin_command, scope_refusal.
  assert (writes repr others p p) as Hstill by (by apply (writes_refl owner_id others repr shield)).
  destruct (allows actor (order_scope o)) eqn:Ea.
  2: { split; [exact Hstill|]. left. eexists. split; [done|]. by apply away_scope. }
  destruct (validate_idempotency_key key) as [k|why] eqn:Ek.
  2: { split; [exact Hstill|]. left. eexists. split; [done|]. by eapply away_key. }
  assert (k = key) as -> by (unfold validate_idempotency_key in Ek; repeat case_match; congruence).
  pose proof (claim_spec p Hp ltac:(by rewrite Ek) n) as H.
  assert (∀ a w, on_ledger env dies now (claim_command actor (order_operation o) key
      (command_request_hash (order_request o)) (order_request o) owner_id ttl) (mkWorld p n) = (Ok a, w) →
    ∃ l', w = mkWorld (mkPlane (env n p).(pl_registry) l') (S n) ∧
      claim_command actor (order_operation o) key (command_request_hash (order_request o)) (order_request o) owner_id ttl
        (now n) (env n p).(pl_ledger) = (Ok a, l')) as Hcall.
  { intros a w E. unfold on_ledger, step in E. cbn [step_no the_plane] in E. destruct (dies n); [done|].
    destruct (claim_command _ _ _ _ _ _ _ _ _) as [[a'|e] l']; [|done]. injection E as -> <-. by exists l'. }
  unfold ebind at 1. destruct (on_ledger _ _ _ _ _) as [[a|e] [p1 n1]]; [|done].
  destruct H as [Hw Ha]. cbn [the_plane] in Hw, Ha. 
  destruct (Hcall a _ eq_refl) as (l' & [= Ep1 En1] & Hcl).
  apply claim_refused in Hcl; [|apply (pg_ledger _ _ (lw_good _ _ _ _ _ _ (env_lawful n p Hp)))].
  pose proof Hw as [[Hg1 _] _]. unfold post, claim_true in Ha. destruct (claim_outcome a).
  - destruct Ha as (c & r & -> & Hc & Hh). split; [done|]. split; [done|by exists r].
  - destruct Ha as (r & -> & Hr & Ht & Hact & Hk & Hrow).
    destruct (get_row _ _ _ (proj1 (pg_ledger _ _ Hg1)) Hr) as [Hid Hok].
    destruct (terminal_row r Hok Ht) as ([stored Hst] & [raw Hraw] & _). rewrite Hst.
    pose proof (ra_order _ _ _ _ _ Hrow) as Hord. destruct Hord as (_ & _ & H).
    destruct (H raw Hraw) as (plan & Hl & Htrue & Hans). destruct (Hans stored Hst) as (b & Hb & Hbt).
    rewrite (decode_typed env dies stamp stored response_types b Hb). change (ebind (eret b) ?f) with (f b). cbv beta.
    assert (quiet (_validate_terminal_response env dies now stamp repr r b) (λ _ _, True) p1) as Hreplay.
    { eapply replay_spec with (rely := lawful); try world; [done|done|by exists raw|done]. }
    specialize (Hreplay n1). unfold ebind. destruct (_validate_terminal_response _ _ _ _ _ _ _ _) as [[u|e] w2];
      destruct Hreplay as [Hl2 He]; (split; [etrans; [exact Hw|by eapply lawful_writes]|]); [|exact He].
    right. exists b. split; [|by right].
    eapply recorded_moves; [by eapply lawful_moves|]. exists r, plan, stored.
    split_and!; [done|done|done|apply Hrow|by exists raw|done|done|exact (proj2 (decode_inv _ _ _ Hb))].
  - destruct Hcl as (-> & r & Hr & Ht & Hk). subst p1 n1. split; [done|].
    left. eexists. split; [done|]. destruct (env n p) eqn:Ep. cbn in *. rewrite <-Ep. eapply away_busy; rewrite ?Ep; done.
  - destruct Hcl as (-> & r & Hr & Hn). subst p1 n1. split; [done|].
    left. eexists. split; [done|]. destruct (env n p) eqn:Ep. cbn in *. rewrite <-Ep. eapply away_conflict; rewrite ?Ep; done.
Qed.

(** ** Ending a command *)
Lemma recorded_answered c a p : mine c → records key repr o c.(cc_command) c.(cc_actor) a p → finished o a p.
Proof. intros [Hid Ha] H. exists a. split; [|by left]. unfold recorded. by rewrite <-Hid, <-Ha. Qed.
Lemma refusal_tail c p r x : plane_good repr p → mine c → holds c p r →
  (shield → ∀ plan, planned_as r plan → refusal_of repr plan x) →
  doing (_terminal_rejection env dies now stamp repr c x) (finished o) p.
Proof.
  intros Hp Hc Hh Hx. eapply spec_mono; [by apply (terminal_rejection_spec env dies now stamp owner_id key others repr shield mortal
    others_other env_lawful dies_mortal o c p r x)|]. intros a p' _ [_ H]. by eapply recorded_answered.
Qed.
Lemma planned_tail c p r plan x : plane_good repr p → mine c → holds c p r → planned_as r plan → refusal_of repr plan x →
  doing (_terminal_rejection env dies now stamp repr c x) (finished o) p.
Proof.
  intros Hp Hc Hh Hplan Hx. eapply refusal_tail; [done..|]. intros _ q Hq.
  by rewrite (planned_as_fun _ _ _ Hq Hplan).
Qed.
Lemma applied_tail c p r plan e (f : PromotionRecord → string) res : plane_good repr p → mine c → holds c p r →
  planned_as r plan → plan_edge plan = Some e → applied_as repr plan e res p →
  (∀ q, receipt_true p.(pl_registry) plan e q → f q = e.(edge_component)) →
  doing (match res with
         | inr x => _terminal_rejection env dies now stamp repr c x
         | inl q => promotion_answer env dies now stamp c (response_status plan) (f q) q
         end) (finished o) p.
Proof.
  intros Hp Hc Hh Hplan He Hres Hf. destruct res as [q|x]; cbn [applied_as] in Hres.
  - destruct Hres as (row & Hrow & Hq & Hrec). rewrite (Hf q Hrec).
    eapply spec_mono; [by eapply (answer_spec env dies now stamp owner_id key others repr shield mortal others_other env_lawful dies_mortal o)|].
    intros a p' _ H. by eapply recorded_answered.
  - subst x. eapply planned_tail; [done..|]. destruct plan; try discriminate He; exists e; split_and!;
      try done; apply same_json_refl.
Qed.
Lemma policy_tail c p r plan e draft (f : PromotionRecord → string) : plane_good repr p → mine c → holds c p r →
  planned_as r plan → plan_edge plan = Some e → plan_draft plan = Some draft →
  (∀ s q, receipt_true s plan e q → f q = e.(edge_component)) →
  doing (let* applied := _apply_policy_promotion env dies stamp repr e draft actor.(actor_id) in
         match applied with
         | inr x => _terminal_rejection env dies now stamp repr c x
         | inl q => promotion_answer env dies now stamp c (response_status plan) (f q) q
         end) (finished o) p.
Proof.
  intros Hp Hc Hh Hplan He Hd Hf. eapply (bind_quiet owner_id others).
  { eapply (apply_spec env dies stamp owner_id others repr shield mortal env_lawful dies_mortal o); [done|done|done|apply Hh|done|].
    by apply (plan_edge_facts _ _ _ _ _ (holds_plan _ _ _ _ _ _ _ _ _ Hh Hplan) He). }
  intros res p1 Hl1 Hres. destruct (holds_le _ _ _ _ _ _ _ _ _ _ Hl1 Hh) as (r1 & Hh1 & He1 & _).
  eapply applied_tail; [apply Hl1|done|done|by eapply planned_as_evolves|done|done|apply Hf].
Qed.
(** What the planning part of a command leaves: an answer, or a stored plan. *)
Definition planned_or (c : CommandClaim) (early : option response) (p : plane) : Prop :=
  match early with
  | Some a => finished o a p
  | None => ∃ r plan, holds c p r ∧ planned_as r plan
  end.
Lemma control_fault c p r code message repair : plane_good repr p → mine c → holds c p r → (shield → r.(cmd_plan) = None) →
  doing (_terminal_control_fault env dies now stamp repr c code message repair) (finished o) p.
Proof.
  intros Hp Hc Hh Hn. eapply refusal_tail; [done..|]. intros Hs plan (raw & Hraw & _). rewrite (Hn Hs) in Hraw. done.
Qed.
Lemma plan_and_go c p r value : plane_good repr p → holds c p r → plan_true p.(pl_registry) r o value →
  doing (let* _ := session_plan env dies now stamp c value in eret None) (planned_or c) p.
Proof.
  intros Hp Hh Ht. eapply spec_bind; [apply _|by eapply (session_plan_spec env dies now stamp owner_id key others)|].
  intros v p' [[Hg _] _] (r' & Hh' & _ & Hv & _). apply doing_ret'; [done|]. by exists r', v.
Qed.
(** A command goes on from its claim. *)
Lemma begun_then (f : begun → C response) p : plane_good repr p → (∀ a, f (Answered a) = eret a) →
  (∀ c p r, plane_good repr p → mine c → holds c p r → doing (f (Begun c)) (finished o) p) →
  ends (ebind (_begin_command env dies now stamp owner_id ttl repr actor (order_scope o) (order_operation o) key
    (order_request o)) f) (answered o) p.
Proof.
  intros Hp Ha Hf n. pose proof (begin_ends p Hp n) as H. unfold ebind at 1.
  destruct (_begin_command _ _ _ _ _ _ _ _ _ _ _ _ _) as [[[c|a]|e] w]; destruct H as [Hw H]; [|by rewrite Ha|done].
  destruct H as (Hc & r & Hh). destruct w as [p1 n1]. cbn [the_plane] in *. pose proof Hw as [[Hg1 _] _].
  specialize (Hf c p1 r Hg1 Hc Hh n1). destruct (f (Begun c) _) as [[a|e] w]; destruct Hf as [Hw' Hr];
    (split; [by etrans|]); [by right|exact Hr].
Qed.
(** The shape of the three commands: claim, plan unless planned, carry the plan out. *)
Lemma command_ends (early : CommandClaim → C (option response)) (go : CommandClaim → command_plan → C response) p :
  plane_good repr p →
  (∀ c p r, plane_good repr p → mine c → holds c p r → r.(cmd_plan) = None → doing (early c) (planned_or c) p) →
  (∀ c p r plan, plane_good repr p → mine c → holds c p r → planned_as r plan → doing (go c plan) (finished o) p) →
  ends (
    let* begun := _begin_command env dies now stamp owner_id ttl repr actor (order_scope o) (order_operation o) key
                    (order_request o) in
    match begun with
    | Answered r => eret r
    | Begun c =>
        let* record := _command_record env dies now c in
        let* early := match record.(cmd_plan) with Some _ => eret None | None => early c end in
        match early with
        | Some r => eret r
        | None => let* plan := session_load env dies now stamp c in go c plan
        end
    end) (answered o) p.
Proof.
  intros Hp Hearly Hgo. apply begun_then; [done|done|]. intros c p1 r Hg1 Hc Hh.
  eapply (bind_quiet owner_id others); [by eapply (record_holds env dies now owner_id key others)|]. intros r1 p2 Hl2 (Hh2 & _ & _).
  pose proof (lw_good _ _ _ _ _ _ Hl2) as Hg2.
  eapply spec_bind with (P := planned_or c); [apply _| |].
  - destruct (cmd_plan r1) as [raw|] eqn:Eraw; [|by eapply Hearly]. apply doing_ret'; [done|].
    destruct (holds_planned _ _ _ _ _ _ _ _ _ Hh2 Eraw) as (plan & Hplan). by exists r1, plan.
  - intros [a|] p3 [[Hg3 _] _] He; [by apply doing_ret'|]. destruct He as (r3 & plan & Hh3 & Hplan3).
    eapply (bind_quiet owner_id others); [by eapply (session_load_spec env dies now stamp owner_id key others repr shield mortal env_lawful dies_mortal o)|].
    intros v p4 Hl4 ->. destruct (holds_le _ _ _ _ _ _ _ _ _ _ Hl4 Hh3) as (r4 & Hh4 & He4 & _).
    eapply Hgo; [apply Hl4|done|done|by eapply planned_as_evolves].
Qed.

(** ** The three commands *)
Lemma reject_plan_tail c p r id op h x : plane_good repr p → mine c → holds c p r →
  planned_as r (ControlRejectPlan id op h x) → doing (_terminal_rejection env dies now stamp repr c x) (finished o) p.
Proof. intros Hp Hc Hh Hplan. eapply planned_tail; [done..|]. apply same_json_refl. Qed.
Lemma initial_ends component version p : o = PromoteInitial component version → plane_good repr p →
  ends (registry_promote_initial env dies now stamp owner_id ttl repr str_exc actor component version key) (answered o) p.
Proof.
  intros Ho Hp. assert (order_scope o = ADMIN_SCOPE ∧ order_operation o = "registry_promote_initial" ∧
    order_request o = JObj [("component", JStr component); ("version", JStr version)]) as (Hs & Hop & Hq) by (by rewrite Ho).
  unfold registry_promote_initial. rewrite <-Hs, <-Hop, <-Hq. apply command_ends; [done|..]; clear p Hp.
  - intros c p r Hp Hc Hh Hn.
    eapply spec_bind with (P := λ res p', match res with
      | inr a => finished o a p'
      | inl pl => lawful p p' ∧ has_version p'.(pl_registry) component version ∧
                  pl = policy_plan component version None BOOTSTRAP BOOTSTRAP_DETAIL
      end); [apply _| |].
    + eapply read_registry_or with (rely := lawful); try world; [done|
        intros _ s Hok; by apply (initial_plan_ok s Hok)|].
      intros p1 Hl1. cbv beta. destruct (component_of (pl_registry p1) component version) as [row|] eqn:Erow.
      * eexists. split; [done|]. split; [done|]. split; [|done]. apply (has_version_iff _). by eexists.
      * cbn. eapply spec_bind; [apply _| |].
        { destruct (holds_le _ _ _ _ _ _ _ _ _ _ Hl1 Hh) as (r1 & Hh1 & _ & Hs1).
          eapply control_fault; [apply Hl1|done|exact Hh1|]. intros Hsh. by rewrite (Hs1 Hsh). }
        intros a p2 [[Hg2 _] _] Ha. by apply doing_ret'.
    + intros [pl|a] p1 [[Hg1 _] _]; [intros (Hl1 & Hv & ->)|intros Ha; by apply doing_ret'].
      destruct (holds_le _ _ _ _ _ _ _ _ _ _ Hl1 Hh) as (r1 & Hh1 & _ & Hs1).
      eapply (bind_quiet owner_id others); [by eapply (promotion_for_quiet env dies stamp owner_id others)|]. intros prior p2 Hl2 _.
      eapply (bind_quiet owner_id others); [eapply (stable_quiet env dies stamp owner_id others); try world; apply Hl2|].
      intros st p3 Hl3 _. assert (lawful p1 p3) as Hl13 by (by etrans).
      destruct (holds_le _ _ _ _ _ _ _ _ _ _ Hl13 Hh1) as (r3 & Hh3 & _ & Hs3).
      assert (doing (let* _ := session_plan env dies now stamp c
          (InitialPromotionPlan true component version
             (policy_plan component version None BOOTSTRAP BOOTSTRAP_DETAIL).(pp_draft)
             (policy_plan component version None BOOTSTRAP BOOTSTRAP_DETAIL).(pp_attestation)) in eret None) (planned_or c) p3) as Hplan.
      { eapply plan_and_go; [apply Hl3|done|]. rewrite Ho. split_and!; try done.
        eapply has_version_le; [apply (lw_le _ _ _ _ _ _ Hl13)|done]. }
      destruct prior as [prior|]; [exact Hplan|]. destruct st as [st|]; [|exact Hplan].
      eapply spec_bind; [apply _| |].
      { eapply control_fault; [apply Hl3|done|exact Hh3|]. intros Hsh. by rewrite (Hs3 Hsh), (Hs1 Hsh). }
      intros a p4 [[Hg4 _] _] Ha. by apply doing_ret'.
  - intros c p r plan Hp Hc Hh Hplan. pose proof (holds_plan _ _ _ _ _ _ _ _ _ Hh Hplan) as Ht.
    destruct plan as [x k t d id|x k b t id|x k b t d id|id op h x]; try (by rewrite Ho in Ht).
    + by eapply (policy_tail c p r (InitialPromotionPlan x k t d id)); [..|intros s q (H & _)].
    + by eapply reject_plan_tail.
Qed.
Lemma rollback_ends component expected p : o = Rollback component expected → plane_good repr p →
  ends (registry_rollback env dies now stamp owner_id ttl repr str_exc actor component expected key) (answered o) p.
Proof.
  intros Ho Hp. assert (order_scope o = PROMOTE_SCOPE ∧ order_operation o = "registry_rollback" ∧
    order_request o = JObj [("component", JStr component); ("expected_stable", JStr expected)]) as (Hs & Hop & Hq) by (by rewrite Ho).
  unfold registry_rollback. rewrite <-Hs, <-Hop, <-Hq. apply command_ends; [done|..]; clear p Hp.
  - intros c p r Hp Hc Hh Hn.
    eapply spec_bind with (P := λ res p', match res with
      | inr a => finished o a p'
      | inl pl => lawful p p' ∧ ∃ target, has_version p'.(pl_registry) component expected ∧
                  has_version p'.(pl_registry) component target ∧
                  pl = policy_plan component target (Some expected) "rollback" (rollback_detail expected target)
      end); [apply _| |].
    + eapply read_registry_or with (rely := lawful); try world; [done|
        intros _ s Hok; by apply (plan_rollback_eq s Hok)|].
      intros p1 Hl1. cbv beta. pose proof (lw_good _ _ _ _ _ _ Hl1) as Hg1. pose proof (pg_registry _ _ Hg1) as Hok1.
      destruct (holds_le _ _ _ _ _ _ _ _ _ _ Hl1 Hh) as (r1 & Hh1 & _ & Hs1).
      assert (∀ code message repair, doing (let* r := _terminal_control_fault env dies now stamp repr c code message repair in
        eret (inr r)) (λ res p', match res with
        | inr a => finished o a p'
        | inl pl => lawful p p' ∧ ∃ target, has_version p'.(pl_registry) component expected ∧
                    has_version p'.(pl_registry) component target ∧
                    pl = policy_plan component target (Some expected) "rollback" (rollback_detail expected target)
        end) p1) as Hfault.
      { intros code message repair. eapply spec_bind; [apply _| |].
        - eapply control_fault; [apply Hl1|done|exact Hh1|]. intros Hsh. by rewrite (Hs1 Hsh).
        - intros a p2 [[Hg2 _] _] Ha. by apply doing_ret'. }
      case_decide as Hptr; [apply Hfault|]. cbn [mbind result_bind].
      rewrite (pointer_last (pl_registry p1) component) in Hptr.
      destruct (last_move (pl_registry p1) component) as [row|] eqn:El; [|done]. injection Hptr as Hto.
      destruct (last_move_elem _ _ _ El) as [Hin Hcomp].
      pose proof (ro_target _ Hok1 row Hin) as Hve. rewrite Hcomp, Hto in Hve.
      destruct (from_version (pr_record row)) as [previous|] eqn:Ef.
      2: { cbn. right. right. right. right. split; [by exists component, expected|by eexists]. }
      pose proof (ro_base _ Hok1 row previous Hin Ef) as Hvp. rewrite Hcomp in Hvp.
      assert (inverse_plan row previous = policy_plan component previous (Some expected) "rollback"
        (rollback_detail expected previous)) as Hinv by (unfold inverse_plan; by rewrite Hcomp, Hto).
      destruct (move_of _ _) as [prior|] eqn:Em.
      * case_decide as Hbad; [|apply Hfault]. cbn. set (pl := policy_plan component previous (Some expected) "rollback"
          (rollback_detail expected previous)) in Hinv. rewrite Hinv in Em.
        assert (plan_true (pl_registry p1) r o (RollbackPlan true component expected previous pl.(pp_draft) pl.(pp_attestation))) as Ht
          by (rewrite Ho; exact (conj eq_refl (conj eq_refl (conj eq_refl (conj Hvp (conj Hve (conj eq_refl eq_refl))))))).
        destruct (plan_mintable_dec (reg_journal (pl_registry p1))
          (RollbackPlan true component expected previous pl.(pp_draft) pl.(pp_attestation))) as [Hm|Hm];
          [|by eapply (not_mintable _ _ o r)].
        exfalso. destruct (move_receipt _ Hok1 r o _ _ prior Ht eq_refl Hm Em) as (H1 & H2 & H3 & _ & a & _ & H4 & H5).
        cbn in H1, H2, H3. destruct H5 as [_ H5]. rewrite H5 in H4. rewrite Hto in Hbad. destruct Hbad as [Hb|[Hb|[Hb|Hb]]]; by apply Hb.
      * eexists. split; [done|]. split; [done|]. exists previous. exact (conj Hve (conj Hvp Hinv)).
    + intros [pl|a] p1 [[Hg1 _] _]; [intros (Hl1 & target & Hve & Hvt & ->)|intros Ha; by apply doing_ret'].
      destruct (holds_le _ _ _ _ _ _ _ _ _ _ Hl1 Hh) as (r1 & Hh1 & _). eapply plan_and_go; [done|exact Hh1|].
      rewrite Ho. exact (conj eq_refl (conj eq_refl (conj eq_refl (conj Hvt (conj Hve (conj eq_refl eq_refl)))))).
  - intros c p r plan Hp Hc Hh Hplan. pose proof (holds_plan _ _ _ _ _ _ _ _ _ Hh Hplan) as Ht.
    destruct plan as [x k t d id|x k b t id|x k b t d id|id op h x]; try (by rewrite Ho in Ht).
    + by eapply (policy_tail c p r (RollbackPlan x k b t d id) _ _ (λ _, k)).
    + by eapply reject_plan_tail.
Qed.
(** What the planning of an evaluated promotion finds. *)
Lemma plan_promotion_spec component version proof p : plane_good repr p →
  quiet (_plan_promotion env dies stamp repr component version proof) (λ res p', match res with
    | inl b => has_version p'.(pl_registry) component version ∧
               (∀ d, b = Some d → has_version p'.(pl_registry) component d) ∧
               ∃ a, Dict.get proof p'.(pl_registry).(reg_journal).(attested) = Some a ∧ authorizes a component version b = true
    | inr _ => True
    end) p.
Proof.
  intros Hp. unfold _plan_promotion. eapply spec_bind with (P := λ s p', lawful p p' ∧ ∃ r0, reg_ok r0 ∧
    rtc rstep r0 p'.(pl_registry) ∧ s = current_snapshot r0); [apply _| |].
  { eapply read_registry with (rely := lawful); try world; [done|intros _ s Hok; by apply (snapshot_now s Hok)|].
    intros p1 Hl1. split; [done|]. exists (pl_registry p1). split_and!; [apply (pg_registry _ _ (lw_good _ _ _ _ _ _ Hl1))|done|done]. }
  intros s p1 _ (Hl1 & s0 & Hok0 & Hs0 & ->). rewrite (snapshot_get_current s0 Hok0).
  destruct (component_of s0 component version) as [row|] eqn:Erow; [|by apply (quiet_ret owner_id others); [apply Hl1|]].
  cbn [fmap option_fmap option_map].
  eapply spec_bind; [apply _| |].
  { eapply attestation_for_spec with (rely := lawful); try world. apply Hl1. }
  intros a p2 Hl2 ->. pose proof (lw_good _ _ _ _ _ _ Hl2) as Hg2.
  destruct (Dict.get proof _) as [a|] eqn:Ea; [|by apply (quiet_ret owner_id others)]. cbv zeta.
  destruct (dr_subject (att_draft a)) as [m|subject|u] eqn:Esub; [by apply (quiet_ret owner_id others)| |by apply (quiet_ret owner_id others)].
  destruct (_ || _) eqn:Et; [by apply (quiet_ret owner_id others)|].
  rewrite !orb_false_iff, !decide_agree, negb_false_iff in Et. destruct Et as [[[Hact Hcomp] Hver] Hok].
  rewrite (stable_current s0 Hok0). case_decide as Hb; [by apply (quiet_ret owner_id others)|].
  apply (quiet_ret owner_id others); [done|].
  assert (rtc rstep s0 (pl_registry p2)) as Hs2 by (etrans; [exact Hs0|apply (lw_le _ _ _ _ _ _ Hl2)]).
  split_and!.
  - eapply has_version_le; [exact Hs2|]. apply (has_version_iff s0). by eexists.
  - intros d Hd. eapply has_version_le; [exact Hs2|]. by apply (pointer_version s0 Hok0).
  - exists a. split; [done|]. unfold authorizes. rewrite Esub, Hok. by rewrite !bool_decide_eq_true_2.
Qed.
Lemma promoted_ends component version proof p : o = Promote component version proof → plane_good repr p →
  ends (registry_promote env dies now stamp owner_id ttl repr actor component version proof key) (answered o) p.
Proof.
  intros Ho Hp. assert (order_scope o = PROMOTE_SCOPE ∧ order_operation o = "registry_promote" ∧
    order_request o = JObj [("component", JStr component); ("version", JStr version); ("attestation_id", JStr proof)])
    as (Hs & Hop & Hq) by (by rewrite Ho).
  unfold registry_promote. rewrite <-Hs, <-Hop, <-Hq. apply command_ends; [done|..]; clear p Hp.
  - intros c p r Hp Hc Hh Hn. eapply (bind_quiet owner_id others); [by apply plan_promotion_spec|].
    intros [b|x] p1 Hl1 Hres; destruct (holds_le _ _ _ _ _ _ _ _ _ _ Hl1 Hh) as (r1 & Hh1 & _ & Hs1).
    + destruct Hres as (Hv & Hb & a & Ha & Hau). eapply plan_and_go; [apply Hl1|exact Hh1|].
      rewrite Ho. split_and!; try done. by exists a.
    + eapply spec_bind; [apply _| |].
      * eapply refusal_tail; [apply Hl1|done|exact Hh1|]. intros Hsh plan (raw & Hraw & _).
        rewrite (Hs1 Hsh), Hn in Hraw. done.
      * intros a p2 [[Hg2 _] _] Ha. by apply doing_ret'.
  - intros c p r plan Hp Hc Hh Hplan. pose proof (holds_plan _ _ _ _ _ _ _ _ _ Hh Hplan) as Ht.
    destruct plan as [x k t d id|x k b t id|x k b t d id|id op h x]; try (by rewrite Ho in Ht).
    2: by eapply reject_plan_tail.
    set (plan := PromotionPlan x k b t id) in *. cbv zeta. set (e := mkEdge k b t id).
    assert (plan_edge plan = Some e) as He by done.
    destruct (plan_edge_facts _ _ _ _ _ Ht He) as [Hv _].
    assert (∀ p' row, lawful p p' → move_of p'.(pl_registry) e.(edge_proof) = Some row →
      quiet (_validate_evaluated_promotion_receipt env dies stamp row.(pr_record) e;;; eret (inl row.(pr_record)))
        (applied_as repr plan e) p') as Hsettled.
    { intros p' row Hl Hrow. destruct (holds_le _ _ _ _ _ _ _ _ _ _ Hl Hh) as (r' & Hh' & He' & _).
      pose proof (planned_as_evolves _ _ _ He' Hplan) as Hplan'. eapply spec_bind; [apply _| |].
      - eapply evaluated_receipt_spec with (rely := lawful); try world; [apply Hl|]. intros p2 Hm.
        eapply (receipt_or_fail repr shield mortal o c p' p2 r'); [done|apply Hh'|by eapply holds_plan|done|done].
      - intros ? p2 Hl2 Hrec. apply (quiet_ret owner_id others); [apply Hl2|]. exists row. split_and!; [|done|done].
        eapply move_of_le; [apply (lw_le _ _ _ _ _ _ Hl2)|done]. }
    assert (∀ p', lawful p p' → quiet (eret (inr (_canonical_domain_rejection repr e))) (applied_as repr plan e) p') as Hrefused.
    { intros p' Hl. apply (quiet_ret owner_id others); [apply Hl|done]. }
    eapply (bind_quiet owner_id others); [by eapply (promotion_for_quiet env dies stamp owner_id others)|]. intros prior p1 Hl1 ->.
    eapply (bind_quiet owner_id others) with (P := applied_as repr plan e).
    + destruct (move_of _ id) as [row|] eqn:Erow; cbn [fmap option_fmap option_map]; [by apply Hsettled|].
      eapply spec_bind; [apply _|eapply (stable_quiet env dies stamp owner_id others); try world; apply Hl1|].
      intros v p2 Hl2 ->. assert (lawful p p2) as Hl02 by (by etrans).
      case_decide; [by apply Hrefused|]. case_decide; [by apply Hrefused|].
      eapply spec_bind with (P := λ res p', match res with
        | inl q => ∃ row, move_of p'.(pl_registry) e.(edge_proof) = Some row ∧ q = row.(pr_record)
        | inr x => x = _canonical_domain_rejection repr e
        end); [apply _| |].
      * eapply (promote_spec env dies stamp owner_id others); try world; [apply Hl2| |by eauto|].
        { eapply has_version_le; [apply (lw_le _ _ _ _ _ _ Hl02)|done]. }
        intros y p3 Hl3. eapply spec_bind; [apply _|eapply (promotion_for_quiet env dies stamp owner_id others); try world; apply Hl3|].
        intros q p4 Hl4 ->. destruct (move_of (pl_registry p4) _) as [row|] eqn:Erow4; cbn [fmap option_fmap option_map];
          (apply (quiet_ret owner_id others); [apply Hl4|by eauto]).
      * intros [q|y] p3 Hl3; [intros (row & Hrow & ->)|intros ->]; [apply Hsettled; [by etrans|done]|].
        apply Hrefused. by etrans.
    + intros res p2 Hl2 Hres. assert (lawful p p2) as Hl02 by (by etrans).
      destruct (holds_le _ _ _ _ _ _ _ _ _ _ Hl02 Hh) as (r2 & Hh2 & He2 & _).
      by eapply (applied_tail c p2 r2 plan e (λ _, k)); [apply Hl2|done|done|eapply planned_as_evolves|..].
Qed.
Lemma order_ends p : plane_good repr p → ends (run_order o) (answered o) p.
Proof.
  intros Hp. enough (∀ q, o = q → ends (run_order q) (answered o) p) as H by (by apply H).
  intros [k v|k v id|k b] Ho; cbn [run_order].
  - by eapply initial_ends.
  - by eapply promoted_ends.
  - by eapply rollback_ends.
Qed.
End laws.
