(* ===== verification/CommandLaws.v ===== *)
(** The laws of the registry commands ([Commands]): an answer is recorded for
    good and a reported move is in the registry, whatever other workers do and
    wherever the process dies; a retry finishes what a crash left, or replays the
    recorded answer. *)

From S2P Require Import Prelude Identity Address Component Manifest Run Effect Journal EffectStore.
From S2P Require Import RegistryStore Registry JournalSpec EffectSpec RegistrySpec RegistryLaws RollbackSpec.
From S2P Require Import Control Ledger LedgerSpec LedgerLaws Detail DetailLaws Plans PlanLaws Commands CommandSpec CommandSteps.
From S2P Require Import CommandReads CommandWrites CommandRuns.

(** No workers are singled out. *)
Definition nobody : string → Prop := λ _, False.
Lemma nobody_else owner : ¬ nobody owner.
Proof. by intros []. Qed.
(** The pointer move an answer reports. *)
Definition moved_by (s : registry) (m : PromotionCommandResult) : Prop :=
  ∃ row, row ∈ s.(promotion_rows) ∧ row.(pr_record).(promoted) = m.(res_of) ∧
    row.(pr_record).(from_version) = m.(res_from) ∧ row.(pr_record).(to_version) = m.(res_to).
Lemma recorded_moved repr actor key o m p : plane_good repr p → recorded repr actor key o (Moved m) p →
  m.(res_of) = order_component o ∧ m.(res_command) = mkMeta (order_id actor key o) false ∧
  moved_by p.(pl_registry) m.
Proof.
  intros Hp (r & plan & stored & Hr & _ & _ & (_ & _ & Hord) & (raw & Hraw & Hload) & Hat & _).
  destruct (Hord raw Hraw) as (plan' & Hload' & Ht & _). assert (plan' = plan) as -> by congruence.
  destruct Hat as [_ (e & row & k & He & Hrow & (H1 & H2 & H3 & _) & _ & _ & ->)].
  destruct (plan_edge_facts _ _ _ _ _ Ht He) as [_ Hcomp].
  destruct (get_row _ _ _ (proj1 (pg_ledger _ _ Hp)) Hr) as [-> _].
  split_and!; [done|done|]. exists row. apply move_of_elem in Hrow as [Hin _]. by split_and!.
Qed.

(** ** A plane on which the theorems are exercised *)
Module Ordered.
(** The first version of a component is stable; the second has its proof. *)
Definition shared : plane := mkPlane (run_rcalls Registered.ready new_registry) new_ledger.
Definition quoted (s : string) : string := "'" +:+ s +:+ "'".
Definition upgrade : order := Promote "start" Registered.second_hash Registered.second_proof.
Definition unknown : order := Promote "nothing" Registered.second_hash Registered.second_proof.
Definition at_work (dies : nat → bool) (owner : string) (start : Z) (o : order) : C response :=
  run_order (λ _ p, p) dies (λ n, start + Z.of_nat n)%Z (λ _, "t9") owner 30 quoted (λ _, "") Commanded.operator "key-1" o.
Definition moved (r : result cexn response) : bool := match r with Ok (Moved m) => negb m.(res_command).(replayed) | _ => false end.
Definition refused (r : result cexn response) : bool := match r with Ok (Refused _) => true | _ => false end.
Lemma shared_good : plane_good quoted shared.
Proof.
  split; [apply history_ok; exact Registered.ready_lawful|apply ledger_good_new|by intros id r|by intros id fact].
Qed.
Lemma alone owner others shield n p : plane_good quoted p → lawful quoted owner others shield p ((λ (_ : nat) p, p) n p).
Proof. apply lawful_refl. Qed.
(** A worker alone moves the pointer; *)
Example pointer_moved : moved (at_work (λ _, false) "a" 0 upgrade (mkWorld shared 0)).1 = true.
Proof. vm_cast_no_check (@eq_refl bool true). Qed.
(** one that dies between the move and its record leaves the rest to the next; *)
Example resumed :
  let w := (at_work (λ n, n =? 15) "a" 0 upgrade (mkWorld shared 0)).2 in
  moved (at_work (λ _, false) "b" 100 upgrade (mkWorld w.(the_plane) 0)).1 = true.
Proof. vm_cast_no_check (@eq_refl bool true). Qed.
(** and an order on an unknown component is refused. *)
Example refused_once : refused (at_work (λ _, false) "a" 0 unknown (mkWorld (mkPlane new_registry new_ledger) 0)).1 = true.
Proof. vm_cast_no_check (@eq_refl bool true). Qed.
(** A promotion does not look for its own receipt again once it has found the
    pointer elsewhere: if the worker it took over from, whose claim is gone, still
    moves the pointer after the first look, the command is refused although its
    move was made. *)
Definition late_move (n : nat) (p : plane) : plane :=
  if n =? 12 then
    mkPlane (promote "start" Registered.second_hash Registered.second_proof "op" None "t9" p.(pl_registry)).2 p.(pl_ledger)
  else p.
Lemma late_move_refused :
  let '(r, w) := run_order late_move (λ _, false) (λ n, Z.of_nat n) (λ _, "t9") "b" 30 quoted (λ _, "")
                   Commanded.operator "key-1" upgrade (mkWorld shared 0) in
  refused r = true ∧
  (pr_record <$> move_of w.(the_plane).(pl_registry) Registered.second_proof) ≠ None.
Proof.
  assert ((let '(r, w) := run_order late_move (λ _, false) (λ n, Z.of_nat n) (λ _, "t9") "b" 30 quoted (λ _, "")
             Commanded.operator "key-1" upgrade (mkWorld shared 0) in
           refused r && bool_decide (is_Some (move_of w.(the_plane).(pl_registry) Registered.second_proof))) = true) as H.
  { vm_cast_no_check (@eq_refl bool true). }
  destruct (run_order _ _ _ _ _ _ _ _ _ _ _ _) as [r w]. apply andb_true_iff in H as [Hr Hm].
  apply bool_decide_eq_true in Hm as [row ->]. by split.
Qed.
End Ordered.

(** C11: A registry command's answer is recorded for good: beside any workers that use the
    stores lawfully, and wherever the process dies, whatever it returns is either a refusal at
    the door for the reason it gives, which claimed nothing - the plane is left exactly as the
    executor met it, on arrival or at its only store call - or the answer the ledger records
    under this actor, key and request for ever; and an answer that the pointer moved names the
    component asked for and reports a promotion the registry retains. A refusal recorded after
    planning may hide a move made late by the worker whose claim was taken over
    (late_move_refused). *)
Theorem order_answers_are_kept env dies now stamp owner_id ttl repr str_exc actor key o p n :
  (* whatever the rest of the world lawfully does, and wherever the process dies *)
  (∀ n p, plane_good repr p → lawful repr owner_id nobody False p (env n p)) →
  plane_good repr p →
  let '(r, w) := run_order env dies now stamp owner_id ttl repr str_exc actor key o (mkWorld p n) in
  (* the plane stays good and takes only lawful steps *)
  plane_good repr w.(the_plane) ∧ plane_le p w.(the_plane) ∧
  ∀ a, r = Ok a →
    (* the order was turned away at the door, for the reason it says; it claimed
       nothing: the plane is as the executor met it, on arrival or at its only call *)
    (∃ x, a = Refused x ∧ turned_away env now actor key o p n x w ∧ (w = mkWorld p n ∨ w = mkWorld (env n p) (S n))) ∨
    (* or its answer is the one the ledger records under it, for ever *)
    ∃ b, (a = b ∨ a = _mark_replayed b) ∧
      ∀ later, moves_on repr w.(the_plane) later → recorded repr actor key o b later ∧
        (* and an answer that says the pointer moved is true *)
        ∀ m, b = Moved m →
          m.(res_of) = order_component o ∧ m.(res_command) = mkMeta (order_id actor key o) false ∧
          moved_by later.(pl_registry) m.
Proof.
  intros Henv Hp.
  pose proof (order_ends env dies now stamp owner_id ttl repr str_exc actor key nobody (nobody_else _) False True o
    Henv (λ _ _, I) p Hp n) as H.
  destruct (run_order _ _ _ _ _ _ _ _ _ _ _ _) as [r w]. destruct H as [[[Hg Hle] _] Hr]. split_and!; [done|done|].
  intros a ->. destruct Hr as [(x & -> & Hx)|(b & Hb & Hab)]; [left|right].
  { exists x. split_and!; [done|done|by eapply turned_away_unmoved]. } exists b. split; [done|].
  intros later Hl. assert (recorded repr actor key o b later) as Hrec by (by eapply recorded_moves). split; [done|].
  intros m ->. eapply recorded_moved; [apply Hl|done].
Qed.

Lemma order_answers_are_kept_witness :
  let w := (Ordered.at_work (λ _, false) "a" 0 Ordered.upgrade (mkWorld Ordered.shared 0)).2 in
  ∃ m, recorded Ordered.quoted Commanded.operator "key-1" Ordered.upgrade (Moved m) w.(the_plane) ∧
    moved_by w.(the_plane).(pl_registry) m.
Proof.
  pose proof (order_answers_are_kept (λ _ p, p) (λ _, false) (λ n, 0 + Z.of_nat n)%Z (λ _, "t9") "a" 30 Ordered.quoted
    (λ _, "") Commanded.operator "key-1" Ordered.upgrade Ordered.shared 0 (Ordered.alone "a" nobody False) Ordered.shared_good) as H.
  pose proof Ordered.pointer_moved as Hx. unfold Ordered.at_work in Hx |- *.
  destruct (run_order _ _ _ _ _ _ _ _ _ _ _ _) as [r w]. cbn [fst snd] in Hx |- *. destruct H as (Hg & Hle & H).
  destruct r as [[m|x]|e]; [|discriminate Hx|discriminate Hx].
  destruct (H (Moved m) eq_refl) as [(x & Hax & _)|(b & Hb & Hlater)]; [discriminate Hax|].
  destruct b as [m'|x]; [|destruct Hb as [Hb|Hb]; discriminate Hb].
  destruct (Hlater (the_plane w) (conj Hg (reflexivity _))) as [Hrec Hm].
  exists m'. split; [exact Hrec|]. apply (Hm m' eq_refl).
Defined.

(** C12: A crash leaves nothing stuck: when a worker has died anywhere in a registry command or
    lost its claim, a second worker that lives and keeps its claim answers the same order, with
    what is recorded or a refusal at the door; the only exceptions are a component without a
    name, a policy proof whose identity is taken, and a rollback with nothing earlier to go
    back to. *)
Theorem crashed_orders_are_finished env1 dies1 now1 stamp1 owner1 env2 now2 stamp2 owner2 ttl repr str_exc actor key o p n1 n2 :
  (* a first worker, in any lawful world, may die anywhere or lose its claim; *)
  (∀ n p, plane_good repr p → lawful repr owner1 nobody False p (env1 n p)) →
  (* a second one lives, and no other worker takes its claim over *)
  (∀ n p, plane_good repr p → lawful repr owner2 nobody True p (env2 n p)) →
  plane_good repr p →
  let '(_, w1) := run_order env1 dies1 now1 stamp1 owner1 ttl repr str_exc actor key o (mkWorld p n1) in
  let '(r, w2) := run_order env2 (λ _, false) now2 stamp2 owner2 ttl repr str_exc actor key o
                    (mkWorld w1.(the_plane) n2) in
  (* then the second one answers, with what is recorded or a refusal at the door *)
  (∃ a, r = Ok a ∧ answered env2 now2 repr actor key o w1.(the_plane) n2 a w2) ∨
  (* unless the component has no name, a policy proof's identity is taken, or
     there is nothing to roll back to *)
  ∃ e, r = Raise e ∧
    ((order_component o = "" ∧ ∃ uri, e = ControlDamaged (DetailMissing uri)) ∨
     (∃ c v b policy detail, ¬ mintable w2.(the_plane).(pl_registry).(reg_journal) (policy_plan c v b policy detail).(pp_draft)) ∨
     ((∃ c b, o = Rollback c b) ∧ ∃ c, e = FromRegistry (NothingEarlier c))).
Proof.
  intros Henv1 Henv2 Hp.
  pose proof (order_ends env1 dies1 now1 stamp1 owner1 ttl repr str_exc actor key nobody (nobody_else _) False True o
    Henv1 (λ _ _, I) p Hp n1) as H1.
  destruct (run_order env1 _ _ _ _ _ _ _ _ _ _ _) as [r1 w1]. destruct H1 as [[[Hg1 _] _] _].
  pose proof (order_ends env2 (λ _, false) now2 stamp2 owner2 ttl repr str_exc actor key nobody (nobody_else _) True False o
    Henv2 (λ _ H, ltac:(discriminate H)) (the_plane w1) Hg1 n2) as H2.
  destruct (run_order env2 _ _ _ _ _ _ _ _ _ _ _) as [r w2]. destruct H2 as [_ H2].
  destruct r as [a|e]; [left; by exists a|right; exists e]. split; [done|].
  destruct H2 as [[_ []]|[H2|H2]]; [by destruct H2|exact H2].
Qed.

Lemma crashed_orders_are_finished_witness :
  let w1 := (Ordered.at_work (λ n, n =? 15) "a" 0 Ordered.upgrade (mkWorld Ordered.shared 0)).2 in
  let '(r, w2) := Ordered.at_work (λ _, false) "b" 100 Ordered.upgrade (mkWorld w1.(the_plane) 0) in
  ∃ m, r = Ok (Moved m) ∧
    answered (λ _ p, p) (λ n, 100 + Z.of_nat n)%Z Ordered.quoted Commanded.operator "key-1" Ordered.upgrade w1.(the_plane) 0
      (Moved m) w2.
Proof.
  pose proof (crashed_orders_are_finished (λ _ p, p) (λ n, n =? 15) (λ n, 0 + Z.of_nat n)%Z (λ _, "t9") "a"
    (λ _ p, p) (λ n, 100 + Z.of_nat n)%Z (λ _, "t9") "b" 30 Ordered.quoted (λ _, "") Commanded.operator "key-1"
    Ordered.upgrade Ordered.shared 0 0 (Ordered.alone "a" nobody False) (Ordered.alone "b" nobody True) Ordered.shared_good) as H.
  pose proof Ordered.resumed as Hx. cbv zeta in Hx |- *. unfold Ordered.at_work in Hx |- *.
  destruct (run_order _ (λ n, n =? 15) _ _ _ _ _ _ _ _ _ _) as [r1 w1]. cbn [snd] in Hx |- *.
  destruct (run_order _ (λ _, false) _ _ _ _ _ _ _ _ _ _) as [r w2]. cbn [fst] in Hx.
  destruct r as [[m|x]|e]; [|discriminate Hx|discriminate Hx]. exists m. split; [reflexivity|].
  destruct H as [(a & Ha & Hans)|(e & He & _)]; [|discriminate He]. injection Ha as <-. exact Hans.
Defined.

(** C14: Workers may run side by side: a whole registry command of another worker, or as much
    of one as it lives, keeps the plane sound - every row of the ledger agrees with the
    registry and every recorded answer is true - only adds to both stores, and leaves the rows
    this worker holds alone unless a later claim took them over; which is all the command
    theorems ask of their world. *)
Theorem other_workers_are_lawful dies now stamp owner ttl repr str_exc actor key o p n owner_id :
  owner ≠ owner_id → plane_good repr p →
  (* a whole run of another worker, or as much of one as it lives, *)
  let '(_, w) := run_order (λ _ p, p) dies now stamp owner ttl repr str_exc actor key o (mkWorld p n) in
  (* is one of the moves a worker may expect of its world *)
  lawful repr owner_id nobody False p w.(the_plane).
Proof.
  intros Hne Hp.
  pose proof (order_ends (λ _ p, p) dies now stamp owner ttl repr str_exc actor key (λ x, x = owner_id) ltac:(done) False True o
    (λ _ p, lawful_refl repr owner (λ x, x = owner_id) False p) (λ _ _, I) p Hp n) as H.
  destruct (run_order _ _ _ _ _ _ _ _ _ _ _ _) as [r w]. destruct H as [[[Hg Hle] Hw] _].
  split; [done|done|by apply Hw|by intros ? []|done].
Qed.
Lemma other_workers_are_lawful_witness :
  let w := (Ordered.at_work (λ n, n =? 5) "b" 0 Ordered.unknown (mkWorld (mkPlane new_registry new_ledger) 0)).2 in
  lawful Ordered.quoted "a" nobody False (mkPlane new_registry new_ledger) w.(the_plane).
Proof.
  pose proof (other_workers_are_lawful (λ n, n =? 5) (λ n, 0 + Z.of_nat n)%Z (λ _, "t9") "b" 30 Ordered.quoted
    (λ _, "") Commanded.operator "key-1" Ordered.unknown (mkPlane new_registry new_ledger) 0 "a" ltac:(discriminate)
    (plane_good_new _)) as H.
  unfold Ordered.at_work. destruct (run_order _ _ _ _ _ _ _ _ _ _ _ _) as [r w]. exact H.
Defined.

(** ** Replay *)
Lemma run_order_begin env dies now stamp owner_id ttl repr str_exc actor key o :
  ∃ f, (∀ a, f (Answered a) = eret a) ∧
    run_order env dies now stamp owner_id ttl repr str_exc actor key o =
    ebind (_begin_command env dies now stamp owner_id ttl repr actor (order_scope o) (order_operation o) key
             (order_request o)) f.
Proof. destruct o; eexists; (split; [|reflexivity]); done. Qed.
Lemma valid_key key : is_ok (validate_idempotency_key key) = true → validate_idempotency_key key = Ok key.
Proof. unfold validate_idempotency_key. by repeat case_match. Qed.
(** A world in which nothing moves. *)
Definition still (repr : string → string) (p p' : plane) : Prop := p' = p ∧ plane_good repr p.
Lemma still_trans repr : Transitive (still repr).
Proof. intros a b c [-> ?] [-> ?]. done. Qed.

(** C13: A retry is the answer again: an order whose answer is recorded, asked again under its
    key by an actor of its scope, returns that same answer marked as a replay, passing every
    check of the replay path against the plan, the receipt, its proof and the detail reference,
    and writes nothing. *)
Theorem retries_replay_the_answer now stamp owner_id ttl repr str_exc actor key o a p n :
  plane_good repr p → allows actor (order_scope o) = true → is_ok (validate_idempotency_key key) = true →
  (* an order whose answer is recorded, *)
  recorded repr actor key o a p →
  (* asked again, is answered the same way, marked as a replay, and nothing is written *)
  ∃ b n', run_order (λ _ p, p) (λ _, false) now stamp owner_id ttl repr str_exc actor key o (mkWorld p n)
          = (Ok (_mark_replayed b), mkWorld p n') ∧
    recorded repr actor key o b p ∧ same_json (dump b) (dump a) = true.
Proof.
  intros Hp Hallow Hkey (r & plan & stored & Hr & Ha & Hk & Hord & Hplan & Hat & Hst & Hs).
  destruct Hord as (Hop & Hq & H). destruct Hplan as (raw & Hraw & Hl).
  destruct (H raw Hraw) as (plan' & Hl' & Ht & Hans). assert (plan' = plan) as -> by congruence.
  destruct (Hans stored Hst) as (b & Hb & Hbt).
  destruct (get_row _ _ _ (proj1 (pg_ledger _ _ Hp)) Hr) as [Hid Hrow].
  assert (terminal r = true) as Hterm.
  { unfold terminal. rewrite (answer_true_state _ _ _ _ _ Hat). by destruct a. }
  assert (row_at repr o (_claim_for_record r) p r) as Hat'.
  { apply row_at_good; [done| |done..]. cbn. by rewrite Hid. }
  assert (claim_command actor (order_operation o) key (command_request_hash (order_request o)) (order_request o)
      owner_id ttl (now n) (pl_ledger p) = (Ok (mkClaimResult Replayed None (Some r)), pl_ledger p)) as Hclaim.
  { rewrite (claim_eq _ (proj1 (pg_ledger _ _ Hp))). destruct (validate_idempotency_key key); [|done].
    rewrite decide_False by (intros Hn; by apply Hn). unfold claim_answer. fold (order_id actor key o). rewrite Hr, Hterm.
    assert (names_another_request actor (order_operation o) key (command_request_hash (order_request o)) (order_request o) r
      = false) as ->; [|done].
    unfold names_another_request. rewrite Ha, Hk, Hop, Hq, same_json_refl.
    unfold command_row_ok in Hrow. rewrite !andb_true_iff, !bool_decide_eq_true in Hrow.
    destruct Hrow as [[[_ Hh] _] _]. rewrite Hh, Hq. by rewrite !bool_decide_eq_true_2. }
  assert (spec True False (λ _ _, False) (still repr)
    (_validate_terminal_response (λ _ p, p) (λ _, false) now stamp repr r b) (λ _ _, True) p) as Hrep.
  { eapply replay_spec with (rely := still repr) (o := o) (plan := plan); try done.
    - intros q q' [-> Hq']. by split.
    - apply still_trans.
    - intros q q' [-> Hq']. by split.
    - by exists raw. }
  destruct (run_order_begin (λ _ p, p) (λ _, false) now stamp owner_id ttl repr str_exc actor key o) as (f & Hf & ->).
  specialize (Hrep (S n)). destruct (_validate_terminal_response _ _ _ _ _ _ _ _) as [v [p' n']] eqn:Ev.
  destruct Hrep as [[Hsame _] Hv]. cbn [the_plane] in Hsame. subst p'.
  destruct v as [[]|e]; [|by destruct Hv as [[_ []]|[Hv|[]]]; [destruct Hv]].
  exists b, n'. split.
  - unfold ebind at 1, _begin_command. unfold scope_refusal. rewrite Hallow, (valid_key _ Hkey).
    unfold ebind at 1. unfold on_ledger at 1, step at 1. cbn [step_no the_plane]. rewrite Hclaim.
    cbn [claim_outcome claim_record]. rewrite Hst.
    assert (mkPlane (pl_registry p) (pl_ledger p) = p) as -> by (by destruct p).
    rewrite (decode_typed (λ _ p, p) (λ _, false) stamp stored response_types b Hb).
    unfold ebind at 1. unfold eret at 1. unfold ebind at 1. rewrite Ev. unfold eret at 1. by rewrite Hf.
  - pose proof (decode_inv _ _ _ Hb) as [_ Hsb]. split.
    + exists r, plan, stored. split_and!; try done. by exists raw.
    + eapply same_json_trans; [by apply same_json_sym|done].
Qed.
Lemma retries_replay_the_answer_witness :
  let w := (Ordered.at_work (λ _, false) "a" 0 Ordered.upgrade (mkWorld Ordered.shared 0)).2 in
  ∃ b n', Ordered.at_work (λ _, false) "b" 50 Ordered.upgrade (mkWorld w.(the_plane) 0)
          = (Ok (_mark_replayed b), mkWorld w.(the_plane) n').
Proof.
  pose proof (order_ends (λ _ p, p) (λ _, false) (λ n, 0 + Z.of_nat n)%Z (λ _, "t9") "a" 30 Ordered.quoted (λ _, "")
    Commanded.operator "key-1" nobody (nobody_else _) False True Ordered.upgrade (Ordered.alone "a" nobody False) (λ _ _, I)
    Ordered.shared Ordered.shared_good 0) as H.
  pose proof Ordered.pointer_moved as Hx. cbv zeta. unfold Ordered.at_work in Hx |- *.
  remember (the_plane (run_order _ _ _ _ "a" _ _ _ _ _ _ _).2) as p eqn:Ep.
  destruct (run_order _ _ _ _ "a" _ _ _ _ _ _ _) as [r w]. cbn [fst snd] in Hx, Ep.
  destruct H as [[[Hg _] _] H]. rewrite <- Ep in Hg.
  destruct r as [[m|x]|e]; [|discriminate Hx|discriminate Hx].
  destruct H as [(x & Hax & _)|(a & Hrec & _)]; [discriminate Hax|]. rewrite <- Ep in Hrec.
  destruct (retries_replay_the_answer (λ n, 50 + Z.of_nat n)%Z (λ _, "t9") "b" 30 Ordered.quoted (λ _, "") Commanded.operator
    "key-1" Ordered.upgrade a p 0 Hg eq_refl eq_refl Hrec) as (b & n' & Hrun & _).
  exists b, n'. exact Hrun.
Defined.
