(* ===== verification/Authoring.v ===== *)
(** The authoring boundary ([src/constructicon/runtime/authoring.py]): the
    preflight of a canonical graph against the limits and the capability catalog,
    and the order and bound of what an author is told.

    The preflight recurses through the composites it resolves; its depth limit
    bounds the recursion, so the fuel of [admit_authored_graph] never runs out.
    [_classify_fault], which reads the compiler's faults back out of the prose of
    their messages, is not modelled: a refusal of the compiler keeps its faults. *)

From S2P Require Import Prelude Identity Address Graph Component Capability Manifest Topology Binding Admission Control.

(** ** Faults and limits ([core/admission.py], [core/introspection.py]) *)
Inductive AdmissionCode :=
| GRAPH_PROPOSAL_LIMIT_EXCEEDED | GRAPH_NODE_DUPLICATE | GRAPH_NODE_RESERVED_ID
| GRAPH_CAPABILITY_MISSING_BINDING | GRAPH_CAPABILITY_UNDECLARED_BINDING
| GRAPH_CAPABILITY_UNKNOWN | GRAPH_CAPABILITY_KIND_MISMATCH.
#[export] Instance AdmissionCode_eq_dec : EqDecision AdmissionCode.
Proof. solve_decision. Defined.
Definition code_value (c : AdmissionCode) : string :=
  match c with
  | GRAPH_PROPOSAL_LIMIT_EXCEEDED => "graph.proposal.limit_exceeded"
  | GRAPH_NODE_DUPLICATE => "graph.node.duplicate"
  | GRAPH_NODE_RESERVED_ID => "graph.node.reserved_id"
  | GRAPH_CAPABILITY_MISSING_BINDING => "graph.capability.missing_binding"
  | GRAPH_CAPABILITY_UNDECLARED_BINDING => "graph.capability.undeclared_binding"
  | GRAPH_CAPABILITY_UNKNOWN => "graph.capability.unknown"
  | GRAPH_CAPABILITY_KIND_MISMATCH => "graph.capability.kind_mismatch"
  end.
Record AdmissionFault := mkAdmissionFault {
  af_code : AdmissionCode;
  af_message : string;
  af_path : list path_part;
  af_scope : option ScopePath;
  af_repair : string;
  af_details : list (string * json);
}.
(** Every field is a [PositiveInt]. *)
Record AdmissionLimits := mkLimits {
  max_nodes : positive;
  max_nested_graph_depth : positive;
  max_faults : positive;
  max_fault_detail_items : positive;
}.

(** ** [_Preflight]: what one preflight is given, and what it accumulates *)
Record preflight_env := mkPreflight {
  pf_snapshot : RegistrySnapshot;
  pf_catalog : gmap string CapabilityDescriptor;
  pf_limits : AdmissionLimits;
  pf_lock : option lock_index;
}.
Record preflight_state := mkPreflightState { pf_faults : list AdmissionFault; node_count : nat }.
(** What a preflight raises: a malformed stable pointer, or nothing Python has. *)
Inductive preflight_exn := VersionMalformed (e : value_error) | DepthExhausted.
Definition PF := eff preflight_state preflight_exn.

Definition jnat (n : nat) : json := JInt (Z.of_nat n).
Definition str_nat (n : nat) : string := py_int_str (N.of_nat n).
Definition tell (f : AdmissionFault) : PF unit :=
  modify (λ s, mkPreflightState (s.(pf_faults) ++ [f]) s.(node_count)).
Definition count_node : PF nat := λ s,
  (Ok (S s.(node_count)), mkPreflightState s.(pf_faults) (S s.(node_count))).

Section preflight.
(** [repr] of a string. *)
Context (repr : string → string) (env : preflight_env).
Definition limits : AdmissionLimits := env.(pf_limits).
Definition published (items : list string) : list string := take (Pos.to_nat limits.(max_fault_detail_items)) items.
Definition truncated (items : list string) : json :=
  JBool (Pos.to_nat limits.(max_fault_detail_items) <? length items).

(** *** Faults *)
Definition too_deep (depth : nat) (path : list path_part) (scope : ScopePath) : AdmissionFault :=
  let limit := Pos.to_nat limits.(max_nested_graph_depth) in
  mkAdmissionFault GRAPH_PROPOSAL_LIMIT_EXCEEDED
    ("graph nesting depth " +:+ str_nat depth +:+ " exceeds the authoring limit " +:+ str_nat limit)
    path (Some scope) "flatten the proposal or reference a registered composite"
    [("observed", jnat depth); ("limit", jnat limit)].
Definition too_many (count : nat) (path : list path_part) (scope : ScopePath) : AdmissionFault :=
  let limit := Pos.to_nat limits.(max_nodes) in
  mkAdmissionFault GRAPH_PROPOSAL_LIMIT_EXCEEDED ("graph contains more than " +:+ str_nat limit +:+ " nodes")
    path (Some scope) "split the proposal into registered composites"
    [("observed_at_least", jnat count); ("limit", jnat limit)].
Definition duplicate (id : string) (first index : nat) (path : list path_part) (scope : ScopePath) : AdmissionFault :=
  mkAdmissionFault GRAPH_NODE_DUPLICATE ("node id " +:+ repr id +:+ " is declared more than once")
    (path ++ [Key "id"]) (Some scope) "rename this node so every id in the graph is unique"
    [("first_index", jnat first); ("duplicate_index", jnat index)].
Definition reserved (id : string) (path : list path_part) (scope : ScopePath) : AdmissionFault :=
  mkAdmissionFault GRAPH_NODE_RESERVED_ID ("node id " +:+ repr id +:+ " uses the compiler-reserved '$' prefix")
    (path ++ [Key "id"]) (Some scope) "rename the node without a leading '$'" [("reserved_prefix", JStr "$")].
Definition composite_bound (name : string) (aliases : list string) (path : list path_part) (scope : ScopePath) :
    AdmissionFault :=
  mkAdmissionFault GRAPH_CAPABILITY_UNDECLARED_BINDING
    ("composite component " +:+ repr name +:+ " does not accept outer capability bindings " +:+ repr_list repr aliases)
    (path ++ [Key "bind"]) (Some scope)
    "remove the outer bindings; capability-parameterized composites are not part of the M5 contract"
    [("aliases", jstrs aliases)].
Definition missing_binding (name : string) (r : CapabilityRequirement) (path : list path_part) (scope : ScopePath) :
    AdmissionFault :=
  let available := py_sorted String.leb
    (capability_id <$> filter (λ d, d.(kind) = r.(req_kind)) (map_to_list env.(pf_catalog)).*2) in
  mkAdmissionFault GRAPH_CAPABILITY_MISSING_BINDING
    (render_scope scope +:+ ": component " +:+ repr name +:+ " requires capability alias " +:+ repr r.(req_alias)
     +:+ " of kind " +:+ repr r.(req_kind))
    (path ++ [Key "bind"; Key r.(req_alias)]) (Some scope)
    ("add body.bind[" +:+ repr r.(req_alias) +:+ "] using one described capability of kind " +:+ repr r.(req_kind))
    [("alias", JStr r.(req_alias)); ("required_kind", JStr r.(req_kind));
     ("available_capability_ids", jstrs (published available)); ("available_total", jnat (length available));
     ("truncated", truncated available)].
Definition unknown_capability (alias id : string) (path : list path_part) (scope : ScopePath) : AdmissionFault :=
  let available := py_sorted String.leb (map_to_list env.(pf_catalog)).*1 in
  mkAdmissionFault GRAPH_CAPABILITY_UNKNOWN
    (render_scope scope +:+ ": binding " +:+ repr alias +:+ " names unknown capability " +:+ repr id)
    (path ++ [Key "bind"; Key alias]) (Some scope) "replace it with a capability id from system.describe()"
    [("alias", JStr alias); ("requested", JStr id); ("available_capability_ids", jstrs (published available));
     ("available_total", jnat (length available)); ("truncated", truncated available)].
Definition kind_mismatch (alias id expected observed : string) (path : list path_part) (scope : ScopePath) :
    AdmissionFault :=
  mkAdmissionFault GRAPH_CAPABILITY_KIND_MISMATCH
    (render_scope scope +:+ ": capability " +:+ repr id +:+ " has kind " +:+ repr observed +:+ ", but alias "
     +:+ repr alias +:+ " requires " +:+ repr expected)
    (path ++ [Key "bind"; Key alias]) (Some scope)
    ("bind alias " +:+ repr alias +:+ " to a described capability of kind " +:+ repr expected)
    [("alias", JStr alias); ("capability_id", JStr id); ("expected_kind", JStr expected);
     ("observed_kind", JStr observed)].
Definition undeclared_binding (name alias : string) (declared : list string) (path : list path_part)
    (scope : ScopePath) : AdmissionFault :=
  mkAdmissionFault GRAPH_CAPABILITY_UNDECLARED_BINDING
    (render_scope scope +:+ ": component " +:+ repr name +:+ " does not declare capability alias " +:+ repr alias)
    (path ++ [Key "bind"; Key alias]) (Some scope) "remove the undeclared binding"
    [("alias", JStr alias); ("declared_aliases", jstrs (py_sorted String.leb declared))].

(** *** [_preflight_ref] and [_preflight_graph] *)

(** [{requirement.alias: requirement for requirement in requirements}] *)
Definition declared_requirements (l : list CapabilityRequirement) : list (string * CapabilityRequirement) :=
  Dict.of_pairs ((λ r, (r.(req_alias), r)) <$> l).
Definition check_binding (d : ComponentDef) (ref : Ref) (path : list path_part) (scope : ScopePath)
    (ar : string * CapabilityRequirement) : PF unit :=
  let '(alias, requirement) := ar in
  match Dict.get alias ref.(bind) with
  | None => tell (missing_binding d.(def_name) requirement path scope)
  | Some id =>
      match env.(pf_catalog) !! id with
      | None => tell (unknown_capability alias id path scope)
      | Some c =>
          if decide (c.(kind) ≠ requirement.(req_kind))
          then tell (kind_mismatch alias id requirement.(req_kind) c.(kind) path scope)
          else eret tt
      end
  end.
Section recursion.
Context (preflight_graph : Graph → ScopePath → list path_part → nat → list (string * string) → PF unit).
Definition _preflight_ref (ref : Ref) (scope : ScopePath) (path : list path_part) (depth : nat)
    (stack : list (string * string)) : PF unit :=
  match select_version env.(pf_snapshot) ref scope env.(pf_lock) with
  | Raise e => raise (VersionMalformed e)
  | Ok None => eret tt
  | Ok (Some stored) =>
      let d := stored.(definition) in
      let key := (d.(def_name), stored.(stored_hash)) in
      if decide (key ∈ stack) then eret tt else
      match d.(body) with
      | CGraph g =>
          ewhen (bool_decide (ref.(bind) ≠ []))
            (tell (composite_bound d.(def_name) (py_sorted String.leb (Dict.keys ref.(bind))) path scope));;;
          preflight_graph g scope path (S depth) (stack ++ [key])
      | CPython _ =>
          match d.(capability_requirements) with
          | None => eret tt
          | Some requirements =>
              let declared := declared_requirements requirements in
              eiter (check_binding d ref path scope) (sorted_by String.leb fst declared);;;
              eiter (λ alias, tell (undeclared_binding d.(def_name) alias (Dict.keys declared) path scope))
                (sorted_set (filter (λ a, a ∉ Dict.keys declared) (Dict.keys ref.(bind))))
          end
      end
  end.
Definition preflight_body (node : GraphNode) (scope : ScopePath) (path : list path_part) (depth : nat)
    (stack : list (string * string)) : PF unit :=
  match node_body_of node with
  | BRef ref => _preflight_ref ref scope (path ++ [Key "body"]) depth stack
  | BLoop loop =>
      let scope := child scope LOOP_BODY_SEGMENT in
      let path := path ++ [Key "body"; Key "body"] in
      match lp_body loop with
      | LRef ref => _preflight_ref ref (child scope "$body") path (S depth) stack
      | LGraph g => preflight_graph g scope path (S depth) stack
      end
  | BGraph g => preflight_graph g scope (path ++ [Key "body"]) (S depth) stack
  end.
(** The loop over a level's nodes: once there are too many, it returns. *)
Fixpoint preflight_nodes (scope : ScopePath) (path : list path_part) (depth : nat) (stack : list (string * string))
    (seen : list (string * nat)) (l : list (nat * GraphNode)) : PF unit :=
  match l with
  | [] => eret tt
  | (index, node) :: l =>
      let* count := count_node in
      let node_path := path ++ [Key "nodes"; Index index] in
      let id := node_id node in
      let node_scope := child scope id in
      if Pos.to_nat limits.(max_nodes) <? count then tell (too_many count node_path node_scope) else
      match Dict.get id seen with
      | Some first => tell (duplicate id first index node_path node_scope)
      | None => eret tt
      end;;;
      ewhen (String.prefix "$" id) (tell (reserved id node_path node_scope));;;
      preflight_body node node_scope node_path depth stack;;;
      preflight_nodes scope path depth stack (Dict.setdefault id index seen) l
  end.
Definition preflight_graph_body (g : Graph) (scope : ScopePath) (path : list path_part) (depth : nat)
    (stack : list (string * string)) : PF unit :=
  if Pos.to_nat limits.(max_nested_graph_depth) <? depth then tell (too_deep depth path scope)
  else preflight_nodes scope path depth stack [] (indexed (nodes g)).
End recursion.
Fixpoint _preflight_graph (fuel : nat) : Graph → ScopePath → list path_part → nat → list (string * string) → PF unit :=
  match fuel with
  | O => λ _ _ _ _ _, raise DepthExhausted
  | S fuel => preflight_graph_body (_preflight_graph fuel)
  end.
(** One call per level of nesting, and the one that refuses the next. *)
Definition preflight_fuel : nat := S (Pos.to_nat limits.(max_nested_graph_depth)).
Definition preflight (g : Graph) : PF unit :=
  _preflight_graph preflight_fuel g (mkScope [graph_name g]) [] 1 [].

(** *** [_bounded_faults] *)
Definition str_part (p : path_part) : string := match p with Key s => s | Index n => str_nat n end.
Definition fault_key (f : AdmissionFault) : list string * (string * (string * string)) :=
  (str_part <$> f.(af_path),
   (match f.(af_scope) with Some s => render_scope s | None => "" end, (code_value f.(af_code), f.(af_message)))).
Definition fault_key_leb : list string * (string * (string * string)) → list string * (string * (string * string)) → bool :=
  pair_leb segs_leb (pair_leb String.leb (pair_leb String.leb String.leb)).
Definition capped (total : nat) : AdmissionFault :=
  let limit := Pos.to_nat limits.(max_faults) in
  mkAdmissionFault GRAPH_PROPOSAL_LIMIT_EXCEEDED
    ("admission produced " +:+ str_nat total +:+ " faults; response is capped at " +:+ str_nat limit) [] None
    "fix the returned faults and resubmit to reveal any remaining faults"
    [("fault_total", jnat total); ("returned", jnat limit); ("truncated", JBool true)].
Definition _bounded_faults (faults : list AdmissionFault) : list AdmissionFault :=
  let ordered := sorted_by fault_key_leb fault_key faults in
  let limit := Pos.to_nat limits.(max_faults) in
  if length ordered <=? limit then ordered else take (limit - 1) ordered ++ [capped (length ordered)].
End preflight.

(** ** [admit_authored_graph] *)
Inductive authored_exn :=
| PreflightRefused (faults : list AdmissionFault)
| PreflightRaised (e : preflight_exn)
| Unadmitted (e : admission_exn).
Definition admit_authored_graph (repr : string → string) (fuel : nat) (g : Graph) (snap : RegistrySnapshot)
    (cat : gmap string CapabilityDescriptor) (caps : gmap string LiveCapability) (root_grants : EffectiveGrants)
    (inputs : pyval) (limits : AdmissionLimits) (lock : option ResolutionLock) :
    result authored_exn ExecutionManifest :=
  let env := mkPreflight snap cat limits (index_lock <$> lock) in
  match preflight repr env g (mkPreflightState [] O) with
  | (Raise e, _) => Raise (PreflightRaised e)
  | (Ok _, s) =>
      match s.(pf_faults) with
      | [] =>
          match admit_ fuel g snap cat caps root_grants inputs lock with
          | Ok m => Ok m
          | Raise e => Raise (Unadmitted e)
          end
      | faults => Raise (PreflightRefused (_bounded_faults env faults))
      end
  end.
