(* ===== verification/AuthoringSpec.v ===== *)
(** What the preflight of an authored graph decides ([Authoring]): [authored], the
    graphs it finds nothing wrong with, and how many nodes it looks at. *)

From S2P Require Import Prelude Identity Address Graph Component Capability Manifest Topology Binding Admission Control Authoring.

Section spec.
Context (env : preflight_env).
Abbreviation node_limit := (Pos.to_nat (limits env).(max_nodes)).
Abbreviation depth_limit := (Pos.to_nat (limits env).(max_nested_graph_depth)).
Abbreviation chosen := (λ ref scope, select_version env.(pf_snapshot) ref scope env.(pf_lock)).
Definition stored_key (st : StoredVersion) : string * string := (st.(definition).(def_name), st.(stored_hash)).

(** Every declared capability is bound to one of its kind, and nothing else is; a
    component that declares no requirements ([None]) is not looked at. *)
Definition bindings_exact (d : ComponentDef) (ref : Ref) : Prop :=
  ∀ requirements, d.(capability_requirements) = Some requirements →
    (∀ alias r, (alias, r) ∈ declared_requirements requirements →
       ∃ id c, Dict.get alias ref.(bind) = Some id ∧ env.(pf_catalog) !! id = Some c ∧ c.(kind) = r.(req_kind)) ∧
    ∀ alias, alias ∈ Dict.keys ref.(bind) → alias ∈ Dict.keys (declared_requirements requirements).

(** A graph at a depth, within the composites [stack], whose unfolding has [n]
    nodes. A reference that resolves to nothing is passed over, and so, with
    [again], is one to a composite it is within, whatever it binds. *)
Inductive authored (again : Prop) : list (string * string) → nat → ScopePath → Graph → nat → Prop :=
| authored_graph stack depth scope g n :
    depth ≤ depth_limit → NoDup (node_ids g) →
    (∀ node, node ∈ nodes g → String.prefix "$" (node_id node) = false) →
    authored_nodes again stack depth scope (nodes g) n → authored again stack depth scope g n
with authored_nodes (again : Prop) : list (string * string) → nat → ScopePath → list GraphNode → nat → Prop :=
| authored_nil stack depth scope : authored_nodes again stack depth scope [] 0
| authored_cons stack depth scope node l n m :
    authored_body again stack depth (child scope (node_id node)) (node_body_of node) n →
    authored_nodes again stack depth scope l m → authored_nodes again stack depth scope (node :: l) (S (n + m))
with authored_body (again : Prop) : list (string * string) → nat → ScopePath → node_body → nat → Prop :=
| authored_by_ref stack depth scope r n :
    authored_ref again stack depth scope r n → authored_body again stack depth scope (BRef r) n
| authored_inline stack depth scope g n :
    authored again stack (S depth) scope g n → authored_body again stack depth scope (BGraph g) n
| authored_loop_ref stack depth scope r f c m n :
    authored_ref again stack (S depth) (child (child scope LOOP_BODY_SEGMENT) "$body") r n →
    authored_body again stack depth scope (BLoop (mkLoop (LRef r) f c m)) n
| authored_loop_graph stack depth scope g f c m n :
    authored again stack (S depth) (child scope LOOP_BODY_SEGMENT) g n →
    authored_body again stack depth scope (BLoop (mkLoop (LGraph g) f c m)) n
with authored_ref (again : Prop) : list (string * string) → nat → ScopePath → Ref → nat → Prop :=
| authored_unresolved stack depth scope r : chosen r scope = Ok None → authored_ref again stack depth scope r 0
| authored_again stack depth scope r st :
    again → chosen r scope = Ok (Some st) → stored_key st ∈ stack → authored_ref again stack depth scope r 0
| authored_atomic stack depth scope r st p :
    chosen r scope = Ok (Some st) → stored_key st ∉ stack → st.(definition).(body) = CPython p →
    bindings_exact st.(definition) r → authored_ref again stack depth scope r 0
| authored_composite stack depth scope r st g n :
    chosen r scope = Ok (Some st) → stored_key st ∉ stack → st.(definition).(body) = CGraph g → r.(bind) = [] →
    authored again (stack ++ [stored_key st]) (S depth) scope g n → authored_ref again stack depth scope r n.

Scheme authored_mind := Induction for authored Sort Prop
  with authored_nodes_mind := Induction for authored_nodes Sort Prop
  with authored_body_mind := Induction for authored_body Sort Prop
  with authored_ref_mind := Induction for authored_ref Sort Prop.
Combined Scheme authored_mutind from authored_mind, authored_nodes_mind, authored_body_mind, authored_ref_mind.
End spec.

(** ** What a preflight does to its state *)
Record grew (s s' : preflight_state) : Prop := {
  grew_faults : s.(pf_faults) `prefix_of` s'.(pf_faults);
  grew_count : s.(node_count) ≤ s'.(node_count);
}.
#[export] Instance grew_preorder : PreOrder grew.
Proof. split; [by intros s|]. intros a b c [] []. split; [by etrans|lia]. Qed.
(** A computation that ends having told nothing. *)
Definition quiet {A} (m : PF A) (s : preflight_state) (a : A) (s' : preflight_state) : Prop :=
  m s = (Ok a, s') ∧ s'.(pf_faults) = s.(pf_faults).
Lemma grew_antisym s s1 s' : grew s s1 → grew s1 s' → s'.(pf_faults) = s.(pf_faults) → s1.(pf_faults) = s.(pf_faults).
Proof.
  intros [[k1 H1] _] [[k2 H2] _] H. rewrite H2, H1, <-app_assoc in H.
  apply (f_equal length) in H. rewrite !length_app in H. destruct k1; [|simpl in H; lia]. by rewrite H1, app_nil_r.
Qed.
Lemma untold_bind {A B} (m : PF A) (f : A → PF B) s b s' : keeps grew m → (∀ a, keeps grew (f a)) →
  quiet (ebind m f) s b s' → ∃ a s1, quiet m s a s1 ∧ quiet (f a) s1 b s'.
Proof.
  intros Hm Hf [(a & s1 & H1 & H2)%ebind_ok H]. pose proof (Hm s) as Hg. pose proof (Hf a s1) as Hg'.
  rewrite H1 in Hg. rewrite H2 in Hg'. assert (s1.(pf_faults) = s.(pf_faults)) as E by by eapply grew_antisym.
  exists a, s1. split; split; congruence.
Qed.
Lemma untold_eret {A} (a : A) s b s' : quiet (eret a) s b s' → a = b ∧ s' = s.
Proof. intros [[= -> ->] _]. done. Qed.
Lemma untold_tell f s u s' : ¬ quiet (tell f) s u s'.
Proof.
  intros [H1 H]. injection H1 as _ <-. cbn [pf_faults] in H.
  apply (f_equal length) in H. rewrite length_app in H. simpl in H. lia.
Qed.
Lemma untold_eiter {A} (f : A → PF unit) (Q : A → Prop) l s u s' : (∀ x, keeps grew (f x)) →
  (∀ x s u s', quiet (f x) s u s' → s' = s ∧ Q x) → quiet (eiter f l) s u s' → s' = s ∧ Forall Q l.
Proof.
  intros Hk Hf. revert s. induction l as [|x l IH]; intros s H; cbn [eiter] in H.
  - by apply untold_eret in H as [_ ->].
  - apply untold_bind in H as (v & s1 & H1 & H2); [|done|intros _; apply keeps_eiter; [apply _|done]].
    apply Hf in H1 as [-> Hx]. apply IH in H2 as [-> Hl]. by split; [|constructor].
Qed.
Lemma eiter_pass {A} (f : A → PF unit) l s : (∀ x, x ∈ l → f x s = (Ok tt, s)) → eiter f l s = (Ok tt, s).
Proof.
  induction l as [|x l IH]; intros H; [done|]. cbn [eiter]. rewrite (ebind_eq _ _ _ tt s) by (apply H; left).
  apply IH. intros y Hy. apply H. by right.
Qed.
Lemma keeps_tell f : keeps grew (tell f).
Proof. intros s. split; cbn; [by apply prefix_app_r|lia]. Qed.
Lemma keeps_count : keeps grew count_node.
Proof. intros s. split; cbn; [done|lia]. Qed.
#[export] Hint Resolve keeps_tell keeps_count : keeps.

Section grows.
Context (repr : string → string) (env : preflight_env).
Context (pg : Graph → ScopePath → list path_part → nat → list (string * string) → PF unit).
Context (pg_grows : ∀ g scope path depth stack, keeps grew (pg g scope path depth stack)).
Lemma keeps_check_binding d ref path scope ar : keeps grew (check_binding repr env d ref path scope ar).
Proof. unfold check_binding. repeat keeps_step; auto with keeps. Qed.
Lemma keeps_preflight_ref ref scope path depth stack : keeps grew (_preflight_ref repr env pg ref scope path depth stack).
Proof. unfold _preflight_ref. repeat keeps_step; auto using keeps_check_binding with keeps. Qed.
Lemma keeps_preflight_body node scope path depth stack :
  keeps grew (preflight_body repr env pg node scope path depth stack).
Proof. unfold preflight_body. repeat keeps_step; auto using keeps_preflight_ref. Qed.
Lemma keeps_preflight_nodes scope path depth stack seen l :
  keeps grew (preflight_nodes repr env pg scope path depth stack seen l).
Proof.
  revert seen. induction l as [|[i node] l IH]; intros seen; cbn [preflight_nodes]; [apply keeps_eret; apply _|].
  repeat keeps_step; auto using keeps_preflight_body with keeps.
Qed.
End grows.
Lemma keeps_preflight_graph repr env fuel g scope path depth stack :
  keeps grew (_preflight_graph repr env fuel g scope path depth stack).
Proof.
  revert g scope path depth stack. induction fuel as [|fuel IH]; intros; cbn [_preflight_graph]; [apply keeps_raise; apply _|].
  unfold preflight_graph_body. case_match; auto using keeps_preflight_nodes with keeps.
Qed.

(** Proves that a preflight only adds. *)
Ltac keep := repeat (intros || keeps_step);
  auto using keeps_check_binding, keeps_preflight_ref, keeps_preflight_body, keeps_preflight_nodes with keeps.

(** ** A preflight that tells nothing has seen an [authored] graph *)
Lemma check_binding_quiet repr env d ref path scope alias r s u s' :
  quiet (check_binding repr env d ref path scope (alias, r)) s u s' →
  s' = s ∧ ∃ id c, Dict.get alias ref.(bind) = Some id ∧ env.(pf_catalog) !! id = Some c ∧ c.(kind) = r.(req_kind).
Proof.
  unfold check_binding. destruct (Dict.get alias _) as [id|]; [|by intros []%untold_tell].
  destruct (_ !! id) as [c|] eqn:Ec; [|by intros []%untold_tell].
  case_decide as Hk; [by intros []%untold_tell|]. intros [_ ->]%untold_eret. split; [done|].
  by exists id, c.
Qed.
Definition after (s : preflight_state) (n : nat) : preflight_state := mkPreflightState s.(pf_faults) (s.(node_count) + n).
Lemma after_O s : after s 0 = s.
Proof. destruct s. unfold after. cbn. by rewrite Nat.add_0_r. Qed.

Section sound.
Context (repr : string → string) (env : preflight_env).
Abbreviation node_limit := (Pos.to_nat (limits env).(max_nodes)).
Context (pg : Graph → ScopePath → list path_part → nat → list (string * string) → PF unit).
Context (pg_grows : ∀ g scope path depth stack, keeps grew (pg g scope path depth stack)).
Definition within (s' : preflight_state) (n : nat) : Prop := n = 0 ∨ s'.(node_count) ≤ node_limit.
Context (pg_sound : ∀ g scope path depth stack s u s', quiet (pg g scope path depth stack) s u s' →
  ∃ n, authored env True stack depth scope g n ∧ s' = after s n ∧ within s' n).

Lemma ref_sound ref scope path depth stack s u s' : quiet (_preflight_ref repr env pg ref scope path depth stack) s u s' →
  ∃ n, authored_ref env True stack depth scope ref n ∧ s' = after s n ∧ within s' n.
Proof.
  unfold _preflight_ref. destruct (select_version _ _ _ _) as [[st|]|e] eqn:Es; cbv zeta; [| |by intros [? _]].
  2:{ intros [_ ->]%untold_eret. exists 0. split_and!; [by constructor|by rewrite after_O|by left]. }
  case_decide as Hk.
  { intros [_ ->]%untold_eret. exists 0. split_and!; [by eapply authored_again|by rewrite after_O|by left]. }
  destruct (body _) as [p|g] eqn:Eb.
  - intros H. assert (s' = s ∧ bindings_exact env st.(definition) ref) as [-> Hb].
    { unfold bindings_exact. destruct (capability_requirements _) as [l|]; [|by apply untold_eret in H as [_ ->]].
      apply untold_bind in H as (v & s1 & H1 & H2);
        [|keep..].
      apply untold_eiter with (Q := λ ar, ∃ id c, Dict.get ar.1 ref.(bind) = Some id ∧ env.(pf_catalog) !! id = Some c ∧
        c.(kind) = ar.2.(req_kind)) in H1 as [-> H1].
      2:{ intros ar. apply keeps_check_binding. } 2:{ intros [] ???. apply check_binding_quiet. }
      apply untold_eiter with (Q := λ _, False) in H2 as [-> H2]; [|auto with keeps|by intros ???? []%untold_tell].
      split; [done|]. intros ? [= <-]. split.
      - intros alias r Hin. apply (proj1 (Forall_forall _ _) H1 (alias, r)). unfold sorted_by. by rewrite py_sorted_perm.
      - intros alias Hin. destruct (decide (alias ∈ Dict.keys (declared_requirements l))) as [|Hn]; [done|].
        destruct (proj1 (Forall_forall _ _) H2 alias). by apply elem_of_sorted_set, list_elem_of_filter. }
    exists 0. split_and!; [by eapply authored_atomic|by rewrite after_O|by left].
  - intros H. apply untold_bind in H as (v & s1 & H1 & H2); [|keep..].
    case_bool_decide as Hbind; [by apply untold_tell in H1|]. apply untold_eret in H1 as [_ ->].
    apply pg_sound in H2 as (n & Hg & -> & Hw). exists n. split_and!; [|done..].
    by eapply authored_composite.
Qed.
Lemma body_sound node scope path depth stack s u s' : quiet (preflight_body repr env pg node scope path depth stack) s u s' →
  ∃ n, authored_body env True stack depth scope (node_body_of node) n ∧ s' = after s n ∧ within s' n.
Proof.
  unfold preflight_body. destruct (node_body_of node) as [r|g|[[r|g] f c m]]; cbn [lp_body]; intros H.
  - apply ref_sound in H as (n & ? & ?). exists n. split; [by constructor|done].
  - apply pg_sound in H as (n & ? & ?). exists n. split; [by constructor|done].
  - apply ref_sound in H as (n & ? & ?). exists n. split; [by constructor|done].
  - apply pg_sound in H as (n & ? & ?). exists n. split; [by constructor|done].
Qed.
Lemma nodes_sound scope path depth stack l : ∀ seen s u s',
  quiet (preflight_nodes repr env pg scope path depth stack seen l) s u s' →
  NoDup (node_id <$> (l.*2)) ∧
  (∀ node, (node ∈ (l.*2)) → (node_id node ∉ Dict.keys seen) ∧ String.prefix "$" (node_id node) = false) ∧
  ∃ n, authored_nodes env True stack depth scope (l.*2) n ∧ s' = after s n ∧ within s' n.
Proof.
  induction l as [|[i node] l IH]; intros seen s u s' H; cbn [preflight_nodes] in H.
  { apply untold_eret in H as [_ ->]. split; [constructor|]. split; [by intros ? ?%elem_of_nil|].
    exists 0. split_and!; [constructor|by rewrite after_O|by left]. }
  apply untold_bind in H as (count & s1 & H1 & H); [|auto with keeps|].
  2:{ keep. }
  destruct H1 as [[= <- <-] _]. cbn [node_count] in H. cbv zeta in H.
  destruct (Nat.ltb_spec node_limit (S s.(node_count))) as [|Hlim]; [by apply untold_tell in H|].
  apply untold_bind in H as (v1 & s2 & H1 & H); [|keep..].
  destruct (Dict.get (node_id node) seen) as [first|] eqn:Eseen; [by apply untold_tell in H1|]. apply untold_eret in H1 as [_ ->].
  apply untold_bind in H as (v2 & s3 & H1 & H); [|keep..].
  destruct (String.prefix "$" (node_id node)) eqn:Edollar; [by apply untold_tell in H1|]. apply untold_eret in H1 as [_ ->].
  apply untold_bind in H as (v3 & s4 & H1 & H); [|keep..].
  apply body_sound in H1 as (n & Hn & -> & Hw). apply IH in H as (Hnd & Hall & m & Hm & -> & Hw').
  assert (Dict.keys (Dict.setdefault (node_id node) i seen) ≡ₚ Dict.keys seen ++ [node_id node]) as Hkeys.
  { unfold Dict.setdefault. rewrite Eseen. rewrite Dict.set_fresh by (by apply Dict.get_None). unfold Dict.keys. by rewrite fmap_app. }
  cbn [fmap list_fmap snd]. split_and!.
  - constructor; [|done]. intros (x & Hx & Hin)%list_elem_of_fmap. destruct (Hall x Hin) as [Hf _]. apply Hf.
    rewrite Hkeys, <-Hx. set_solver.
  - intros x [->|Hx]%elem_of_cons; [split; [by apply Dict.get_None|done]|]. destruct (Hall x Hx) as [Hf ?].
    split; [|done]. rewrite Hkeys in Hf. set_solver.
  - exists (S (n + m)). split_and!; [by constructor| |].
    + unfold after. cbn. f_equal. lia.
    + right. destruct Hw' as [->|Hw']; [|unfold after in *; cbn in *; lia].
      destruct Hw as [->|Hw]; unfold after in *; cbn in *; lia.
Qed.
End sound.

Lemma indexed_snd {A} (l : list A) : (indexed l).*2 = l.
Proof.
  unfold indexed. apply list_eq. intros i. rewrite list_lookup_fmap, list_lookup_imap. by destruct (l !! i).
Qed.
Lemma graph_sound repr env fuel : ∀ g scope path depth stack s u s',
  quiet (_preflight_graph repr env fuel g scope path depth stack) s u s' →
  ∃ n, authored env True stack depth scope g n ∧ s' = after s n ∧ within env s' n.
Proof.
  induction fuel as [|fuel IH]; intros g scope path depth stack s u s' H; cbn [_preflight_graph] in H; [by destruct H|].
  unfold preflight_graph_body in H. case_match eqn:Ed; [by apply untold_tell in H|].
  apply nodes_sound in H as (Hnd & Hall & n & Hn & -> & Hw); [|apply keeps_preflight_graph|done].
  rewrite indexed_snd in *. exists n. split_and!; [|done..]. apply Nat.ltb_ge in Ed.
  constructor; [done|done| |done]. intros node Hin. by apply Hall.
Qed.

(** ** An [authored] graph within the node limit is told nothing *)
Section complete.
Context (repr : string → string) (env : preflight_env).
Abbreviation node_limit := (Pos.to_nat (limits env).(max_nodes)).
Abbreviation depth_limit := (Pos.to_nat (limits env).(max_nested_graph_depth)).
Definition passes (m : PF unit) (n : nat) : Prop :=
  ∀ s, s.(node_count) + n ≤ node_limit → m s = (Ok tt, after s n).
Lemma passes_ret : passes (eret tt) 0.
Proof. intros s _. by rewrite after_O. Qed.
Lemma complete :
  (∀ stack depth scope g n, authored env True stack depth scope g n → ∀ fuel path, depth_limit + 2 ≤ fuel + depth →
     passes (_preflight_graph repr env fuel g scope path depth stack) n) ∧
  (∀ stack depth scope l n, authored_nodes env True stack depth scope l n → ∀ fuel path i seen,
     depth_limit + 1 ≤ fuel + depth → depth ≤ depth_limit → NoDup (node_id <$> l) →
     (∀ node, node ∈ l → (node_id node ∉ Dict.keys seen) ∧ String.prefix "$" (node_id node) = false) →
     passes (preflight_nodes repr env (_preflight_graph repr env fuel) scope path depth stack seen
       (imap (λ k, pair (i + k)) l)) n) ∧
  (∀ stack depth scope b n, authored_body env True stack depth scope b n → ∀ fuel path id,
     depth_limit + 1 ≤ fuel + depth → depth ≤ depth_limit →
     passes (preflight_body repr env (_preflight_graph repr env fuel) (mkNode id b) scope path depth stack) n) ∧
  (∀ stack depth scope r n, authored_ref env True stack depth scope r n → ∀ fuel path,
     depth_limit + 1 ≤ fuel + depth →
     passes (_preflight_ref repr env (_preflight_graph repr env fuel) r scope path depth stack) n).
Proof.
  apply authored_mutind.
  - intros stack depth scope g n Hd Hnd Hdollar _ IH fuel path Hf. destruct fuel as [|fuel]; [lia|].
    cbn [_preflight_graph]. unfold preflight_graph_body. destruct (Nat.ltb_spec depth_limit depth); [lia|].
    apply (IH fuel path 0 []); [lia|done..|]. intros node Hin. split; [by intros ?%elem_of_nil|by apply Hdollar].
  - intros stack depth scope fuel path i seen _ _ _ _. apply passes_ret.
  - intros stack depth scope node l n m _ IHb _ IHl fuel path i seen Hf Hd Hnd Hall s Hs.
    inversion_clear Hnd as [|?? Hnin Hnd']. destruct (Hall node) as [Hfresh Hdollar]; [left|].
    cbn [imap preflight_nodes]. rewrite (ebind_eq _ _ _ (S s.(node_count)) (after s 1)).
    2:{ unfold count_node, after. do 3 f_equal. cbn. lia. }
    cbv zeta. destruct (Nat.ltb_spec node_limit (S s.(node_count))); [lia|].
    rewrite (ebind_eq _ _ _ tt (after s 1)) by (apply Dict.get_None in Hfresh; by rewrite Hfresh).
    rewrite (ebind_eq _ _ _ tt (after s 1)) by (by rewrite Hdollar).
    rewrite (ebind_eq _ _ _ tt (after (after s 1) n)).
    2:{ destruct node as [id b]. apply IHb; [done|done|]. unfold after. cbn. lia. }
    assert (imap ((λ k, pair (i + k)) ∘ S) l = imap (λ k, pair (S i + k)) l) as ->.
    { apply imap_ext. intros k x _. cbn. f_equal. lia. }
    rewrite IHl; [unfold after; cbn; do 2 f_equal; lia|done|done|done| |unfold after; cbn; lia].
    intros x Hx. destruct (Hall x) as [Hf' ?]; [by right|]. split; [|done].
    unfold Dict.setdefault. apply Dict.get_None in Hfresh. rewrite Hfresh, Dict.elem_of_keys_set.
    intros [Heq|]; [|done]. apply Hnin. rewrite <-Heq. by apply list_elem_of_fmap_2.
  - intros stack depth scope r n _ IH fuel path id Hf Hd. by apply IH.
  - intros stack depth scope g n _ IH fuel path id Hf Hd. apply IH. lia.
  - intros stack depth scope r f c m n _ IH fuel path id Hf Hd. apply IH. lia.
  - intros stack depth scope g f c m n _ IH fuel path id Hf Hd. apply IH. lia.
  - intros stack depth scope r Hr fuel path Hf. unfold _preflight_ref. rewrite Hr. apply passes_ret.
  - intros stack depth scope r st _ Hr Hk fuel path Hf. unfold _preflight_ref. rewrite Hr. cbv zeta.
    rewrite decide_True by done. apply passes_ret.
  - intros stack depth scope r st p Hr Hk Hb Hx fuel path Hf s _. rewrite after_O. unfold _preflight_ref. rewrite Hr. cbv zeta.
    rewrite decide_False by done. rewrite Hb. destruct (capability_requirements _) as [l|] eqn:El; [|done].
    destruct (Hx l El) as [H1 H2]. rewrite (ebind_eq _ _ _ tt s).
    + apply eiter_pass. intros a [Ha Hin]%elem_of_sorted_set%list_elem_of_filter. by apply H2 in Hin.
    + apply eiter_pass. intros [alias q] Hin. unfold sorted_by in Hin. rewrite py_sorted_perm in Hin.
      destruct (H1 _ _ Hin) as (id & c & Hg & Hc & Hq). unfold check_binding. rewrite Hg, Hc.
      by rewrite decide_False by (intros Hn; by apply Hn).
  - intros stack depth scope r st g n Hr Hk Hb Hbind _ IH fuel path Hf s Hs. unfold _preflight_ref. rewrite Hr. cbv zeta.
    rewrite decide_False by done. rewrite Hb, Hbind. rewrite (ebind_eq _ _ _ tt s) by done. apply IH; [lia|done].
Qed.
End complete.

(** ** How much a preflight looks at *)
Section bounded.
Context (repr : string → string) (env : preflight_env).
Abbreviation node_limit := (Pos.to_nat (limits env).(max_nodes)).
Abbreviation depth_limit := (Pos.to_nat (limits env).(max_nested_graph_depth)).
(** It returns, having looked at no more than [k] nodes beyond the limit. *)
Definition bounded {A} (m : PF A) (k : nat) : Prop := ∀ s,
  (m s).1 ≠ Raise DepthExhausted ∧ (m s).2.(node_count) ≤ Nat.max s.(node_count) node_limit + k.
Lemma bounded_le {A} (m : PF A) j k : bounded m j → j ≤ k → bounded m k.
Proof. intros H Hjk s. destruct (H s). split; [done|lia]. Qed.
Lemma bounded_eret {A} (a : A) : bounded (eret a) 0.
Proof. intros s. split; [done|cbn; lia]. Qed.
Lemma bounded_tell f : bounded (tell f) 0.
Proof. intros s. split; [done|cbn; lia]. Qed.
Lemma bounded_bind {A B} (m : PF A) (f : A → PF B) k : bounded m 0 → (∀ a, bounded (f a) k) → bounded (ebind m f) k.
Proof.
  intros Hm Hf s. unfold ebind. destruct (Hm s) as [Hx Hc]. destruct (m s) as [[a|e] s1]; cbn in *; [|split; [|lia]].
  - destruct (Hf a s1). split; [done|lia].
  - intros [= ->]. by apply Hx.
Qed.
Lemma bounded_eiter {A} (f : A → PF unit) l : (∀ x, bounded (f x) 0) → bounded (eiter f l) 0.
Proof. intros Hf. induction l as [|x l IH]; cbn [eiter]; [apply bounded_eret|]. by apply bounded_bind. Qed.
Ltac bound := repeat first
  [ apply bounded_eret | apply bounded_tell | apply bounded_bind; [|intros ?] | apply bounded_eiter; intros ?
  | progress unfold ewhen | progress unfold check_binding | case_match ].

Context (pg : Graph → ScopePath → list path_part → nat → list (string * string) → PF unit) (depth : nat).
Context (pg_bounded : ∀ g scope path d stack, S depth ≤ d → bounded (pg g scope path d stack) (S depth_limit - d)).
Lemma ref_bounded ref scope path d stack : depth ≤ d → bounded (_preflight_ref repr env pg ref scope path d stack) (depth_limit - d).
Proof.
  intros Hd. unfold _preflight_ref. destruct (select_version _ _ _ _) as [[st|]|e]; cbv zeta;
    [|eapply bounded_le; [apply bounded_eret|lia]|intros s; split; [done|cbn; lia]].
  case_decide; [eapply bounded_le; [apply bounded_eret|lia]|]. destruct (body _).
  - eapply (bounded_le _ 0); [|lia]. bound.
  - apply bounded_bind; [bound|intros _]. eapply bounded_le; [apply pg_bounded; lia|lia].
Qed.
Lemma body_bounded node scope path stack : bounded (preflight_body repr env pg node scope path depth stack) (depth_limit - depth).
Proof.
  unfold preflight_body. destruct (node_body_of node) as [r|g|[[r|g] f c m]]; cbn [lp_body].
  - by apply ref_bounded.
  - eapply bounded_le; [apply pg_bounded; lia|lia].
  - eapply bounded_le; [apply ref_bounded; lia|lia].
  - eapply bounded_le; [apply pg_bounded; lia|lia].
Qed.
Lemma nodes_bounded scope path stack l : ∀ seen s,
  let '(r, s') := preflight_nodes repr env pg scope path depth stack seen l s in
  r ≠ Raise DepthExhausted ∧ s'.(node_count) ≤ S (Nat.max s.(node_count) (node_limit + (depth_limit - depth))).
Proof.
  induction l as [|[i node] l IH]; intros seen s; cbn [preflight_nodes]; [split; [done|lia]|].
  rewrite (ebind_eq _ _ _ (S s.(node_count)) (after s 1)).
  2:{ unfold count_node, after. do 3 f_equal. cbn. lia. }
  cbv zeta. destruct (Nat.ltb_spec node_limit (S s.(node_count))); [split; [done|cbn; lia]|].
  assert (∀ (m : PF unit) (f : unit → PF unit) t, bounded m (depth_limit - depth) → t.(node_count) ≤ node_limit →
    (∀ t', t'.(node_count) ≤ node_limit + (depth_limit - depth) → (f tt t').1 ≠ Raise DepthExhausted ∧
       (f tt t').2.(node_count) ≤ S (node_limit + (depth_limit - depth))) →
    (ebind m f t).1 ≠ Raise DepthExhausted ∧ (ebind m f t).2.(node_count) ≤ S (node_limit + (depth_limit - depth))) as Hseq.
  { intros m f t Hm Ht Hf. unfold ebind. destruct (Hm t) as [Hx Hc]. destruct (m t) as [[[]|e] t']; cbn in *.
    - apply Hf. lia.
    - split; [intros [= ->]; by apply Hx|lia]. }
  match goal with |- context [ebind ?m ?f (after s 1)] => set (first := m); set (rest := f) end.
  assert (bounded first 0) as Hfirst by (unfold first; bound).
  destruct (Hfirst (after s 1)) as [Hx Hc]. unfold ebind at 1. destruct (first (after s 1)) as [[[]|e] s1]; cbn [fst snd] in *.
  2:{ split; [intros [= ->]; by apply Hx|unfold after in *; cbn in *; lia]. }
  assert (s1.(node_count) ≤ node_limit) as Hs1 by (unfold after in *; cbn in *; lia).
  enough ((rest tt s1).1 ≠ Raise DepthExhausted ∧ (rest tt s1).2.(node_count) ≤ S (node_limit + (depth_limit - depth))) as [? ?].
  { destruct (rest tt s1). cbn in *. split; [done|lia]. }
  unfold rest. clear Hx Hc Hfirst rest first.
  assert (∃ s2, ewhen (String.prefix "$" (node_id node)) (tell (reserved repr (node_id node) (path ++ [Key "nodes"; Index i])
    (child scope (node_id node)))) s1 = (Ok tt, s2) ∧ s2.(node_count) = s1.(node_count)) as (s2 & Hr & Hs2).
  { unfold ewhen. case_match; by eexists. }
  rewrite (ebind_eq _ _ _ tt s2 Hr). apply Hseq; [apply body_bounded|lia|].
  intros t' Ht'. specialize (IH (Dict.setdefault (node_id node) i seen) t'). destruct (preflight_nodes _ _ _ _ _ _ _ _ _ t').
  destruct IH. split; [done|cbn in *; lia].
Qed.
End bounded.
Lemma graph_bounded repr env fuel : ∀ g scope path depth stack,
  Pos.to_nat (limits env).(max_nested_graph_depth) + 2 ≤ fuel + depth → fuel ≠ 0 →
  bounded env (_preflight_graph repr env fuel g scope path depth stack) (S (Pos.to_nat (limits env).(max_nested_graph_depth)) - depth).
Proof.
  induction fuel as [|fuel IH]; intros g scope path depth stack Hf Hz s; cbn [_preflight_graph]; unfold preflight_graph_body.
  - done.
  - destruct (Nat.ltb_spec (Pos.to_nat (limits env).(max_nested_graph_depth)) depth); [split; [done|cbn; lia]|].
    pose proof (nodes_bounded repr env (_preflight_graph repr env fuel) depth) as Hn.
    specialize (Hn (λ g scope path d stack Hd, IH g scope path d stack ltac:(lia) ltac:(lia)) scope path stack (indexed (nodes g)) [] s).
    destruct (preflight_nodes _ _ _ _ _ _ _ _ _ s). destruct Hn. split; [done|cbn in *; lia].
Qed.
