(* ===== verification/AuthoringLaws.v ===== *)
(** The laws of the authoring boundary ([Authoring]): what the preflight decides,
    how much it looks at, and that the graphs it passes are admitted, or refused,
    after a bounded recursion. *)

From S2P Require Import Prelude Identity Address Graph Component Capability Manifest Topology Binding Admission Control.
From S2P Require Import Fixture Authoring AuthoringSpec.

(** ** Computations of the compiler that do not run out of fuel *)
Definition total {A} (m : M A) : Prop := ∀ c, (m c).1 ≠ Raise FuelExhausted.
Lemma total_eret {A} (a : A) : total (eret a).
Proof. by intros c. Qed.
Lemma total_raise {A} e : e ≠ FuelExhausted → total (raise (A:=A) e).
Proof. intros He c [= ->]. done. Qed.
Lemma total_modify f : total (modify f).
Proof. by intros c. Qed.
Lemma total_bind {A B} (m : M A) (f : A → M B) : total m → (∀ a, total (f a)) → total (ebind m f).
Proof.
  intros Hm Hf c. unfold ebind. specialize (Hm c). destruct (m c) as [[a|e] c']; [apply Hf|]. intros [= ->]. by apply Hm.
Qed.
Lemma total_eiter {A} (f : A → M unit) l : (∀ x, total (f x)) → total (eiter f l).
Proof. intros Hf. induction l as [|x l IH]; cbn [eiter]; [apply total_eret|]. by apply total_bind. Qed.
Lemma total_emap {A B} (f : A → M B) l : (∀ x, total (f x)) → total (emap f l).
Proof.
  intros Hf. induction l as [|x l IH]; cbn [emap]; [apply total_eret|].
  apply total_bind; [done|intros y]. apply total_bind; [done|intros; apply total_eret].
Qed.
Lemma total_efold {A B} (f : B → A → M B) l b : (∀ b x, total (f b x)) → total (efold f b l).
Proof. intros Hf. revert b. induction l as [|x l IH]; intros b; cbn [efold]; [apply total_eret|]. by apply total_bind. Qed.
Lemma total_new_source a p : total (new_source a p).
Proof. by intros c. Qed.
Lemma total_raise_faults {A} : total (raise_faults (A:=A)).
Proof. by intros c. Qed.
Lemma total_get : total get.
Proof. by intros c. Qed.
Ltac total_step :=
  match goal with
  | |- total (eret _) => apply total_eret
  | |- total (raise _) => by apply total_raise
  | |- total (modify _) => apply total_modify
  | |- total get => apply total_get
  | |- total (ebind _ _) => apply total_bind; [|intros ?]
  | |- total (eiter _ _) => apply total_eiter; intros ?
  | |- total (emap _ _) => apply total_emap; intros ?
  | |- total (efold _ _ _) => apply total_efold; intros ? ?
  | |- total (new_source _ _) => apply total_new_source
  | |- total raise_faults => apply total_raise_faults
  | |- total (match ?x with _ => _ end) => destruct x
  | |- total (let _ := _ in _) => cbv zeta
  end.
Create HintDb total.
Ltac totally := repeat first [total_step | solve [auto with total nocore] | progress cbv beta zeta].

Lemma total_add_fault f : total (add_fault f).
Proof. by intros c. Qed.
#[export] Hint Resolve total_add_fault : total.
Lemma total_fault_if Q `{Decision Q} f : total (fault_if Q f).
Proof. unfold fault_if. totally. Qed.
#[export] Hint Resolve total_fault_if : total.
Lemma total_unique_ports ps w : total (_validate_unique_ports ps w).
Proof. unfold _validate_unique_ports. totally. Qed.
Lemma total_resolve_selector e p nl ins sc : total (_resolve_selector e p nl ins sc).
Proof. unfold _resolve_selector, _map_fault, _located_fault. destruct (partition_dot _). totally. Qed.
Lemma total_bind_port p pool w loc sc ctx : total (_bind_port p pool w loc sc ctx).
Proof. unfold _bind_port, _ambiguous_port_fault, _map_fault, _located_fault. totally. Qed.
#[export] Hint Resolve total_unique_ports total_resolve_selector total_bind_port : total.
Lemma total_bind_node_inputs n ps ls pool ex loc fb b ctx : total (_bind_node_inputs n ps ls pool ex loc fb b ctx).
Proof. unfold _bind_node_inputs, collect_entry, bind_one_input, _map_fault, _located_fault. totally. Qed.
Lemma total_compile_grants p r w : total (_compile_grants p r w).
Proof. unfold _compile_grants. totally. Qed.
Lemma total_record d st r s : total (_record_resolution d st r s).
Proof. by intros c. Qed.
#[export] Hint Resolve total_bind_node_inputs total_compile_grants total_record : total.
Section totals.
Context (env : comp_env).
Lemma total_lift_stable {A} (r : result value_error A) :
  total (lift (match r with Ok v => Ok v | Raise e => Raise (PyValueError e) end)).
Proof. intros c. by destruct r. Qed.
Hint Resolve total_lift_stable : total.
Lemma total_resolve_ref ref w : total (_resolve_ref env ref w).
Proof. unfold _resolve_ref, consume_pin. totally. Qed.
Lemma total_boundary_lies st w : total (_boundary_lies st w).
Proof. unfold _boundary_lies. totally. Qed.
Lemma total_compiled_channel d s a c : total (_compiled_channel env d s a c).
Proof. unfold _compiled_channel. totally. Qed.
Hint Resolve total_compiled_channel : total.
Lemma total_bind_capability def s g ai : total (bind_capability env def s g ai).
Proof. unfold bind_capability, executor_faults, add_cap_binding. totally. Qed.
Lemma total_output_sources at_ ps : total (output_sources at_ ps).
Proof. unfold output_sources. totally. Qed.
Hint Resolve total_bind_capability total_output_sources : total.
Lemma total_register n d s ls b r g : total (_register_atomic env n d s ls b r g).
Proof. unfold _register_atomic, add_binding, add_cap_binding, add_atomic_scope. totally. Qed.
Lemma total_endpoints g s l : total (_validate_connection_endpoints g s l).
Proof. unfold _validate_connection_endpoints, _located_fault. totally. Qed.
Lemma total_retag d b : total (retag d b).
Proof. unfold retag. totally. Qed.
Lemma total_compile_output s l np ip d i : total (compile_output s l np ip d i).
Proof. unfold compile_output. totally. Qed.
End totals.
#[export] Hint Resolve total_resolve_ref total_boundary_lies total_register total_endpoints total_retag
  total_compile_output total_output_sources : total.

(** ** Two computations that agree and do not run out of fuel *)
Definition settles {A} (m m' : M A) : Prop := ∀ c, m c = m' c ∧ (m c).1 ≠ Raise FuelExhausted.
Definition can {A} (m : M A) (a : A) : Prop := ∃ c c', m c = (Ok a, c').
Lemma settles_refl {A} (m : M A) : total m → settles m m.
Proof. intros Hm c. split; [done|apply Hm]. Qed.
Lemma settles_bind {A B} (m m' : M A) (f f' : A → M B) :
  settles m m' → (∀ a, can m a → settles (f a) (f' a)) → settles (ebind m f) (ebind m' f').
Proof.
  intros Hm Hf c. destruct (Hm c) as [Hc Hx]. unfold ebind. rewrite <-Hc.
  destruct (m c) as [[a|e] c'] eqn:E; [apply Hf; by exists c, c'|]. split; [done|]. intros [= ->]. by apply Hx.
Qed.
Lemma settles_then {A B} (m : M A) (f f' : A → M B) :
  total m → (∀ a, can m a → settles (f a) (f' a)) → settles (ebind m f) (ebind m f').
Proof. intros Hm. apply settles_bind. by apply settles_refl. Qed.
Lemma settles_efold {A B} (f f' : B → A → M B) l b :
  (∀ b x, x ∈ l → settles (f b x) (f' b x)) → settles (efold f b l) (efold f' b l).
Proof.
  revert b. induction l as [|x l IH]; intros b Hf; cbn [efold]; [apply settles_refl, total_eret|].
  apply settles_bind; [apply Hf; left|]. intros b' _. apply IH. intros b'' y Hy. apply Hf. by right.
Qed.
Lemma settles_members {A} (m m' : M A) : settles m m' → settles (with_members m) (with_members m').
Proof.
  intros Hm. unfold with_members. apply settles_then; [totally|intros before _]. cbv zeta.
  apply settles_bind; [done|intros a _]. apply settles_refl. totally.
Qed.
Lemma can_resolve env ref w st : can (_resolve_ref env ref w) (Some st) →
  select_version env.(snapshot) ref w env.(resolution_lock) = Ok (Some st).
Proof.
  intros (c & c' & H). unfold _resolve_ref in H. destruct (select_version _ _ _ _) as [r|e]; [|done].
  revert H. cbv zeta. destruct (resolution_lock env) as [lock|]; repeat case_match; intros Hrun;
    repeat first [eff_step | progress case_match]; congruence.
Qed.

(** ** The compiler under a depth limit *)
Lemma can_endpoints g s l : can (_validate_connection_endpoints g s l) true → endpoints_declared g.
Proof.
  intros (c & c' & H). unfold _validate_connection_endpoints in H. cbv zeta in H. apply ebind_ok in H as (? & ? & _ & H).
  eff_step. apply undeclared_endpoints_nil. by destruct (undeclared_endpoints g).
Qed.
Lemma total_reject_cycles g s l : endpoints_declared g → total (_reject_cycles g s l).
Proof.
  intros Hd. destruct (find_back_edges_spec g Hd) as (found & Hf & _). unfold _reject_cycles. rewrite Hf.
  unfold _located_fault. totally.
Qed.
Lemma can_reject_cycles g s l u : endpoints_declared g → can (_reject_cycles g s l) u → acyclic g.
Proof.
  intros Hd (c & c' & H). destruct (find_back_edges_spec g Hd) as (found & Hf & Hiff & _).
  unfold _reject_cycles in H. rewrite Hf in H. apply ebind_ok in H as (? & ? & _ & H). apply Hiff. by destruct found.
Qed.

Section settling.
Context (env : comp_env) (limits : AdmissionLimits) (cat : gmap string CapabilityDescriptor).
Abbreviation pf_env := (mkPreflight env.(snapshot) cat limits env.(resolution_lock)).
Abbreviation depth_limit := (Pos.to_nat limits.(max_nested_graph_depth)).
Abbreviation graph_settles fuel fuel' g scope :=
  (∀ inputs gr ld loc, settles (_compile_graph env fuel g scope inputs gr ld loc) (_compile_graph env fuel' g scope inputs gr ld loc)).
Abbreviation node_settles fuel fuel' node scope :=
  (∀ a, child a.(level_scope) (node_id node) = scope → settles (_compile_node env fuel node a) (_compile_node env fuel' node a)).

Lemma level_settles f f' g scope :
  (∀ node, node ∈ nodes g → node_settles f f' node (child scope (node_id node))) → graph_settles (S f) (S f') g scope.
Proof.
  intros Hn inputs gr ld loc. cbn [_compile_graph]. unfold compile_graph_body.
  apply settles_then; [auto with total|intros valid Hvalid]. destruct valid; [|apply settles_refl; cbn; totally].
  apply can_endpoints in Hvalid as Hd. cbn [negb].
  apply settles_then; [by apply total_reject_cycles|intros u Hac]. apply can_reject_cycles in Hac; [|done].
  do 2 (apply settles_then; [auto with total|intros _ _]).
  destruct (upstream_closure_spec g Hd Hac) as (up & Hup & Hok & Hall). rewrite Hup. cbn [lift_topo].
  apply settles_then; [totally|intros closure (c1 & c2 & Hrun1)]. eff_step.
  destruct (decide (NoDup (node_ids g))) as [Hnd|Hnd]; [|rewrite ordered_nodes_duplicate by done; cbn [lift_topo]].
  2:{ apply settles_then; [totally|]. by intros none (c3 & c4 & Hrun2). }
  destruct (ordered_nodes_spec g Hd Hac Hnd _ Hok Hall) as (order & Ho & Hp & _). rewrite Ho. cbn [lift_topo].
  apply settles_then; [totally|intros placed_ (c3 & c4 & Hrun2)]. eff_step.
  apply settles_bind; [|intros outputs _; apply settles_refl; totally].
  apply settles_efold. intros b node Hin. unfold compile_one_node. cbv zeta.
  apply settles_bind; [|intros; apply settles_refl; totally]. apply Hn; [by rewrite <-Hp|done].
Qed.
Lemma ref_settles f f' id r scope :
  (∀ st g, select_version env.(snapshot) r scope env.(resolution_lock) = Ok (Some st) →
     st.(definition).(body) = CGraph g → graph_settles f f' g scope) →
  node_settles (S f) (S f') (mkNode id (BRef r)) scope.
Proof.
  intros Hg a <-. cbn [_compile_node]. unfold compile_node_body. cbn [node_body_of]. unfold compile_ref. cbv zeta.
  cbn [node_id] in *. apply settles_then; [auto with total|intros [st|] Hst]; [|apply settles_refl; totally].
  apply can_resolve in Hst. apply settles_then; [auto with total|intros grants _].
  apply settles_then; [auto with total|intros _ _]. unfold bind_inputs. apply settles_then; [auto with total|intros bound _].
  destruct (body _) as [p|g] eqn:Eb; [apply settles_refl; totally|].
  apply settles_then; [auto with total|intros lies _]. destruct lies; [apply settles_refl; totally|].
  apply settles_then; [auto with total|intros retagged _]. by eapply Hg.
Qed.
Lemma inline_settles f f' id g scope : graph_settles f f' g scope → node_settles (S f) (S f') (mkNode id (BGraph g)) scope.
Proof.
  intros Hg a <-. cbn [_compile_node]. unfold compile_node_body, bind_inputs. cbn [node_body_of node_id] in *. cbv zeta.
  apply settles_then; [auto with total|intros bound _]. apply Hg.
Qed.
Lemma loop_settles f f' id l scope :
  (∀ r, lp_body l = LRef r → node_settles f f' (mkNode "$body" (BRef r)) (child (child scope LOOP_BODY_SEGMENT) "$body")) →
  (∀ g, lp_body l = LGraph g → graph_settles f f' g (child scope LOOP_BODY_SEGMENT)) →
  node_settles (S (S f)) (S (S f')) (mkNode id (BLoop l)) scope.
Proof.
  intros Hr Hg a <-. cbn [_compile_node _compile_loop]. unfold compile_node_body. cbn [node_body_of node_id] in *. cbv zeta.
  case_decide; [apply settles_refl; totally|]. unfold compile_loop_body. cbv zeta. cbn [node_id].
  apply settles_then; [unfold loop_ports; totally|intros [[ins outs]|] _]; [|apply settles_refl; totally].
  do 2 (apply settles_then; [auto with total|intros _ _]).
  apply settles_then; [unfold check_feedback; totally|intros _ _]. apply settles_then; [unfold check_continue; totally|intros _ _].
  unfold bind_inputs. apply settles_then; [auto with total|intros bound _].
  apply settles_then; [unfold loop_boundary; totally|intros [initial boundary] _].
  apply settles_bind.
  - apply settles_members. unfold compile_loop_members. destruct (lp_body l) as [r|g]; [by apply Hr|by apply Hg].
  - intros [outputs members] _. apply settles_refl. unfold loop_feedback, loop_export, add_loop. totally.
Qed.
Lemma authored_settles :
  (∀ stack depth scope g n, authored pf_env False stack depth scope g n → ∀ fuel fuel',
     3 * (depth_limit - depth) + 4 ≤ fuel → 3 * (depth_limit - depth) + 4 ≤ fuel' → graph_settles fuel fuel' g scope) ∧
  (∀ stack depth scope l n, authored_nodes pf_env False stack depth scope l n → ∀ fuel fuel',
     depth ≤ depth_limit → 3 * (depth_limit - depth) + 3 ≤ fuel → 3 * (depth_limit - depth) + 3 ≤ fuel' →
     ∀ node, node ∈ l → node_settles fuel fuel' node (child scope (node_id node))) ∧
  (∀ stack depth scope b n, authored_body pf_env False stack depth scope b n → ∀ id fuel fuel',
     depth ≤ depth_limit → 3 * (depth_limit - depth) + 3 ≤ fuel → 3 * (depth_limit - depth) + 3 ≤ fuel' →
     node_settles fuel fuel' (mkNode id b) scope) ∧
  (∀ stack depth scope r n, authored_ref pf_env False stack depth scope r n → ∀ id fuel fuel',
     (depth < depth_limit → 3 * (depth_limit - depth) + 2 ≤ S fuel) →
     (depth < depth_limit → 3 * (depth_limit - depth) + 2 ≤ S fuel') →
     node_settles (S fuel) (S fuel') (mkNode id (BRef r)) scope).
Proof.
  apply authored_mutind.
  - intros stack depth scope g n Hd _ _ _ IH [|fuel] [|fuel'] Hf Hf'; [lia..|]. apply level_settles.
    cbn in Hd. apply IH; lia.
  - by intros stack depth scope fuel fuel' _ _ _ node ?%elem_of_nil.
  - intros stack depth scope node l n m _ IHb _ IHl fuel fuel' Hd Hf Hf' x [->|Hx]%elem_of_cons; [|by apply IHl].
    destruct node as [id b]. by apply IHb.
  - intros stack depth scope r n _ IH id [|fuel] [|fuel'] Hd Hf Hf'; [lia..|]. apply IH; lia.
  - intros stack depth scope g n Ha IH id [|fuel] [|fuel'] Hd Hf Hf'; [lia..|]. apply inline_settles.
    assert (S depth ≤ depth_limit) by (by inversion Ha). apply IH; lia.
  - intros stack depth scope r fb c m n _ IH id [|[|[|fuel]]] [|[|[|fuel']]] Hd Hf Hf'; [lia..|].
    apply loop_settles; [|by intros ?]. intros ? [= <-]. apply IH; lia.
  - intros stack depth scope g fb c m n Ha IH id [|[|fuel]] [|[|fuel']] Hd Hf Hf'; [lia..|].
    apply loop_settles; [by intros ?|]. intros ? [= <-]. assert (S depth ≤ depth_limit) by (by inversion Ha). apply IH; lia.
  - intros stack depth scope r Hr id fuel fuel' _ _. apply ref_settles. intros st g Hs. cbn in Hr. congruence.
  - by intros stack depth scope r st [].
  - intros stack depth scope r st p Hr _ Hb _ id fuel fuel' _ _. apply ref_settles. intros st' g Hs Hg. cbn in Hr. congruence.
  - intros stack depth scope r st g n Hr _ Hb _ Ha IH id fuel fuel' Hf Hf'. apply ref_settles. intros st' g' Hs Hg.
    cbn in Hr. assert (g' = g) as -> by congruence. assert (S depth ≤ depth_limit) by (by inversion Ha). apply IH; lia.
Qed.
End settling.

(** ** The claims *)
Definition nothing_told : preflight_state := mkPreflightState [] O.
Definition root_of (g : Graph) : ScopePath := mkScope [graph_name g].

Lemma quiet_authored repr env g s : preflight repr env g nothing_told = (Ok tt, s) → s.(pf_faults) = [] →
  ∃ n, n ≤ Pos.to_nat (limits env).(max_nodes) ∧ authored env True [] 1 (root_of g) g n.
Proof.
  intros Hs Hq. destruct (graph_sound _ _ _ _ _ _ _ _ _ _ _ (conj Hs Hq)) as (n & Ha & -> & Hw).
  exists n. split; [|done]. unfold within, after, nothing_told in Hw. cbn in Hw. lia.
Qed.
Lemma preflight_visits repr env g :
  (preflight repr env g nothing_told).1 ≠ Raise DepthExhausted ∧
  (preflight repr env g nothing_told).2.(node_count)
    ≤ Pos.to_nat (limits env).(max_nodes) + Pos.to_nat (limits env).(max_nested_graph_depth).
Proof.
  destruct (graph_bounded repr env (preflight_fuel env) g (root_of g) [] 1 [] ltac:(unfold preflight_fuel; lia) ltac:(done)
    nothing_told) as [Hr Hc]. split; [done|]. cbn in *. unfold preflight. fold (root_of g). lia.
Qed.
Lemma preflight_returns repr env g : (preflight repr env g nothing_told).1 ≠ Raise DepthExhausted.
Proof. apply preflight_visits. Qed.
Lemma admit_settles g snap cat caps root_grants inputs limits lock n :
  authored (mkPreflight snap cat limits (index_lock <$> lock)) False [] 1 (root_of g) g n →
  ∀ fuel fuel', 3 * Pos.to_nat limits.(max_nested_graph_depth) + 1 ≤ fuel →
    3 * Pos.to_nat limits.(max_nested_graph_depth) + 1 ≤ fuel' →
    admit_ fuel g snap cat caps root_grants inputs lock = admit_ fuel' g snap cat caps root_grants inputs lock ∧
    admit_ fuel g snap cat caps root_grants inputs lock ≠ Raise FuelExhausted.
Proof.
  intros Ha fuel fuel' Hf Hf'. unfold admit_. destruct (json_value inputs) as [[]|e]; try done. cbv zeta.
  set (env := mkEnv _ _ _ _ _).
  assert (settles (admit_compilation fuel g env root_grants (members.*1)) (admit_compilation fuel' g env root_grants (members.*1))) as Hs.
  { unfold admit_compilation. cbv zeta. do 2 (apply settles_then; [auto with total|intros _ _]).
    apply settles_then; [unfold check_run_inputs; totally|intros _ _].
    apply settles_then; [unfold root_sources; auto with total|intros sources _].
    apply settles_bind; [|intros outputs _; apply settles_refl; unfold bind_root_outputs, check_unused_pins, add_binding; totally].
    apply (proj1 (authored_settles env limits cat) _ _ _ _ _ Ha); lia. }
  destruct (Hs empty_comp) as [Heq Hx]. rewrite <-Heq.
  destruct (admit_compilation fuel _ _ _ _ _) as [[u|e] c]; [done|]. split; [done|]. intros [= ->]. by apply Hx.
Qed.

(** C20: What the preflight decides, exactly: it ends without a fault exactly when the graph,
    unfolded through the composites it resolves to, is nested within the limit, has at most the
    allowed number of nodes, distinct unreserved node ids at every level, no binding on a
    composite, and every atomic that declares its requirements bound to one capability of the
    kind for each and to nothing else. Three references are passed over unlooked at: one that
    resolves to nothing, one to a composite it is already within, whatever it binds, and one to
    an atomic that declares no requirements, whatever it binds. *)
Theorem preflight_is_exact repr env g :
  (* the preflight of a graph ends having told nothing *)
  (∃ s, preflight repr env g nothing_told = (Ok tt, s) ∧ s.(pf_faults) = []) ↔
  (* exactly when its unfolding, up to the references that are passed over, is well
     authored and within the node limit *)
  ∃ n, n ≤ Pos.to_nat (limits env).(max_nodes) ∧ authored env True [] 1 (root_of g) g n.
Proof.
  unfold preflight, preflight_fuel. split.
  - intros (s & Hs & Hq). by eapply quiet_authored.
  - intros (n & Hn & Ha). exists (after nothing_told n). split; [|done].
    by apply (proj1 (complete repr env) _ _ _ _ _ Ha); [lia|].
Qed.

Lemma fault_key_total : TotalLeb (λ x y, fault_key_leb (fault_key x) (fault_key y)).
Proof. unfold fault_key_leb, segs_leb. apply _. Qed.

(** C21: The preflight is bounded whatever it is given: it always ends, looks at no more nodes
    than the limit on nodes plus the limit on depth although composites may unfold
    exponentially, and its author is told a fault exactly when there is one, never more than
    the limit, and all of them in order when they fit. *)
Theorem preflight_is_bounded repr env g :
  let '(r, s) := preflight repr env g nothing_told in
  let told := _bounded_faults env s.(pf_faults) in
  let most := Pos.to_nat (limits env).(max_faults) in
  (* it ends, whatever the composites unfold to, *)
  r ≠ Raise DepthExhausted ∧
  (* having looked at one node a level more than the limit at most *)
  s.(node_count) ≤ Pos.to_nat (limits env).(max_nodes) + Pos.to_nat (limits env).(max_nested_graph_depth) ∧
  (* and an author is told something exactly when something is wrong, never too much, *)
  (told = [] ↔ s.(pf_faults) = []) ∧ length told ≤ most ∧
  (* everything when there is room, in the order of the faults' paths *)
  (length s.(pf_faults) ≤ most → told ≡ₚ s.(pf_faults) ∧
     StronglySorted (λ x y, fault_key_leb (fault_key x) (fault_key y) = true) told).
Proof.
  destruct (preflight_visits repr env g) as [Hr Hc]. destruct (preflight _ _ _ _) as [r s].
  cbv zeta. split; [done|]. split; [done|]. unfold _bounded_faults. cbv zeta.
  assert (length (sorted_by fault_key_leb fault_key s.(pf_faults)) = length s.(pf_faults)) as Hl.
  { unfold sorted_by. by rewrite py_sorted_perm. }
  rewrite Hl. destruct (Nat.leb_spec (length s.(pf_faults)) (Pos.to_nat (limits env).(max_faults))) as [Hle|Hgt].
  - split_and!; [|lia|intros _; split; [apply py_sorted_perm|apply (@py_sorted_sorted _ _ fault_key_total)]].
    split; intros H; apply length_zero_iff_nil; [by rewrite <-Hl, H|by rewrite Hl, H].
  - split_and!; [split; intros H|rewrite length_app, length_take; cbn; lia|lia].
    + by destruct (take _ _).
    + rewrite H in Hgt. cbn in Hgt. lia.
Qed.

(** C19: Admission terminates behind its boundary: unless a composite is within itself, an
    authored graph - whatever its composites unfold to - is admitted or refused by recursions
    no deeper than the authoring limit on nesting allows: from a bound computed from that limit
    on, more fuel changes nothing and neither the preflight nor the compiler runs out of it. *)
Theorem authored_graphs_settle repr g snap cat caps root_grants inputs limits lock :
  let env := mkPreflight snap cat limits (index_lock <$> lock) in
  (* unless a composite is within itself, *)
  (∀ n, authored env True [] 1 (root_of g) g n → ∃ m, authored env False [] 1 (root_of g) g m) →
  (* an authored graph is admitted or refused by a recursion no deeper than its limit allows *)
  ∃ r, r ≠ Raise (Unadmitted FuelExhausted) ∧ r ≠ Raise (PreflightRaised DepthExhausted) ∧
    ∀ fuel, 3 * Pos.to_nat limits.(max_nested_graph_depth) + 1 ≤ fuel →
      admit_authored_graph repr fuel g snap cat caps root_grants inputs limits lock = r.
Proof.
  intros env Hin. set (enough := 3 * Pos.to_nat (max_nested_graph_depth limits) + 1).
  assert (∀ fuel, admit_authored_graph repr fuel g snap cat caps root_grants inputs limits lock =
    match preflight repr env g nothing_told with
    | (Raise e, _) => Raise (PreflightRaised e)
    | (Ok _, s) => match s.(pf_faults) with
                   | [] => match admit_ fuel g snap cat caps root_grants inputs lock with
                           | Ok m => Ok m | Raise e => Raise (Unadmitted e) end
                   | l => Raise (PreflightRefused (_bounded_faults env l))
                   end
    end) as Hrun by done.
  pose proof (preflight_returns repr env g) as Hx. destruct (preflight repr env g nothing_told) as [[[]|e] s] eqn:E.
  2:{ eexists. split_and!; [| |intros fuel _; apply Hrun]; [done|]. intros [= ->]. by apply Hx. }
  destruct (pf_faults s) as [|f l] eqn:Es; [|by eexists; split_and!; [| |intros fuel _; apply Hrun]].
  destruct (quiet_authored _ _ _ _ E Es) as (n & _ & Ha). destruct (Hin n Ha) as [m Hm].
  pose proof (admit_settles g snap cat caps root_grants inputs limits lock m Hm) as Hadmit.
  exists (match admit_ enough g snap cat caps root_grants inputs lock with Ok m => Ok m | Raise e => Raise (Unadmitted e) end).
  destruct (Hadmit enough enough) as [_ Hf]; [lia..|]. split_and!.
  - destruct (admit_ enough _ _ _ _ _ _ _); [done|]. intros [= ->]. by apply Hf.
  - by destruct (admit_ enough _ _ _ _ _ _ _).
  - intros fuel Hfuel. rewrite Hrun. by destruct (Hadmit fuel enough) as [-> _]; [lia..|].
Qed.

(** ** Two registries: composites that end, and one that does not *)
Module Authored.
Definition composite (name : string) (g : Graph) : ComponentDef :=
  mkComponent name RoleComponent (CGraph g) (graph_inputs g) (graph_outputs g) (mkMetadata None None []) None.
(** [wrap] is a graph of one [start]; *)
Definition inner : Graph :=
  mkGraph "wrap" [mkNode "in" (BRef (Fixture.ref "start"))] []
    [Fixture.port "seed" "demo/Seed"] [Fixture.port "draft" "demo/State"].
Definition snapshot : RegistrySnapshot :=
  mkSnapshot (mkRevision 2 2)
    (list_to_map [("start", {[ Fixture.h1 := Fixture.stored Fixture.start Fixture.h1 ]});
                  ("wrap", {[ Fixture.h2 := Fixture.stored (composite "wrap" inner) Fixture.h2 ]})])
    (list_to_map [("start", [Fixture.h1]); ("wrap", [Fixture.h2])])
    (list_to_map [("start", Fixture.h1); ("wrap", Fixture.h2)]) ∅.
Definition graph : Graph :=
  mkGraph "demo" [mkNode "w" (BRef (Fixture.ref "wrap"))] [] [Fixture.port "seed" "demo/Seed"] [Fixture.port "draft" "demo/State"].
Definition limits : AdmissionLimits := mkLimits 1000 32 100 25.
Definition inputs : pyval := PDict [(PStr "seed", PStr "x")].
Definition quoted (s : string) : string := "'" +:+ s +:+ "'".
Definition admitted (fuel : nat) : result authored_exn ExecutionManifest :=
  admit_authored_graph quoted fuel graph snapshot ∅ ∅ Fixture.grants inputs limits None.
Example admitted_ok : is_ok (admitted 97) = true.
Proof. vm_compute. reflexivity. Qed.
Lemma graph_unfolds : authored (mkPreflight snapshot ∅ limits None) False [] 1 (root_of graph) graph 2.
Proof.
  constructor; [cbn; lia|repeat constructor; set_solver|by intros ? ->%list_elem_of_singleton|].
  apply (authored_cons _ _ _ _ _ _ _ 1 0); [|constructor]. constructor.
  eapply authored_composite with (st := Fixture.stored (composite "wrap" inner) Fixture.h2) (g := inner);
    [vm_compute; reflexivity|by intros ?%elem_of_nil|done..|].
  constructor; [cbn; lia|repeat constructor; set_solver|by intros ? ->%list_elem_of_singleton|].
  apply (authored_cons _ _ _ _ _ _ _ 0 0); [|constructor]. constructor.
  eapply authored_atomic with (st := Fixture.stored Fixture.start Fixture.h1); [vm_compute; reflexivity| |done|done].
  intros [=]%list_elem_of_singleton.
Qed.

(** [again] is a graph of one [again]: the preflight passes it, and the compiler
    recurses for ever. *)
Definition again_body : Graph := mkGraph "again" [mkNode "n" (BRef (Fixture.ref "again"))] [] [] [].
Definition again : StoredVersion := Fixture.stored (composite "again" again_body) Fixture.h1.
Definition again_snapshot : RegistrySnapshot :=
  mkSnapshot (mkRevision 1 1) {[ "again" := {[ Fixture.h1 := again ]} ]} {[ "again" := [Fixture.h1] ]} {[ "again" := Fixture.h1 ]} ∅.
Lemma bind_raises {A B} (m : M A) (f : A → M B) c e : (m c).1 = Raise e → (ebind m f c).1 = Raise e.
Proof. unfold ebind. destruct (m c) as [[a|e'] c']; cbn; congruence. Qed.
Section recursion.
Context (caps : gmap string LiveCapability) (hash : Digest).
Abbreviation env := (mkEnv again_snapshot ∅ caps hash None).
Lemma again_node_recurses fuel a c : a.(explicit) = [] →
  (∀ scope gr ld loc c, (_compile_graph env fuel again_body scope [] gr ld loc c).1 = Raise FuelExhausted) →
  (_compile_node env (S fuel) (mkNode "n" (BRef (Fixture.ref "again"))) a c).1 = Raise FuelExhausted.
Proof.
  intros Ha Hg. cbn [_compile_node]. unfold compile_node_body. cbn [node_body_of]. unfold compile_ref. cbv zeta.
  rewrite (ebind_eq _ _ _ (Some again) c) by reflexivity. rewrite (ebind_eq _ _ _ a.(grants) c) by reflexivity.
  erewrite ebind_eq by reflexivity. unfold bind_inputs. rewrite Ha. erewrite ebind_eq by reflexivity.
  cbn [body definition again Fixture.stored composite]. erewrite ebind_eq by reflexivity. cbv beta iota.
  erewrite ebind_eq by reflexivity. apply Hg.
Qed.
Lemma again_recurses fuel : ∀ scope gr ld loc c,
  (_compile_graph env fuel again_body scope [] gr ld loc c).1 = Raise FuelExhausted.
Proof.
  induction fuel as [fuel IH] using lt_wf_ind. intros scope gr ld loc c. destruct fuel as [|[|fuel]]; [done|reflexivity|].
  cbn [_compile_graph]. unfold compile_graph_body.
  rewrite (ebind_eq _ _ _ true c) by reflexivity. cbn [negb].
  rewrite (ebind_eq _ _ _ tt c) by reflexivity. do 2 rewrite (ebind_eq _ _ _ tt c) by reflexivity.
  erewrite ebind_eq by reflexivity. erewrite ebind_eq by reflexivity.
  apply bind_raises. cbn [efold]. apply bind_raises. unfold compile_one_node. cbv zeta. apply bind_raises.
  apply again_node_recurses; [reflexivity|]. intros. apply IH. lia.
Qed.
End recursion.
Lemma recursion_passes_preflight :
  (preflight quoted (mkPreflight again_snapshot ∅ limits None) again_body nothing_told).2.(pf_faults) = [] ∧
  ∀ fuel, admit_authored_graph quoted fuel again_body again_snapshot ∅ ∅ Fixture.grants (PDict []) limits None
    = Raise (Unadmitted FuelExhausted).
Proof.
  split; [vm_compute; reflexivity|]. intros fuel. unfold admit_authored_graph. cbv zeta.
  replace (preflight quoted _ _ _) with (Ok (E:=preflight_exn) tt, mkPreflightState [] 2) by (vm_compute; reflexivity).
  cbn [pf_faults]. unfold admit_. replace (json_value (PDict [])) with (Ok (E:=value_error) (JObj [])) by reflexivity.
  cbv zeta. set (run := admit_compilation _ _ _ _ _ _).
  assert (run.1 = Raise FuelExhausted) as Hr; [|destruct run as [r c]; cbn in Hr; by subst r].
  unfold run, admit_compilation. cbv zeta. do 3 rewrite (ebind_eq _ _ _ tt empty_comp) by reflexivity.
  erewrite ebind_eq by reflexivity. apply bind_raises, again_recurses.
Qed.
End Authored.

Lemma authored_graphs_settle_witness :
  ∃ r, r ≠ Raise (Unadmitted FuelExhausted) ∧ ∀ fuel, 97 ≤ fuel → Authored.admitted fuel = r.
Proof.
  destruct (authored_graphs_settle Authored.quoted Authored.graph Authored.snapshot ∅ ∅ Fixture.grants Authored.inputs
    Authored.limits None) as (r & Hr & _ & H).
  - intros n _. exists 2. exact Authored.graph_unfolds.
  - exists r. split; [exact Hr|exact H].
Defined.
